(* ===== verification/_CoqProject ===== *)
-Q . S2P
Prelude.v
JsMap.v
JsNumber.v
JsFloat32.v
Regex.v
JsString.v
Values.v
Base64.v
SessionValidation.v
CommandGuard.v
CommandGuardProps.v
CommandGuardRuns.v
DeliveryQueue.v
DeliveryQueueRuns.v
RequestCache.v
ConfigTypes.v
ConfigValidation.v
ConfigBinding.v
ConfigProps.v
ConfigVideo.v
CodecTypes.v
CodecScalars.v
CodecSchema.v
Json.v
JsonProps.v
Codec.v
CodecProps.v
CodecDecode.v
CodecMain.v
Descriptor.v
Representation.v
Sdp.v
SdpProps.v
Endpoint.v
EndpointProps.v
Deframer.v
VideoSource.v
VideoSourceProps.v
VideoSourceRuns.v
MediaService.v
Fixture.v
Worker.v
Protocol.v
VideoRouter.v
Router.v
RouterProps.v
RouterInv.v
RouterOps.v
RouterRuns.v
RouterDemo.v
RouterAuth.v
RouterFrame.v
Peer.v
PeerDemo.v
Adapter.v
AdapterProps.v
Rclnodejs.v
Registry.v
Signaling.v
SignalingProps.v
Options.v
Launch.v
WorkerPort.v
Cli.v
Runtime.v
RuntimeProps.v
RuntimeRuns.v
Credential.v
CredentialProps.v
FileSystem.v
CredentialRace.v
CredentialRuns.v
