(* ===== verification/Prelude.v ===== *)
(** * ros-webrtc-bridge: verification library

    The bridge lets browsers use ROS topics and cameras over WebRTC.  One
    process owns the native ROS entities ([ros/]), an HTTPS server that turns an
    authenticated offer into a peer ([signaling/]), and for every peer an
    endpoint with three data channels ([transport/]) and a router that speaks
    the wire protocol on them ([router/]).  The router converts values by codec
    descriptors ([codec/]), asks one command guard shared by all peers for the
    authority to publish ([session/]), queues what it sends ([session/]) and
    answers retransmissions from a cache ([router/]); video goes from encoders
    in processes of their own to negotiated sections of the peers ([media/]).
    The table of topics comes from a validated document ([config/]), everything
    is assembled and taken down by [app/], and the bearer credential lives in a
    file written by [scripts/credential-store.mjs].  Paths below are relative to
    [packages/bridge/src], except that last one.

    ** How the code is modelled

    Code that can throw is a [result]; the methods of an object that can throw
    are [ST] over the object's fields as a record, and the state survives a
    throw as it does in JavaScript.  Integers the code has validated are [Z];
    everything computed on doubles is computed on doubles ([JsNumber]).  Strings
    are their UTF-16 code units, buffers are lists of bytes, a [Map] is an
    association list in insertion order ([JsMap]), and values from outside are
    [jsval], with the holes, accessors and prototypes the code tests for
    ([Values]).  Asynchronous code is cut at its awaits and callbacks: each
    piece is one definition, and what happens between them (timers, sockets,
    promises, processes, the clock) is an event of a step relation or a run, in
    any order; theorems about a component are about every run.  The credential
    store is a program of system calls, over a file system shared by any number
    of processes.

    Interfaces are classes: [Endpoint.RouterPort] with its laws
    [Endpoint.RouterLaws], discharged by the router in [Peer];
    [VideoRouter.VideoAccess] and [VideoRouter.HasVideo], instantiated by
    [Router]; [Adapter.RosBackend], implemented by [Mock] and by [Rclnodejs];
    and [SoundHook], the authorization hooks the guard may call back into.

    ** The files

    Language and shared lemmas: [Prelude] (the two monads, [preserves], [moves]
    and [triple], and the tactics [inv_res], [inv_st], [run_st], [bools],
    [moving]); [JsMap]; [JsNumber] and [JsFloat32]; [Regex]; [JsString];
    [Values]; [Base64]; [Json] and [JsonProps].

    - [session/validation.ts]: [SessionValidation].
    - [session/command-guard.ts]: [CommandGuard]; its invariants in
      [CommandGuardProps], its runs in [CommandGuardRuns].
    - [session/delivery-queue.ts]: [DeliveryQueue], refined to one abstract
      machine per stream in [DeliveryQueueRuns].
    - [router/request-cache.ts]: [RequestCache].
    - [config/types.d.ts], [validation.ts], [binding.ts] with [index.ts],
      [video.ts]: [ConfigTypes], [ConfigValidation], [ConfigBinding] with
      [ConfigProps], [ConfigVideo].
    - [codec/types.d.ts], [scalars.ts], [schema.ts], [index.ts]: [CodecTypes],
      [CodecScalars], [CodecSchema], [Codec]; [CodecProps], [CodecDecode] and
      [CodecMain] hold the theorems.
    - [ros/descriptor.ts], [representation.ts], [adapter.ts] with [mock.ts] and
      [types.d.ts], [rclnodejs.ts]: [Descriptor], [Representation], [Adapter]
      with [AdapterProps], [Rclnodejs].
    - [transport/sdp.ts], [endpoint.ts] and [types.d.ts]: [Sdp] with [SdpProps],
      [Endpoint] with [EndpointProps].
    - [media/worker.ts]: [Deframer] (its two framings) and [Worker];
      [media/fixture.ts]: [Fixture]; [media/source.ts]: [VideoSource] with
      [VideoSourceProps] and [VideoSourceRuns]; [media/index.ts]:
      [MediaService].
    - [router/protocol.ts], [video.ts], [index.ts]: [Protocol], [VideoRouter],
      [Router]; [RouterProps] (what sending and closing leave alone, and the
      equation of [flush]), [RouterInv] and [RouterOps] (the invariant and its
      preservation), [RouterRuns], [RouterAuth] (the origin of a command),
      [RouterFrame] (what a router reaches of its surroundings, and what closing
      it does to its session), [RouterDemo] (concrete sessions).
    - an endpoint together with its router: [Peer], [PeerDemo].
    - [signaling/handler.ts], [docs.ts], [openapi.ts]: [Signaling] with
      [SignalingProps].
    - [app/cli.ts]: [Options] (the environment), [Launch] ([launch]),
      [WorkerPort] ([workerPort]), [Cli] ([main], [listenHttps] and
      [videoSlot]);
      [app/registry.ts]: [Registry]; [app/runtime.ts]: [Runtime] with
      [RuntimeProps] and [RuntimeRuns].
    - [scripts/credential-store.mjs]: [Credential]; [FileSystem] is the
      documented behaviour of the calls it makes, [CredentialProps],
      [CredentialRace] and [CredentialRuns] hold the theorems.

    A definition has the name of the function or method it translates; the
    methods of a class are the definitions of the module named after it.

    ** What the theorems show

    Commands: a value reaches ROS only from an envelope of a peer whose topic,
    permission, rate, sequence number and, for a guarded topic, lease allowed it
    ([commands_authorized], [publish_authority]); the commands of a publisher
    come in increasing sequence ([commands_in_order]); a lease is exclusive and
    the guard stays well formed ([guard_invariant]).

    A peer: its handles, queues and cache stay within their limits
    ([router_bounded], [queue_invariant], [admission_bounded]); [flush] ends
    ([flush_equation]); messages of a reliable stream arrive in order, once
    ([reliable_fifo]); an accepted offer has only what the transport supports
    ([offer_sound]); traffic keeps to the negotiated limits and a peer is closed
    once ([peer_within_limits], [peer_closed_once]); the wire carries exactly
    what the router sent, and a closed peer has a closed router and a revoked
    session ([peer_transmits]).

    Values: decoding undoes encoding and returns the declared type
    ([decode_encode], [decode_typed]); a generated descriptor means its ROS
    definition ([descriptor_sound]).

    ROS and the process: one native entity per output, used only while the
    adapter runs, and on the topic the configuration names ([adapter_safe],
    [entities_where_configured]); an accepted configuration is safe
    ([config_sound]), its registry usable, its schema identifiers canonical
    ([registry_usable], [canonical_spec]); nothing native is loaded before the
    settings are valid ([validated_before_native], [ice_options]); peers only
    within the limit, commands only with a scope, every accepted offer routed,
    and a shutdown in order and complete ([peers_admitted],
    [commands_need_scope], [every_offer_routed], [shutdown_in_order],
    [shutdown_completes]); the HTTP handler authenticates first, answers every
    request once, and as its specification says ([offers_admitted],
    [every_request_answered], [openapi_contract]).

    Media: packets keep one numbering, an encoder nobody watches stops, the
    number of encoders is bounded ([numbering_continuous], [source_lifecycle],
    [unwatched_encoder_stops], [pipelines_bounded]); a worker's output is cut
    the same however it is chunked, and a stopped worker stays silent
    ([frames_any_chunking], [stopped_worker_is_silent],
    [departure_reported_once]).

    The credential: however many processes race, one complete credential is
    published, never replaced, and all of them return it ([published_once]);
    every handle and staging directory is released, and a returned credential
    is durable ([nothing_left_behind]).

    ** Fuel and bounds

    [Router.flush_fuel] bounds a mutual recursion; [flush_equation] shows that
    the fuel [fuel_of] computes (the subscriptions and watched tracks that
    revocation can still take away) is always enough, so that [flush] satisfies
    the equation of the code.  [Router.drain_loop] has one turn more than there
    are queued messages.  [FileSystem.play] is only used to run examples.  The
    other recursions are structural.

    ** What is not modelled

    Third-party code is a parameter, with what the code relies on as named
    hypotheses: the YAML parser and writer, SHA-256, the type generator and the
    addon of rclnodejs, the WebRTC implementation (vendored under vendor/), the
    HTTP server and the file system of Node.  [loadModule] of [app/cli.ts]
    is [import()], and the entry points at the end of the scripts only pass the
    arguments on.  [randomUUID] and the clock may give
    any value.  The Python worker and launch file and the shell wrapper are
    other programs.  One reading of the clock serves one operation of the
    router, where the code reads it again within the operation; a data channel's
    [bufferedAmount] changes between events, not by a send within one, and its
    [send] does not throw; the router's test that a binding is one of the
    configured objects compares their contents; and a string too long for the
    engine is not an error. *)

From Stdlib Require Export ZArith Lia Ascii String.
From stdpp Require Export base list strings gmap.
Open Scope Z_scope.

(** ** Strings

    A JavaScript string is its sequence of UTF-16 code units.  [js] writes an
    ASCII literal as such a sequence. *)

Abbreviation jsstr := (list Z).

Definition js (s : string) : jsstr :=
  map (fun a => Z.of_N (N_of_ascii a)) (list_ascii_of_string s).

(** ** Errors

    The values the code throws.  Messages of [Error] and [TypeError] are the
    literals of the source, [ErrorText] is an [Error] whose message is computed;
    a [ConfigError] carries the configuration path it
    was built from and the reason. *)

Inductive js_error : Type :=
| Error (message : string)
| ErrorText (message : jsstr)
| TypeError (message : string)
| ConfigError (path : jsstr) (reason : string)
| AggregateError (errors : list js_error) (message : string).

(** ** Results of code that can throw *)

Inductive result (A : Type) : Type :=
| Ok (a : A)
| Throw (e : js_error).
Arguments Ok {A} a.
Arguments Throw {A} e.

#[export] Instance result_ret : MRet result := fun A a => Ok a.
#[export] Instance result_bind : MBind result := fun A B f m =>
  match m with Ok a => f a | Throw e => Throw e end.
#[export] Instance result_throw : MThrow js_error result := fun A e => Throw e.
#[export] Instance result_fmap : FMap result := fun A B f m =>
  match m with Ok a => Ok (f a) | Throw e => Throw e end.

Definition is_ok {A} (r : result A) : bool :=
  match r with Ok _ => true | Throw _ => false end.

Definition of_option {A} (e : js_error) (o : option A) : result A :=
  match o with Some a => Ok a | None => Throw e end.

(** ** Methods of an object that can throw

    The state survives a [throw], as the fields of a JavaScript object do. *)

Definition ST (S A : Type) : Type := S -> result A * S.

#[export] Instance ST_ret {S} : MRet (ST S) := fun A a s => (Ok a, s).
#[export] Instance ST_bind {S} : MBind (ST S) := fun A B f m s =>
  match m s with
  | (Ok a, s') => f a s'
  | (Throw e, s') => (Throw e, s')
  end.
#[export] Instance ST_throw {S} : MThrow js_error (ST S) := fun A e s => (Throw e, s).

Definition get {S} : ST S S := fun s => (Ok s, s).
Definition put {S} (s : S) : ST S unit := fun _ => (Ok tt, s).
Definition gets {S A} (f : S -> A) : ST S A := fun s => (Ok (f s), s).
Definition modify {S} (f : S -> S) : ST S unit := fun s => (Ok tt, f s).
Definition lift {S A} (r : result A) : ST S A := fun s => (r, s).
(** [try { m } catch (error) { h error }]: the state changes of [m] stay. *)
Definition catch {S A} (m : ST S A) (h : js_error -> ST S A) : ST S A := fun s =>
  match m s with
  | (Ok a, s') => (Ok a, s')
  | (Throw e, s') => h e s'
  end.

(** [throw_when b e] is [if (b) throw e]; [require b e] is its opposite. *)
Definition throw_when {M : Type -> Type} `{MRet M, MThrow js_error M}
  (b : bool) (e : js_error) : M unit := if b then mthrow e else mret tt.
Definition require {M : Type -> Type} `{MRet M, MThrow js_error M}
  (b : bool) (e : js_error) : M unit := if b then mret tt else mthrow e.

(** [for (const x of l) f(x)] over results, collecting the values. *)
Fixpoint mapR {A B} (f : A -> result B) (l : list A) : result (list B) :=
  match l with
  | [] => Ok []
  | x :: l => y ← f x; ys ← mapR f l; Ok (y :: ys)
  end.

(** The same for methods of an object. *)
Section mapS.
Context {S A B : Type} (f : A -> ST S B).
Fixpoint mapS (l : list A) : ST S (list B) :=
  match l with
  | [] => mret []
  | x :: l => y ← f x; ys ← mapS l; mret (y :: ys)
  end.
End mapS.

(** ** Laws of the monads and the tactics that use them *)

Lemma result_bind_Ok {A B} (m : result A) (f : A -> result B) b :
  (m ≫= f) = Ok b <-> exists a, m = Ok a /\ f a = Ok b.
Proof. destruct m; simpl; naive_solver. Qed.

Lemma result_bind_Throw {A B} (m : result A) (f : A -> result B) e :
  (m ≫= f) = Throw e <-> m = Throw e \/ exists a, m = Ok a /\ f a = Throw e.
Proof. destruct m; simpl; naive_solver. Qed.

(** Run the head of a bind. *)
Lemma bind_step {A B} {m : result A} {a} {f : A -> result B} {r} : m = Ok a -> f a = r -> (m ≫= f) = r.
Proof. by intros -> <-. Qed.
Lemma throw_when_step {B} {b : bool} {e} {f : unit -> result B} {r} :
  b = false -> f tt = r -> (throw_when b e ≫= f) = r.
Proof. by intros -> <-. Qed.

Lemma throw_when_Ok (b : bool) e u : throw_when (M := result) b e = Ok u <-> b = false.
Proof. destruct b, u; simpl; split; (discriminate || done || intros; reflexivity). Qed.

Lemma require_Ok (b : bool) e u : require (M := result) b e = Ok u <-> b = true.
Proof. destruct b, u; simpl; split; (discriminate || done || intros; reflexivity). Qed.

Lemma of_option_Ok {A} e (o : option A) a : of_option e o = Ok a <-> o = Some a.
Proof. destruct o; simpl; naive_solver. Qed.

Lemma mapR_Ok {A B} (f : A -> result B) l ys :
  mapR f l = Ok ys <-> Forall2 (fun x y => f x = Ok y) l ys.
Proof.
  revert ys. induction l as [|x l IH]; intros ys; simpl.
  - split; [intros [= <-]; constructor | by inversion 1].
  - rewrite result_bind_Ok. split.
    + intros (y & Hy & (zs & Hzs & [= <-])%result_bind_Ok). constructor; naive_solver.
    + inversion 1; subst. eexists; split; [done|].
      apply result_bind_Ok. naive_solver.
Qed.

(** Split every successful bind, guard and lookup among the hypotheses. *)
Ltac inv_res :=
  repeat match goal with
  | H : (_ ≫= _) = Ok _ |- _ =>
      apply result_bind_Ok in H; let a := fresh "x" in let H1 := fresh "Hx" in
      destruct H as (a & H1 & H)
  | H : throw_when _ _ = Ok ?u |- _ => apply throw_when_Ok in H; try clear u
  | H : require _ _ = Ok ?u |- _ => apply require_Ok in H; try clear u
  | H : of_option _ _ = Ok _ |- _ => apply of_option_Ok in H
  | H : mret _ = Ok _ |- _ => injection H as H
  | H : Ok _ = Ok _ |- _ => injection H as H
  | H : Throw _ = Ok _ |- _ => discriminate H
  | H : Ok _ = Throw _ |- _ => discriminate H
  | H : mthrow _ = Ok _ |- _ => discriminate H
  end.

Lemma ST_bind_eq {S A B} (m : ST S A) (f : A -> ST S B) s :
  (m ≫= f) s = match m s with (Ok a, s') => f a s' | (Throw e, s') => (Throw e, s') end.
Proof. reflexivity. Qed.

Lemma get_bind {S B} (f : S -> ST S B) s : (get ≫= f) s = f s s.
Proof. reflexivity. Qed.
Lemma gets_bind {S A B} (g : S -> A) (f : A -> ST S B) s : (gets g ≫= f) s = f (g s) s.
Proof. reflexivity. Qed.

Lemma ST_bind_Ok {S A B} (m : ST S A) (f : A -> ST S B) s b s' :
  (m ≫= f) s = (Ok b, s') <-> exists a s1, m s = (Ok a, s1) /\ f a s1 = (Ok b, s').
Proof. rewrite ST_bind_eq. destruct (m s) as [[a|e] s1]; naive_solver. Qed.

Lemma ST_bind_Throw {S A B} (m : ST S A) (f : A -> ST S B) s e s' :
  (m ≫= f) s = (Throw e, s') <->
  m s = (Throw e, s') \/ exists a s1, m s = (Ok a, s1) /\ f a s1 = (Throw e, s').
Proof. rewrite ST_bind_eq. destruct (m s) as [[a|e'] s1]; naive_solver. Qed.

Lemma lift_Ok {S A} (r : result A) (s : S) a s' : lift r s = (Ok a, s') <-> r = Ok a /\ s' = s.
Proof. unfold lift. naive_solver. Qed.

(** Run the head of a bind in the state monad. *)
Lemma ST_step {S A B} {m : ST S A} {f : A -> ST S B} {s a s1 r} :
  m s = (Ok a, s1) -> f a s1 = r -> (m ≫= f) s = r.
Proof. rewrite ST_bind_eq. by intros -> <-. Qed.
Lemma lift_step {S A B} {m : result A} {f : A -> ST S B} {s a r} :
  m = Ok a -> f a s = r -> (lift m ≫= f) s = r.
Proof. intros Hm Hf. rewrite ST_bind_eq, Hm. exact Hf. Qed.

(** Split every successful step of a method among the hypotheses. *)
Ltac inv_st :=
  repeat match goal with
  | H : (_ ≫= _) _ = (Ok _, _) |- _ =>
      apply ST_bind_Ok in H; let a := fresh "y" in let s := fresh "s" in let H1 := fresh "Hy" in
      destruct H as (a & s & H1 & H)
  | H : lift _ _ = (Ok _, _) |- _ => apply lift_Ok in H as [H ?]; subst
  | H : mret _ _ = (Ok _, _) |- _ => injection H as H ?; subst
  | H : (Ok _, _) = (Ok _, _) |- _ => injection H as H ?; subst
  | H : (Throw _, _) = (Ok _, _) |- _ => discriminate H
  | H : mthrow _ _ = (Ok _, _) |- _ => discriminate H
  end.

Lemma mapS_cons_Ok {S A B} (f : A -> ST S B) x l s ys s' :
  mapS f (x :: l) s = (Ok ys, s') <->
  exists y s1 ys', f x s = (Ok y, s1) /\ mapS f l s1 = (Ok ys', s') /\ ys = y :: ys'.
Proof.
  simpl. split.
  - intros H. inv_st. naive_solver.
  - intros (y & s1 & ys' & Hy & Hys & ->). apply (ST_step Hy), (ST_step Hys). done.
Qed.

Lemma mapS_length {S A B} (f : A -> ST S B) l s ys s' :
  mapS f l s = (Ok ys, s') -> length ys = length l.
Proof.
  revert s ys. induction l as [|x l IH]; intros s ys; [by intros [= <- _]|].
  intros (y & s1 & ys' & _ & Hys & ->)%mapS_cons_Ok. simpl. f_equal. by eapply IH.
Qed.

(** A second traversal that undoes the first, item by item. *)
Lemma mapS_inverse {S A B C} (f : A -> ST S B) (g : B -> ST S C) (h : A -> C) l s ys s' :
  Forall (fun x => forall s y s', f x s = (Ok y, s') -> g y s = (Ok (h x), s')) l ->
  mapS f l s = (Ok ys, s') -> mapS g ys s = (Ok (map h l), s').
Proof.
  intros Hl. revert s ys. induction Hl as [|x l Hx _ IH]; intros s ys; [by intros [= <- <-]|].
  intros (y & s1 & ys' & Hy & Hys & ->)%mapS_cons_Ok. simpl.
  apply (ST_step (Hx _ _ _ Hy)), (ST_step (IH _ _ Hys)). done.
Qed.

Lemma mapS_map {S A B C} (f : B -> ST S C) (g : A -> B) l s :
  mapS f (map g l) s = mapS (fun x => f (g x)) l s.
Proof.
  revert s. induction l as [|x l IH]; intros s; [done|]. simpl. rewrite !ST_bind_eq.
  destruct (f (g x) s) as [[y|e] s1]; [|done]. by rewrite !ST_bind_eq, IH.
Qed.

Lemma mapS_ext {S A B} (f g : A -> ST S B) l s :
  (forall x s, f x s = g x s) -> mapS f l s = mapS g l s.
Proof.
  intros Hfg. revert s. induction l as [|x l IH]; intros s; [done|]. simpl.
  rewrite !ST_bind_eq, Hfg. destruct (g x s) as [[y|e] s1]; [|done]. by rewrite !ST_bind_eq, IH.
Qed.

(** A second traversal over images that gives the same results. *)
Lemma mapS_again {S A B C} (f : A -> ST S B) (g : C -> ST S B) (h : A -> C) l s ys s' :
  Forall (fun x => forall s y s', f x s = (Ok y, s') -> g (h x) s = (Ok y, s')) l ->
  mapS f l s = (Ok ys, s') -> mapS g (map h l) s = (Ok ys, s').
Proof.
  intros Hl. revert s ys. induction Hl as [|x l Hx _ IH]; intros s ys; [by intros [= <- <-]|].
  intros (y & s1 & ys' & Hy & Hys & ->)%mapS_cons_Ok. simpl.
  apply (ST_step (Hx _ _ _ Hy)), (ST_step (IH _ _ Hys)). done.
Qed.

(** Two traversals of one list in step. *)
Lemma mapS_pairs {S A B C} (f : A -> ST S B) (g : A -> ST S C) (h : A -> B -> C) l s ys s' :
  (forall x y, (x, y) ∈ zip l ys -> forall s s', f x s = (Ok y, s') -> g x s = (Ok (h x y), s')) ->
  mapS f l s = (Ok ys, s') -> mapS g l s = (Ok (zip_with h l ys), s').
Proof.
  revert s ys. induction l as [|x l IH]; intros s ys Hl; [by intros [= <- <-]|].
  intros (y & s1 & ys' & Hy & Hys & ->)%mapS_cons_Ok. simpl in *.
  apply (ST_step (Hl x y ltac:(left) _ _ Hy)).
  refine (ST_step (IH _ _ _ Hys) _); [|done]. intros x' y' Hin. apply Hl. by right.
Qed.

Lemma zip_with_fst {A B C} (h : A -> C) (l : list A) (k : list B) :
  length k = length l -> zip_with (fun x _ => h x) l k = map h l.
Proof. revert k. induction l as [|x l IH]; intros [|y k] Hl; simplify_eq/=; [done|]. f_equal. auto. Qed.
Lemma zip_with_snd {A B} (l : list A) (k : list B) :
  length k = length l -> zip_with (fun _ y => y) l k = k.
Proof. revert k. induction l as [|x l IH]; intros [|y k] Hl; simplify_eq/=; [done|]. f_equal. auto. Qed.

Lemma mapS_Forall {S A B} (f : A -> ST S B) (Q : B -> Prop) l s ys s' :
  Forall (fun x => forall s y s', f x s = (Ok y, s') -> Q y) l ->
  mapS f l s = (Ok ys, s') -> Forall Q ys.
Proof.
  intros Hl. revert s ys. induction Hl as [|x l Hx _ IH]; intros s ys; [by intros [= <- _]|].
  intros (y & s1 & ys' & Hy & Hys & ->)%mapS_cons_Ok. constructor; eauto.
Qed.

Lemma mapS_Throw {S A B} (f : A -> ST S B) (P : js_error -> Prop) l s e s' :
  Forall (fun x => forall s e s', f x s = (Throw e, s') -> P e) l ->
  mapS f l s = (Throw e, s') -> P e.
Proof.
  intros Hl. revert s. induction Hl as [|x l Hx _ IH]; intros s; [done|]. simpl.
  rewrite ST_bind_eq. destruct (f x s) as [[y|e'] s1] eqn:Hf; [|intros [= -> _]; eauto].
  rewrite ST_bind_eq. specialize (IH s1). destruct (mapS f l s1) as [[ys|e'] s2]; [done|].
  intros [= -> ->]. by apply IH.
Qed.

(** An object invariant kept by a method, whether it returns or throws. *)
Definition preserves {S A} (I : S -> Prop) (m : ST S A) : Prop :=
  forall s, I s -> I (m s).2.

Section preserves.
Context {S : Type} (I : S -> Prop).

Lemma preserves_ret {A} (a : A) : preserves I (mret a).
Proof. by intros s. Qed.
Lemma preserves_throw {A} (e : js_error) : preserves (A := A) I (mthrow e).
Proof. by intros s. Qed.
Lemma preserves_lift {A} (r : result A) : preserves I (lift r).
Proof. by intros s. Qed.
Lemma preserves_gets {A} (f : S -> A) : preserves I (gets f).
Proof. by intros s. Qed.
Lemma preserves_throw_when b e : preserves I (throw_when b e).
Proof. destruct b; by intros s. Qed.
Lemma preserves_require b e : preserves I (require b e).
Proof. destruct b; by intros s. Qed.
Lemma preserves_bind {A B} (m : ST S A) (f : A -> ST S B) :
  preserves I m -> (forall a, preserves I (f a)) -> preserves I (m ≫= f).
Proof.
  intros Hm Hf s Hs. rewrite ST_bind_eq. specialize (Hm s Hs).
  destruct (m s) as [[a|e] s']; [by apply Hf | done].
Qed.
Lemma preserves_catch {A} (m : ST S A) h :
  preserves I m -> (forall e, preserves I (h e)) -> preserves I (catch m h).
Proof.
  intros Hm Hh s Hs. unfold catch. specialize (Hm s Hs).
  destruct (m s) as [[a|e] s']; [done | by apply Hh].
Qed.
End preserves.

Lemma preserves_get_bind {S A} (I : S -> Prop) (f : S -> ST S A) :
  (forall x, I x -> I (f x x).2) -> preserves I (get ≫= f).
Proof. intros H x Hx. by apply H. Qed.
Lemma preserves_modify {S} (I : S -> Prop) (f : S -> S) : (forall x, I x -> I (f x)) -> preserves I (modify f).
Proof. intros H x Hx. by apply H. Qed.
Lemma preserves_mapS {S A B} (I : S -> Prop) (f : A -> ST S B) l :
  (forall x, preserves I (f x)) -> preserves I (mapS f l).
Proof.
  intros Hf. induction l as [|x l IH]; [apply preserves_ret|].
  apply preserves_bind; [done|]. intros y. apply preserves_bind; [done|]. intros ys. apply preserves_ret.
Qed.


(** The same at one state. *)
Lemma bind_at {S A B} (I : S -> Prop) (m : ST S A) (f : A -> ST S B) x :
  I (m x).2 -> (forall a, preserves I (f a)) -> I ((m ≫= f) x).2.
Proof.
  intros Hm Hf. rewrite ST_bind_eq. destruct (m x) as [[a|e] x']; [by apply Hf | done].
Qed.

Create HintDb bridge.
#[export] Hint Resolve preserves_ret preserves_throw preserves_lift preserves_gets
  preserves_throw_when preserves_require preserves_bind preserves_catch preserves_mapS : bridge.

(** Run a method in the goal or the hypotheses: unfold the monad and split on
    every test the code makes. *)
Ltac unfold_st :=
  cbv [mret mbind mthrow ST_ret ST_bind ST_throw get put gets modify lift catch
       throw_when require] in *; cbn beta iota zeta in *.
Ltac run_st := unfold_st; repeat (case_match; simplify_eq/=).

(** ** Booleans as the code writes them *)

Definition opt_eqb {A} `{EqDecision A} (x y : option A) : bool := bool_decide (x = y).

Lemma negb_bool_decide P `{Decision P} : negb (bool_decide P) = bool_decide (¬ P).
Proof. by rewrite bool_decide_not. Qed.

(** Turn boolean tests into propositions. *)
Ltac bools :=
  repeat match goal with
  | H : _ && _ = true |- _ => apply andb_true_iff in H as [? ?]
  | H : _ || _ = false |- _ => apply orb_false_iff in H as [? ?]
  | H : negb _ = true |- _ => apply negb_true_iff in H
  | H : negb _ = false |- _ => apply negb_false_iff in H
  | H : bool_decide _ = true |- _ => apply bool_decide_eq_true in H
  | H : bool_decide _ = false |- _ => apply bool_decide_eq_false in H
  | H : (_ <? _) = true |- _ => apply Z.ltb_lt in H
  | H : (_ <? _) = false |- _ => apply Z.ltb_ge in H
  | H : (_ <=? _) = true |- _ => apply Z.leb_le in H
  | H : (_ <=? _) = false |- _ => apply Z.leb_gt in H
  | H : (_ =? _) = true |- _ => apply Z.eqb_eq in H
  | H : (_ =? _) = false |- _ => apply Z.eqb_neq in H
  end.

(** ** Lengths as integers *)

Definition zlength {A} (l : list A) : Z := Z.of_nat (length l).

Lemma zlength_nonneg {A} (l : list A) : 0 <= zlength l.
Proof. unfold zlength. lia. Qed.

Lemma zlength_app {A} (l k : list A) : zlength (l ++ k) = zlength l + zlength k.
Proof. unfold zlength. rewrite length_app. lia. Qed.

Lemma zlength_nil {A} : zlength (@nil A) = 0.
Proof. done. Qed.
Lemma zlength_cons {A} (x : A) l : zlength (x :: l) = zlength l + 1.
Proof. unfold zlength. simpl. lia. Qed.

(** Sum of a measure over a list. *)
Definition zsum {A} (f : A -> Z) (l : list A) : Z := foldr (fun x n => f x + n) 0 l.

Lemma zsum_app {A} (f : A -> Z) l k : zsum f (l ++ k) = zsum f l + zsum f k.
Proof. induction l as [|x l IH]; simpl; [done | rewrite IH; lia]. Qed.

Lemma zsum_nonneg {A} (f : A -> Z) l : (forall x, 0 <= f x) -> 0 <= zsum f l.
Proof. intros Hf. induction l as [|x l IH]; simpl; [done | specialize (Hf x); lia]. Qed.

Lemma zsum_elem_nonneg {A} (f : A -> Z) l : (forall x, x ∈ l -> 0 <= f x) -> 0 <= zsum f l.
Proof.
  induction l as [|x l IH]; simpl; [done|]. intros Hf.
  pose proof (Hf x ltac:(left)). assert (0 <= zsum f l) by (apply IH; intros; apply Hf; by right). lia.
Qed.

#[export] Hint Rewrite @zlength_app @zlength_cons @zlength_nil @zsum_app : bridge.

(** ** One object inside another

    [on get set m] runs the method [m] of an inner object; [attempt m] is the
    body of a [try] whose outcome is inspected afterwards. *)

Definition on {S T A} (inner : S -> T) (outer : T -> S -> S) (m : ST T A) : ST S A := fun s =>
  let '(r, t) := m (inner s) in (r, outer t s).
Definition attempt {S A} (m : ST S A) : ST S (result A) := fun s => let '(r, s') := m s in (Ok r, s').

Lemma preserves_on {S T A} (I : S -> Prop) (inner : S -> T) outer (m : ST T A) :
  (forall s, I s -> I (outer (m (inner s)).2 s)) -> preserves I (on inner outer m).
Proof. intros H s Hs. unfold on. specialize (H s Hs). by destruct (m (inner s)). Qed.
Lemma preserves_attempt {S A} (I : S -> Prop) (m : ST S A) : preserves I m -> preserves I (attempt m).
Proof. intros H s Hs. unfold attempt. specialize (H s Hs). by destruct (m s). Qed.
Lemma preserves_if {S A} (I : S -> Prop) (b : bool) (m n : ST S A) :
  preserves I m -> preserves I n -> preserves I (if b then m else n).
Proof. by destruct b. Qed.
#[export] Hint Resolve preserves_attempt preserves_if : bridge.

(** ** Relations between the states before and after a method

    [moves R m]: whatever [m] returns or throws, [R] holds from its start to
    its end.  Over a preorder it composes along the monad. *)

Definition moves {S A} (R : relation S) (m : ST S A) : Prop := forall s, R s (m s).2.

Section moves.
Context {S : Type} (R : relation S) `{!PreOrder R}.

Lemma moves_ret {A} (a : A) : moves R (mret a).
Proof. intros s. reflexivity. Qed.
Lemma moves_throw {A} (e : js_error) : moves (A := A) R (mthrow e).
Proof. intros s. reflexivity. Qed.
Lemma moves_lift {A} (r : result A) : moves R (lift r).
Proof. intros s. reflexivity. Qed.
Lemma moves_get : moves R get.
Proof. intros s. reflexivity. Qed.
Lemma moves_gets {A} (f : S -> A) : moves R (gets f).
Proof. intros s. reflexivity. Qed.
Lemma moves_throw_when b e : moves R (throw_when b e).
Proof. destruct b; intros s; reflexivity. Qed.
Lemma moves_modify (f : S -> S) : (forall s, R s (f s)) -> moves R (modify f).
Proof. intros H s. apply H. Qed.
Lemma moves_bind {A B} (m : ST S A) (f : A -> ST S B) :
  moves R m -> (forall a, moves R (f a)) -> moves R (m ≫= f).
Proof.
  intros Hm Hf s. rewrite ST_bind_eq. specialize (Hm s). destruct (m s) as [[a|e] s']; [|done].
  etransitivity; [exact Hm | apply Hf].
Qed.
Lemma moves_get_bind {A} (f : S -> ST S A) : (forall s, R s (f s s).2) -> moves R (get ≫= f).
Proof. intros H s. apply H. Qed.
Lemma moves_catch {A} (m : ST S A) h : moves R m -> (forall e, moves R (h e)) -> moves R (catch m h).
Proof.
  intros Hm Hh s. unfold catch. specialize (Hm s). destruct (m s) as [[a|e] s']; [done|].
  etransitivity; [exact Hm | apply Hh].
Qed.
Lemma moves_attempt {A} (m : ST S A) : moves R m -> moves R (attempt m).
Proof. intros H s. unfold attempt. specialize (H s). by destruct (m s). Qed.
Lemma moves_if {A} (b : bool) (m n : ST S A) : moves R m -> moves R n -> moves R (if b then m else n).
Proof. by destruct b. Qed.
Lemma moves_mapS {A B} (f : A -> ST S B) l : (forall x, moves R (f x)) -> moves R (mapS f l).
Proof.
  intros Hf. induction l as [|x l IH]; [apply moves_ret|].
  apply moves_bind; [done|]. intros y. apply moves_bind; [done|]. intros ys. apply moves_ret.
Qed.
End moves.

(** A relation that keeps an invariant turns movement into preservation. *)
Lemma moves_preserves {S A} (R : relation S) (I : S -> Prop) (m : ST S A) :
  (forall s s', R s s' -> I s -> I s') -> moves R m -> preserves I m.
Proof. intros HR Hm s Hs. exact (HR _ _ (Hm s) Hs). Qed.

#[export] Hint Resolve moves_ret moves_throw moves_lift moves_get moves_gets moves_throw_when : bridge.

(** Reduce the movement of a method to that of the steps it is made of. *)
Ltac moving :=
  repeat match goal with
  | |- moves _ (_ ≫= _) => apply moves_bind; [apply _ | | intros ?]
  | |- moves _ (if ?b then _ else _) => destruct b
  | |- moves _ (match ?x with _ => _ end) => destruct x
  | |- moves _ (mapS _ _) => apply moves_mapS; [apply _ | intros ?]
  | |- moves _ (catch _ _) => apply moves_catch; [apply _ | | intros ?]
  | |- moves _ (attempt _) => apply moves_attempt
  | |- moves _ _ => solve [eauto with bridge typeclass_instances]
  end.

(** ** Triples

    [triple I P m Q]: from a state of [P], [m] returns into [Q] or throws into
    the invariant [I]. *)

Definition triple {S A} (I P : S -> Prop) (m : ST S A) (Q : A -> S -> Prop) : Prop :=
  forall s, P s -> match m s with (Ok a, s') => Q a s' | (Throw _, s') => I s' end.

Section triple.
Context {S : Type} (I : S -> Prop).
Implicit Types P : S -> Prop.

Lemma triple_bind {A B} P (m : ST S A) Q (f : A -> ST S B) R :
  triple I P m Q -> (forall a, triple I (Q a) (f a) R) -> triple I P (m ≫= f) R.
Proof.
  intros Hm Hf s Hs. rewrite ST_bind_eq. specialize (Hm s Hs). destruct (m s) as [[a|e] s']; [by apply Hf | done].
Qed.
Lemma triple_ret {A} P (a : A) (Q : A -> S -> Prop) : (forall s, P s -> Q a s) -> triple I P (mret a) Q.
Proof. intros H s Hs. by apply H. Qed.
Lemma triple_throw {A} P (e : js_error) (Q : A -> S -> Prop) : (forall s, P s -> I s) -> triple I P (mthrow e) Q.
Proof. intros H s Hs. by apply H. Qed.
Lemma triple_lift {A} P (r : result A) (Q : A -> S -> Prop) :
  (forall s, P s -> I s) -> (forall a s, P s -> r = Ok a -> Q a s) -> triple I P (lift r) Q.
Proof. intros HI H s Hs. unfold lift. destruct r; [by apply H | by apply HI]. Qed.
Lemma triple_gets {A} P (f : S -> A) (Q : A -> S -> Prop) : (forall s, P s -> Q (f s) s) -> triple I P (gets f) Q.
Proof. intros H s Hs. by apply H. Qed.
Lemma triple_modify P (f : S -> S) (Q : unit -> S -> Prop) : (forall s, P s -> Q tt (f s)) -> triple I P (modify f) Q.
Proof. intros H s Hs. by apply H. Qed.
Lemma triple_throw_when P b (e : js_error) (Q : unit -> S -> Prop) :
  (forall s, P s -> I s) -> (forall s, P s -> b = false -> Q tt s) -> triple I P (throw_when b e) Q.
Proof. intros HI H s Hs. destruct b; [by apply HI | by apply H]. Qed.
Lemma triple_preserves {A} (m : ST S A) : preserves I m <-> triple I I m (fun _ => I).
Proof. split; intros H s Hs; specialize (H s Hs); by destruct (m s) as [[a|e] s']. Qed.
Lemma triple_conseq {A} P P' (m : ST S A) (Q Q' : A -> S -> Prop) :
  triple I P m Q -> (forall s, P' s -> P s) -> (forall a s, Q a s -> Q' a s) -> triple I P' m Q'.
Proof. intros Hm HP HQ s Hs. specialize (Hm s (HP s Hs)). destruct (m s) as [[a|e] s']; auto. Qed.
Lemma triple_catch {A} P (m : ST S A) h (Q : A -> S -> Prop) :
  triple I P m Q -> (forall e, triple I I (h e) Q) -> triple I P (catch m h) Q.
Proof.
  intros Hm Hh s Hs. unfold catch. specialize (Hm s Hs). destruct (m s) as [[a|e] s']; [done | by apply Hh].
Qed.
Lemma preserves_triple {A} (m : ST S A) Q : triple I I m Q -> (forall a s, Q a s -> I s) -> preserves I m.
Proof. intros Hm HQ. apply triple_preserves. by eapply triple_conseq. Qed.
(** A loop, by an invariant indexed with the items already visited. *)
Lemma triple_mapS {A B} (f : A -> ST S B) (P : list A -> S -> Prop) l :
  (forall visited x rest, l = visited ++ x :: rest -> triple I (P visited) (f x) (fun _ => P (visited ++ [x]))) ->
  triple I (P []) (mapS f l) (fun _ => P l).
Proof.
  intros Hf. enough (H : forall visited rest, l = visited ++ rest -> triple I (P visited) (mapS f rest) (fun _ => P l))
    by exact (H [] l eq_refl).
  intros visited rest. revert visited. induction rest as [|x rest IH]; intros visited Hl; simpl.
  - apply triple_ret. rewrite app_nil_r in Hl. by subst.
  - eapply triple_bind; [exact (Hf _ _ _ Hl) | intros y].
    eapply triple_bind with (Q := fun _ => P l); [|intros ys; by apply triple_ret].
    apply IH. by rewrite <- app_assoc.
Qed.
Lemma triple_attempt {A} P (m : ST S A) Q (R : result A -> S -> Prop) :
  triple I P m Q -> (forall a s, Q a s -> R (Ok a) s) -> (forall e s, I s -> R (Throw e) s) -> triple I P (attempt m) R.
Proof.
  intros Hm Ha He s Hs. unfold attempt. specialize (Hm s Hs). destruct (m s) as [[a|e] s']; [by apply Ha | by apply He].
Qed.
End triple.
