(* ===== verification/JsMap.v ===== *)
(** * Insertion-ordered maps

    The JavaScript [Map] (and the own properties of an object): an association
    list in insertion order.  [set] on a present key keeps its position, [set]
    on a new key appends, iteration is the order of the list. *)

From S2P Require Import Prelude.

Abbreviation jsmap K V := (list (K * V)).

Section ops.
Context {K V : Type} `{EqDecision K}.
Implicit Types (m : jsmap K V) (k : K) (v : V).

Fixpoint mget k m : option V :=
  match m with
  | [] => None
  | (k', v) :: m => if decide (k = k') then Some v else mget k m
  end.
Definition mhas k m : bool := bool_decide (is_Some (mget k m)).
Fixpoint mset k v m : jsmap K V :=
  match m with
  | [] => [(k, v)]
  | (k', v') :: m => if decide (k = k') then (k', v) :: m else (k', v') :: mset k v m
  end.
Definition mdelete k m : jsmap K V := filter (fun kv => kv.1 <> k) m.
Definition mkeys m : list K := map fst m.
Definition mvalues m : list V := map snd m.
Definition msize m : Z := zlength m.
(** [for (const v of m.values()) v.field = ...] *)
Definition mmap (f : K -> V -> V) m : jsmap K V := map (fun kv => (kv.1, f kv.1 kv.2)) m.
End ops.

Section laws.
Context {K V : Type} `{EqDecision K}.
Implicit Types (m : jsmap K V) (k : K) (v : V).

Lemma mget_mset_eq k v m : mget k (mset k v m) = Some v.
Proof.
  induction m as [|[k' v'] m IH]; simpl; [by rewrite decide_True|].
  destruct (decide (k = k')) as [->|Hne]; simpl.
  - by rewrite decide_True.
  - by rewrite decide_False.
Qed.

Lemma mget_mset_ne k k' v m : k' <> k -> mget k' (mset k v m) = mget k' m.
Proof.
  intros Hne. induction m as [|[k0 v0] m IH]; simpl; [by rewrite decide_False|].
  destruct (decide (k = k0)) as [->|]; simpl; [by rewrite !decide_False|].
  by destruct (decide (k' = k0)).
Qed.

Lemma mget_mset k k' v m :
  mget k' (mset k v m) = if decide (k' = k) then Some v else mget k' m.
Proof. destruct (decide _) as [->|]; [apply mget_mset_eq | by apply mget_mset_ne]. Qed.

Lemma mget_mdelete_eq k m : mget k (mdelete k m) = None.
Proof.
  unfold mdelete. induction m as [|[k' v'] m IH]; simpl; [done|].
  rewrite filter_cons. destruct (decide _) as [Hd|Hd]; simpl in *; [|done].
  by rewrite decide_False.
Qed.

Lemma mget_mdelete_ne k k' m : k' <> k -> mget k' (mdelete k m) = mget k' m.
Proof.
  intros Hne. unfold mdelete. induction m as [|[k0 v0] m IH]; simpl; [done|].
  rewrite filter_cons. destruct (decide _) as [Hd|Hd]; simpl in *.
  - by destruct (decide (k' = k0)).
  - rewrite decide_False; [done|]. intros ->. by apply Hd.
Qed.

Lemma mget_mdelete k k' m :
  mget k' (mdelete k m) = if decide (k' = k) then None else mget k' m.
Proof. destruct (decide _) as [->|]; [apply mget_mdelete_eq | by apply mget_mdelete_ne]. Qed.

Lemma mget_elem k v m : mget k m = Some v -> (k, v) ∈ m.
Proof.
  induction m as [|[k' v'] m IH]; simpl; [done|].
  destruct (decide _) as [->|]; [intros [= ->]; left | right; auto].
Qed.

Lemma mget_None k m : mget k m = None <-> k ∉ mkeys m.
Proof.
  induction m as [|[k' v'] m IH]; simpl; [set_solver|].
  destruct (decide _) as [->|]; set_solver.
Qed.

Lemma elem_mget k v m : NoDup (mkeys m) -> (k, v) ∈ m -> mget k m = Some v.
Proof.
  induction m as [|[k' v'] m IH]; simpl; [by intros _ ?%elem_of_nil|].
  intros [Hni Hnd]%NoDup_cons [[= -> ->]|Hin]%elem_of_cons; [by rewrite decide_True|].
  destruct (decide _) as [->|]; [|by apply IH].
  exfalso. apply Hni. apply (list_elem_of_fmap_2 fst m (k', v)) in Hin. done.
Qed.

Lemma mkeys_mset_old k v m : k ∈ mkeys m -> mkeys (mset k v m) = mkeys m.
Proof.
  induction m as [|[k' v'] m IH]; simpl; [by intros ?%not_elem_of_nil|].
  intros Hin. destruct (decide (k = k')) as [->|Hne]; simpl; [done|].
  f_equal. apply IH. set_solver.
Qed.

Lemma mkeys_mset_new k v m : k ∉ mkeys m -> mkeys (mset k v m) = mkeys m ++ [k].
Proof.
  induction m as [|[k' v'] m IH]; simpl; [done|].
  intros Hin. destruct (decide (k = k')) as [->|Hne]; simpl; [set_solver|].
  f_equal. apply IH. set_solver.
Qed.

Lemma NoDup_mset k v m : NoDup (mkeys m) -> NoDup (mkeys (mset k v m)).
Proof.
  intros Hnd. destruct (decide (k ∈ mkeys m)); [by rewrite mkeys_mset_old|].
  rewrite mkeys_mset_new by done. apply NoDup_app. split; [done|]. split; [set_solver | apply NoDup_singleton].
Qed.

Lemma mkeys_filter (P : K * V -> Prop) `{!forall x, Decision (P x)} m :
  sublist (mkeys (filter P m)) (mkeys m).
Proof. apply (fmap_sublist fst), sublist_filter. Qed.

Lemma NoDup_filter_keys (P : K * V -> Prop) `{!forall x, Decision (P x)} m :
  NoDup (mkeys m) -> NoDup (mkeys (filter P m)).
Proof. intros Hnd. eapply sublist_NoDup; [exact Hnd | apply mkeys_filter]. Qed.

Lemma NoDup_mdelete k m : NoDup (mkeys m) -> NoDup (mkeys (mdelete k m)).
Proof. apply NoDup_filter_keys. Qed.

Lemma mget_filter (P : K * V -> Prop) `{!forall x, Decision (P x)} k m :
  NoDup (mkeys m) ->
  mget k (filter P m) =
    match mget k m with Some v => if decide (P (k, v)) then Some v else None | None => None end.
Proof.
  induction m as [|[k' v'] m IH]; simpl; [done|].
  intros [Hni Hnd]%NoDup_cons. rewrite filter_cons.
  destruct (decide (k = k')) as [->|Hne].
  - destruct (decide (P (k', v'))); simpl; [by rewrite decide_True|].
    rewrite IH by done. by rewrite (proj2 (mget_None k' m)).
  - destruct (decide (P (k', v'))); simpl; [rewrite decide_False by done|]; by apply IH.
Qed.

Lemma mkeys_mmap f m : mkeys (mmap f m) = mkeys m.
Proof. unfold mkeys, mmap. rewrite map_map. by apply map_ext. Qed.

Lemma mget_mmap f k m : mget k (mmap f m) = f k <$> mget k m.
Proof.
  induction m as [|[k' v'] m IH]; simpl; [done|].
  destruct (decide _) as [->|]; [done | apply IH].
Qed.

Lemma msize_nonneg m : 0 <= msize m.
Proof. apply zlength_nonneg. Qed.

Lemma msize_mset_new k v m : mget k m = None -> msize (mset k v m) = msize m + 1.
Proof.
  unfold msize, zlength. induction m as [|[k' v'] m IH]; simpl; [done|].
  destruct (decide _) as [->|]; [done|]. intros Hk. specialize (IH Hk). simpl. lia.
Qed.

Lemma msize_mset_old k v m : is_Some (mget k m) -> msize (mset k v m) = msize m.
Proof.
  unfold msize, zlength. induction m as [|[k' v'] m IH]; simpl; [by intros []|].
  destruct (decide _) as [->|]; simpl; [done|]. intros Hk. specialize (IH Hk). lia.
Qed.

Lemma msize_filter (P : K * V -> Prop) `{!forall x, Decision (P x)} m :
  msize (filter P m) <= msize m.
Proof. unfold msize, zlength. pose proof (length_filter P m). lia. Qed.

Lemma msize_mdelete k m : msize (mdelete k m) <= msize m.
Proof. apply msize_filter. Qed.

Lemma msize_mmap f m : msize (mmap f m) = msize m.
Proof. unfold msize, zlength, mmap. by rewrite length_map. Qed.

(** Deleting an absent key changes nothing. *)
Lemma mdelete_absent k m : mget k m = None -> mdelete k m = m.
Proof.
  intros Hk%mget_None. unfold mdelete. induction m as [|[k' v'] m IH]; [done|].
  rewrite filter_cons, decide_True; simpl in *; [|set_solver].
  f_equal. apply IH. set_solver.
Qed.
End laws.

Lemma mset_mset {K V} `{EqDecision K} (k : K) (v v' : V) m : mset k v (mset k v' m) = mset k v m.
Proof.
  induction m as [|[k0 v0] m IH]; simpl; [by rewrite decide_True|].
  destruct (decide (k = k0)) as [->|]; simpl; [by rewrite decide_True | by rewrite decide_False, IH].
Qed.
Lemma mset_new {K V} `{EqDecision K} (k : K) (v : V) m : mget k m = None -> mset k v m = m ++ [(k, v)].
Proof.
  induction m as [|[k0 v0] m IH]; simpl; [done|]. destruct (decide (k = k0)); [done|]. intros Hk. by rewrite IH.
Qed.
Lemma mset_same {K V} `{EqDecision K} (k : K) (v : V) m : mget k m = Some v -> mset k v m = m.
Proof.
  induction m as [|[k0 v0] m IH]; simpl; [done|].
  destruct (decide (k = k0)) as [->|]; [by intros [= ->] | intros Hk; by rewrite IH].
Qed.

Lemma mdelete_mset {K V} `{EqDecision K} (k : K) (v : V) m : mdelete k (mset k v m) = mdelete k m.
Proof.
  unfold mdelete. induction m as [|[k0 v0] m IH]; simpl; [by rewrite filter_cons_False by (simpl; tauto)|].
  destruct (decide (k = k0)) as [->|]; [by rewrite !filter_cons_False by (simpl; tauto)|].
  by rewrite !filter_cons_True, IH by (simpl; congruence).
Qed.

(** Every entry satisfies a predicate. *)
Definition mall {K V} (P : K -> V -> Prop) (m : jsmap K V) : Prop :=
  Forall (fun kv => P kv.1 kv.2) m.

Section mall.
Context {K V : Type} `{EqDecision K} (P : K -> V -> Prop).
Implicit Types m : jsmap K V.

Lemma mall_get m k v : mall P m -> mget k m = Some v -> P k v.
Proof. intros Hall Hk%mget_elem. unfold mall in Hall. rewrite Forall_forall in Hall.
  apply (Hall _ Hk). Qed.
Lemma mall_intro m : NoDup (mkeys m) -> (forall k v, mget k m = Some v -> P k v) -> mall P m.
Proof.
  intros Hnd H. apply Forall_forall. intros [k v] Hin. apply H. by apply elem_mget.
Qed.
Lemma mall_set m k v : mall P m -> P k v -> mall P (mset k v m).
Proof.
  unfold mall. intros Hall Hkv. induction Hall as [|[k' v'] m Hh Ht IH]; simpl.
  - by repeat constructor.
  - destruct (decide _) as [->|]; constructor; simpl in *; auto.
Qed.
Lemma mall_filter m (Q : K * V -> Prop) `{!forall x, Decision (Q x)} :
  mall P m -> mall P (filter Q m).
Proof. intros Hall. apply Forall_forall. intros x Hx.
  apply list_elem_of_filter in Hx as [_ Hx]. unfold mall in Hall. rewrite Forall_forall in Hall. auto. Qed.
Lemma mall_delete m k : mall P m -> mall P (mdelete k m).
Proof. apply mall_filter. Qed.
Lemma mall_mmap m f : (forall k v, P k v -> P k (f k v)) -> mall P m -> mall P (mmap f m).
Proof. intros Hf Hall. unfold mall, mmap. rewrite Forall_map. eapply Forall_impl; [done|].
  intros [k v]; simpl; auto. Qed.
End mall.

Lemma mall_impl {K V} (P Q : K -> V -> Prop) (m : jsmap K V) :
  mall P m -> (forall k v, P k v -> Q k v) -> mall Q m.
Proof. intros HP HPQ. eapply Forall_impl; [exact HP|]. intros [k v]; simpl; auto. Qed.

(** Sum of a measure over the values of a map. *)
Definition msum {K V} (f : V -> Z) (m : jsmap K V) : Z := zsum (fun kv => f kv.2) m.

Section msum.
Context {K V : Type} `{EqDecision K} (f : V -> Z).
Implicit Types m : jsmap K V.

Lemma msum_mset_new k v m : mget k m = None -> msum f (mset k v m) = msum f m + f v.
Proof.
  unfold msum. induction m as [|[k' v'] m IH]; simpl; [lia|].
  destruct (decide _) as [->|]; [done|]. intros Hk. rewrite <- (Z.add_assoc), <- (IH Hk). done.
Qed.
Lemma msum_mset_old k v v' m :
  mget k m = Some v' -> msum f (mset k v m) = msum f m - f v' + f v.
Proof.
  unfold msum. induction m as [|[k0 v0] m IH]; simpl; [done|].
  destruct (decide _) as [->|]; simpl; [intros [= ->]; lia|].
  intros Hk. rewrite (IH Hk). lia.
Qed.
Lemma msum_filter (P : K * V -> Prop) `{!forall x, Decision (P x)} m :
  msum f m = msum f (filter P m) + msum f (filter (fun x => ¬ P x) m).
Proof.
  unfold msum. induction m as [|[k v] m IH]; simpl; [done|].
  rewrite !filter_cons. destruct (decide (P (k, v))), (decide (¬ P (k, v))); simpl; lia || tauto.
Qed.
Lemma msum_mdelete k v m :
  NoDup (mkeys m) -> mget k m = Some v -> msum f (mdelete k m) = msum f m - f v.
Proof.
  unfold msum. induction m as [|[k' v'] m IH]; simpl; [done|].
  intros [Hni Hnd]%NoDup_cons Hk. unfold mdelete in *. rewrite filter_cons.
  destruct (decide (k = k')) as [->|Hne]; simplify_eq/=.
  - rewrite decide_False by tauto. fold (mdelete k' m). rewrite mdelete_absent; [lia|].
    by apply mget_None.
  - rewrite decide_True by done. simpl. rewrite IH by done. lia.
Qed.
(** Dropping entries lowers a nonnegative sum. *)
Lemma msum_submap m' m :
  NoDup (mkeys m) -> NoDup (mkeys m') ->
  (forall k v, mget k m' = Some v -> mget k m = Some v) ->
  (forall k v, mget k m = Some v -> 0 <= f v) -> msum f m' <= msum f m.
Proof.
  revert m. induction m' as [|[k v] m' IH]; intros m Hn Hn' Hsub Hf.
  - apply (zsum_elem_nonneg _ m). intros [k v] Hkv. eapply Hf, elem_mget; done.
  - apply NoDup_cons in Hn' as [Hni Hn'].
    assert (Hk : mget k m = Some v) by (apply Hsub; simpl; by rewrite decide_True).
    pose proof (msum_mdelete k v m Hn Hk) as Hd.
    assert (msum f m' <= msum f (mdelete k m)) as Hle; [|unfold msum in *; simpl; lia].
    apply IH; [by apply NoDup_mdelete | done | |].
    + intros k' v' Hk'. assert (k' <> k).
      { intros ->. apply Hni. apply mget_elem in Hk'.
        by apply (list_elem_of_fmap_2 fst m' (k, v')) in Hk'. }
      rewrite mget_mdelete_ne by done. apply Hsub. simpl. by rewrite decide_False.
    + intros k' v'. rewrite mget_mdelete. case_decide; [done | apply Hf].
Qed.
Lemma msum_nonneg m : (forall v, 0 <= f v) -> 0 <= msum f m.
Proof. intros Hf. apply zsum_nonneg. intros []. apply Hf. Qed.
End msum.

#[export] Hint Resolve NoDup_mset NoDup_mdelete NoDup_filter_keys mall_set mall_delete
  mall_filter msize_nonneg : bridge.
