(* ===== verification/JsNumber.v ===== *)
(** * JavaScript numbers

    A JavaScript number is an IEEE 754 binary64 value; it is modelled by the
    Standard Library's executable specification of floating point
    ([SpecFloat], precision 53, maximal exponent 1024), so comparisons, sums
    and quotients round as the engine's do and NaN, the infinities and the two
    zeros are values. *)

From Stdlib Require Export Floats.SpecFloat.
From S2P Require Import Prelude.

Abbreviation number := spec_float.
Abbreviation prec := 53.
Abbreviation emax := 1024.

Definition NaN : number := S754_nan.
Definition Infinity : number := S754_infinity false.
Definition NegInfinity : number := S754_infinity true.
Definition MAX_SAFE_INTEGER : Z := 2 ^ 53 - 1.

(** [Number(z)] for a mathematical integer: the nearest double. *)
Definition of_Z (z : Z) : number := binary_normalize prec emax z 0 false.

Definition nadd : number -> number -> number := SFadd prec emax.
Definition nsub : number -> number -> number := SFsub prec emax.
Definition nmul : number -> number -> number := SFmul prec emax.
Definition ndiv : number -> number -> number := SFdiv prec emax.

(** [x < y], [x <= y], [x === y]; each is false when an operand is NaN. *)
Definition nltb : number -> number -> bool := SFltb.
Definition nleb : number -> number -> bool := SFleb.
Definition neqb : number -> number -> bool := SFeqb.

Definition is_finite (x : number) : bool :=
  match x with S754_zero _ | S754_finite _ _ _ => true | _ => false end.

(** The mathematical integer a number denotes, if it denotes one. *)
Definition to_Z (x : number) : option Z :=
  match x with
  | S754_zero _ => Some 0
  | S754_finite s m e =>
      if 0 <=? e then Some (cond_Zopp s (Zpos m * 2 ^ e))
      else if Zpos m mod 2 ^ (- e) =? 0 then Some (cond_Zopp s (Zpos m / 2 ^ (- e)))
      else None
  | _ => None
  end.

Definition is_integer (x : number) : bool := bool_decide (is_Some (to_Z x)).
Definition is_safe_integer (x : number) : bool :=
  match to_Z x with Some z => Z.abs z <=? MAX_SAFE_INTEGER | None => false end.

(** The largest integer below a finite number (as a mathematical integer). *)
Definition floor_Z (x : number) : option Z :=
  match x with
  | S754_zero _ => Some 0
  | S754_finite s m e =>
      Some (if 0 <=? e then cond_Zopp s (Zpos m * 2 ^ e)
            else cond_Zopp s (Zpos m) / 2 ^ (- e))
  | _ => None
  end.
(** [Math.floor]; the sign of a zero result is that of the operand. *)
Definition nfloor (x : number) : number :=
  match x, floor_Z x with
  | S754_finite s _ _, Some 0 => S754_zero s
  | S754_finite _ _ _, Some z => of_Z z
  | _, _ => x
  end.
(** [Math.round]: the nearest integer, ties towards [+Infinity]. *)
Definition nround_Z (x : number) : option Z :=
  match x with
  | S754_zero _ => Some 0
  | S754_finite s m e =>
      Some (if 0 <=? e then cond_Zopp s (Zpos m * 2 ^ e)
            else (2 * cond_Zopp s (Zpos m) + 2 ^ (- e)) / 2 ^ (1 - e))
  | _ => None
  end.
(** [Math.min(x, y)]. *)
Definition nmin (x y : number) : number :=
  match x, y with
  | S754_nan, _ | _, S754_nan => NaN
  | S754_zero true, S754_zero _ => x
  | _, _ => if nltb y x then y else match y with S754_zero true => if nleb x y then y else x | _ => x end
  end.
(** [Math.fround(x)]: round to binary32, as a binary64 value. *)
Definition fround (x : number) : number :=
  match x with
  | S754_finite s m e =>
      match binary_round 24 128 s m e with
      | S754_finite s' m' e' => binary_round prec emax s' m' e'
      | y => y
      end
  | _ => x
  end.

(** ** Order *)

Definition nan_free (x : number) : Prop := x <> S754_nan.

(** Every comparable number is a point of a lexicographic order. *)
Definition rank (x : number) : Z * Z * Z :=
  match x with
  | S754_zero _ | S754_nan => (0, 0, 0)
  | S754_infinity s => (if s then -2 else 2, 0, 0)
  | S754_finite s m e => if s then (-1, -e, Zneg m) else (1, e, Zpos m)
  end.
Definition lex (a b : Z * Z * Z) : comparison :=
  match a.1.1 ?= b.1.1 with
  | Eq => match a.1.2 ?= b.1.2 with Eq => a.2 ?= b.2 | c => c end
  | c => c
  end.

Lemma SFcompare_rank x y :
  nan_free x -> nan_free y -> SFcompare x y = Some (lex (rank x) (rank y)).
Proof.
  unfold nan_free, lex.
  destruct x as [[]|[]| |[] m e], y as [[]|[]| |[] m' e']; intros; try congruence; try done; simpl.
  rewrite Z.compare_opp, (Z.compare_antisym e e'). by destruct (e ?= e').
Qed.

Lemma lex_lt a b c : lex a b = Lt -> lex b c <> Gt -> lex a c = Lt.
Proof.
  destruct a as [[a1 a2] a3], b as [[b1 b2] b3], c as [[c1 c2] c3]; unfold lex; simpl.
  destruct (Z.compare_spec a1 b1), (Z.compare_spec a2 b2), (Z.compare_spec a3 b3),
    (Z.compare_spec b1 c1), (Z.compare_spec b2 c2), (Z.compare_spec b3 c3);
  intros; try congruence;
  destruct (Z.compare_spec a1 c1), (Z.compare_spec a2 c2), (Z.compare_spec a3 c3); congruence || lia.
Qed.

Lemma lex_le_trans a b c : lex a b <> Gt -> lex b c <> Gt -> lex a c <> Gt.
Proof.
  destruct a as [[a1 a2] a3], b as [[b1 b2] b3], c as [[c1 c2] c3]; unfold lex; simpl.
  destruct (Z.compare_spec a1 b1), (Z.compare_spec a2 b2), (Z.compare_spec a3 b3),
    (Z.compare_spec b1 c1), (Z.compare_spec b2 c2), (Z.compare_spec b3 c3);
  intros; try congruence;
  destruct (Z.compare_spec a1 c1), (Z.compare_spec a2 c2), (Z.compare_spec a3 c3); congruence || lia.
Qed.

Lemma lex_antisym a b : lex b a = CompOpp (lex a b).
Proof.
  destruct a as [[a1 a2] a3], b as [[b1 b2] b3]; unfold lex; simpl.
  rewrite (Z.compare_antisym a1 b1), (Z.compare_antisym a2 b2), (Z.compare_antisym a3 b3).
  by destruct (a1 ?= b1), (a2 ?= b2).
Qed.

Lemma nltb_nan_free x y : nltb x y = true -> nan_free x /\ nan_free y.
Proof. unfold nltb, SFltb, nan_free. destruct x, y; simpl; intros; split; congruence. Qed.
Lemma nleb_nan_free x y : nleb x y = true -> nan_free x /\ nan_free y.
Proof. unfold nleb, SFleb, nan_free. destruct x, y; simpl; intros; split; congruence. Qed.

Lemma nltb_lex x y : nan_free x -> nan_free y -> nltb x y = true <-> lex (rank x) (rank y) = Lt.
Proof. intros. unfold nltb, SFltb. rewrite SFcompare_rank by done. by case_match. Qed.
Lemma nleb_lex x y : nan_free x -> nan_free y -> nleb x y = true <-> lex (rank x) (rank y) <> Gt.
Proof. intros. unfold nleb, SFleb. rewrite SFcompare_rank by done. by case_match. Qed.

Lemma nltb_nleb_trans x y z : nltb x y = true -> nleb y z = true -> nltb x z = true.
Proof.
  intros H1 H2. destruct (nltb_nan_free _ _ H1), (nleb_nan_free _ _ H2).
  rewrite nltb_lex, ?nleb_lex in * by done. by eapply lex_lt.
Qed.
Lemma nleb_trans x y z : nleb x y = true -> nleb y z = true -> nleb x z = true.
Proof.
  intros H1 H2. destruct (nleb_nan_free _ _ H1), (nleb_nan_free _ _ H2).
  rewrite ?nleb_lex in * by done. by eapply lex_le_trans.
Qed.
Lemma nleb_refl x : nan_free x -> nleb x x = true.
Proof.
  intros. rewrite nleb_lex by done. unfold lex.
  by rewrite !Z.compare_refl.
Qed.
(** [!(x < y)] is [y <= x] away from NaN. *)
Lemma nltb_false x y : nan_free x -> nan_free y -> nltb x y = false <-> nleb y x = true.
Proof.
  intros. unfold nltb, SFltb, nleb, SFleb. rewrite !SFcompare_rank by done.
  rewrite (lex_antisym (rank x)). by destruct (lex _ _).
Qed.
Lemma nleb_false x y : nan_free x -> nan_free y -> nleb x y = false <-> nltb y x = true.
Proof.
  intros. unfold nltb, SFltb, nleb, SFleb. rewrite !SFcompare_rank by done.
  rewrite (lex_antisym (rank x)). by destruct (lex _ _).
Qed.
Lemma nltb_nleb x y : nltb x y = true -> nleb x y = true.
Proof. unfold nltb, SFltb, nleb, SFleb. by repeat case_match. Qed.
Lemma is_finite_nan_free x : is_finite x = true -> nan_free x.
Proof. by destruct x. Qed.
#[export] Hint Resolve is_finite_nan_free nltb_nleb nleb_refl : bridge.

(** ** Safe integers are exact *)

Lemma digits2_pos_size m : Zpos (digits2_pos m) = Z.log2 (Zpos m) + 1.
Proof.
  induction m as [m IH|m IH|]; simpl digits2_pos; [| |done].
  - rewrite Pos2Z.inj_succ, IH, Pos2Z.inj_xI, Z.log2_succ_double by lia. lia.
  - rewrite Pos2Z.inj_succ, IH, Pos2Z.inj_xO, Z.log2_double by lia. lia.
Qed.

Lemma iter_xO m d : Zpos (Pos.iter xO m d) = Zpos m * 2 ^ Zpos d.
Proof.
  revert m. induction d as [|d IH] using Pos.peano_ind; intros m; simpl Pos.iter; [lia|].
  rewrite Pos.iter_succ, Pos2Z.inj_xO, IH, Pos2Z.inj_succ, Z.pow_succ_r by lia. lia.
Qed.

(** The bit length of a safe integer and the mantissa its double has. *)
Definition bits (p : positive) : Z := Z.log2 (Zpos p) + 1.
Definition mantissa (p : positive) : positive :=
  if decide (bits p = 53) then p else Pos.iter xO p (Z.to_pos (53 - bits p)).

Lemma bits_bounds p : Zpos p <= MAX_SAFE_INTEGER -> 1 <= bits p <= 53.
Proof.
  unfold MAX_SAFE_INTEGER, bits. intros Hp. pose proof (Z.log2_nonneg (Zpos p)).
  assert (Z.log2 (Zpos p) < 53) by (apply Z.log2_lt_pow2; lia). lia.
Qed.

Lemma mantissa_value p :
  Zpos p <= MAX_SAFE_INTEGER -> Zpos (mantissa p) = Zpos p * 2 ^ (53 - bits p).
Proof.
  intros Hp%bits_bounds. unfold mantissa. case_decide as Hd; [rewrite Hd; simpl; lia|].
  rewrite iter_xO. rewrite Z2Pos.id by lia. done.
Qed.

Lemma mantissa_range p :
  Zpos p <= MAX_SAFE_INTEGER -> 2 ^ 52 <= Zpos (mantissa p) < 2 ^ 53.
Proof.
  intros Hp. rewrite mantissa_value by done. pose proof (bits_bounds p Hp) as Hb.
  pose proof (Z.log2_spec (Zpos p) ltac:(lia)) as [Hlo Hhi].
  unfold bits in *. set (l := Z.log2 (Zpos p)) in *.
  replace (2 ^ 52) with (2 ^ l * 2 ^ (53 - (l + 1))) by (rewrite <- Z.pow_add_r by lia; f_equal; lia).
  replace (2 ^ 53) with (2 ^ Z.succ l * 2 ^ (53 - (l + 1))) by (rewrite <- Z.pow_add_r by lia; f_equal; lia).
  assert (0 < 2 ^ (53 - (l + 1))) by lia. nia.
Qed.

(** Rounding a mantissa that already has 53 digits does nothing. *)
Lemma binary_round_aux_exact s m e :
  2 ^ 52 <= Zpos m < 2 ^ 53 -> emin prec emax <= e <= emax - prec ->
  binary_round_aux prec emax s (Zpos m) e loc_Exact = S754_finite s m e.
Proof.
  intros Hm He. unfold emin in He. assert (Hd : Zpos (digits2_pos m) = 53).
  { rewrite digits2_pos_size. rewrite (Z.log2_unique (Zpos m) 52); [done | lia |]. exact Hm. }
  assert (Hf : fexp prec emax (Zpos (digits2_pos m) + e) - e = 0).
  { rewrite Hd. unfold fexp, emin. lia. }
  unfold binary_round_aux, shr_fexp. simpl Zdigits2. rewrite Hf. simpl shr.
  cbn beta iota. simpl shr_m. simpl round_nearest_even.
  simpl Zdigits2. rewrite Hf. simpl.
  case_match eqn:Hle; [done|]. apply Z.leb_gt in Hle. lia.
Qed.

Lemma binary_round_safe s p :
  Zpos p <= MAX_SAFE_INTEGER ->
  binary_round prec emax s p 0 = S754_finite s (mantissa p) (bits p - 53).
Proof.
  intros Hp. pose proof (bits_bounds p Hp) as Hb. unfold binary_round, shl_align.
  rewrite digits2_pos_size. change (Z.log2 (Zpos p) + 1) with (bits p).
  replace (fexp prec emax (bits p + 0)) with (bits p - 53) by (unfold fexp, emin; lia).
  rewrite Z.sub_0_r.
  assert (Hr : binary_round_aux prec emax s (Zpos (mantissa p)) (bits p - 53) loc_Exact
    = S754_finite s (mantissa p) (bits p - 53)).
  { apply binary_round_aux_exact; [by apply mantissa_range | unfold emin; lia]. }
  unfold mantissa in *. case_decide as Hd.
  - rewrite Hd in *. exact Hr.
  - destruct (bits p - 53) as [|q|q] eqn:Hq; [lia|lia|].
    replace (Z.to_pos (53 - bits p)) with q in * by lia. exact Hr.
Qed.

Lemma of_Z_safe z :
  z <> 0 -> Z.abs z <= MAX_SAFE_INTEGER ->
  of_Z z = S754_finite (z <? 0) (mantissa (Z.to_pos (Z.abs z))) (bits (Z.to_pos (Z.abs z)) - 53).
Proof.
  intros Hz Hs. unfold of_Z, binary_normalize.
  destruct z as [|p|p]; [done| |]; by apply binary_round_safe.
Qed.

Lemma to_Z_of_Z z : Z.abs z <= MAX_SAFE_INTEGER -> to_Z (of_Z z) = Some z.
Proof.
  intros Hs. destruct (decide (z = 0)) as [->|Hz]; [done|].
  rewrite of_Z_safe by done. set (p := Z.to_pos (Z.abs z)).
  assert (Hp : Zpos p = Z.abs z) by (unfold p; lia).
  assert (Hps : Zpos p <= MAX_SAFE_INTEGER) by lia.
  pose proof (bits_bounds p Hps) as Hb. pose proof (mantissa_value p Hps) as Hm.
  assert (Hres : cond_Zopp (z <? 0) (Zpos p) = z).
  { unfold cond_Zopp. destruct (Z.ltb_spec z 0); lia. }
  unfold to_Z. destruct (Z.leb_spec 0 (bits p - 53)).
  - assert (bits p = 53) as Hb' by lia. rewrite Hm, Hb'. simpl (2 ^ _).
    rewrite !Z.mul_1_r. by rewrite Hres.
  - replace (- (bits p - 53)) with (53 - bits p) by lia.
    rewrite Hm, Z.mod_mul, Z.div_mul by lia. simpl. by rewrite Hres.
Qed.

Lemma is_safe_integer_of_Z z : Z.abs z <= MAX_SAFE_INTEGER -> is_safe_integer (of_Z z) = true.
Proof. intros Hs. unfold is_safe_integer. rewrite to_Z_of_Z by done. by apply Z.leb_le. Qed.

Lemma of_Z_finite z : Z.abs z <= MAX_SAFE_INTEGER -> is_finite (of_Z z) = true.
Proof.
  intros Hs. destruct (decide (z = 0)) as [->|Hz]; [done|]. by rewrite of_Z_safe.
Qed.

Lemma rank_of_Z_mono p q :
  Zpos p <= MAX_SAFE_INTEGER -> Zpos q <= MAX_SAFE_INTEGER -> Zpos p < Zpos q ->
  bits p < bits q \/ bits p = bits q /\ Zpos (mantissa p) < Zpos (mantissa q).
Proof.
  intros Hp Hq Hlt. pose proof (Z.log2_le_mono (Zpos p) (Zpos q) ltac:(lia)).
  assert (bits p < bits q \/ bits p = bits q) as [?|Hb] by (unfold bits in *; lia); [by left|right].
  split; [done|]. rewrite !mantissa_value by done. rewrite Hb.
  apply Z.mul_lt_mono_pos_r; [|done]. pose proof (bits_bounds q Hq). apply Z.pow_pos_nonneg; lia.
Qed.

(** Comparing two safe integers as doubles is comparing them. *)
Lemma lex_of_Z a b :
  Z.abs a <= MAX_SAFE_INTEGER -> Z.abs b <= MAX_SAFE_INTEGER -> a < b ->
  lex (rank (of_Z a)) (rank (of_Z b)) = Lt.
Proof.
  intros Ha Hb Hlt. destruct (decide (a = 0)) as [->|Ha0], (decide (b = 0)) as [->|Hb0]; [lia| | |].
  - rewrite (of_Z_safe b) by done. unfold lex; simpl. by destruct (Z.ltb_spec b 0); [lia|].
  - rewrite (of_Z_safe a) by done. unfold lex; simpl. by destruct (Z.ltb_spec a 0); [|lia].
  - rewrite (of_Z_safe a), (of_Z_safe b) by done. unfold lex; simpl.
    destruct (Z.ltb_spec a 0), (Z.ltb_spec b 0); simpl; try lia; try done.
    + destruct (rank_of_Z_mono (Z.to_pos (Z.abs b)) (Z.to_pos (Z.abs a))) as [?|[Hb' Hm]]; [lia..| |].
      * rewrite (proj2 (Z.compare_lt_iff _ _)) by lia. done.
      * rewrite Hb', Z.compare_refl, <- Pos.compare_antisym. apply Pos.compare_lt_iff. lia.
    + destruct (rank_of_Z_mono (Z.to_pos (Z.abs a)) (Z.to_pos (Z.abs b))) as [?|[Hb' Hm]]; [lia..| |].
      * rewrite (proj2 (Z.compare_lt_iff _ _)) by lia. done.
      * rewrite Hb', Z.compare_refl. apply Pos.compare_lt_iff. lia.
Qed.

Lemma nltb_of_Z a b :
  Z.abs a <= MAX_SAFE_INTEGER -> Z.abs b <= MAX_SAFE_INTEGER ->
  nltb (of_Z a) (of_Z b) = (a <? b).
Proof.
  intros Ha Hb. pose proof (is_finite_nan_free _ (of_Z_finite a Ha)) as Hna.
  pose proof (is_finite_nan_free _ (of_Z_finite b Hb)) as Hnb.
  destruct (Z.ltb_spec a b) as [Hlt|Hge].
  - apply nltb_lex; [done..|]. by apply lex_of_Z.
  - apply nltb_false; [done..|]. apply nleb_lex; [done..|].
    destruct (decide (a = b)) as [->|]; [unfold lex; by rewrite !Z.compare_refl|].
    rewrite lex_of_Z by lia. done.
Qed.

(** ** Adding one to a safe integer is exact *)

Lemma shr_1_double m : 0 < m -> shr_1 {| shr_m := 2 * m; shr_r := false; shr_s := false |} = {| shr_m := m; shr_r := false; shr_s := false |}.
Proof. by destruct m. Qed.
Lemma shr_drops_zeros d : forall m, 0 < m ->
  SpecFloat.iter_pos shr_1 d {| shr_m := m * 2 ^ Zpos d; shr_r := false; shr_s := false |} = {| shr_m := m; shr_r := false; shr_s := false |}.
Proof.
  induction d as [d IH|d IH|]; intros m Hm; cbn [SpecFloat.iter_pos]; try (assert (0 < 2 ^ Zpos d) by (by apply Z.pow_pos_nonneg)).
  - assert (Heq : m * 2 ^ Zpos d~1 = 2 * (m * 2 ^ Zpos d * 2 ^ Zpos d)).
    { rewrite <- Z.mul_assoc, <- Z.pow_add_r, Pos2Z.inj_xI, Z.pow_add_r by lia. replace (2 * Zpos d) with (Zpos d + Zpos d) by lia. lia. }
    rewrite Heq, shr_1_double, !IH by nia. done.
  - assert (Heq : m * 2 ^ Zpos d~0 = m * 2 ^ Zpos d * 2 ^ Zpos d).
    { rewrite <- Z.mul_assoc, <- Z.pow_add_r, Pos2Z.inj_xO by lia. do 2 f_equal. lia. }
    rewrite Heq, !IH by nia. done.
  - replace (m * 2 ^ 1) with (2 * m) by lia. by apply shr_1_double.
Qed.

(** Rounding drops trailing zeros only. *)
Lemma binary_round_shifted s p q :
  Zpos q <= MAX_SAFE_INTEGER -> Zpos p = Zpos q * 2 ^ 52 ->
  binary_round prec emax s p (-52) = S754_finite s (mantissa q) (bits q - 53).
Proof.
  intros Hq Hp. pose proof (bits_bounds q Hq) as Hb. pose proof (mantissa_range q Hq) as Hr. pose proof (mantissa_value q Hq) as Hv.
  assert (Hd : Zpos (digits2_pos p) = bits q + 52).
  { rewrite digits2_pos_size, Hp, Z.log2_mul_pow2 by lia. unfold bits. lia. }
  assert (Hexact : Zpos p = Zpos (mantissa q) * 2 ^ (bits q - 1)).
  { rewrite Hp, Hv, <- Z.mul_assoc, <- Z.pow_add_r by lia. f_equal. f_equal. lia. }
  assert (Hf : fexp prec emax (bits q + 52 + -52) = bits q - 53) by (unfold fexp, emin; lia).
  unfold binary_round, shl_align. rewrite Hd, Hf.
  assert (Haux : binary_round_aux prec emax s (Zpos p) (-52) loc_Exact = S754_finite s (mantissa q) (bits q - 53)).
  { assert (Hshr : shr_fexp prec emax (Zpos p) (-52) loc_Exact =
      ({| shr_m := Zpos (mantissa q); shr_r := false; shr_s := false |}, bits q - 53)).
    { unfold shr_fexp. simpl Zdigits2. rewrite Hd, Hf. replace (bits q - 53 - -52) with (bits q - 1) by lia.
      unfold shr_record_of_loc. rewrite Hexact. destruct (bits q - 1) as [|d|] eqn:He; [|unfold shr; rewrite shr_drops_zeros by lia; f_equal; lia|lia].
      simpl. do 2 f_equal; lia. }
    rewrite <- (binary_round_aux_exact s (mantissa q) (bits q - 53)) by (done || (unfold emin; lia)).
    assert (Hshr2 : shr_fexp prec emax (Zpos (mantissa q)) (bits q - 53) loc_Exact =
      ({| shr_m := Zpos (mantissa q); shr_r := false; shr_s := false |}, bits q - 53)).
    { assert (Hd2 : Zpos (digits2_pos (mantissa q)) = 53).
      { rewrite digits2_pos_size, (Z.log2_unique _ 52); [done | lia | exact Hr]. }
      unfold shr_fexp. simpl Zdigits2. rewrite Hd2. replace (fexp prec emax (53 + (bits q - 53)) - (bits q - 53)) with 0 by (unfold fexp, emin; lia). done. }
    unfold binary_round_aux. by rewrite Hshr, Hshr2. }
  destruct (bits q - 53 - -52) as [|d|d] eqn:He; [exact Haux..|lia].
Qed.

(** Counting one more is exact below the largest safe integer. *)
Lemma nadd_one z : 0 < z < MAX_SAFE_INTEGER -> nadd (of_Z z) (of_Z 1) = of_Z (z + 1).
Proof.
  intros Hz. set (p := Z.to_pos z). assert (Hp : Zpos p = z) by (unfold p; lia). rewrite <- Hp in *. clearbody p. clear z Hp.
  assert (Hsafe : Zpos p <= MAX_SAFE_INTEGER) by lia. pose proof (bits_bounds p Hsafe) as Hb.
  rewrite (of_Z_safe (Zpos p)), (of_Z_safe (Zpos p + 1)) by lia.
  replace (of_Z 1) with (S754_finite false 4503599627370496 (-52)) by (by vm_compute).
  change (Z.to_pos (Z.abs (Zpos p))) with p. change (Zpos p <? 0) with false. replace (Zpos p + 1 <? 0) with false by lia.
  replace (Z.to_pos (Z.abs (Zpos p + 1))) with (p + 1)%positive by lia.
  unfold nadd, SFadd. replace (Z.min (bits p - 53) (-52)) with (-52) by lia. cbn [cond_Zopp].
  change (Zpos (shl_align 4503599627370496 (-52) (-52)).1) with (2 ^ 52).
  assert (Hal : Zpos (shl_align (mantissa p) (bits p - 53) (-52)).1 = Zpos p * 2 ^ 52).
  { pose proof (mantissa_value p Hsafe) as Hv. unfold shl_align. destruct (-52 - (bits p - 53)) as [|d|d] eqn:He; [|lia|].
    - simpl fst. rewrite Hv. do 2 f_equal. lia.
    - simpl fst. rewrite iter_xO, Hv, <- Z.mul_assoc, <- Z.pow_add_r by lia. do 2 f_equal. lia. }
  rewrite Hal. replace (Zpos p * 2 ^ 52 + 2 ^ 52) with (Zpos ((p + 1) * 4503599627370496)) by lia.
  unfold binary_normalize. apply binary_round_shifted; lia.
Qed.

(** ** Sums of finite numbers are never NaN *)

Lemma shr_nonneg mrs e n : 0 <= shr_m mrs -> 0 <= shr_m (shr mrs e n).1.
Proof.
  intros H. destruct n as [|p|p]; simpl; [done| |done].
  assert (H1 : forall r, 0 <= shr_m r -> 0 <= shr_m (shr_1 r)).
  { intros [m r s] Hr. simpl in *. destruct m as [|[]|]; simpl; lia. }
  revert mrs H. induction p as [p IH|p IH|]; intros mrs H; simpl; auto.
Qed.

Lemma binary_round_aux_nan_free s m e l :
  0 <= m -> nan_free (binary_round_aux prec emax s m e l).
Proof.
  intros Hm. unfold binary_round_aux, shr_fexp.
  destruct (shr _ e _) as [mrs e'] eqn:H1.
  assert (0 <= shr_m mrs) as Hmrs.
  { change mrs with (mrs, e').1. rewrite <- H1. apply shr_nonneg. by destruct l as [|[]]. }
  destruct (shr (shr_record_of_loc (round_nearest_even _ _) _) _ _) as [mrs' e''] eqn:H2.
  assert (0 <= shr_m mrs') as Hmrs'.
  { change mrs' with (mrs', e'').1. rewrite <- H2. apply shr_nonneg. simpl.
    unfold round_nearest_even. repeat case_match; lia. }
  destruct (shr_m mrs'); [done| |lia]. by case_match.
Qed.

Lemma binary_normalize_nan_free m e s : nan_free (binary_normalize prec emax m e s).
Proof.
  destruct m; simpl; [done|..]; unfold binary_round; case_match; by apply binary_round_aux_nan_free.
Qed.

Lemma nadd_nan_free x y : is_finite x = true -> is_finite y = true -> nan_free (nadd x y).
Proof.
  destruct x as [[]| | |], y as [[]| | |]; try done; intros _ _. simpl. apply binary_normalize_nan_free.
Qed.
