(* ===== verification/JsFloat32.v ===== *)
(** * Rounding to binary32

    [Math.fround] is a projection: the result is a binary32 value, which
    binary64 represents exactly and a second rounding leaves alone. *)

From S2P Require Import Prelude JsNumber.

Abbreviation fexp32 := (fexp 24 128).

(** A mantissa and exponent in the normal form of binary32. *)
Definition canonical32 (m : positive) (e : Z) : Prop :=
  e = fexp32 (Zpos (digits2_pos m) + e) /\ e <= 104.

(** ** Shifts *)

Lemma iter_pos_iter {A} (f : A -> A) n x : iter_pos f n x = Pos.iter f x n.
Proof.
  revert x. induction n as [n IH|n IH|]; intros x; simpl; [| |done].
  - rewrite !IH. rewrite <- !Pos.iter_swap. done.
  - by rewrite !IH.
Qed.

Lemma shr_m_1 mrs : 0 <= shr_m mrs -> shr_m (shr_1 mrs) = shr_m mrs / 2.
Proof.
  destruct mrs as [m r s]. simpl. intros Hm. rewrite <- Z.div2_div.
  destruct m as [|[p|p|]|p]; simpl in *; lia || done.
Qed.

Lemma shr_m_iter n mrs :
  0 <= shr_m mrs -> shr_m (Pos.iter shr_1 mrs n) = shr_m mrs / 2 ^ Zpos n.
Proof.
  intros Hm. induction n as [|n IH] using Pos.peano_ind.
  - simpl Pos.iter. by rewrite shr_m_1.
  - rewrite Pos.iter_succ, shr_m_1, IH.
    + rewrite Z.div_div by lia. by rewrite Pos2Z.inj_succ, Z.pow_succ_r, Z.mul_comm by lia.
    + rewrite IH. apply Z.div_pos; lia.
Qed.

Lemma shr_m_shr mrs e n : 0 <= shr_m mrs -> 0 <= n -> shr_m (shr mrs e n).1 = shr_m mrs / 2 ^ n.
Proof.
  intros Hm Hn. destruct n as [|n|n]; [|unfold shr; simpl fst; rewrite iter_pos_iter; by apply shr_m_iter|lia].
  simpl. by rewrite Z.div_1_r.
Qed.
Lemma shr_e mrs e n : 0 <= n -> (shr mrs e n).2 = e + n.
Proof. destruct n; simpl; lia. Qed.

(** Shifting out zeros is exact. *)
Lemma shr_exact m e k :
  0 <= k -> shr {| shr_m := Zpos m * 2 ^ k; shr_r := false; shr_s := false |} e k
    = ({| shr_m := Zpos m; shr_r := false; shr_s := false |}, e + k).
Proof.
  intros Hk. destruct k as [|k|k]; [|unfold shr; f_equal|lia].
  { simpl. by rewrite Z.mul_1_r, Z.add_0_r. }
  rewrite iter_pos_iter. clear Hk. revert m. induction k as [|k IH] using Pos.peano_ind; intros m.
  - replace (Zpos m * 2 ^ 1) with (Zpos (m~0)) by lia. done.
  - rewrite Pos.iter_succ. rewrite Pos2Z.inj_succ, Z.pow_succ_r by lia.
    replace (Zpos m * (2 * 2 ^ Zpos k)) with (Zpos (m~0) * 2 ^ Zpos k) by lia.
    by rewrite IH.
Qed.

(** ** Digits *)

Lemma Zdigits2_pos z : 0 < z -> Zdigits2 z = Z.log2 z + 1.
Proof. intros Hz. destruct z; [lia| |lia]. simpl. by rewrite digits2_pos_size. Qed.

Lemma Zdigits2_div z n : 0 < z / 2 ^ n -> 0 < z -> 0 <= n -> Zdigits2 (z / 2 ^ n) = Zdigits2 z - n.
Proof.
  intros Hq Hz Hn. rewrite !Zdigits2_pos by done.
  rewrite <- Z.shiftr_div_pow2 in * by done.
  destruct (Z.le_gt_cases n (Z.log2 z)).
  - rewrite Z.log2_shiftr by done. lia.
  - rewrite Z.shiftr_eq_0 in Hq by lia. lia.
Qed.

Lemma div_pow_zero z n : 0 < z -> 0 <= n -> z / 2 ^ n = 0 -> Zdigits2 z <= n.
Proof.
  intros Hz Hn H0. rewrite Zdigits2_pos by done.
  assert (z < 2 ^ n).
  { apply Z.div_small_iff in H0; [lia|]. assert (0 < 2 ^ n) by (apply Z.pow_pos_nonneg; lia). lia. }
  apply Z.log2_lt_pow2 in H; lia.
Qed.

Lemma Zdigits2_succ z :
  0 < z -> Zdigits2 (z + 1) = Zdigits2 z \/
  z + 1 = 2 ^ Zdigits2 z /\ Zdigits2 (z + 1) = Zdigits2 z + 1.
Proof.
  intros Hz. rewrite !Zdigits2_pos by lia.
  destruct (Z.eq_dec (z + 1) (2 ^ (Z.log2 z + 1))) as [He|Hne].
  - right. split; [done|]. rewrite He, Z.log2_pow2; [done|]. pose proof (Z.log2_nonneg z). lia.
  - left. f_equal. apply Z.log2_unique; [apply Z.log2_nonneg|].
    pose proof (Z.log2_spec z Hz). rewrite <- Z.add_1_r in *. lia.
Qed.

(** ** Rounding yields the normal form *)

Lemma round_nearest_even_cases m l :
  round_nearest_even m l = m \/ round_nearest_even m l = m + 1.
Proof.
  unfold round_nearest_even. destruct l as [|[]]; try tauto; try (right; lia).
  destruct (Z.even m); [by left | by right].
Qed.

(** The last step of rounding, on a mantissa [r] at exponent [f]. *)
Lemma final_shift_canonical s r f m' e' d :
  0 <= r -> f = fexp32 (d + f) -> (0 < r -> Zdigits2 r = d \/ r = 2 ^ d /\ Zdigits2 r = d + 1) ->
  (let '(mrs, e) := shr_fexp 24 128 r f loc_Exact in
   match shr_m mrs with
   | Z0 => S754_zero s
   | Zpos m => if e <=? 104 then S754_finite s m e else S754_infinity s
   | Zneg _ => S754_nan
   end) = S754_finite s m' e' -> canonical32 m' e'.
Proof.
  intros Hr Hf Hd. unfold shr_fexp.
  destruct (Z.eq_dec r 0) as [->|Hr0].
  { unfold shr_record_of_loc. set (n := _ - f).
    assert (H0 : shr_m (shr {| shr_m := 0; shr_r := false; shr_s := false |} f n).1 = 0).
    { destruct (Z.le_gt_cases 0 n); [rewrite shr_m_shr by done; by rewrite Z.div_0_l by (apply Z.pow_nonzero; lia)|].
      by destruct n; simpl; lia || done. }
    destruct (shr _ f n) as [mrs e]. simpl in H0. by rewrite H0. }
  destruct Hd as [Hd|[Hp Hd]]; [lia| |].
  - rewrite Hd, <- Hf, Z.sub_diag. simpl. destruct r as [|r|]; try lia.
    destruct (Z.leb_spec f 104); [|done]. intros [= <- <-]. simpl in Hd.
    split; [by rewrite Hd | done].
  - rewrite Hd. unfold fexp, emin in *. destruct (Z.eq_dec d 24) as [->|Hne].
    + replace (Z.max (24 + 1 + f - 24) (3 - 128 - 24) - f) with 1 by lia. subst r. simpl.
      destruct (Z.leb_spec (f + 1) 104); [|done]. intros [= <- <-].
      split; [unfold fexp, emin; simpl; lia | done].
    + replace (Z.max (d + 1 + f - 24) (3 - 128 - 24) - f) with 0 by lia. simpl.
      destruct r as [|r|]; try lia.
      destruct (Z.leb_spec f 104); [|done]. intros [= <- <-]. simpl in Hd.
      split; [unfold fexp, emin; lia | done].
Qed.

Lemma binary_round32_canonical s m e m' e' :
  binary_round 24 128 s m e = S754_finite s m' e' -> canonical32 m' e'.
Proof.
  unfold binary_round.
  assert (Hal : exists m1 e1, shl_align m e (fexp32 (Zpos (digits2_pos m) + e)) = (m1, e1) /\
    e1 <= fexp32 (Zdigits2 (Zpos m1) + e1)).
  { set (ex := fexp32 _). unfold shl_align. destruct (ex - e) as [|p|p] eqn:He.
    - exists m, e. split; [done|]. simpl. fold ex. lia.
    - exists m, e. split; [done|]. simpl. fold ex. lia.
    - exists (shift_pos p m), ex. split; [done|].
      assert (Hs : Zpos (shift_pos p m) = Zpos m * 2 ^ Zpos p).
      { apply iter_xO. }
      rewrite Hs, Zdigits2_pos by lia. rewrite Z.log2_mul_pow2 by lia.
      replace (Zpos p + Z.log2 (Zpos m) + 1 + ex) with (Zpos (digits2_pos m) + e).
      + fold ex. lia.
      + rewrite digits2_pos_size. lia. }
  destruct Hal as (m1 & e1 & -> & Hle). unfold binary_round_aux, shr_fexp at 1.
  set (d1 := Zdigits2 (Zpos m1)) in *. set (f := fexp32 (d1 + e1)) in *.
  unfold shr_record_of_loc at 1.
  set (rec := {| shr_m := Zpos m1; shr_r := false; shr_s := false |}).
  pose proof (shr_m_shr rec e1 (f - e1) ltac:(simpl; lia) ltac:(lia)) as Hm.
  pose proof (shr_e rec e1 (f - e1) ltac:(lia)) as He.
  destruct (shr rec e1 (f - e1)) as [mrs e2]. simpl in Hm, He.
  replace (e1 + (f - e1)) with f in He by lia. subst e2.
  set (M := shr_m mrs) in *. assert (HM : 0 <= M) by (rewrite Hm; apply Z.div_pos; lia).
  pose proof (round_nearest_even_cases M (loc_of_shr_record mrs)) as Hrne.
  set (r := round_nearest_even M _) in *.
  destruct (Z.eq_dec M 0) as [H0|Hpos].
  - (* underflow: the exponent is the least one *)
    assert (Hn : d1 <= f - e1) by (apply div_pow_zero; lia).
    assert (Hf : f = -149) by (unfold f, fexp, emin in *; lia).
    apply (final_shift_canonical s r f m' e' 1); [lia | rewrite Hf; reflexivity |].
    intros Hr. left. assert (r = 1) as -> by lia. done.
  - assert (Hd : Zdigits2 M = d1 - (f - e1)).
    { rewrite Hm in *. unfold d1. apply Zdigits2_div; lia. }
    apply (final_shift_canonical s r f m' e' (Zdigits2 M)); [lia | |].
    + rewrite Hd. replace (d1 - (f - e1) + f) with (d1 + e1) by lia. done.
    + intros Hr. destruct Hrne as [->| ->]; [by left|].
      destruct (Zdigits2_succ M) as [?|?]; [lia | by left | by right].
Qed.

(** ** A binary32 value survives both formats *)

Lemma canonical32_range m e :
  canonical32 m e -> 1 <= Zpos (digits2_pos m) <= 24 /\ -149 <= e <= 104.
Proof. intros [He Hle]. unfold fexp, emin in He. lia. Qed.

Lemma binary_round64_widen s m e :
  canonical32 m e ->
  exists m', Zpos m' = Zpos m * 2 ^ (53 - Zpos (digits2_pos m)) /\
    binary_round prec emax s m e = S754_finite s m' (e - (53 - Zpos (digits2_pos m))).
Proof.
  intros Hc. pose proof (canonical32_range m e Hc) as [Hd He].
  set (d := Zpos (digits2_pos m)) in *. set (k := Z.to_pos (53 - d)).
  exists (Pos.iter xO m k).
  assert (Hv : Zpos (Pos.iter xO m k) = Zpos m * 2 ^ (53 - d)).
  { rewrite iter_xO. unfold k. by rewrite Z2Pos.id by lia. }
  split; [done|]. unfold binary_round, shl_align. fold d.
  replace (fexp prec emax (d + e)) with (e - (53 - d)) by (unfold fexp, emin; lia).
  replace (e - (53 - d) - e) with (Zneg k) by (unfold k; lia).
  change (shift_pos k m) with (Pos.iter xO m k). apply binary_round_aux_exact.
  - rewrite Hv. assert (Hl : d = Z.log2 (Zpos m) + 1) by (unfold d; by rewrite digits2_pos_size).
    pose proof (Z.log2_spec (Zpos m) ltac:(lia)) as [Hlo Hhi].
    replace (2 ^ 52) with (2 ^ Z.log2 (Zpos m) * 2 ^ (53 - d)) by (rewrite <- Z.pow_add_r by (pose proof (Z.log2_nonneg (Zpos m)); lia); f_equal; lia).
    replace (2 ^ 53) with (2 ^ Z.succ (Z.log2 (Zpos m)) * 2 ^ (53 - d)) by (rewrite <- Z.pow_add_r by (pose proof (Z.log2_nonneg (Zpos m)); lia); f_equal; lia).
    assert (0 < 2 ^ (53 - d)) by (apply Z.pow_pos_nonneg; lia). nia.
  - unfold emin. lia.
Qed.

Lemma binary_round32_narrow s m e m' k :
  canonical32 m e -> 0 <= k -> Zpos m' = Zpos m * 2 ^ k ->
  binary_round 24 128 s m' (e - k) = S754_finite s m e.
Proof.
  intros [He Hle] Hk Hm. unfold binary_round.
  assert (Hd : Zpos (digits2_pos m') + (e - k) = Zpos (digits2_pos m) + e).
  { rewrite !digits2_pos_size, Hm, Z.log2_mul_pow2 by lia. lia. }
  rewrite Hd, <- He.
  assert (Hal : shl_align m' (e - k) e = (m', e - k)).
  { unfold shl_align. replace (e - (e - k)) with k by lia. by destruct k. }
  rewrite Hal.
  unfold binary_round_aux, shr_fexp at 1. change (Zdigits2 (Zpos m')) with (Zpos (digits2_pos m')).
  rewrite Hd, <- He.
  replace (e - (e - k)) with k by lia. unfold shr_record_of_loc at 1. rewrite Hm, shr_exact by done.
  replace (e - k + k) with e by lia. simpl round_nearest_even.
  unfold shr_fexp. change (Zdigits2 (Zpos m)) with (Zpos (digits2_pos m)).
  rewrite <- He, Z.sub_diag. simpl.
  change (128 - 24) with 104. by rewrite (proj2 (Z.leb_le e 104)).
Qed.

Lemma binary_round32_sign s m e :
  match binary_round 24 128 s m e with S754_finite s' _ _ => s' = s | _ => True end.
Proof.
  unfold binary_round, binary_round_aux. destruct (shl_align _ _ _) as [mz ez].
  destruct (shr_fexp _ _ _ _ _) as [mrs e']. destruct (shr_fexp _ _ _ _ _) as [mrs' e''].
  destruct (shr_m mrs'); try done. by destruct (_ <=? _).
Qed.

(** [Math.fround(Math.fround(x)) === Math.fround(x)], zeros and NaN included. *)
Lemma fround_idem x : fround (fround x) = fround x.
Proof.
  destruct x as [s|s| |s m e]; [done..|]. simpl.
  pose proof (binary_round32_sign s m e) as Hs.
  destruct (binary_round 24 128 s m e) as [| | |s' m' e'] eqn:Hr; [done..|]. subst s'.
  apply binary_round32_canonical in Hr.
  destruct (binary_round64_widen s m' e' Hr) as (m'' & Hm & ->). simpl.
  pose proof (canonical32_range _ _ Hr).
  rewrite (binary_round32_narrow s m' e' m'' (53 - Zpos (digits2_pos m'))) by (done || lia).
  by destruct (binary_round64_widen s m' e' Hr) as (m3 & Hm3 & ->); assert (m3 = m'') as -> by lia.
Qed.
