(* ===== verification/Regex.v ===== *)
(** * Regular expressions

    The code validates strings with anchored regular expressions
    ([/^...$/.test(value)], or [pattern.exec(value)?.[0] === value]), that is,
    by asking whether the whole string belongs to a regular language.  [matches]
    decides it by derivatives; [in_re] is the language and [matches_spec] their
    agreement. *)

From S2P Require Import Prelude.

Inductive re : Type :=
| RNone
| REps
| RCls (f : Z -> bool)
| RCat (r1 r2 : re)
| RAlt (r1 r2 : re)
| RStar (r : re).

(** The language of an expression. *)
Inductive in_re : re -> jsstr -> Prop :=
| in_eps : in_re REps []
| in_cls f c : f c = true -> in_re (RCls f) [c]
| in_cat r1 r2 s1 s2 : in_re r1 s1 -> in_re r2 s2 -> in_re (RCat r1 r2) (s1 ++ s2)
| in_alt_l r1 r2 s : in_re r1 s -> in_re (RAlt r1 r2) s
| in_alt_r r1 r2 s : in_re r2 s -> in_re (RAlt r1 r2) s
| in_star_nil r : in_re (RStar r) []
| in_star_cons r s1 s2 : in_re r s1 -> in_re (RStar r) s2 -> in_re (RStar r) (s1 ++ s2).

(** Sums and products that absorb the empty language and the empty string. *)
Definition rcat (r1 r2 : re) : re :=
  match r1, r2 with
  | RNone, _ | _, RNone => RNone
  | REps, _ => r2
  | _, _ => RCat r1 r2
  end.
Definition ralt (r1 r2 : re) : re :=
  match r1, r2 with
  | RNone, _ => r2
  | _, RNone => r1
  | _, _ => RAlt r1 r2
  end.

Fixpoint nullable (r : re) : bool :=
  match r with
  | RNone | RCls _ => false
  | REps | RStar _ => true
  | RCat r1 r2 => nullable r1 && nullable r2
  | RAlt r1 r2 => nullable r1 || nullable r2
  end.

Fixpoint deriv (c : Z) (r : re) : re :=
  match r with
  | RNone | REps => RNone
  | RCls f => if f c then REps else RNone
  | RCat r1 r2 =>
      if nullable r1 then ralt (rcat (deriv c r1) r2) (deriv c r2) else rcat (deriv c r1) r2
  | RAlt r1 r2 => ralt (deriv c r1) (deriv c r2)
  | RStar r => rcat (deriv c r) (RStar r)
  end.

Fixpoint matches (r : re) (s : jsstr) : bool :=
  match s with
  | [] => nullable r
  | c :: s => matches (deriv c r) s
  end.

(** ** Derived operators of the pattern syntax *)

Definition rplus (r : re) : re := RCat r (RStar r).
Definition ropt (r : re) : re := RAlt REps r.
(** [r{n}] and [r{n,n+m}]. *)
Fixpoint rrep (n : nat) (r : re) : re :=
  match n with O => REps | S n => RCat r (rrep n r) end.
Fixpoint rupto (m : nat) (r : re) : re :=
  match m with O => REps | S m => ropt (RCat r (rupto m r)) end.
Definition rrange (n m : nat) (r : re) : re := RCat (rrep n r) (rupto m r).
Fixpoint rcats (rs : list re) : re :=
  match rs with [] => REps | [r] => r | r :: rs => RCat r (rcats rs) end.
Fixpoint ralts (rs : list re) : re :=
  match rs with [] => RNone | [r] => r | r :: rs => RAlt r (ralts rs) end.

(** Character classes. *)
Definition chr (s : string) : Z -> bool := fun c => bool_decide (c ∈ js s).
Definition between (lo hi : Z) : Z -> bool := fun c => (lo <=? c) && (c <=? hi).
Definition digit : Z -> bool := between 48 57.
Definition upper : Z -> bool := between 65 90.
Definition lower : Z -> bool := between 97 122.
Definition alpha (c : Z) : bool := upper c || lower c.
Definition alnum (c : Z) : bool := alpha c || digit c.
Definition word (c : Z) : bool := alnum c || (c =? 95).
(** The literal text of a pattern. *)
Definition rlit (s : string) : re := rcats (map (fun a => RCls (fun c => c =? a)) (js s)).

(** ** The matcher decides the language *)

Lemma in_cat_inv r1 r2 s :
  in_re (RCat r1 r2) s <-> exists s1 s2, s = s1 ++ s2 /\ in_re r1 s1 /\ in_re r2 s2.
Proof. split; [inversion 1; naive_solver | intros (?&?&->&?&?); by constructor]. Qed.
Lemma in_alt_inv r1 r2 s : in_re (RAlt r1 r2) s <-> in_re r1 s \/ in_re r2 s.
Proof. split; [inversion 1; naive_solver | intros []; eauto using in_re]. Qed.
Lemma in_eps_inv s : in_re REps s <-> s = [].
Proof. split; [by inversion 1 | intros ->; constructor]. Qed.
Lemma in_cls_inv f s : in_re (RCls f) s <-> exists c, s = [c] /\ f c = true.
Proof. split; [inversion 1; naive_solver | intros (?&->&?); by constructor]. Qed.
Lemma in_none_inv s : ~ in_re RNone s.
Proof. by inversion 1. Qed.

Lemma in_cat_none_l r s : in_re (RCat RNone r) s <-> in_re RNone s.
Proof. rewrite in_cat_inv. split; [by intros (?&?&?&?%in_none_inv&?) | by intros ?%in_none_inv]. Qed.
Lemma in_cat_none_r r s : in_re (RCat r RNone) s <-> in_re RNone s.
Proof. rewrite in_cat_inv. split; [by intros (?&?&?&?&?%in_none_inv) | by intros ?%in_none_inv]. Qed.
Lemma in_cat_eps r s : in_re (RCat REps r) s <-> in_re r s.
Proof.
  rewrite in_cat_inv. split; [by intros (?&?&->&->%in_eps_inv&?)|].
  intros H. exists [], s. split_and!; [done | constructor | done].
Qed.

Lemma in_rcat r1 r2 s : in_re (rcat r1 r2) s <-> in_re (RCat r1 r2) s.
Proof.
  destruct r1; simpl; rewrite ?in_cat_none_l; try done;
  destruct r2; simpl; rewrite ?in_cat_none_r, ?in_cat_eps; done.
Qed.

Lemma in_ralt r1 r2 s : in_re (ralt r1 r2) s <-> in_re (RAlt r1 r2) s.
Proof.
  assert (Hn := in_none_inv s). rewrite in_alt_inv.
  destruct r1; simpl; [tauto|..]; destruct r2; simpl; rewrite ?in_alt_inv; tauto.
Qed.

Lemma nullable_spec r : nullable r = true <-> in_re r [].
Proof.
  induction r as [| |f|r1 IH1 r2 IH2|r1 IH1 r2 IH2|r IH]; simpl.
  - split; [done | by intros ?%in_none_inv].
  - split; [constructor | done].
  - split; [done | by intros (?&?&?)%in_cls_inv].
  - rewrite andb_true_iff, IH1, IH2, in_cat_inv. split.
    + intros []. by exists [], [].
    + intros (s1&s2&[-> ->]%eq_sym%app_nil&?&?). done.
  - rewrite orb_true_iff, IH1, IH2, in_alt_inv. done.
  - split; [constructor | done].
Qed.

Lemma in_star_cons_inv r c s :
  in_re (RStar r) (c :: s) <-> exists s1 s2, s = s1 ++ s2 /\ in_re r (c :: s1) /\ in_re (RStar r) s2.
Proof.
  split.
  - intros H. remember (RStar r) as r0 eqn:Hr. remember (c :: s) as s0 eqn:Hs.
    revert r c s Hr Hs. induction H as [| | | | | |r0 s1 s2 H1 _ H2 IH2]; intros; try done.
    injection Hr as ->. destruct s1 as [|c' s1]; simpl in Hs.
    + by apply IH2.
    + injection Hs as -> <-. by exists s1, s2.
  - intros (s1&s2&->&?&?). apply (in_star_cons r (c :: s1) s2); done.
Qed.

Lemma deriv_spec c r s : in_re (deriv c r) s <-> in_re r (c :: s).
Proof.
  revert s. induction r as [| |f|r1 IH1 r2 IH2|r1 IH1 r2 IH2|r IH]; intros s; simpl.
  - split; by intros ?%in_none_inv.
  - split; [by intros ?%in_none_inv | by intros ?%in_eps_inv].
  - rewrite in_cls_inv. destruct (f c) eqn:Hf.
    + rewrite in_eps_inv. split; [intros ->; by exists c | by intros (?&[= -> ->]&?)].
    + split; [by intros ?%in_none_inv | intros (?&[= -> ->]&?); congruence].
  - assert (Hcat : in_re (rcat (deriv c r1) r2) s <->
      exists s1 s2, s = s1 ++ s2 /\ in_re r1 (c :: s1) /\ in_re r2 s2).
    { rewrite in_rcat, in_cat_inv. naive_solver. }
    rewrite (in_cat_inv r1 r2 (c :: s)). destruct (nullable r1) eqn:Hn.
    + rewrite in_ralt, in_alt_inv, Hcat, IH2. apply nullable_spec in Hn. split.
      * intros [(s1&s2&->&?&?)|?]; [by exists (c :: s1), s2 | by exists [], (c :: s)].
      * intros ([|c' s1]&s2&Heq&?&?); simplify_eq/=; [by right | left; by exists s1, s2].
    + rewrite Hcat. split; [intros (s1&s2&->&?&?); by exists (c :: s1), s2|].
      intros ([|c' s1]&s2&Heq&H1&?); simplify_eq/=; [|by exists s1, s2].
      apply nullable_spec in H1. congruence.
  - by rewrite in_ralt, !in_alt_inv, IH1, IH2.
  - rewrite in_rcat, in_cat_inv, in_star_cons_inv. naive_solver.
Qed.

Lemma matches_spec r s : matches r s = true <-> in_re r s.
Proof.
  revert r. induction s as [|c s IH]; intros r; simpl; [apply nullable_spec|].
  by rewrite IH, deriv_spec.
Qed.

(** ** Languages of the derived operators *)

Lemma in_star_cls f s : in_re (RStar (RCls f)) s <-> Forall (fun c => f c = true) s.
Proof.
  induction s as [|c s IH].
  - split; constructor.
  - rewrite in_star_cons_inv, Forall_cons, <- IH. split.
    + intros (s1&s2&->&(?&[= -> ->]&?)%in_cls_inv&?). done.
    + intros []. exists [], s. split_and!; [done | by constructor | done].
Qed.

Lemma in_plus_cls f s :
  in_re (rplus (RCls f)) s <-> s <> [] /\ Forall (fun c => f c = true) s.
Proof.
  unfold rplus. rewrite in_cat_inv. split.
  - intros (s1&s2&->&(c&->&Hc)%in_cls_inv&Hs%in_star_cls). split; [done|]. by constructor.
  - intros [Hne Hall]. destruct s as [|c s]; [done|]. apply Forall_cons in Hall as [Hc Hs].
    exists [c], s. split_and!; [done | by constructor | by apply in_star_cls].
Qed.

Lemma in_rep_cls f n s :
  in_re (rrep n (RCls f)) s <-> length s = n /\ Forall (fun c => f c = true) s.
Proof.
  revert s. induction n as [|n IH]; intros s; simpl.
  - rewrite in_eps_inv, length_zero_iff_nil. split; [intros ->; done | by intros []].
  - rewrite in_cat_inv. split.
    + intros (s1&s2&->&(c&->&Hc)%in_cls_inv&[Hl Ha]%IH). simpl. split; [lia | by constructor].
    + destruct s as [|c s]; intros [Hl Ha]; [done|]. apply Forall_cons in Ha as [? ?].
      exists [c], s. split_and!; [done | by constructor | apply IH]. split; [simpl in *; lia | done].
Qed.

Lemma in_upto_cls f m s :
  in_re (rupto m (RCls f)) s <-> (length s <= m)%nat /\ Forall (fun c => f c = true) s.
Proof.
  revert s. induction m as [|m IH]; intros s; simpl.
  - rewrite in_eps_inv. destruct s; simpl; split; try done; [intros []; lia].
  - unfold ropt. rewrite in_alt_inv, in_eps_inv, in_cat_inv. split.
    + intros [->|(s1&s2&->&(c&->&Hc)%in_cls_inv&[Hl Ha]%IH)]; [split; [simpl; lia | done]|].
      simpl. split; [lia | by constructor].
    + destruct s as [|c s]; intros [Hl Ha]; [by left | right]. apply Forall_cons in Ha as [? ?].
      exists [c], s. split_and!; [done | by constructor | apply IH]. split; [simpl in *; lia | done].
Qed.

Lemma in_range_cls f n m s :
  in_re (rrange n m (RCls f)) s <->
  (n <= length s <= n + m)%nat /\ Forall (fun c => f c = true) s.
Proof.
  unfold rrange. rewrite in_cat_inv. split.
  - intros (s1&s2&->&[? ?]%in_rep_cls&[? ?]%in_upto_cls). rewrite length_app, Forall_app. split; [lia|done].
  - intros [Hl Ha]. exists (take n s), (drop n s). rewrite take_drop. split; [done|].
    rewrite in_rep_cls, in_upto_cls, length_take, length_drop.
    rewrite <- (take_drop n s), Forall_app in Ha. destruct Ha. split_and!; (lia || done).
Qed.
