(* ===== verification/JsString.v ===== *)
(** * Strings and text encodings

    What the source uses of the language's strings: decimal text of integers
    ([BigInt.prototype.toString], [BigInt(text)]), concatenation of numbers
    into identifiers, the UTF-8 length and encoding of a string, and the test
    for unpaired surrogates. *)

From S2P Require Import Prelude Regex.

(** ** Decimal text *)

Fixpoint digits (fuel : nat) (n : Z) (acc : jsstr) : jsstr :=
  match fuel with
  | O => acc
  | S fuel =>
      if n <? 10 then (48 + n) :: acc else digits fuel (n / 10) ((48 + n mod 10) :: acc)
  end.
(** Base-ten digits of a nonnegative integer; its binary length bounds their number. *)
Definition Z_digits (n : Z) : jsstr := digits (S (Z.to_nat (Z.log2 n))) n [].
(** [String(n)] for a bigint. *)
Definition Z_to_js (z : Z) : jsstr := if z <? 0 then 45 :: Z_digits (- z) else Z_digits z.
(** The value of a run of digits. *)
Definition digits_value (s : jsstr) : Z := foldl (fun n c => 10 * n + (c - 48)) 0 s.
(** [BigInt(text)] on canonical decimal text. *)
Definition js_to_Z (s : jsstr) : Z :=
  match s with
  | c :: s => if c =? 45 then - digits_value s else digits_value (c :: s)
  | [] => 0
  end.

Lemma digits_value_app s n acc :
  foldl (fun n c => 10 * n + (c - 48)) n (s ++ acc) =
  foldl (fun n c => 10 * n + (c - 48)) (foldl (fun n c => 10 * n + (c - 48)) n s) acc.
Proof. by rewrite foldl_app. Qed.

(** [digits] writes the digits of [n] in front of [acc]. *)
Lemma digits_spec fuel n acc :
  0 <= n < 2 ^ Z.of_nat fuel -> (0 < fuel)%nat ->
  exists s, digits fuel n acc = s ++ acc /\ digits_value s = n /\
    Forall (fun c => digit c = true) s /\
    (n < 10 /\ s = [48 + n] \/ 10 <= n /\ exists d s', s = d :: s' /\ 49 <= d <= 57 /\ s' <> []).
Proof.
  revert n acc. induction fuel as [|fuel IH]; intros n acc Hn Hf; [lia|]. simpl.
  destruct (Z.ltb_spec n 10) as [Hlt|Hge].
  - exists [48 + n]. unfold digits_value; simpl. split_and!; [done | lia | | by left].
    constructor; [|done]. unfold digit, between. apply andb_true_iff. lia.
  - assert (Hf' : (0 < fuel)%nat) by (destruct fuel; simpl in Hn; lia).
    assert (Hdm := Z.div_mod n 10 ltac:(lia)). assert (Hmod := Z.mod_pos_bound n 10 ltac:(lia)).
    rewrite Nat2Z.inj_succ, Z.pow_succ_r in Hn by lia.
    destruct (IH (n / 10) ((48 + n mod 10) :: acc)) as (s & Hs & Hv & Ha & Hh); [lia | done |].
    exists (s ++ [48 + n mod 10]). rewrite Hs, <- app_assoc. split; [done|]. split_and!.
    + unfold digits_value in *. rewrite digits_value_app, Hv. simpl. lia.
    + rewrite Forall_app. split; [done|]. constructor; [|done].
      unfold digit, between. apply andb_true_iff. lia.
    + right. split; [done|]. destruct Hh as [[Hl ->]|[Hl (d&s'&->&Hd&?)]].
      * exists (48 + n / 10), [48 + n mod 10]. split_and!; [done | lia | lia | done].
      * exists d, (s' ++ [48 + n mod 10]). split_and!; [done | lia | lia |]. by destruct s'.
Qed.

Lemma Z_digits_spec n :
  0 <= n ->
  digits_value (Z_digits n) = n /\ Forall (fun c => digit c = true) (Z_digits n) /\
  (n < 10 /\ Z_digits n = [48 + n] \/
   10 <= n /\ exists d s', Z_digits n = d :: s' /\ 49 <= d <= 57 /\ s' <> []).
Proof.
  intros Hn. unfold Z_digits.
  destruct (digits_spec (S (Z.to_nat (Z.log2 n))) n []) as (s & -> & Hv & Ha & Hh); [|lia|].
  - split; [done|]. rewrite Nat2Z.inj_succ, Z2Nat.id by apply Z.log2_nonneg.
    destruct (decide (n = 0)) as [->|]; [done|]. apply Z.log2_spec. lia.
  - rewrite app_nil_r. done.
Qed.

(** Leading digits: the value of [d :: s] is at least [d * 10 ^ length s]. *)
Lemma digits_value_lower n s :
  0 <= n -> Forall (fun c => digit c = true) s ->
  n * 10 ^ zlength s <= foldl (fun n c => 10 * n + (c - 48)) n s.
Proof.
  revert n. induction s as [|c s IH]; intros n Hn; unfold zlength in *; simpl; [lia|].
  intros [Hc Hs]%Forall_cons. unfold digit, between in Hc. bools.
  rewrite Nat2Z.inj_succ, Z.pow_succ_r by lia. etransitivity; [|apply IH; [lia|done]].
  assert (0 < 10 ^ Z.of_nat (length s)) by (apply Z.pow_pos_nonneg; lia). nia.
Qed.

(** A number below [10 ^ k] has at most [k] digits. *)
Lemma Z_digits_length n k : 0 <= n < 10 ^ k -> 0 < k -> zlength (Z_digits n) <= k.
Proof.
  intros [Hn Hlt] Hk. destruct (Z_digits_spec n Hn) as (Hv & Ha & [[Hl ->]|[Hl (d&s'&Heq&Hd&_)]]).
  - unfold zlength; simpl; lia.
  - rewrite Heq in *. unfold digits_value in Hv. simpl in Hv.
    apply Forall_cons in Ha as [_ Ha]. pose proof (digits_value_lower (d - 48) s' ltac:(lia) Ha) as Hlow.
    replace (10 * 0 + (d - 48)) with (d - 48) in Hv by lia. rewrite Hv in Hlow.
    destruct (decide (k <= zlength s')) as [Hk'|]; [|unfold zlength in *; simpl; lia].
    assert (10 ^ k <= 10 ^ zlength s') by (apply Z.pow_le_mono_r; lia). nia.
Qed.

Lemma js_to_Z_to_js z : js_to_Z (Z_to_js z) = z.
Proof.
  unfold Z_to_js. destruct (Z.ltb_spec z 0) as [Hneg|Hpos].
  - simpl. destruct (Z_digits_spec (- z)) as [Hv _]; lia.
  - destruct (Z_digits_spec z Hpos) as (Hv & Ha & _). unfold js_to_Z.
    destruct (Z_digits z) as [|c s]; [done|]. apply Forall_cons in Ha as [Hc _].
    unfold digit, between in Hc. bools. rewrite (proj2 (Z.eqb_neq c 45)) by lia. exact Hv.
Qed.

Lemma Z_to_js_inj a b : Z_to_js a = Z_to_js b -> a = b.
Proof. intros H%(f_equal js_to_Z). by rewrite !js_to_Z_to_js in H. Qed.

(** [`${prefix}:${n}`], the identifiers the guard and the router issue. *)
Definition tagged (prefix : jsstr) (n : Z) : jsstr := prefix ++ [58] ++ Z_to_js n.

Lemma tagged_inj p a b : tagged p a = tagged p b -> a = b.
Proof. unfold tagged. intros H%app_inv_head. simplify_list_eq. by apply Z_to_js_inj. Qed.

(** ** UTF-8 *)

Definition high_surrogate : Z -> bool := between 0xD800 0xDBFF.
Definition low_surrogate : Z -> bool := between 0xDC00 0xDFFF.

(** The test [/[\uD800-\uDBFF](?![\uDC00-\uDFFF])|(?<![\uD800-\uDBFF])[\uDC00-\uDFFF]/u]:
    reading code points, some surrogate is not half of a pair. *)
Fixpoint unpaired_surrogate (s : jsstr) : bool :=
  match s with
  | [] => false
  | c :: s' =>
      if high_surrogate c then
        match s' with
        | d :: s'' => if low_surrogate d then unpaired_surrogate s'' else true
        | [] => true
        end
      else if low_surrogate c then true else unpaired_surrogate s'
  end.

(** The bytes of one code point. *)
Definition utf8_char (c : Z) : list Z :=
  if c <? 0x80 then [c]
  else if c <? 0x800 then [0xC0 + c / 64; 0x80 + c mod 64]
  else if c <? 0x10000 then [0xE0 + c / 4096; 0x80 + c / 64 mod 64; 0x80 + c mod 64]
  else [0xF0 + c / 262144; 0x80 + c / 4096 mod 64; 0x80 + c / 64 mod 64; 0x80 + c mod 64].

(** [new TextEncoder().encode(s)]; an unpaired surrogate becomes U+FFFD. *)
Fixpoint utf8 (s : jsstr) : list Z :=
  match s with
  | [] => []
  | c :: s' =>
      if high_surrogate c then
        match s' with
        | d :: s'' =>
            if low_surrogate d
            then utf8_char (0x10000 + (c - 0xD800) * 1024 + (d - 0xDC00)) ++ utf8 s''
            else utf8_char 0xFFFD ++ utf8 s'
        | [] => utf8_char 0xFFFD
        end
      else if low_surrogate c then utf8_char 0xFFFD ++ utf8 s'
      else utf8_char c ++ utf8 s'
  end.

(** [Buffer.byteLength(s, 'utf8')]. *)
Definition byteLength (s : jsstr) : Z := zlength (utf8 s).

(** ** Prefixes *)

(** [s.startsWith(p)]. *)
Definition startsWith (s p : jsstr) : bool := bool_decide (take (length p) s = p).
(** [s.endsWith(p)]. *)
Definition endsWith (s p : jsstr) : bool :=
  bool_decide ((length p <= length s)%nat /\ drop (length s - length p) s = p).
(** [s.includes(p)]. *)
Fixpoint includes (s p : jsstr) : bool :=
  startsWith s p || match s with [] => false | _ :: s => includes s p end.

(** [s.split(sep)] for a separator of one character. *)
Fixpoint split_on (sep : Z) (s : jsstr) : list jsstr :=
  match s with
  | [] => [[]]
  | c :: s =>
      if c =? sep then [] :: split_on sep s
      else match split_on sep s with
           | w :: ws => (c :: w) :: ws
           | [] => [[c]]
           end
  end.

Lemma split_on_nonempty sep s : split_on sep s <> [].
Proof. destruct s; simpl; [done|]. repeat case_match; done. Qed.
