(* ===== verification/Values.v ===== *)
(** * JavaScript values

    The dynamic values the code inspects: what a YAML or JSON parser, the ROS
    addon or a peer hands over.  Arrays know their holes, accessors and extra
    own keys, objects their prototype and the attributes of each own property,
    because the code tests them.  [obj] and [arr] build the values a parser
    produces. *)

From S2P Require Import Prelude JsNumber.

(** Attributes of an own property: enumerable data, non-enumerable data, accessor. *)
Inductive prop_kind := DataProp | HiddenProp | AccessorProp.
(** A slot of an array below its length. *)
Inductive slot_kind := DataSlot | HoleSlot | AccessorSlot.
Inductive prop_key := StringKey (s : jsstr) | SymbolKey.
(** [Object.getPrototypeOf]: [Object.prototype], [null] or anything else. *)
Inductive prototype := ObjectProto | NullProto | OtherProto.

Inductive jsval : Type :=
| VUndefined
| VNull
| VBool (b : bool)
| VNum (x : number)
| VBigInt (z : Z)
| VStr (s : jsstr)
| VSymbol
| VFunction
| VBytes (bs : list Z)
| VArr (slots : list (slot_kind * jsval)) (extra : nat)
| VObj (proto : prototype) (props : list (prop_key * prop_kind * jsval)).

#[export] Instance prop_kind_eq_dec : EqDecision prop_kind.
Proof. solve_decision. Defined.
#[export] Instance slot_kind_eq_dec : EqDecision slot_kind.
Proof. solve_decision. Defined.
#[export] Instance prop_key_eq_dec : EqDecision prop_key.
Proof. solve_decision. Defined.
#[export] Instance prototype_eq_dec : EqDecision prototype.
Proof. solve_decision. Defined.

(** The values a parser builds. *)
Definition obj (fields : list (jsstr * jsval)) : jsval :=
  VObj ObjectProto (map (fun kv => (StringKey kv.1, DataProp, kv.2)) fields).
Definition arr (elems : list jsval) : jsval := VArr (map (fun v => (DataSlot, v)) elems) 0.

(** [typeof v === 'object' && v !== null && !Array.isArray(v)]; a byte array is
    an object whose own keys are its indices. *)
Definition is_record (v : jsval) : bool :=
  match v with VObj _ _ | VBytes _ => true | _ => false end.

(** [Object.keys(v)]: the enumerable own string keys, in property order. *)
Definition own_keys (props : list (prop_key * prop_kind * jsval)) : list jsstr :=
  omap (fun p =>
    match p.1.1 with
    | StringKey k => match p.1.2 with HiddenProp => None | _ => Some k end
    | SymbolKey => None
    end) props.

(** [object[k]] for an own property.  The objects it is used on come from a
    parser or have passed the codec's [record], so they have no accessors. *)
Fixpoint prop_lookup (k : jsstr) (props : list (prop_key * prop_kind * jsval)) : option jsval :=
  match props with
  | [] => None
  | (StringKey k', _, v) :: props => if decide (k = k') then Some v else prop_lookup k props
  | (SymbolKey, _, _) :: props => prop_lookup k props
  end.
Definition prop (k : string) (v : jsval) : jsval :=
  match v with VObj _ props => default VUndefined (prop_lookup (js k) props) | _ => VUndefined end.

Definition is_undefined (v : jsval) : bool := match v with VUndefined => true | _ => false end.
Definition is_str (s : string) (v : jsval) : bool :=
  match v with VStr s' => bool_decide (s' = js s) | _ => false end.

