(* ===== verification/Base64.v ===== *)
(** * Base64

    The standard alphabet with padding: what [Buffer.toString('base64')] writes
    and what [Buffer.from(s, 'base64')] reads back from a syntactically valid
    text. *)

From S2P Require Import Prelude Regex.

Definition byte (b : Z) : bool := between 0 255 b.

Definition b64_char (n : Z) : Z :=
  if n <? 26 then 65 + n
  else if n <? 52 then 97 + (n - 26)
  else if n <? 62 then 48 + (n - 52)
  else if n =? 62 then 43 else 47.
Definition b64_value (c : Z) : Z :=
  if upper c then c - 65
  else if lower c then c - 97 + 26
  else if digit c then c - 48 + 52
  else if c =? 43 then 62 else 63.
Definition PAD : Z := 61.

Fixpoint to_base64 (bs : list Z) : jsstr :=
  match bs with
  | a :: b :: c :: bs =>
      b64_char (a / 4) :: b64_char (a mod 4 * 16 + b / 16) ::
      b64_char (b mod 16 * 4 + c / 64) :: b64_char (c mod 64) :: to_base64 bs
  | [a; b] => [b64_char (a / 4); b64_char (a mod 4 * 16 + b / 16); b64_char (b mod 16 * 4); PAD]
  | [a] => [b64_char (a / 4); b64_char (a mod 4 * 16); PAD; PAD]
  | [] => []
  end.

Fixpoint from_base64 (s : jsstr) : list Z :=
  match s with
  | c1 :: c2 :: c3 :: c4 :: s =>
      let v1 := b64_value c1 in let v2 := b64_value c2 in
      let v3 := b64_value c3 in let v4 := b64_value c4 in
      if c4 =? PAD then
        if c3 =? PAD then [v1 * 4 + v2 / 16]
        else [v1 * 4 + v2 / 16; v2 mod 16 * 16 + v3 / 4]
      else (v1 * 4 + v2 / 16) :: (v2 mod 16 * 16 + v3 / 4) :: (v3 mod 4 * 64 + v4) :: from_base64 s
  | _ => []
  end.

(** [/^(?:[A-Za-z0-9+/]{4})*(?:[A-Za-z0-9+/]{2}==|[A-Za-z0-9+/]{3}=)?$/] *)
Definition b64_class (c : Z) : bool := alnum c || chr "+/" c.
Definition b64_re : re :=
  RCat (RStar (rrep 4 (RCls b64_class)))
    (ropt (RAlt (RCat (rrep 2 (RCls b64_class)) (rlit "==")) (RCat (rrep 3 (RCls b64_class)) (rlit "=")))).

(** ** Round trip *)

Lemma b64_class_plus c : c = 43 \/ c = 47 -> b64_class c = true.
Proof. by intros [-> | ->]. Qed.

Lemma b64_char_spec n :
  0 <= n < 64 -> b64_class (b64_char n) = true /\ b64_value (b64_char n) = n /\ b64_char n <> PAD.
Proof.
  intros Hn. assert (Hall : forallb (fun n => b64_class (b64_char n) && (b64_value (b64_char n) =? n)
    && negb (b64_char n =? PAD)) (map Z.of_nat (seq 0 64)) = true) by reflexivity.
  rewrite forallb_forall in Hall. pose proof (Hall n) as Hn'. cbv beta in Hn'.
  rewrite !andb_true_iff in Hn'. destruct Hn' as [[H1 H2] H3].
  { apply in_map_iff. exists (Z.to_nat n). split; [lia|]. apply in_seq. lia. }
  bools. by split_and!.
Qed.

(** Induction three bytes at a time. *)
Lemma triples_ind (P : list Z -> Prop) :
  P [] -> (forall a, P [a]) -> (forall a b, P [a; b]) ->
  (forall a b c l, P l -> P (a :: b :: c :: l)) -> forall l, P l.
Proof.
  intros H0 H1 H2 H3. fix IH 1. intros [|a [|b [|c l]]]; [done | apply H1 | apply H2 | apply H3, IH].
Qed.

Lemma sextets a b c :
  byte a = true -> byte b = true -> byte c = true ->
  0 <= a / 4 < 64 /\ 0 <= a mod 4 * 16 + b / 16 < 64 /\ 0 <= b mod 16 * 4 + c / 64 < 64 /\
  0 <= c mod 64 < 64 /\ 0 <= a mod 4 * 16 < 64 /\ 0 <= b mod 16 * 4 < 64.
Proof.
  unfold byte, between. intros. bools. Z.to_euclidean_division_equations. lia.
Qed.

Lemma octets a b c :
  byte a = true -> byte b = true -> byte c = true ->
  a / 4 * 4 + (a mod 4 * 16 + b / 16) / 16 = a /\
  (a mod 4 * 16 + b / 16) mod 16 * 16 + (b mod 16 * 4 + c / 64) / 4 = b /\
  (b mod 16 * 4 + c / 64) mod 4 * 64 + c mod 64 = c /\
  a / 4 * 4 + (a mod 4 * 16) / 16 = a /\
  (a mod 4 * 16 + b / 16) mod 16 * 16 + (b mod 16 * 4) / 4 = b.
Proof.
  unfold byte, between. intros. bools. Z.to_euclidean_division_equations. lia.
Qed.

Lemma b64_pad n : 0 <= n < 64 -> (b64_char n =? PAD) = false.
Proof. intros (_ & _ & ?)%b64_char_spec. by apply Z.eqb_neq. Qed.
Lemma b64_val n : 0 <= n < 64 -> b64_value (b64_char n) = n.
Proof. by intros (_ & ? & _)%b64_char_spec. Qed.
Lemma b64_cls n : 0 <= n < 64 -> b64_class (b64_char n) = true.
Proof. by intros (? & _ & _)%b64_char_spec. Qed.

Lemma from_to_base64 bs : Forall (fun b => byte b = true) bs -> from_base64 (to_base64 bs) = bs.
Proof.
  induction bs as [|a|a b|a b c bs IH] using triples_ind; intros Hb.
  - done.
  - inv Hb. destruct (sextets a 0 0) as (?&?&?&?&?&?), (octets a 0 0) as (?&?&?&?&?); [done..|].
    simpl. rewrite !b64_val by done. by f_equal.
  - inv Hb. inv H2. destruct (sextets a b 0) as (?&?&?&?&?&?), (octets a b 0) as (?&?&?&?&?); [done..|].
    simpl. rewrite b64_pad, !b64_val by done. by repeat f_equal.
  - inv Hb. inv H2. inv H4. destruct (sextets a b c) as (?&?&?&?&?&?), (octets a b c) as (?&?&?&?&?); [done..|].
    simpl. rewrite b64_pad, !b64_val, IH by done. by repeat f_equal.
Qed.

Lemma in_rep_list f l : forallb f l = true -> in_re (rrep (length l) (RCls f)) l.
Proof.
  intros Hl. apply in_rep_cls. split; [done|]. apply Forall_forall. intros x Hx%list_elem_of_In.
  rewrite forallb_forall in Hl. auto.
Qed.

Lemma to_base64_syntax bs :
  Forall (fun b => byte b = true) bs -> in_re b64_re (to_base64 bs).
Proof.
  unfold b64_re. induction bs as [|a|a b|a b c bs IH] using triples_ind; intros Hb.
  - apply matches_spec. reflexivity.
  - inv Hb. destruct (sextets a 0 0) as (?&?&?&?&?&?); [done..|]. simpl to_base64.
    apply in_cat_inv. exists []. eexists. split_and!; [done | apply matches_spec; reflexivity |].
    apply in_alt_inv. right. apply in_alt_inv. left. apply in_cat_inv.
    exists [b64_char (a / 4); b64_char (a mod 4 * 16)], [PAD; PAD]. split_and!; [done | | apply matches_spec; reflexivity].
    apply (in_rep_list _ [_; _]). simpl. by rewrite !b64_cls by done.
  - inv Hb. inv H2. destruct (sextets a b 0) as (?&?&?&?&?&?); [done..|]. simpl to_base64.
    apply in_cat_inv. exists []. eexists. split_and!; [done | apply matches_spec; reflexivity |].
    apply in_alt_inv. right. apply in_alt_inv. right. apply in_cat_inv.
    exists [b64_char (a / 4); b64_char (a mod 4 * 16 + b / 16); b64_char (b mod 16 * 4)], [PAD].
    split_and!; [done | | apply matches_spec; reflexivity].
    apply (in_rep_list _ [_; _; _]). simpl. by rewrite !b64_cls by done.
  - inv Hb. inv H2. inv H4. destruct (sextets a b c) as (?&?&?&?&?&?); [done..|].
    destruct (proj1 (in_cat_inv _ _ _) (IH H5)) as (s1 & s2 & Hs & Hs1 & Hs2).
    simpl to_base64. rewrite Hs. apply in_cat_inv. eexists (_ :: _ :: _ :: _ :: s1), s2.
    split_and!; [done | | done].
    refine (in_star_cons _ [_; _; _; _] s1 _ Hs1). apply (in_rep_list _ [_; _; _; _]).
    simpl. by rewrite !b64_cls by done.
Qed.

Lemma to_base64_length bs : zlength (to_base64 bs) = 4 * ((zlength bs + 2) / 3).
Proof.
  induction bs as [|a|a b|a b c bs IH] using triples_ind; [done..|].
  simpl. rewrite !zlength_cons, IH. replace (zlength bs + 1 + 1 + 1 + 2) with (zlength bs + 2 + 1 * 3) by lia.
  rewrite Z.div_add by lia. lia.
Qed.
