(* ===== verification/SessionValidation.v ===== *)
(** * Boundary validation shared by the session layer

    [session/validation.ts]: limits, identifiers and sequence numbers.  A limit
    that passes is a positive safe integer and is kept as that integer. *)

From S2P Require Import Prelude JsNumber JsString Regex Values.

(** [!Number.isSafeInteger(value) || value <= 0] throws; the model returns the
    integer the accepted number denotes. *)
Definition positiveLimit (value : jsval) : result Z :=
  match value with
  | VNum x =>
      match to_Z x with
      | Some z => if (Z.abs z <=? MAX_SAFE_INTEGER) && (0 <? z) then Ok z
                  else Throw (Error "invalid_limit")
      | None => Throw (Error "invalid_limit")
      end
  | _ => Throw (Error "invalid_limit")
  end.

(** [/^[\x21-\x7e]{1,256}$/] *)
Definition identifier_re : re := rrange 1 255 (RCls (between 0x21 0x7e)).
Definition identifier (value : jsval) : result unit :=
  match value with
  | VStr s => throw_when (negb (matches identifier_re s)) (Error "invalid_identifier")
  | _ => Throw (Error "invalid_identifier")
  end.

(** [/^(0|[1-9][0-9]{0,19})$/] *)
Definition sequence_re : re :=
  RAlt (rlit "0") (RCat (RCls (between 49 57)) (rupto 19 (RCls digit))).
Definition MAX_UINT64 : Z := 18446744073709551615.
Definition sequence (value : jsval) : result Z :=
  match value with
  | VStr s =>
      throw_when (negb (matches sequence_re s)) (Error "invalid_sequence");;
      throw_when (MAX_UINT64 <? js_to_Z s) (Error "invalid_sequence");;
      Ok (js_to_Z s)
  | _ => Throw (Error "invalid_sequence")
  end.

(** ** What validation guarantees *)

Lemma positiveLimit_Ok v z :
  positiveLimit v = Ok z <->
  exists x, v = VNum x /\ to_Z x = Some z /\ 0 < z <= MAX_SAFE_INTEGER.
Proof.
  destruct v; simpl; try (split; [done | by intros (?&?&?)]).
  destruct (to_Z x) as [y|] eqn:Hx; [|split; [done | intros (?&[= <-]&?&?); congruence]].
  destruct (_ && _) eqn:Hb.
  - split.
    + intros [= ->]. bools. exists x. split_and!; [done | done | lia | lia].
    + intros (?&[= <-]&?&?). congruence.
  - split; [done|]. intros (?&[= <-]&Hy&?). rewrite Hx in Hy. injection Hy as ->.
    apply andb_false_iff in Hb as [?|?]; bools; lia.
Qed.

Lemma positiveLimit_of_Z z :
  0 < z <= MAX_SAFE_INTEGER -> positiveLimit (VNum (of_Z z)) = Ok z.
Proof. intros Hz. apply positiveLimit_Ok. exists (of_Z z). rewrite to_Z_of_Z by (unfold MAX_SAFE_INTEGER in *; lia). done. Qed.

Lemma identifier_Ok v :
  identifier v = Ok tt <->
  exists s, v = VStr s /\ (1 <= length s <= 256)%nat /\
    Forall (fun c => 0x21 <= c <= 0x7e) s.
Proof.
  destruct v; simpl; try (split; [done | by intros (?&?&?)]).
  rewrite throw_when_Ok, negb_false_iff, matches_spec. unfold identifier_re.
  rewrite in_range_cls. split.
  - intros [Hl Ha]. exists s. split_and!; [done | lia | lia |].
    eapply Forall_impl; [exact Ha|]. intros c Hc. cbv beta in Hc. unfold between in Hc. bools. by split.
  - intros (?&[= <-]&Hl&Ha). split; [lia|].
    eapply Forall_impl; [exact Ha|]. cbv beta. intros c Hc. unfold between. apply andb_true_iff. lia.
Qed.

Lemma matches_cat_cls f r c s :
  f c = true -> matches (RCat (RCls f) r) (c :: s) = matches r s.
Proof. intros Hc. simpl. rewrite Hc. by destruct r. Qed.

(** The digits of a bounded integer are canonical sequence text. *)
Lemma sequence_canonical n : 0 <= n <= MAX_UINT64 -> sequence (VStr (Z_to_js n)) = Ok n.
Proof.
  intros Hn. unfold sequence. rewrite js_to_Z_to_js.
  rewrite (proj2 (Z.ltb_ge MAX_UINT64 n)) by lia.
  replace (matches sequence_re (Z_to_js n)) with true; [done|]. symmetry.
  unfold Z_to_js. rewrite (proj2 (Z.ltb_ge n 0)) by lia.
  pose proof (Z_digits_length n 20 ltac:(unfold MAX_UINT64 in *; lia) ltac:(lia)) as Hlen.
  destruct (Z_digits_spec n) as (_ & Ha & [[Hl Heq]|[Hl (d&s'&Heq&Hd&_)]]); [lia| |]; rewrite Heq.
  - destruct (decide (n = 0)) as [->|]; [reflexivity|].
    apply matches_spec, in_alt_inv. right. apply in_cat_inv. exists [48 + n], [].
    split_and!; [done| |].
    + apply in_cls_inv. eexists; split; [done|]. unfold between. apply andb_true_iff. lia.
    + apply in_upto_cls. split; [simpl; lia | done].
  - rewrite Heq in *. apply Forall_cons in Ha as [_ Ha]. unfold zlength in Hlen; simpl in Hlen.
    apply matches_spec, in_alt_inv. right. apply in_cat_inv. exists [d], s'.
    split_and!; [done| |].
    + apply in_cls_inv. eexists; split; [done|]. unfold between. apply andb_true_iff. lia.
    + apply in_upto_cls. split; [lia | done].
Qed.

Lemma digits_value_nonneg s n :
  0 <= n -> Forall (fun c => digit c = true) s ->
  0 <= foldl (fun n c => 10 * n + (c - 48)) n s.
Proof.
  revert n. induction s as [|c s IH]; intros n Hn; simpl; [done|].
  intros [Hc Hs]%Forall_cons. apply IH; [|done]. unfold digit, between in Hc. bools. lia.
Qed.

(** Accepted sequence numbers are unsigned 64-bit integers. *)
Lemma sequence_range v n : sequence v = Ok n -> 0 <= n <= MAX_UINT64.
Proof.
  destruct v; simpl; try done. intros H. inv_res. bools. subst n. split; [|lia].
  apply matches_spec, in_alt_inv in Hx as [Hx|Hx].
  - apply in_cls_inv in Hx as (c&->&Hc). bools. by subst c.
  - apply in_cat_inv in Hx as (s1&s2&->&(c&->&Hc)%in_cls_inv&[_ Ha]%in_upto_cls).
    unfold between in Hc. bools. unfold js_to_Z. simpl app. cbv iota.
    rewrite (proj2 (Z.eqb_neq c 45)) by lia. apply digits_value_nonneg; [lia|].
    constructor; [|done]. unfold digit, between. apply andb_true_iff. lia.
Qed.
