(* ===== verification/CommandGuard.v ===== *)
(** * Command authority

    [session/command-guard.ts]: sessions, publisher handles, exclusive leases
    and single-use publish tickets.  The clock and the authorization hook are
    supplied from outside: the clock's current reading is a field of the state
    (any value may be read next), the hook is a parameter that may itself call
    the guard. *)

From S2P Require Import Prelude JsNumber JsString JsMap Regex Values SessionValidation.

Module Guard.

(** ** Data *)

Record CommandIdentity := { sessionId : jsstr; epoch : jsstr; handle : jsstr; topic : jsstr }.
Record CommandRequest := {
  rq_sessionId : jsstr; rq_epoch : jsstr; rq_handle : jsstr; rq_leaseId : jsstr; rq_seq : jsval }.
Record Lease := { lease_id : jsstr; expiresAt : number }.
Record HandleState := {
  identity : CommandIdentity; leaseMs : Z; lease : option Lease; received : Z; published : Z }.
(** The closure [prepare] returns: the frozen request, its sequence and the
    [consumed] flag. *)
Record CommandTicket := { saved : CommandRequest; seq : Z; consumed : bool }.
Inductive phase := POpen | PArm | PReceive | PPublish.

Record GuardOptions := {
  opt_maxSessions : jsval; opt_maxHandles : jsval; opt_leaseMs : jsval;
  opt_callbacks : bool (** [typeof clock === 'function' && typeof authorize === 'function'] *) }.

Record guard := {
  maxSessions : Z; maxHandles : Z; defaultLeaseMs : Z;
  prefix : jsstr;
  nextId : Z;
  lastTime : number;
  sessions : jsmap jsstr jsstr;
  handles : jsmap jsstr HandleState;
  closed : bool;
  tickets : list CommandTicket;
  clock : number (** what [options.clock()] returns now *) }.

Definition set_nextId n g := {| maxSessions := maxSessions g; maxHandles := maxHandles g;
  defaultLeaseMs := defaultLeaseMs g; prefix := prefix g; nextId := n; lastTime := lastTime g;
  sessions := sessions g; handles := handles g; closed := closed g; tickets := tickets g; clock := clock g |}.
Definition set_lastTime t g := {| maxSessions := maxSessions g; maxHandles := maxHandles g;
  defaultLeaseMs := defaultLeaseMs g; prefix := prefix g; nextId := nextId g; lastTime := t;
  sessions := sessions g; handles := handles g; closed := closed g; tickets := tickets g; clock := clock g |}.
Definition set_sessions m g := {| maxSessions := maxSessions g; maxHandles := maxHandles g;
  defaultLeaseMs := defaultLeaseMs g; prefix := prefix g; nextId := nextId g; lastTime := lastTime g;
  sessions := m; handles := handles g; closed := closed g; tickets := tickets g; clock := clock g |}.
Definition set_handles m g := {| maxSessions := maxSessions g; maxHandles := maxHandles g;
  defaultLeaseMs := defaultLeaseMs g; prefix := prefix g; nextId := nextId g; lastTime := lastTime g;
  sessions := sessions g; handles := m; closed := closed g; tickets := tickets g; clock := clock g |}.
Definition set_closed b g := {| maxSessions := maxSessions g; maxHandles := maxHandles g;
  defaultLeaseMs := defaultLeaseMs g; prefix := prefix g; nextId := nextId g; lastTime := lastTime g;
  sessions := sessions g; handles := handles g; closed := b; tickets := tickets g; clock := clock g |}.
Definition set_tickets l g := {| maxSessions := maxSessions g; maxHandles := maxHandles g;
  defaultLeaseMs := defaultLeaseMs g; prefix := prefix g; nextId := nextId g; lastTime := lastTime g;
  sessions := sessions g; handles := handles g; closed := closed g; tickets := l; clock := clock g |}.
Definition set_clock t g := {| maxSessions := maxSessions g; maxHandles := maxHandles g;
  defaultLeaseMs := defaultLeaseMs g; prefix := prefix g; nextId := nextId g; lastTime := lastTime g;
  sessions := sessions g; handles := handles g; closed := closed g; tickets := tickets g; clock := t |}.

Definition with_lease l (h : HandleState) := {| identity := identity h; leaseMs := leaseMs h;
  lease := l; received := received h; published := published h |}.
Definition with_received n (h : HandleState) := {| identity := identity h; leaseMs := leaseMs h;
  lease := lease h; received := n; published := published h |}.
Definition with_published n (h : HandleState) := {| identity := identity h; leaseMs := leaseMs h;
  lease := lease h; received := received h; published := n |}.

(** ** Private helpers *)

Definition assertOpen : ST guard unit :=
  g ← get; throw_when (closed g) (Error "guard_closed").

Definition now : ST guard number :=
  g ← get;
  let value := clock g in
  throw_when (negb (is_finite value) || nltb (of_Z MAX_SAFE_INTEGER) value || nltb value (lastTime g))
    (Error "invalid_clock");;
  modify (set_lastTime value);;
  mret value.

Definition id : ST guard jsstr :=
  modify (fun g => set_nextId (nextId g + 1) g);;
  gets (fun g => tagged (prefix g) (nextId g)).

Definition owned (sid h : jsstr) : ST guard HandleState :=
  assertOpen;;
  g ← get;
  match mget h (handles g) with
  | None => mthrow (Error "invalid_owner")
  | Some state =>
      throw_when (bool_decide (sessionId (identity state) <> sid)) (Error "invalid_owner");;
      mret state
  end.

(** [new CommandGuard(options)], given the UUID it draws and the first clock reading. *)
Definition constructor (uuid : jsstr) (options : GuardOptions) (reading : number) : result guard :=
  ms ← positiveLimit (opt_maxSessions options);
  mh ← positiveLimit (opt_maxHandles options);
  lm ← positiveLimit (opt_leaseMs options);
  throw_when (negb (opt_callbacks options)) (Error "invalid_callback");;
  match now {| maxSessions := ms; maxHandles := mh; defaultLeaseMs := lm; prefix := uuid;
    nextId := 0; lastTime := S754_zero false; sessions := []; handles := []; closed := false;
    tickets := []; clock := reading |} with
  | (Ok _, g) => Ok g
  | (Throw e, _) => Throw e
  end.

(** [/^\/(?:[A-Za-z_][A-Za-z0-9_]*\/)*[A-Za-z_][A-Za-z0-9_]*$/] *)
Definition segment_re : re := RCat (RCls (fun c => alpha c || (c =? 95))) (RStar (RCls word)).
Definition topic_re : re :=
  RCat (rlit "/") (RCat (RStar (RCat segment_re (rlit "/"))) segment_re).
Definition valid_topic (v : jsval) : option jsstr :=
  match v with
  | VStr s => if matches topic_re s && (zlength s <=? 247) then Some s else None
  | _ => None
  end.

Section hook.
(** [options.authorize], run on the guard's state because it may call back. *)
Variable authorize_hook : CommandIdentity -> phase -> ST guard bool.

Definition authorize (i : CommandIdentity) (p : phase) : ST guard unit :=
  b ← authorize_hook i p; throw_when (negb b) (Error "unauthorized").

Definition validate (request : CommandRequest) (p : phase) : ST guard HandleState :=
  state ← owned (rq_sessionId request) (rq_handle request);
  authorize (identity state) p;;
  state ← owned (rq_sessionId request) (rq_handle request);
  throw_when (bool_decide (rq_epoch request <> epoch (identity state))) (Error "invalid_epoch");;
  match lease state with
  | None => mthrow (Error "invalid_lease")
  | Some l =>
      throw_when (bool_decide (rq_leaseId request <> lease_id l)) (Error "invalid_lease");;
      t ← now;
      throw_when (nleb (expiresAt l) t) (Error "lease_expired");;
      mret state
  end.

(** ** Public operations *)

Definition openSession (ep : jsval) : ST guard jsstr :=
  assertOpen;;
  lift (identifier ep);;
  g ← get;
  throw_when (maxSessions g <=? msize (sessions g)) (Error "session_limit");;
  sid ← id;
  modify (fun g => set_sessions (mset sid (match ep with VStr s => s | _ => [] end) (sessions g)) g);;
  mret sid.

Definition openHandle (sid : jsstr) (topicName : jsval) (ms : option jsval) : ST guard jsstr :=
  assertOpen;;
  g ← get;
  leaseMs ← match ms with None => mret (defaultLeaseMs g) | Some v => lift (positiveLimit v) end;
  g ← get;
  match mget sid (sessions g) with
  | None => mthrow (Error "unknown_session")
  | Some ep =>
      match valid_topic topicName with
      | None => mthrow (Error "invalid_topic")
      | Some topic =>
          h ← id;
          let i := {| sessionId := sid; epoch := ep; handle := h; topic := topic |} in
          authorize i POpen;;
          g ← get;
          throw_when (negb (mhas sid (sessions g))) (Error "unknown_session");;
          throw_when (maxHandles g <=? msize (handles g)) (Error "handle_limit");;
          modify (fun g => set_handles (mset h {| identity := i; leaseMs := leaseMs;
            lease := None; received := -1; published := -1 |} (handles g)) g);;
          mret h
      end
  end.

(** Another session's lease on the topic that has not expired. *)
Definition busy (state : HandleState) (sid : jsstr) (t : number) (candidate : HandleState) : bool :=
  bool_decide (topic (identity candidate) = topic (identity state))
  && bool_decide (sessionId (identity candidate) <> sid)
  && match lease candidate with Some l => nltb t (expiresAt l) | None => false end.

Definition arm (sid h : jsstr) : ST guard Lease :=
  state ← owned sid h;
  authorize (identity state) PArm;;
  state ← owned sid h;
  t ← now;
  g ← get;
  throw_when (existsb (busy state sid t) (mvalues (handles g))) (Error "writer_busy");;
  let expires := nadd t (of_Z (leaseMs state)) in
  throw_when (nltb (of_Z MAX_SAFE_INTEGER) expires) (Error "invalid_clock");;
  modify (fun g => set_handles (mmap (fun _ c =>
    if decide (topic (identity c) = topic (identity state)) then with_lease None c else c) (handles g)) g);;
  lid ← id;
  let l := {| lease_id := lid; expiresAt := expires |} in
  modify (fun g => set_handles (mset h (with_lease (Some l) state) (handles g)) g);;
  mret l.

Definition prepare (request : CommandRequest) : ST guard nat :=
  s ← lift (sequence (rq_seq request));
  state ← validate request PReceive;
  throw_when (s <=? received state) (Error "stale_sequence");;
  modify (fun g => set_handles (mset (rq_handle request) (with_received s state) (handles g)) g);;
  g ← get;
  modify (fun g => set_tickets (tickets g ++ [{| saved := request; seq := s; consumed := false |}]) g);;
  mret (length (tickets g)).

(** [ticket.publish(callback)] after the ticket is spent, up to the callback. *)
Definition redeem (t : CommandTicket) (callable : bool) : ST guard (CommandRequest * Z) :=
  throw_when (negb callable) (Error "invalid_callback");;
  current ← validate (saved t) PPublish;
  throw_when (seq t <=? published current) (Error "stale_sequence");;
  modify (fun g => set_handles (mset (rq_handle (saved t)) (with_published (seq t) current) (handles g)) g);;
  mret (saved t, seq t).

Definition spend (t : CommandTicket) : CommandTicket :=
  {| saved := saved t; seq := seq t; consumed := true |}.
(** [ticket.publish(callback)] up to the callback: what it publishes. *)
Definition reserve (ticket : nat) (callable : bool) : ST guard (CommandRequest * Z) :=
  g ← get;
  match tickets g !! ticket with
  | None => mthrow (Error "ticket_consumed")
  | Some t =>
      throw_when (consumed t) (Error "ticket_consumed");;
      modify (fun g => set_tickets (<[ticket := spend t]> (tickets g)) g);;
      redeem t callable
  end.
(** The whole operation; [None] is a value that is not a function. *)
Definition publish (ticket : nat) (callback : option (ST guard unit)) : ST guard unit :=
  reserve ticket (bool_decide (is_Some callback));;
  match callback with Some publish => publish | None => mret tt end.

Definition closeHandle (sid h : jsstr) : ST guard unit :=
  owned sid h;;
  modify (fun g => set_handles (mdelete h (handles g)) g).

Definition revokeSession (sid : jsstr) : ST guard unit :=
  modify (fun g => set_sessions (mdelete sid (sessions g)) g);;
  modify (fun g => set_handles (filter (fun e => sessionId (identity e.2) <> sid) (handles g)) g).

Definition close : ST guard unit :=
  modify (set_closed true);;
  modify (set_sessions []);;
  modify (set_handles []).

Definition stats (g : guard) : Z * Z := (msize (sessions g), msize (handles g)).

End hook.

(** ** Well-formed guards *)

Definition issued (g : guard) (s : jsstr) : Prop :=
  exists n, 1 <= n <= nextId g /\ s = tagged (prefix g) n.

(** What holds of every registered handle. *)
Record handle_wf (g : guard) (h : jsstr) (s : HandleState) : Prop := {
  hw_issued : issued g h;
  hw_handle : handle (identity s) = h;
  hw_session : mget (sessionId (identity s)) (sessions g) = Some (epoch (identity s));
  hw_seq : -1 <= received s <= MAX_UINT64 /\ -1 <= published s <= MAX_UINT64;
  hw_ms : 0 < leaseMs s <= MAX_SAFE_INTEGER;
  hw_lease : forall l, lease s = Some l -> issued g (lease_id l) /\ nan_free (expiresAt l) }.

Record wf (g : guard) : Prop := {
  wf_limits : 0 < maxSessions g <= MAX_SAFE_INTEGER /\ 0 < maxHandles g <= MAX_SAFE_INTEGER
              /\ 0 < defaultLeaseMs g <= MAX_SAFE_INTEGER;
  wf_nextId : 0 <= nextId g;
  wf_time : is_finite (lastTime g) = true;
  wf_sessions : NoDup (mkeys (sessions g)) /\ msize (sessions g) <= maxSessions g;
  wf_session_ids : forall sid e, mget sid (sessions g) = Some e -> issued g sid;
  wf_handles : NoDup (mkeys (handles g)) /\ msize (handles g) <= maxHandles g;
  wf_handle : forall h s, mget h (handles g) = Some s -> handle_wf g h s;
  (** One lease per ROS topic, whatever alias or session it was armed through. *)
  wf_exclusive : forall h1 h2 s1 s2, mget h1 (handles g) = Some s1 -> mget h2 (handles g) = Some s2 ->
    is_Some (lease s1) -> is_Some (lease s2) -> topic (identity s1) = topic (identity s2) -> h1 = h2;
  wf_closed : closed g = true -> sessions g = [] /\ handles g = [];
  wf_tickets : forall i t, tickets g !! i = Some t -> 0 <= seq t <= MAX_UINT64 }.

(** How a guard may change over time: identifiers are never reissued, time and
    sequence numbers never go back, a spent ticket stays spent. *)
Record evolves (g g' : guard) : Prop := {
  ev_prefix : prefix g' = prefix g;
  ev_nextId : nextId g <= nextId g';
  ev_time : nleb (lastTime g) (lastTime g') = true;
  ev_closed : closed g = true -> closed g' = true;
  ev_sessions : forall sid e, mget sid (sessions g') = Some e -> issued g sid ->
    mget sid (sessions g) = Some e;
  ev_handles : forall h s', mget h (handles g') = Some s' -> issued g h ->
    exists s, mget h (handles g) = Some s /\ identity s' = identity s /\
      received s <= received s' /\ published s <= published s' /\
      (forall l, lease s' = Some l -> issued g (lease_id l) -> lease s = Some l);
  ev_tickets : forall i t, tickets g !! i = Some t -> exists t', tickets g' !! i = Some t' /\
    saved t' = saved t /\ seq t' = seq t /\ (consumed t = true -> consumed t' = true) }.

Lemma issued_evolves g g' s : evolves g g' -> issued g s -> issued g' s.
Proof. intros [Hp Hn _ _ _ _] (n & Hle & ->). exists n. rewrite Hp. split; [lia | done]. Qed.

Lemma evolves_refl g : wf g -> evolves g g.
Proof.
  intros Hw. split; try done.
  - apply nleb_refl, is_finite_nan_free, Hw.
  - intros h s' Hs' _. exists s'. split_and!; try done; lia.
  - intros i t Ht. by exists t.
Qed.

Lemma evolves_trans g1 g2 g3 : evolves g1 g2 -> evolves g2 g3 -> evolves g1 g3.
Proof.
  intros E12 E23. pose proof E12 as [Hp Hn Ht Hc Hs Hh Hk].
  pose proof E23 as [Hp' Hn' Ht' Hc' Hs' Hh' Hk'].
  split; [congruence | lia | by eapply nleb_trans | auto | | |].
  - intros sid e He Hi. apply Hs; [|done]. apply Hs'; [done|]. by eapply issued_evolves.
  - intros h s3 H3 Hi. destruct (Hh' h s3 H3) as (s2&H2&Hi2&?&?&Hl2); [by eapply issued_evolves|].
    destruct (Hh h s2 H2 Hi) as (s1&H1&Hi1&?&?&Hl1).
    exists s1. split_and!; [done | congruence | lia | lia |].
    intros l Hl Hli. apply Hl1; [|done]. apply Hl2; [done|]. by eapply issued_evolves.
  - intros i t Hi. destruct (Hk i t Hi) as (t2&Ht2&?&?&?).
    destruct (Hk' i t2 Ht2) as (t3&Ht3&?&?&?). exists t3. split_and!; [done|congruence|congruence|auto].
Qed.

(** What a method does from state [g], inside an operation that began in [g0]:
    the guard is well formed and has evolved from [g0] when it returns or
    throws, and [Q] holds when it returns.  Between [modify] steps nothing is
    asked. *)
Definition wp {A} (g0 : guard) (m : ST guard A) (Q : A -> guard -> Prop) (g : guard) : Prop :=
  wf (m g).2 /\ evolves g0 (m g).2 /\ forall a, (m g).1 = Ok a -> Q a (m g).2.

(** A method that is safe to run from every well-formed guard. *)
Definition sound {A} (m : ST guard A) : Prop := forall g, wf g -> wp g m (fun _ _ => True) g.

Section wp.
Context {A B : Type} (g0 g : guard).
Implicit Types (Q : A -> guard -> Prop) (R : B -> guard -> Prop).

Lemma wp_ret (a : A) Q : wf g -> evolves g0 g -> Q a g -> wp g0 (mret a) Q g.
Proof. intros ???. split_and!; [done | done | by intros ? [= <-]]. Qed.
Lemma wp_throw (e : js_error) Q : wf g -> evolves g0 g -> wp g0 (mthrow e) Q g.
Proof. intros ??. by split_and!. Qed.
Lemma wp_get_bind (f : guard -> ST guard B) R : wp g0 (f g) R g -> wp g0 (get ≫= f) R g.
Proof. done. Qed.
Lemma wp_modify_bind u (f : unit -> ST guard B) R :
  wp g0 (f tt) R (u g) -> wp g0 (modify u ≫= f) R g.
Proof. done. Qed.
Lemma wp_modify u (Q : unit -> guard -> Prop) :
  wf (u g) -> evolves g0 (u g) -> Q tt (u g) -> wp g0 (modify u) Q g.
Proof. intros ???. split_and!; [done | done | by intros ? [= <-]]. Qed.
Lemma wp_throw_when_bind b e (f : unit -> ST guard B) R :
  wf g -> evolves g0 g -> (b = false -> wp g0 (f tt) R g) -> wp g0 (throw_when b e ≫= f) R g.
Proof. intros ?? Hf. destruct b; [by split_and! | by apply Hf]. Qed.
Lemma wp_throw_when b e (Q : unit -> guard -> Prop) :
  wf g -> evolves g0 g -> (b = false -> Q tt g) -> wp g0 (throw_when b e) Q g.
Proof. intros ?? Hf. destruct b; [by split_and! | split_and!; [done | done | by intros [] _; apply Hf]]. Qed.
Lemma wp_lift_bind (r : result A) (f : A -> ST guard B) R :
  wf g -> evolves g0 g -> (forall a, r = Ok a -> wp g0 (f a) R g) -> wp g0 (lift r ≫= f) R g.
Proof. intros ?? Hf. destruct r; [by apply Hf | by split_and!]. Qed.
(** A call of a method specified from its own start. *)
Lemma wp_call (m : ST guard A) (f : A -> ST guard B) Q R :
  evolves g0 g -> wp g m Q g ->
  (forall a g', Q a g' -> wf g' -> evolves g g' -> evolves g0 g' -> wp g0 (f a) R g') ->
  wp g0 (m ≫= f) R g.
Proof.
  intros He (Hw'&He'&HQ) Hf. pose proof (evolves_trans _ _ _ He He') as He0.
  unfold wp. rewrite ST_bind_eq.
  destruct (m g) as [[a|e] g'] eqn:Hm; simpl in *; [by apply Hf; auto | by split_and!].
Qed.
Lemma wp_conseq (m : ST guard A) Q Q' :
  wp g0 m Q g -> (forall a g', Q a g' -> Q' a g') -> wp g0 m Q' g.
Proof. intros (?&?&?) HQ. split_and!; auto. Qed.
End wp.

(** ** State changes that keep the invariant *)

Lemma wf_set_lastTime t g :
  wf g -> is_finite t = true -> nleb (lastTime g) t = true ->
  wf (set_lastTime t g) /\ evolves g (set_lastTime t g).
Proof.
  intros Hw Hf Hle. split.
  - destruct Hw. split; try done. intros h s Hs. destruct (wf_handle0 h s Hs). by split.
  - split; try done; [intros h s' Hs' _; exists s'; split_and!; try done; lia | intros i t' Ht'; by exists t'].
Qed.

Lemma fresh_not_issued g : ~ issued g (tagged (prefix g) (nextId g + 1)).
Proof. intros (n & Hn & Heq%tagged_inj). lia. Qed.

Lemma wf_new_id g :
  wf g -> wf (set_nextId (nextId g + 1) g) /\ evolves g (set_nextId (nextId g + 1) g).
Proof.
  intros Hw. assert (He : evolves g (set_nextId (nextId g + 1) g)).
  { destruct (evolves_refl g Hw). split; try done. simpl. lia. }
  split; [|done]. pose proof (fun s => issued_evolves _ _ s He) as Hi.
  destruct Hw. split; try done.
  - simpl; lia.
  - intros sid e Hs. eapply Hi, wf_session_ids0, Hs.
  - intros h s Hs. destruct (wf_handle0 h s Hs). split; try done; [auto|].
    intros l Hl. destruct (hw_lease0 l Hl). auto.
Qed.

(** Adding a session under an identifier that was not issued at [g0]. *)
Lemma wf_add_session g0 g sid e :
  wf g -> evolves g0 g -> closed g = false -> issued g sid -> ~ issued g0 sid ->
  mget sid (sessions g) = None -> msize (sessions g) < maxSessions g ->
  wf (set_sessions (mset sid e (sessions g)) g) /\
  evolves g0 (set_sessions (mset sid e (sessions g)) g).
Proof.
  intros [] He Hc Hi Hni Hn Hlt. split; [split; try done; simpl | destruct He; split; try done; simpl].
  - split; [by apply NoDup_mset, wf_sessions0 | rewrite msize_mset_new by done; lia].
  - intros sid' e'. rewrite mget_mset. case_decide as Hd; [by subst | by apply wf_session_ids0].
  - intros h s Hs. destruct (wf_handle0 h s Hs). split; try done. simpl.
    rewrite mget_mset_ne; [done|]. intros Heq. congruence.
  - congruence.
  - intros sid' e'. rewrite mget_mset. case_decide; [by subst | auto].
Qed.

Lemma wf_add_handle g0 g h s :
  wf g -> evolves g0 g -> handle_wf g h s -> ~ issued g0 h -> lease s = None ->
  mget h (handles g) = None -> msize (handles g) < maxHandles g ->
  wf (set_handles (mset h s (handles g)) g) /\
  evolves g0 (set_handles (mset h s (handles g)) g).
Proof.
  intros Hw He Hs Hni Hl Hn Hlt. pose proof Hw as [].
  split; [split; try done; simpl | destruct He; split; try done; simpl].
  - split; [by apply NoDup_mset, wf_handles0 | rewrite msize_mset_new by done; lia].
  - intros h' s'. rewrite mget_mset. case_decide as Hd; [intros [= <-]; subst h' | intros H].
    + by destruct Hs.
    + by destruct (wf_handle0 h' s' H).
  - intros h1 h2 s1 s2. rewrite !mget_mset.
    case_decide; case_decide; try congruence; intros ? ? [? ?] [? ?]; simplify_eq.
    by eapply wf_exclusive0.
  - intros Hc. apply wf_closed0 in Hc as [Hs0 _]. exfalso.
    pose proof (hw_session _ _ _ Hs) as Hses. by rewrite Hs0 in Hses.
  - intros h' s'. rewrite mget_mset. case_decide; [by subst | auto].
Qed.

(** Replacing the handle table by one that refines it, entry by entry. *)
Lemma wf_refine_handles g m' :
  wf g -> NoDup (mkeys m') -> msize m' <= msize (handles g) ->
  (closed g = true -> m' = []) ->
  (forall h s', mget h m' = Some s' -> exists s, mget h (handles g) = Some s /\
     identity s' = identity s /\ leaseMs s' = leaseMs s /\
     received s <= received s' <= MAX_UINT64 /\ published s <= published s' <= MAX_UINT64 /\
     (lease s' = None \/ lease s' = lease s)) ->
  wf (set_handles m' g) /\ evolves g (set_handles m' g).
Proof.
  intros Hw Hnd Hsz Hcl Hm. pose proof Hw as []. split; split; try done; simpl.
  - split; [done | lia].
  - intros h s' Hs'. destruct (Hm h s' Hs') as (s&Hs&Hi&Hl&?&?&Hle).
    destruct (wf_handle0 h s Hs). split; simpl; rewrite ?Hi, ?Hl; try done; [lia|].
    intros l Hl'. destruct Hle as [Hle|Hle]; [congruence|]. apply hw_lease0. congruence.
  - intros h1 h2 s1 s2 H1 H2 [l1 L1] [l2 L2] Ht.
    destruct (Hm h1 s1 H1) as (t1&?&Hi1&_&_&_&[?|?]); [congruence|].
    destruct (Hm h2 s2 H2) as (t2&?&Hi2&_&_&_&[?|?]); [congruence|].
    eapply wf_exclusive0; try done; [exists l1; congruence | exists l2; congruence | congruence].
  - intros Hc. split; [by apply wf_closed0 | auto].
  - apply nleb_refl, is_finite_nan_free, Hw.
  - intros h s' Hs' _. destruct (Hm h s' Hs') as (s&Hs&Hi&Hl&?&?&Hle).
    exists s. split_and!; try done; try lia. intros l Hl' _. destruct Hle; congruence.
  - intros i t Ht. by exists t.
Qed.

(** Replacing one handle's state. *)
Lemma wf_update_handle g h s s' :
  wf g -> mget h (handles g) = Some s ->
  identity s' = identity s -> leaseMs s' = leaseMs s -> lease s' = lease s ->
  received s <= received s' <= MAX_UINT64 -> published s <= published s' <= MAX_UINT64 ->
  wf (set_handles (mset h s' (handles g)) g) /\ evolves g (set_handles (mset h s' (handles g)) g).
Proof.
  intros Hw Hs Hi Hl Hle Hr Hp. apply wf_refine_handles; [done| | | |].
  - apply NoDup_mset, Hw.
  - rewrite msize_mset_old by (by eexists). done.
  - intros Hc. apply Hw in Hc as [_ Hc]. by rewrite Hc in Hs.
  - intros h0 s0. rewrite mget_mset. case_decide; [intros [= <-]; subst; exists s; auto 10|].
    intros H0. exists s0. destruct (wf_handle g Hw h0 s0 H0). split_and!; try done; (lia || by right).
Qed.

(** Arming: the topic's earlier leases are cleared, then one handle gets a new one. *)
Definition clear_topic (t : jsstr) (m : jsmap jsstr HandleState) : jsmap jsstr HandleState :=
  mmap (fun _ c => if decide (topic (identity c) = t) then with_lease None c else c) m.

Lemma wf_clear_topic t g :
  wf g -> wf (set_handles (clear_topic t (handles g)) g) /\
          evolves g (set_handles (clear_topic t (handles g)) g).
Proof.
  intros Hw. apply wf_refine_handles; [done| | | |].
  - unfold clear_topic. rewrite mkeys_mmap. apply Hw.
  - unfold clear_topic. by rewrite msize_mmap.
  - intros Hc. apply Hw in Hc as [_ Hc]. by rewrite Hc.
  - intros h s'. unfold clear_topic. rewrite mget_mmap.
    destruct (mget h (handles g)) as [s|] eqn:Hs; [|done]. intros [= <-]. exists s.
    destruct (wf_handle g Hw h s Hs). case_decide; simpl; split_and!; try done; (lia || auto).
Qed.

Lemma wf_grant g0 g h s l :
  wf g -> evolves g0 g -> mget h (handles g) = Some s ->
  (forall h' s', mget h' (handles g) = Some s' -> topic (identity s') = topic (identity s) ->
     lease s' = None) ->
  issued g (lease_id l) -> ~ issued g0 (lease_id l) -> nan_free (expiresAt l) ->
  wf (set_handles (mset h (with_lease (Some l) s) (handles g)) g) /\
  evolves g0 (set_handles (mset h (with_lease (Some l) s) (handles g)) g).
Proof.
  intros Hw He Hs Hnone Hi Hni Hnan. pose proof Hw as [].
  split; [split; try done; simpl | destruct He; split; try done; simpl].
  - split; [by apply NoDup_mset, wf_handles0 | rewrite msize_mset_old by (by eexists); apply wf_handles0].
  - intros h' s'. rewrite mget_mset. case_decide as Hd; [intros [= <-]; subst h' | intros H].
    + destruct (wf_handle0 h s Hs). split; simpl; try done. by intros ? [= <-].
    + by destruct (wf_handle0 h' s' H).
  - intros h1 h2 s1 s2. rewrite !mget_mset.
    case_decide; case_decide; subst; try congruence.
    + intros [= <-] H2 _ [l2 L2] Ht. simpl in Ht. rewrite (Hnone h2 s2) in L2 by done. done.
    + intros H1 [= <-] [l1 L1] _ Ht. simpl in Ht. rewrite (Hnone h1 s1) in L1 by done. done.
    + by apply wf_exclusive0.
  - intros Hc. apply wf_closed0 in Hc as [_ Hc]. by rewrite Hc in Hs.
  - intros h' s'. rewrite mget_mset. case_decide as Hd; [intros [= <-]; subst h' | auto].
    intros Hih. destruct (ev_handles0 h s Hs Hih) as (s0&?&?&?&?&?).
    exists s0. split_and!; try done. simpl. intros l' [= <-] Hil. done.
Qed.

End Guard.
