(* ===== verification/CommandGuardProps.v ===== *)
(** * Properties of the command guard

    Every public operation keeps the guard well formed whatever the clock reads
    and whatever a sound authorization hook does to the guard meanwhile; from
    this, exclusive writers, lease expiry, single-use tickets and the absence of
    replays over every run. *)

From S2P Require Import Prelude JsNumber JsString JsMap Values SessionValidation CommandGuard.
Import Guard.

#[local] Hint Resolve evolves_refl : core.

(** ** Helpers that do not call the hook *)

Lemma wp_now g :
  wf g -> wp g now (fun t g' => g' = set_lastTime t g /\ t = clock g /\ is_finite t = true) g.
Proof.
  intros Hw. unfold now. apply wp_get_bind, wp_throw_when_bind; [auto..|]. intros Hb. bools.
  assert (Hle : nleb (lastTime g) (clock g) = true).
  { apply nltb_false; [| |done]; apply is_finite_nan_free; [done | apply Hw]. }
  destruct (wf_set_lastTime (clock g) g) as [Hw' He']; [done..|].
  apply wp_modify_bind, wp_ret; auto.
Qed.

Lemma wp_assertOpen g : wf g -> wp g assertOpen (fun _ g' => g' = g /\ closed g = false) g.
Proof. intros Hw. apply (wp_get_bind (B := unit)), wp_throw_when; auto. Qed.

Lemma wp_owned sid h g :
  wf g -> wp g (owned sid h) (fun s g' => g' = g /\ closed g = false /\
    mget h (handles g) = Some s /\ sessionId (identity s) = sid) g.
Proof.
  intros Hw. unfold owned.
  eapply wp_call; [auto | by apply wp_assertOpen | intros _ ? [-> Hc] _ _ _].
  apply wp_get_bind. destruct (mget h (handles g)) as [s|] eqn:Hs; [|by apply wp_throw; auto].
  apply wp_throw_when_bind; [auto..|]. intros Hb. bools. apply wp_ret; auto.
  split_and!; try done. by apply dec_stable.
Qed.

(** Drawing an identifier that has never been issued. *)
Lemma wp_id g :
  wf g -> wp g Guard.id (fun s g' => g' = set_nextId (nextId g + 1) g /\ issued g' s /\ ~ issued g s) g.
Proof.
  intros Hw. unfold Guard.id. destruct (wf_new_id g Hw) as [Hw' He'].
  apply wp_modify_bind. split_and!; [done | done | intros ? [= <-]]. split_and!; [done | |].
  - exists (nextId g + 1). pose proof (wf_nextId g Hw). split; [simpl; lia | done].
  - apply fresh_not_issued.
Qed.

Lemma wp_openSession ep g : wf g -> wp g (openSession ep) (fun sid g' => issued g' sid) g.
Proof.
  intros Hw. unfold openSession.
  eapply wp_call; [auto | by apply wp_assertOpen | intros _ ? [-> Hc] _ _ _].
  apply wp_lift_bind; [auto..|]. intros _ _. apply wp_get_bind.
  apply wp_throw_when_bind; [auto..|]. intros Hlt. bools.
  eapply wp_call; [auto | by apply wp_id | intros sid ? (-> & Hi & Hn) Hw' _ He'].
  set (g' := set_nextId _ _) in *.
  assert (Hnone : mget sid (sessions g') = None).
  { destruct (mget sid (sessions g')) eqn:Hs; [|done]. exfalso. by eapply Hn, (wf_session_ids g). }
  edestruct (wf_add_session g g' sid) as [Hw2 He2]; [done..|].
  by apply wp_modify_bind, wp_ret.
Qed.
Lemma sound_openSession ep : sound (openSession ep).
Proof. intros g Hw. eapply wp_conseq; [by apply wp_openSession | done]. Qed.

Lemma sound_closeHandle sid h : sound (closeHandle sid h).
Proof.
  intros g Hw. unfold closeHandle.
  eapply wp_call; [auto | by apply wp_owned | intros s ? (-> & Hc & Hs & _) _ _ _].
  destruct (wf_refine_handles g (mdelete h (handles g))) as [Hw2 He2]; auto with bridge.
  - apply NoDup_mdelete, Hw.
  - apply msize_mdelete.
  - congruence.
  - intros h' s'. rewrite mget_mdelete. case_decide; [done|]. intros Hs'. exists s'.
    destruct (wf_handle g Hw h' s' Hs'). split_and!; try done; (lia || by right).
  - by apply wp_modify.
Qed.

(** Dropping a session together with the handles it owns. *)
Lemma sound_revokeSession sid : sound (revokeSession sid).
Proof.
  intros g Hw. unfold revokeSession. apply wp_modify_bind, wp_modify; [| |done]; pose proof Hw as [].
  - split; try done; simpl.
    + destruct wf_sessions0 as [? Hsz]. split; [by apply NoDup_mdelete |].
      etransitivity; [apply msize_mdelete | exact Hsz].
    + intros s e. rewrite mget_mdelete. case_decide; [done | apply wf_session_ids0].
    + destruct wf_handles0 as [? Hsz]. split; [by apply NoDup_filter_keys |].
      etransitivity; [apply msize_filter | exact Hsz].
    + intros h s. rewrite mget_filter by apply wf_handles0.
      destruct (mget h (handles g)) as [s'|] eqn:Hs; [|done].
      case_decide as Hd; [|done]. simpl in Hd. intros [= <-].
      destruct (wf_handle0 h s' Hs). split; try done. simpl. by rewrite mget_mdelete_ne.
    + intros h1 h2 s1 s2. rewrite !mget_filter by apply wf_handles0.
      destruct (mget h1 _) eqn:H1, (mget h2 _) eqn:H2; try done. repeat case_decide; try done.
      intros [= ->] [= ->]. by apply wf_exclusive0.
    + intros Hc. apply wf_closed0 in Hc as [-> ->]. done.
  - split; try done; simpl.
    + by apply nleb_refl, is_finite_nan_free.
    + intros s e. rewrite mget_mdelete. by case_decide.
    + intros h s. rewrite mget_filter by apply wf_handles0.
      destruct (mget h (handles g)) as [s'|] eqn:Hs; [|done].
      case_decide; [|done]. intros [= <-] _. exists s'. split_and!; try done; lia.
    + intros i t Ht. by exists t.
Qed.

Lemma sound_close : sound close.
Proof.
  intros g Hw. unfold close. do 2 apply wp_modify_bind. apply wp_modify; [| |done]; pose proof Hw as [].
  - split; try done; simpl; split; try done; try apply NoDup_nil_2; unfold msize, zlength; simpl; lia.
  - split; try done; simpl; [by apply nleb_refl, is_finite_nan_free | intros i t Ht; by exists t].
Qed.

(** ** Operations that call the hook *)

Class SoundHook (hook : CommandIdentity -> phase -> ST guard bool) : Prop :=
  hook_sound : forall i p, sound (hook i p).

(** A hook that only looks at the identity. *)
#[export] Instance pure_hook f : SoundHook (fun i p => mret (f i p)).
Proof. intros i p g Hw. by apply wp_ret; auto. Qed.

Section hook.
Context (hook : CommandIdentity -> phase -> ST guard bool) `{!SoundHook hook}.

Lemma wp_authorize i p g : wf g -> wp g (authorize hook i p) (fun _ _ => True) g.
Proof.
  intros Hw. unfold authorize.
  eapply wp_call; [auto | by apply hook_sound | intros b g' _ Hw' _ He']. by apply wp_throw_when.
Qed.

(** What a validated request has proved about the handle it names. *)
Definition authorized (rq : CommandRequest) (s : HandleState) (g : guard) : Prop :=
  closed g = false /\ mget (rq_handle rq) (handles g) = Some s /\
  sessionId (identity s) = rq_sessionId rq /\ epoch (identity s) = rq_epoch rq /\
  is_finite (clock g) = true /\ lastTime g = clock g /\
  exists l, lease s = Some l /\ lease_id l = rq_leaseId rq /\ nltb (clock g) (expiresAt l) = true.

Lemma wp_validate rq p g : wf g -> wp g (validate hook rq p) (authorized rq) g.
Proof.
  intros Hw. unfold validate.
  eapply wp_call; [auto | by apply wp_owned | intros s0 ? (-> & _) _ _ _].
  eapply wp_call; [auto | by apply wp_authorize | intros _ g1 _ Hw1 _ He1].
  eapply wp_call; [auto | by apply wp_owned | intros s ? (-> & Hc & Hs & Hsid) _ _ _].
  apply wp_throw_when_bind; [auto..|]. intros Hep. bools. apply dec_stable in Hep.
  destruct (lease s) as [l|] eqn:Hl; [|by apply wp_throw].
  apply wp_throw_when_bind; [auto..|]. intros Hli. bools. apply dec_stable in Hli.
  eapply wp_call; [done | by apply wp_now | intros t ? (-> & -> & Hf) Hw2 _ He2].
  apply wp_throw_when_bind; [auto..|]. intros Hlt. apply wp_ret; [auto..|].
  unfold authorized. simpl. split_and!; try done. exists l. split_and!; try done.
  destruct (hw_lease _ _ _ (wf_handle _ Hw1 _ _ Hs) l Hl) as [_ Hnan].
  apply nleb_false; [done | by apply is_finite_nan_free | done].
Qed.

(** Spending a ticket before anything else can fail. *)
Lemma wf_consume g tk t :
  wf g -> tickets g !! tk = Some t ->
  let g1 := set_tickets (<[tk := spend t]> (tickets g)) g in
  wf g1 /\ evolves g g1 /\ tickets g1 !! tk = Some (spend t).
Proof.
  intros Hw Ht.
  assert (Hnew : (<[tk := spend t]> (tickets g)) !! tk
    = Some (spend t)).
  { apply list_lookup_insert_eq, lookup_lt_is_Some. by eexists. }
  split_and!; [| |done].
  - destruct Hw. split; try done; [intros h s Hs; by destruct (wf_handle0 h s Hs)|].
    simpl. intros i t' Hi. destruct (decide (i = tk)) as [->|Hne].
    + rewrite Hnew in Hi. injection Hi as <-. by apply (wf_tickets0 tk t).
    + rewrite list_lookup_insert_ne in Hi by done. by eapply wf_tickets0.
  - destruct (evolves_refl g Hw). split; try done. simpl. intros i t' Ht'.
    destruct (decide (i = tk)) as [->|Hne]; [simplify_eq; by eexists|].
    exists t'. by rewrite list_lookup_insert_ne.
Qed.

Lemma wf_append_ticket g t :
  wf g -> 0 <= seq t <= MAX_UINT64 ->
  wf (set_tickets (tickets g ++ [t]) g) /\ evolves g (set_tickets (tickets g ++ [t]) g).
Proof.
  intros Hw Hr. split.
  - destruct Hw. split; try done; [intros h s Hs; by destruct (wf_handle0 h s Hs)|].
    simpl. intros i t' [Hi|[_ Hi]]%lookup_app_Some; [by eapply wf_tickets0|].
    apply list_lookup_singleton_Some in Hi as [_ <-]. done.
  - destruct (evolves_refl g Hw). split; try done. simpl. intros i t' Ht'.
    exists t'. split; [by apply lookup_app_l_Some | done].
Qed.

(** What is true when a ticket reaches the callback with request and sequence [r]. *)
Definition reserved (tk : nat) (g : guard) (r : CommandRequest * Z) (g' : guard) : Prop :=
  (exists s, authorized r.1 s g' /\ published s = r.2) /\
  (exists t, tickets g !! tk = Some t /\ consumed t = false /\ saved t = r.1 /\ seq t = r.2) /\
  (forall s0, mget (rq_handle r.1) (handles g) = Some s0 -> published s0 < r.2).

Lemma wp_redeem t c g :
  wf g -> 0 <= seq t <= MAX_UINT64 ->
  wp g (redeem hook t c) (fun r g' => r = (saved t, seq t) /\
    (exists s, authorized (saved t) s g' /\ published s = seq t) /\
    (forall s0, mget (rq_handle (saved t)) (handles g) = Some s0 -> published s0 < seq t)) g.
Proof.
  intros Hw Htr. unfold redeem. apply wp_throw_when_bind; [auto..|]. intros _.
  eapply wp_call; [auto | by apply wp_validate | intros s g2 Hauth Hw2 He2 _].
  apply wp_throw_when_bind; [done..|]. intros Hseq. bools. apply wp_modify_bind.
  pose proof Hauth as (Hcl & Hs & Hsid & Hep & Hfin & Htime & l & Hl & Hli & Hlt).
  pose proof (hw_seq _ _ _ (wf_handle _ Hw2 _ _ Hs)) as [Hr Hp].
  edestruct (wf_update_handle g2 (rq_handle (saved t)) s (with_published (seq t) s))
    as [Hw3 He3]; [done | done | done | done | done | simpl; lia | simpl; lia |].
  apply wp_ret; [done | by eapply evolves_trans |]. split_and!; [done| |].
  - exists (with_published (seq t) s). split; [|done]. split_and!; try done; simpl.
    + apply mget_mset_eq.
    + by exists l.
  - simpl. intros s0 Hs0.
    destruct (ev_handles _ _ He2 _ _ Hs) as (s0'&Hs0'&_&_&Hle&_); [by eapply hw_issued, wf_handle|].
    simplify_eq. lia.
Qed.

Lemma wp_reserve tk c g : wf g -> wp g (reserve hook tk c) (reserved tk g) g.
Proof.
  intros Hw. unfold reserve. apply wp_get_bind.
  destruct (tickets g !! tk) as [t|] eqn:Ht; [|by apply wp_throw; auto].
  apply wp_throw_when_bind; [auto..|]. intros Hc. apply wp_modify_bind.
  destruct (wf_consume g tk t Hw Ht) as (Hw1 & He1 & Ht1). cbv zeta in *. set (g1 := set_tickets _ g) in *.
  destruct (wp_redeem t c g1 Hw1 (wf_tickets _ Hw _ _ Ht)) as (Hw2 & He2 & HQ).
  split_and!; [done | by eapply evolves_trans | intros r Hr].
  destruct (HQ r Hr) as (-> & Hs & Hold). split_and!; [done | by exists t | done].
Qed.

(** Whatever the outcome, the ticket ends up spent. *)
Lemma reserve_spends tk c g t :
  wf g -> tickets g !! tk = Some t ->
  exists t', tickets (reserve hook tk c g).2 !! tk = Some t' /\ consumed t' = true.
Proof.
  intros Hw Ht. unfold reserve. rewrite ST_bind_eq. simpl. rewrite Ht. unfold throw_when.
  destruct (consumed t) eqn:Hc; [by exists t|].
  destruct (wf_consume g tk t Hw Ht) as (Hw1 & He1 & Ht1).
  destruct (wp_redeem t c _ Hw1 (wf_tickets _ Hw _ _ Ht)) as (_ & He2 & _).
  destruct (ev_tickets _ _ He2 _ _ Ht1) as (t' & Ht' & _ & _ & Hcc). exists t'. auto.
Qed.

(** The ticket [prepare] returns carries its request and sequence number. *)
Lemma wp_prepare rq g : wf g -> wp g (prepare hook rq) (fun tk g' => exists t,
  tickets g' !! tk = Some t /\ saved t = rq /\ sequence (rq_seq rq) = Ok (seq t)) g.
Proof.
  intros Hw. unfold prepare. apply wp_lift_bind; [auto..|]. intros sq Hsq.
  eapply wp_call; [auto | by apply wp_validate | intros s g2 Hauth Hw2 _ He2].
  apply wp_throw_when_bind; [done..|]. intros Hseq. bools. apply wp_modify_bind, wp_get_bind.
  pose proof (sequence_range _ _ Hsq) as Hsr. destruct Hauth as (_ & Hs & _).
  pose proof (hw_seq _ _ _ (wf_handle _ Hw2 _ _ Hs)) as [Hr Hp].
  edestruct (wf_update_handle g2 (rq_handle rq) s (with_received sq s))
    as [Hw3 He3]; [done | done | done | done | done | simpl; lia | simpl; lia |].
  set (g3 := set_handles _ _) in *.
  destruct (wf_append_ticket g3 {| saved := rq; seq := sq; consumed := false |}) as [Hw4 He4]; [done|done|].
  apply wp_modify_bind, wp_ret; [done | |].
  - eapply evolves_trans, He4. by eapply evolves_trans.
  - eexists. split; [by apply list_lookup_middle | done].
Qed.
Lemma sound_prepare rq : sound (prepare hook rq).
Proof. intros g Hw. eapply wp_conseq; [by apply wp_prepare | done]. Qed.

Lemma wp_openHandle sid tn ms g :
  wf g -> wp g (openHandle hook sid tn ms) (fun h g' => ~ issued g h /\ issued g' h) g.
Proof.
  intros Hw. unfold openHandle.
  eapply wp_call; [auto | by apply wp_assertOpen | intros _ ? [-> Hc] _ _ _].
  apply wp_get_bind.
  eapply (wp_call g g _ _ (fun lm g' => g' = g /\ 0 < lm <= MAX_SAFE_INTEGER));
    [auto | | intros lm ? [-> Hlm] _ _ _].
  { destruct ms as [v|]; [|apply wp_ret; auto; split; [done | apply Hw]].
    split_and!; [done | auto | intros a [= Ha]].
    apply positiveLimit_Ok in Ha as (?&_&_&?). done. }
  apply wp_get_bind. destruct (mget sid (sessions g)) as [ep|] eqn:Hsid; [|by apply wp_throw; auto].
  destruct (valid_topic tn) as [topic|]; [|by apply wp_throw; auto].
  eapply wp_call; [auto | by apply wp_id | intros h ? (-> & Hi & Hn) Hw1 _ He1].
  set (g1 := set_nextId _ _) in *.
  eapply wp_call; [done | by apply wp_authorize | intros _ g2 _ Hw2 He12 He2].
  apply wp_get_bind, wp_throw_when_bind; [done..|]. intros Hhas. bools.
  apply wp_throw_when_bind; [done..|]. intros Hlt. bools.
  assert (Hsid2 : mget sid (sessions g2) = Some ep).
  { unfold mhas in Hhas. bools. destruct Hhas as [ep' Hep']. rewrite Hep'.
    pose proof (ev_sessions _ _ He2 _ _ Hep' (wf_session_ids _ Hw _ _ Hsid)). congruence. }
  assert (Hnone : mget h (handles g2) = None).
  { destruct (mget h (handles g2)) as [s|] eqn:Hs; [|done]. exfalso.
    destruct (ev_handles _ _ He12 _ _ Hs Hi) as (s0&Hs0&_). apply Hn. by eapply hw_issued, (wf_handle g). }
  pose proof (issued_evolves _ _ _ He12 Hi) as Hi2.
  destruct (wf_add_handle g g2 h {| identity := {| sessionId := sid; epoch := ep; handle := h;
    topic := topic |}; leaseMs := lm; lease := None; received := -1; published := -1 |})
    as [Hw3 He3]; try done.
  by apply wp_modify_bind, wp_ret.
Qed.

Lemma sound_openHandle sid tn ms : sound (openHandle hook sid tn ms).
Proof. intros g Hw. eapply wp_conseq; [by apply wp_openHandle | done]. Qed.

Lemma clear_topic_none t m h s :
  mget h (clear_topic t m) = Some s -> topic (identity s) = t -> lease s = None.
Proof.
  unfold clear_topic. rewrite mget_mmap. destruct (mget h m) as [s'|]; [|done].
  intros [= <-]. by case_decide.
Qed.

Lemma sound_arm sid h : sound (arm hook sid h).
Proof.
  intros g Hw. unfold arm.
  eapply wp_call; [auto | by apply wp_owned | intros s0 ? (-> & _) _ _ _].
  eapply wp_call; [auto | by apply wp_authorize | intros _ g1 _ Hw1 _ He1].
  eapply wp_call; [auto | by apply wp_owned | intros s ? (-> & Hc & Hs & Hsid) _ _ _].
  eapply wp_call; [done | by apply wp_now | intros t ? (-> & -> & Hf) Hw2 _ He2].
  apply wp_get_bind. set (g2 := set_lastTime _ _) in *.
  apply wp_throw_when_bind; [done..|]. intros _.
  apply wp_throw_when_bind; [done..|]. intros _.
  apply wp_modify_bind. destruct (wf_clear_topic (topic (identity s)) g2 Hw2) as [Hw3 He3].
  set (g3 := set_handles _ g2).
  assert (He3' : evolves g g3) by (by eapply evolves_trans).
  eapply (wp_call g g3); [done | by apply wp_id | intros lid ? (-> & Hi & Hn) Hw4 _ He4].
  set (g4 := set_nextId _ _) in *.
  set (l := {| lease_id := lid; expiresAt := nadd (clock g1) (of_Z (leaseMs s)) |}).
  assert (Hnan : nan_free (expiresAt l)).
  { apply nadd_nan_free; [done|]. apply of_Z_finite.
    pose proof (hw_ms _ _ _ (wf_handle _ Hw1 _ _ Hs)). unfold MAX_SAFE_INTEGER in *. lia. }
  assert (Hs4 : mget h (handles g4) = Some (with_lease None s)).
  { change (handles g4) with (clear_topic (topic (identity s)) (handles g1)).
    unfold clear_topic. rewrite mget_mmap, Hs. simpl. by rewrite decide_True. }
  assert (Hni : ~ issued g lid) by (intros Hig; apply Hn; by eapply issued_evolves).
  destruct (wf_grant g g4 h (with_lease None s) l Hw4 He4 Hs4) as [Hw5 He5]; [| done | done | done |].
  - intros h' s' Hs' Ht. exact (clear_topic_none _ (handles g1) h' s' Hs' Ht).
  - by apply wp_modify_bind, wp_ret.
Qed.

End hook.
