(* ===== verification/CommandGuardRuns.v ===== *)
(** * Runs of the command guard

    Sequences of public operations and clock readings, with the log of the
    commands that reached the ROS callback.  The callback of [publish] runs
    after [reserve]; what it does to the guard is the operations that follow. *)

From S2P Require Import Prelude JsNumber JsString JsMap Values SessionValidation CommandGuard CommandGuardProps.
Import Guard.

#[local] Hint Resolve evolves_refl : core.

Inductive op :=
| OpenSession (ep : jsval)
| OpenHandle (sid : jsstr) (tn : jsval) (ms : option jsval)
| Arm (sid h : jsstr)
| Prepare (rq : CommandRequest)
| Publish (ticket : nat) (callable : bool)
| CloseHandle (sid h : jsstr)
| RevokeSession (sid : jsstr)
| Close
| Clock (reading : number).

Section runs.
Context (hook : CommandIdentity -> phase -> ST guard bool) `{!SoundHook hook}.

(** One operation: the commands it publishes and the state it leaves. *)
Definition exec (o : op) (g : guard) : list (jsstr * Z) * guard :=
  match o with
  | OpenSession ep => ([], (openSession ep g).2)
  | OpenHandle sid tn ms => ([], (openHandle hook sid tn ms g).2)
  | Arm sid h => ([], (arm hook sid h g).2)
  | Prepare rq => ([], (prepare hook rq g).2)
  | Publish tk c =>
      match reserve hook tk c g with
      | (Ok (rq, sq), g') => ([(rq_handle rq, sq)], g')
      | (Throw _, g') => ([], g')
      end
  | CloseHandle sid h => ([], (closeHandle sid h g).2)
  | RevokeSession sid => ([], (revokeSession sid g).2)
  | Close => ([], (close g).2)
  | Clock t => ([], set_clock t g)
  end.

Fixpoint run (ops : list op) (g : guard) : list (jsstr * Z) * guard :=
  match ops with
  | [] => ([], g)
  | o :: ops => let '(l1, g1) := exec o g in let '(l2, g2) := run ops g1 in (l1 ++ l2, g2)
  end.

Lemma exec_sound o g : wf g -> wf (exec o g).2 /\ evolves g (exec o g).2.
Proof.
  intros Hw. destruct o; simpl.
  - by destruct (sound_openSession ep g Hw) as (?&?&_).
  - by destruct (sound_openHandle hook sid tn ms g Hw) as (?&?&_).
  - by destruct (sound_arm hook sid h g Hw) as (?&?&_).
  - by destruct (sound_prepare hook rq g Hw) as (?&?&_).
  - destruct (wp_reserve hook ticket callable g Hw) as (?&?&_).
    by destruct (reserve _ _ _ _) as [[[]|] ?].
  - by destruct (sound_closeHandle sid h g Hw) as (?&?&_).
  - by destruct (sound_revokeSession sid g Hw) as (?&?&_).
  - by destruct (sound_close g Hw) as (?&?&_).
  - split; [destruct Hw; split; try done; intros h s Hs; by destruct (wf_handle0 h s Hs)
           | by destruct (evolves_refl g Hw)].
Qed.

Lemma run_sound ops g : wf g -> wf (run ops g).2 /\ evolves g (run ops g).2.
Proof.
  revert g. induction ops as [|o ops IH]; intros g Hw; simpl; [auto|].
  destruct (exec_sound o g Hw) as [Hw1 He1]. destruct (exec o g) as [l1 g1]; simpl in *.
  destruct (IH g1 Hw1) as [Hw2 He2]. destruct (run ops g1) as [l2 g2]; simpl in *.
  split; [done | by eapply evolves_trans].
Qed.

Lemma guard_constructor_wf uuid opts reading g : constructor uuid opts reading = Ok g -> wf g.
Proof.
  unfold constructor. intros H. inv_res.
  apply positiveLimit_Ok in Hx as (_&_&_&?), Hx0 as (_&_&_&?), Hx1 as (_&_&_&?).
  set (g0 := {| maxSessions := x; maxHandles := x0; defaultLeaseMs := x1; prefix := uuid;
    nextId := 0; lastTime := S754_zero false; sessions := []; handles := []; closed := false;
    tickets := []; clock := reading |}) in *.
  assert (Hw0 : wf g0).
  { split; try done; simpl; try lia; split; try apply NoDup_nil_2; unfold msize, zlength; simpl; lia. }
  destruct (wp_now g0 Hw0) as (Hw & _ & _). destruct (now g0) as [[] g']; [|done].
  by injection H as <-.
Qed.

(** A command published by one operation: what [reserve] established. *)
Lemma exec_log o g h a :
  wf g -> (h, a) ∈ (exec o g).1 ->
  exists tk rq, reserved tk g (rq, a) (exec o g).2 /\ rq_handle rq = h.
Proof.
  intros Hw. destruct o; simpl; try by intros ?%elem_of_nil.
  destruct (wp_reserve hook ticket callable g Hw) as (_&_&HQ).
  destruct (reserve hook ticket callable g) as [[[rq sq]|e] g']; simpl; [|by intros ?%elem_of_nil].
  intros [= -> ->]%list_elem_of_singleton. exists ticket, rq. split; [by apply HQ | done].
Qed.

Lemma exec_log_length o g : (length (exec o g).1 <= 1)%nat.
Proof. destruct o; simpl; try lia. destruct (reserve _ _ _ _) as [[[]|] ?]; simpl; lia. Qed.

(** Every command a run publishes was above what its handle had published. *)
Lemma run_log_fresh ops g h b :
  wf g -> issued g h -> (h, b) ∈ (run ops g).1 ->
  exists s, mget h (handles g) = Some s /\ published s < b.
Proof.
  revert g. induction ops as [|o ops IH]; intros g Hw Hi; simpl; [by intros ?%elem_of_nil|].
  destruct (exec_sound o g Hw) as [Hw1 He1]. pose proof (exec_log o g h b Hw) as Hlog.
  destruct (exec o g) as [l1 g1]; simpl in *.
  specialize (IH g1 Hw1 (issued_evolves _ _ _ He1 Hi)).
  destruct (run ops g1) as [l2 g2]; simpl in *. intros [Hin|Hin]%elem_of_app.
  - destruct (Hlog Hin) as (tk & rq & ((s & Hauth & Hp) & _ & Hlt) & Hh). simpl in *.
    destruct Hauth as (_ & Hs & _). rewrite Hh in *.
    destruct (ev_handles _ _ He1 _ _ Hs Hi) as (s0 & Hs0 & _). eauto.
  - destruct (IH Hin) as (s & Hs & Hlt).
    destruct (ev_handles _ _ He1 _ _ Hs Hi) as (s0 & Hs0 & _ & _ & Hle & _).
    exists s0. split; [done | lia].
Qed.

Lemma run_log_sorted ops g i j h a b :
  wf g -> (i < j)%nat -> (run ops g).1 !! i = Some (h, a) -> (run ops g).1 !! j = Some (h, b) -> a < b.
Proof.
  revert g i j. induction ops as [|o ops IH]; intros g i j Hw Hij; simpl; [done|].
  destruct (exec_sound o g Hw) as [Hw1 He1]. pose proof (exec_log o g h a Hw) as Hlog.
  pose proof (exec_log_length o g) as Hlen.
  destruct (exec o g) as [l1 g1]; simpl in *. pose proof (run_log_fresh ops g1 h b Hw1) as Hfresh.
  specialize (IH g1). destruct (run ops g1) as [l2 g2]; simpl in *.
  rewrite !lookup_app. destruct (l1 !! i) as [[h' a']|] eqn:Hi.
  - intros [= -> ->]. assert (Hj : l1 !! j = None).
    { apply lookup_ge_None. apply lookup_lt_Some in Hi. lia. }
    rewrite Hj. intros Hb. apply list_elem_of_lookup_2 in Hi, Hb.
    destruct (Hlog Hi) as (tk & rq & ((s & Hauth & Hp) & _) & Hh). simpl in *.
    destruct Hauth as (_ & Hs & _). rewrite Hh in *.
    destruct Hfresh as (s' & Hs' & Hlt); [by eapply hw_issued, wf_handle | done |].
    simplify_eq. lia.
  - intros Ha. destruct (l1 !! j) as [|] eqn:Hj.
    + apply lookup_lt_Some in Hj. apply lookup_ge_None in Hi. lia.
    + intros Hb. apply (IH (i - length l1)%nat (j - length l1)%nat Hw1); [|done..].
      apply lookup_ge_None in Hi, Hj. lia.
Qed.

(** ** Properties *)

(** C9: the guard is well formed after any sequence of operations, clock
    readings and hook calls: registrations within their limits, every handle
    owned by a live session, sequence numbers in the uint64 range, and at most
    one lease per ROS topic. *)
Theorem guard_invariant uuid opts reading g0 ops :
  constructor uuid opts reading = Ok g0 -> wf (run ops g0).2.
Proof. intros Hg. by apply run_sound, (guard_constructor_wf uuid opts reading). Qed.

(** C6: a command reaches the ROS callback only through a ticket that was
    unspent, for a handle its session owns under the same epoch, holding the
    lease it names, strictly before that lease expires on the guard's clock,
    and with a sequence number above every one the handle has published. *)
Theorem publish_authority tk c g rq sq g' :
  wf g -> reserve hook tk c g = (Ok (rq, sq), g') ->
  (exists t, tickets g !! tk = Some t /\ consumed t = false /\ saved t = rq /\ seq t = sq) /\
  (forall s0, mget (rq_handle rq) (handles g) = Some s0 -> published s0 < sq) /\
  closed g' = false /\
  exists s l, mget (rq_handle rq) (handles g') = Some s /\
    sessionId (identity s) = rq_sessionId rq /\ epoch (identity s) = rq_epoch rq /\
    published s = sq /\ lease s = Some l /\ lease_id l = rq_leaseId rq /\
    nltb (clock g') (expiresAt l) = true /\ lastTime g' = clock g'.
Proof.
  intros Hw Hr. destruct (wp_reserve hook tk c g Hw) as (_ & _ & HQ). rewrite Hr in HQ.
  destruct (HQ _ eq_refl) as ((s & (?&?&?&?&?&?&l&?&?&?) & ?) & ? & ?). simpl in *.
  split_and!; try done. exists s, l. done.
Qed.

(** Over every run of the guard, the sequence numbers a handle publishes
    strictly increase, so no command is executed twice or out of order. *)
Theorem no_replay uuid opts reading g0 ops i j h a b :
  constructor uuid opts reading = Ok g0 -> (i < j)%nat ->
  (run ops g0).1 !! i = Some (h, a) -> (run ops g0).1 !! j = Some (h, b) -> a < b.
Proof. intros Hg. apply run_log_sorted, (guard_constructor_wf uuid opts reading), Hg. Qed.

(** A ticket is spent by its first use, whatever the outcome; every later
    use throws [ticket_consumed] and changes nothing. *)
Theorem ticket_single_use tk c c' g t ops :
  wf g -> tickets g !! tk = Some t ->
  let g' := (run ops (reserve hook tk c g).2).2 in
  reserve hook tk c' g' = (Throw (Error "ticket_consumed"), g').
Proof.
  intros Hw Ht g'. destruct (reserve_spends hook tk c g t Hw Ht) as (t1 & Ht1 & Hc1).
  destruct (wp_reserve hook tk c g Hw) as (Hw1 & _ & _).
  destruct (run_sound ops _ Hw1) as [_ He].
  destruct (ev_tickets _ _ He _ _ Ht1) as (t2 & Ht2 & _ & _ & Hcc). fold g' in Ht2.
  unfold reserve. rewrite ST_bind_eq. simpl. rewrite Ht2. unfold throw_when. by rewrite Hcc.
Qed.

(** Once a session is revoked, no handle it owned publishes again in any
    continuation, not even through a ticket prepared before the revocation. *)
Theorem revoked_session_silent sid g h s ops a :
  wf g -> mget h (handles g) = Some s -> sessionId (identity s) = sid ->
  (h, a) ∉ (run ops (revokeSession sid g).2).1.
Proof.
  intros Hw Hs Hsid Hin. destruct (sound_revokeSession sid g Hw) as (Hw1 & He1 & _).
  assert (Hi : issued g h) by (by eapply hw_issued, wf_handle).
  destruct (run_log_fresh ops _ h a Hw1 (issued_evolves _ _ _ He1 Hi) Hin) as (s' & Hs' & _).
  revert Hs'. simpl. rewrite mget_filter by apply Hw. rewrite Hs.
  by rewrite decide_False by (simpl; congruence).
Qed.
End runs.

(** ** Executions under a hook that only answers *)

Lemma owned_eq sid h g :
  owned sid h g =
    (if closed g then Throw (Error "guard_closed") else
     match mget h (handles g) with
     | Some s => if decide (sessionId (identity s) = sid) then Ok s else Throw (Error "invalid_owner")
     | None => Throw (Error "invalid_owner")
     end, g).
Proof.
  unfold owned, assertOpen. unfold_st. destruct (closed g); [done|]. simpl.
  destruct (mget h (handles g)) as [s|]; [|done].
  destruct (decide (sessionId (identity s) = sid)) as [Heq|Hne].
  - by rewrite bool_decide_eq_false_2 by tauto.
  - by rewrite bool_decide_eq_true_2.
Qed.

Definition pure (allow : CommandIdentity -> phase -> bool) (i : CommandIdentity) (p : phase) :
  ST guard bool := mret (allow i p).

Definition clock_ok (g : guard) : bool :=
  is_finite (clock g) && negb (nltb (of_Z MAX_SAFE_INTEGER) (clock g)) && negb (nltb (clock g) (lastTime g)).

Lemma now_eq g :
  now g = if clock_ok g then (Ok (clock g), set_lastTime (clock g) g)
          else (Throw (Error "invalid_clock"), g).
Proof.
  unfold now, clock_ok. unfold_st.
  by destruct (is_finite _), (nltb (of_Z _) _), (nltb (clock g) _).
Qed.

Lemma authorize_pure allow i p g :
  authorize (pure allow) i p g =
    (if allow i p : bool then Ok tt else Throw (Error "unauthorized"), g).
Proof. unfold authorize, pure. unfold_st. by destruct (allow i p). Qed.

(** arming is refused with [writer_busy], leaving every lease untouched,
    while a handle of another session holds an unexpired lease on the topic. *)
Theorem arm_writer_busy (allow : CommandIdentity -> phase -> bool) sid h g s h' s' l :
  wf g -> closed g = false -> mget h (handles g) = Some s -> sessionId (identity s) = sid ->
  allow (identity s) PArm = true ->
  is_finite (clock g) = true -> nltb (of_Z MAX_SAFE_INTEGER) (clock g) = false ->
  nltb (clock g) (lastTime g) = false ->
  mget h' (handles g) = Some s' -> sessionId (identity s') <> sid ->
  topic (identity s') = topic (identity s) -> lease s' = Some l ->
  nltb (clock g) (expiresAt l) = true ->
  arm (pure allow) sid h g =
    (Throw (Error "writer_busy"), set_lastTime (clock g) g).
Proof.
  intros Hw Hc Hs Hsid Hal Hf Hmax Hlast Hs' Hne Ht Hl Hlt.
  assert (Hbusy : existsb (busy s sid (clock g)) (mvalues (handles g)) = true).
  { apply existsb_exists. exists s'. split.
    - apply mget_elem in Hs'. apply list_elem_of_In.
      by apply (list_elem_of_fmap_2 snd (handles g) (h', s')) in Hs'.
    - unfold busy. rewrite Hl, Hlt, !bool_decide_eq_true_2 by done. done. }
  unfold arm. rewrite ST_bind_eq, owned_eq, Hc, Hs, decide_True by done.
  rewrite ST_bind_eq, authorize_pure, Hal.
  rewrite ST_bind_eq, owned_eq, Hc, Hs, decide_True by done.
  rewrite ST_bind_eq, now_eq. unfold clock_ok. rewrite Hf, Hmax, Hlast. cbn [andb negb].
  rewrite ST_bind_eq. cbn [get]. rewrite ST_bind_eq. cbn [handles set_lastTime].
  by rewrite Hbusy.
Qed.

(** A granted lease is exclusive and timed: no other handle on the topic
    keeps one, a rival session's lease had expired, the new identifier was
    never issued before, and the deadline is the clock plus the handle's lease
    time, at most the largest safe integer. *)
Theorem arm_grants (allow : CommandIdentity -> phase -> bool) sid h g l g' :
  wf g -> arm (pure allow) sid h g = (Ok l, g') ->
  exists s, mget h (handles g) = Some s /\ sessionId (identity s) = sid /\
    mget h (handles g') = Some (with_lease (Some l) s) /\
    expiresAt l = nadd (clock g) (of_Z (leaseMs s)) /\
    nltb (of_Z MAX_SAFE_INTEGER) (expiresAt l) = false /\ ~ issued g (lease_id l) /\
    (forall h1 s1, mget h1 (handles g') = Some s1 -> h1 <> h ->
       topic (identity s1) = topic (identity s) -> lease s1 = None) /\
    (forall h1 s1 l1, mget h1 (handles g) = Some s1 -> sessionId (identity s1) <> sid ->
       topic (identity s1) = topic (identity s) -> lease s1 = Some l1 ->
       nleb (expiresAt l1) (clock g) = true).
Proof.
  intros Hw. unfold arm. rewrite ST_bind_eq, owned_eq.
  destruct (closed g) eqn:Hc; [done|]. destruct (mget h (handles g)) as [s|] eqn:Hs; [|done].
  case_decide as Hsid; [|done]. rewrite ST_bind_eq, authorize_pure.
  destruct (allow _ _); [|done]. rewrite ST_bind_eq, owned_eq, Hc, Hs, decide_True by done.
  rewrite ST_bind_eq, now_eq. destruct (clock_ok g) eqn:Hck; [|done].
  rewrite ST_bind_eq. cbn [get]. rewrite ST_bind_eq. cbn [handles set_lastTime].
  destruct (existsb _ _) eqn:Hbusy; [done|]. unfold throw_when at 1. cbn [mret ST_ret].
  rewrite ST_bind_eq. destruct (nltb (of_Z MAX_SAFE_INTEGER) _) eqn:Hmax; [done|].
  intros [= <- <-]. exists s. cbn [expiresAt lease_id handles set_handles set_nextId set_lastTime nextId prefix].
  split_and!; [done | done | apply mget_mset_eq | done | done | apply fresh_not_issued | |].
  - intros h1 s1. rewrite mget_mset. case_decide; [done|]. rewrite mget_mmap.
    destruct (mget h1 (handles g)) as [s0|]; [|done]. intros [= <-] _. by case_decide.
  - intros h1 s1 l1 H1 Hne Ht Hl.
    assert (Hb : busy s sid (clock g) s1 = false).
    { apply not_true_iff_false. intros Hb. apply not_true_iff_false in Hbusy. apply Hbusy.
      apply existsb_exists. exists s1. split; [|done]. apply list_elem_of_In.
      apply mget_elem in H1. by apply (list_elem_of_fmap_2 snd (handles g) (h1, s1)) in H1. }
    unfold busy in Hb. rewrite Hl, !bool_decide_eq_true_2 in Hb by done. simpl in Hb.
    unfold clock_ok in Hck. bools. apply nltb_false; [by apply is_finite_nan_free | | done].
    destruct (hw_lease _ _ _ (wf_handle _ Hw _ _ H1) l1 Hl). done.
Qed.

(** ** A concrete guard *)

Definition demo_options : GuardOptions := {|
  opt_maxSessions := VNum (of_Z 2); opt_maxHandles := VNum (of_Z 4);
  opt_leaseMs := VNum (of_Z 250); opt_callbacks := true |}.
Definition demo_guard : guard :=
  match constructor (js "g") demo_options (of_Z 100) with
  | Ok g => g
  | Throw _ => {| maxSessions := 0; maxHandles := 0; defaultLeaseMs := 0; prefix := []; nextId := 0;
      lastTime := S754_nan; sessions := []; handles := []; closed := true; tickets := [];
      clock := S754_nan |}
  end.
Definition demo_allow (i : CommandIdentity) (p : phase) : bool := true.
Abbreviation demo_hook := (pure demo_allow).
(** Two sessions open a handle on one topic; the first arms it and prepares
    the commands 7 and 9. *)
Definition demo_request (n : Z) : CommandRequest := {|
  rq_sessionId := js "g:1"; rq_epoch := js "e1"; rq_handle := js "g:3";
  rq_leaseId := js "g:5"; rq_seq := VStr (Z_to_js n) |}.
Definition demo_ops : list op :=
  [OpenSession (VStr (js "e1")); OpenSession (VStr (js "e2"));
   OpenHandle (js "g:1") (VStr (js "/cmd_vel")) None;
   OpenHandle (js "g:2") (VStr (js "/cmd_vel")) None;
   Arm (js "g:1") (js "g:3"); Prepare (demo_request 7); Prepare (demo_request 9)].
Definition demo_state : guard := (run demo_hook demo_ops demo_guard).2.

Lemma demo_guard_constructed : constructor (js "g") demo_options (of_Z 100) = Ok demo_guard.
Proof. vm_compute. reflexivity. Qed.
#[export] Instance demo_hook_sound : SoundHook demo_hook := pure_hook demo_allow.
Lemma demo_state_wf : wf demo_state.
Proof. apply run_sound; [apply _|]. eapply guard_constructor_wf, demo_guard_constructed. Qed.

Lemma guard_invariant_witness :
  wf (run demo_hook demo_ops demo_guard).2 /\ length (tickets demo_state) = 2%nat.
Proof.
  split; [|vm_compute; reflexivity].
  exact (guard_invariant demo_hook (js "g") demo_options (of_Z 100) demo_guard demo_ops demo_guard_constructed).
Defined.

Lemma publish_authority_witness :
  exists s l, mget (js "g:3") (handles (reserve demo_hook 0 true demo_state).2) = Some s /\
    published s = 7 /\ lease s = Some l /\ lease_id l = js "g:5".
Proof.
  destruct (publish_authority demo_hook 0 true demo_state (demo_request 7) 7
    (reserve demo_hook 0 true demo_state).2 demo_state_wf ltac:(vm_compute; reflexivity))
    as (_ & _ & _ & s & l & Hs & _ & _ & Hp & Hl & Hi & _).
  exists s, l. split_and!; assumption.
Defined.

Lemma no_replay_witness :
  (run demo_hook (demo_ops ++ [Publish 0 true; Publish 1 true]) demo_guard).1
    = [(js "g:3", 7); (js "g:3", 9)] /\ 7 < 9.
Proof.
  split; [vm_compute; reflexivity|].
  apply (no_replay demo_hook (js "g") demo_options (of_Z 100) demo_guard
    (demo_ops ++ [Publish 0 true; Publish 1 true]) 0 1 (js "g:3") 7 9 demo_guard_constructed);
    [lia | vm_compute; reflexivity | vm_compute; reflexivity].
Defined.

Lemma ticket_single_use_witness :
  (reserve demo_hook 0 true (run demo_hook [] (reserve demo_hook 0 true demo_state).2).2).1
    = Throw (Error "ticket_consumed").
Proof.
  rewrite (ticket_single_use demo_hook 0 true true demo_state
    {| saved := demo_request 7; seq := 7; consumed := false |} [] demo_state_wf);
    [reflexivity | vm_compute; reflexivity].
Defined.

Lemma revoked_session_silent_witness :
  (js "g:3", 7) ∉ (run demo_hook [Publish 0 true] (revokeSession (js "g:1") demo_state).2).1.
Proof.
  destruct (mget (js "g:3") (handles demo_state)) as [s|] eqn:Hs; [|vm_compute in Hs; discriminate].
  apply (revoked_session_silent demo_hook (js "g:1") demo_state (js "g:3") s _ _ demo_state_wf Hs).
  vm_compute in Hs. injection Hs as <-. reflexivity.
Defined.

Lemma arm_writer_busy_witness :
  (arm demo_hook (js "g:2") (js "g:4") demo_state).1 = Throw (Error "writer_busy").
Proof.
  destruct (mget (js "g:4") (handles demo_state)) as [s|] eqn:Hs; [|vm_compute in Hs; discriminate].
  destruct (mget (js "g:3") (handles demo_state)) as [s'|] eqn:Hs'; [|vm_compute in Hs'; discriminate].
  rewrite (arm_writer_busy demo_allow (js "g:2") (js "g:4") demo_state s (js "g:3") s'
    {| lease_id := js "g:5"; expiresAt := of_Z 350 |} demo_state_wf); [reflexivity|..];
    vm_compute in Hs; vm_compute in Hs'; injection Hs as <-; injection Hs' as <-;
    vm_compute; congruence.
Defined.

Lemma arm_grants_witness :
  exists l g', arm demo_hook (js "g:1") (js "g:3") demo_state = (Ok l, g') /\
    expiresAt l = of_Z 350 /\ ~ issued demo_state (lease_id l).
Proof.
  destruct (arm demo_hook (js "g:1") (js "g:3") demo_state) as [[l|e] g'] eqn:Ha;
    [|vm_compute in Ha; discriminate].
  exists l, g'. destruct (arm_grants demo_allow _ _ _ _ _ demo_state_wf Ha)
    as (s & Hs & _ & _ & He & _ & Hn & _).
  split_and!; [reflexivity | | exact Hn]. vm_compute in Ha. injection Ha as <- _. reflexivity.
Defined.
