(* ===== verification/DeliveryQueue.v ===== *)
(** * Bounded send queue

    [session/delivery-queue.ts]: the per-peer queue of encoded messages.  A
    stream is an object held in the map [streams] and mutated in place, which
    the model writes back under its identifier.  [enqueue] and [peek] copy the
    bytes, so payloads are values. *)

From S2P Require Import Prelude JsNumber JsString JsMap Values SessionValidation.

Module Queue.

(** ** Data *)

Inductive Policy := latest | reliable.
#[export] Instance policy_eq_dec : EqDecision Policy.
Proof. solve_decision. Defined.

Record Stream := { policy : Policy; maxMessages : Z; messages : list (list Z); stopped : bool }.
Record QueueOptions := { opt_maxStreams : jsval; opt_maxBytes : jsval; opt_maxMessageBytes : jsval }.
Record queue := {
  maxStreams : Z; maxBytes : Z; maxMessageBytes : Z;
  streams : jsmap jsstr Stream; bytes : Z; dropped : Z }.

Definition with_messages l s :=
  {| policy := policy s; maxMessages := maxMessages s; messages := l; stopped := stopped s |}.
Definition stop s :=
  {| policy := policy s; maxMessages := maxMessages s; messages := messages s; stopped := true |}.
Definition set_streams m q := {| maxStreams := maxStreams q; maxBytes := maxBytes q;
  maxMessageBytes := maxMessageBytes q; streams := m; bytes := bytes q; dropped := dropped q |}.
Definition set_bytes n q := {| maxStreams := maxStreams q; maxBytes := maxBytes q;
  maxMessageBytes := maxMessageBytes q; streams := streams q; bytes := n; dropped := dropped q |}.
Definition set_dropped n q := {| maxStreams := maxStreams q; maxBytes := maxBytes q;
  maxMessageBytes := maxMessageBytes q; streams := streams q; bytes := bytes q; dropped := n |}.

(** ** Operations *)

Definition constructor (options : QueueOptions) : result queue :=
  ms ← positiveLimit (opt_maxStreams options);
  mb ← positiveLimit (opt_maxBytes options);
  mm ← positiveLimit (opt_maxMessageBytes options);
  throw_when (mb <? mm) (Error "invalid_limit");;
  Ok {| maxStreams := ms; maxBytes := mb; maxMessageBytes := mm;
        streams := []; bytes := 0; dropped := 0 |}.

(** [this.stream(id)]: look up a registration. *)
Definition stream (id : jsstr) : ST queue Stream :=
  q ← get; lift (of_option (Error "unknown_stream") (mget id (streams q))).

(** A mutation of the stream object registered under [id]. *)
Definition update (id : jsstr) (s : Stream) : ST queue unit :=
  modify (fun q => set_streams (mset id s (streams q)) q).

Definition release (id : jsstr) (s : Stream) : ST queue Stream :=
  modify (fun q => set_bytes (bytes q - zsum zlength (messages s)) q);;
  update id (with_messages [] s);;
  mret (with_messages [] s).

Definition register (id pol max : jsval) : ST queue unit :=
  lift (identifier id);;
  n ← lift (positiveLimit max);
  throw_when (negb (is_str "latest" pol) && negb (is_str "reliable" pol)) (Error "invalid_policy");;
  throw_when (is_str "latest" pol && negb (n =? 1)) (Error "invalid_limit");;
  let key := match id with VStr s => s | _ => [] end in
  q ← get;
  throw_when (mhas key (streams q)) (Error "duplicate_stream");;
  throw_when (maxStreams q <=? msize (streams q)) (Error "stream_limit");;
  update key {| policy := if is_str "latest" pol then latest else reliable; maxMessages := n;
                messages := []; stopped := false |}.

Definition enqueue (id : jsstr) (message : jsval) : ST queue bool :=
  s ← stream id;
  throw_when (stopped s) (Error "slow_consumer");;
  q ← get;
  match message with
  | VBytes bs =>
      throw_when ((zlength bs =? 0) || (maxMessageBytes q <? zlength bs)) (Error "message_size");;
      s ← (if bool_decide (policy s = latest) && (0 <? zlength (messages s))
           then modify (fun q => set_dropped (dropped q + zlength (messages s)) q);; release id s
           else mret s);
      q ← get;
      if (maxMessages s <=? zlength (messages s)) || (maxBytes q - bytes q <? zlength bs)
      then
        if bool_decide (policy s = reliable)
        then release id (stop s);; mthrow (Error "slow_consumer")
        else modify (fun q => set_dropped (dropped q + 1) q);; mret false
      else
        update id (with_messages (messages s ++ [bs]) s);;
        modify (fun q => set_bytes (bytes q + zlength bs) q);;
        mret true
  | _ => mthrow (Error "message_size")
  end.

Definition dequeue (id : jsstr) : ST queue (option (list Z)) :=
  s ← stream id;
  throw_when (stopped s) (Error "slow_consumer");;
  match messages s with
  | [] => mret None
  | m :: ms =>
      update id (with_messages ms s);;
      modify (fun q => set_bytes (bytes q - zlength m) q);;
      mret (Some m)
  end.

Definition peek (id : jsstr) : ST queue (option (list Z)) :=
  s ← stream id;
  throw_when (stopped s) (Error "slow_consumer");;
  mret (head (messages s)).

Definition closeStream (id : jsstr) : ST queue unit :=
  s ← stream id;
  release id s;;
  modify (fun q => set_streams (mdelete id (streams q)) q).

Definition clear : ST queue unit :=
  modify (set_streams []);; modify (set_bytes 0).

Definition stats (q : queue) : Z * Z * Z := (bytes q, msize (streams q), dropped q).

(** ** Well-formed queues *)

Definition weight (s : Stream) : Z := zsum zlength (messages s).

Record stream_wf (max : Z) (s : Stream) : Prop := {
  sw_max : 0 < maxMessages s <= MAX_SAFE_INTEGER;
  sw_latest : policy s = latest -> maxMessages s = 1;
  sw_count : zlength (messages s) <= maxMessages s;
  sw_size : Forall (fun m => 0 < zlength m <= max) (messages s);
  sw_stopped : stopped s = true -> policy s = reliable /\ messages s = [] }.

Record wf (q : queue) : Prop := {
  wf_limits : 0 < maxStreams q <= MAX_SAFE_INTEGER /\ 0 < maxMessageBytes q <= maxBytes q
              /\ maxBytes q <= MAX_SAFE_INTEGER;
  wf_streams : NoDup (mkeys (streams q)) /\ msize (streams q) <= maxStreams q;
  wf_stream : forall id s, mget id (streams q) = Some s -> stream_wf (maxMessageBytes q) s;
  wf_bytes : bytes q = msum weight (streams q);
  wf_budget : bytes q <= maxBytes q;
  wf_dropped : 0 <= dropped q }.

Lemma weight_nonneg s : 0 <= weight s.
Proof. apply zsum_nonneg, zlength_nonneg. Qed.
#[local] Hint Resolve weight_nonneg : core.

Lemma bytes_nonneg q : wf q -> 0 <= bytes q.
Proof. intros Hw. rewrite (wf_bytes q Hw). by apply msum_nonneg. Qed.

(** Writing a stream back under its identifier, with the bytes accounted. *)
Lemma wf_update q id s s' d :
  wf q -> mget id (streams q) = Some s -> stream_wf (maxMessageBytes q) s' ->
  bytes q + weight s' - weight s <= maxBytes q -> 0 <= d ->
  wf (set_dropped d (set_bytes (bytes q + weight s' - weight s) (set_streams (mset id s' (streams q)) q))).
Proof.
  intros Hw Hs Hs' Hb Hd. destruct Hw as [Hl [Hn Hz] Hst Hby Hbu Hdr]. split; simpl; try done.
  - split; [by apply NoDup_mset|]. rewrite msize_mset_old; [done | by rewrite Hs].
  - intros i t. rewrite mget_mset. case_decide; [by intros [= <-] | apply Hst].
  - rewrite (msum_mset_old _ _ _ _ _ Hs). lia.
Qed.

(** ** What each operation does *)

Lemma stream_eq id q :
  stream id q = (match mget id (streams q) with
                 | Some s => Ok s | None => Throw (Error "unknown_stream") end, q).
Proof. unfold stream. unfold_st. by destruct (mget id (streams q)). Qed.

Lemma dequeue_eq id q :
  dequeue id q =
    match mget id (streams q) with
    | None => (Throw (Error "unknown_stream"), q)
    | Some s =>
        if stopped s then (Throw (Error "slow_consumer"), q)
        else match messages s with
             | [] => (Ok None, q)
             | m :: ms => (Ok (Some m),
                 set_bytes (bytes q - zlength m) (set_streams (mset id (with_messages ms s) (streams q)) q))
             end
    end.
Proof.
  unfold dequeue. rewrite ST_bind_eq, stream_eq. destruct (mget id (streams q)) as [s|]; [|done].
  unfold_st. destruct (stopped s); [done|]. by destruct (messages s).
Qed.

(** The room [enqueue] sees: the stream after the [latest] policy discarded
    its older sample. *)
Definition displaced (s : Stream) : list (list Z) :=
  match policy s with latest => messages s | reliable => [] end.
Definition kept (s : Stream) : list (list Z) :=
  match policy s with latest => [] | reliable => messages s end.

Lemma set_bytes_bytes q n m : set_bytes n (set_bytes m q) = set_bytes n q.
Proof. done. Qed.

Lemma set_dropped_id q : set_dropped (dropped q) q = q.
Proof. by destruct q. Qed.
Lemma with_messages_id s : with_messages (messages s) s = s.
Proof. by destruct s. Qed.
(** [enqueue] of admissible bytes on a running stream. *)
Definition enqueue_spec (id : jsstr) (s : Stream) (bs : list Z) (q : queue) : result bool * queue :=
  let free := bytes q - zsum zlength (displaced s) in
  let lost := dropped q + zlength (displaced s) in
  if (maxMessages s <=? zlength (kept s)) || (maxBytes q - free <? zlength bs) then
    match policy s with
    | reliable => (Throw (Error "slow_consumer"), set_bytes (free - weight s)
        (set_streams (mset id (stop (with_messages [] s)) (streams q)) q))
    | latest => (Ok false, set_dropped (lost + 1) (set_bytes free
        (set_streams (mset id (with_messages [] s) (streams q)) q)))
    end
  else (Ok true, set_dropped lost (set_bytes (free + zlength bs)
         (set_streams (mset id (with_messages (kept s ++ [bs]) s) (streams q)) q))).

Lemma enqueue_eq id s bs q :
  mget id (streams q) = Some s -> stopped s = false ->
  0 < zlength bs <= maxMessageBytes q ->
  enqueue id (VBytes bs) q = enqueue_spec id s bs q.
Proof.
  intros Hs Hst [Hb1 Hb2]. unfold enqueue. rewrite ST_bind_eq, stream_eq, Hs. unfold_st.
  rewrite Hst. rewrite (proj2 (Z.eqb_neq (zlength bs) 0)), (proj2 (Z.ltb_ge (maxMessageBytes q) _)) by lia.
  unfold enqueue_spec, displaced, kept, weight. destruct s as [[] mx ms st]; simpl in *.
  - destruct ms as [|m ms]; simpl.
    + unfold_st. rewrite Z.sub_0_r, Z.add_0_r.
      destruct (_ || _); [|by destruct q]. do 2 f_equal. unfold with_messages; simpl.
      rewrite (mset_same id _ (streams q) Hs). by destruct q.
    + replace (0 <? zlength (m :: ms)) with true by (rewrite zlength_cons; pose proof (zlength_nonneg ms); lia).
      unfold_st. unfold release, update. unfold_st. simpl.
      destruct (_ || _); simpl; [done|]. by rewrite mset_mset.
  - unfold_st. rewrite Z.sub_0_r, Z.add_0_r. destruct (_ || _); unfold release, update; unfold_st; [done|].
    by destruct q.
Qed.

Lemma enqueue_cases id message q :
  enqueue id message q =
    match mget id (streams q) with
    | None => (Throw (Error "unknown_stream"), q)
    | Some s =>
        if stopped s then (Throw (Error "slow_consumer"), q)
        else match message with
             | VBytes bs =>
                 if decide (0 < zlength bs <= maxMessageBytes q) then enqueue_spec id s bs q
                 else (Throw (Error "message_size"), q)
             | _ => (Throw (Error "message_size"), q)
             end
    end.
Proof.
  destruct (mget id (streams q)) as [s|] eqn:Hs.
  2: { unfold enqueue. by rewrite ST_bind_eq, stream_eq, Hs. }
  destruct (stopped s) eqn:Hst.
  { unfold enqueue. rewrite ST_bind_eq, stream_eq, Hs. unfold_st. by rewrite Hst. }
  destruct message as [| | | | | | | |bs| |];
    try (unfold enqueue; rewrite ST_bind_eq, stream_eq, Hs; unfold_st; by rewrite Hst).
  case_decide as Hb; [by apply enqueue_eq|].
  unfold enqueue. rewrite ST_bind_eq, stream_eq, Hs. unfold_st. rewrite Hst.
  destruct (Z.eqb_spec (zlength bs) 0); [done|]. pose proof (zlength_nonneg bs).
  by rewrite (proj2 (Z.ltb_lt (maxMessageBytes q) (zlength bs))) by lia.
Qed.

(** ** The invariant *)

Lemma displaced_kept s : messages s = displaced s ++ kept s.
Proof. unfold displaced, kept. destruct (policy s); by rewrite ?app_nil_r. Qed.

Lemma weight_split s : weight s = zsum zlength (displaced s) + zsum zlength (kept s).
Proof. unfold weight. by rewrite (displaced_kept s), zsum_app at 1. Qed.

(** Well-formedness of a stream written back. *)
Ltac swf := split; simpl; autorewrite with bridge; auto; (lia || congruence || naive_solver congruence).

Lemma wf_enqueue_spec id s bs q :
  wf q -> mget id (streams q) = Some s -> stopped s = false ->
  0 < zlength bs <= maxMessageBytes q -> wf (enqueue_spec id s bs q).2.
Proof.
  intros Hw Hs Hst Hb. pose proof (wf_stream q Hw id s Hs) as [Hm Hl Hc Hz Hst'].
  pose proof (weight_split s) as Hws. pose proof (zlength_nonneg (displaced s)).
  pose proof (zsum_nonneg zlength (displaced s) zlength_nonneg).
  pose proof (weight_nonneg s). pose proof (wf_dropped q Hw). pose proof (wf_budget q Hw).
  assert (Hk : Forall (fun m => 0 < zlength m <= maxMessageBytes q) (kept s)).
  { unfold kept. by destruct (policy s). }
  unfold enqueue_spec. destruct (_ || _) eqn:Hfull.
  - destruct (policy s) eqn:Hp; simpl.
    + assert (Hd : displaced s = messages s) by (unfold displaced; by rewrite Hp).
      assert (Hz' : zsum zlength (displaced s) = weight s) by (by rewrite Hd).
      pose proof (wf_update q id s (with_messages [] s) (dropped q + zlength (displaced s) + 1) Hw Hs) as Hu.
      unfold weight at 1 3 in Hu. simpl in Hu. rewrite Z.add_0_r in Hu. rewrite Hz'.
      apply Hu; [swf | lia | lia].
    + pose proof (wf_update q id s (stop (with_messages [] s)) (dropped q) Hw Hs) as Hu.
      unfold weight at 1 3 in Hu. simpl in Hu. rewrite Z.add_0_r in Hu.
      assert (Hd : displaced s = []) by (unfold displaced; by rewrite Hp).
      rewrite Hd. simpl. rewrite Z.sub_0_r. apply Hu; [swf | lia | lia].
  - apply orb_false_iff in Hfull as [Hf1 Hf2]. bools.
    pose proof (wf_update q id s (with_messages (kept s ++ [bs]) s)
      (dropped q + zlength (displaced s)) Hw Hs) as Hu.
    unfold weight at 1 3 in Hu. simpl in Hu. rewrite zsum_app in Hu. simpl in Hu.
    simpl. replace (bytes q - zsum zlength (displaced s) + zlength bs)
      with (bytes q + (zsum zlength (kept s) + (zlength bs + 0)) - weight s) by lia.
    apply Hu; [|lia|lia]. assert (Forall (fun m => 0 < zlength m <= maxMessageBytes q) (kept s ++ [bs]))
      by (apply Forall_app; auto). swf.
Qed.

Lemma wf_enqueue id message : preserves wf (enqueue id message).
Proof.
  intros q Hw. rewrite enqueue_cases. destruct (mget id (streams q)) as [s|] eqn:Hs; [|done].
  destruct (stopped s) eqn:Hst; [done|]. destruct message; try done. case_decide; [|done].
  by apply wf_enqueue_spec.
Qed.

Lemma wf_dequeue id : preserves wf (dequeue id).
Proof.
  intros q Hw. rewrite dequeue_eq. destruct (mget id (streams q)) as [s|] eqn:Hs; [|done].
  destruct (stopped s) eqn:Hst; [done|]. destruct (messages s) as [|m ms] eqn:Hm; [done|]. simpl.
  pose proof (wf_stream q Hw id s Hs) as [Hmx Hl Hc Hz _]. rewrite Hm in *.
  pose proof (wf_update q id s (with_messages ms s) (dropped q) Hw Hs) as Hu.
  unfold weight in Hu. rewrite Hm in Hu. simpl in Hu. rewrite zlength_cons in *.
  pose proof (zlength_nonneg m). pose proof (wf_budget q Hw).
  replace (bytes q - zlength m) with
    (bytes q + zsum zlength ms - (zlength m + zsum zlength ms)) by lia.
  apply Hu; [|lia|apply Hw]. apply Forall_cons in Hz as [_ Hz].
  swf.
Qed.

Lemma closeStream_eq id q :
  closeStream id q =
    match mget id (streams q) with
    | None => (Throw (Error "unknown_stream"), q)
    | Some s => (Ok tt, set_bytes (bytes q - weight s) (set_streams (mdelete id (streams q)) q))
    end.
Proof.
  unfold closeStream. rewrite ST_bind_eq, stream_eq. destruct (mget id (streams q)) as [s|]; [|done].
  unfold release, update. unfold_st. unfold weight. simpl.
  by rewrite mdelete_mset.
Qed.

Lemma wf_closeStream id : preserves wf (closeStream id).
Proof.
  intros q Hw. rewrite closeStream_eq. destruct (mget id (streams q)) as [s|] eqn:Hs; [|done].
  destruct Hw as [Hl [Hn Hz] Hst Hby Hbu Hdr]. pose proof (weight_nonneg s).
  split; simpl; try done.
  - split; [by apply NoDup_mdelete | pose proof (msize_mdelete id (streams q)); lia].
  - intros i t. rewrite mget_mdelete. case_decide; [done | apply Hst].
  - rewrite (msum_mdelete _ _ s) by done. lia.
  - lia.
Qed.

Lemma wf_queue_clear : preserves wf clear.
Proof.
  intros q [Hl [Hn Hz] Hst Hby Hbu Hdr]. split; simpl; try done; [|lia].
  split; [constructor | unfold msize; rewrite zlength_nil; lia].
Qed.

(** The registrations [register] admits. *)
Definition fresh_stream (pol : jsval) (n : Z) : Stream :=
  {| policy := if is_str "latest" pol then latest else reliable; maxMessages := n;
     messages := []; stopped := false |}.

Lemma register_cases id pol max q :
  (exists e, register id pol max q = (Throw e, q)) \/
  exists key n, id = VStr key /\ positiveLimit max = Ok n /\ mget key (streams q) = None /\
    msize (streams q) < maxStreams q /\
    (is_str "latest" pol = true /\ n = 1 \/ is_str "latest" pol = false /\ is_str "reliable" pol = true) /\
    register id pol max q = (Ok tt, set_streams (mset key (fresh_stream pol n) (streams q)) q).
Proof.
  unfold register, update. unfold_st. destruct (identifier id) as [[]|e] eqn:Hid; [|eauto].
  apply identifier_Ok in Hid as (key & -> & _). destruct (positiveLimit max) as [n|e]; [|eauto].
  destruct (is_str "latest" pol) eqn:Hlat; simpl.
  - destruct (Z.eqb_spec n 1) as [->|]; simpl; [|eauto].
    destruct (mhas key (streams q)) eqn:Hh; [eauto|].
    destruct (Z.leb_spec (maxStreams q) (msize (streams q))); [eauto|].
    right. exists key, 1. unfold mhas in Hh. bools. apply eq_None_not_Some in Hh.
    split_and!; try done; [by left | unfold fresh_stream; by rewrite Hlat].
  - destruct (is_str "reliable" pol) eqn:Hr; simpl; [|eauto].
    destruct (mhas key (streams q)) eqn:Hh; [eauto|].
    destruct (Z.leb_spec (maxStreams q) (msize (streams q))); [eauto|].
    right. exists key, n. unfold mhas in Hh. bools. apply eq_None_not_Some in Hh.
    split_and!; try done; [by right | unfold fresh_stream; by rewrite Hlat].
Qed.

Lemma wf_register id pol max : preserves wf (register id pol max).
Proof.
  intros q Hw. destruct (register_cases id pol max q) as [(e & ->)|(key&n&->&Hn&Hk&Hsz&Hp&->)]; [done|].
  apply positiveLimit_Ok in Hn as (_&_&_&Hn). destruct Hw as [Hl [Hnd Hz] Hst Hby Hbu Hdr].
  split; simpl; try done.
  - split; [by apply NoDup_mset|]. rewrite msize_mset_new by done. lia.
  - intros i s. rewrite mget_mset. case_decide; [intros [= <-] | apply Hst].
    split; simpl; try done; [|rewrite zlength_nil; lia].
    destruct Hp as [[-> ->]|[-> _]]; done.
  - rewrite msum_mset_new by done. unfold weight at 2. simpl. lia.
Qed.

Lemma queue_constructor_wf options q : constructor options = Ok q -> wf q.
Proof.
  unfold constructor. intros H. inv_res. bools. subst q.
  apply positiveLimit_Ok in Hx as (_&_&_&?), Hx0 as (_&_&_&?), Hx1 as (_&_&_&?).
  split; simpl; try done; try lia. split; [constructor | unfold msize; rewrite zlength_nil; lia].
Qed.

#[export] Hint Resolve wf_enqueue wf_dequeue wf_closeStream wf_queue_clear wf_register : bridge.

End Queue.
