(* ===== verification/DeliveryQueueRuns.v ===== *)
(** * Runs of the send queue

    Sequences of queue operations with the log of the messages each stream
    accepted and delivered.  Every stream of a run follows an abstract machine
    ([stream_step]): a FIFO that stops for good when it overflows, or a cell
    that keeps the newest message. *)

From S2P Require Import Prelude JsNumber JsString JsMap Values SessionValidation DeliveryQueue.
Import Queue.

Inductive op :=
| Register (id pol max : jsval)
| Enqueue (id : jsstr) (message : jsval)
| Dequeue (id : jsstr)
| Peek (id : jsstr)
| CloseStream (id : jsstr)
| Clear.

Inductive event := Accepted (m : list Z) | Delivered (m : list Z).

Definition exec (o : op) (q : queue) : list (jsstr * event) * queue :=
  match o with
  | Register id pol max => ([], (register id pol max q).2)
  | Enqueue id message =>
      let '(r, q') := enqueue id message q in
      (match r, message with Ok true, VBytes bs => [(id, Accepted bs)] | _, _ => [] end, q')
  | Dequeue id =>
      let '(r, q') := dequeue id q in
      (match r with Ok (Some m) => [(id, Delivered m)] | _ => [] end, q')
  | Peek id => ([], (peek id q).2)
  | CloseStream id => ([], (closeStream id q).2)
  | Clear => ([], (clear q).2)
  end.

Fixpoint run (ops : list op) (q : queue) : list (jsstr * event) * queue :=
  match ops with
  | [] => ([], q)
  | o :: ops => let '(l1, q1) := exec o q in let '(l2, q2) := run ops q1 in (l1 ++ l2, q2)
  end.

(** The events of one stream; the payloads it accepted and delivered. *)
Definition trace (id : jsstr) (log : list (jsstr * event)) : list event :=
  omap (fun e => if decide (e.1 = id) then Some e.2 else None) log.
#[local] Arguments trace : simpl never.
Definition accepted (l : list event) : list (list Z) :=
  omap (fun e => match e with Accepted m => Some m | _ => None end) l.
Definition delivered (l : list event) : list (list Z) :=
  omap (fun e => match e with Delivered m => Some m | _ => None end) l.

(** The operation does not release the registration of [id]. *)
Definition keeps (id : jsstr) (o : op) : bool :=
  match o with CloseStream id' => bool_decide (id' <> id) | Clear => false | _ => true end.

(** ** The abstract machine of one stream *)

Inductive stream_step (s : Stream) : list event -> Stream -> Prop :=
| step_idle : stream_step s [] s
| step_accept m : stopped s = false -> 0 < zlength m ->
    zlength (kept s) < maxMessages s ->
    stream_step s [Accepted m] (with_messages (kept s ++ [m]) s)
| step_drop : policy s = latest -> stream_step s [] (with_messages [] s)
| step_overflow : policy s = reliable -> stream_step s [] (stop (with_messages [] s))
| step_deliver m ms : stopped s = false -> messages s = m :: ms ->
    stream_step s [Delivered m] (with_messages ms s).

Inductive stream_run (s : Stream) : list event -> Stream -> Prop :=
| run_nil : stream_run s [] s
| run_cons l1 s1 l2 s2 : stream_step s l1 s1 -> stream_run s1 l2 s2 -> stream_run s (l1 ++ l2) s2.

Lemma trace_app id l k : trace id (l ++ k) = trace id l ++ trace id k.
Proof. apply omap_app. Qed.
Lemma trace_other id id' e : id' <> id -> trace id [(id', e)] = [].
Proof. intros Hne. unfold trace. simpl. by rewrite decide_False. Qed.
Lemma trace_self id e : trace id [(id, e)] = [e].
Proof. unfold trace. simpl. by rewrite decide_True. Qed.
#[local] Hint Constructors stream_step : core.

Lemma peek_state id q : (peek id q).2 = q.
Proof.
  unfold peek. rewrite ST_bind_eq, stream_eq. destruct (mget id (streams q)); [|done].
  unfold_st. by destruct (stopped _).
Qed.

Lemma exec_wf o q : wf q -> wf (exec o q).2.
Proof.
  intros Hw. destruct o; simpl.
  - by apply wf_register.
  - pose proof (wf_enqueue id message q Hw). by destruct (enqueue id message q).
  - pose proof (wf_dequeue id q Hw). by destruct (dequeue id q).
  - by rewrite peek_state.
  - by apply wf_closeStream.
  - by apply wf_queue_clear.
Qed.

Lemma run_wf ops q : wf q -> wf (run ops q).2.
Proof.
  revert q. induction ops as [|o ops IH]; intros q Hw; simpl; [done|].
  pose proof (exec_wf o q Hw) as Hw1. destruct (exec o q) as [l1 q1]; simpl in *.
  specialize (IH q1 Hw1). by destruct (run ops q1).
Qed.

(** One operation is one step of every stream it does not release. *)
Lemma exec_step o q id s :
  keeps id o = true -> mget id (streams q) = Some s ->
  exists s', mget id (streams (exec o q).2) = Some s' /\
    stream_step s (trace id (exec o q).1) s'.
Proof.
  intros Hk Hs. destruct o as [rid pol max|eid message|did|pid|cid|]; simpl in *.
  - destruct (register_cases rid pol max q) as [(e & ->)|(key&n&->&_&Hkey&_&_&->)]; simpl; [eauto|].
    exists s. rewrite mget_mset_ne by (intros ->; congruence). eauto.
  - rewrite enqueue_cases. destruct (mget eid (streams q)) as [s0|] eqn:Hs0; [|eauto].
    destruct (stopped s0) eqn:Hst; [eauto|]. destruct message as [| | | | | | | |bs| |]; try by eauto.
    case_decide as Hb; [|eauto]. unfold enqueue_spec.
    destruct (decide (eid = id)) as [->|Hne].
    + assert (s0 = s) as -> by congruence. destruct (_ || _) eqn:Hfull.
      * destruct (policy s) eqn:Hp; simpl; rewrite mget_mset_eq; eauto.
      * apply orb_false_iff in Hfull as [Hf _]. bools. simpl. rewrite mget_mset_eq.
        rewrite trace_self. eexists; split; [done|]. constructor; lia || done.
    + exists s. destruct (_ || _); [destruct (policy s0)|]; simpl; rewrite mget_mset_ne by done;
        rewrite ?trace_other by done; eauto.
  - rewrite dequeue_eq. destruct (mget did (streams q)) as [s0|] eqn:Hs0; [|eauto].
    destruct (stopped s0) eqn:Hst; [eauto|]. destruct (messages s0) as [|m ms] eqn:Hm; [eauto|]. simpl.
    destruct (decide (did = id)) as [->|Hne].
    + assert (s0 = s) as -> by congruence. rewrite mget_mset_eq, trace_self. eauto.
    + rewrite mget_mset_ne by done. rewrite trace_other by done. eauto.
  - rewrite peek_state. eauto.
  - rewrite closeStream_eq. bools. destruct (mget cid (streams q)); simpl; [|eauto].
    rewrite mget_mdelete_ne by done. eauto.
  - done.
Qed.

Lemma run_stream ops q id s :
  forallb (keeps id) ops = true -> mget id (streams q) = Some s ->
  exists s', mget id (streams (run ops q).2) = Some s' /\ stream_run s (trace id (run ops q).1) s'.
Proof.
  revert q s. induction ops as [|o ops IH]; intros q s; simpl; [intros _ Hs; by exists s; eauto using run_nil|].
  intros [Hk Hks]%andb_true_iff Hs. destruct (exec_step o q id s Hk Hs) as (s1 & Hs1 & Hst).
  destruct (exec o q) as [l1 q1]; simpl in *. destruct (IH q1 s1 Hks Hs1) as (s2 & Hs2 & Hr).
  destruct (run ops q1) as [l2 q2]; simpl in *. exists s2. split; [done|].
  rewrite trace_app. by econstructor.
Qed.

(** ** The two delivery policies *)

Lemma accepted_app l k : accepted (l ++ k) = accepted l ++ accepted k.
Proof. apply omap_app. Qed.
Lemma delivered_app l k : delivered (l ++ k) = delivered l ++ delivered k.
Proof. apply omap_app. Qed.

Lemma step_policy s l s' : stream_step s l s' -> policy s' = policy s /\ (stopped s = true -> stopped s' = true).
Proof. by destruct 1. Qed.

(** A stopped stream neither accepts nor delivers. *)
Lemma stopped_run s l s' :
  stream_run s l s' -> policy s = reliable -> stopped s = true -> l = [] /\ stopped s' = true.
Proof.
  induction 1 as [|s l1 s1 l2 s2 Hst _ IH]; [done|]. intros Hp Hs.
  destruct (step_policy _ _ _ Hst) as [Hp1 Hs1].
  destruct IH as [-> ?]; [congruence | auto |]. rewrite app_nil_r.
  destruct Hst; try done; congruence.
Qed.

Lemma reliable_run s l s' :
  stream_run s l s' -> policy s = reliable ->
  delivered l `prefix_of` messages s ++ accepted l /\
  (stopped s' = false -> messages s ++ accepted l = delivered l ++ messages s').
Proof.
  induction 1 as [s|s l1 s1 l2 s2 Hst Hr IH]; intros Hp; simpl.
  - rewrite app_nil_r. split; [apply prefix_nil | done].
  - destruct (step_policy _ _ _ Hst) as [Hp1 _]. destruct IH as [IH1 IH2]; [congruence|].
    rewrite accepted_app, delivered_app.
    destruct Hst as [|m Hs _ _| Hl | |m ms Hs Hm]; simpl in *.
    + done.
    + unfold kept in *. rewrite Hp in *. split; [by rewrite <- app_assoc in IH1|].
      intros Hs2. rewrite <- (IH2 Hs2). by rewrite <- app_assoc.
    + congruence.
    + destruct (stopped_run _ _ _ Hr) as [-> Hs2]; [done..|].
      split; [apply prefix_nil | congruence].
    + rewrite Hm. simpl. split; [by apply prefix_cons | intros Hs2; by rewrite (IH2 Hs2)].
Qed.

Lemma latest_run s l s' :
  stream_run s l s' -> policy s = latest -> (length (messages s) <= 1)%nat ->
  delivered l `sublist_of` messages s ++ accepted l /\
  (messages s' = [] \/ exists m, messages s' = [m] /\ last (messages s ++ accepted l) = Some m).
Proof.
  induction 1 as [s|s l1 s1 l2 s2 Hst Hr IH]; intros Hp Hlen; simpl.
  - rewrite app_nil_r. split; [apply sublist_nil_l|].
    destruct (messages s) as [|m [|]]; simpl in *; [by left | right; by exists m | lia].
  - destruct (step_policy _ _ _ Hst) as [Hp1 _].
    assert (Hlen1 : (length (messages s1) <= 1)%nat).
    { destruct Hst as [| | | |m ms _ Hm]; simpl in *; try lia.
      - unfold kept. rewrite Hp. simpl. lia.
      - rewrite Hm in Hlen. simpl in Hlen. lia. }
    destruct IH as [IH1 IH2]; [congruence | done |].
    rewrite accepted_app, delivered_app.
    destruct Hst as [|m Hs _ _| Hl | |m ms Hs Hm]; simpl in *.
    + done.
    + unfold kept in *. rewrite Hp in *. simpl in *. split; [by apply sublist_inserts_l|].
      destruct IH2 as [?|(m'&?&Hl)]; [by left|]. right. exists m'. split; [done|].
      by rewrite last_app, Hl.
    + split; [by apply sublist_inserts_l|].
      destruct IH2 as [?|(m'&?&Hl')]; [by left|]. right. exists m'. split; [done|].
      by rewrite last_app, Hl'.
    + congruence.
    + rewrite Hm in *. simpl in Hlen. destruct ms as [|]; [|simpl in Hlen; lia]. simpl in *.
      split; [by apply sublist_skip|]. destruct IH2 as [?|(m'&?&Hl')]; [by left|].
      right. exists m'. split; [done|]. by rewrite last_cons, Hl'.
Qed.

(** ** Properties *)

(** C30: after any sequence of operations the byte counter is exactly the bytes
    queued over all streams and stays within the peer's budget, streams stay
    within their limit, every queued message within the message limit, a
    stream within its own count, and a stopped stream holds nothing. *)
Theorem queue_invariant options q0 ops :
  constructor options = Ok q0 ->
  let q := (run ops q0).2 in
  bytes q = msum weight (streams q) /\ 0 <= bytes q <= maxBytes q /\
  msize (streams q) <= maxStreams q /\
  forall id s, mget id (streams q) = Some s -> stream_wf (maxMessageBytes q) s.
Proof.
  intros Hq q. assert (Hw : wf q) by (by eapply run_wf, queue_constructor_wf).
  split_and!; [apply Hw | by apply bytes_nonneg | apply Hw | apply Hw | apply Hw].
Qed.

(** C8: reliable delivery.  As long as a reliable stream stays registered, what
    it delivered is a prefix of what it accepted, in order, and while it is not
    stopped nothing is missing: what was accepted is what was delivered
    followed by what is still queued. *)
Theorem reliable_fifo ops q id s :
  mget id (streams q) = Some s -> policy s = reliable -> forallb (keeps id) ops = true ->
  let l := trace id (run ops q).1 in
  exists s', mget id (streams (run ops q).2) = Some s' /\
    delivered l `prefix_of` messages s ++ accepted l /\
    (stopped s' = false -> messages s ++ accepted l = delivered l ++ messages s').
Proof.
  intros Hs Hp Hk l. destruct (run_stream ops q id s Hk Hs) as (s' & Hs' & Hr).
  exists s'. split; [done|]. by apply reliable_run.
Qed.

(** Latest-sample delivery.  As long as a latest stream stays registered,
    it delivers a subsequence of what it accepted, and what is queued is
    nothing or exactly the newest accepted message. *)
Theorem latest_newest ops q id s :
  wf q -> mget id (streams q) = Some s -> policy s = latest -> forallb (keeps id) ops = true ->
  let l := trace id (run ops q).1 in
  exists s', mget id (streams (run ops q).2) = Some s' /\
    delivered l `sublist_of` messages s ++ accepted l /\
    (messages s' = [] \/ exists m, messages s' = [m] /\ last (messages s ++ accepted l) = Some m).
Proof.
  intros Hw Hs Hp Hk l. destruct (run_stream ops q id s Hk Hs) as (s' & Hs' & Hr).
  exists s'. split; [done|]. apply latest_run; [done..|].
  destruct (wf_stream q Hw id s Hs) as [_ Hl Hc _ _]. unfold zlength in Hc. rewrite Hl in Hc by done. lia.
Qed.

(** A reliable stream that has no room is stopped: its bytes are released,
    every other stream is untouched, and until it is closed every later
    [enqueue], [dequeue] and [peek] on it throws [slow_consumer]. *)
Theorem overflow_stops id s bs q ops :
  wf q -> mget id (streams q) = Some s -> policy s = reliable -> stopped s = false ->
  0 < zlength bs <= maxMessageBytes q ->
  maxMessages s <= zlength (messages s) \/ maxBytes q - bytes q < zlength bs ->
  forallb (keeps id) ops = true ->
  let q1 := (enqueue id (VBytes bs) q).2 in
  let q2 := (run ops q1).2 in
  bytes q1 = bytes q - weight s /\
  (forall id', id' <> id -> mget id' (streams q1) = mget id' (streams q)) /\
  (enqueue id (VBytes bs) q).1 = Throw (Error "slow_consumer") /\
  (forall m, enqueue id m q2 = (Throw (Error "slow_consumer"), q2)) /\
  dequeue id q2 = (Throw (Error "slow_consumer"), q2) /\
  peek id q2 = (Throw (Error "slow_consumer"), q2).
Proof.
  intros Hw Hs Hp Hst Hb Hfull Hk q1 q2.
  assert (Hq1 : enqueue id (VBytes bs) q = (Throw (Error "slow_consumer"), set_bytes (bytes q - weight s)
    (set_streams (mset id (stop (with_messages [] s)) (streams q)) q))).
  { rewrite (enqueue_eq id s) by done. unfold enqueue_spec, kept, displaced. rewrite Hp. simpl.
    rewrite Z.sub_0_r. destruct Hfull as [Hf|Hf].
    - by rewrite (proj2 (Z.leb_le _ _) Hf).
    - by rewrite (proj2 (Z.ltb_lt _ _) Hf), orb_true_r. }
  assert (Hs1 : mget id (streams q1) = Some (stop (with_messages [] s))).
  { unfold q1. rewrite Hq1. apply mget_mset_eq. }
  destruct (run_stream ops q1 id _ Hk Hs1) as (s2 & Hs2 & Hr). fold q2 in Hs2.
  destruct (stopped_run _ _ _ Hr) as [_ Hstop]; [done..|].
  split_and!.
  - unfold q1. rewrite Hq1. done.
  - intros id' Hne. unfold q1. rewrite Hq1. simpl. by apply mget_mset_ne.
  - rewrite Hq1. done.
  - intros m. by rewrite enqueue_cases, Hs2, Hstop.
  - by rewrite dequeue_eq, Hs2, Hstop.
  - unfold peek. rewrite ST_bind_eq, stream_eq, Hs2. unfold_st. by rewrite Hstop.
Qed.

(** ** A concrete queue *)

Definition demo_options : QueueOptions := {|
  opt_maxStreams := VNum (of_Z 4); opt_maxBytes := VNum (of_Z 8); opt_maxMessageBytes := VNum (of_Z 4) |}.
Definition demo_queue : queue := {|
  maxStreams := 4; maxBytes := 8; maxMessageBytes := 4; streams := []; bytes := 0; dropped := 0 |}.
Lemma demo_queue_constructed : constructor demo_options = Ok demo_queue.
Proof. vm_compute. reflexivity. Qed.
Definition demo_register : list op :=
  [Register (VStr (js "r")) (VStr (js "reliable")) (VNum (of_Z 2));
   Register (VStr (js "l")) (VStr (js "latest")) (VNum (of_Z 1))].
Definition demo_traffic : list op :=
  [Enqueue (js "r") (VBytes [1]); Enqueue (js "l") (VBytes [7; 7]); Enqueue (js "r") (VBytes [2]);
   Enqueue (js "l") (VBytes [8]); Dequeue (js "r")].
Definition demo_start : queue := (run demo_register demo_queue).2.
Lemma demo_start_wf : wf demo_start.
Proof. eapply run_wf, queue_constructor_wf, demo_queue_constructed. Qed.
Definition demo_stream (p : Policy) (n : Z) : Stream :=
  {| policy := p; maxMessages := n; messages := []; stopped := false |}.

Lemma queue_invariant_witness :
  stats (run (demo_register ++ demo_traffic) demo_queue).2 = (2, 2, 1) /\
  bytes (run (demo_register ++ demo_traffic) demo_queue).2 <= 8.
Proof.
  split; [vm_compute; reflexivity|].
  destruct (queue_invariant demo_options demo_queue (demo_register ++ demo_traffic) demo_queue_constructed)
    as (_ & [_ Hb] & _ & _). etransitivity; [exact Hb|]. vm_compute. discriminate.
Defined.

Lemma reliable_fifo_witness :
  exists s', mget (js "r") (streams (run demo_traffic demo_start).2) = Some s' /\
    [[1]; [2]] = [[1]] ++ messages s'.
Proof.
  destruct (reliable_fifo demo_traffic demo_start (js "r") (demo_stream reliable 2))
    as (s' & Hs' & _ & Hf); [vm_compute; reflexivity..|].
  exists s'. split; [exact Hs'|]. apply Hf. vm_compute in Hs'. injection Hs' as <-. reflexivity.
Defined.

Lemma latest_newest_witness :
  exists s', mget (js "l") (streams (run demo_traffic demo_start).2) = Some s' /\ messages s' = [[8]].
Proof.
  destruct (latest_newest demo_traffic demo_start (js "l") (demo_stream latest 1) demo_start_wf)
    as (s' & Hs' & _ & [He|(m & Hm & Hl)]); [vm_compute; reflexivity..| |].
  - exfalso. vm_compute in Hs'. injection Hs' as <-. discriminate He.
  - exists s'. split; [exact Hs'|]. rewrite Hm. vm_compute in Hl. injection Hl as <-. reflexivity.
Defined.

Lemma overflow_stops_witness :
  let full := (run [Enqueue (js "r") (VBytes [1]); Enqueue (js "r") (VBytes [2])] demo_start).2 in
  dequeue (js "r") (run [] (enqueue (js "r") (VBytes [3]) full).2).2
    = (Throw (Error "slow_consumer"), (run [] (enqueue (js "r") (VBytes [3]) full).2).2).
Proof.
  intros full.
  refine (proj1 (proj2 (proj2 (proj2 (proj2 (overflow_stops (js "r")
    {| policy := reliable; maxMessages := 2; messages := [[1]; [2]]; stopped := false |}
    [3] full [] _ _ _ _ _ _ _)))))).
  - unfold full. apply run_wf, demo_start_wf.
  - vm_compute; reflexivity.
  - reflexivity.
  - reflexivity.
  - vm_compute. split; congruence.
  - left. vm_compute. congruence.
  - reflexivity.
Defined.
