(* ===== verification/RequestCache.v ===== *)
(** * Request cache

    [router/request-cache.ts]: the responses of the requests a peer sent,
    kept for their lifetime so that a retransmission is answered from the
    cache instead of being executed again. *)

From S2P Require Import Prelude JsNumber JsString JsMap.

Module Cache.

Record Cached := { input : jsstr; output : list Z; expires : number; bytes_of : Z }.
Record cache := {
  maxEntries : Z; ttlMs : Z; maxBytes : Z; entries : jsmap jsstr Cached; bytes : Z }.

Definition set_entries m b c := {| maxEntries := maxEntries c; ttlMs := ttlMs c;
  maxBytes := maxBytes c; entries := m; bytes := b |}.

Definition constructor (maxEntries ttlMs maxBytes : Z) : cache :=
  {| maxEntries := maxEntries; ttlMs := ttlMs; maxBytes := maxBytes; entries := []; bytes := 0 |}.

(** [now >= cached.expires] *)
Definition expired (now : number) (e : Cached) : bool := nleb (expires e) now.

(** The loop of [lookup] over the entries, deleting as it iterates. *)
Fixpoint reclaim (now : number) (l : list (jsstr * Cached)) (c : cache) : cache :=
  match l with
  | [] => c
  | (key, e) :: l =>
      reclaim now l (if expired now e
                     then set_entries (mdelete key (entries c)) (bytes c - bytes_of e) c else c)
  end.

Definition lookup (id inp : jsstr) (now : number) : ST cache (option (list Z)) :=
  modify (fun c => reclaim now (entries c) c);;
  c ← get;
  match mget id (entries c) with
  | Some existing =>
      throw_when (bool_decide (input existing <> inp)) (Error "request_conflict");;
      mret (Some (output existing))
  | None =>
      throw_when (maxEntries c <=? msize (entries c)) (Error "request_limit");;
      mret None
  end.

Definition reserve (maxResponseBytes : Z) : ST cache unit :=
  c ← get; throw_when (maxBytes c - bytes c <? maxResponseBytes) (Error "cache_limit").

Definition store (id inp : jsstr) (out : list Z) (now : number) : ST cache unit :=
  let n := zlength inp * 2 + zlength out in
  modify (fun c => set_entries (mset id {| input := inp; output := out;
    expires := nadd now (of_Z (ttlMs c)); bytes_of := n |} (entries c)) (bytes c + n) c).

Definition clear : ST cache unit := modify (fun c => set_entries [] 0 c).

(** ** Well-formed caches *)

Record wf (c : cache) : Prop := {
  wf_keys : NoDup (mkeys (entries c));
  wf_count : msize (entries c) <= maxEntries c;
  wf_bytes : bytes c = msum bytes_of (entries c);
  wf_budget : bytes c <= maxBytes c;
  wf_entry : forall id e, mget id (entries c) = Some e ->
    bytes_of e = zlength (input e) * 2 + zlength (output e) }.

(** The loop removes exactly the expired entries and their bytes. *)
Lemma reclaim_spec now l c :
  NoDup (mkeys l) -> NoDup (mkeys (entries c)) -> bytes c = msum bytes_of (entries c) ->
  (forall k e, (k, e) ∈ l -> mget k (entries c) = Some e) ->
  let c' := reclaim now l c in
  maxEntries c' = maxEntries c /\ ttlMs c' = ttlMs c /\ maxBytes c' = maxBytes c /\
  NoDup (mkeys (entries c')) /\ bytes c' = msum bytes_of (entries c') /\
  msize (entries c') <= msize (entries c) /\
  forall k, mget k (entries c') =
    match mget k (entries c) with
    | Some e => if bool_decide (k ∈ mkeys l) && expired now e then None else Some e
    | None => None
    end.
Proof.
  revert c. induction l as [|[k0 e0] l IH]; intros c Hl Hc Hb Hin; simpl.
  { split_and!; try done. intros k. by destruct (mget k (entries c)). }
  apply NoDup_cons in Hl as [Hni Hl]. pose proof (Hin k0 e0 ltac:(left)) as He0.
  set (c1 := if expired now e0 then _ else c).
  assert (H1 : NoDup (mkeys (entries c1)) /\ bytes c1 = msum bytes_of (entries c1)).
  { unfold c1. destruct (expired now e0); [|done]. simpl.
    split; [by apply NoDup_mdelete | rewrite (msum_mdelete _ _ e0) by done; lia]. }
  assert (H1k : forall k, mget k (entries c1) =
    if expired now e0 && bool_decide (k = k0) then None else mget k (entries c)).
  { intros k. unfold c1. destruct (expired now e0); [|done]. simpl. rewrite mget_mdelete.
    by case_decide; case_bool_decide. }
  assert (H1m : maxEntries c1 = maxEntries c /\ ttlMs c1 = ttlMs c /\ maxBytes c1 = maxBytes c /\
    msize (entries c1) <= msize (entries c)).
  { unfold c1. destruct (expired now e0); [simpl|done]. pose proof (msize_mdelete k0 (entries c)). done. }
  destruct (IH c1 Hl) as (?&?&?&?&?&?&Hk); [apply H1 | apply H1 | |].
  - intros k e Hke. rewrite H1k, (bool_decide_eq_false_2 (k = k0)), andb_false_r.
    + apply Hin. by right.
    + intros ->. apply Hni. by apply (list_elem_of_fmap_2 fst l (k0, e)) in Hke.
  - destruct H1m as (?&?&?&?). split_and!; [congruence..| done | done | lia |].
    intros k. rewrite Hk, H1k. unfold mkeys. simpl. fold (mkeys l).
    destruct (decide (k = k0)) as [->|Hne].
    + rewrite (bool_decide_eq_true_2 (k0 = k0)) by done. rewrite He0.
      rewrite (bool_decide_eq_true_2 (k0 ∈ k0 :: mkeys l)) by left.
      rewrite (bool_decide_eq_false_2 (k0 ∈ mkeys l)) by done.
      by destruct (expired now e0).
    + rewrite (bool_decide_eq_false_2 (k = k0)) by done. rewrite andb_false_r.
      rewrite (bool_decide_ext (k ∈ k0 :: mkeys l) (k ∈ mkeys l)) by set_solver. done.
Qed.

(** What is left of a cache at a time. *)
Definition live (now : number) (c : cache) : cache := reclaim now (entries c) c.

Lemma live_spec now c :
  wf c -> wf (live now c) /\ maxEntries (live now c) = maxEntries c /\
  ttlMs (live now c) = ttlMs c /\ maxBytes (live now c) = maxBytes c /\
  forall k, mget k (entries (live now c)) =
    match mget k (entries c) with
    | Some e => if expired now e then None else Some e
    | None => None
    end.
Proof.
  intros Hw. destruct Hw as [Hn Hc Hb Hbu He].
  destruct (reclaim_spec now (entries c) c Hn Hn Hb) as (Hm&Ht&Hmb&Hn'&Hb'&Hs&Hk).
  { intros k e Hke. by apply elem_mget. }
  fold (live now c) in *.
  assert (Hkk : forall k, mget k (entries (live now c)) =
    match mget k (entries c) with
    | Some e => if expired now e then None else Some e | None => None end).
  { intros k. rewrite Hk. destruct (mget k (entries c)) as [e|] eqn:Hke; [|done].
    rewrite bool_decide_eq_true_2; [done|]. apply mget_elem in Hke.
    by apply (list_elem_of_fmap_2 fst (entries c) (k, e)) in Hke. }
  assert (Hsum : msum bytes_of (entries (live now c)) <= msum bytes_of (entries c)).
  { apply msum_submap; [done..| |].
    - intros k e. rewrite Hkk. destruct (mget k (entries c)) as [e'|]; [|done]. by destruct (expired now e').
    - intros k e Hke. rewrite (He k e Hke). pose proof (zlength_nonneg (input e)).
      pose proof (zlength_nonneg (output e)). lia. }
  split_and!; [|done..]. split; [done | lia | done | lia |].
  intros k e. rewrite Hkk. destruct (mget k (entries c)) as [e'|] eqn:Hke; [|done].
  destruct (expired now e'); [done|]. intros [= <-]. by apply (He k).
Qed.

Lemma lookup_eq id inp now c :
  lookup id inp now c =
    (match mget id (entries (live now c)) with
     | Some e => if decide (input e = inp) then Ok (Some (output e)) else Throw (Error "request_conflict")
     | None => if maxEntries (live now c) <=? msize (entries (live now c))
               then Throw (Error "request_limit") else Ok None
     end, live now c).
Proof.
  unfold lookup. unfold_st. fold (live now c).
  destruct (mget id (entries (live now c))) as [e|].
  - destruct (decide (input e = inp)).
    + by rewrite bool_decide_eq_false_2 by tauto.
    + by rewrite bool_decide_eq_true_2.
  - by destruct (_ <=? _).
Qed.

Lemma cache_constructor_wf me ttl mb : 0 <= me -> 0 <= mb -> wf (constructor me ttl mb).
Proof. split; simpl; try done. constructor. Qed.

Lemma wf_lookup id inp now : preserves wf (lookup id inp now).
Proof. intros c Hw. rewrite lookup_eq. simpl. by apply live_spec. Qed.

Lemma wf_cache_clear c : 0 <= maxEntries c -> 0 <= maxBytes c -> wf (clear c).2.
Proof. split; simpl; try done. constructor. Qed.

Lemma cache_bytes_nonneg c : wf c -> 0 <= bytes c.
Proof.
  intros [Hn _ Hb _ He]. rewrite Hb. apply (zsum_elem_nonneg _ (entries c)). intros [k e] Hin. simpl.
  rewrite (He k e) by (by apply elem_mget).
  pose proof (zlength_nonneg (input e)). pose proof (zlength_nonneg (output e)). lia.
Qed.
Lemma preserves_clear : preserves wf clear.
Proof.
  intros c Hw. pose proof (cache_bytes_nonneg c Hw). destruct Hw as [_ Hc _ Hb _].
  pose proof (msize_nonneg (entries c)). apply wf_cache_clear; lia.
Qed.

(** Storing after a reservation that covers the request and the response. *)
Lemma wf_store id inp out now c :
  wf c -> mget id (entries c) = None -> msize (entries c) < maxEntries c ->
  zlength inp * 2 + zlength out <= maxBytes c - bytes c ->
  wf (store id inp out now c).2.
Proof.
  intros [Hn Hc Hb Hbu He] Hid Hs Hroom. split; simpl.
  - by apply NoDup_mset.
  - rewrite msize_mset_new by done. lia.
  - rewrite msum_mset_new by done. simpl. lia.
  - lia.
  - intros k e. rewrite mget_mset. case_decide; [by intros [= <-] | apply He].
Qed.

(** ** Runs of the cache *)

Inductive op :=
| Lookup (id inp : jsstr) (now : number)
| Reserve (n : Z)
| Store (id inp : jsstr) (out : list Z) (now : number).

Definition exec (o : op) (c : cache) : cache :=
  match o with
  | Lookup id inp now => (lookup id inp now c).2
  | Reserve n => (reserve n c).2
  | Store id inp out now => (store id inp out now c).2
  end.
Definition run (ops : list op) (c : cache) : cache := foldl (fun c o => exec o c) c ops.

(** The operation happens before [deadline] and does not overwrite [id]. *)
Definition before (id : jsstr) (deadline : number) (o : op) : bool :=
  match o with
  | Lookup _ _ now => negb (nleb deadline now)
  | Reserve _ => true
  | Store id' _ _ _ => bool_decide (id' <> id)
  end.

(** The cache as a map: what it answers for an identifier. *)
Definition keyed (c : cache) : Prop := NoDup (mkeys (entries c)).

Lemma live_keyed now c :
  keyed c -> keyed (live now c) /\ forall k e, mget k (entries c) = Some e -> expired now e = false ->
  mget k (entries (live now c)) = Some e.
Proof.
  intros Hc. pose proof (reclaim_spec now (entries c)
    (set_entries (entries c) (msum bytes_of (entries c)) c) Hc Hc eq_refl) as H.
  assert (Heq : forall l m b b', entries (reclaim now l (set_entries m b c)) =
    entries (reclaim now l (set_entries m b' c))).
  { intros l. induction l as [|[k e] l IH]; intros m b b'; simpl; [done|].
    destruct (expired now e); apply IH. }
  destruct H as (_&_&_&Hn&_&_&Hk); [intros k e Hke; by apply elem_mget|].
  unfold keyed, live. replace (reclaim now (entries c) c) with
    (reclaim now (entries c) (set_entries (entries c) (bytes c) c)) by (by destruct c).
  rewrite (Heq _ _ _ (msum bytes_of (entries c))). split; [exact Hn|].
  intros k e Hke Hex. rewrite Hk. simpl. by rewrite Hke, Hex, andb_false_r.
Qed.

Lemma exec_keyed o c : keyed c -> keyed (exec o c).
Proof.
  intros Hc. destruct o; simpl.
  - rewrite lookup_eq. by apply live_keyed.
  - unfold reserve. unfold_st. by destruct (_ <? _).
  - by apply NoDup_mset.
Qed.

Lemma run_keeps ops c id e :
  keyed c -> mget id (entries c) = Some e -> forallb (before id (expires e)) ops = true ->
  keyed (run ops c) /\ mget id (entries (run ops c)) = Some e.
Proof.
  revert c. induction ops as [|o ops IH]; intros c Hc He; simpl; [done|].
  intros [Ho Hops]%andb_true_iff. apply IH; [by apply exec_keyed | | done].
  destruct o; simpl in *; bools.
  - rewrite lookup_eq. simpl. by apply live_keyed.
  - unfold reserve. unfold_st. by destruct (_ <? _).
  - by rewrite mget_mset_ne.
Qed.

(** ** Properties *)

(** A retransmission is answered from the cache.  Once the response of a
    request is stored, every lookup of its identifier until the deadline
    returns that response for the same envelope and [request_conflict] for a
    different one, whatever other requests were looked up or stored since. *)
Theorem retransmission_replayed c id inp out now ops inp' now' :
  keyed c -> let deadline := nadd now (of_Z (ttlMs c)) in
  forallb (before id deadline) ops = true -> nleb deadline now' = false ->
  (lookup id inp' now' (run ops (store id inp out now c).2)).1 =
    if decide (inp = inp') then Ok (Some out) else Throw (Error "request_conflict").
Proof.
  intros Hc deadline Hops Hnow. rewrite lookup_eq. cbn [fst].
  destruct (run_keeps ops (store id inp out now c).2 id {| input := inp; output := out;
    expires := deadline; bytes_of := zlength inp * 2 + zlength out |}) as [Hk He].
  - by apply NoDup_mset.
  - apply mget_mset_eq.
  - done.
  - by rewrite (proj2 (live_keyed now' _ Hk) id _ He Hnow).
Qed.

(** an expired response is forgotten: from its deadline on, a lookup drops
    the entry and releases its bytes, so the request is new again. *)
Theorem expiry_releases c id inp now e :
  wf c -> mget id (entries c) = Some e -> nleb (expires e) now = true ->
  let c' := (lookup id inp now c).2 in
  wf c' /\ mget id (entries c') = None /\
  (forall k e', mget k (entries c') = Some e' <->
     mget k (entries c) = Some e' /\ nleb (expires e') now = false) /\
  (lookup id inp now c).1 = (if maxEntries c <=? msize (entries c')
                             then Throw (Error "request_limit") else Ok None).
Proof.
  intros Hw He Hex c'. destruct (live_spec now c Hw) as (Hw' & Hm & _ & _ & Hk).
  assert (Hc' : c' = live now c) by (unfold c'; by rewrite lookup_eq). rewrite Hc'.
  assert (Hid : mget id (entries (live now c)) = None) by (rewrite Hk, He; unfold expired; by rewrite Hex).
  split_and!; [done | done | |].
  - intros k e'. rewrite Hk. destruct (mget k (entries c)) as [e0|]; [|naive_solver].
    unfold expired. destruct (nleb (expires e0) now) eqn:H0; naive_solver congruence.
  - rewrite lookup_eq. simpl. by rewrite Hid, Hm.
Qed.

(** C31: admission keeps the cache within its limits: when the lookup found
    nothing and the reservation covers the envelope and the response, storing
    leaves the entries within their limit and the byte counter exact and
    within the budget. *)
Theorem admission_bounded c id inp now c1 n out now' :
  wf c -> lookup id inp now c = (Ok None, c1) -> reserve n c1 = (Ok tt, c1) ->
  zlength inp * 2 + zlength out <= n ->
  let c2 := (store id inp out now' c1).2 in
  msize (entries c2) <= maxEntries c2 /\ bytes c2 = msum bytes_of (entries c2) /\
  bytes c2 <= maxBytes c2.
Proof.
  intros Hw Hl Hr Hn c2. pose proof (wf_lookup id inp now c Hw) as Hw1.
  rewrite Hl in Hw1. simpl in Hw1. rewrite lookup_eq in Hl.
  destruct (mget id (entries (live now c))) as [e|] eqn:He; [by case_decide|].
  destruct (Z.leb_spec (maxEntries (live now c)) (msize (entries (live now c)))) as [|Hlt]; [done|].
  injection Hl as <-. unfold reserve in Hr. unfold_st. destruct (Z.ltb_spec (maxBytes (live now c) - bytes (live now c)) n); [done|].
  destruct (wf_store id inp out now' (live now c) Hw1 He Hlt) as [_ Hc Hb Hbu _]; [lia|]. done.
Qed.

(** ** A concrete cache *)

Definition demo_cache : cache := constructor 2 1000 64.
Definition demo_stored : cache := (store (js "r1") (js "{}") [1; 2] (of_Z 10) demo_cache).2.
Definition demo_ops : list op :=
  [Lookup (js "r2") (js "{}") (of_Z 20); Reserve 8; Store (js "r2") (js "{}") [3] (of_Z 20)].
Lemma demo_cache_wf : wf demo_cache.
Proof. apply cache_constructor_wf; lia. Qed.

Lemma retransmission_replayed_witness :
  (lookup (js "r1") (js "{}") (of_Z 900) (run demo_ops demo_stored)).1 = Ok (Some [1; 2]) /\
  (lookup (js "r1") (js "[]") (of_Z 900) (run demo_ops demo_stored)).1 = Throw (Error "request_conflict").
Proof.
  split; (etransitivity; [apply (retransmission_replayed demo_cache (js "r1") (js "{}") [1; 2]
    (of_Z 10) demo_ops); [constructor | vm_compute; reflexivity | vm_compute; reflexivity] | reflexivity]).
Defined.

Lemma expiry_releases_witness :
  mget (js "r1") (entries (lookup (js "r1") (js "{}") (of_Z 1010) demo_stored).2) = None.
Proof.
  refine (proj1 (proj2 (expiry_releases demo_stored (js "r1") (js "{}") (of_Z 1010)
    {| input := js "{}"; output := [1; 2]; expires := of_Z 1010; bytes_of := 6 |} _ _ _))).
  - apply wf_store; [apply demo_cache_wf | reflexivity | reflexivity | vm_compute; discriminate].
  - vm_compute. reflexivity.
  - vm_compute. reflexivity.
Defined.

Lemma admission_bounded_witness :
  bytes (store (js "r1") (js "{}") [1; 2] (of_Z 10) demo_cache).2 <= 64.
Proof.
  apply (admission_bounded demo_cache (js "r1") (js "{}") (of_Z 10) demo_cache 6 [1; 2] (of_Z 10));
    [apply demo_cache_wf | vm_compute; reflexivity | vm_compute; reflexivity | vm_compute; discriminate].
Defined.

End Cache.
