(* ===== verification/ConfigTypes.v ===== *)
(** * Validated configuration

    [config/types.d.ts]: the frozen objects the parser returns.  Integer
    settings are the integers the accepted numbers denote; a rate stays a
    double. *)

From S2P Require Import Prelude JsNumber Values.

Inductive Reliability := Reliable | BestEffort.
Inductive Durability := Volatile | TransientLocal.
Inductive History := KeepLast.
Inductive Direction := ros_to_web | web_to_ros.
Inductive Delivery := DReliable | DRealtime.
Inductive QueuePolicy := QLatest | QFifo.

Record RosQos := {
  reliability : Reliability; durability : Durability; history : History; depth : Z }.
Record TopicQueue := { policy : QueuePolicy; maxMessages : Z }.
Record TopicAccess := { publishScope : jsstr; exclusiveWriter : bool }.
(** [{ required: true, leaseMs }] *)
Record TopicGuard := { leaseMs : Z }.

Record TopicBinding := {
  publicName : jsstr; rosTopic : jsstr; rosType : jsstr; direction : Direction;
  qos : RosQos; delivery : Delivery; maxRateHz : number; queue : TopicQueue;
  access : option TopicAccess; commandGuard : option TopicGuard }.

Record ConfigOptions := {
  availableTypes : list jsstr;
  maxConfigBytes : option jsval;
  maxTopics : option jsval;
  resolveTopic : option (jsstr -> result jsval) }.

Record Limits := {
  maxPeers : Z; maxMessageBytes : Z; maxPeerQueueBytes : Z; maxChannelBufferedBytes : Z }.
(** [{ version: 1, robotId, limits, topics }] *)
Record BridgeConfig := { robotId : jsstr; limits : Limits; topics : list TopicBinding }.

Inductive VideoEncoding := rgb8 | bgr8 | mono8.
Inductive VideoBackend := fixture | l4t_v4l2 | openh264.
Inductive VideoProfile := constrained_baseline | main | high.

Record VideoInput := {
  encoding : VideoEncoding; in_width : Z; in_height : Z; framerate : Z }.
Record VideoOutput := { out_width : Z; out_height : Z }.
(** [codec] is always ['h264']. *)
Record VideoEncoder := {
  backend : VideoBackend; bitrate : Z; keyframeInterval : Z; profile : VideoProfile }.
Record VideoBinding := {
  v_name : jsstr; v_rosTopic : jsstr; v_rosType : jsstr; v_rosQos : RosQos; input : VideoInput;
  output : option VideoOutput; encoder : VideoEncoder; subscribeScope : jsstr }.
Record VideoSettings := {
  startTimeoutMs : Z; retryMinIntervalMs : Z; stopGraceMs : Z; pliMinIntervalMs : Z }.
Record VideoLimits := {
  maxTracks : Z; maxPipelines : Z; maxSlotsPerPeer : Z;
  maxWidth : Z; maxHeight : Z; maxFramerate : Z }.
Record VideoConfig := { settings : VideoSettings; v_limits : VideoLimits; tracks : list VideoBinding }.

#[export] Instance number_eq_dec : EqDecision number.
Proof. solve_decision. Defined.
#[export] Instance reliability_eq_dec : EqDecision Reliability.
Proof. solve_decision. Defined.
#[export] Instance durability_eq_dec : EqDecision Durability.
Proof. solve_decision. Defined.
#[export] Instance history_eq_dec : EqDecision History.
Proof. solve_decision. Defined.
#[export] Instance direction_eq_dec : EqDecision Direction.
Proof. solve_decision. Defined.
#[export] Instance delivery_eq_dec : EqDecision Delivery.
Proof. solve_decision. Defined.
#[export] Instance queue_policy_eq_dec : EqDecision QueuePolicy.
Proof. solve_decision. Defined.
#[export] Instance ros_qos_eq_dec : EqDecision RosQos.
Proof. solve_decision. Defined.
#[export] Instance topic_queue_eq_dec : EqDecision TopicQueue.
Proof. solve_decision. Defined.
#[export] Instance topic_access_eq_dec : EqDecision TopicAccess.
Proof. solve_decision. Defined.
#[export] Instance topic_guard_eq_dec : EqDecision TopicGuard.
Proof. solve_decision. Defined.
#[export] Instance topic_binding_eq_dec : EqDecision TopicBinding.
Proof. solve_decision. Defined.
#[export] Instance video_backend_eq_dec : EqDecision VideoBackend.
Proof. solve_decision. Defined.
#[export] Instance video_profile_eq_dec : EqDecision VideoProfile.
Proof. solve_decision. Defined.
#[export] Instance video_encoding_eq_dec : EqDecision VideoEncoding.
Proof. solve_decision. Defined.
