(* ===== verification/ConfigValidation.v ===== *)
(** * Configuration validation

    [config/validation.ts]: the checks every section of the configuration goes
    through.  A [ConfigError] reports the path and the reason only.  The YAML
    library is a parameter: [yaml source] is the value [parseDocument] and
    [toJS] produce, or [None] when they report errors, warnings or throw. *)

From S2P Require Import Prelude JsNumber JsString Regex Values.

(** [Object.keys(value)] of an object. *)
Definition object_keys (value : jsval) : list jsstr :=
  match value with
  | VObj _ props => own_keys props
  | VBytes bs => map (fun i => Z_to_js (Z.of_nat i)) (seq 0 (length bs))
  | VArr slots _ => omap (fun i => match slots !! i with
      | Some (HoleSlot, _) | None => None | Some _ => Some (Z_to_js (Z.of_nat i)) end)
      (seq 0 (length slots))
  | VStr s => map (fun i => Z_to_js (Z.of_nat i)) (seq 0 (length s))
  | _ => []
  end.

(** [`${path}.${key}`] *)
Definition sub (path : jsstr) (key : string) : jsstr := path ++ js "." ++ js key.

Definition record (value : jsval) (keys : list jsstr) (path : jsstr) : result jsval :=
  if is_record value then
    match find (fun key => bool_decide (key ∉ keys)) (object_keys value) with
    | Some key => Throw (ConfigError (path ++ js "." ++ key) "unknown field")
    | None => Ok value
    end
  else Throw (ConfigError path "object required").

(** The patterns the code passes are anchored at both ends, so
    [pattern.exec(value)?.[0] === value] is a match of the whole string. *)
Definition str (value : jsval) (pattern : re) (path : jsstr) : result jsstr :=
  match value with
  | VStr s => if matches pattern s then Ok s else Throw (ConfigError path "invalid string")
  | _ => Throw (ConfigError path "invalid string")
  end.

Definition positive (value : jsval) (path : jsstr) (integer : bool) : result number :=
  match value with
  | VNum x =>
      throw_when (negb (is_finite x) || nleb x (S754_zero false))
        (ConfigError path "positive finite number required");;
      throw_when (integer && negb (is_safe_integer x)) (ConfigError path "safe integer required");;
      Ok x
  | _ => Throw (ConfigError path "positive finite number required")
  end.
(** [positive(value, path, true)], as the integer it denotes. *)
Definition positiveInt (value : jsval) (path : jsstr) : result Z :=
  x ← positive value path true;
  of_option (ConfigError path "safe integer required") (to_Z x).

(** [choice]: the enumeration is paired with the constructors of the type the
    source gives its string values. *)
Fixpoint choice {A} (value : jsval) (values : list (string * A)) (path : jsstr) : result A :=
  match values with
  | [] => Throw (ConfigError path "unsupported value")
  | (s, a) :: values => if is_str s value then Ok a else choice value values path
  end.

Definition boolean (value : jsval) (path : jsstr) : result bool :=
  match value with VBool b => Ok b | _ => Throw (ConfigError path "boolean required") end.

(** [/^(?:\/[A-Za-z_][A-Za-z0-9_]* )+$/] (without the blank) *)
Definition topicName_re : re :=
  rplus (RCat (rlit "/") (RCat (RCls (fun c => alpha c || (c =? 95))) (RStar (RCls word)))).
Definition topicName (value : jsval) (path : jsstr) : result jsstr :=
  name ← str value topicName_re path;
  throw_when (247 <? zlength name) (ConfigError path "topic name too long");;
  Ok name.

Section yaml.
Variable yaml : jsstr -> option jsval.

Definition readDocument (source : jsstr) (maxBytes : Z) : result jsval :=
  throw_when (maxBytes <? byteLength source) (ConfigError (js "$") "invalid document size");;
  of_option (ConfigError (js "$") "invalid YAML; aliases and custom tags are unsupported") (yaml source).
End yaml.

#[global] Arguments record _ _ _ : simpl never.
#[global] Arguments str _ _ _ : simpl never.
#[global] Arguments positive _ _ _ : simpl never.
#[global] Arguments positiveInt _ _ : simpl never.
#[global] Arguments topicName _ _ : simpl never.

(** ** What validation guarantees *)

Lemma config_record_Ok value keys path v :
  record value keys path = Ok v <->
  v = value /\ is_record value = true /\ Forall (fun k => k ∈ keys) (object_keys value).
Proof.
  unfold record. destruct (is_record value); [|naive_solver].
  destruct (find _ _) as [k|] eqn:Hf.
  - apply find_some in Hf as [Hin Hk]. bools. split; [done|]. intros (_ & _ & Hall).
    rewrite Forall_forall in Hall. exfalso. apply Hk, Hall. by apply list_elem_of_In.
  - split.
    + intros [= <-]. split_and!; [done..|]. apply Forall_forall. intros k Hk.
      apply list_elem_of_In in Hk. pose proof (find_none _ _ Hf k Hk) as Hd. cbv beta in Hd. apply bool_decide_eq_false_1 in Hd.
      by destruct (decide (k ∈ keys)).
    + by intros (-> & _ & _).
Qed.

Lemma str_Ok value pattern path s :
  str value pattern path = Ok s <-> value = VStr s /\ in_re pattern s.
Proof.
  unfold str. destruct value; simpl; try naive_solver.
  rewrite <- matches_spec. destruct (matches pattern s0) eqn:Hm; naive_solver congruence.
Qed.

Lemma positive_Ok value path integer x :
  positive value path integer = Ok x <->
  value = VNum x /\ is_finite x = true /\ nleb x (S754_zero false) = false /\
  (integer = true -> is_safe_integer x = true).
Proof.
  unfold positive. destruct value; simpl; try naive_solver.
  destruct (is_finite x0) eqn:Hf; simpl; [|naive_solver congruence].
  destruct (nleb x0 _) eqn:Hl; simpl; [naive_solver congruence|].
  destruct integer, (is_safe_integer x0) eqn:Hs; simpl; naive_solver congruence.
Qed.

Lemma pos_to_Z x z : nleb x (S754_zero false) = false -> to_Z x = Some z -> is_finite x = true -> 0 < z.
Proof.
  destruct x as [[]|[]| |[] m e]; simpl; try done. intros _ H _.
  destruct (Z.leb_spec 0 e).
  - injection H as <-. assert (0 < 2 ^ e) by (apply Z.pow_pos_nonneg; lia). lia.
  - destruct (Z.eqb_spec (Zpos m mod 2 ^ (- e)) 0) as [Hm|]; [|done]. injection H as <-.
    assert (0 < 2 ^ (- e)) by (apply Z.pow_pos_nonneg; lia).
    apply Z.mod_divide in Hm as [q Hq]; [|lia]. rewrite Hq, Z.div_mul by lia. nia.
Qed.

Lemma positiveInt_Ok value path z :
  positiveInt value path = Ok z ->
  exists x, value = VNum x /\ to_Z x = Some z /\ 0 < z <= MAX_SAFE_INTEGER.
Proof.
  unfold positiveInt. intros H. inv_res. apply positive_Ok in Hx as (-> & Hf & Hl & Hs).
  eexists; split_and!; [done | done | by eapply pos_to_Z |].
  specialize (Hs eq_refl). unfold is_safe_integer in Hs. rewrite H in Hs. bools. lia.
Qed.

Lemma positiveInt_of_Z path z : 0 < z <= MAX_SAFE_INTEGER -> positiveInt (VNum (of_Z z)) path = Ok z.
Proof.
  intros Hz. unfold positiveInt, positive.
  rewrite of_Z_finite, is_safe_integer_of_Z by (unfold MAX_SAFE_INTEGER in *; lia).
  assert (Hl : nleb (of_Z z) (S754_zero false) = false).
  { change (S754_zero false) with (of_Z 0).
    rewrite nleb_false by (apply is_finite_nan_free, of_Z_finite; unfold MAX_SAFE_INTEGER in *; lia).
    rewrite nltb_of_Z by (unfold MAX_SAFE_INTEGER in *; lia). lia. }
  rewrite Hl. simpl. by rewrite to_Z_of_Z by (unfold MAX_SAFE_INTEGER in *; lia).
Qed.

Lemma choice_Ok {A} value (values : list (string * A)) path a :
  choice value values path = Ok a -> exists s, value = VStr (js s) /\ (s, a) ∈ values.
Proof.
  induction values as [|[s b] values IH]; simpl; [done|].
  destruct (is_str s value) eqn:Hs.
  - intros [= <-]. exists s. destruct value; try done. simpl in Hs. bools. subst. split; [done | left].
  - intros (s' & -> & Hin)%IH. exists s'. split; [done | by right].
Qed.

Lemma topicName_Ok value path s :
  topicName value path = Ok s <-> value = VStr s /\ in_re topicName_re s /\ zlength s <= 247.
Proof.
  unfold topicName. split.
  - intros H. inv_res. apply str_Ok in Hx as [-> Hre]. bools. by subst.
  - intros (-> & Hre & Hl). rewrite (proj2 (str_Ok (VStr s) topicName_re path s)) by done. simpl.
    unfold throw_when. by rewrite (proj2 (Z.ltb_ge 247 (zlength s))).
Qed.

Lemma readDocument_Ok yaml source maxBytes v :
  readDocument yaml source maxBytes = Ok v <-> byteLength source <= maxBytes /\ yaml source = Some v.
Proof.
  unfold readDocument, throw_when. destruct (Z.ltb_spec maxBytes (byteLength source)) as [|]; simpl.
  - split; [done | lia].
  - unfold of_option. destruct (yaml source); naive_solver.
Qed.
