(* ===== verification/ConfigBinding.v ===== *)
(** * Topic bindings and the bridge configuration

    [config/binding.ts] and [config/index.ts]: every section is validated
    before anything is returned, and two bindings of one ROS output must agree
    on its protection. *)

From S2P Require Import Prelude JsNumber JsString JsMap Regex Values ConfigTypes ConfigValidation.

(** ** Bindings *)

(** [/^[A-Za-z][A-Za-z0-9_]*\/msg\/[A-Za-z][A-Za-z0-9_]*$/] *)
Definition rosType_re : re :=
  rcats [RCls alpha; RStar (RCls word); rlit "/msg/"; RCls alpha; RStar (RCls word)].
(** [/^[A-Za-z0-9_.:-]+$/] *)
Definition scope_re : re := rplus (RCls (fun c => word c || chr ".:-" c)).

Definition rosQos (value : jsval) (path : jsstr) : result RosQos :=
  let at_ := sub path "ros_qos" in
  q ← record value (map js ["reliability"; "durability"; "history"; "depth"]) at_;
  r ← choice (prop "reliability" q) [("reliable", Reliable); ("best_effort", BestEffort)]%string (sub at_ "reliability");
  d ← choice (prop "durability" q) [("volatile", Volatile); ("transient_local", TransientLocal)]%string (sub at_ "durability");
  h ← choice (prop "history" q) [("keep_last", KeepLast)]%string (sub at_ "history");
  n ← positiveInt (prop "depth" q) (sub at_ "depth");
  Ok {| reliability := r; durability := d; history := h; depth := n |}.

Definition parseAccess (value : jsval) (dir : Direction) (path : jsstr) : result (option TopicAccess) :=
  if is_undefined value then Ok None else
  throw_when (bool_decide (dir <> web_to_ros)) (ConfigError path "access requires web_to_ros");;
  let at_ := sub path "access" in
  a ← record value (map js ["publish_scope"; "exclusive_writer"]) at_;
  scope ← str (prop "publish_scope" a) scope_re (sub at_ "publish_scope");
  exclusive ← boolean (prop "exclusive_writer" a) (sub at_ "exclusive_writer");
  Ok (Some {| publishScope := scope; exclusiveWriter := exclusive |}).

(** [access?.exclusiveWriter] *)
Definition exclusive (a : option TopicAccess) : bool :=
  match a with Some a => exclusiveWriter a | None => false end.

Definition parseGuard (value : jsval) (dir : Direction) (dur : Durability)
  (acc : option TopicAccess) (path : jsstr) : result (option TopicGuard) :=
  if is_undefined value then
    throw_when (exclusive acc) (ConfigError path "exclusive writer requires command guard");;
    Ok None
  else
  let at_ := sub path "command_guard" in
  g ← record value (map js ["required"; "lease_ms"]) at_;
  throw_when (negb (match prop "required" g with VBool true => true | _ => false end))
    (ConfigError path "command guard must be required");;
  throw_when (bool_decide (dir <> web_to_ros) || bool_decide (dur <> Volatile) || negb (exclusive acc))
    (ConfigError path "command requires web_to_ros, volatile and exclusive writer");;
  ms ← positiveInt (prop "lease_ms" g) (sub at_ "lease_ms");
  Ok (Some {| leaseMs := ms |}).

Definition binding_keys : list jsstr := map js
  ["ros_topic"; "ros_type"; "direction"; "ros_qos"; "delivery"; "max_rate_hz"; "queue"; "access";
   "command_guard"].

Definition binding (name : jsstr) (value : jsval) (options : ConfigOptions) : result TopicBinding :=
  let path := js "topics." ++ name in
  m ← record value binding_keys path;
  public ← topicName (VStr name) path;
  target ← topicName (if is_undefined (prop "ros_topic" m) then VStr name else prop "ros_topic" m)
    (sub path "ros_topic");
  resolved ← match resolveTopic options with Some resolve => resolve target | None => Ok (VStr target) end;
  topic ← topicName resolved (sub path "resolved_topic");
  type ← str (prop "ros_type" m) rosType_re (sub path "ros_type");
  throw_when (bool_decide (type ∉ availableTypes options)) (ConfigError path "type unavailable");;
  dir ← choice (prop "direction" m) [("ros_to_web", ros_to_web); ("web_to_ros", web_to_ros)]%string (sub path "direction");
  q ← rosQos (prop "ros_qos" m) path;
  del ← choice (prop "delivery" m) [("reliable", DReliable); ("realtime", DRealtime)]%string (sub path "delivery");
  rate ← positive (prop "max_rate_hz" m) (sub path "max_rate_hz") false;
  qu ← record (prop "queue" m) (map js ["policy"; "max_messages"]) (sub path "queue");
  pol ← choice (prop "policy" qu) [("latest", QLatest); ("fifo", QFifo)]%string (sub path "queue.policy");
  count ← positiveInt (prop "max_messages" qu) (sub path "queue.max_messages");
  throw_when (negb (eqb (bool_decide (del = DReliable)) (bool_decide (pol = QFifo))))
    (ConfigError path "delivery/queue conflict");;
  throw_when (bool_decide (pol = QLatest) && negb (count =? 1))
    (ConfigError path "latest requires one message");;
  acc ← parseAccess (prop "access" m) dir path;
  guard ← parseGuard (prop "command_guard" m) dir (durability q) acc path;
  Ok {| publicName := public; rosTopic := topic; rosType := type; direction := dir; qos := q;
        delivery := del; maxRateHz := rate; queue := {| policy := pol; maxMessages := count |};
        access := acc; commandGuard := guard |}.

(** What [outputContract] serializes; the code compares the JSON texts, which
    are equal exactly when these values are. *)
Definition outputContract (t : TopicBinding) :=
  (rosType t, qos t, access t, commandGuard t, maxRateHz t, delivery t, queue t).

Fixpoint check_outputs (outputs : jsmap jsstr TopicBinding) (l : list TopicBinding) : result unit :=
  match l with
  | [] => Ok tt
  | t :: l =>
      if bool_decide (direction t <> web_to_ros) then check_outputs outputs l
      else
        match mget (rosTopic t) outputs with
        | Some previous =>
            throw_when (bool_decide (outputContract previous <> outputContract t))
              (ConfigError (js "topics." ++ publicName t) "conflicting ROS output binding")
        | None => Ok tt
        end;;
        check_outputs (mset (rosTopic t) t outputs) l
  end.
Definition checkOutputs (l : list TopicBinding) : result unit := check_outputs [] l.

(** ** The whole document *)

Definition parseLimits (value : jsval) : result Limits :=
  m ← record value (map js ["max_peers"; "max_message_bytes"; "max_peer_queue_bytes";
                            "max_channel_buffered_bytes"; "video"]) (js "limits");
  peers ← positiveInt (prop "max_peers" m) (js "limits.max_peers");
  message ← positiveInt (prop "max_message_bytes" m) (js "limits.max_message_bytes");
  peerQueue ← positiveInt (prop "max_peer_queue_bytes" m) (js "limits.max_peer_queue_bytes");
  buffered ← positiveInt (prop "max_channel_buffered_bytes" m) (js "limits.max_channel_buffered_bytes");
  throw_when ((16384 <? message) || (peerQueue <? message) || (buffered <? message))
    (ConfigError (js "limits") "inconsistent message or buffer limits");;
  Ok {| maxPeers := peers; maxMessageBytes := message; maxPeerQueueBytes := peerQueue;
        maxChannelBufferedBytes := buffered |}.

(** [/^[A-Za-z0-9_-]+$/] *)
Definition robotId_re : re := rplus (RCls (fun c => word c || (c =? 45))).

(** [entries[name]] for one of its own keys. *)
Definition entry (entries : jsval) (name : jsstr) : jsval :=
  match entries with VObj _ props => default VUndefined (prop_lookup name props) | _ => VUndefined end.

Definition is_number (n : Z) (v : jsval) : bool :=
  match v with VNum x => neqb x (of_Z n) | _ => false end.

Section yaml.
Variable yaml : jsstr -> option jsval.

Definition parseBridgeConfig (source : jsstr) (options : ConfigOptions) : result BridgeConfig :=
  maxBytes ← positiveInt (default (VNum (of_Z 1048576)) (maxConfigBytes options)) (js "maxConfigBytes");
  maxTopics ← positiveInt (default (VNum (of_Z 256)) (maxTopics options)) (js "maxTopics");
  document ← readDocument yaml source maxBytes;
  m ← record document (map js ["version"; "robot_id"; "limits"; "topics"; "video"; "video_tracks"]) (js "$");
  throw_when (negb (is_number 1 (prop "version" m))) (ConfigError (js "version") "unsupported version");;
  robot ← str (prop "robot_id" m) robotId_re (js "robot_id");
  lim ← parseLimits (prop "limits" m);
  entries ← record (prop "topics" m) (object_keys (prop "topics" m)) (js "topics");
  let names := object_keys entries in
  throw_when ((zlength names =? 0) || (maxTopics <? zlength names))
    (ConfigError (js "topics") "invalid topic count");;
  ts ← mapR (fun name => binding name (entry entries name) options) names;
  checkOutputs ts;;
  Ok {| robotId := robot; limits := lim; topics := ts |}.
End yaml.
