(* ===== verification/ConfigProps.v ===== *)
(** * What an accepted configuration guarantees

    The topic table, its protection and its limits; every valid binding can be
    written down and read back. *)

From S2P Require Import Prelude JsNumber JsString JsMap Regex Values ConfigTypes ConfigValidation ConfigBinding.

(** ** Valid bindings *)

Definition positive_safe (n : Z) : Prop := 0 < n <= MAX_SAFE_INTEGER.
Definition ros_name (s : jsstr) : Prop := in_re topicName_re s /\ zlength s <= 247.

(** The constraints a binding meets whatever document it came from. *)
Record binding_valid (available : list jsstr) (t : TopicBinding) : Prop := {
  bv_public : ros_name (publicName t);
  bv_topic : ros_name (rosTopic t);
  bv_type : in_re rosType_re (rosType t) /\ rosType t ∈ available;
  bv_depth : positive_safe (depth (qos t));
  bv_rate : is_finite (maxRateHz t) = true /\ nleb (maxRateHz t) (S754_zero false) = false;
  bv_count : positive_safe (maxMessages (queue t));
  bv_delivery : delivery t = DReliable <-> policy (queue t) = QFifo;
  bv_latest : policy (queue t) = QLatest -> maxMessages (queue t) = 1;
  bv_access : forall a, access t = Some a -> direction t = web_to_ros /\ in_re scope_re (publishScope a);
  (** A guard and an exclusive writer come together. *)
  bv_exclusive : exclusive (access t) = true <-> is_Some (commandGuard t);
  bv_guard : forall g, commandGuard t = Some g ->
    direction t = web_to_ros /\ durability (qos t) = Volatile /\ positive_safe (leaseMs g) }.

Lemma positiveInt_safe value path z : positiveInt value path = Ok z -> positive_safe z.
Proof. intros (x & _ & _ & ?)%positiveInt_Ok. done. Qed.
#[local] Hint Resolve positiveInt_safe : core.

Lemma rosQos_depth value path q : rosQos value path = Ok q -> positive_safe (depth q).
Proof. unfold rosQos. intros H. inv_res. subst q. simpl. eauto. Qed.

Lemma parseAccess_Ok value dir path a :
  parseAccess value dir path = Ok a ->
  forall a', a = Some a' -> dir = web_to_ros /\ in_re scope_re (publishScope a').
Proof.
  unfold parseAccess. destruct (is_undefined value); [by intros [= <-]|].
  intros H a' ->. inv_res. bools. subst a'. apply str_Ok in Hx1 as [_ ?].
  split; [by apply dec_stable | done].
Qed.

Lemma parseGuard_Ok value dir dur acc path g :
  parseGuard value dir dur acc path = Ok g ->
  (exclusive acc = true <-> is_Some g) /\
  forall g', g = Some g' -> dir = web_to_ros /\ dur = Volatile /\ positive_safe (leaseMs g').
Proof.
  unfold parseGuard. destruct (is_undefined value).
  - intros H. inv_res. subst g. split; [|done]. rewrite Hx. split; [done | by intros []].
  - intros H. inv_res. subst g. bools.
    split; [split; [by eexists | done]|]. intros g' [= <-]. split_and!; [by apply dec_stable | by apply dec_stable | eauto].
Qed.

Lemma binding_Ok name value options t :
  binding name value options = Ok t ->
  publicName t = name /\ binding_valid (availableTypes options) t.
Proof.
  unfold binding. intros H. inv_res. subst t.
  apply topicName_Ok in Hx0 as [[= <-] Hpub], Hx3 as [_ Htop]. apply str_Ok in Hx4 as [_ Htype].
  apply positive_Ok in Hx9 as (_ & Hf & Hl & _). bools.
  apply parseGuard_Ok in Hx16 as [Hex Hg]. split; [done|].
  split; simpl; try done; eauto using rosQos_depth, parseAccess_Ok.
  - split; [done|]. by apply dec_stable.
  - apply eqb_prop in Hx13. split; intros ->.
    + by rewrite bool_decide_eq_true_2 in Hx13 by done; symmetry in Hx13; bools.
    + by rewrite (bool_decide_eq_true_2 (QFifo = QFifo)) in Hx13 by done; bools.
  - intros ->. simpl in Hx14. by bools.
Qed.

(** ** Writing a binding down *)

Abbreviation str_val s := (VStr (js s%string)).
Abbreviation int_val n := (VNum (of_Z n)).
Definition map_val (fields : list (string * jsval)) : jsval :=
  obj (map (fun f => (js f.1, f.2)) fields).

Definition render_qos (q : RosQos) : jsval := map_val
  [("reliability", str_val match reliability q with Reliable => "reliable" | BestEffort => "best_effort" end);
   ("durability", str_val match durability q with Volatile => "volatile" | TransientLocal => "transient_local" end);
   ("history", str_val "keep_last"); ("depth", int_val (depth q))]%string.
Definition render_access (a : option TopicAccess) : jsval :=
  match a with
  | None => VUndefined
  | Some a => map_val [("publish_scope", VStr (publishScope a)); ("exclusive_writer", VBool (exclusiveWriter a))]%string
  end.
Definition render_guard (g : option TopicGuard) : jsval :=
  match g with
  | None => VUndefined
  | Some g => map_val [("required", VBool true); ("lease_ms", int_val (leaseMs g))]%string
  end.
Definition render_queue (q : TopicQueue) : jsval := map_val
  [("policy", str_val match policy q with QLatest => "latest" | QFifo => "fifo" end);
   ("max_messages", int_val (maxMessages q))]%string.
Definition render_binding (target : jsstr) (t : TopicBinding) : jsval := map_val
  [("ros_topic", VStr target); ("ros_type", VStr (rosType t));
   ("direction", str_val match direction t with ros_to_web => "ros_to_web" | web_to_ros => "web_to_ros" end);
   ("ros_qos", render_qos (qos t));
   ("delivery", str_val match delivery t with DReliable => "reliable" | DRealtime => "realtime" end);
   ("max_rate_hz", VNum (maxRateHz t)); ("queue", render_queue (queue t));
   ("access", render_access (access t)); ("command_guard", render_guard (commandGuard t))]%string.

Lemma record_map_val fields keys path :
  forallb (fun k => bool_decide (k ∈ keys)) (map (fun f => js f.1) fields) = true ->
  record (map_val fields) keys path = Ok (map_val fields).
Proof.
  intros Hk. apply config_record_Ok. split_and!; [done..|].
  replace (object_keys (map_val fields)) with (map (fun f => js f.1) fields).
  - rewrite forallb_forall in Hk. apply Forall_forall. intros k Hin%list_elem_of_In.
    by apply Hk, bool_decide_eq_true in Hin.
  - clear Hk. unfold map_val, obj, object_keys, own_keys. induction fields as [|f l IH]; [done|].
    simpl. f_equal. exact IH.
Qed.

Lemma rosQos_render q path : positive_safe (depth q) -> rosQos (render_qos q) path = Ok q.
Proof.
  intros Hd. unfold rosQos, render_qos. rewrite record_map_val by reflexivity. simpl.
  destruct q as [r d [] n]. destruct r, d; simpl; by rewrite positiveInt_of_Z.
Qed.

Lemma parseAccess_render a dir path :
  (forall a', a = Some a' -> dir = web_to_ros /\ in_re scope_re (publishScope a')) ->
  parseAccess (render_access a) dir path = Ok a.
Proof.
  intros Ha. destruct a as [[scope ex]|]; [|done].
  destruct (Ha _ eq_refl) as [-> Hre]. unfold parseAccess, render_access.
  rewrite record_map_val by reflexivity. simpl.
  by rewrite (proj2 (str_Ok (VStr scope) scope_re (sub (sub path "access") "publish_scope") scope)).
Qed.

Lemma parseGuard_render g dir dur acc path :
  (exclusive acc = true <-> is_Some g) ->
  (forall g', g = Some g' -> dir = web_to_ros /\ dur = Volatile /\ positive_safe (leaseMs g')) ->
  parseGuard (render_guard g) dir dur acc path = Ok g.
Proof.
  intros Hex Hg. destruct g as [[ms]|].
  - destruct (Hg _ eq_refl) as (-> & -> & Hms). unfold parseGuard, render_guard.
    rewrite record_map_val by reflexivity. rewrite (proj2 Hex) by done. simpl.
    by rewrite positiveInt_of_Z.
  - unfold parseGuard, render_guard. simpl. destruct (exclusive acc); [|done].
    by destruct (proj1 Hex eq_refl).
Qed.

(** Every valid binding is accepted: written down as a map under its public
    name, with any source name the adapter resolves to its ROS topic, it is
    read back unchanged. *)
Theorem binding_complete options t target :
  binding_valid (availableTypes options) t -> ros_name target ->
  match resolveTopic options with
  | Some resolve => resolve target = Ok (VStr (rosTopic t))
  | None => target = rosTopic t
  end ->
  binding (publicName t) (render_binding target t) options = Ok t.
Proof.
  intros [Hpub Htop [Hty Hav] Hd [Hf Hl] Hc Hdel Hlat Hacc Hex Hg] Htgt Hres.
  destruct t as [pub top ty dir q del rate [pol cnt] acc g]; simpl in *.
  unfold binding, render_binding. rewrite record_map_val by reflexivity.
  set (path := js "topics." ++ pub). simpl mbind. 
  assert (Ht : forall s p, ros_name s -> topicName (VStr s) p = Ok s).
  { intros s p [? ?]. by apply topicName_Ok. }
  apply (bind_step (Ht pub _ Hpub)), (bind_step (Ht target _ Htgt)).
  apply (bind_step (a := VStr top)); [destruct (resolveTopic options); congruence|].
  apply (bind_step (Ht top _ Htop)).
  apply (bind_step (proj2 (str_Ok _ _ _ ty) (conj eq_refl Hty))).
  apply throw_when_step; [by rewrite bool_decide_eq_false_2 by tauto|].
  apply (bind_step (a := dir)); [by destruct dir|].
  apply (bind_step (rosQos_render q _ Hd)).
  apply (bind_step (a := del)); [by destruct del|].
  apply (bind_step (a := rate)); [by apply positive_Ok|].
  apply (bind_step (a := pol)); [by destruct pol|].
  apply (bind_step (positiveInt_of_Z _ cnt Hc)).
  apply throw_when_step; [destruct del, pol; try done; naive_solver|].
  apply throw_when_step; [destruct pol; [by rewrite Hlat|done]|].
  apply (bind_step (parseAccess_render acc dir _ Hacc)).
  by apply (bind_step (parseGuard_render g dir _ acc _ Hex Hg)).
Qed.

(** an accepted binding is valid: its names are absolute ROS names within
    the length limit, its type is available, its queue policy agrees with its
    delivery, and a command guard is present exactly when the writer is
    exclusive, and only on a volatile web-to-ROS output. *)
Theorem binding_sound name value options t :
  binding name value options = Ok t ->
  publicName t = name /\ binding_valid (availableTypes options) t.
Proof. apply binding_Ok. Qed.

(** ** Outputs *)

Definition outputs_agree (l : list TopicBinding) : Prop :=
  forall t1 t2, t1 ∈ l -> t2 ∈ l -> direction t1 = web_to_ros -> direction t2 = web_to_ros ->
  rosTopic t1 = rosTopic t2 -> outputContract t1 = outputContract t2.

Lemma check_outputs_Ok l m :
  (forall k t, mget k m = Some t -> rosTopic t = k /\ direction t = web_to_ros) ->
  check_outputs m l = Ok tt <->
  outputs_agree l /\
  (forall t, t ∈ l -> direction t = web_to_ros -> forall p, mget (rosTopic t) m = Some p ->
     outputContract p = outputContract t).
Proof.
  revert m. induction l as [|t l IH]; intros m Hm; simpl.
  { split; [|done]. intros _. split; [by intros ? ? ?%elem_of_nil | by intros ? ?%elem_of_nil]. }
  case_bool_decide as Hdir.
  { rewrite IH by done. split.
    - intros [Ha Hb]. split.
      + intros t1 t2 [->|H1]%elem_of_cons [->|H2]%elem_of_cons; try done. by apply Ha.
      + intros t1 [->|H1]%elem_of_cons; [done | by apply Hb].
    - intros [Ha Hb]. split; [intros t1 t2 H1 H2; apply Ha; by right | intros t1 H1; apply Hb; by right]. }
  assert (Hm' : forall k t', mget k (mset (rosTopic t) t m) = Some t' ->
    rosTopic t' = k /\ direction t' = web_to_ros).
  { intros k t'. rewrite mget_mset. case_decide; [by intros [= <-] | apply Hm]. }
  rewrite result_bind_Ok. split.
  - intros (u & Hprev & Hrest). apply (IH _ Hm') in Hrest as [Ha Hb].
    assert (Ht : forall t', t' ∈ l -> direction t' = web_to_ros -> rosTopic t' = rosTopic t ->
      outputContract t = outputContract t').
    { intros t' Hin Hd Heq. apply Hb; [done..|]. rewrite Heq. apply mget_mset_eq. }
    split.
    + intros t1 t2 [->|H1]%elem_of_cons [->|H2]%elem_of_cons Hd1 Hd2 Heq; try done.
      * by apply Ht.
      * symmetry. by apply Ht.
      * by apply Ha.
    + intros t1 [->|H1]%elem_of_cons Hd1 p Hp.
      * rewrite Hp in Hprev. apply throw_when_Ok in Hprev. by case_bool_decide.
      * destruct (decide (rosTopic t1 = rosTopic t)) as [Heq|Hne].
        -- rewrite <- (Ht t1) by done. rewrite Heq in Hp. rewrite Hp in Hprev.
           apply throw_when_Ok in Hprev. by case_bool_decide.
        -- apply Hb; [done..|]. by rewrite mget_mset_ne.
  - intros [Ha Hb]. exists tt. split.
    + destruct (mget (rosTopic t) m) as [p|] eqn:Hp; [|done].
      rewrite (Hb t ltac:(left) Hdir p Hp). by rewrite bool_decide_eq_false_2 by tauto.
    + apply (IH _ Hm'). split; [intros t1 t2 H1 H2; apply Ha; by right|].
      intros t1 H1 Hd1 p. rewrite mget_mset. case_decide as Heq; [|by apply Hb; [right|]].
      intros [= <-]. apply Ha; [left | by right | done..].
Qed.

(** The output check accepts a topic table exactly when any two bindings
    of one ROS output agree on type, QoS, access, guard, rate, delivery and
    queue, in whatever order they are listed. *)
Theorem checkOutputs_spec l : checkOutputs l = Ok tt <-> outputs_agree l.
Proof.
  unfold checkOutputs. rewrite check_outputs_Ok by done. split; [by intros [? _] | done].
Qed.

(** ** The whole document *)

Lemma parseLimits_Ok value l :
  parseLimits value = Ok l ->
  positive_safe (maxPeers l) /\ 0 < maxMessageBytes l <= 16384 /\
  maxMessageBytes l <= maxPeerQueueBytes l <= MAX_SAFE_INTEGER /\
  maxMessageBytes l <= maxChannelBufferedBytes l <= MAX_SAFE_INTEGER.
Proof.
  unfold parseLimits. intros H. inv_res. bools. subst l. simpl.
  apply positiveInt_safe in Hx0, Hx1, Hx2, Hx3. unfold positive_safe in *. lia.
Qed.

Lemma config_limits yaml source options c : parseBridgeConfig yaml source options = Ok c ->
  positive_safe (maxPeers (limits c)) /\ 0 < maxMessageBytes (limits c) <= 16384 /\
  maxMessageBytes (limits c) <= maxPeerQueueBytes (limits c) <= MAX_SAFE_INTEGER /\
  maxMessageBytes (limits c) <= maxChannelBufferedBytes (limits c) <= MAX_SAFE_INTEGER.
Proof.
  unfold parseBridgeConfig. intros H. inv_res. subst c. simpl. by eapply parseLimits_Ok.
Qed.

(** The topics of a configuration are the keys of its document. *)
Lemma config_names yaml source options c : parseBridgeConfig yaml source options = Ok c ->
  exists doc, yaml source = Some doc /\ map publicName (topics c) = object_keys (prop "topics" doc).
Proof.
  unfold parseBridgeConfig. intros H. inv_res. subst c. simpl.
  apply readDocument_Ok in Hx1 as [_ Hdoc]. apply config_record_Ok in Hx2 as (-> & _ & _).
  apply config_record_Ok in Hx6 as (-> & _ & _). apply mapR_Ok in Hx8.
  exists x1. split; [done|]. clear -Hx8. induction Hx8 as [|n t ns ts Hb _ IH]; [done|].
  simpl. rewrite IH. f_equal. by apply binding_Ok in Hb as [? _].
Qed.

(** C29: an accepted document yields a configuration whose limits admit a whole
    message everywhere, with at least one topic and no more than the options
    allow (256 unless they say otherwise), every topic valid and named by its
    key, and no ROS output that is guarded or
    exclusive through one alias and weaker through another. *)
Theorem config_sound yaml source options c :
  parseBridgeConfig yaml source options = Ok c ->
  (positive_safe (maxPeers (limits c)) /\ 0 < maxMessageBytes (limits c) <= 16384 /\
   maxMessageBytes (limits c) <= maxPeerQueueBytes (limits c) /\
   maxMessageBytes (limits c) <= maxChannelBufferedBytes (limits c)) /\
  topics c <> [] /\
  (exists most, positiveInt (default (VNum (of_Z 256)) (maxTopics options)) (js "maxTopics") = Ok most /\
     zlength (topics c) <= most) /\
  Forall (binding_valid (availableTypes options)) (topics c) /\
  (exists doc, yaml source = Some doc /\
     map publicName (topics c) = object_keys (prop "topics" doc)) /\
  forall t1 t2, t1 ∈ topics c -> t2 ∈ topics c -> direction t1 = web_to_ros ->
    direction t2 = web_to_ros -> rosTopic t1 = rosTopic t2 ->
    access t1 = access t2 /\ commandGuard t1 = commandGuard t2 /\ qos t1 = qos t2 /\ rosType t1 = rosType t2.
Proof.
  intros H. pose proof (config_names _ _ _ _ H) as Hnames. pose proof (config_limits _ _ _ _ H) as (?&?&?&?). revert H.
  unfold parseBridgeConfig. intros H. inv_res. subst c. simpl.
  apply readDocument_Ok in Hx1 as [_ Hdoc]. apply config_record_Ok in Hx2 as (-> & _ & _).
  apply config_record_Ok in Hx6 as (-> & _ & _).
  destruct x9. apply checkOutputs_spec in Hx9. apply mapR_Ok in Hx8. bools.
  split_and!; [done|tauto..| | | | |].
  - intros ->. inversion Hx8 as [Hnil|]. rewrite <- Hnil in *. done.
  - eexists. split; [exact Hx0|]. apply Forall2_length in Hx8 as Hlen. unfold zlength in *. lia.
  - clear -Hx8. induction Hx8; constructor; [by eapply binding_Ok | done].
  - exact Hnames.
  - intros t1 t2 Ht1 Ht2 Hd1 Hd2 Heq. pose proof (Hx9 t1 t2 Ht1 Ht2 Hd1 Hd2 Heq) as Hc.
    unfold outputContract in Hc. by injection Hc as -> -> -> -> _ _ _.
Qed.

(** ** A concrete document *)

Definition demo_topic : TopicBinding := {|
  publicName := js "/cmd"; rosTopic := js "/cmd_vel"; rosType := js "geometry_msgs/msg/Twist";
  direction := web_to_ros;
  qos := {| reliability := BestEffort; durability := Volatile; history := KeepLast; depth := 1 |};
  delivery := DRealtime; maxRateHz := of_Z 20; queue := {| policy := QLatest; maxMessages := 1 |};
  access := Some {| publishScope := js "drive"; exclusiveWriter := true |};
  commandGuard := Some {| leaseMs := 250 |} |}.
Definition demo_options : ConfigOptions := {|
  availableTypes := [js "geometry_msgs/msg/Twist"]; maxConfigBytes := None; maxTopics := None;
  resolveTopic := None |}.
Definition demo_document : jsval := map_val
  [("version", int_val 1); ("robot_id", str_val "r1");
   ("limits", map_val [("max_peers", int_val 2); ("max_message_bytes", int_val 1024);
     ("max_peer_queue_bytes", int_val 4096); ("max_channel_buffered_bytes", int_val 4096)]%string);
   ("topics", map_val [("/cmd", render_binding (js "/cmd_vel") demo_topic)]%string)]%string.
Definition demo_yaml (source : jsstr) : option jsval := Some demo_document.

Lemma demo_binding_parsed :
  binding (js "/cmd") (render_binding (js "/cmd_vel") demo_topic) demo_options = Ok demo_topic.
Proof. vm_compute. reflexivity. Qed.
Lemma demo_topic_valid : binding_valid (availableTypes demo_options) demo_topic.
Proof. eapply binding_Ok, demo_binding_parsed. Qed.

Lemma binding_complete_witness :
  binding (js "/cmd") (render_binding (js "/cmd_vel") demo_topic) demo_options = Ok demo_topic.
Proof.
  apply (binding_complete demo_options demo_topic (js "/cmd_vel") demo_topic_valid); [|reflexivity].
  exact (bv_topic _ _ demo_topic_valid).
Defined.

Lemma binding_sound_witness : is_Some (commandGuard demo_topic) /\ direction demo_topic = web_to_ros.
Proof.
  destruct (binding_sound (js "/cmd") _ demo_options demo_topic demo_binding_parsed) as [_ Hv].
  split; [by eexists|]. apply (bv_guard _ _ Hv {| leaseMs := 250 |} eq_refl).
Defined.

Lemma config_sound_witness :
  exists c, parseBridgeConfig demo_yaml (js "x") demo_options = Ok c /\ topics c = [demo_topic] /\
    maxMessageBytes (limits c) <= maxPeerQueueBytes (limits c).
Proof.
  destruct (parseBridgeConfig demo_yaml (js "x") demo_options) as [c|e] eqn:Hc;
    [|vm_compute in Hc; discriminate].
  exists c. split; [reflexivity|].
  destruct (config_sound demo_yaml (js "x") demo_options c Hc) as ((_ & _ & H & _) & _).
  split; [|exact H]. vm_compute in Hc. injection Hc as <-. reflexivity.
Defined.
