(* ===== verification/ConfigVideo.v ===== *)
(** * The media plane configuration

    [config/video.ts]: tracks, encoders and their limits, parsed apart from the
    topic table. *)

From S2P Require Import Prelude JsNumber JsString JsMap Regex Values ConfigTypes ConfigValidation ConfigBinding.

Definition VIDEO_ENCODINGS : list (string * VideoEncoding) :=
  [("rgb8", rgb8); ("bgr8", bgr8); ("mono8", mono8)]%string.
(** The GStreamer raw format of each encoding. *)
Definition raw_format (e : VideoEncoding) : string :=
  match e with rgb8 => "RGB" | bgr8 => "BGR" | mono8 => "GRAY8" end.
Definition PROFILE_IDC (p : VideoProfile) : Z :=
  match p with constrained_baseline => 66 | main => 77 | high => 100 end.

(** [VIDEO_BACKENDS]: the profiles and bitrate range of each backend. *)
Definition VIDEO_BACKENDS : list (string * VideoBackend) :=
  [("fixture", fixture); ("l4t_v4l2", l4t_v4l2); ("openh264", openh264)]%string.
Definition backend_profiles (b : VideoBackend) : list VideoProfile :=
  match b with
  | fixture => [constrained_baseline]
  | l4t_v4l2 => [constrained_baseline; main; high]
  | openh264 => [constrained_baseline]
  end.
Definition backend_bitrate (b : VideoBackend) : Z * Z :=
  match b with
  | fixture => (1, 100000000)
  | l4t_v4l2 => (64000, 100000000)
  | openh264 => (64000, 40000000)
  end.

Definition videoSettings (value : jsval) : result VideoSettings :=
  m ← record value (map js ["start_timeout_ms"; "stop_grace_ms"; "retry_min_interval_ms";
                            "pli_min_interval_ms"]) (js "video");
  start ← positiveInt (prop "start_timeout_ms" m) (js "video.start_timeout_ms");
  grace ← positiveInt (prop "stop_grace_ms" m) (js "video.stop_grace_ms");
  retry ← positiveInt (prop "retry_min_interval_ms" m) (js "video.retry_min_interval_ms");
  pli ← positiveInt (prop "pli_min_interval_ms" m) (js "video.pli_min_interval_ms");
  Ok {| startTimeoutMs := start; stopGraceMs := grace; retryMinIntervalMs := retry;
        pliMinIntervalMs := pli |}.

Definition videoInput (value : jsval) (l : VideoLimits) (path : jsstr) : result VideoInput :=
  let at_ := sub path "input" in
  m ← record value (map js ["encoding"; "width"; "height"; "framerate"]) at_;
  enc ← choice (prop "encoding" m) VIDEO_ENCODINGS (sub at_ "encoding");
  w ← positiveInt (prop "width" m) (sub at_ "width");
  h ← positiveInt (prop "height" m) (sub at_ "height");
  f ← positiveInt (prop "framerate" m) (sub at_ "framerate");
  throw_when ((maxWidth l <? w) || (maxHeight l <? h) || (maxFramerate l <? f))
    (ConfigError at_ "exceeds configured video limits");;
  Ok {| encoding := enc; in_width := w; in_height := h; framerate := f |}.

Definition videoOutput (value : jsval) (l : VideoLimits) (path : jsstr) : result VideoOutput :=
  let at_ := sub path "output" in
  m ← record value (map js ["width"; "height"]) at_;
  w ← positiveInt (prop "width" m) (sub at_ "width");
  h ← positiveInt (prop "height" m) (sub at_ "height");
  throw_when ((maxWidth l <? w) || (maxHeight l <? h)) (ConfigError at_ "exceeds configured video limits");;
  throw_when (negb (w mod 2 =? 0) || negb (h mod 2 =? 0)) (ConfigError at_ "width and height must be even");;
  Ok {| out_width := w; out_height := h |}.

Definition videoEncoder (value : jsval) (path : jsstr) : result VideoEncoder :=
  let at_ := sub path "encoder" in
  m ← record value (map js ["codec"; "backend"; "bitrate"; "keyframe_interval"; "profile"]) at_;
  choice (prop "codec" m) [("h264"%string, tt)] (sub at_ "codec");;
  b ← choice (prop "backend" m) VIDEO_BACKENDS (sub at_ "backend");
  rate ← positiveInt (prop "bitrate" m) (sub at_ "bitrate");
  throw_when ((rate <? (backend_bitrate b).1) || ((backend_bitrate b).2 <? rate))
    (ConfigError (sub at_ "bitrate") "outside the range supported by the selected backend");;
  p ← choice (prop "profile" m)
    [("constrained_baseline", constrained_baseline); ("main", main); ("high", high)]%string (sub at_ "profile");
  throw_when (bool_decide (p ∉ backend_profiles b))
    (ConfigError (sub at_ "profile") "unsupported by the selected backend");;
  k ← positiveInt (prop "keyframe_interval" m) (sub at_ "keyframe_interval");
  Ok {| backend := b; bitrate := rate; keyframeInterval := k; profile := p |}.

(** [/^[A-Za-z][A-Za-z0-9_]*$/] and [/^sensor_msgs\/msg\/Image$/] *)
Definition trackName_re : re := RCat (RCls alpha) (RStar (RCls word)).
Definition imageType_re : re := rlit "sensor_msgs/msg/Image".

Definition videoBinding (name : jsstr) (value : jsval) (l : VideoLimits) : result VideoBinding :=
  let path := js "video_tracks." ++ name in
  str (VStr name) trackName_re path;;
  m ← record value (map js ["ros_topic"; "ros_type"; "ros_qos"; "input"; "output"; "encoder"; "access"]) path;
  topic ← topicName (prop "ros_topic" m) (sub path "ros_topic");
  type ← str (prop "ros_type" m) imageType_re (sub path "ros_type");
  q ← rosQos (prop "ros_qos" m) path;
  throw_when (bool_decide (durability q <> Volatile)) (ConfigError path "video requires volatile durability");;
  acc ← record (prop "access" m) [js "subscribe_scope"] (sub path "access");
  inp ← videoInput (prop "input" m) l path;
  out ← (if is_undefined (prop "output" m) then Ok None
         else o ← videoOutput (prop "output" m) l path; Ok (Some o));
  throw_when (match out with
              | None => negb (in_width inp mod 2 =? 0) || negb (in_height inp mod 2 =? 0)
              | Some _ => false end)
    (ConfigError (sub path "input") "width and height must be even when output is not configured");;
  enc ← videoEncoder (prop "encoder" m) path;
  scope ← str (prop "subscribe_scope" acc) scope_re (sub path "access.subscribe_scope");
  Ok {| v_name := name; v_rosTopic := topic; v_rosType := type; v_rosQos := q; input := inp;
        output := out; encoder := enc; subscribeScope := scope |}.

(** The loop that rejects a second track on a source topic. *)
Fixpoint distinct_sources (sources : list jsstr) (l : list VideoBinding) : result unit :=
  match l with
  | [] => Ok tt
  | t :: l =>
      throw_when (bool_decide (v_rosTopic t ∈ sources))
        (ConfigError (js "video_tracks." ++ v_name t) "duplicate video source topic");;
      distinct_sources (v_rosTopic t :: sources) l
  end.

Definition videoBindings (value : jsval) (l : VideoLimits) : result (list VideoBinding) :=
  entries ← record value (object_keys value) (js "video_tracks");
  let names := object_keys entries in
  throw_when ((zlength names =? 0) || (maxTracks l <? zlength names))
    (ConfigError (js "video_tracks") "invalid video track count");;
  ts ← mapR (fun name => videoBinding name (entry entries name) l) names;
  distinct_sources [] ts;;
  Ok ts.

Definition videoLimits (value : jsval) : result VideoLimits :=
  m ← record value (map js ["max_tracks"; "max_pipelines"; "max_slots_per_peer"; "max_width";
                            "max_height"; "max_framerate"]) (js "limits.video");
  t ← positiveInt (prop "max_tracks" m) (js "limits.video.max_tracks");
  p ← positiveInt (prop "max_pipelines" m) (js "limits.video.max_pipelines");
  s ← positiveInt (prop "max_slots_per_peer" m) (js "limits.video.max_slots_per_peer");
  w ← positiveInt (prop "max_width" m) (js "limits.video.max_width");
  h ← positiveInt (prop "max_height" m) (js "limits.video.max_height");
  f ← positiveInt (prop "max_framerate" m) (js "limits.video.max_framerate");
  throw_when (t <? p) (ConfigError (js "limits.video") "more pipelines than tracks");;
  Ok {| maxTracks := t; maxPipelines := p; maxSlotsPerPeer := s;
        maxWidth := w; maxHeight := h; maxFramerate := f |}.

(** The loop that rejects a track whose topic is already exposed. *)
Fixpoint not_exposed (exposed : list jsstr) (l : list VideoBinding) : result unit :=
  match l with
  | [] => Ok tt
  | t :: l =>
      throw_when (bool_decide (v_rosTopic t ∈ exposed))
        (ConfigError (js "video_tracks." ++ v_name t) "topic is already exposed through topics");;
      not_exposed exposed l
  end.

Section yaml.
Variable yaml : jsstr -> option jsval.

Definition parseVideoConfig (source : jsstr) (topics : list TopicBinding) (maxBytes : Z) :
  result (option VideoConfig) :=
  document ← readDocument yaml source maxBytes;
  m ← record document (object_keys document) (js "$");
  lm ← record (prop "limits" m) (object_keys (prop "limits" m)) (js "limits");
  let bounds := prop "video" lm in
  let video := prop "video" m in
  let tracks := prop "video_tracks" m in
  if is_undefined video && is_undefined tracks && is_undefined bounds then Ok None else
  throw_when (is_undefined video || is_undefined tracks || is_undefined bounds)
    (ConfigError (js "video") "video, video_tracks and limits.video must be configured together");;
  l ← videoLimits bounds;
  ts ← videoBindings tracks l;
  not_exposed (map rosTopic topics) ts;;
  s ← videoSettings video;
  Ok (Some {| settings := s; v_limits := l; tracks := ts |}).
End yaml.

(** ** What an accepted media plane guarantees *)

(** The geometry the encoder produces. *)
Definition encoded_width (t : VideoBinding) : Z :=
  match output t with Some o => out_width o | None => in_width (input t) end.
Definition encoded_height (t : VideoBinding) : Z :=
  match output t with Some o => out_height o | None => in_height (input t) end.

Record track_valid (l : VideoLimits) (t : VideoBinding) : Prop := {
  tv_name : in_re trackName_re (v_name t);
  tv_topic : in_re topicName_re (v_rosTopic t) /\ zlength (v_rosTopic t) <= 247;
  tv_volatile : durability (v_rosQos t) = Volatile;
  tv_input : 0 < in_width (input t) <= maxWidth l /\ 0 < in_height (input t) <= maxHeight l /\
             0 < framerate (input t) <= maxFramerate l;
  tv_encoded : 0 < encoded_width t <= maxWidth l /\ 0 < encoded_height t <= maxHeight l;
  tv_even : Z.Even (encoded_width t) /\ Z.Even (encoded_height t);
  tv_bitrate : (backend_bitrate (backend (encoder t))).1 <= bitrate (encoder t)
               <= (backend_bitrate (backend (encoder t))).2;
  tv_profile : profile (encoder t) ∈ backend_profiles (backend (encoder t));
  tv_keyframe : 0 < keyframeInterval (encoder t);
  tv_scope : in_re scope_re (subscribeScope t) }.

Lemma positiveInt_pos value path z : positiveInt value path = Ok z -> 0 < z.
Proof. intros (x & _ & _ & ?)%positiveInt_Ok. lia. Qed.

Lemma mod2_even n : (n mod 2 =? 0) = true -> Z.Even n.
Proof. intros H. apply Z.even_spec. bools. by rewrite Zeven_mod, H. Qed.

Lemma videoInput_Ok value l path i :
  videoInput value l path = Ok i ->
  0 < in_width i <= maxWidth l /\ 0 < in_height i <= maxHeight l /\ 0 < framerate i <= maxFramerate l.
Proof.
  unfold videoInput. intros H. inv_res. bools. subst i. simpl.
  apply positiveInt_pos in Hx1, Hx2, Hx3. lia.
Qed.

Lemma videoOutput_Ok value l path o :
  videoOutput value l path = Ok o ->
  0 < out_width o <= maxWidth l /\ 0 < out_height o <= maxHeight l /\
  Z.Even (out_width o) /\ Z.Even (out_height o).
Proof.
  unfold videoOutput. intros H. inv_res. subst o. simpl.
  apply positiveInt_pos in Hx0, Hx1. apply orb_false_iff in Hx3 as [Hw Hh].
  apply negb_false_iff, mod2_even in Hw, Hh. bools. split_and!; done || lia.
Qed.

Lemma videoEncoder_Ok value path e :
  videoEncoder value path = Ok e ->
  (backend_bitrate (backend e)).1 <= bitrate e <= (backend_bitrate (backend e)).2 /\
  profile e ∈ backend_profiles (backend e) /\ 0 < keyframeInterval e.
Proof.
  unfold videoEncoder. intros H. inv_res. subst e. simpl. bools.
  match goal with H : positiveInt (prop "keyframe_interval" _) _ = Ok _ |- _ => apply positiveInt_pos in H end.
  split_and!; [lia | lia | by apply dec_stable | done].
Qed.

Lemma videoBinding_Ok name value l t :
  videoBinding name value l = Ok t -> v_name t = name /\ track_valid l t.
Proof.
  unfold videoBinding. intros H. inv_res. subst t. split; [done|].
  apply str_Ok in Hx as [[= <-] Hname], Hx10 as [_ Hscope].
  apply topicName_Ok in Hx1 as (_ & Htopic). apply videoInput_Ok in Hx6. apply videoEncoder_Ok in Hx9 as (?&?&?).
  assert (Hvol : durability x3 = Volatile) by (bools; by apply dec_stable).
  destruct (is_undefined (prop "output" x0)); inv_res; subst x7.
  - apply orb_false_iff in Hx8 as [Hw Hh]. apply negb_false_iff, mod2_even in Hw, Hh.
    split; unfold encoded_width, encoded_height; simpl; tauto.
  - apply videoOutput_Ok in Hx.
    split; unfold encoded_width, encoded_height; simpl; tauto.
Qed.

Lemma distinct_sources_Ok seen l :
  distinct_sources seen l = Ok tt <->
  NoDup (map v_rosTopic l) /\ forall t, t ∈ l -> v_rosTopic t ∉ seen.
Proof.
  revert seen. induction l as [|t l IH]; intros seen; simpl.
  { split; [|done]. intros _. split; [constructor | by intros ? ?%elem_of_nil]. }
  rewrite result_bind_Ok, NoDup_cons. split.
  - intros (u & Ht & [Hn Hl]%IH). apply throw_when_Ok in Ht. case_bool_decide; [done|].
    split_and!; [|done|].
    + intros (t' & Heq & Hin)%list_elem_of_fmap. apply (Hl t' Hin). rewrite Heq. left.
    + intros t' [->|Hin]%elem_of_cons; [done|]. specialize (Hl t' Hin). set_solver.
  - intros [[Hni Hn] Hl]. exists tt. split.
    + apply throw_when_Ok. apply bool_decide_eq_false. apply Hl. left.
    + apply IH. split; [done|]. intros t' Hin [Heq|Hs]%elem_of_cons.
      * apply Hni. rewrite <- Heq. by apply (list_elem_of_fmap_2 v_rosTopic).
      * apply (Hl t'); [by right | done].
Qed.

Lemma not_exposed_Ok exposed l :
  not_exposed exposed l = Ok tt <-> forall t, t ∈ l -> v_rosTopic t ∉ exposed.
Proof.
  induction l as [|t l IH]; simpl.
  { split; [by intros _ ? ?%elem_of_nil | done]. }
  rewrite result_bind_Ok. split.
  - intros (u & Ht & Hl). apply throw_when_Ok in Ht. case_bool_decide; [done|].
    intros t' [->|Hin]%elem_of_cons; [done | by apply IH].
  - intros Hl. exists tt. split.
    + apply throw_when_Ok, bool_decide_eq_false, Hl. left.
    + apply IH. intros t' Hin. apply Hl. by right.
Qed.

Lemma videoBindings_Ok value l ts :
  videoBindings value l = Ok ts ->
  Forall (track_valid l) ts /\ 0 < zlength ts <= maxTracks l /\ NoDup (map v_rosTopic ts) /\
  map v_name ts = object_keys value.
Proof.
  unfold videoBindings. intros H. inv_res. subst ts. apply config_record_Ok in Hx as (-> & _ & _).
  match goal with H : distinct_sources _ _ = Ok ?u |- _ => destruct u; apply distinct_sources_Ok in H as [Hn _] end.
  match goal with H : mapR _ _ = Ok _ |- _ => apply mapR_Ok in H as Hm end. bools.
  pose proof (Forall2_length _ _ _ Hm) as Hlen. unfold zlength in *. rewrite Hlen in *.
  split_and!; [| lia | lia | done |].
  - clear -Hm. induction Hm; constructor; [by eapply videoBinding_Ok | done].
  - clear -Hm. induction Hm as [|n t ns ts Hb _ IH]; [done|]. simpl. rewrite IH.
    f_equal. by apply videoBinding_Ok in Hb as [? _].
Qed.

Lemma videoLimits_Ok value l :
  videoLimits value = Ok l -> 0 < maxPipelines l <= maxTracks l /\ 0 < maxSlotsPerPeer l.
Proof.
  unfold videoLimits. intros H. inv_res. bools. subst l. simpl.
  repeat match goal with H : positiveInt _ _ = Ok _ |- _ => apply positiveInt_pos in H end. lia.
Qed.

(** ** Properties *)

(** An accepted media plane is servable: every track has a volatile source,
    a geometry within the limits, an encoded picture with even axes, and a
    bitrate and profile its backend supports; sources are distinct, none is
    also exposed through the topic table, and no more encoders may run than
    there are tracks. *)
Theorem video_sound yaml source topics maxBytes v :
  parseVideoConfig yaml source topics maxBytes = Ok (Some v) ->
  Forall (track_valid (v_limits v)) (tracks v) /\
  0 < zlength (tracks v) <= maxTracks (v_limits v) /\
  0 < maxPipelines (v_limits v) <= maxTracks (v_limits v) /\
  NoDup (map v_rosTopic (tracks v)) /\
  (forall t b, t ∈ tracks v -> b ∈ topics -> v_rosTopic t <> rosTopic b).
Proof.
  unfold parseVideoConfig. intros H. inv_res.
  destruct (_ && _); inv_res; [done|]. simplify_eq. simpl.
  match goal with H : videoBindings _ _ = Ok _ |- _ => apply videoBindings_Ok in H as (Hv & Hc & Hn & _) end.
  match goal with H : videoLimits _ = Ok _ |- _ => apply videoLimits_Ok in H as [Hl _] end.
  match goal with H : not_exposed _ _ = Ok ?u |- _ => destruct u; pose proof (proj1 (not_exposed_Ok _ _) H) as He end.
  split_and!; try done; try lia.
  intros t b Ht Hb Heq. apply (He t Ht). rewrite Heq. by apply (list_elem_of_fmap_2 rosTopic).
Qed.

(** video is all or nothing: a document that passes the outer checks yields
    no media plane exactly when it has none of the three video sections, and
    with only some of them it is rejected. *)
Theorem video_all_or_nothing yaml source topics maxBytes doc :
  readDocument yaml source maxBytes = Ok doc -> is_record doc = true ->
  is_record (prop "limits" doc) = true ->
  let sections := [prop "video" doc; prop "video_tracks" doc; prop "video" (prop "limits" doc)] in
  (parseVideoConfig yaml source topics maxBytes = Ok None <-> forallb is_undefined sections = true) /\
  (existsb is_undefined sections = true -> forallb is_undefined sections = false ->
   parseVideoConfig yaml source topics maxBytes =
     Throw (ConfigError (js "video") "video, video_tracks and limits.video must be configured together")).
Proof.
  intros Hdoc Hrec Hlim sections.
  assert (Hr : forall v path, is_record v = true -> record v (object_keys v) path = Ok v).
  { intros v path Hv. apply config_record_Ok. split_and!; [done..|]. by apply Forall_forall. }
  unfold parseVideoConfig. rewrite Hdoc. simpl. rewrite (Hr doc) by done. simpl. rewrite (Hr (prop "limits" doc)) by done. simpl.
  unfold sections. simpl.
  destruct (is_undefined (prop "video" doc)), (is_undefined (prop "video_tracks" doc)),
    (is_undefined (prop "video" (prop "limits" doc))); simpl; (split; [split|]); try done.
  intros H. by inv_res.
Qed.

(** ** A concrete media plane *)

Definition num (n : Z) : jsval := VNum (of_Z n).
Definition fields_val (fields : list (string * jsval)) : jsval :=
  obj (map (fun f => (js f.1, f.2)) fields).
Definition demo_track : jsval := fields_val
  [("ros_topic", VStr (js "/camera")); ("ros_type", VStr (js "sensor_msgs/msg/Image"));
   ("ros_qos", fields_val [("reliability", VStr (js "best_effort")); ("durability", VStr (js "volatile"));
     ("history", VStr (js "keep_last")); ("depth", num 1)]%string);
   ("input", fields_val [("encoding", VStr (js "rgb8")); ("width", num 1281); ("height", num 720);
     ("framerate", num 30)]%string);
   ("output", fields_val [("width", num 640); ("height", num 360)]%string);
   ("encoder", fields_val [("codec", VStr (js "h264")); ("backend", VStr (js "openh264"));
     ("bitrate", num 64000); ("keyframe_interval", num 30); ("profile", VStr (js "constrained_baseline"))]%string);
   ("access", fields_val [("subscribe_scope", VStr (js "watch"))]%string)]%string.
Definition demo_video_limits : jsval := fields_val
  [("max_tracks", num 2); ("max_pipelines", num 1); ("max_slots_per_peer", num 1);
   ("max_width", num 1920); ("max_height", num 1080); ("max_framerate", num 30)]%string.
Definition demo_settings : jsval := fields_val
  [("start_timeout_ms", num 5000); ("stop_grace_ms", num 5000); ("retry_min_interval_ms", num 5000);
   ("pli_min_interval_ms", num 200)]%string.
Definition demo_video (sections : list (string * jsval)) (source : jsstr) : option jsval :=
  Some (fields_val (("limits"%string, fields_val [("video"%string, demo_video_limits)]) :: sections)).
Definition demo_full : list (string * jsval) :=
  [("video", demo_settings); ("video_tracks", fields_val [("front", demo_track)]%string)]%string.

Lemma video_sound_witness :
  exists v, parseVideoConfig (demo_video demo_full) (js "x") [] 1024 = Ok (Some v) /\
    Forall (track_valid (v_limits v)) (tracks v) /\ map encoded_width (tracks v) = [640].
Proof.
  destruct (parseVideoConfig (demo_video demo_full) (js "x") [] 1024) as [[v|]|e] eqn:Hv;
    [|vm_compute in Hv; discriminate..].
  exists v. split; [reflexivity|].
  destruct (video_sound (demo_video demo_full) (js "x") [] 1024 v Hv) as (H & _).
  split; [exact H|]. vm_compute in Hv. injection Hv as <-. reflexivity.
Defined.

Lemma video_all_or_nothing_witness :
  parseVideoConfig (demo_video []) (js "x") [] 1024 =
    Throw (ConfigError (js "video") "video, video_tracks and limits.video must be configured together").
Proof.
  apply (video_all_or_nothing (demo_video []) (js "x") [] 1024 (fields_val
    [("limits"%string, fields_val [("video"%string, demo_video_limits)])])).
  - reflexivity.
  - reflexivity.
  - reflexivity.
  - reflexivity.
  - reflexivity.
Defined.
