(* ===== verification/CodecTypes.v ===== *)
(** * Codec descriptors

    [codec/types.d.ts]: the explicit type descriptors and the resource limits
    of a codec.  Lengths and limits are the integers the validated numbers
    denote. *)

From S2P Require Import Prelude Values.

(** Fixed and bounded sequence lengths; when both are given both must hold. *)
Record LengthBounds := { length : option Z; maxLength : option Z }.

Inductive Field :=
| FBoolean
| FString (bounds : LengthBounds)
| FInteger (bits : Z) (signed : bool)
| FFloat (bits : Z)
| FBytes (bounds : LengthBounds)
| FArray (bounds : LengthBounds) (element : Field)
| FObject (fields : list (jsstr * Field)).

Record CodecOptions := {
  maxDepth : Z; maxArrayLength : Z; maxStringBytes : Z; maxByteLength : Z; maxNodes : Z;
  allowNonFinite : bool }.

(** Induction over descriptors, with the hypothesis for every member of an object. *)
Lemma Field_ind' (P : Field -> Prop) :
  P FBoolean -> (forall b, P (FString b)) -> (forall n s, P (FInteger n s)) ->
  (forall n, P (FFloat n)) -> (forall b, P (FBytes b)) ->
  (forall b e, P e -> P (FArray b e)) ->
  (forall fields, Forall (fun f => P f.2) fields -> P (FObject fields)) ->
  forall f, P f.
Proof.
  intros H1 H2 H3 H4 H5 H6 H7. fix IH 1. intros [|b|n s|n|b|b e|fields]; [exact H1 | apply H2 | apply H3 | apply H4 | apply H5 | apply H6, IH |].
  apply H7. induction fields as [|[k f] fields IHl]; constructor; [apply IH | exact IHl].
Qed.

(** The values JSON can carry: what [encode] may return. *)
Fixpoint json (v : jsval) : bool :=
  match v with
  | VBool _ => true
  | VNum x => match x with Floats.SpecFloat.S754_zero _ | Floats.SpecFloat.S754_finite _ _ _ => true | _ => false end
  | VStr _ => true
  | VArr slots extra =>
      Nat.eqb extra 0 && (fix all l := match l with
        | [] => true
        | (k, v) :: l => (match k with DataSlot => true | _ => false end) && json v && all l
        end) slots
  | VObj ObjectProto props =>
      (fix all l := match l with
        | [] => true
        | (StringKey _, DataProp, v) :: l => json v && all l
        | _ => false
        end) props
  | _ => false
  end.

Lemma json_arr l : json (arr l) = forallb json l.
Proof. unfold arr. simpl. induction l as [|v l IH]; simpl; [done|]. by rewrite IH. Qed.
Lemma json_obj l : json (obj l) = forallb (fun kv => json kv.2) l.
Proof. unfold obj. simpl. induction l as [|[k v] l IH]; simpl; [done|]. by rewrite IH. Qed.
