(* ===== verification/CodecScalars.v ===== *)
(** * Scalar conversion

    [codec/scalars.ts]: booleans, strings, integers, floats and bytes between
    their native form and the wire. *)

From S2P Require Import Prelude JsNumber JsString Regex Values Base64 CodecTypes.

(** [requireValue(condition, reason)]. *)
Definition invalid (reason : string) : js_error := TypeError ("Invalid codec value: " ++ reason).
Definition requireValue (condition : bool) (reason : string) : result unit :=
  require condition (invalid reason).

(** [x === undefined || test x] *)
Definition unless_given (x : option Z) (test : Z -> bool) : bool :=
  match x with Some n => test n | None => true end.

Definition checkLength (size : Z) (field : LengthBounds) (limit : Z) : result unit :=
  requireValue (size <=? limit) "resource length limit";;
  requireValue (unless_given (length field) (fun n => size =? n)) "fixed length";;
  requireValue (unless_given (maxLength field) (fun n => size <=? n)) "bounded length".

(** [/^(0|-?[1-9][0-9]* )$/] (without the blank) *)
Definition decimal_re : re :=
  RAlt (rlit "0") (RCat (ropt (rlit "-")) (RCat (RCls (between 49 57)) (RStar (RCls digit)))).

Definition int_min (bits : Z) (signed : bool) : Z := if signed then - 2 ^ (bits - 1) else 0.
Definition int_max (bits : Z) (signed : bool) : Z := if signed then 2 ^ (bits - 1) - 1 else 2 ^ bits - 1.

(** The integer a value stands for, before the range check. *)
Definition parse_integer (bits : Z) (value : jsval) (encode : bool) : result Z :=
  if bits =? 64 then
    if encode then
      match value with VBigInt z => Ok z | _ => Throw (invalid "64-bit integer type") end
    else
      match value with
      | VStr s =>
          requireValue (zlength s <=? 20) "64-bit decimal length";;
          requireValue (matches decimal_re s) "canonical decimal";;
          Ok (js_to_Z s)
      | _ => Throw (invalid "64-bit decimal length")
      end
  else
    match value with
    | VNum x => of_option (invalid "integer type") (to_Z x)
    | _ => Throw (invalid "integer type")
    end.

Definition integer (bits : Z) (signed : bool) (value : jsval) (encode : bool) : result jsval :=
  parsed ← parse_integer bits value encode;
  requireValue ((int_min bits signed <=? parsed) && (parsed <=? int_max bits signed)) "integer range";;
  if negb (bits =? 64) then Ok (VNum (of_Z parsed))
  else Ok (if encode then VStr (Z_to_js parsed) else VBigInt parsed).

(** [Number(tag)] and [String(x)] of the nonfinite numbers. *)
Definition float_tags : list (jsstr * number) :=
  [(js "NaN", NaN); (js "Infinity", Infinity); (js "-Infinity", NegInfinity)].
Definition float_tag (s : jsstr) : option number :=
  match find (fun t => bool_decide (t.1 = s)) float_tags with Some t => Some t.2 | None => None end.
Definition tag_of (x : number) : jsstr :=
  match x with
  | S754_infinity true => js "-Infinity" | S754_infinity false => js "Infinity" | _ => js "NaN"
  end.

Definition floating (bits : Z) (value : jsval) (encode allow : bool) : result jsval :=
  match value with
  | VStr s =>
      if encode then Throw (invalid "float type")
      else match float_tag s with
           | Some x => requireValue allow "float tag";; Ok (VNum x)
           | None => Throw (invalid "float tag")
           end
  | VNum x =>
      if negb (is_finite x) then
        requireValue (encode && allow) "non-finite float";; Ok (VStr (tag_of x))
      else
        let result := if bits =? 32 then fround x else x in
        requireValue (is_finite result) "float32 overflow";;
        Ok (VNum result)
  | _ => Throw (invalid "float type")
  end.

Definition bytes (field : LengthBounds) (value : jsval) (encode : bool) (limit : Z) : result jsval :=
  if encode then
    match value with
    | VBytes bs => checkLength (zlength bs) field limit;; Ok (VStr (to_base64 bs))
    | _ => Throw (invalid "byte array type")
    end
  else
    match value with
    | VStr s =>
        requireValue (zlength s <=? 4 * ((limit + 2) / 3)) "encoded byte limit";;
        requireValue (matches b64_re s) "base64 syntax";;
        let decoded := from_base64 s in
        requireValue (bool_decide (to_base64 decoded = s)) "canonical base64";;
        checkLength (zlength decoded) field limit;;
        Ok (VBytes decoded)
    | _ => Throw (invalid "base64 type")
    end.

(** [scalar]; containers are handled by the traversal. *)
Definition scalar (field : Field) (value : jsval) (encode : bool) (o : CodecOptions) : result jsval :=
  match field with
  | FBoolean =>
      match value with VBool _ => Ok value | _ => Throw (invalid "boolean type") end
  | FString bounds =>
      match value with
      | VStr s =>
          requireValue (negb (unpaired_surrogate s)) "unpaired surrogate";;
          checkLength (byteLength s) bounds (maxStringBytes o);;
          Ok value
      | _ => Throw (invalid "string type")
      end
  | FInteger bits signed => integer bits signed value encode
  | FFloat bits => floating bits value encode (allowNonFinite o)
  | FBytes bounds => bytes bounds value encode (maxByteLength o)
  | FArray _ _ | FObject _ => Ok VUndefined
  end.
