(* ===== verification/CodecSchema.v ===== *)
(** * Schemas

    [codec/schema.ts]: descriptors and options are validated and copied before
    any payload is seen. *)

From S2P Require Import Prelude JsNumber JsString JsMap Regex Values Base64 CodecTypes CodecScalars.

(** [record(value)]: the own properties of a plain object. *)
Definition record (value : jsval) : result (list (prop_key * prop_kind * jsval)) :=
  match value with
  | VObj proto props =>
      requireValue (bool_decide (proto <> OtherProto)) "object prototype";;
      (fix each l : result unit :=
         match l with
         | [] => Ok tt
         | (key, kind, _) :: l =>
             requireValue (match key with StringKey _ => true | SymbolKey => false end) "symbol key";;
             requireValue (match kind with DataProp => true | _ => false end) "object data property";;
             each l
         end) props;;
      Ok props
  | VBytes _ => Throw (invalid "object prototype")
  | _ => Throw (invalid "object type")
  end.

(** One of the two bounds of [lengths]. *)
Definition length_bound (value : jsval) : result (option Z) :=
  match value with
  | VUndefined => Ok None
  | VNum x =>
      match to_Z x with
      | Some n => requireValue ((Z.abs n <=? MAX_SAFE_INTEGER) && (0 <=? n)) "schema length";; Ok (Some n)
      | None => Throw (invalid "schema length")
      end
  | _ => Throw (invalid "schema length")
  end.

Definition lengths (field : jsval) : result LengthBounds :=
  n ← length_bound (prop "length" field);
  m ← length_bound (prop "maxLength" field);
  requireValue (match n, m with Some n, Some m => n <=? m | _, _ => true end) "schema length conflict";;
  Ok {| length := n; maxLength := m |}.

(** ** Options *)

Definition default_options : list (jsstr * jsval) :=
  [(js "maxDepth", VNum (of_Z 32)); (js "maxArrayLength", VNum (of_Z 4096));
   (js "maxStringBytes", VNum (of_Z 16384)); (js "maxByteLength", VNum (of_Z 16384));
   (js "maxNodes", VNum (of_Z 32768)); (js "allowNonFinite", VBool true)].

(** [{ ...defaults, ...overrides }]: overridden keys keep their place, new keys
    follow; keys that are array indices come first in property order. *)
Definition merge (defaults : jsmap jsstr jsval) (props : list (prop_key * prop_kind * jsval)) :
  jsmap jsstr jsval :=
  foldl (fun m p => match p.1.1 with StringKey k => mset k p.2 m | SymbolKey => m end) defaults props.
Definition index_key (k : jsstr) : bool :=
  matches (RAlt (rlit "0") (RCat (RCls (between 49 57)) (rupto 9 (RCls digit)))) k
  && (js_to_Z k <? 2 ^ 32 - 1).
Definition property_order (m : jsmap jsstr jsval) : jsmap jsstr jsval :=
  filter (fun kv => index_key kv.1 = true) m ++ filter (fun kv => index_key kv.1 = false) m.

Definition check_option (k : jsstr) (v : jsval) : result unit :=
  requireValue (mhas k default_options) "unknown codec option";;
  if decide (k = js "allowNonFinite")
  then requireValue (match v with VBool _ => true | _ => false end) "non-finite option"
  else requireValue (match v with
                     | VNum x => is_safe_integer x && match to_Z x with Some z => 0 <? z | None => false end
                     | _ => false end) "positive codec limit".

(** The integer and boolean of a checked option. *)
Definition limit_of (k : string) (m : jsmap jsstr jsval) : Z :=
  match mget (js k) m with Some (VNum x) => default 0 (to_Z x) | _ => 0 end.
Definition flag_of (k : string) (m : jsmap jsstr jsval) : bool :=
  match mget (js k) m with Some (VBool b) => b | _ => false end.

Definition codecOptions (overrides : jsval) : result CodecOptions :=
  props ← record overrides;
  let options := merge default_options props in
  mapR (fun kv => check_option kv.1 kv.2) (property_order options);;
  Ok {| maxDepth := limit_of "maxDepth" options; maxArrayLength := limit_of "maxArrayLength" options;
        maxStringBytes := limit_of "maxStringBytes" options;
        maxByteLength := limit_of "maxByteLength" options;
        maxNodes := limit_of "maxNodes" options; allowNonFinite := flag_of "allowNonFinite" options |}.

(** ** Descriptors *)

(** [requireValue(depth <= maxDepth && ++nodes <= maxNodes, reason)]; the node
    count is the state. *)
Definition count_node (deep : bool) (limit : Z) (reason : string) : ST Z unit :=
  if deep then modify (fun n => n + 1);; n ← get; lift (requireValue (n <=? limit) reason)
  else mthrow (invalid reason).

Definition integer_bits (v : jsval) : option Z :=
  match v with
  | VNum x => match to_Z x with
              | Some n => if bool_decide (n ∈ [8; 16; 32; 64]) then Some n else None
              | None => None end
  | _ => None
  end.

(** [visit(field, depth)] of [snapshotSchema], with [fuel = maxDepth + 1 - depth]:
    at zero the depth exceeds the limit. *)
Fixpoint snapshot_visit (fuel : nat) (nodes : Z) (field : jsval) : ST Z Field :=
  match fuel with
  | O => mthrow (invalid "schema complexity")
  | S fuel =>
      count_node true nodes "schema complexity";;
      lift (record field);;
      let kind := prop "kind" field in
      if is_str "boolean" kind then mret FBoolean
      else if is_str "string" kind then b ← lift (lengths field); mret (FString b)
      else if is_str "integer" kind then
        match integer_bits (prop "bits" field), prop "signed" field with
        | Some n, VBool s => mret (FInteger n s)
        | _, _ => mthrow (invalid "integer schema")
        end
      else if is_str "float" kind then
        match integer_bits (prop "bits" field) with
        | Some n => if (n =? 32) || (n =? 64) then mret (FFloat n) else mthrow (invalid "float schema")
        | None => mthrow (invalid "float schema")
        end
      else if is_str "bytes" kind then b ← lift (lengths field); mret (FBytes b)
      else if is_str "array" kind then
        b ← lift (lengths field);
        e ← snapshot_visit fuel nodes (prop "element" field);
        mret (FArray b e)
      else if is_str "object" kind then
        props ← lift (record (prop "fields" field));
        fs ← mapS (fun p => c ← snapshot_visit fuel nodes p.2;
                            mret (match p.1.1 with StringKey k => k | SymbolKey => [] end, c)) props;
        mret (FObject fs)
      else mthrow (invalid "unknown schema kind")
  end.

Definition snapshotSchema (input : jsval) (o : CodecOptions) : result Field :=
  (snapshot_visit (Z.to_nat (maxDepth o + 1)) (maxNodes o) input 0).1.
