(* ===== verification/Json.v ===== *)
(** * JSON and UTF-8

    The built-ins the wire protocol uses: [TextDecoder] with [fatal],
    [JSON.parse] and [JSON.stringify], on values without accessors or [toJSON]
    methods.  Numbers are read and written exactly as ECMAScript prescribes:
    the nearest double of the decimal, and the shortest decimal that reads back
    as the double. *)

From S2P Require Import Prelude JsNumber JsString JsMap Regex Values CodecTypes CodecSchema.

(** ** UTF-8 *)

Definition continuation (b : Z) : bool := (0x80 <=? b) && (b <=? 0xBF).

(** A code point as UTF-16 code units. *)
Definition utf16 (c : Z) : jsstr :=
  if c <? 0x10000 then [c] else [0xD800 + (c - 0x10000) / 1024; 0xDC00 + (c - 0x10000) mod 1024].

Fixpoint utf8_decode (bs : list Z) : option jsstr :=
  match bs with
  | [] => Some []
  | a :: bs1 =>
      if a <? 0x80 then cons a <$> utf8_decode bs1
      else match bs1 with
      | [] => None
      | b :: bs2 =>
          if negb (continuation b) then None
          else if (0xC2 <=? a) && (a <=? 0xDF) then
            cons ((a - 0xC0) * 64 + (b - 0x80)) <$> utf8_decode bs2
          else match bs2 with
          | [] => None
          | c :: bs3 =>
              if negb (continuation c) then None
              else if (0xE0 <=? a) && (a <=? 0xEF) then
                let p := (a - 0xE0) * 4096 + (b - 0x80) * 64 + (c - 0x80) in
                if (p <? 0x800) || ((0xD800 <=? p) && (p <=? 0xDFFF)) then None
                else cons p <$> utf8_decode bs3
              else match bs3 with
              | [] => None
              | d :: bs4 =>
                  let p := (a - 0xF0) * 262144 + (b - 0x80) * 4096 + (c - 0x80) * 64 + (d - 0x80) in
                  if negb (continuation d) || (a <? 0xF0) || (0xF4 <? a) || (p <? 0x10000) || (0x10FFFF <? p)
                  then None else app (utf16 p) <$> utf8_decode bs4
              end
          end
      end
  end.

(** [new TextDecoder('utf-8', { fatal: true }).decode(bytes)]: a leading byte
    order mark is dropped. *)
Definition text_decode (bs : list Z) : result jsstr :=
  of_option (TypeError "invalid utf-8")
    (utf8_decode (match bs with 0xEF :: 0xBB :: 0xBF :: bs => bs | _ => bs end)).

(** ** Decimal numbers *)

(** The nearest double of [m * 10^e]; beyond [10^401] it overflows and below
    [10^-400] it vanishes, whatever the digits. *)
Definition decimal (s : bool) (m e : Z) : number :=
  match m with
  | Zpos p =>
      if 400 <? e then S754_infinity s
      else if zlength (Z_digits m) + e <? -400 then S754_zero s
      else if 0 <=? e then binary_normalize prec emax (cond_Zopp s (m * 10 ^ e)) 0 s
      else match 10 ^ (- e) with
           | Zpos q => SFdiv prec emax (S754_finite s p 0) (S754_finite false q 0)
           | _ => NaN
           end
  | _ => S754_zero s
  end.

(** The [n] with [10^(n-1) <= num/den < 10^n], near an estimate. *)
Definition decimal_point (num den : Z) : Z :=
  let est := (Z.log2 num - Z.log2 den) * 30103 / 100000 in
  let below n := if 0 <=? n then num <? 10 ^ n * den else num * 10 ^ (- n) <? den in
  if below (est - 1) then est - 1 else if below est then est
  else if below (est + 1) then est + 1 else est + 2.

(** [k] digits of [num/den < 10^n], rounded to the nearest. *)
Definition k_digits (num den n k : Z) : Z :=
  let e := k - n in
  let a := if 0 <=? e then num * 10 ^ e else num in
  let b := if 0 <=? e then den else den * 10 ^ (- e) in
  (2 * a + b) / (2 * b).

Fixpoint shortest (fuel : nat) (x : number) (num den n k : Z) : Z * Z * Z :=
  let s := k_digits num den n k in
  match fuel with
  | O => (s, k, n)
  | S fuel =>
      if neqb (decimal false s (n - k)) x
      then (if 10 ^ k <=? s then (10 ^ (k - 1), k, n + 1) else (s, k, n))
      else shortest fuel x num den n (k + 1)
  end.

Definition zeros (n : Z) : jsstr := repeat 48 (Z.to_nat n).
(** [Number::toString] from the shortest digits [s], their count and the point. *)
Definition layout (s k n : Z) : jsstr :=
  let ds := Z_digits s in
  if (k <=? n) && (n <=? 21) then ds ++ zeros (n - k)
  else if (0 <? n) && (n <=? 21) then take (Z.to_nat n) ds ++ js "." ++ drop (Z.to_nat n) ds
  else if (-6 <? n) && (n <=? 0) then js "0." ++ zeros (- n) ++ ds
  else take 1 ds ++ (if 1 <? k then js "." ++ drop 1 ds else []) ++ js "e"
       ++ (if 0 <=? n - 1 then js "+" else js "-") ++ Z_digits (Z.abs (n - 1)).

Definition number_text (x : number) : jsstr :=
  match x with
  | S754_nan => js "NaN"
  | S754_infinity s => if s then js "-Infinity" else js "Infinity"
  | S754_zero _ => js "0"
  | S754_finite s m e =>
      let num := Zpos m * 2 ^ (Z.max e 0) in
      let den := 2 ^ (Z.max (- e) 0) in
      let n := decimal_point num den in
      let '(d, k, n) := shortest 16 (S754_finite false m e) num den n 1 in
      (if s then js "-" else []) ++ layout d k n
  end.

(** ** [JSON.stringify] *)

Definition hex_digit (n : Z) : Z := if n <? 10 then 48 + n else 87 + n.
Definition escape_unit (c : Z) : jsstr :=
  js "\u" ++ map (fun k => hex_digit (c / 16 ^ k mod 16)) [3; 2; 1; 0].
Definition quoted_char (c : Z) : jsstr :=
  if (c =? 34) || (c =? 92) then [92; c]
  else if c =? 8 then js "\b" else if c =? 9 then js "\t" else if c =? 10 then js "\n"
  else if c =? 12 then js "\f" else if c =? 13 then js "\r"
  else if c <? 32 then escape_unit c else [c].
(** Surrogates that are not half of a pair are escaped. *)
Fixpoint quoted (s : jsstr) : jsstr :=
  match s with
  | [] => []
  | c :: s' =>
      if high_surrogate c then
        match s' with
        | d :: s'' => if low_surrogate d then c :: d :: quoted s'' else escape_unit c ++ quoted s'
        | [] => escape_unit c
        end
      else (if low_surrogate c then escape_unit c else quoted_char c) ++ quoted s'
  end.
Definition quote (s : jsstr) : jsstr := [34] ++ quoted s ++ [34].

Fixpoint commas (l : list jsstr) : jsstr :=
  match l with [] => [] | [x] => x | x :: l => x ++ [44] ++ commas l end.

(** [None] is [undefined]. *)
Fixpoint stringify (v : jsval) : result (option jsstr) :=
  match v with
  | VUndefined | VSymbol | VFunction => Ok None
  | VNull => Ok (Some (js "null"))
  | VBool b => Ok (Some (if b then js "true" else js "false"))
  | VNum x => Ok (Some (if is_finite x then number_text x else js "null"))
  | VBigInt _ => Throw (TypeError "Do not know how to serialize a BigInt")
  | VStr s => Ok (Some (quote s))
  | VBytes bs => Ok (Some ([123] ++ commas (imap (fun i b => quote (Z_to_js (Z.of_nat i)) ++ [58] ++ Z_to_js b) bs) ++ [125]))
  | VArr slots _ =>
      parts ← (fix each l := match l with
        | [] => Ok []
        | (_, x) :: l => t ← stringify x; ts ← each l; Ok (default (js "null") t :: ts)
        end) slots;
      Ok (Some ([91] ++ commas parts ++ [93]))
  | VObj _ props =>
      parts ← (fix each l := match l with
        | [] => Ok []
        | (StringKey k, HiddenProp, _) :: l => each l
        | (StringKey k, _, x) :: l =>
            t ← stringify x; ts ← each l;
            Ok (match t with Some t => (quote k ++ [58] ++ t) :: ts | None => ts end)
        | (SymbolKey, _, _) :: l => each l
        end) props;
      Ok (Some ([123] ++ commas parts ++ [125]))
  end.

(** ** [JSON.parse] *)

Definition white (c : Z) : bool := (c =? 32) || (c =? 9) || (c =? 10) || (c =? 13).
Fixpoint skip (s : jsstr) : jsstr :=
  match s with c :: s' => if white c then skip s' else s | [] => [] end.

Definition hex_value (c : Z) : option Z :=
  if between 48 57 c then Some (c - 48) else if between 97 102 c then Some (c - 87)
  else if between 65 70 c then Some (c - 55) else None.
Definition hex4 (a b c d : Z) : option Z :=
  match hex_value a, hex_value b, hex_value c, hex_value d with
  | Some a, Some b, Some c, Some d => Some (((a * 16 + b) * 16 + c) * 16 + d)
  | _, _, _, _ => None
  end.
Definition simple_escape (c : Z) : option Z :=
  if (c =? 34) || (c =? 92) || (c =? 47) then Some c
  else if c =? 98 then Some 8 else if c =? 102 then Some 12 else if c =? 110 then Some 10
  else if c =? 114 then Some 13 else if c =? 116 then Some 9 else None.

(** The rest of a string after its opening quote. *)
Fixpoint string_body (s : jsstr) : option (jsstr * jsstr) :=
  match s with
  | [] => None
  | c :: s' =>
      if c =? 34 then Some ([], s')
      else if c =? 92 then
        match s' with
        | [] => None
        | e :: s'' =>
            if e =? 117 then
              match s'' with
              | a :: b :: c :: d :: rest =>
                  u ← hex4 a b c d; '(t, r) ← string_body rest; Some (u :: t, r)
              | _ => None
              end
            else u ← simple_escape e; '(t, r) ← string_body s''; Some (u :: t, r)
        end
      else if c <? 32 then None
      else '(t, r) ← string_body s'; Some (c :: t, r)
  end.

(** The rest after a character, or after a literal. *)
Definition eat (c : Z) (s : jsstr) : option jsstr :=
  match s with c' :: s' => if c' =? c then Some s' else None | [] => None end.
Fixpoint eats (l s : jsstr) : option jsstr :=
  match l with [] => Some s | c :: l => s ← eat c s; eats l s end.

(** The digits at the head. *)
Fixpoint digit_run (s : jsstr) : jsstr * jsstr :=
  match s with
  | c :: s' => if digit c then let '(ds, r) := digit_run s' in (c :: ds, r) else ([], s)
  | [] => ([], [])
  end.
Definition digits1 (s : jsstr) : option (jsstr * jsstr) :=
  let '(ds, r) := digit_run s in if bool_decide (ds = []) then None else Some (ds, r).
Definition number_frac (s : jsstr) : option (jsstr * jsstr) :=
  match eat 46 s with Some s => digits1 s | None => Some ([], s) end.
Definition signed_exp (s : jsstr) : option (Z * jsstr) :=
  match eat 43 s, eat 45 s with
  | Some s, _ => '(ds, r) ← digits1 s; Some (digits_value ds, r)
  | None, Some s => '(ds, r) ← digits1 s; Some (- digits_value ds, r)
  | None, None => '(ds, r) ← digits1 s; Some (digits_value ds, r)
  end.
Definition number_exp (s : jsstr) : option (Z * jsstr) :=
  match eat 101 s, eat 69 s with
  | Some s, _ | None, Some s => signed_exp s
  | None, None => Some (0, s)
  end.
Definition unsigned_number (neg : bool) (s : jsstr) : option (number * jsstr) :=
  '(int, s) ← digits1 s;
  if match int with c :: _ :: _ => c =? 48 | _ => false end then None else
  '(frac, s) ← number_frac s;
  '(e, s) ← number_exp s;
  Some (decimal neg (digits_value (int ++ frac)) (e - zlength frac), s).
Definition number_literal (s : jsstr) : option (number * jsstr) :=
  match eat 45 s with Some s => unsigned_number true s | None => unsigned_number false s end.

(** Own properties in the order a JavaScript object has them: array indices
    ascending, then the others as they were added. *)
Fixpoint insert_index (kv : jsstr * jsval) (l : list (jsstr * jsval)) : list (jsstr * jsval) :=
  match l with
  | [] => [kv]
  | kv' :: l' => if js_to_Z kv.1 <? js_to_Z kv'.1 then kv :: l else kv' :: insert_index kv l'
  end.
Definition object_of (m : jsmap jsstr jsval) : jsval :=
  obj (fold_right insert_index [] (filter (fun kv => index_key kv.1 = true) m)
       ++ filter (fun kv => index_key kv.1 = false) m).

(** The recursion is on [fuel]; every call happens past a character, so the
    length of the text is enough ([json_fuel]). *)
Section parse.
Variable value : jsstr -> option (jsval * jsstr).

Fixpoint elements (fuel : nat) (acc : list jsval) (s : jsstr) : option (jsval * jsstr) :=
  match fuel with
  | O => None
  | S fuel =>
      '(v, s) ← value s;
      match eat 44 (skip s), eat 93 (skip s) with
      | Some s, _ => elements fuel (acc ++ [v]) s
      | None, Some s => Some (arr (acc ++ [v]), s)
      | None, None => None
      end
  end.
Fixpoint members (fuel : nat) (acc : jsmap jsstr jsval) (s : jsstr) : option (jsval * jsstr) :=
  match fuel with
  | O => None
  | S fuel =>
      s ← eat 34 (skip s);
      '(k, s) ← string_body s;
      s ← eat 58 (skip s);
      '(v, s) ← value s;
      match eat 44 (skip s), eat 125 (skip s) with
      | Some s, _ => members fuel (mset k v acc) s
      | None, Some s => Some (object_of (mset k v acc), s)
      | None, None => None
      end
  end.

(** The values that are not containers. *)
Definition atom (s : jsstr) : option (jsval * jsstr) :=
  match eat 34 s, eats (js "true") s, eats (js "false") s, eats (js "null") s with
  | Some s, _, _, _ => '(t, s) ← string_body s; Some (VStr t, s)
  | _, Some s, _, _ => Some (VBool true, s)
  | _, _, Some s, _ => Some (VBool false, s)
  | _, _, _, Some s => Some (VNull, s)
  | None, None, None, None => '(x, s) ← number_literal s; Some (VNum x, s)
  end.
Definition json_step (fuel : nat) (s : jsstr) : option (jsval * jsstr) :=
  match eat 123 (skip s), eat 91 (skip s) with
  | Some s, _ =>
      match eat 125 (skip s) with Some s => Some (obj [], s) | None => members fuel [] s end
  | None, Some s =>
      match eat 93 (skip s) with Some s => Some (arr [], s) | None => elements fuel [] s end
  | None, None => atom (skip s)
  end.
End parse.

Fixpoint json_value (fuel : nat) (s : jsstr) : option (jsval * jsstr) :=
  match fuel with
  | O => None
  | S fuel => json_step (json_value fuel) fuel s
  end.

Definition json_parse (s : jsstr) : result jsval :=
  match json_value (S (Datatypes.length s)) s with
  | Some (v, rest) => if bool_decide (skip rest = []) then Ok v else Throw (ErrorText (js "SyntaxError"))
  | None => Throw (ErrorText (js "SyntaxError"))
  end.

(** ** The fuel is enough *)

Abbreviation len := Datatypes.length.

Lemma skip_len s : (len (skip s) <= len s)%nat.
Proof. induction s as [|c s IH]; simpl; [done|]. destruct (white c); simpl; lia. Qed.
Lemma eat_len c s r : eat c s = Some r -> len s = S (len r).
Proof. destruct s as [|c' s]; simpl; [done|]. case_match; [|done]. by intros [= ->]. Qed.
Lemma eat_skip_len c s r : eat c (skip s) = Some r -> (len r < len s)%nat.
Proof. intros H%eat_len. pose proof (skip_len s). lia. Qed.
Lemma eats_len l : forall s r, eats l s = Some r -> (len s = len l + len r)%nat.
Proof.
  induction l as [|c l IH]; intros s r; simpl; [by intros [= ->]|].
  destruct (eat c s) as [s'|] eqn:H; simpl; [|done]. intros Hr%IH. apply eat_len in H. lia.
Qed.

(** The consumption of a sequence of readers. *)
Ltac opt_inv :=
  repeat match goal with
  | H : (?m ≫= _) = Some _ |- _ => destruct m as [?|] eqn:?; simpl in H; [|discriminate H]
  | H : context [let '(_, _) := ?p in _] |- _ => is_var p; destruct p as [? ?]
  | H : Some _ = Some _ |- _ => injection H as ? ?; subst
  | H : None = Some _ |- _ => discriminate H
  | H : context [if ?b then None else _] |- _ => destruct b eqn:?; [discriminate H|]
  end.

Lemma string_body_len n : forall s t r, (len s <= n)%nat -> string_body s = Some (t, r) -> (len r < len s)%nat.
Proof.
  induction n as [|n IH]; intros s t r Hn; [by destruct s; simpl in *; [|lia]|].
  destruct s as [|c s]; [done|]. simpl in *.
  assert (Hrec : forall s' t' r', (len s' <= len s)%nat -> string_body s' = Some (t', r') -> (len r' < S (len s))%nat).
  { intros s' t' r' Hs' H. specialize (IH s' t' r' ltac:(lia) H). lia. }
  destruct (c =? 34); [intros [= _ <-]; lia|]. destruct (c =? 92).
  - destruct s as [|e s]; [done|]. destruct (e =? 117).
    + destruct s as [|h1 [|h2 [|h3 [|h4 s]]]]; try done. intros H. opt_inv.
      eapply Hrec; [|eassumption]. simpl. lia.
    + intros H. opt_inv. eapply Hrec; [|eassumption]. simpl. lia.
  - intros H. opt_inv. eapply Hrec; [|eassumption]. done.
Qed.

Lemma digits1_len s ds r : digits1 s = Some (ds, r) -> (len r < len s)%nat.
Proof.
  unfold digits1. assert (H : len s = (len (digit_run s).1 + len (digit_run s).2)%nat).
  { induction s as [|c s IH]; [done|]. simpl. destruct (digit c); [|done].
    destruct (digit_run s) as [ds' r']. simpl in *. lia. }
  destruct (digit_run s) as [ds' r']. simpl in H. case_bool_decide; [done|]. intros [= <- <-].
  destruct ds'; simpl in *; [done | lia].
Qed.

Lemma number_literal_len s x r : number_literal s = Some (x, r) -> (len r < len s)%nat.
Proof.
  assert (Hu : forall neg s x r, unsigned_number neg s = Some (x, r) -> (len r < len s)%nat).
  { clear. intros neg s x r. unfold unsigned_number. intros H. opt_inv.
    match goal with H : digits1 _ = _ |- _ => apply digits1_len in H end.
    match goal with H : number_frac ?a = Some (_, ?b) |- _ => assert (len b <= len a)%nat as Hf end.
    { match goal with H : number_frac _ = _ |- _ => unfold number_frac in H; revert H end.
      destruct (eat 46 _) eqn:He; [|by intros [= _ <-]]. intros H%digits1_len. apply eat_len in He. lia. }
    match goal with H : number_exp ?a = Some (_, ?b) |- _ => assert (len b <= len a)%nat as He end.
    { match goal with H : number_exp _ = _ |- _ => unfold number_exp, signed_exp in H end.
      repeat match goal with H : context [match eat ?c ?t with _ => _ end] |- _ => destruct (eat c t) eqn:? end;
      opt_inv; repeat match goal with H : eat _ _ = Some _ |- _ => apply eat_len in H
        | H : digits1 _ = _ |- _ => apply digits1_len in H end; lia. }
    lia. }
  unfold number_literal. destruct (eat 45 s) eqn:He; intros H%Hu; [apply eat_len in He|]; lia.
Qed.

Lemma atom_len s v r : atom s = Some (v, r) -> (len r < len s)%nat.
Proof.
  unfold atom. intros H. destruct (eat 34 s) eqn:H1.
  { opt_inv. apply eat_len in H1. match goal with H : string_body _ = _ |- _ => eapply string_body_len in H; [|done] end. lia. }
  destruct (eats _ _) eqn:H2 in H; [opt_inv; apply eats_len in H2; simpl in H2; lia|].
  destruct (eats _ _) eqn:H3 in H; [opt_inv; apply eats_len in H3; simpl in H3; lia|].
  destruct (eats _ _) eqn:H4 in H; [opt_inv; apply eats_len in H4; simpl in H4; lia|].
  opt_inv. by eapply number_literal_len.
Qed.

Definition shortens (value : jsstr -> option (jsval * jsstr)) : Prop :=
  forall s v r, value s = Some (v, r) -> (len r < len s)%nat.

Lemma elements_len value fuel : shortens value -> forall acc, shortens (elements value fuel acc).
Proof.
  intros Hv. induction fuel as [|fuel IH]; intros acc s v r; simpl; [done|]. intros H. opt_inv.
  match goal with H : value _ = _ |- _ => apply Hv in H end.
  destruct (eat 44 _) eqn:H1; [apply IH in H; apply eat_skip_len in H1; lia|].
  destruct (eat 93 _) eqn:H2; opt_inv. apply eat_skip_len in H2. lia.
Qed.
Lemma members_len value fuel : shortens value -> forall acc, shortens (members value fuel acc).
Proof.
  intros Hv. induction fuel as [|fuel IH]; intros acc s v r; simpl; [done|]. intros H. opt_inv.
  match goal with H : value _ = _ |- _ => apply Hv in H end.
  match goal with H : string_body _ = _ |- _ => eapply string_body_len in H; [|done] end.
  repeat match goal with H : eat _ (skip _) = Some _ |- _ => apply eat_skip_len in H end.
  destruct (eat 44 _) eqn:H1; [apply IH in H; apply eat_skip_len in H1; lia|].
  destruct (eat 125 _) eqn:H2; opt_inv. apply eat_skip_len in H2. lia.
Qed.

Lemma json_value_len fuel : shortens (json_value fuel).
Proof.
  induction fuel as [|fuel IH]; intros s v r; simpl; [done|]. unfold json_step. intros H.
  destruct (eat 123 _) eqn:H1; [|destruct (eat 91 _) eqn:H2].
  - apply eat_skip_len in H1. destruct (eat 125 _) eqn:H3; [opt_inv; apply eat_skip_len in H3; lia|].
    apply members_len in H; [lia | done].
  - apply eat_skip_len in H2. destruct (eat 93 _) eqn:H3; [opt_inv; apply eat_skip_len in H3; lia|].
    apply elements_len in H; [lia | done].
  - apply atom_len in H. pose proof (skip_len s). lia.
Qed.

(** Readers that agree on the texts shorter than a bound. *)
Definition agree (n : nat) (f g : jsstr -> option (jsval * jsstr)) : Prop :=
  forall s, (len s < n)%nat -> f s = g s.

Lemma elements_fuel f g n : agree n f g -> shortens f ->
  forall a b acc s, (len s < n)%nat -> (len s <= a)%nat -> (len s <= b)%nat -> f [] = None ->
  elements f a acc s = elements g b acc s.
Proof.
  intros Hfg Hf a. induction a as [|a IH]; intros b acc s Hn Ha Hb H0.
  { destruct s; simpl in *; [|lia]. destruct b; simpl; [done|]. by rewrite <- Hfg, H0. }
  simpl. destruct b as [|b].
  { destruct s; simpl in *; [|lia]. by rewrite H0. }
  simpl. rewrite <- Hfg by done. destruct (f s) as [[v r]|] eqn:Hv; simpl; [|done].
  pose proof (Hf _ _ _ Hv). destruct (eat 44 _) eqn:He; [|done]. apply eat_skip_len in He. apply IH; lia || done.
Qed.
Lemma members_fuel f g n : agree n f g -> shortens f ->
  forall a b acc s, (len s < n)%nat -> (len s <= a)%nat -> (len s <= b)%nat ->
  members f a acc s = members g b acc s.
Proof.
  intros Hfg Hf a. induction a as [|a IH]; intros b acc s Hn Ha Hb.
  { destruct s; simpl in *; [|lia]. by destruct b. }
  destruct b as [|b]; [by destruct s; simpl in *; [|lia]|]. simpl.
  destruct (eat 34 _) eqn:H1; simpl; [|done]. apply eat_skip_len in H1.
  destruct (string_body _) as [[k s2]|] eqn:H2; simpl; [|done]. eapply string_body_len in H2; [|done].
  destruct (eat 58 _) eqn:H3; simpl; [|done]. apply eat_skip_len in H3. rewrite <- Hfg by lia.
  destruct (f _) as [[v r]|] eqn:Hv; simpl; [|done]. apply Hf in Hv.
  destruct (eat 44 _) eqn:He; [|done]. apply eat_skip_len in He. apply IH; lia.
Qed.

(** Any fuel above the length of the text reads the same value. *)
Lemma json_fuel a : forall b s, (len s < a)%nat -> (len s < b)%nat -> json_value a s = json_value b s.
Proof.
  induction a as [|a IH]; intros b s Ha Hb; [lia|]. destruct b as [|b]; [lia|]. simpl. unfold json_step.
  assert (Hfg : agree (len s) (json_value a) (json_value b)) by (intros t Ht; apply IH; lia).
  destruct (eat 123 _) eqn:H1.
  { apply eat_skip_len in H1. destruct (eat 125 _); [done|].
    eapply members_fuel; [exact Hfg | apply json_value_len | lia..]. }
  destruct (eat 91 _) eqn:H2; [|done]. apply eat_skip_len in H2. destruct (eat 93 _); [done|].
  eapply elements_fuel; [exact Hfg | apply json_value_len | lia.. | by destruct a].
Qed.
