(* ===== verification/JsonProps.v ===== *)
(** * JSON strings read back

    What [JSON.stringify] writes for a string, [JSON.parse] reads as that
    string, whatever follows; so texts that start with strings determine them. *)

From S2P Require Import Prelude JsNumber JsString JsMap Regex Values CodecTypes CodecSchema Json.

Module JsonProps.

Definition code_unit (c : Z) : Prop := 0 <= c < 65536.

Lemma hex_value_digit n : 0 <= n < 16 -> hex_value (hex_digit n) = Some n.
Proof.
  intros Hn. unfold hex_digit, hex_value, between. destruct (Z.ltb_spec n 10).
  - replace ((48 <=? 48 + n) && (48 + n <=? 57)) with true by lia. f_equal. lia.
  - replace ((48 <=? 87 + n) && (87 + n <=? 57)) with false by lia.
    replace ((97 <=? 87 + n) && (87 + n <=? 102)) with true by lia. f_equal. lia.
Qed.

Lemma hex4_escape c : code_unit c ->
  hex4 (hex_digit (c / 16 ^ 3 mod 16)) (hex_digit (c / 16 ^ 2 mod 16)) (hex_digit (c / 16 ^ 1 mod 16)) (hex_digit (c / 16 ^ 0 mod 16)) = Some c.
Proof.
  intros [H0 H1]. unfold hex4. rewrite !hex_value_digit by (apply Z.mod_pos_bound; lia).
  f_equal. change (16 ^ 3) with 4096. change (16 ^ 2) with 256. change (16 ^ 1) with 16. change (16 ^ 0) with 1.
  rewrite Z.div_1_r. Z.div_mod_to_equations. lia.
Qed.

Lemma body_escape c r : code_unit c -> string_body (escape_unit c ++ r) = '(t, r') ← string_body r; Some (c :: t, r').
Proof.
  intros Hc. unfold escape_unit. change (js "\u") with [92; 117]. cbn [map app].
  cbn [string_body]. change (92 =? 34) with false. change (92 =? 92) with true. change (117 =? 117) with true. cbv iota.
  by rewrite hex4_escape.
Qed.
Lemma body_plain c r : 32 <= c -> c <> 34 -> c <> 92 -> string_body (c :: r) = '(t, r') ← string_body r; Some (c :: t, r').
Proof.
  intros H1 H2 H3. cbn [string_body]. rewrite (proj2 (Z.eqb_neq _ _) H2), (proj2 (Z.eqb_neq _ _) H3).
  by rewrite (proj2 (Z.ltb_ge _ _)) by lia.
Qed.
Lemma body_simple e u r : e <> 117 -> simple_escape e = Some u -> string_body (92 :: e :: r) = '(t, r') ← string_body r; Some (u :: t, r').
Proof.
  intros He Hu. cbn [string_body]. change (92 =? 34) with false. change (92 =? 92) with true. cbv iota.
  rewrite (proj2 (Z.eqb_neq _ _) He), Hu. done.
Qed.
Lemma body_char c r : code_unit c -> string_body (quoted_char c ++ r) = '(t, r') ← string_body r; Some (c :: t, r').
Proof.
  intros Hc. unfold quoted_char.
  destruct ((c =? 34) || (c =? 92)) eqn:E. { apply body_simple; [lia|]. unfold simple_escape. by rewrite E. }
  apply orb_false_iff in E as [E1 E2]. bools.
  repeat match goal with |- context [if ?c =? ?k then _ else _] => destruct (Z.eqb_spec c k) as [->|]; [by apply body_simple|] end.
  destruct (Z.ltb_spec c 32); [by apply body_escape | by apply body_plain].
Qed.

Lemma string_body_quoted s r : Forall code_unit s -> string_body (quoted s ++ 34 :: r) = Some (s, r).
Proof.
  remember (List.length s) as n eqn:Hn. revert s Hn. induction (lt_wf n) as [n _ IH]. intros s -> Hs.
  destruct s as [|c s]; [done|]. apply Forall_cons in Hs as [Hc Hs]. cbn [quoted].
  destruct (high_surrogate c) eqn:Hh.
  - assert (55296 <= c) by (unfold high_surrogate, between in Hh; lia).
    destruct s as [|d s]; [by rewrite body_escape|]. destruct (low_surrogate d) eqn:Hl.
    + assert (55296 <= d) by (unfold low_surrogate, between in Hl; lia). cbn [app].
      rewrite body_plain, body_plain by lia. apply Forall_cons in Hs as [_ Hs]. by rewrite (IH (List.length s)) by (simpl; done || lia).
    + rewrite <- app_assoc, body_escape by done. by rewrite (IH (List.length (d :: s))) by (simpl; done || lia).
  - rewrite <- app_assoc. destruct (low_surrogate c); [rewrite body_escape by done | rewrite body_char by done];
      by rewrite (IH (List.length s)) by (simpl; done || lia).
Qed.

(** Two texts that start with strings. *)
Lemma quote_inj s s' r r' :
  Forall code_unit s -> Forall code_unit s' -> quote s ++ r = quote s' ++ r' -> s = s' /\ r = r'.
Proof.
  intros Hs Hs'. unfold quote. rewrite <- !app_assoc. simpl. intros [= H].
  pose proof (string_body_quoted s r Hs) as H1. pose proof (string_body_quoted s' r' Hs') as H2. rewrite H in H1. naive_solver.
Qed.
End JsonProps.
