(* ===== verification/Codec.v ===== *)
(** * The codec

    [codec/index.ts]: one traversal converts a value along its descriptor, in
    either direction, under the depth, node and length limits. *)

From S2P Require Import Prelude JsNumber JsString JsMap Regex Values Base64 CodecTypes CodecScalars CodecSchema.

(** The own keys of an array other than [length]: filled slots and extras. *)
Definition own_slots (slots : list (slot_kind * jsval)) (extra : nat) : Z :=
  zsum (fun s => match s.1 with HoleSlot => 0 | _ => 1 end) slots + Z.of_nat extra.

(** [Object.getOwnPropertyDescriptor(value, index)] with a [value]. *)
Definition data_slot (s : slot_kind * jsval) : result jsval :=
  requireValue (bool_decide (s.1 = DataSlot)) "array data property";; Ok s.2.

Section convert.
Context (o : CodecOptions) (encode : bool).

(** [visit(field, value, depth)]; the state is the number of nodes so far. *)
Fixpoint visit (field : Field) (value : jsval) (depth : Z) : ST Z jsval :=
  count_node (depth <=? maxDepth o) (maxNodes o) "payload complexity";;
  match field with
  | FArray bounds element =>
      match value with
      | VArr slots extra =>
          lift (checkLength (zlength slots) bounds (maxArrayLength o));;
          lift (requireValue (own_slots slots extra =? zlength slots) "array keys");;
          vs ← mapS (fun s => v ← lift (data_slot s); visit element v (depth + 1)) slots;
          mret (arr vs)
      | _ => mthrow (invalid "array type")
      end
  | FObject fields =>
      props ← lift (record value);
      lift (requireValue (zlength (own_keys props) =? zlength fields) "object field count");;
      kvs ← mapS (fun '(name, child) =>
        v ← lift (of_option (invalid "missing field") (prop_lookup name props));
        w ← visit child v (depth + 1);
        mret (name, w)) fields;
      mret (obj kvs)
  | _ => lift (scalar field value encode o)
  end.

Definition convert (schema : Field) (input : jsval) : result jsval := (visit schema input 0 0).1.
End convert.

Record codec := { options : CodecOptions; schema : Field }.

Definition createCodec (descriptor overrides : jsval) : result codec :=
  o ← codecOptions overrides;
  s ← snapshotSchema descriptor o;
  Ok {| options := o; schema := s |}.
Definition encode (c : codec) (native : jsval) : result jsval := convert (options c) true (schema c) native.
Definition decode (c : codec) (wire : jsval) : result jsval := convert (options c) false (schema c) wire.
