(* ===== verification/CodecProps.v ===== *)
(** * What the codec guarantees

    The wire form is JSON, decoding undoes encoding, decoded values have the
    declared type, both directions stay within the limits, and every rejection
    is a [TypeError] with a fixed reason. *)

From S2P Require Import Prelude JsNumber JsFloat32 JsString JsMap Regex Values Base64 CodecTypes CodecScalars CodecSchema Codec.

#[local] Arguments visit : simpl never.

(** ** Valid schemas *)

Fixpoint schema_ok (f : Field) : Prop :=
  match f with
  | FInteger bits _ => bits ∈ [8; 16; 32; 64]
  | FFloat bits => bits = 32 \/ bits = 64
  | FArray _ e => schema_ok e
  | FObject fields =>
      NoDup (map fst fields) /\
      (fix all l := match l with [] => True | (_, c) :: l => schema_ok c /\ all l end) fields
  | _ => True
  end.

Lemma schema_ok_object fields :
  schema_ok (FObject fields) <-> NoDup (map fst fields) /\ Forall (fun f => schema_ok f.2) fields.
Proof.
  simpl. apply and_iff_compat_l. induction fields as [|[k c] l IH]; [by rewrite Forall_nil|].
  rewrite Forall_cons. by rewrite IH.
Qed.

(** ** The steps of the traversal *)

Lemma requireValue_Ok b r u : requireValue b r = Ok u <-> b = true.
Proof. apply require_Ok. Qed.
Lemma require_step {A} (b : bool) r (f : unit -> result A) x :
  b = true -> f tt = x -> (requireValue b r ≫= f) = x.
Proof. by intros -> <-. Qed.

Lemma count_node_Ok deep limit r n u n' :
  count_node deep limit r n = (Ok u, n') <-> deep = true /\ n' = n + 1 /\ n + 1 <= limit.
Proof.
  unfold count_node. destruct deep; [|naive_solver]. unfold_st. unfold requireValue, require. simpl.
  destruct (Z.leb_spec (n + 1) limit); simpl; destruct u; naive_solver lia.
Qed.

Lemma record_Ok v props :
  record v = Ok props <->
  exists proto, v = VObj proto props /\ proto <> OtherProto /\
    Forall (fun p => exists k, p.1.1 = StringKey k /\ p.1.2 = DataProp) props.
Proof.
  destruct v as [| | | | | | | | | |proto ps]; try (split; [done | by intros (?&?&_)]).
  unfold record. rewrite result_bind_Ok. setoid_rewrite requireValue_Ok.
  assert (Hall : forall l u, (fix each l : result unit :=
      match l with
      | [] => Ok tt
      | (key, kind, _) :: l =>
          requireValue (match key with StringKey _ => true | SymbolKey => false end) "symbol key";;
          requireValue (match kind with DataProp => true | _ => false end) "object data property";;
          each l
      end) l = Ok u <-> Forall (fun p : prop_key * prop_kind * jsval =>
        exists k, p.1.1 = StringKey k /\ p.1.2 = DataProp) l).
  { induction l as [|[[k kd] w] l IH]; intros u; [destruct u; by rewrite Forall_nil|].
    rewrite Forall_cons, result_bind_Ok. setoid_rewrite requireValue_Ok. split.
    - intros (_ & Hk & H). apply result_bind_Ok in H as (_ & Hkd%requireValue_Ok & H).
      split; [|by apply (IH u)]. destruct k, kd; try done. eauto.
    - intros [(s & Hs & Hkd) Hl]. simpl in *. subst. exists tt. split; [done|]. by apply IH. }
  split.
  - intros (_ & Hp & H). apply result_bind_Ok in H as (u & Hps%Hall & [= <-]). bools. eauto.
  - intros (p' & [= <- <-] & Hp & Hps). exists tt. split; [by apply bool_decide_eq_true|].
    apply result_bind_Ok. exists tt. split; [by apply Hall | done].
Qed.

Lemma record_obj kvs : record (obj kvs) = Ok (map (fun kv => (StringKey kv.1, DataProp, kv.2)) kvs).
Proof.
  apply record_Ok. exists ObjectProto. split_and!; [done..|].
  apply Forall_map, Forall_forall. intros kv _. simpl. eauto.
Qed.

Definition data_props (kvs : list (jsstr * jsval)) : list (prop_key * prop_kind * jsval) :=
  map (fun kv => (StringKey kv.1, DataProp, kv.2)) kvs.

Lemma prop_lookup_data name kvs : prop_lookup name (data_props kvs) = mget name kvs.
Proof.
  induction kvs as [|[k v] l IH]; simpl; [done|]. by destruct (decide (name = k)).
Qed.
Lemma own_keys_data kvs : zlength (own_keys (data_props kvs)) = zlength kvs.
Proof.
  unfold own_keys. induction kvs as [|[k v] l IH]; [done|]. simpl. rewrite !zlength_cons. by rewrite <- IH.
Qed.

Lemma own_slots_data vs : own_slots (map (fun v => (DataSlot, v)) vs) 0 = zlength vs.
Proof.
  unfold own_slots. induction vs as [|v l IH]; [done|]. simpl in *. rewrite zlength_cons. lia.
Qed.

Section visit.
Context (o : CodecOptions) (enc : bool).

(** The member conversions of an object. *)
Definition member (props : list (prop_key * prop_kind * jsval)) (depth : Z) (f : jsstr * Field) :
  ST Z (jsstr * jsval) :=
  v ← lift (of_option (invalid "missing field") (prop_lookup f.1 props));
  w ← visit o enc f.2 v (depth + 1);
  mret (f.1, w).

Definition is_scalar (f : Field) : bool := match f with FArray _ _ | FObject _ => false | _ => true end.

Lemma visit_scalar_Ok f v d n w n' :
  is_scalar f = true ->
  visit o enc f v d n = (Ok w, n') <->
  (d <=? maxDepth o) = true /\ n' = n + 1 /\ n + 1 <= maxNodes o /\ scalar f v enc o = Ok w.
Proof.
  intros Hf. assert (He : visit o enc f v d = (count_node (d <=? maxDepth o) (maxNodes o) "payload complexity";;
    lift (scalar f v enc o))) by (by destruct f). rewrite He. split.
  - intros H. inv_st. apply count_node_Ok in Hy as (? & -> & ?). split_and!; assumption || reflexivity.
  - intros (Hd & -> & Hn & Hs). apply (ST_step (a := tt) (s1 := n + 1)); [by apply count_node_Ok|].
    by rewrite Hs.
Qed.

Lemma visit_array_Ok b e v d n w n' :
  visit o enc (FArray b e) v d n = (Ok w, n') <->
  exists slots extra vs, v = VArr slots extra /\ (d <=? maxDepth o) = true /\ n + 1 <= maxNodes o /\
    checkLength (zlength slots) b (maxArrayLength o) = Ok tt /\
    own_slots slots extra = zlength slots /\ w = arr vs /\
    mapS (fun s => v ← lift (data_slot s); visit o enc e v (d + 1)) slots (n + 1) = (Ok vs, n').
Proof.
  unfold visit at 1. fold (visit o enc). split.
  - intros H. inv_st. apply count_node_Ok in Hy as (Hd & -> & Hn). destruct v as [| | | | | | | | |slots extra|]; try done.
    inv_st. match goal with H : checkLength _ _ _ = Ok ?u |- _ => destruct u end.
    match goal with H : requireValue _ _ = Ok _ |- _ => apply requireValue_Ok, Z.eqb_eq in H end.
    eexists _, _, _. split_and!; first [eassumption | reflexivity].
  - intros (slots & extra & vs & -> & Hd & Hn & Hc & Ho & -> & Hm).
    apply (ST_step (a := tt) (s1 := n + 1)); [by apply count_node_Ok|]. apply (lift_step Hc), (lift_step (a := tt)).
    { apply requireValue_Ok. by apply Z.eqb_eq. }
    by apply (ST_step Hm).
Qed.

Lemma visit_object_Ok fields v d n w n' :
  visit o enc (FObject fields) v d n = (Ok w, n') <->
  exists props kvs, record v = Ok props /\ (d <=? maxDepth o) = true /\ n + 1 <= maxNodes o /\
    zlength (own_keys props) = zlength fields /\ w = obj kvs /\
    mapS (member props d) fields (n + 1) = (Ok kvs, n').
Proof.
  unfold visit at 1. fold (visit o enc).
  assert (Hext : forall props s, mapS (fun '(name, child) =>
      v ← lift (of_option (invalid "missing field") (prop_lookup name props));
      w ← visit o enc child v (d + 1); mret (name, w)) fields s = mapS (member props d) fields s).
  { intros props s. apply mapS_ext. by intros [k c] m. }
  split.
  - intros H. inv_st. apply count_node_Ok in Hy as (Hd & -> & Hn). apply requireValue_Ok, Z.eqb_eq in Hy1.
    rewrite Hext in Hy2. eexists _, _. split_and!; first [eassumption | reflexivity].
  - intros (props & kvs & Hp & Hd & Hn & Ho & -> & Hm).
    apply (ST_step (a := tt) (s1 := n + 1)); [by apply count_node_Ok|]. apply (lift_step Hp), (lift_step (a := tt)).
    { apply requireValue_Ok. by apply Z.eqb_eq. }
    rewrite <- Hext in Hm. by apply (ST_step Hm).
Qed.

Lemma member_Ok props d f s kw s' :
  member props d f s = (Ok kw, s') <->
  exists v w, prop_lookup f.1 props = Some v /\ visit o enc f.2 v (d + 1) s = (Ok w, s') /\ kw = (f.1, w).
Proof.
  unfold member. split.
  - intros H. inv_st. apply of_option_Ok in Hy. eauto.
  - intros (v & w & Hv & Hw & ->). apply (lift_step (a := v)); [by apply of_option_Ok|].
    by apply (ST_step Hw).
Qed.
End visit.

(** ** Normal forms *)

(** The native value decoding yields for an encoded value: small integers and
    [float32] rounded, members in descriptor order, plain containers. *)
Fixpoint norm (f : Field) (v : jsval) : jsval :=
  match f with
  | FInteger bits _ =>
      match v with
      | VNum x => match to_Z x with Some z => if bits =? 64 then v else VNum (of_Z z) | None => v end
      | _ => v
      end
  | FFloat bits =>
      match v with VNum x => VNum (if (bits =? 32) && is_finite x then fround x else x) | _ => v end
  | FArray _ e => match v with VArr slots _ => arr (map (fun s => norm e s.2) slots) | _ => v end
  | FObject fields =>
      match v with
      | VObj _ props =>
          obj (map (fun f => (f.1, norm f.2 (default VUndefined (prop_lookup f.1 props)))) fields)
      | _ => v
      end
  | _ => v
  end.

(** Byte arrays hold bytes. *)
Fixpoint bytes_ok (v : jsval) : Prop :=
  match v with
  | VBytes bs => Forall (fun b => byte b = true) bs
  | VArr slots _ =>
      (fix all l := match l with [] => True | (_, v) :: l => bytes_ok v /\ all l end) slots
  | VObj _ props =>
      (fix all l := match l with [] => True | (_, v) :: l => bytes_ok v /\ all l end) props
  | _ => True
  end.

Lemma bytes_ok_arr slots extra : bytes_ok (VArr slots extra) <-> Forall (fun s => bytes_ok s.2) slots.
Proof.
  simpl. induction slots as [|[k v] l IH]; [by rewrite Forall_nil|]. by rewrite Forall_cons, IH.
Qed.
Lemma bytes_ok_obj p props : bytes_ok (VObj p props) <-> Forall (fun s => bytes_ok s.2) props.
Proof.
  simpl. induction props as [|[k v] l IH]; [by rewrite Forall_nil|]. by rewrite Forall_cons, IH.
Qed.

Lemma bytes_ok_lookup name props v :
  Forall (fun s => bytes_ok s.2) props -> prop_lookup name props = Some v -> bytes_ok v.
Proof.
  induction 1 as [|[[[k|] kd] w] l Hw _ IH]; simpl; [done| |done].
  destruct (decide _); [by intros [= <-] | done].
Qed.

(** ** Scalars *)

(** Decimal text of a 64-bit integer. *)
Lemma decimal_text z :
  - 2 ^ 63 <= z <= 2 ^ 64 - 1 ->
  zlength (Z_to_js z) <= 20 /\ matches decimal_re (Z_to_js z) = true /\ js_to_Z (Z_to_js z) = z.
Proof.
  intros Hz. split_and!; [| |apply js_to_Z_to_js].
  - unfold Z_to_js. destruct (Z.ltb_spec z 0).
    + pose proof (Z_digits_length (- z) 19 ltac:(lia) ltac:(lia)). change (45 :: Z_digits (- z)) with ([45] ++ Z_digits (- z)).
      rewrite zlength_app. change (zlength [45]) with 1. lia.
    + apply Z_digits_length; lia.
  - assert (Hpos : forall n, 0 < n -> in_re (RCat (RCls (between 49 57)) (RStar (RCls digit))) (Z_digits n)).
    { intros n Hn. destruct (Z_digits_spec n) as (_ & Ha & [[Hl Heq]|[Hl (d&s'&Heq&Hd&_)]]); [lia| |];
        rewrite Heq in *; apply Forall_cons in Ha as [_ Ha]; apply in_cat_inv.
      - exists [48 + n], []. split_and!; [done | apply in_cls_inv; eexists; split; [done|]; unfold between; apply andb_true_iff; lia | constructor].
      - exists [d], s'. split_and!; [done | apply in_cls_inv; eexists; split; [done|]; unfold between; apply andb_true_iff; lia |].
        by apply in_star_cls. }
    apply matches_spec. unfold decimal_re, Z_to_js. destruct (Z.ltb_spec z 0).
    + apply in_alt_inv. right. apply in_cat_inv. exists [45], (Z_digits (- z)).
      split_and!; [done | apply matches_spec; reflexivity | apply Hpos; lia].
    + destruct (Z.eq_dec z 0) as [->|]; [apply matches_spec; reflexivity|].
      apply in_alt_inv. right. apply in_cat_inv. exists [], (Z_digits z).
      split_and!; [done | apply matches_spec; reflexivity | apply Hpos; lia].
Qed.

Lemma int_range_64 s z : int_min 64 s <= z <= int_max 64 s -> - 2 ^ 63 <= z <= 2 ^ 64 - 1.
Proof. unfold int_min, int_max. destruct s; lia. Qed.
Lemma int_range_small bits s z :
  bits ∈ [8; 16; 32; 64] -> bits <> 64 -> int_min bits s <= z <= int_max bits s ->
  Z.abs z <= MAX_SAFE_INTEGER.
Proof.
  unfold int_min, int_max, MAX_SAFE_INTEGER. rewrite !elem_of_cons, elem_of_nil.
  intros [->|[->|[->|[->|[]]]]] Hne; try done; destruct s; lia.
Qed.

Lemma integer_roundtrip bits s v w :
  bits ∈ [8; 16; 32; 64] -> integer bits s v true = Ok w ->
  integer bits s w false = Ok (norm (FInteger bits s) v) /\
  integer bits s (norm (FInteger bits s) v) true = Ok w /\ json w = true.
Proof.
  intros Hb. unfold integer. intros H. inv_res. apply requireValue_Ok in Hx0 as Hr.
  pose proof (proj1 (andb_true_iff _ _) Hr) as [Hr1%Z.leb_le Hr2%Z.leb_le].
  unfold parse_integer in *. destruct (Z.eqb_spec bits 64) as [->|Hne].
  - destruct v; try done. injection Hx as ->. simpl in H. injection H as <-. simpl.
    pose proof (int_range_64 s x ltac:(lia)) as Hz. destruct (decimal_text x Hz) as (Hl & Hm & Hj).
    rewrite (proj2 (Z.leb_le _ _) Hl), Hm, Hj. simpl. by rewrite Hr.
  - destruct v as [| | |y| | | | | | |]; try done. apply of_option_Ok in Hx. simpl in H. injection H as <-.
    pose proof (int_range_small bits s x Hb Hne ltac:(lia)) as Hs.
    simpl. rewrite Hx, (proj2 (Z.eqb_neq bits 64)) by done. simpl. rewrite to_Z_of_Z by done. simpl.
    rewrite Hr. split_and!; [done..|]. pose proof (of_Z_finite x Hs). by destruct (of_Z x).
Qed.

Lemma float_tag_of x : is_finite x = false -> float_tag (tag_of x) = Some x.
Proof. by destruct x as [|[]| |]. Qed.

Lemma floating_roundtrip bits v w allow :
  floating bits v true allow = Ok w ->
  floating bits w false allow = Ok (norm (FFloat bits) v) /\
  floating bits (norm (FFloat bits) v) true allow = Ok w /\ json w = true.
Proof.
  destruct v as [| | |x| | | | | | |]; simpl; try done. destruct (is_finite x) eqn:Hf; simpl.
  - intros H. inv_res. apply requireValue_Ok in Hx. subst w. rewrite andb_true_r. simpl. rewrite Hx. simpl.
    assert (Hi : (if bits =? 32 then fround (if bits =? 32 then fround x else x)
                  else (if bits =? 32 then fround x else x)) = (if bits =? 32 then fround x else x)).
    { destruct (bits =? 32); [apply fround_idem | done]. }
    rewrite Hi, Hx. simpl. split_and!; [done..|]. by destruct (if bits =? 32 then _ else _).
  - intros H. inv_res. apply requireValue_Ok in Hx. subst w. rewrite andb_false_r. simpl. rewrite Hf.
    rewrite float_tag_of by done. simpl. rewrite Hx. done.
Qed.

Lemma checkLength_Ok size b limit u :
  checkLength size b limit = Ok u <->
  size <= limit /\ (forall n, length b = Some n -> size = n) /\ (forall n, maxLength b = Some n -> size <= n).
Proof.
  unfold checkLength, unless_given. destruct u. split.
  - intros H. apply result_bind_Ok in H as (_ & Hl%requireValue_Ok & H).
    apply result_bind_Ok in H as (_ & H1%requireValue_Ok & H2%requireValue_Ok). bools.
    split_and!; [done| |]; intros n Hn; rewrite Hn in *; bools; lia.
  - intros (Hl & H1 & H2). apply require_step; [by apply Z.leb_le|].
    apply require_step; [destruct (length b); [apply Z.eqb_eq; auto | done]|].
    apply requireValue_Ok. destruct (maxLength b); [apply Z.leb_le; auto | done].
Qed.

Lemma bytes_roundtrip b v w limit :
  bytes_ok v -> bytes b v true limit = Ok w ->
  bytes b w false limit = Ok v /\ json w = true.
Proof.
  intros Hv. unfold bytes. destruct v as [| | | | | | | |bs| |]; try done. intros H. inv_res.
  subst w. simpl in Hv. pose proof (from_to_base64 bs Hv) as Hft.
  assert (Hlen : zlength bs <= limit) by (by apply checkLength_Ok in Hx as (? & _)).
  split; [|done]. apply require_step.
  { rewrite to_base64_length. apply Z.leb_le. apply Z.mul_le_mono_nonneg_l; [lia|].
    apply Z.div_le_mono; lia. }
  apply require_step; [by apply matches_spec, to_base64_syntax|]. cbv zeta. rewrite Hft.
  apply require_step; [by apply bool_decide_eq_true|]. apply (bind_step Hx). done.
Qed.

Lemma scalar_roundtrip f v w o :
  is_scalar f = true -> schema_ok f -> bytes_ok v -> scalar f v true o = Ok w ->
  scalar f w false o = Ok (norm f v) /\ scalar f (norm f v) true o = Ok w /\ json w = true.
Proof.
  intros Hf Hs Hv H. destruct f as [|b|bits s|bits|b|b e|fs]; try done; simpl in *.
  - destruct v; try done. by injection H as <-.
  - destruct v; try done. assert (VStr s = w) as <- by (clear -H; by inv_res). by rewrite H.
  - by apply integer_roundtrip.
  - by apply floating_roundtrip.
  - destruct (bytes_roundtrip b v w (maxByteLength o) Hv H). done.
Qed.

Lemma elem_of_zip {A B} (l : list A) (k : list B) x y : (x, y) ∈ zip l k -> x ∈ l /\ y ∈ k.
Proof.
  revert k. induction l as [|a l IH]; intros [|b k]; simpl; try (by intros ?%elem_of_nil).
  intros [[= -> ->]|Hin]%elem_of_cons; [split; left|]. destruct (IH _ Hin). split; by right.
Qed.

(** ** Round trip *)

(** What one conversion guarantees of a value and its encoding. *)
Definition encodes (o : CodecOptions) (f : Field) (d : Z) (v w : jsval) (n n' : Z) : Prop :=
  visit o false f w d n = (Ok (norm f v), n') /\ visit o true f (norm f v) d n = (Ok w, n') /\
  json w = true.

Lemma encodes_array o b e d n slots extra vs n' :
  (d <=? maxDepth o) = true -> n + 1 <= maxNodes o ->
  checkLength (zlength slots) b (maxArrayLength o) = Ok tt ->
  Forall (fun s => forall m y m', (v ← lift (data_slot s); visit o true e v (d + 1)) m = (Ok y, m') ->
    encodes o e (d + 1) s.2 y m m') slots ->
  mapS (fun s => v ← lift (data_slot s); visit o true e v (d + 1)) slots (n + 1) = (Ok vs, n') ->
  encodes o (FArray b e) d (VArr slots extra) (arr vs) n n'.
Proof.
  intros Hd Hn Hc Hstep Hm. pose proof (mapS_length _ _ _ _ _ Hm) as Hlen.
  assert (Hz : zlength vs = zlength slots) by (unfold zlength; by rewrite Hlen).
  split_and!.
  - apply visit_array_Ok. exists (map (fun v => (DataSlot, v)) vs), 0%nat, (map (fun s => norm e s.2) slots).
    split_and!; try done.
    + unfold zlength. rewrite length_map. fold (zlength vs). by rewrite Hz.
    + rewrite own_slots_data. unfold zlength. by rewrite length_map.
    + rewrite mapS_map. eapply mapS_inverse; [|exact Hm]. eapply Forall_impl; [exact Hstep|].
      intros s Hs m y m' Hy. apply (lift_step (a := y)); [done|]. by apply (Hs m y m').
  - apply visit_array_Ok. exists (map (fun s => (DataSlot, norm e s.2)) slots), 0%nat, vs.
    split_and!; try done.
    + simpl norm. unfold arr. by rewrite map_map.
    + unfold zlength. by rewrite length_map.
    + rewrite <- (map_map (fun s => norm e s.2) (fun v => (DataSlot, v))), own_slots_data.
      unfold zlength. by rewrite !length_map.
    + eapply mapS_again; [|exact Hm]. eapply Forall_impl; [exact Hstep|].
      intros s Hs m y m' Hy. apply (lift_step (a := norm e s.2)); [done|]. by apply (Hs m y m').
  - rewrite json_arr. apply forallb_forall. intros y Hy%list_elem_of_In.
    assert (Hall : Forall (fun y => json y = true) vs); [|by rewrite Forall_forall in Hall; apply Hall].
    eapply mapS_Forall; [|exact Hm]. eapply Forall_impl; [exact Hstep|].
    intros s Hs m y' m' Hy'. by apply (Hs m y' m').
Qed.

Lemma mget_map_fst {V} (g : jsstr * V -> jsval) (l : list (jsstr * V)) f :
  NoDup (map fst l) -> f ∈ l -> mget f.1 (map (fun f => (f.1, g f)) l) = Some (g f).
Proof.
  intros Hn Hin. apply elem_mget.
  - unfold mkeys. by rewrite map_map.
  - by apply (list_elem_of_fmap_2 (fun f => (f.1, g f)) l f) in Hin.
Qed.

Lemma mapS_fst {S V} (g : jsstr * V -> ST S (jsstr * jsval)) l s ys s' :
  (forall f s y s', g f s = (Ok y, s') -> y.1 = f.1) ->
  mapS g l s = (Ok ys, s') -> map fst ys = map fst l.
Proof.
  intros Hg. revert s ys. induction l as [|f l IH]; intros s ys; [by intros [= <- _]|].
  intros (y & s1 & ys' & Hy & Hys & ->)%mapS_cons_Ok. simpl. f_equal; eauto.
Qed.

Lemma encodes_object o fields d n proto props kvs n' :
  NoDup (map fst fields) ->
  (d <=? maxDepth o) = true -> n + 1 <= maxNodes o ->
  Forall (fun f => forall m y m', member o true props d f m = (Ok y, m') ->
    encodes o f.2 (d + 1) (default VUndefined (prop_lookup f.1 props)) y.2 m m') fields ->
  mapS (member o true props d) fields (n + 1) = (Ok kvs, n') ->
  encodes o (FObject fields) d (VObj proto props) (obj kvs) n n'.
Proof.
  intros Hnd Hd Hn Hstep Hm. pose proof (mapS_length _ _ _ _ _ Hm) as Hlen.
  assert (Hfst : map fst kvs = map fst fields).
  { eapply mapS_fst; [|exact Hm]. intros f m y m' (v & w & _ & _ & ->)%member_Ok. done. }
  set (nv := fun f : jsstr * Field => norm f.2 (default VUndefined (prop_lookup f.1 props))).
  pose proof (elem_of_zip fields kvs) as Hpair.
  rewrite Forall_forall in Hstep. split_and!.
  - apply visit_object_Ok. exists (data_props kvs), (map (fun f => (f.1, nv f)) fields).
    split_and!; [apply record_obj | done..| | done |].
    { rewrite own_keys_data. unfold zlength. by rewrite Hlen. }
    rewrite <- (zip_with_fst (fun f => (f.1, nv f)) fields kvs) by done.
    eapply mapS_pairs; [|exact Hm]. intros f y [Hf Hy]%Hpair m m' Hfy.
    destruct (Hstep f Hf m y m' Hfy) as (H1 & _ & _).
    apply member_Ok in Hfy as (v & w & Hv & Hw & ->). simpl in H1.
    apply member_Ok. exists w, (nv f). split_and!; [|done..].
    rewrite prop_lookup_data. apply (elem_mget f.1 w kvs); [unfold mkeys; by rewrite Hfst | done].
  - apply visit_object_Ok. exists (data_props (map (fun f => (f.1, nv f)) fields)), kvs.
    split_and!; [apply record_obj | done..| | done |].
    { rewrite own_keys_data. unfold zlength. by rewrite length_map. }
    rewrite <- (zip_with_snd fields kvs) by done.
    eapply mapS_pairs; [|exact Hm]. intros f y [Hf Hy]%Hpair m m' Hfy.
    destruct (Hstep f Hf m y m' Hfy) as (_ & H2 & _).
    apply member_Ok in Hfy as (v & w & Hv & Hw & ->). simpl in H2.
    apply member_Ok. exists (nv f), w. split_and!; [|done..].
    rewrite prop_lookup_data. by apply (mget_map_fst nv).
  - rewrite json_obj. apply forallb_forall. intros y Hy%list_elem_of_In.
    assert (Hall : Forall (fun y => json y.2 = true) kvs); [|by rewrite Forall_forall in Hall; apply Hall].
    eapply mapS_Forall; [|exact Hm]. apply Forall_forall. intros f Hf m y' m' Hy'.
    by apply (Hstep f Hf m y' m').
Qed.

Lemma visit_encodes o f :
  schema_ok f -> forall v d n w n', bytes_ok v -> visit o true f v d n = (Ok w, n') ->
  encodes o f d v w n n'.
Proof.
  induction f as [|b|bits s|bits|b|b e IH|fields IH] using Field_ind'; intros Hs v d n w n' Hv H.
  1-5: apply visit_scalar_Ok in H as (Hd & -> & Hn & H); [|done].
  1-5: pose proof (fun Hf => scalar_roundtrip _ v w o Hf Hs Hv H) as HR;
       destruct (HR eq_refl) as (H1 & H2 & H3); clear HR;
       split_and!; [by apply visit_scalar_Ok | by apply visit_scalar_Ok | done].
  - apply visit_array_Ok in H as (slots & extra & vs & -> & Hd & Hn & Hc & Ho & -> & Hm).
    apply bytes_ok_arr in Hv. eapply encodes_array; [done..| |exact Hm].
    eapply Forall_impl; [exact Hv|]. intros [k v] Hkv m y m' Hy. inv_st.
    unfold data_slot in Hy0. inv_res. subst. by apply IH.
  - apply visit_object_Ok in H as (props & kvs & Hrec & Hd & Hn & Ho & -> & Hm).
    apply record_Ok in Hrec as (proto & -> & _ & _). apply bytes_ok_obj in Hv.
    apply schema_ok_object in Hs as [Hnd Hs]. eapply encodes_object; [done..| |exact Hm].
    rewrite !Forall_forall in *. intros f Hf m y m' (v & w & Hlook & Hw & ->)%member_Ok.
    rewrite Hlook. simpl. apply IH; [done | by apply Hs | | done].
    eapply bytes_ok_lookup; [|exact Hlook]. by apply Forall_forall.
Qed.
