(* ===== verification/CodecDecode.v ===== *)
(** * Decoded values

    What [decode] returns has the declared native type, can be encoded again,
    and both directions stay within the depth and node budgets. *)

From S2P Require Import Prelude JsNumber JsFloat32 JsString JsMap Regex Values Base64 CodecTypes CodecScalars CodecSchema Codec CodecProps.

#[local] Arguments visit : simpl never.

(** ** The native type of a descriptor *)

Fixpoint conforms (o : CodecOptions) (f : Field) (v : jsval) : Prop :=
  match f with
  | FBoolean => exists b, v = VBool b
  | FString b => exists s, v = VStr s /\ unpaired_surrogate s = false /\
      checkLength (byteLength s) b (maxStringBytes o) = Ok tt
  | FInteger bits s => exists z, int_min bits s <= z <= int_max bits s /\
      v = if bits =? 64 then VBigInt z else VNum (of_Z z)
  | FFloat bits => exists x, v = VNum x /\ (is_finite x = false -> allowNonFinite o = true) /\
      (bits = 32 -> fround x = x)
  | FBytes b => exists bs, v = VBytes bs /\ Forall (fun b => byte b = true) bs /\
      checkLength (zlength bs) b (maxByteLength o) = Ok tt
  | FArray b e => exists vs, v = arr vs /\ checkLength (zlength vs) b (maxArrayLength o) = Ok tt /\
      Forall (conforms o e) vs
  | FObject fields => exists vs, v = obj (zip (map fst fields) vs) /\
      (fix all fs vs := match fs, vs with
        | [], [] => True
        | (_, c) :: fs, v :: vs => conforms o c v /\ all fs vs
        | _, _ => False
        end) fields vs
  end.

Lemma conforms_object o fields v :
  conforms o (FObject fields) v <->
  exists vs, v = obj (zip (map fst fields) vs) /\ Forall2 (fun f v => conforms o f.2 v) fields vs.
Proof.
  simpl. apply exist_proper. intros vs. apply and_iff_compat_l.
  revert vs. induction fields as [|[k c] l IH]; intros [|v' vs]; [split; [constructor | done] | split; [done | by inversion 1].. |].
  - split.
    + intros [Hc Hl]. constructor; [done | by apply IH].
    + inversion 1; subst. split; [done | by apply IH].
Qed.

Lemma b64_value_range c : 0 <= b64_value c < 64.
Proof.
  unfold b64_value. destruct (upper c) eqn:?; [unfold upper, between in *; bools; lia|].
  destruct (lower c) eqn:?; [unfold lower, between in *; bools; lia|].
  destruct (digit c) eqn:?; [unfold digit, between in *; bools; lia|].
  destruct (c =? 43); lia.
Qed.

Lemma from_base64_bytes s : Forall (fun b => byte b = true) (from_base64 s).
Proof.
  assert (Hb : forall v1 v2 v3 v4, 0 <= v1 < 64 -> 0 <= v2 < 64 -> 0 <= v3 < 64 -> 0 <= v4 < 64 ->
    byte (v1 * 4 + v2 / 16) = true /\ byte (v2 mod 16 * 16 + v3 / 4) = true /\
    byte (v3 mod 4 * 64 + v4) = true).
  { intros. unfold byte, between. rewrite !andb_true_iff, !Z.leb_le.
    Z.to_euclidean_division_equations. lia. }
  revert s. fix IH 1. intros [|c1 [|c2 [|c3 [|c4 s]]]]; simpl; try constructor.
  destruct (Hb _ _ _ _ (b64_value_range c1) (b64_value_range c2) (b64_value_range c3) (b64_value_range c4))
    as (?&?&?).
  destruct (c4 =? PAD); [destruct (c3 =? PAD)|]; repeat (constructor; [assumption|]);
    first [apply Forall_nil; exact I | apply IH].
Qed.

(** ** Scalars *)

Lemma float_tag_not_finite s x : float_tag s = Some x -> is_finite x = false /\ fround x = x.
Proof.
  unfold float_tag, float_tags. simpl. repeat (case_bool_decide; [by intros [= <-]|]). done.
Qed.

Lemma scalar_conforms f w v o :
  is_scalar f = true -> schema_ok f -> scalar f w false o = Ok v -> conforms o f v.
Proof.
  intros Hf Hs H. destruct f as [|b|bits s|bits|b|b e|fs]; try done; simpl in *.
  - destruct w; try done. injection H as <-. eauto.
  - destruct w; try done. inv_res. destruct x0. apply requireValue_Ok in Hx. bools. subst v. eauto.
  - unfold integer in H. inv_res. apply requireValue_Ok in Hx0. bools. exists x. split; [lia|].
    destruct (bits =? 64); simpl in *; by injection H as <-.
  - destruct w as [| | |x| |s| | | | |]; simpl in *; try done.
    + destruct (is_finite x) eqn:Hfin; simpl in *; [|done]. inv_res. apply requireValue_Ok in Hx. subst v.
      eexists. split_and!; [done | congruence |]. intros ->. simpl. apply fround_idem.
    + destruct (float_tag s) as [x|] eqn:Ht; [|done]. inv_res. apply requireValue_Ok in Hx. subst v.
      destruct (float_tag_not_finite _ _ Ht). eexists. split_and!; done.
  - unfold bytes in H. destruct w; try done. inv_res. destruct x2. subst v.
    eexists. split_and!; [done | apply from_base64_bytes | done].
Qed.

(** A conforming scalar is its own normal form and can be encoded. *)
Lemma scalar_encodable f v o :
  is_scalar f = true -> schema_ok f -> conforms o f v ->
  norm f v = v /\ exists w, scalar f v true o = Ok w.
Proof.
  intros Hf Hs H. destruct f as [|b|bits s|bits|b|b e|fs]; try done; simpl in *.
  - destruct H as [b ->]. eauto.
  - destruct H as (s & -> & Hu & Hc). split; [done|]. eexists. apply require_step; [by rewrite Hu|].
    by apply (bind_step Hc).
  - destruct H as (z & Hz & ->). unfold integer, parse_integer.
    assert (Hr : (int_min bits s <=? z) && (z <=? int_max bits s) = true) by (apply andb_true_iff; lia).
    destruct (Z.eqb_spec bits 64) as [->|Hne]; [simpl; rewrite Hr; eauto|].
    rewrite (to_Z_of_Z z) by (by eapply int_range_small). simpl. rewrite Hr. eauto.
  - destruct H as (x & -> & Hal & Hfr). simpl. destruct (is_finite x) eqn:Hfin; simpl.
    + destruct (Z.eqb_spec bits 32) as [Heq|]; simpl; [rewrite (Hfr Heq)|]; rewrite Hfin; simpl; eauto.
    + rewrite Hal by done. rewrite andb_false_r. simpl. eauto.
  - destruct H as (bs & -> & _ & Hc). split; [done|]. eexists. by apply (bind_step Hc).
Qed.

(** ** Containers *)

Lemma mapS_exists {S A B C} (f : A -> ST S B) (g : B -> ST S C) l s ys s' :
  Forall (fun x => forall s y s', f x s = (Ok y, s') -> exists z, g y s = (Ok z, s')) l ->
  mapS f l s = (Ok ys, s') -> exists zs, mapS g ys s = (Ok zs, s').
Proof.
  intros Hl. revert s ys. induction Hl as [|x l Hx _ IH]; intros s ys; [intros [= <- <-]; by eexists|].
  intros (y & s1 & ys' & Hy & Hys & ->)%mapS_cons_Ok. simpl.
  destruct (Hx _ _ _ Hy) as [z Hz], (IH _ _ Hys) as [zs Hzs].
  exists (z :: zs). apply (ST_step Hz), (ST_step Hzs). done.
Qed.

(** The same with a second traversal of the same list. *)
Lemma mapS_exists_pairs {S A B C} (f : A -> ST S B) (g : A -> ST S C) l s ys s' :
  (forall x y, (x, y) ∈ zip l ys -> forall s s', f x s = (Ok y, s') -> exists z, g x s = (Ok z, s')) ->
  mapS f l s = (Ok ys, s') -> exists zs, mapS g l s = (Ok zs, s').
Proof.
  revert s ys. induction l as [|x l IH]; intros s ys Hl; [intros [= <- <-]; by eexists|].
  intros (y & s1 & ys' & Hy & Hys & ->)%mapS_cons_Ok. simpl in *.
  destruct (Hl x y ltac:(left) _ _ Hy) as [z Hz].
  destruct (IH s1 ys') as [zs Hzs]; [intros; eapply Hl; [by right | done] | done |].
  exists (z :: zs). apply (ST_step Hz), (ST_step Hzs). done.
Qed.

Lemma mapS_Forall2 {S A B} (f : A -> ST S B) (P : A -> B -> Prop) l s ys s' :
  Forall (fun x => forall s y s', f x s = (Ok y, s') -> P x y) l ->
  mapS f l s = (Ok ys, s') -> Forall2 P l ys.
Proof.
  intros Hl. revert s ys. induction Hl as [|x l Hx _ IH]; intros s ys; [intros [= <- _]; constructor|].
  intros (y & s1 & ys' & Hy & Hys & ->)%mapS_cons_Ok. constructor; eauto.
Qed.

(** What one decoding guarantees of its result. *)
Definition decodes (o : CodecOptions) (f : Field) (d : Z) (v : jsval) (n n' : Z) : Prop :=
  conforms o f v /\ norm f v = v /\ exists w, visit o true f v d n = (Ok w, n').

Lemma map_id_Forall {A} (g : A -> A) l : Forall (fun x => g x = x) l -> map g l = l.
Proof. induction 1; simpl; congruence. Qed.

Lemma decodes_array o b e d n slots vs n' :
  (d <=? maxDepth o) = true -> n + 1 <= maxNodes o ->
  checkLength (zlength slots) b (maxArrayLength o) = Ok tt ->
  Forall (fun s => forall m y m', (v ← lift (data_slot s); visit o false e v (d + 1)) m = (Ok y, m') ->
    decodes o e (d + 1) y m m') slots ->
  mapS (fun s => v ← lift (data_slot s); visit o false e v (d + 1)) slots (n + 1) = (Ok vs, n') ->
  decodes o (FArray b e) d (arr vs) n n'.
Proof.
  intros Hd Hn Hc Hstep Hm. pose proof (mapS_length _ _ _ _ _ Hm) as Hlen.
  assert (Hz : zlength vs = zlength slots) by (unfold zlength; by rewrite Hlen).
  assert (Hall : Forall (fun v => conforms o e v /\ norm e v = v) vs).
  { eapply mapS_Forall; [|exact Hm]. eapply Forall_impl; [exact Hstep|].
    intros s Hs m y m' Hy. destruct (Hs m y m' Hy) as (?&?&_). done. }
  rewrite Forall_and in Hall. destruct Hall as [Hconf Hnorm]. split_and!.
  - exists vs. split_and!; [done | by rewrite Hz | done].
  - simpl. f_equal. rewrite map_map. by apply map_id_Forall.
  - destruct (mapS_exists _ (fun v => visit o true e v (d + 1)) _ _ _ _
      ltac:(eapply Forall_impl; [exact Hstep|]; intros s Hs m y m' Hy; exact (proj2 (proj2 (Hs m y m' Hy)))) Hm)
      as [ws Hws].
    exists (arr ws). apply visit_array_Ok. exists (map (fun v => (DataSlot, v)) vs), 0%nat, ws.
    split_and!; try done.
    + unfold zlength. rewrite length_map. fold (zlength vs). by rewrite Hz.
    + rewrite own_slots_data. unfold zlength. by rewrite length_map.
    + by rewrite mapS_map.
Qed.

Lemma zip_map_r {A B C} (g : B -> C) (l : list A) k : zip l (map g k) = map (fun p => (p.1, g p.2)) (zip l k).
Proof. revert k. induction l as [|x l IH]; intros [|y k]; simpl; try done. by rewrite IH. Qed.

Lemma decodes_object o fields d n props kvs n' :
  NoDup (map fst fields) ->
  (d <=? maxDepth o) = true -> n + 1 <= maxNodes o ->
  Forall (fun f => forall m y m', member o false props d f m = (Ok y, m') ->
    decodes o f.2 (d + 1) y.2 m m') fields ->
  mapS (member o false props d) fields (n + 1) = (Ok kvs, n') ->
  decodes o (FObject fields) d (obj kvs) n n'.
Proof.
  intros Hnd Hd Hn Hstep Hm. pose proof (mapS_length _ _ _ _ _ Hm) as Hlen.
  assert (Hfst : map fst kvs = map fst fields).
  { eapply mapS_fst; [|exact Hm]. intros f m y m' (v & w & _ & _ & ->)%member_Ok. done. }
  assert (Hget : forall f y, f ∈ fields -> (f.1, y) ∈ kvs -> prop_lookup f.1 (data_props kvs) = Some y).
  { intros f y _ Hy. rewrite prop_lookup_data. apply elem_mget; [|done]. unfold mkeys. by rewrite Hfst. }
  assert (Hall : Forall2 (fun f y => y.1 = f.1 /\ conforms o f.2 y.2 /\ norm f.2 y.2 = y.2) fields kvs).
  { eapply mapS_Forall2; [|exact Hm]. eapply Forall_impl; [exact Hstep|]. intros f Hf m y m' Hy.
    destruct (Hf m y m' Hy) as (?&?&_). apply member_Ok in Hy as (v & w & _ & _ & ->). done. }
  split_and!.
  - apply conforms_object. exists (map snd kvs). split.
    + f_equal. rewrite <- Hfst. clear. induction kvs as [|[k v] l IH]; simpl; [done|]. by rewrite <- IH.
    + clear -Hall. induction Hall as [|f y l k (_&?&_) _ IH]; constructor; done.
  - simpl. f_equal. assert (Hsub : forall y, y ∈ kvs -> y ∈ kvs) by done.
    revert Hall Hsub. generalize kvs at 1 2 5 as k. clear -Hget.
    assert (Hf : forall f, f ∈ fields -> f ∈ fields) by done. revert Hf.
    generalize fields at 1 3 4 as l. intros l Hf k Hall. induction Hall as [|f y l k (Hy&_&Hn) _ IH]; intros Hsub; [done|].
    simpl. f_equal; [|apply IH; intros; [apply Hf | apply Hsub]; by right].
    fold (data_props kvs). destruct y as [k0 v]; simpl in *. subst k0.
    rewrite (Hget f v); [simpl; by rewrite Hn | apply Hf; left | apply Hsub; left].
  - assert (Hex : exists ws, mapS (member o true (data_props kvs) d) fields (n + 1) = (Ok ws, n')).
    { eapply mapS_exists_pairs; [|exact Hm]. intros f y [Hf Hy]%elem_of_zip m m' Hfy.
      rewrite Forall_forall in Hstep. destruct (Hstep f Hf m y m' Hfy) as (_ & _ & w & Hw).
      apply member_Ok in Hfy as (v & v' & _ & _ & ->). exists (f.1, w). apply member_Ok.
      exists v', w. split_and!; [by apply Hget | done | done]. }
    destruct Hex as [ws Hws]. exists (obj ws). apply visit_object_Ok. exists (data_props kvs), ws.
    split_and!; [apply record_obj | done..| | done | done].
    rewrite own_keys_data. unfold zlength. by rewrite Hlen.
Qed.

Lemma visit_decodes o f :
  schema_ok f -> forall w d n v n', visit o false f w d n = (Ok v, n') -> decodes o f d v n n'.
Proof.
  induction f as [|b|bits s|bits|b|b e IH|fields IH] using Field_ind'; intros Hs w d n v n' H.
  1-5: apply visit_scalar_Ok in H as (Hd & -> & Hn & H); [|done].
  1-5: pose proof (fun Hf => scalar_conforms _ w v o Hf Hs H) as HC; specialize (HC eq_refl);
       pose proof (fun Hf => scalar_encodable _ v o Hf Hs HC) as HE;
       destruct (HE eq_refl) as (H1 & w' & H2);
       split_and!; [done | done | exists w'; by apply visit_scalar_Ok].
  - apply visit_array_Ok in H as (slots & extra & vs & -> & Hd & Hn & Hc & Ho & -> & Hm).
    eapply decodes_array; [done..| |exact Hm]. apply Forall_forall. intros s _ m y m' Hy.
    inv_st. by eapply IH.
  - apply visit_object_Ok in H as (props & kvs & Hrec & Hd & Hn & Ho & -> & Hm).
    apply schema_ok_object in Hs as [Hnd Hs]. eapply decodes_object; [done..| |exact Hm].
    rewrite !Forall_forall in *. intros f Hf m y m' (v & w' & Hlook & Hw & ->)%member_Ok.
    eapply IH; [done | by apply Hs | exact Hw].
Qed.

(** ** Budgets *)

Fixpoint node_count (v : jsval) : Z :=
  match v with
  | VArr slots _ => 1 + (fix go l := match l with [] => 0 | (_, v) :: l => node_count v + go l end) slots
  | VObj _ props => 1 + (fix go l := match l with [] => 0 | (_, v) :: l => node_count v + go l end) props
  | _ => 1
  end.
Fixpoint height (v : jsval) : Z :=
  match v with
  | VArr slots _ => (fix go l := match l with [] => 0 | (_, v) :: l => Z.max (1 + height v) (go l) end) slots
  | VObj _ props => (fix go l := match l with [] => 0 | (_, v) :: l => Z.max (1 + height v) (go l) end) props
  | _ => 0
  end.

Lemma node_count_arr vs : node_count (arr vs) = 1 + zsum node_count vs.
Proof. simpl. f_equal. induction vs as [|v l IH]; simpl; [done|]. by rewrite IH. Qed.
Lemma node_count_obj kvs : node_count (obj kvs) = 1 + zsum (fun kv => node_count kv.2) kvs.
Proof. simpl. f_equal. induction kvs as [|[k v] l IH]; simpl; [done|]. by rewrite IH. Qed.
Lemma height_arr vs m : 0 <= m -> Forall (fun v => 1 + height v <= m) vs -> height (arr vs) <= m.
Proof. intros Hm Hall. simpl. induction Hall as [|v l Hv _ IH]; simpl; [done|]. lia. Qed.
Lemma height_obj kvs m : 0 <= m -> Forall (fun kv => 1 + height kv.2 <= m) kvs -> height (obj kvs) <= m.
Proof. intros Hm Hall. simpl. induction Hall as [|[k v] l Hv _ IH]; simpl in *; [done|]. lia. Qed.

Lemma mapS_sum {A B} (f : A -> ST Z B) (c : B -> Z) l s ys s' :
  Forall (fun x => forall s y s', f x s = (Ok y, s') -> s' = s + c y) l ->
  mapS f l s = (Ok ys, s') -> s' = s + zsum c ys.
Proof.
  intros Hl. revert s ys. induction Hl as [|x l Hx _ IH]; intros s ys; [intros [= <- <-]; simpl; lia|].
  intros (y & s1 & ys' & Hy & Hys & ->)%mapS_cons_Ok. simpl.
  apply Hx in Hy as ->. apply IH in Hys as ->. lia.
Qed.

Lemma mapS_bound {A B} (f : A -> ST Z B) m l s ys s' :
  s <= m -> Forall (fun x => forall s y s', s <= m -> f x s = (Ok y, s') -> s' <= m) l ->
  mapS f l s = (Ok ys, s') -> s' <= m.
Proof.
  intros Hs Hl. revert s ys Hs. induction Hl as [|x l Hx _ IH]; intros s ys Hs; [by intros [= _ <-]|].
  intros (y & s1 & ys' & Hy & Hys & ->)%mapS_cons_Ok. eapply IH; [|exact Hys]. by eapply Hx.
Qed.

Lemma scalar_leaf f v enc o w :
  is_scalar f = true -> scalar f v enc o = Ok w -> node_count w = 1 /\ height w = 0.
Proof.
  intros Hf H. destruct f as [|b|bits s|bits|b|b e|fs]; try done; simpl in H.
  - destruct v; try done. by injection H as <-.
  - destruct v; try done. inv_res. by subst.
  - unfold integer in H. inv_res. destruct (negb _); [|destruct enc]; by injection H as <-.
  - unfold floating in H. destruct v as [| | |x| |s| | | | |]; try done.
    + destruct (negb _); inv_res; by subst.
    + destruct enc; [done|]. destruct (float_tag s); [|done]. inv_res. by subst.
  - unfold bytes in H. destruct enc; destruct v; try done; inv_res; by subst.
Qed.

(** The traversal counts the nodes of its result and never passes a limit. *)
Lemma visit_budget o enc f : forall v d n w n',
  visit o enc f v d n = (Ok w, n') ->
  n' = n + node_count w /\ n' <= maxNodes o /\ d + height w <= maxDepth o.
Proof.
  induction f as [|b|bits s|bits|b|b e IH|fields IH] using Field_ind'; intros v d n w n' H.
  1-5: apply visit_scalar_Ok in H as (Hd & -> & Hn & H); [|done].
  1-5: apply scalar_leaf in H as [-> ->]; [|done]; bools; lia.
  - apply visit_array_Ok in H as (slots & extra & vs & -> & Hd & Hn & _ & _ & -> & Hm). bools.
    assert (Hstep : Forall (fun s => forall m y m',
      (v ← lift (data_slot s); visit o enc e v (d + 1)) m = (Ok y, m') ->
      m' = m + node_count y /\ m' <= maxNodes o /\ d + 1 + height y <= maxDepth o) slots).
    { apply Forall_forall. intros s _ m y m' Hy. inv_st. by eapply IH. }
    split_and!.
    + rewrite node_count_arr. apply (mapS_sum _ node_count) in Hm; [lia|].
      eapply Forall_impl; [exact Hstep|]. intros s Hs m y m' Hy. by apply Hs in Hy as (? & _).
    + eapply mapS_bound; [exact Hn| |exact Hm]. eapply Forall_impl; [exact Hstep|].
      intros s Hs m y m' _ Hy. by apply Hs in Hy as (_ & ? & _).
    + apply Z.le_add_le_sub_l, height_arr; [lia|]. eapply mapS_Forall; [|exact Hm].
      eapply Forall_impl; [exact Hstep|]. intros s Hs m y m' Hy. apply Hs in Hy as (_ & _ & ?). lia.
  - apply visit_object_Ok in H as (props & kvs & _ & Hd & Hn & _ & -> & Hm). bools.
    assert (Hstep : Forall (fun f => forall m y m', member o enc props d f m = (Ok y, m') ->
      m' = m + node_count y.2 /\ m' <= maxNodes o /\ d + 1 + height y.2 <= maxDepth o) fields).
    { eapply Forall_impl; [exact IH|]. intros f Hf m y m' (v' & w' & _ & Hw & ->)%member_Ok. by eapply Hf. }
    split_and!.
    + rewrite node_count_obj. apply (mapS_sum _ (fun kv => node_count kv.2)) in Hm; [lia|].
      eapply Forall_impl; [exact Hstep|]. intros s Hs m y m' Hy. by apply Hs in Hy as (? & _).
    + eapply mapS_bound; [exact Hn| |exact Hm]. eapply Forall_impl; [exact Hstep|].
      intros s Hs m y m' _ Hy. by apply Hs in Hy as (_ & ? & _).
    + apply Z.le_add_le_sub_l, height_obj; [lia|]. eapply mapS_Forall; [|exact Hm].
      eapply Forall_impl; [exact Hstep|]. intros s Hs m y m' Hy. apply Hs in Hy as (_ & _ & ?). lia.
Qed.
