(* ===== verification/CodecMain.v ===== *)
(** * The codec as a whole

    Schemas and options that pass [createCodec], the errors it can throw, and
    the theorems about [encode] and [decode]. *)

From S2P Require Import Prelude JsNumber JsFloat32 JsString JsMap Regex Values Base64 CodecTypes CodecScalars CodecSchema Codec CodecProps CodecDecode.

#[local] Arguments visit : simpl never.
#[local] Arguments count_node : simpl never.

(** ** JavaScript objects have unique keys *)

Fixpoint keys_ok (v : jsval) : Prop :=
  match v with
  | VArr slots _ =>
      (fix all l := match l with [] => True | (_, v) :: l => keys_ok v /\ all l end) slots
  | VObj _ props => NoDup (map (fun p => p.1.1) props) /\
      (fix all l := match l with [] => True | (_, v) :: l => keys_ok v /\ all l end) props
  | _ => True
  end.

Lemma keys_ok_obj proto props :
  keys_ok (VObj proto props) <-> NoDup (map (fun p => p.1.1) props) /\ Forall (fun p => keys_ok p.2) props.
Proof.
  simpl. apply and_iff_compat_l. induction props as [|[k v] l IH]; [by rewrite Forall_nil|].
  by rewrite Forall_cons, IH.
Qed.

Lemma keys_ok_prop k v : keys_ok v -> keys_ok (prop k v).
Proof.
  destruct v as [| | | | | | | | | |proto props]; try done. intros [_ Hall]%keys_ok_obj. simpl.
  induction Hall as [|[[[s|] kd] w] l Hw _ IH]; simpl; [done| |done].
  destruct (decide _); done.
Qed.

(** ** Schemas *)

Fixpoint field_nodes (f : Field) : Z :=
  match f with
  | FArray _ e => 1 + field_nodes e
  | FObject fields => 1 + (fix go l := match l with [] => 0 | (_, c) :: l => field_nodes c + go l end) fields
  | _ => 1
  end.
Fixpoint field_height (f : Field) : Z :=
  match f with
  | FArray _ e => 1 + field_height e
  | FObject fields =>
      (fix go l := match l with [] => 0 | (_, c) :: l => Z.max (1 + field_height c) (go l) end) fields
  | _ => 0
  end.
Lemma field_nodes_object fields :
  field_nodes (FObject fields) = 1 + zsum (fun f => field_nodes f.2) fields.
Proof. simpl. f_equal. induction fields as [|[k c] l IH]; simpl; [done|]. by rewrite IH. Qed.
Lemma field_height_object fields m :
  0 <= m -> Forall (fun f => 1 + field_height f.2 <= m) fields -> field_height (FObject fields) <= m.
Proof. intros Hm Hall. simpl. induction Hall as [|[k c] l Hc _ IH]; simpl in *; [done|]. lia. Qed.

(** The member descriptors of an object. *)
Definition snapshot_member (fuel : nat) (nodes : Z) (p : prop_key * prop_kind * jsval) :
  ST Z (jsstr * Field) :=
  c ← snapshot_visit fuel nodes p.2;
  mret (match p.1.1 with StringKey k => k | SymbolKey => [] end, c).

Lemma integer_bits_Ok v n : integer_bits v = Some n -> n ∈ [8; 16; 32; 64].
Proof.
  destruct v; simpl; try done. destruct (to_Z x); [|done]. case_bool_decide; [by intros [= <-] | done].
Qed.

(** What one snapshot guarantees. *)
Definition snapshot_of (fuel nodes : Z) (f : Field) (n n' : Z) : Prop :=
  schema_ok f /\ n' = n + field_nodes f /\ n' <= nodes /\ field_height f < fuel.

Lemma string_keys_NoDup (props : list (prop_key * prop_kind * jsval)) :
  Forall (fun p => exists k, p.1.1 = StringKey k /\ p.1.2 = DataProp) props ->
  NoDup (map (fun p => p.1.1) props) ->
  NoDup (map (fun p => match p.1.1 with StringKey k => k | SymbolKey => [] end) props).
Proof.
  induction 1 as [|[[k kd] v] l (s & Hs & _) Hl IH]; simpl in *; [constructor|]. subst k.
  intros [Hni Hn]%NoDup_cons. apply NoDup_cons. split; [|by apply IH].
  intros (p & Heq & Hp)%list_elem_of_fmap. apply Hni. rewrite Forall_forall in Hl.
  destruct (Hl p Hp) as (s' & Hs' & _). rewrite Hs' in Heq. subst s'. rewrite <- Hs'.
  by apply (list_elem_of_fmap_2 (fun p : prop_key * prop_kind * jsval => p.1.1)).
Qed.

Lemma snapshot_object fuel nodes n props fs n' :
  n + 1 <= nodes -> 0 <= fuel ->
  Forall (fun p => exists k, p.1.1 = StringKey k /\ p.1.2 = DataProp) props ->
  NoDup (map (fun p => p.1.1) props) ->
  Forall (fun p => forall m y m', snapshot_member (Z.to_nat fuel) nodes p m = (Ok y, m') ->
    snapshot_of fuel nodes y.2 m m') props ->
  mapS (snapshot_member (Z.to_nat fuel) nodes) props (n + 1) = (Ok fs, n') ->
  snapshot_of (fuel + 1) nodes (FObject fs) n n'.
Proof.
  intros Hn Hfuel Hstr Hnd Hstep Hm.
  assert (Hall : Forall (fun f => schema_ok f.2 /\ field_height f.2 < fuel) fs).
  { eapply mapS_Forall; [|exact Hm]. eapply Forall_impl; [exact Hstep|].
    intros p Hp m y m' Hy. destruct (Hp m y m' Hy) as (?&_&_&?). done. }
  rewrite Forall_and in Hall. destruct Hall as [Hok Hh]. split_and!.
  - apply schema_ok_object. split; [|done].
    replace (map fst fs) with (map (fun p : prop_key * prop_kind * jsval =>
      match p.1.1 with StringKey k => k | SymbolKey => [] end) props); [by apply string_keys_NoDup|].
    clear -Hm. revert Hm. generalize (n + 1). revert fs. induction props as [|p l IH]; intros fs m; [by intros [= <- _]|].
    intros (y & m1 & ys & Hy & Hys & ->)%mapS_cons_Ok. simpl. f_equal; [|by eapply IH].
    unfold snapshot_member in Hy. by inv_st.
  - rewrite field_nodes_object. apply (mapS_sum _ (fun f => field_nodes f.2)) in Hm; [lia|].
    eapply Forall_impl; [exact Hstep|]. intros p Hp m y m' Hy. by destruct (Hp m y m' Hy) as (_&?&_).
  - eapply mapS_bound; [exact Hn| |exact Hm]. eapply Forall_impl; [exact Hstep|].
    intros p Hp m y m' _ Hy. by destruct (Hp m y m' Hy) as (_&_&?&_).
  - assert (field_height (FObject fs) <= fuel); [|lia]. apply field_height_object; [done|].
    eapply Forall_impl; [exact Hh|]. intros f Hf. simpl in *. lia.
Qed.

Lemma snapshot_visit_Ok fuel nodes field n f n' :
  keys_ok field -> snapshot_visit fuel nodes field n = (Ok f, n') ->
  snapshot_of (Z.of_nat fuel) nodes f n n'.
Proof.
  revert field n f n'. induction fuel as [|fuel IH]; intros field n f n' Hk H; [done|].
  simpl in H. inv_st. apply count_node_Ok in Hy as (_ & -> & Hn). rewrite Nat2Z.inj_succ.
  assert (Hleaf : forall f, schema_ok f -> field_nodes f = 1 -> field_height f = 0 ->
    snapshot_of (Z.succ (Z.of_nat fuel)) nodes f n (n + 1)).
  { intros f' H1 H2 H3. split_and!; [done | lia | lia | lia]. }
  repeat (match type of H with (if ?b then _ else _) _ = _ => destruct b end);
    inv_st; try (by apply Hleaf).
  - destruct (integer_bits (prop "bits" field)) eqn:Hb, (prop "signed" field); inv_st; try done.
    apply Hleaf; [|done..]. by eapply integer_bits_Ok.
  - destruct (integer_bits (prop "bits" field)) as [b|]; [|done].
    destruct ((b =? 32) || (b =? 64)) eqn:Hb; inv_st. apply Hleaf; [|done..].
    apply orb_true_iff in Hb as [?|?]; bools; simpl; auto.
  - apply IH in Hy1 as (?&->&?&?); [|by apply keys_ok_prop]. split_and!; simpl; [done | lia..].
  - apply record_Ok in Hy as (proto & Hf & _ & Hstr). pose proof (keys_ok_prop "fields" field Hk) as Hkf.
    rewrite Hf in Hkf. apply keys_ok_obj in Hkf as [Hnd Hall].
    apply (snapshot_object (Z.of_nat fuel) nodes n y1); [done | lia | done | done | |].
    + rewrite Forall_forall in *. intros p Hp m z m' Hz. unfold snapshot_member in Hz.
      rewrite Nat2Z.id in Hz. inv_st. simpl. eapply IH; [by apply Hall | done].
    + rewrite Nat2Z.id. exact Hy1.
Qed.

(** ** Options *)

Definition options_ok (o : CodecOptions) : Prop :=
  Forall (fun n => 0 < n <= MAX_SAFE_INTEGER)
    [maxDepth o; maxArrayLength o; maxStringBytes o; maxByteLength o; maxNodes o].

Lemma merge_has k m props : is_Some (mget k m) -> is_Some (mget k (merge m props)).
Proof.
  unfold merge. revert m. induction props as [|[[[s|] kd] v] l IH]; intros m Hk; simpl; [done| |by apply IH].
  apply IH. rewrite mget_mset. by case_decide.
Qed.

Lemma property_order_elem m kv : kv ∈ m -> kv ∈ property_order m.
Proof.
  intros Hin. unfold property_order. apply elem_of_app. rewrite !list_elem_of_filter.
  destruct (index_key kv.1); auto.
Qed.

Lemma checked_limit k m :
  js k <> js "allowNonFinite" -> is_Some (mget (js k) m) ->
  Forall (fun kv => check_option kv.1 kv.2 = Ok tt) (property_order m) ->
  0 < limit_of k m <= MAX_SAFE_INTEGER.
Proof.
  intros Hne [v Hv] Hall. rewrite Forall_forall in Hall.
  pose proof (Hall _ (property_order_elem m (js k, v) (mget_elem _ _ _ Hv))) as Hc.
  unfold check_option in Hc. simpl in Hc. apply result_bind_Ok in Hc as (_ & _ & Hc).
  rewrite decide_False in Hc by done. apply requireValue_Ok in Hc.
  unfold limit_of. rewrite Hv. destruct v as [| | |x| | | | | | |]; try done. bools.
  unfold is_safe_integer in *. destruct (to_Z x); [|done]. simpl. bools. lia.
Qed.

Lemma codecOptions_Ok ov o : codecOptions ov = Ok o -> options_ok o.
Proof.
  unfold codecOptions. intros H. inv_res. subst o.
  apply mapR_Ok in Hx0.
  assert (Hall : Forall (fun kv => check_option kv.1 kv.2 = Ok tt) (property_order (merge default_options x))).
  { clear -Hx0. induction Hx0 as [|kv u l us Hu _ IH]; constructor; [by destruct u | done]. }
  unfold options_ok. simpl. repeat constructor; apply checked_limit; try done; apply merge_has; by eexists.
Qed.

(** ** Rejections *)

Definition fixed_reason (e : js_error) : Prop := exists reason, e = invalid reason.

Lemma requireValue_Throw b r e : requireValue b r = Throw e -> fixed_reason e.
Proof. unfold requireValue, require. destruct b; [done|]. intros [= <-]. by eexists. Qed.

Lemma bind_Throw {A B} (m : result A) (f : A -> result B) e :
  (forall e, m = Throw e -> fixed_reason e) -> (forall a e, f a = Throw e -> fixed_reason e) ->
  (m ≫= f) = Throw e -> fixed_reason e.
Proof. intros Hm Hf [?|(a & _ & ?)]%result_bind_Throw; eauto. Qed.
Lemma ST_bind_reason {S A B} (m : ST S A) (f : A -> ST S B) s e s' :
  (forall s e s', m s = (Throw e, s') -> fixed_reason e) ->
  (forall a s e s', f a s = (Throw e, s') -> fixed_reason e) ->
  (m ≫= f) s = (Throw e, s') -> fixed_reason e.
Proof. intros Hm Hf [?|(a & s1 & _ & ?)]%ST_bind_Throw; eauto. Qed.
Lemma lift_reason {S A} (r : result A) (s : S) e s' :
  (forall e, r = Throw e -> fixed_reason e) -> lift r s = (Throw e, s') -> fixed_reason e.
Proof. unfold lift. naive_solver. Qed.
Lemma of_option_reason {A} r (x : option A) e : of_option (invalid r) x = Throw e -> fixed_reason e.
Proof. destruct x; simpl; [done|]. intros [= <-]. by eexists. Qed.

Lemma checkLength_reason size b limit e : checkLength size b limit = Throw e -> fixed_reason e.
Proof.
  unfold checkLength. repeat (apply bind_Throw; [apply requireValue_Throw|]; intros _ ?).
  apply requireValue_Throw.
Qed.

(** Split a rejection into the step that threw. *)
Ltac reason :=
  repeat first
    [ eassumption
    | match goal with
      | H : _ = Throw ?e |- fixed_reason ?e => revert H; apply bind_Throw; intros
      | H : (requireValue _ _) = Throw ?e |- _ => exact (requireValue_Throw _ _ _ H)
      | H : of_option (invalid _) _ = Throw ?e |- _ => exact (of_option_reason _ _ _ H)
      | H : checkLength _ _ _ = Throw ?e |- _ => exact (checkLength_reason _ _ _ _ H)
      | H : Throw (invalid ?r) = Throw ?e |- fixed_reason ?e => injection H as <-; by exists r
      | H : Ok _ = Throw _ |- _ => discriminate H
      | H : mret _ = Throw _ |- _ => discriminate H
      end
    | case_match ].

Lemma record_reason v e : record v = Throw e -> fixed_reason e.
Proof.
  unfold record. intros H. destruct v; try by reason. revert H. apply bind_Throw; [intros; by reason|].
  intros _ e'. apply bind_Throw; [|intros; by reason]. clear. induction props as [|[[k kd] w] l IH]; [done|].
  intros e. apply bind_Throw; [apply requireValue_Throw|]. intros _ e'.
  apply bind_Throw; [apply requireValue_Throw | auto].
Qed.


Lemma scalar_reason f v enc o e : scalar f v enc o = Throw e -> fixed_reason e.
Proof.
  destruct f as [|b|bits s|bits|b|b el|fs]; simpl; intros H; try (by reason).
  all: unfold integer, parse_integer, floating, bytes in H; by reason.
Qed.

Lemma count_node_reason deep limit r n e n' :
  count_node deep limit r n = (Throw e, n') -> fixed_reason e.
Proof.
  unfold count_node. destruct deep; [|intros [= <- _]; by exists r].
  unfold_st. intros [= He _]. by eapply requireValue_Throw.
Qed.

Lemma visit_reason o enc f : forall v d n e n',
  visit o enc f v d n = (Throw e, n') -> fixed_reason e.
Proof.
  induction f as [|b|bits s|bits|b|b el IH|fields IH] using Field_ind'; intros v d n e n'; unfold visit;
    (apply ST_bind_reason; [intros; by eapply count_node_reason|]); intros _ m e' m'.
  1-5: apply lift_reason; intros; by eapply scalar_reason.
  - fold (visit o enc). destruct v as [| | | | | | | | |slots extra|]; try (intros [= <- _]; by eexists).
    apply ST_bind_reason; [intros ? ? ?; apply lift_reason, checkLength_reason|]. intros _ ? ? ?.
    apply ST_bind_reason; [intros ? ? ?; apply lift_reason, requireValue_Throw|]. intros _ ? ? ?.
    apply ST_bind_reason; [|done]. intros ? ? ?. apply mapS_Throw, Forall_forall. intros slot _ ? ? ?.
    apply ST_bind_reason; [intros ? ? ?; apply lift_reason; unfold data_slot; intros; by reason|].
    intros ? ? ? ?. apply IH.
  - fold (visit o enc). apply ST_bind_reason; [intros ? ? ?; apply lift_reason, record_reason|]. intros props ? ? ?.
    apply ST_bind_reason; [intros ? ? ?; apply lift_reason, requireValue_Throw|]. intros _ ? ? ?.
    apply ST_bind_reason; [|done]. intros ? ? ?. apply mapS_Throw.
    eapply Forall_impl; [exact IH|]. intros [k c] Hc ? ? ?.
    apply ST_bind_reason; [intros ? ? ?; apply lift_reason, of_option_reason|]. intros ? ? ? ?.
    apply ST_bind_reason; [intros ? ? ?; apply Hc | done].
Qed.

Lemma convert_reason o enc f v e : convert o enc f v = Throw e -> fixed_reason e.
Proof.
  unfold convert. destruct (visit o enc f v 0 0) as [r n'] eqn:Hv. simpl. intros ->.
  by eapply visit_reason.
Qed.

Lemma convert_Ok o enc f v w : convert o enc f v = Ok w <-> exists n', visit o enc f v 0 0 = (Ok w, n').
Proof.
  unfold convert. destruct (visit o enc f v 0 0) as [r n']. simpl. naive_solver.
Qed.

(** ** Properties *)

Lemma createCodec_schema_ok d ov c : keys_ok d -> createCodec d ov = Ok c -> schema_ok (schema c).
Proof.
  unfold createCodec. intros Hk H. inv_res. subst c. simpl. unfold snapshotSchema in Hx0.
  destruct (snapshot_visit _ _ d 0) as [r n'] eqn:Hs. simpl in Hx0. subst r.
  by apply snapshot_visit_Ok in Hs as (? & _).
Qed.

(** A codec is only built from a descriptor within the limits: every limit
    is a positive safe integer, the descriptor has known integer and float
    widths and no more nodes and levels than allowed. *)
Theorem createCodec_sound d ov c :
  keys_ok d -> createCodec d ov = Ok c ->
  options_ok (options c) /\ schema_ok (schema c) /\
  field_nodes (schema c) <= maxNodes (options c) /\ field_height (schema c) <= maxDepth (options c).
Proof.
  intros Hk H. pose proof (createCodec_schema_ok d ov c Hk H) as Hok.
  unfold createCodec in H. inv_res. subst c. simpl in *.
  apply codecOptions_Ok in Hx. unfold snapshotSchema in Hx0.
  destruct (snapshot_visit _ _ d 0) as [r n'] eqn:Hs. simpl in Hx0. subst r.
  apply snapshot_visit_Ok in Hs as (_ & -> & Hn & Hh); [|done].
  pose proof Hx as [Hd _]%Forall_cons. rewrite Z2Nat.id in Hh by lia. split_and!; done || lia.
Qed.

(** C7: decoding undoes encoding.  A native value that encodes decodes back to
    its normal form (small integers and [float32] rounded, members in
    descriptor order), and the normal form has the same encoding. *)
Theorem decode_encode d ov c v w :
  keys_ok d -> createCodec d ov = Ok c -> bytes_ok v -> encode c v = Ok w ->
  decode c w = Ok (norm (schema c) v) /\ encode c (norm (schema c) v) = Ok w.
Proof.
  intros Hk Hc Hv Hw. apply createCodec_schema_ok in Hc; [|done].
  apply convert_Ok in Hw as [n' Hw]. destruct (visit_encodes _ _ Hc _ _ _ _ _ Hv Hw) as (H1 & H2 & _).
  split; apply convert_Ok; eauto.
Qed.

(** What [encode] returns is JSON: no bigint, byte array, nonfinite number,
    hole or [undefined] survives, so the envelope serializes losslessly. *)
Theorem encode_json d ov c v w :
  keys_ok d -> createCodec d ov = Ok c -> bytes_ok v -> encode c v = Ok w -> json w = true.
Proof.
  intros Hk Hc Hv Hw. apply createCodec_schema_ok in Hc; [|done].
  apply convert_Ok in Hw as [n' Hw]. by destruct (visit_encodes _ _ Hc _ _ _ _ _ Hv Hw) as (_ & _ & ?).
Qed.

(** C10: what [decode] returns has the declared native type: integers in the
    range of their width, strings well formed and within their bounds, floats
    rounded to their width and finite unless allowed, members exactly those
    declared. *)
Theorem decode_typed d ov c w v :
  keys_ok d -> createCodec d ov = Ok c -> decode c w = Ok v -> conforms (options c) (schema c) v.
Proof.
  intros Hk Hc Hv. apply createCodec_schema_ok in Hc; [|done].
  apply convert_Ok in Hv as [n' Hv]. by destruct (visit_decodes _ _ Hc _ _ _ _ _ Hv) as (? & _).
Qed.

(** A decoded value can always be encoded again, and decodes to itself, so
    the second validation before a ROS publish never rejects what the first
    accepted. *)
Theorem decode_reencodes d ov c w v :
  keys_ok d -> createCodec d ov = Ok c -> bytes_ok v -> decode c w = Ok v ->
  exists w', encode c v = Ok w' /\ decode c w' = Ok v.
Proof.
  intros Hk Hc Hb Hv. apply createCodec_schema_ok in Hc; [|done].
  apply convert_Ok in Hv as [n' Hv].
  destruct (visit_decodes _ _ Hc _ _ _ _ _ Hv) as (_ & Hnorm & w' & Hw').
  exists w'. destruct (visit_encodes _ _ Hc _ _ _ _ _ Hb Hw') as (H1 & _ & _).
  rewrite Hnorm in H1. split; apply convert_Ok; eauto.
Qed.

(** No conversion builds more than [maxNodes] nodes or more than [maxDepth]
    levels, in either direction. *)
Theorem conversion_bounded o enc f v w :
  convert o enc f v = Ok w -> node_count w <= maxNodes o /\ height w <= maxDepth o.
Proof. intros [n' H]%convert_Ok. apply visit_budget in H as (-> & ? & ?). lia. Qed.

(** every rejection of a payload is a [TypeError] whose text is a fixed
    reason and never carries the payload. *)
Theorem rejection_is_fixed c v e :
  encode c v = Throw e \/ decode c v = Throw e ->
  exists reason, e = TypeError ("Invalid codec value: " ++ reason).
Proof. intros [H|H]; by apply convert_reason in H. Qed.

(** ** A concrete codec *)

Definition field_val (fields : list (string * jsval)) : jsval := obj (map (fun f => (js f.1, f.2)) fields).
Definition kind_val (k : string) (more : list (string * jsval)) : jsval :=
  field_val (("kind"%string, VStr (js k)) :: more).
Definition demo_descriptor : jsval := kind_val "object" [("fields", field_val
  [("stamp", kind_val "integer" [("bits", VNum (of_Z 64)); ("signed", VBool true)]%string);
   ("speed", kind_val "float" [("bits", VNum (of_Z 32))]%string);
   ("data", kind_val "bytes" [("maxLength", VNum (of_Z 4))]%string);
   ("names", kind_val "array" [("element", kind_val "string" [])]%string)]%string)]%string.
Definition demo_codec : codec :=
  match createCodec demo_descriptor (obj []) with
  | Ok c => c
  | Throw _ => {| options := {| maxDepth := 0; maxArrayLength := 0; maxStringBytes := 0;
      maxByteLength := 0; maxNodes := 0; allowNonFinite := false |}; schema := FBoolean |}
  end.
(** 0.1, which [float32] rounds. *)
Definition tenth : number := ndiv (of_Z 1) (of_Z 10).
Definition demo_native (names : list string) : jsval := field_val
  [("names", arr (map (fun s => VStr (js s)) names)); ("stamp", VBigInt (-42));
   ("speed", VNum tenth); ("data", VBytes [255; 0])]%string.
Definition demo_wire : jsval :=
  match encode demo_codec (demo_native ["a"%string]) with Ok w => w | Throw _ => VUndefined end.

Lemma demo_codec_created : createCodec demo_descriptor (obj []) = Ok demo_codec.
Proof. vm_compute. reflexivity. Qed.
Lemma demo_keys : keys_ok demo_descriptor.
Proof.
  unfold demo_descriptor, kind_val, field_val, obj. simpl.
  repeat split; apply (bool_decide_eq_true_1 _); vm_compute; reflexivity.
Qed.
Lemma demo_bytes : bytes_ok (demo_native ["a"%string]).
Proof. unfold demo_native, field_val, obj. simpl. repeat constructor. Qed.
Lemma demo_encodes : encode demo_codec (demo_native ["a"%string]) = Ok demo_wire.
Proof. vm_compute. reflexivity. Qed.
Definition demo_decoded : jsval := norm (schema demo_codec) (demo_native ["a"%string]).
Lemma demo_decodes : decode demo_codec demo_wire = Ok demo_decoded.
Proof. vm_compute. reflexivity. Qed.

Lemma createCodec_sound_witness :
  schema_ok (schema demo_codec) /\ field_nodes (schema demo_codec) = 6.
Proof.
  split; [|vm_compute; reflexivity].
  exact (proj1 (proj2 (createCodec_sound _ _ _ demo_keys demo_codec_created))).
Defined.

Lemma decode_encode_witness :
  decode demo_codec demo_wire = Ok demo_decoded /\
  prop "speed" demo_decoded = VNum (fround tenth) /\ prop "stamp" demo_wire = VStr (js "-42").
Proof.
  split; [|split; vm_compute; reflexivity].
  exact (proj1 (decode_encode _ _ _ _ _ demo_keys demo_codec_created demo_bytes demo_encodes)).
Defined.

Lemma encode_json_witness : json demo_wire = true.
Proof. exact (encode_json _ _ _ _ _ demo_keys demo_codec_created demo_bytes demo_encodes). Defined.

Lemma decode_typed_witness : conforms (options demo_codec) (schema demo_codec) demo_decoded.
Proof. exact (decode_typed _ _ _ _ _ demo_keys demo_codec_created demo_decodes). Defined.

Lemma decode_reencodes_witness :
  exists w, encode demo_codec demo_decoded = Ok w /\ decode demo_codec w = Ok demo_decoded.
Proof.
  refine (decode_reencodes _ _ _ demo_wire _ demo_keys demo_codec_created _ demo_decodes).
  unfold demo_decoded. vm_compute. repeat constructor.
Defined.

Lemma conversion_bounded_witness : node_count demo_wire <= 32768 /\ node_count demo_wire = 6.
Proof.
  split; [|vm_compute; reflexivity].
  assert (Hm : maxNodes (options demo_codec) = 32768) by (vm_compute; reflexivity). rewrite <- Hm.
  exact (proj1 (conversion_bounded (options demo_codec) true (schema demo_codec)
    (demo_native ["a"%string]) demo_wire demo_encodes)).
Defined.

Lemma rejection_is_fixed_witness :
  exists reason, encode demo_codec (VStr (js "secret")) = Throw (TypeError ("Invalid codec value: " ++ reason)).
Proof.
  destruct (encode demo_codec (VStr (js "secret"))) as [w|e] eqn:He; [vm_compute in He; discriminate|].
  destruct (rejection_is_fixed demo_codec _ e (or_introl He)) as [reason ->]. exists reason. reflexivity.
Defined.
