(* ===== verification/Descriptor.v ===== *)
(** * Descriptors from ROS type definitions

    [ros/descriptor.ts]: the descriptor of a message type is built from the
    definitions the ROS type generator gives, nested messages included.  The
    generator is a parameter; what a generated descriptor means to the codec is
    stated against the definitions themselves ([ros_schema]). *)

From S2P Require Import Prelude JsNumber JsString JsMap Regex Values CodecTypes CodecScalars CodecSchema Codec CodecProps CodecDecode CodecMain Json.

Module Descriptor.

(** ** Data *)

Record RosType := {
  type_ : jsstr; pkgName : option jsstr; isPrimitiveType : bool;
  isArray : bool; isFixedSizeArray : bool; arraySize : option number; isUpperBound : bool;
  stringUpperBound : option number }.
Record RosField := { name : jsstr; info : RosType }.

(** ** Operations *)

Definition kind (k : string) : jsstr * jsval := (js "kind", VStr (js k)).
Definition number_member (k : string) (n : Z) : jsstr * jsval := (js k, VNum (of_Z n)).

(** The two groups of [/^(u?)int(8|16|32|64)$/]. *)
Definition int_type (s : jsstr) : option (bool * Z) :=
  let '(u, r) := match s with c :: r => if c =? 117 then (true, r) else (false, s) | [] => (false, s) end in
  match find (fun bits => bool_decide (r = js "int" ++ Z_to_js bits)) [8; 16; 32; 64] with
  | Some bits => Some (u, bits)
  | None => None
  end.

(** [number | null] as a value. *)
Definition nullable (x : option number) : jsval := match x with Some x => VNum x | None => VNull end.

Definition primitive (type : jsstr) (upper : option number) : result jsval :=
  if decide (type = js "bool") then Ok (obj [kind "boolean"])
  else if decide (type = js "string") then
    Ok (match upper with None => obj [kind "string"] | Some x => obj [kind "string"; (js "maxLength", VNum x)] end)
  else if decide (type = js "float32") then Ok (obj [kind "float"; number_member "bits" 32])
  else if decide (type = js "float64") then Ok (obj [kind "float"; number_member "bits" 64])
  else match int_type type with
  | None => Throw (TypeError "unsupported_ros_primitive")
  | Some (u, bits) => Ok (obj [kind "integer"; (js "signed", VBool (negb u)); number_member "bits" bits])
  end.

Definition bounds (t : RosType) : list (jsstr * jsval) :=
  if isFixedSizeArray t then [(js "length", nullable (arraySize t))]
  else if isUpperBound t then [(js "maxLength", nullable (arraySize t))] else [].
Definition nested_name (t : RosType) : jsstr := default (js "null") (pkgName t) ++ js "/msg/" ++ type_ t.

(** The descriptor of one field; [message] resolves a nested type. *)
Definition field_value (message : jsstr -> result jsval) (t : RosType) : result jsval :=
  value ← (if isPrimitiveType t then primitive (type_ t) (stringUpperBound t) else message (nested_name t));
  Ok (if isArray t then
        if decide (type_ t = js "uint8") then obj (kind "bytes" :: bounds t)
        else obj (kind "array" :: (js "element", value) :: bounds t)
      else value).

Fixpoint add_fields (value_of : RosType -> result jsval) (l : list RosField) (fields : jsmap jsstr jsval) :
  result (jsmap jsstr jsval) :=
  match l with
  | [] => Ok fields
  | f :: l =>
      throw_when (mhas (name f) fields) (TypeError "duplicate_ros_field");;
      value ← value_of (info f);
      add_fields value_of l (mset (name f) value fields)
  end.

Section lookup.
Variable lookup : jsstr -> result (list RosField).

(** [message(name, depth)] with [fuel = maxDepth + 1 - depth]: at zero the
    depth exceeds the limit.  [active] holds the types being resolved. *)
Fixpoint message (fuel : nat) (active : list jsstr) (type : jsstr) : result jsval :=
  match fuel with
  | O => Throw (TypeError "recursive_ros_schema")
  | S fuel =>
      throw_when (bool_decide (type ∈ active)) (TypeError "recursive_ros_schema");;
      l ← lookup type;
      fields ← add_fields (field_value (message fuel (type :: active))) l [];
      Ok (obj [kind "object"; (js "fields", object_of fields)])
  end.

Definition descriptorFromRos (type : jsstr) (maxDepth : jsval) : result jsval :=
  n ← of_option (TypeError "invalid_schema_depth")
        (match maxDepth with VNum x => if is_safe_integer x then to_Z x else None | _ => None end);
  throw_when (n <=? 0) (TypeError "invalid_schema_depth");;
  descriptor ← message (Z.to_nat (n + 1)) [] type;
  createCodec descriptor (obj [(js "maxDepth", maxDepth)]);;
  Ok descriptor.
End lookup.

(** ** What a ROS type is to the codec *)

Definition no_bounds : LengthBounds := {| CodecTypes.length := None; CodecTypes.maxLength := None |}.

Inductive primitive_schema : jsstr -> option number -> Field -> Prop :=
| ps_bool upper : primitive_schema (js "bool") upper FBoolean
| ps_string : primitive_schema (js "string") None (FString no_bounds)
| ps_bounded x n : to_Z x = Some n -> 0 <= n ->
    primitive_schema (js "string") (Some x) (FString {| CodecTypes.length := None; CodecTypes.maxLength := Some n |})
| ps_float upper bits : bits ∈ [32; 64] -> primitive_schema (js "float" ++ Z_to_js bits) upper (FFloat bits)
| ps_int upper bits : bits ∈ [8; 16; 32; 64] -> primitive_schema (js "int" ++ Z_to_js bits) upper (FInteger bits true)
| ps_uint upper bits : bits ∈ [8; 16; 32; 64] -> primitive_schema (js "uint" ++ Z_to_js bits) upper (FInteger bits false).

(** The lengths an array type admits. *)
Definition array_bounds (t : RosType) (b : LengthBounds) : Prop :=
  if isFixedSizeArray t then exists x n, arraySize t = Some x /\ to_Z x = Some n /\ 0 <= n /\
    b = {| CodecTypes.length := Some n; CodecTypes.maxLength := None |}
  else if isUpperBound t then exists x n, arraySize t = Some x /\ to_Z x = Some n /\ 0 <= n /\
    b = {| CodecTypes.length := None; CodecTypes.maxLength := Some n |}
  else b = no_bounds.

Section schema.
Variable lookup : jsstr -> result (list RosField).

(** The schema of a message type has exactly its fields, each with the schema
    of its type.  Being inductive, it has no recursive types. *)
Inductive ros_schema : jsstr -> Field -> Prop :=
| rs_message type l fields :
    lookup type = Ok l -> NoDup (map name l) -> NoDup (map fst fields) ->
    (forall k, k ∈ map fst fields <-> k ∈ map name l) ->
    (forall f F, f ∈ l -> (name f, F) ∈ fields -> ros_field (info f) F) ->
    ros_schema type (FObject fields)
with ros_field : RosType -> Field -> Prop :=
| rf_single t F : isArray t = false -> ros_element t F -> ros_field t F
| rf_bytes t b : isArray t = true -> type_ t = js "uint8" -> array_bounds t b -> ros_field t (FBytes b)
| rf_array t b F : isArray t = true -> type_ t <> js "uint8" -> array_bounds t b -> ros_element t F -> ros_field t (FArray b F)
with ros_element : RosType -> Field -> Prop :=
| re_primitive t F : isPrimitiveType t = true -> primitive_schema (type_ t) (stringUpperBound t) F -> ros_element t F
| re_message t F : isPrimitiveType t = false -> ros_schema (nested_name t) F -> ros_element t F.
End schema.

(** ** Snapshots of the descriptors built here *)

Lemma prop_here k v l : prop k (obj ((js k, v) :: l)) = v.
Proof. unfold prop, obj. simpl. by rewrite decide_True. Qed.
Lemma prop_there k k' v l : js k <> k' -> prop k (obj ((k', v) :: l)) = prop k (obj l).
Proof. intros H. unfold prop, obj. simpl. by rewrite decide_False. Qed.
Lemma prop_none k : prop k (obj []) = VUndefined.
Proof. done. Qed.

(** Evaluate the members and the kinds of a descriptor in a hypothesis. *)
Ltac members H :=
  repeat first
    [ rewrite prop_here in H | rewrite prop_there in H by (vm_compute; discriminate) | rewrite prop_none in H
    | match type of H with context [is_str ?a (VStr (js ?b))] =>
        let v := eval vm_compute in (is_str a (VStr (js b))) in change (is_str a (VStr (js b))) with v in H end
    | progress cbn iota in H ].

(** A successful snapshot of an object with a kind. *)
Lemma snapshot_step k nodes l n F n' :
  snapshot_visit k nodes (obj l) n = (Ok F, n') -> exists k', k = S k' /\
  (let field := obj l in
   let kind := prop "kind" field in
   if is_str "boolean" kind then mret FBoolean
   else if is_str "string" kind then b ← lift (lengths field); mret (FString b)
   else if is_str "integer" kind then
     match integer_bits (prop "bits" field), prop "signed" field with
     | Some n, VBool s => mret (FInteger n s)
     | _, _ => mthrow (invalid "integer schema")
     end
   else if is_str "float" kind then
     match integer_bits (prop "bits" field) with
     | Some n => if (n =? 32) || (n =? 64) then mret (FFloat n) else mthrow (invalid "float schema")
     | None => mthrow (invalid "float schema")
     end
   else if is_str "bytes" kind then b ← lift (lengths field); mret (FBytes b)
   else if is_str "array" kind then
     b ← lift (lengths field); e ← snapshot_visit k' nodes (prop "element" field); mret (FArray b e)
   else if is_str "object" kind then
     props ← lift (record (prop "fields" field));
     fs ← mapS (snapshot_member k' nodes) props; mret (FObject fs)
   else mthrow (invalid "unknown schema kind")) (n + 1) = (Ok F, n').
Proof.
  destruct k as [|k]; [done|]. intros H. exists k. split; [done|]. cbn [snapshot_visit] in H.
  inv_st. apply count_node_Ok in Hy as (_ & -> & _). exact H.
Qed.

Lemma length_bound_Ok v n : length_bound v = Ok n ->
  v = VUndefined /\ n = None \/ exists x k, v = VNum x /\ to_Z x = Some k /\ 0 <= k /\ n = Some k.
Proof.
  destruct v; simpl; try done; [by intros [= <-]; left|]. destruct (to_Z x) as [k|] eqn:Hx; [|done].
  intros H. inv_res. apply requireValue_Ok in Hx0. bools. right. exists x, k. by subst.
Qed.

Lemma lengths_bounds v t b :
  lengths v = Ok b -> prop "length" v = prop "length" (obj (bounds t)) -> prop "maxLength" v = prop "maxLength" (obj (bounds t)) ->
  array_bounds t b.
Proof.
  unfold lengths, array_bounds, bounds. intros H Hl Hm. rewrite Hl, Hm in H. clear Hl Hm. inv_res.
  apply length_bound_Ok in Hx, Hx0. subst b.
  destruct (isFixedSizeArray t); [|destruct (isUpperBound t)];
    unfold nullable in *; destruct (arraySize t) as [z|]; naive_solver.
Qed.

Lemma int_type_Some type u bits :
  int_type type = Some (u, bits) -> bits ∈ [8; 16; 32; 64] /\ type = (if u then js "u" else []) ++ js "int" ++ Z_to_js bits.
Proof.
  unfold int_type. set (d := match type with c :: r => if c =? 117 then (true, r) else (false, type) | [] => (false, type) end).
  assert (Hd : type = (if d.1 then js "u" else []) ++ d.2).
  { unfold d. destruct type as [|c r]; [done|]. destruct (c =? 117) eqn:Hc; [|done]. bools. by subst. }
  clearbody d. destruct d as [u' r]. simpl in Hd. destruct (find _ _) as [k|] eqn:Hf; [|done]. intros [= -> ->].
  apply List.find_some in Hf as [Hin Hr]. bools. subst r. split; [|done]. by apply list_elem_of_In.
Qed.

Lemma primitive_snapshot type upper d k nodes n F n' :
  primitive type upper = Ok d -> snapshot_visit k nodes d n = (Ok F, n') -> primitive_schema type upper F.
Proof.
  assert (Hb : forall bits, bits ∈ [8; 16; 32; 64] -> integer_bits (VNum (of_Z bits)) = Some bits).
  { intros bits. rewrite !elem_of_cons. intros [->|[->|[->|[->|[]%elem_of_nil]]]]; reflexivity. }
  unfold primitive, kind, number_member. intros H. repeat case_decide.
  1: injection H as <-. 2: destruct upper as [x|]; injection H as <-. 4,5: injection H as <-.
  6: destruct (int_type type) as [[u bits]|] eqn:Hi; [|done]; injection H as <-; apply int_type_Some in Hi as [Hin ->].
  all: intros (k' & -> & H)%snapshot_step; cbv zeta in H; members H; try (inv_st; subst).
  - constructor.
  - unfold lengths in Hy. members Hy. inv_res. apply length_bound_Ok in Hx, Hx0. subst y. naive_solver (by constructor).
  - unfold lengths in Hy. members Hy. injection Hy as <-. constructor.
  - vm_compute in H. injection H as <- _. apply (ps_float upper 32). set_solver.
  - vm_compute in H. injection H as <- _. apply (ps_float upper 64). set_solver.
  - rewrite (Hb bits Hin) in H. inv_st. destruct u; simpl; by constructor.
Qed.

(** Members keep their values when indices come first. *)
Lemma insert_index_perm kv l : insert_index kv l ≡ₚ kv :: l.
Proof.
  induction l as [|kv' l IH]; simpl; [done|]. destruct (_ <? _); [done|]. rewrite IH. apply Permutation_swap.
Qed.
Lemma object_of_perm m : exists kvs, object_of m = obj kvs /\ kvs ≡ₚ m.
Proof.
  eexists. split; [reflexivity|].
  assert (H : forall l, fold_right insert_index [] l ≡ₚ l).
  { induction l as [|kv l IH]; simpl; [done|]. by rewrite insert_index_perm, IH. }
  rewrite H. clear H. induction m as [|kv m IH]; [done|]. rewrite !filter_cons.
  destruct (index_key kv.1); simpl; [by rewrite IH | by rewrite <- Permutation_middle, IH].
Qed.

(** The loop over the fields of one message. *)
Lemma add_fields_Ok value_of l : forall m m', NoDup (mkeys m) -> add_fields value_of l m = Ok m' ->
  NoDup (mkeys m') /\ exists vs, m' = m ++ zip (map name l) vs /\ List.length vs = List.length l /\
  Forall2 (fun f v => value_of (info f) = Ok v) l vs.
Proof.
  induction l as [|f l IH]; intros m m' Hm; simpl; [intros [= <-]; split; [done|]; exists []; by rewrite app_nil_r|].
  intros H. inv_res. apply IH in H as (Hnd & vs & -> & Hlen & Hvs); [|by apply NoDup_mset]. split; [done|].
  exists (x0 :: vs). unfold mhas in Hx. bools. apply eq_None_not_Some in Hx. rewrite mset_new by done.
  rewrite <- app_assoc. split_and!; [done | simpl; lia | by constructor].
Qed.

Lemma add_fields_members value_of l m : add_fields value_of l [] = Ok m ->
  NoDup (map name l) /\ map fst m = map name l /\
  forall f v, f ∈ l -> (name f, v) ∈ m -> value_of (info f) = Ok v.
Proof.
  intros (Hnd & vs & -> & Hlen & Hvs)%add_fields_Ok; [|constructor]. simpl in *.
  assert (Hn : map fst (zip (map name l) vs) = map name l) by (apply fst_zip; rewrite length_map; lia).
  unfold mkeys in Hnd. rewrite Hn in Hnd. split_and!; [done..|]. clear Hn Hlen.
  induction Hvs as [|g w l vs Hg Hvs IH]; intros f v Hfl Hv; [by apply not_elem_of_nil in Hfl|]. simpl in *.
  apply NoDup_cons in Hnd as [Hni Hnd].
  apply elem_of_cons in Hfl as [->|Hfl]; apply elem_of_cons in Hv as [Hn|Hv]; try (injection Hn as Hn Hw || injection Hn as Hw).
  - by subst.
  - exfalso. apply Hni. by apply elem_of_zip_l in Hv.
  - exfalso. apply Hni. rewrite <- Hn. by apply (list_elem_of_fmap_2 name).
  - by apply IH.
Qed.

(** The snapshot of the members, one for each field. *)
Lemma snapshot_members k nodes kvs n fs n' :
  mapS (snapshot_member k nodes) (map (fun kv => (StringKey kv.1, DataProp, kv.2)) kvs) n = (Ok fs, n') ->
  map fst fs = map fst kvs /\
  forall key F, (key, F) ∈ fs -> exists v m m', (key, v) ∈ kvs /\ snapshot_visit k nodes v m = (Ok F, m').
Proof.
  intros H. apply (mapS_Forall2 _ (fun p y => StringKey y.1 = p.1.1 /\ exists m m', snapshot_visit k nodes p.2 m = (Ok y.2, m'))) in H.
  2: { apply Forall_forall. intros p Hp m y m' Hy. apply list_elem_of_fmap in Hp as (kv & -> & _).
    unfold snapshot_member in Hy. inv_st. subst. simpl. eauto. }
  revert fs H. induction kvs as [|kv kvs IH]; intros fs H; simpl in H.
  - inversion H. split; [done|]. by intros ? ? ?%not_elem_of_nil.
  - inversion H as [|? y ? fs' [Hk (m & m' & Hm)] Ht]. subst. apply IH in Ht as [Hf Hin]. injection Hk as Hk. split; [simpl; congruence|].
    intros key F [Heq|Hin']%elem_of_cons.
    + subst y. simpl in *. subst key. exists kv.2, m, m'. split; [|done]. destruct kv. left.
    + apply Hin in Hin' as (v & m1 & m2 & Hv & Hs). exists v, m1, m2. split; [by right | done].
Qed.

Section sound.
Variable lookup : jsstr -> result (list RosField).

Definition resolves (msg : jsstr -> result jsval) : Prop := forall type d k nodes n F n',
  msg type = Ok d -> snapshot_visit k nodes d n = (Ok F, n') -> ros_schema lookup type F.

Lemma field_schema msg t d k nodes n F n' :
  resolves msg -> field_value msg t = Ok d -> snapshot_visit k nodes d n = (Ok F, n') -> ros_field lookup t F.
Proof.
  intros Hm H Hs. unfold field_value in H. apply result_bind_Ok in H as (v & Hv & H).
  assert (Hel : forall k n F n', snapshot_visit k nodes v n = (Ok F, n') -> ros_element lookup t F).
  { intros k1 n1 F1 n1' H1. destruct (isPrimitiveType t) eqn:Hp; [apply re_primitive | apply re_message]; try done.
    - by eapply primitive_snapshot.
    - by eapply Hm. }
  destruct (isArray t) eqn:Ha; [|injection H as <-; by apply rf_single; eauto]. destruct (decide _) as [Ht|Ht]; injection H as <-.
  - apply snapshot_step in Hs as (k' & -> & Hs). cbv zeta in Hs. unfold kind in Hs. members Hs. inv_st. subst.
    apply rf_bytes; [done..|]. by apply (lengths_bounds _ _ _ Hy); rewrite prop_there.
  - apply snapshot_step in Hs as (k' & -> & Hs). cbv zeta in Hs. unfold kind in Hs. members Hs. inv_st. subst.
    apply rf_array; [done..| |by eapply Hel]. by apply (lengths_bounds _ _ _ Hy); rewrite !prop_there.
Qed.

Lemma message_schema fuel active : resolves (message lookup fuel active).
Proof.
  revert active. induction fuel as [|fuel IH]; intros active type d k nodes n F n'; [done|]. simpl. intros H Hs.
  
  apply result_bind_Ok in H as (? & _ & H). apply result_bind_Ok in H as (l & Hl & H). apply result_bind_Ok in H as (fields & Hf & H).
  injection H as <-.
  apply add_fields_members in Hf as (Hnd & Hnames & Hvalue).
  apply snapshot_step in Hs as (k' & -> & Hs). cbv zeta in Hs. unfold kind in Hs. members Hs.
  destruct (object_of_perm fields) as (kvs & Hkvs & Hperm). rewrite Hkvs in Hs. inv_st.
  rewrite record_obj in Hy. injection Hy as <-.
  match goal with H : mapS _ _ _ = _ |- _ => apply snapshot_members in H as [Hkeys Hin] end.
  assert (Hkp : map fst kvs ≡ₚ map name l) by (by rewrite <- Hnames, Hperm).
  eapply rs_message; [done | done | by rewrite Hkeys, Hkp | intros key; by rewrite Hkeys, Hkp |].
  intros f F Hfl HF. apply Hin in HF as (v & m & m' & Hv & Hsn). rewrite Hperm in Hv.
  eapply field_schema; [exact (IH (type :: active)) | by apply Hvalue | exact Hsn].
Qed.

(** [a] has a field of the message type [b]. *)
Definition contains (a b : jsstr) : Prop := exists l f, lookup a = Ok l /\ f ∈ l /\
  isPrimitiveType (info f) = false /\ nested_name (info f) = b /\ ~ (isArray (info f) = true /\ type_ (info f) = js "uint8").

Lemma field_nodes_pos G : 0 < field_nodes G.
Proof.
  induction G as [| | | | |b G IH|fields IH] using Field_ind'; try (simpl; lia). rewrite field_nodes_object.
  assert (0 <= zsum (fun f => field_nodes f.2) fields); [|lia]. apply zsum_elem_nonneg.
  intros x Hx. rewrite Forall_forall in IH. specialize (IH x Hx). lia.
Qed.

Lemma field_nodes_in fields k F : (k, F) ∈ fields -> field_nodes F < field_nodes (FObject fields).
Proof.
  rewrite field_nodes_object. intros Hin. pose proof field_nodes_pos as Hpos.
  induction fields as [|[k' G] fields IH]; [by apply not_elem_of_nil in Hin|]. simpl.
  assert (0 <= zsum (fun f => field_nodes f.2) fields).
  { apply zsum_elem_nonneg. intros x _. specialize (Hpos x.2). lia. }
  apply elem_of_cons in Hin as [[= <- <-]|Hin]; [lia|]. apply IH in Hin. specialize (Hpos G). lia.
Qed.

Lemma contains_smaller a b F : ros_schema lookup a F -> contains a b ->
  exists G, ros_schema lookup b G /\ field_nodes G < field_nodes F.
Proof.
  intros HF (l & f & Hl & Hf & Hp & Hn & Hb). inversion HF as [type l' fields Hl' _ _ Hkeys Hall]. subst. rewrite Hl in Hl'. injection Hl' as <-.
  assert (Hin : name f ∈ map fst fields) by (by apply Hkeys, (list_elem_of_fmap_2 name)).
  apply list_elem_of_fmap in Hin as ([k G] & Hk & Hin). simpl in Hk. subst k.
  pose proof (field_nodes_in _ _ _ Hin) as Hlt. specialize (Hall f G Hf Hin).
  inversion Hall as [t F' Ha Hel|t b Ha Ht _|t b F' Ha Ht _ Hel]; subst; [|by destruct Hb|];
    inversion Hel as [|t' F'' _ Hs]; subst; try congruence; [by exists G|].
  exists F'. split; [done|]. change (1 + field_nodes F' < field_nodes (FObject fields)) in Hlt. lia.
Qed.

Lemma no_cycle a F : ros_schema lookup a F -> ~ tc contains a a.
Proof.
  assert (Hchain : forall b c F, tc contains b c -> ros_schema lookup b F -> exists G, ros_schema lookup c G /\ field_nodes G < field_nodes F).
  { intros b c F' Hbc. revert F'. induction Hbc as [b c Hbc|b c d Hbc _ IH]; intros F' HF; [by eapply contains_smaller|].
    destruct (contains_smaller _ _ _ HF Hbc) as (G & HG & ?). destruct (IH G HG) as (G' & HG' & ?). exists G'. split; [done | lia]. }
  intros HF Hc. assert (Hn : forall n F, (Z.to_nat (field_nodes F) < n)%nat -> ros_schema lookup a F -> False); [|by apply (Hn (S (Z.to_nat (field_nodes F))) F); [lia|]].
  induction n as [|n IH]; intros F' Hlt HF'; [lia|]. destruct (Hchain _ _ _ Hc HF') as (G & HG & Hless).
  apply (IH G); [|done]. pose proof (field_nodes_pos G). lia.
Qed.
End sound.

(** ** Properties *)

Lemma descriptor_schema lookup type maxDepth d ov c :
  descriptorFromRos lookup type maxDepth = Ok d -> createCodec d ov = Ok c -> ros_schema lookup type (schema c).
Proof.
  intros H Hc. unfold descriptorFromRos in H. inv_res. subst. unfold createCodec in Hc. inv_res. subst c. simpl.
  match goal with H : snapshotSchema _ ?o = Ok _ |- _ => unfold snapshotSchema in H; rename H into Hsn end.
  destruct (snapshot_visit _ _ d 0) as [r n'] eqn:Hv. simpl in Hsn. subst r.
  by eapply message_schema.
Qed.

(** A descriptor is an object like any other: no member twice. *)
Lemma keys_ok_data kvs : NoDup (map fst kvs) -> Forall (fun kv => keys_ok kv.2) kvs -> keys_ok (obj kvs).
Proof.
  intros Hn Hk. apply keys_ok_obj. split; [|by apply Forall_map].
  rewrite map_map. simpl. clear Hk. induction kvs as [|kv kvs IH]; simpl in *; [constructor|].
  apply NoDup_cons in Hn as [Hni Hn]. apply NoDup_cons. split; [|by apply IH].
  intros (p & Heq & Hp)%list_elem_of_fmap. injection Heq as Heq. apply Hni. rewrite Heq. by apply (list_elem_of_fmap_2 fst).
Qed.
Lemma primitive_keys type upper d : primitive type upper = Ok d -> keys_ok d.
Proof.
  unfold primitive. repeat case_match; intros [= <-]; apply keys_ok_data; try (repeat constructor; fail);
    apply (bool_decide_eq_true_1 _); vm_compute; reflexivity.
Qed.
Lemma field_keys msg t d : (forall type d, msg type = Ok d -> keys_ok d) -> field_value msg t = Ok d -> keys_ok d.
Proof.
  intros Hm H. unfold field_value in H. apply result_bind_Ok in H as (v & Hv & H).
  assert (Hkv : keys_ok v) by (destruct (isPrimitiveType t); [by eapply primitive_keys | by eapply Hm]).
  destruct (isArray t); [|by injection H as <-]. unfold bounds, nullable in H.
  destruct (decide _); injection H as <-; repeat case_match; apply keys_ok_data;
    first [ repeat constructor; done | apply (bool_decide_eq_true_1 _); vm_compute; reflexivity ].
Qed.
Lemma message_keys lookup fuel active type d : message lookup fuel active type = Ok d -> keys_ok d.
Proof.
  revert active type d. induction fuel as [|fuel IH]; intros active type d; [done|]. simpl. intros H.
  apply result_bind_Ok in H as (? & _ & H). apply result_bind_Ok in H as (l & Hl & H). apply result_bind_Ok in H as (fields & Hf & H).
  injection H as <-. pose proof Hf as (Hnd & vs & Hm & Hlen & Hvs)%add_fields_Ok; [|constructor].
  apply add_fields_members in Hf as (_ & Hnames & Hvalue).
  apply keys_ok_data; [apply (bool_decide_eq_true_1 _); vm_compute; reflexivity|]. constructor; [done|]. constructor; [|done]. cbn [snd].
  destruct (object_of_perm fields) as (kvs & -> & Hperm). apply keys_ok_data.
  - unfold mkeys in Hnd. by rewrite Hperm.
  - apply Forall_forall. intros [k v] Hin. rewrite Hperm in Hin. simpl.
    assert (Hk : k ∈ map name l) by (rewrite <- Hnames; by apply (list_elem_of_fmap_2 fst) in Hin).
    apply list_elem_of_fmap in Hk as (f & -> & Hfl). eapply field_keys; [exact (IH (type :: active))|]. by apply Hvalue.
Qed.
Lemma descriptor_keys lookup type maxDepth d : descriptorFromRos lookup type maxDepth = Ok d -> keys_ok d.
Proof. unfold descriptorFromRos. intros H. inv_res. subst. by eapply message_keys. Qed.

(** C11: the codec of a topic is the codec of its ROS type.  Whatever the type
    generator answers, a codec made from a descriptor that was built has
    exactly the fields of the message, each with the width, sign, length bounds
    and nested message its definition gives; and a type that contains itself,
    through whatever nesting, is refused. *)
Theorem descriptor_sound lookup type maxDepth :
  (forall d ov c, descriptorFromRos lookup type maxDepth = Ok d -> createCodec d ov = Ok c ->
    ros_schema lookup type (schema c)) /\
  (tc (contains lookup) type type -> exists e, descriptorFromRos lookup type maxDepth = Throw e).
Proof.
  split; [intros d ov c; apply descriptor_schema|]. intros Hc. destruct (descriptorFromRos lookup type maxDepth) as [d|e] eqn:Hd; [|by exists e].
  exfalso. assert (exists c, createCodec d (obj [(js "maxDepth", maxDepth)]) = Ok c) as [c Hcodec].
  { unfold descriptorFromRos in Hd. inv_res. subst. eauto. }
  eapply no_cycle; [by eapply descriptor_schema | exact Hc].
Qed.

(** ** Concrete types *)

Definition plain (t : string) : RosType := {| type_ := js t; pkgName := None; isPrimitiveType := true; isArray := false;
  isFixedSizeArray := false; arraySize := None; isUpperBound := false; stringUpperBound := None |}.
Definition nested (p t : string) : RosType := {| type_ := js t; pkgName := Some (js p); isPrimitiveType := false; isArray := false;
  isFixedSizeArray := false; arraySize := None; isUpperBound := false; stringUpperBound := None |}.
Definition field (n : string) (t : RosType) : RosField := {| name := js n; info := t |}.
Definition demo_lookup (type : jsstr) : result (list RosField) :=
  if decide (type = js "a/msg/Twist") then Ok [field "linear" (nested "a" "Vector"); field "stamp" (plain "uint64")]
  else if decide (type = js "a/msg/Vector") then Ok [field "x" (plain "float64"); field "y" (plain "float64")]
  else if decide (type = js "a/msg/Loop") then Ok [field "next" (nested "a" "Loop")]
  else Throw (Error "unknown").
Definition default_depth : jsval := VNum (of_Z 32).
Definition demo_descriptor : jsval :=
  match descriptorFromRos demo_lookup (js "a/msg/Twist") default_depth with Ok d => d | Throw _ => VUndefined end.
Definition demo_schema : Field := FObject [(js "linear", FObject [(js "x", FFloat 64); (js "y", FFloat 64)]); (js "stamp", FInteger 64 false)].

Lemma descriptor_sound_witness :
  ros_schema demo_lookup (js "a/msg/Twist") demo_schema /\
  exists e, descriptorFromRos demo_lookup (js "a/msg/Loop") default_depth = Throw e.
Proof.
  split.
  - assert (Hc : exists c, createCodec demo_descriptor (obj []) = Ok c /\ schema c = demo_schema).
    { eexists. split; vm_compute; reflexivity. }
    destruct Hc as (c & Hc & <-). eapply (proj1 (descriptor_sound demo_lookup (js "a/msg/Twist") default_depth)); [|exact Hc].
    vm_compute. reflexivity.
  - apply (proj2 (descriptor_sound demo_lookup (js "a/msg/Loop") default_depth)). constructor.
    exists [field "next" (nested "a" "Loop")], (field "next" (nested "a" "Loop")). split_and!; [reflexivity | left | reflexivity..|].
    by intros [? _].
Defined.
End Descriptor.
