(* ===== verification/Representation.v ===== *)
(** * The native representation

    [ros/representation.ts]: between the values of the codec and the ones the
    ROS addon takes and gives: 64-bit integers as bigints, numbers or decimal
    texts, byte sequences as arrays of numbers.  Descriptors are the validated
    [Field]s the codec holds. *)

From S2P Require Import Prelude JsNumber JsFloat32 JsString JsMap Regex Values Base64 CodecTypes CodecScalars CodecSchema Codec CodecProps CodecDecode CodecMain.

#[local] Arguments visit : simpl never.
#[local] Arguments Codec.convert : simpl never.

Module Representation.

(** [createCodec(field)] and [createCodec(field, { maxArrayLength })]. *)
Definition standard : CodecOptions := {| maxDepth := 32; maxArrayLength := 4096; maxStringBytes := 16384;
  maxByteLength := 16384; maxNodes := 32768; allowNonFinite := true |}.
Definition scalar_codec (f : Field) : codec := {| options := standard; schema := f |}.
Definition byte_codec (bounds : LengthBounds) (maxBytes : Z) : codec := {|
  options := {| maxDepth := 32; maxArrayLength := maxBytes; maxStringBytes := 16384;
    maxByteLength := 16384; maxNodes := 32768; allowNonFinite := true |};
  schema := FArray bounds (FInteger 8 false) |}.

(** [Array.from(bytes)] and [Uint8Array.from(numbers)] on what the codec gave. *)
Definition to_numbers (value : jsval) : result jsval :=
  match value with VBytes bs => Ok (arr (map (fun b => VNum (of_Z b)) bs)) | _ => Throw (TypeError "not iterable") end.
Definition to_bytes (value : jsval) : result jsval :=
  match value with
  | VArr slots _ => Ok (VBytes (map (fun s => match s.2 with VNum x => default 0 (to_Z x) mod 256 | _ => 0 end) slots))
  | _ => Throw (TypeError "not iterable")
  end.

Definition int64 (signed : bool) (value : jsval) : result jsval :=
  let c := scalar_codec (FInteger 64 signed) in
  match value with
  | VNum x =>
      throw_when (negb (is_safe_integer x)) (TypeError "unsafe_native_int64");;
      Ok (VBigInt (default 0 (to_Z x)))
  | VBigInt _ => wire ← encode c value; decode c wire
  | _ => decode c value
  end.

Section convert.
(** The limits of the codec, which are those of [options] with their defaults. *)
Variable o : CodecOptions.

(** [convert(field, value, from)]; the state is [visited]. *)
Fixpoint convert (from : bool) (field : Field) (value : jsval) : ST Z jsval :=
  modify (fun n => n + 1);;
  n ← get;
  throw_when (maxNodes o <? n) (TypeError "native_node_limit");;
  match field with
  | FInteger bits signed =>
      if bits =? 64 then if from then lift (int64 signed value) else mret value else mret value
  | FBytes bounds =>
      if from then bytes ← lift (encode (byte_codec bounds (maxByteLength o)) value); lift (to_bytes bytes)
      else lift (to_numbers value)
  | FArray _ element =>
      match value with
      | VArr slots extra =>
          throw_when (maxArrayLength o <? zlength slots) (TypeError "invalid_native_array");;
          throw_when (negb (own_slots slots extra =? zlength slots)) (TypeError "invalid_native_array_keys");;
          vs ← mapS (fun s =>
            throw_when (negb (bool_decide (s.1 = DataSlot))) (TypeError "invalid_native_array_property");;
            convert from element s.2) slots;
          mret (arr vs)
      | _ => mthrow (TypeError "invalid_native_array")
      end
  | FObject fields =>
      lift (CodecSchema.record value);;
      match value with
      | VObj _ props =>
          kvs ← mapS (fun p =>
            let key := match p.1.1 with StringKey k => k | SymbolKey => [] end in
            v ← (match mget key fields with Some child => convert from child p.2 | None => mret p.2 end);
            mret (key, v)) props;
          mret (obj kvs)
      | _ => mthrow (TypeError "invalid_native_object")
      end
  | _ => mret value
  end.
End convert.

(** [rosRepresentation(descriptor, options)]. *)
Definition from_native (c : codec) (native : jsval) : result jsval :=
  value ← (convert (options c) true (schema c) native 0).1;
  wire ← encode c value;
  decode c wire.
Definition to_native (c : codec) (native : jsval) : result jsval :=
  wire ← encode c native;
  value ← decode c wire;
  (convert (options c) false (schema c) value 0).1.

(** ** Back and forth *)

Lemma count_step {A} o n (m : ST Z A) r n' :
  (modify (fun n => n + 1);; n ← get; throw_when (maxNodes o <? n) (TypeError "native_node_limit");; m) n = (Ok r, n') <->
  n + 1 <= maxNodes o /\ m (n + 1) = (Ok r, n').
Proof.
  unfold_st. destruct (Z.ltb_spec (maxNodes o) (n + 1)); [split; [done | intros []; lia]|]. tauto.
Qed.

(** One level of the traversal, by the kind of the field. *)
Definition leaf (o : CodecOptions) (from : bool) (f : Field) (v : jsval) : ST Z jsval :=
  match f with
  | FInteger bits signed => if bits =? 64 then if from then lift (int64 signed v) else mret v else mret v
  | FBytes bounds =>
      if from then bytes ← lift (encode (byte_codec bounds (maxByteLength o)) v); lift (to_bytes bytes)
      else lift (to_numbers v)
  | _ => mret v
  end.
Lemma convert_leaf o from f v n r n' :
  is_scalar f = true ->
  convert o from f v n = (Ok r, n') <-> n + 1 <= maxNodes o /\ leaf o from f v (n + 1) = (Ok r, n').
Proof. intros Hf. rewrite <- count_step. by destruct f, v. Qed.
Lemma convert_array o from b e vs n r n' :
  zlength vs <= maxArrayLength o -> n + 1 <= maxNodes o ->
  mapS (convert o from e) vs (n + 1) = (Ok r, n') -> convert o from (FArray b e) (arr vs) n = (Ok (arr r), n').
Proof.
  intros Hl Hn Hm. apply count_step. split; [done|].
  assert (Hz : zlength (map (fun v => (DataSlot, v)) vs) = zlength vs) by (unfold zlength; by rewrite length_map).
  apply (ST_step (a := tt) (s1 := n + 1)); [rewrite Hz; unfold_st; by destruct (Z.ltb_spec (maxArrayLength o) (zlength vs)); [lia|]|].
  apply (ST_step (a := tt) (s1 := n + 1)); [rewrite own_slots_data, Hz, Z.eqb_refl; done|].
  apply (ST_step (a := r) (s1 := n')); [|done]. rewrite mapS_map, <- Hm. apply mapS_ext. intros v m. by unfold_st.
Qed.
Lemma convert_object o from fields kvs n r n' :
  n + 1 <= maxNodes o ->
  mapS (fun kv => v ← (match mget kv.1 fields with Some c => convert o from c kv.2 | None => mret kv.2 end); mret (kv.1, v))
    kvs (n + 1) = (Ok r, n') ->
  convert o from (FObject fields) (obj kvs) n = (Ok (obj r), n').
Proof.
  intros Hn Hm. apply count_step. split; [done|]. apply (lift_step (record_obj kvs)).
  apply (ST_step (a := r) (s1 := n')); [|done]. by rewrite mapS_map.
Qed.

Lemma int64_bigint s z : int_min 64 s <= z <= int_max 64 s -> int64 s (VBigInt z) = Ok (VBigInt z).
Proof.
  intros Hz. unfold int64.
  assert (Hi : integer 64 s (VBigInt z) true = Ok (VStr (Z_to_js z))).
  { unfold integer, parse_integer. simpl. by replace ((int_min 64 s <=? z) && (z <=? int_max 64 s)) with true by lia. }
  destruct (integer_roundtrip 64 s (VBigInt z) (VStr (Z_to_js z)) ltac:(set_solver) Hi) as (Hd & _ & _).
  assert (Hone : forall enc v w, integer 64 s v enc = Ok w -> Codec.convert standard enc (FInteger 64 s) v = Ok w).
  { intros enc v w Hv. apply convert_Ok. exists 1. by apply visit_scalar_Ok. }
  unfold encode, decode, scalar_codec. cbn [options schema]. rewrite (Hone true _ _ Hi). cbn. by apply Hone.
Qed.

Lemma byte_mod b : byte b = true -> default 0 (to_Z (of_Z b)) mod 256 = b /\ Z.abs b <= MAX_SAFE_INTEGER.
Proof.
  unfold byte, between. intros Hb. bools. assert (Z.abs b <= MAX_SAFE_INTEGER) by (unfold MAX_SAFE_INTEGER; lia).
  rewrite to_Z_of_Z by done. simpl. split; [apply Z.mod_small; lia | done].
Qed.

Lemma visit_bytes o bs n :
  Forall (fun b => byte b = true) bs -> 1 <= maxDepth o -> n + zlength bs <= maxNodes o ->
  mapS (fun s => v ← lift (data_slot s); visit o true (FInteger 8 false) v 1) (map (fun b => (DataSlot, VNum (of_Z b))) bs) n =
    (Ok (map (fun b => VNum (of_Z b)) bs), n + zlength bs).
Proof.
  intros Hbs Hd. revert n. induction Hbs as [|b bs Hb Hbs IH]; intros n Hn; [by rewrite zlength_nil, Z.add_0_r|].
  rewrite zlength_cons in *. pose proof (zlength_nonneg bs). simpl mapS. rewrite ST_bind_eq.
  assert (Hv : visit o true (FInteger 8 false) (VNum (of_Z b)) 1 n = (Ok (VNum (of_Z b)), n + 1)).
  { apply visit_scalar_Ok; [done|]. split_and!; [by apply Z.leb_le | done | lia |]. cbn [scalar]. unfold integer, parse_integer.
    destruct (byte_mod b Hb) as [_ Hr]. rewrite to_Z_of_Z by done. unfold byte, between in Hb.
    change (8 =? 64) with false. cbv iota. cbn [of_option mbind result_bind].
    change ((int_min 8 false <=? b) && (b <=? int_max 8 false)) with ((0 <=? b) && (b <=? 255)). by rewrite Hb. }
  rewrite ST_bind_eq. change (lift (data_slot (DataSlot, VNum (of_Z b)))) with (lift (S := Z) (Ok (VNum (of_Z b)))).
  unfold lift at 1. cbn beta iota. rewrite Hv.
  rewrite ST_bind_eq. rewrite (IH (n + 1)) by lia. unfold_st.
  f_equal; lia.
Qed.

(** A second pass that undoes the first one, both with the same cost. *)
Lemma mapS_both {A B} (f : A -> ST Z B) (g : B -> ST Z A) (c : A -> Z) m l s :
  Forall (fun x => 0 <= c x) l ->
  Forall (fun x => forall s, s + c x <= m -> exists y, f x s = (Ok y, s + c x) /\ g y s = (Ok x, s + c x)) l ->
  s + zsum c l <= m ->
  exists ys, mapS f l s = (Ok ys, s + zsum c l) /\ mapS g ys s = (Ok l, s + zsum c l) /\ List.length ys = List.length l.
Proof.
  intros Hc Hl. revert s. induction Hl as [|x l Hx _ IH]; intros s Hs; simpl in *.
  { exists []. unfold_st. by rewrite Z.add_0_r. }
  apply Forall_cons in Hc as [Hcx Hc]. assert (0 <= zsum c l) by (clear -Hc; induction Hc; simpl; lia).
  destruct (Hx s) as (y & Hf & Hg); [lia|]. destruct (IH Hc (s + c x)) as (ys & Hfs & Hgs & Hlen); [lia|].
  exists (y :: ys). simpl. rewrite !ST_bind_eq, Hf, Hg, !ST_bind_eq, Hfs, Hgs. unfold_st. rewrite Z.add_assoc.
  by rewrite Hlen.
Qed.

Lemma node_count_pos v : 0 <= node_count v.
Proof.
  revert v. fix IH 1. intros [| | | | | | | | |slots extra|p props]; simpl; try lia.
  - induction slots as [|[k v] l IHl]; [lia|]. pose proof (IH v). lia.
  - induction props as [|[k v] l IHl]; [lia|]. pose proof (IH v). lia.
Qed.

Definition bytes_fit (o : CodecOptions) : Prop := maxByteLength o < 32768.

Lemma bytes_back o b bs :
  Forall (fun x => byte x = true) bs -> bytes_fit o -> checkLength (zlength bs) b (maxByteLength o) = Ok tt ->
  encode (byte_codec b (maxByteLength o)) (arr (map (fun b => VNum (of_Z b)) bs)) =
    Ok (arr (map (fun b => VNum (of_Z b)) bs)) /\
  to_bytes (arr (map (fun b => VNum (of_Z b)) bs)) = Ok (VBytes bs).
Proof.
  intros Hbs Hfit Hc. unfold bytes_fit in Hfit. pose proof (zlength_nonneg bs). split.
  - unfold encode, byte_codec. cbn [options schema]. apply convert_Ok. eexists. apply visit_array_Ok.
    exists (map (fun b => (DataSlot, VNum (of_Z b))) bs), 0%nat, (map (fun b => VNum (of_Z b)) bs).
    assert (Hz : zlength (map (fun b => (DataSlot, VNum (of_Z b))) bs) = zlength bs)
      by (unfold zlength; by rewrite length_map).
    split_and!; [unfold arr; by rewrite map_map | done | simpl; lia | by rewrite Hz | | done |].
    + pose proof (own_slots_data (map (fun b => VNum (of_Z b)) bs)) as Ho. rewrite map_map in Ho.
      rewrite Ho. unfold zlength. by rewrite !length_map.
    + apply visit_bytes; [done | simpl; lia |]. apply checkLength_Ok in Hc. simpl. lia.
  - unfold to_bytes, arr. do 2 f_equal. rewrite !map_map. simpl. apply map_id_Forall.
    eapply Forall_impl; [exact Hbs|]. intros x Hx. by destruct (byte_mod x Hx).
Qed.

Lemma zip_member {P : jsstr * Field -> jsval -> Prop} fields vs k v :
  Forall2 P fields vs -> (k, v) ∈ zip (map fst fields) vs -> exists c, (k, c) ∈ fields /\ P (k, c) v.
Proof.
  induction 1 as [|[k' c] v' fields vs Hp _ IH]; simpl; [by intros ?%elem_of_nil|].
  intros [[= -> ->]|Hin]%elem_of_cons; [exists c; split; [left | done]|].
  destruct (IH Hin) as (c' & ? & ?). exists c'. split; [by right | done].
Qed.

(** What the native side holds of a conforming value converts back to it. *)
Lemma convert_back o f :
  schema_ok f -> bytes_fit o -> forall v n, conforms o f v -> n + node_count v <= maxNodes o ->
  exists r, convert o false f v n = (Ok r, n + node_count v) /\ convert o true f r n = (Ok v, n + node_count v).
Proof.
  intros Hs Hfit. induction f as [|b|bits s|bits|b|b e IH|fields IH] using Field_ind'; intros v n Hv Hn.
  1-4: exists v; assert (Hone : node_count v = 1) by
    (simpl in Hv; destruct_and?; naive_solver (by case_match)); rewrite Hone in *;
    split; (apply convert_leaf; [done|]; split; [done|]); try done.
  - simpl. by destruct (bits =? 64).
  - destruct Hv as (z & Hz & ->). simpl. destruct (Z.eqb_spec bits 64) as [->|]; [|done].
    unfold lift. by rewrite int64_bigint.
  - destruct Hv as (bs & -> & Hbs & Hc). destruct (bytes_back o b bs Hbs Hfit Hc) as [H1 H2].
    eexists. split; (apply convert_leaf; [done|]; split; [done|]); [done|]. simpl. unfold lift at 1. rewrite H1.
    rewrite ST_bind_eq. cbn -[to_bytes]. unfold lift. by rewrite H2.
  - destruct Hv as (vs & -> & Hc & Hall). rewrite node_count_arr in *. simpl in Hs.
    destruct (mapS_both (convert o false e) (convert o true e) node_count (maxNodes o) vs (n + 1))
      as (rs & Hf & Hg & Hlen); [apply Forall_forall; intros; apply node_count_pos | | lia |].
    { eapply Forall_impl; [exact Hall|]. intros v Hv m Hm. by apply IH. }
    pose proof Hc as (Hlim & _)%checkLength_Ok.
    pose proof (zsum_nonneg node_count vs node_count_pos).
    exists (arr rs). rewrite Z.add_assoc.
    split; apply convert_array; try done; [lia| |lia]. unfold zlength in *. by rewrite Hlen.
  - apply conforms_object in Hv as (vs & -> & Hall). apply schema_ok_object in Hs as [Hnd Hs].
    rewrite node_count_obj in *.
    set (pass from := fun kv : jsstr * jsval =>
      v ← (match mget kv.1 fields with Some c => convert o from c kv.2 | None => mret kv.2 end); mret (M := ST Z) (kv.1, v)).
    pose proof (zsum_nonneg (fun kv : jsstr * jsval => node_count kv.2) (zip (map fst fields) vs)
      (fun kv => node_count_pos kv.2)).
    destruct (mapS_both (pass false) (pass true) (fun kv => node_count kv.2) (maxNodes o) (zip (map fst fields) vs) (n + 1))
      as (rs & Hf & Hg & _); [apply Forall_forall; intros; apply node_count_pos | | lia |].
    { apply Forall_forall. intros [k v] Hin m Hm.
      destruct (zip_member fields vs k v Hall Hin) as (c & Hc & Hv). simpl in *.
      rewrite Forall_forall in IH, Hs.
      destruct (IH (k, c) Hc (Hs _ Hc) v m Hv Hm) as (r & H1 & H2). exists (k, r). unfold pass. simpl.
      rewrite (elem_mget k c fields Hnd Hc). rewrite !ST_bind_eq. simpl in H1, H2. by rewrite H1, H2. }
    exists (obj rs). rewrite Z.add_assoc. split; apply convert_object; done || lia.
Qed.

(** ** The contract of a converter *)

(** A value the codec decoded is its own normal form. *)
Lemma decoded_norm d ov c w v : keys_ok d -> createCodec d ov = Ok c -> decode c w = Ok v -> norm (schema c) v = v.
Proof.
  intros Hk Hc%createCodec_schema_ok [n Hd]%convert_Ok; [|done]. by destruct (visit_decodes _ _ Hc _ _ _ _ _ Hd) as (_ & ? & _).
Qed.

Lemma native_back d ov c v w :
  keys_ok d -> createCodec d ov = Ok c -> bytes_ok v -> bytes_fit (options c) -> encode c v = Ok w ->
  exists r, to_native c v = Ok r /\ from_native c r = Ok (norm (schema c) v).
Proof.
  intros Hk Hc%createCodec_schema_ok Hv Hfit [n' Hw]%convert_Ok; [|done].
  destruct (visit_encodes _ _ Hc _ _ _ _ _ Hv Hw) as (Hd & He & _).
  destruct (visit_decodes _ _ Hc _ _ _ _ _ Hd) as (Hconf & _). apply visit_budget in Hd as Hb.
  destruct (convert_back _ _ Hc Hfit _ 0 Hconf) as (r & H1 & H2); [lia|]. exists r.
  assert (Hd' : decode c w = Ok (norm (schema c) v)) by (apply convert_Ok; eauto).
  assert (Hw' : encode c v = Ok w) by (apply convert_Ok; eauto).
  assert (He' : encode c (norm (schema c) v) = Ok w) by (apply convert_Ok; eauto).
  unfold to_native, from_native. rewrite Hw'. cbn. rewrite Hd'. cbn. rewrite H1, H2. cbn. by rewrite He'.
Qed.
Lemma from_native_typed d ov c native v :
  keys_ok d -> createCodec d ov = Ok c -> from_native c native = Ok v -> conforms (options c) (schema c) v.
Proof.
  intros Hk Hc%createCodec_schema_ok H; [|done]. unfold from_native in H. inv_res. apply convert_Ok in H as [n' H].
  by destruct (visit_decodes _ _ Hc _ _ _ _ _ H) as (? & _).
Qed.

(** The native side of a codec.  Every value the codec can encode reaches
    the addon, and what the addon then holds comes back as the normal form of
    that value: no integer loses precision and no byte is lost, up to the
    node limit of the inner byte codec.  Whatever the addon delivers, only
    values of the declared type pass. *)
Theorem native_boundary d ov c :
  keys_ok d -> createCodec d ov = Ok c ->
  (forall v w, bytes_ok v -> bytes_fit (options c) -> encode c v = Ok w ->
    exists r, to_native c v = Ok r /\ from_native c r = Ok (norm (schema c) v)) /\
  (forall native v, from_native c native = Ok v -> conforms (options c) (schema c) v).
Proof.
  intros Hk Hc. split; [intros v w; by apply (native_back d ov) | intros native v; by apply (from_native_typed d ov)].
Qed.

Lemma native_boundary_witness :
  exists r, to_native demo_codec (demo_native ["a"%string]) = Ok r /\
    prop "stamp" r = VBigInt (-42) /\ prop "data" r = arr [VNum (of_Z 255); VNum (of_Z 0)] /\
    from_native demo_codec r = Ok demo_decoded.
Proof.
  destruct (proj1 (native_boundary _ _ _ demo_keys demo_codec_created) _ _ demo_bytes
    ltac:(vm_compute; reflexivity) demo_encodes) as (r & Hr & Hback).
  exists r. split; [exact Hr|]. vm_compute in Hr. injection Hr as <-.
  split; [vm_compute; reflexivity|]. split; [vm_compute; reflexivity|]. exact Hback.
Defined.

(** A byte sequence the byte limit admits but the inner codec does not. *)
Example large_bytes :
  let c := {| options := {| maxDepth := 32; maxArrayLength := 4096; maxStringBytes := 16384;
    maxByteLength := 40000; maxNodes := 32768; allowNonFinite := true |};
    schema := FBytes {| length := None; maxLength := None |} |} in
  match to_native c (VBytes (repeat 7 32768)) with
  | Ok r => from_native c r = Throw (invalid "payload complexity")
  | Throw _ => False
  end.
Proof. vm_compute. reflexivity. Qed.
End Representation.
