(* ===== verification/Sdp.v ===== *)
(** * SDP inspection

    [transport/sdp.ts]: an offer is split into sections and reduced to the
    facts the transport acts on; everything else is rejected. *)

From S2P Require Import Prelude JsNumber JsString Regex Values.

Record OfferedVideo := { payloadType : Z; profileLevelId : jsstr }.
Record OfferShape := { maxMessageBytes : option Z; video : list OfferedVideo }.

Definition MAX_LINES : Z := 2048.

(** ** String operations of the language *)

(** [s.split('\r\n')] *)
Fixpoint split_crlf (s : jsstr) : list jsstr :=
  match s with
  | [] => [[]]
  | c :: s' =>
      match s' with
      | d :: s'' =>
          if (c =? 13) && (d =? 10) then [] :: split_crlf s''
          else match split_crlf s' with w :: ws => (c :: w) :: ws | [] => [[c]] end
      | [] => [[c]]
      end
  end.

(** The white space of [\s] and of [trim]. *)
Definition white (c : Z) : bool :=
  between 9 13 c || (c =? 32) || (c =? 0xA0) || (c =? 0x1680) || between 0x2000 0x200A c
  || (c =? 0x2028) || (c =? 0x2029) || (c =? 0x202F) || (c =? 0x205F) || (c =? 0x3000) || (c =? 0xFEFF).
Fixpoint trimStart (s : jsstr) : jsstr :=
  match s with c :: s' => if white c then trimStart s' else s | [] => [] end.
Definition trim (s : jsstr) : jsstr := rev (trimStart (rev (trimStart s))).
(** [toLowerCase] of ASCII text. *)
Definition toLowerCase (s : jsstr) : jsstr := map (fun c => if upper c then c + 32 else c) s.

(** ** Sections *)

(** [const { session, sections } = split(sdp)]; a line joins the last section,
    or the session part while there is none. *)
Definition push_line (st : list jsstr * list (list jsstr)) (line : jsstr) :
  list jsstr * list (list jsstr) :=
  let '(session, sections) := st in
  if startsWith line (js "m=") then (session, sections ++ [[line]])
  else match rev sections with
       | [] => (session ++ [line], [])
       | lst :: before => (session, rev before ++ [lst ++ [line]])
       end.

Definition split (sdp : jsstr) : result (list jsstr * list (list jsstr)) :=
  let lines := split_crlf sdp in
  throw_when (MAX_LINES <? zlength lines) (Error "invalid_offer");;
  Ok (foldl push_line ([], []) lines).

(** [/^a=mid:\s*$/] and [/^a=rtpmap:(\d+) H264\/90000$/] *)
Definition empty_mid_re : re := RCat (rlit "a=mid:") (RStar (RCls white)).
Definition rtpmap_re : re := rcats [rlit "a=rtpmap:"; rplus (RCls digit); rlit " H264/90000"].
(** The group [(\d+)] of a match. *)
Definition rtpmap_digits (line : jsstr) : jsstr :=
  take (length line - String.length "a=rtpmap: H264/90000") (drop (String.length "a=rtpmap:") line).
(** [/^profile-level-id=[0-9A-Fa-f]{6}$/] *)
Definition hex_digit (c : Z) : bool := digit c || between 65 70 c || between 97 102 c.
Definition profile_re : re := RCat (rlit "profile-level-id=") (rrep 6 (RCls hex_digit)).

Definition videoSlot (lines : list jsstr) : result OfferedVideo :=
  throw_when (bool_decide (js "a=recvonly" ∉ lines)) (Error "invalid_video_section");;
  throw_when (existsb (fun line => startsWith line (js "a=simulcast:") || startsWith line (js "a=rid:")) lines)
    (Error "invalid_video_section");;
  throw_when (existsb (matches empty_mid_re) lines) (Error "invalid_video_section");;
  match find (matches rtpmap_re) lines with
  | None => Throw (Error "unsupported_video_codec")
  | Some line =>
      let payloadType := js_to_Z (rtpmap_digits line) in
      throw_when (127 <? payloadType) (Error "unsupported_video_codec");;
      let prefix := js "a=fmtp:" ++ Z_to_js payloadType ++ js " " in
      fmtp ← of_option (Error "unsupported_video_codec") (find (fun candidate => startsWith candidate prefix) lines);
      let parameters := map trim (split_on 59 (drop (length prefix) fmtp)) in
      throw_when (bool_decide (js "packetization-mode=1" ∉ parameters)) (Error "unsupported_video_codec");;
      profile ← of_option (Error "unsupported_video_codec") (find (matches profile_re) parameters);
      Ok {| payloadType := payloadType;
            profileLevelId := toLowerCase (drop (String.length "profile-level-id=") profile) |}
  end.

Definition datachannelSection (line : jsstr) : bool :=
  match split_on 32 line with
  | [f0; _; f2; f3] =>
      bool_decide (f0 = js "m=application") && includes f2 (js "DTLS/SCTP")
      && bool_decide (f3 = js "webrtc-datachannel")
  | _ => false
  end.

(** [lines[0]] of a section. *)
Definition heading (lines : list jsstr) : jsstr := default [] (head lines).
(** [/^a=max-message-size:\d+$/] *)
Definition message_limit_re : re := RCat (rlit "a=max-message-size:") (rplus (RCls digit)).

Definition parseOffer (sdp : jsstr) (maxVideo : Z) : result OfferShape :=
  '(session, sections) ← split sdp;
  let application := filter (fun lines => datachannelSection (heading lines) = true) sections in
  match application with
  | [app] =>
      let videos := filter (fun lines => startsWith (heading lines) (js "m=video ") = true) sections in
      throw_when (negb (zlength application + zlength videos =? zlength sections)) (Error "datachannel_only");;
      throw_when (maxVideo <? zlength videos)
        (Error (if maxVideo =? 0 then "datachannel_only" else "video_slot_limit"));;
      let limits := filter (fun line => matches message_limit_re line = true) (session ++ app) in
      throw_when (1 <? zlength limits) (Error "invalid_message_limit");;
      let advertised := match limits with
        | [] => None
        | line :: _ => Some (js_to_Z (drop (String.length "a=max-message-size:") line)) end in
      throw_when (match advertised with Some n => MAX_SAFE_INTEGER <? n | None => false end)
        (Error "invalid_message_limit");;
      slots ← mapR videoSlot videos;
      Ok {| maxMessageBytes := advertised; video := slots |}
  | _ => Throw (Error "datachannel_only")
  end.

(** ** Examples *)

Definition crlf (lines : list string) : jsstr := concat (map (fun l => js l ++ [13; 10]) lines).
Definition demo_offer : jsstr := crlf
  ["v=0"; "m=application 9 UDP/DTLS/SCTP webrtc-datachannel"; "a=max-message-size:65536";
   "m=video 9 UDP/TLS/RTP/SAVPF 096"; "a=mid:1"; "a=recvonly"; "a=rtpmap:096 H264/90000";
   "a=fmtp:96 level-asymmetry-allowed=1; packetization-mode=1;profile-level-id=42E01F"]%string.
Lemma demo_offer_parsed : parseOffer demo_offer 1 =
  Ok {| maxMessageBytes := Some 65536;
        video := [{| payloadType := 96; profileLevelId := js "42e01f" |}] |}.
Proof. vm_compute. reflexivity. Qed.

(** ** Splitting loses nothing *)

(** [lines.join('\r\n')] *)
Fixpoint join_crlf (lines : list jsstr) : jsstr :=
  match lines with
  | [] => []
  | [l] => l
  | l :: lines => l ++ [13; 10] ++ join_crlf lines
  end.

Lemma split_crlf_nonempty s : split_crlf s <> [].
Proof.
  destruct s as [|c [|d s]]; simpl; try done. destruct (_ && _); [done|].
  by destruct (match s with [] => _ | _ :: _ => _ end).
Qed.

Lemma join_split n s : (length s <= n)%nat -> join_crlf (split_crlf s) = s.
Proof.
  revert s. induction n as [|n IH]; intros [|c s] Hn; simpl in *; try done; [lia|].
  destruct s as [|d s]; [done|]. destruct (_ && _) eqn:E.
  - bools. subst. simpl in Hn. pose proof (split_crlf_nonempty s) as Hs.
    specialize (IH s ltac:(lia)). simpl. destruct (split_crlf s) as [|w ws]; [done|].
    by rewrite IH.
  - specialize (IH (d :: s) ltac:(lia)). pose proof (split_crlf_nonempty (d :: s)) as Hs.
    destruct (split_crlf (d :: s)) as [|w ws]; [done|]. rewrite <- IH. by destruct ws.
Qed.

Definition media_line (line : jsstr) : Prop := startsWith line (js "m=") = true.
Definition a_section (lines : list jsstr) : Prop :=
  match lines with
  | l :: rest => media_line l /\ Forall (fun l => ~ media_line l) rest
  | [] => False
  end.

Lemma push_line_spec session sections line session' sections' :
  Forall (fun l => ~ media_line l) session -> Forall a_section sections ->
  push_line (session, sections) line = (session', sections') ->
  session' ++ concat sections' = session ++ concat sections ++ [line] /\
  Forall (fun l => ~ media_line l) session' /\ Forall a_section sections'.
Proof.
  unfold push_line. intros Hs Hse. destruct (startsWith line (js "m=")) eqn:E.
  { intros [= <- <-]. rewrite concat_app. simpl. split_and!; [done | done |].
    apply Forall_app. split; [done|]. constructor; [by split | done]. }
  assert (Hl : ~ media_line line) by (unfold media_line; congruence).
  destruct (rev sections) as [|lst before] eqn:Er; intros [= <- <-].
  - assert (sections = []) as -> by (rewrite <- (rev_involutive sections), Er; done). simpl.
    rewrite !app_nil_r. split_and!; [done | | done]. by apply Forall_app; split; [|constructor].
  - assert (sections = rev before ++ [lst]) as -> by (rewrite <- (rev_involutive sections), Er; done).
    rewrite !concat_app. simpl. rewrite !app_nil_r, <- !app_assoc. split_and!; [done | done |].
    apply Forall_app in Hse as [Hb Hlst]. apply Forall_app. split; [done|].
    apply Forall_cons in Hlst as [Hlst _]. constructor; [|done]. destruct lst as [|l0 rest]; [done|].
    destruct Hlst as [? ?]. split; [done|]. apply Forall_app. by split; [|constructor].
Qed.

Lemma split_spec sdp session sections :
  split sdp = Ok (session, sections) ->
  join_crlf (session ++ concat sections) = sdp /\ zlength (session ++ concat sections) <= MAX_LINES /\
  Forall (fun l => ~ media_line l) session /\ Forall a_section sections.
Proof.
  unfold split. intros H. inv_res. bools.
  enough (Hf : forall ls s0 se0, Forall (fun l => ~ media_line l) s0 -> Forall a_section se0 ->
    foldl push_line (s0, se0) ls = (session, sections) ->
    session ++ concat sections = s0 ++ concat se0 ++ ls /\
    Forall (fun l => ~ media_line l) session /\ Forall a_section sections).
  { destruct (Hf _ [] [] ltac:(done) ltac:(done) H) as (-> & ? & ?). simpl.
    split_and!; [by eapply join_split | lia | done | done]. }
  clear. induction ls as [|l ls IH]; intros s0 se0 Hs Hse; cbn [foldl].
  { intros [= -> ->]. by rewrite app_nil_r. }
  destruct (push_line (s0, se0) l) as [s1 se1] eqn:Ep.
  destruct (push_line_spec _ _ _ _ _ Hs Hse Ep) as (Heq & Hs1 & Hse1).
  intros Hf. destruct (IH _ _ Hs1 Hse1 Hf) as (Hc & ? & ?). split_and!; [|done|done].
  rewrite Hc. rewrite !app_assoc, Heq, <- !app_assoc. done.
Qed.
