(* ===== verification/SdpProps.v ===== *)
(** * What an accepted offer contains

    The contract of [transport/sdp.ts]'s [parseOffer]. *)

From S2P Require Import Prelude JsNumber JsString Regex Values Sdp.

(** ** One accepted video section *)

Definition lower_hex (c : Z) : bool := digit c || between 97 102 c.

(** How the parameters of a slot's payload are announced. *)
Definition fmtp_of (v : OfferedVideo) : jsstr := js "a=fmtp:" ++ Z_to_js (payloadType v) ++ js " ".

Record slot_ok (lines : list jsstr) (v : OfferedVideo) : Prop := {
  slot_recvonly : js "a=recvonly" ∈ lines;
  slot_single : Forall (fun l => startsWith l (js "a=simulcast:") = false /\
    startsWith l (js "a=rid:") = false) lines;
  slot_named : Forall (fun l => matches empty_mid_re l = false) lines;
  (** the payload type of the first H.264 line, and of no later one *)
  slot_first : exists before d after,
    lines = before ++ (js "a=rtpmap:" ++ d ++ js " H264/90000") :: after /\
    Forall (fun l => matches rtpmap_re l = false) before /\
    d <> [] /\ Forall (fun c => digit c = true) d /\ payloadType v = js_to_Z d;
  slot_range : 0 <= payloadType v <= 127;
  (** the parameters of that payload, from its first [fmtp] line: mode 1, and
      the profile is the first [profile-level-id] among them, in lower case *)
  slot_fmtp : exists earlier rest later ps h qs,
    lines = earlier ++ (fmtp_of v ++ rest) :: later /\
    Forall (fun l => startsWith l (fmtp_of v) = false) earlier /\
    js "packetization-mode=1" ∈ map trim (split_on 59 rest) /\
    map trim (split_on 59 rest) = ps ++ (js "profile-level-id=" ++ h) :: qs /\
    Forall (fun p => matches profile_re p = false) ps /\
    zlength h = 6 /\ Forall (fun c => hex_digit c = true) h /\ profileLevelId v = toLowerCase h;
  slot_profile : zlength (profileLevelId v) = 6 /\
    Forall (fun c => lower_hex c = true) (profileLevelId v) }.

Lemma in_rcats_cons r rs s : in_re (rcats (r :: rs)) s -> exists a b, s = a ++ b /\ in_re r a /\ in_re (rcats rs) b.
Proof.
  destruct rs as [|r' rs]; [|apply in_cat_inv]. simpl. intros H.
  exists s, []. rewrite app_nil_r. split_and!; [done..|]. constructor.
Qed.
Lemma in_rlit s t : in_re (rlit s) t -> t = js s.
Proof.
  unfold rlit. revert t. induction (js s) as [|c l IH]; intros t.
  - by intros ?%in_eps_inv.
  - intros (a & b & -> & (c' & -> & Hc)%in_cls_inv & Hb%IH)%in_rcats_cons. bools. by subst.
Qed.
Lemma in_rlit_cat s r t : in_re (RCat (rlit s) r) t -> exists u, t = js s ++ u /\ in_re r u.
Proof. rewrite in_cat_inv. intros (a & u & -> & ->%in_rlit & Hu). by exists u. Qed.

Lemma rtpmap_shape line :
  matches rtpmap_re line = true ->
  exists d, line = js "a=rtpmap:" ++ d ++ js " H264/90000" /\ rtpmap_digits line = d /\
    d <> [] /\ Forall (fun c => digit c = true) d.
Proof.
  rewrite matches_spec. unfold rtpmap_re. cbn [rcats].
  intros (u & -> & Hu)%in_rlit_cat. apply in_cat_inv in Hu as (d & t & -> & Hd & Ht).
  apply in_rlit in Ht as ->.
  apply in_plus_cls in Hd as [Hn Hd]. exists d. split_and!; [done| |done|done].
  unfold rtpmap_digits. change (String.length "a=rtpmap:") with (length (js "a=rtpmap:")).
  rewrite drop_app_length. rewrite !length_app. simpl.
  replace (_ - _)%nat with (length d) by lia. by rewrite take_app_length.
Qed.

Lemma js_to_Z_digits d : d <> [] -> Forall (fun c => digit c = true) d -> 0 <= js_to_Z d.
Proof.
  intros Hn Hd. unfold js_to_Z. destruct d as [|c d]; [done|].
  assert (Hc : c =? 45 = false). { apply Forall_cons in Hd as [Hd _]. unfold digit, between in Hd. bools. lia. }
  rewrite Hc. unfold digits_value. clear Hc Hn. assert (H0 : 0 <= 0) by lia. revert Hd H0. generalize 0 at 2 4.
  induction (c :: d) as [|c' l IH]; simpl; intros n Hl Hn; [done|].
  apply Forall_cons in Hl as [Hc Hl]. apply IH; [done|]. unfold digit, between in Hc. bools. lia.
Qed.

Lemma profile_text p :
  matches profile_re p = true ->
  exists h, p = js "profile-level-id=" ++ h /\ drop (String.length "profile-level-id=") p = h /\
    zlength h = 6 /\ Forall (fun c => hex_digit c = true) h.
Proof.
  rewrite matches_spec. unfold profile_re. intros (u & -> & Hu)%in_rlit_cat. apply in_rep_cls in Hu as [Hl Hu]. exists u.
  change (String.length "profile-level-id=") with (length (js "profile-level-id=")).
  rewrite drop_app_length. unfold zlength. by rewrite Hl.
Qed.
Lemma lower_profile h : Forall (fun c => hex_digit c = true) h ->
  zlength (toLowerCase h) = zlength h /\ Forall (fun c => lower_hex c = true) (toLowerCase h).
Proof.
  intros Hu. unfold toLowerCase, zlength. rewrite length_map. split; [done|].
  apply Forall_map. eapply Forall_impl; [exact Hu|]. intros c Hc. cbn beta.
  unfold hex_digit, lower_hex, digit, upper, between in *.
  destruct ((65 <=? c) && (c <=? 90)) eqn:E; lia.
Qed.

Lemma find_split {A} (f : A -> bool) l x :
  find f l = Some x -> exists before after, l = before ++ x :: after /\
    Forall (fun y => f y = false) before /\ f x = true.
Proof.
  induction l as [|y l IH]; simpl; [done|]. destruct (f y) eqn:E.
  - intros [= ->]. by exists [], l.
  - intros (b & a & -> & Hb & Hx)%IH. exists (y :: b), a. split_and!; [done | by constructor | done].
Qed.

Lemma existsb_Forall {A} (f : A -> bool) l : existsb f l = false -> Forall (fun x => f x = false) l.
Proof. induction l as [|x l IH]; simpl; [done|]. intros H. bools. constructor; auto. Qed.

Lemma startsWith_spec s p : startsWith s p = true -> exists r, s = p ++ r /\ r = drop (length p) s.
Proof.
  unfold startsWith. intros H. bools. exists (drop (length p) s). split; [|done].
  rewrite <- H at 1. by rewrite take_drop.
Qed.

Lemma videoSlot_sound lines v : videoSlot lines = Ok v -> slot_ok lines v.
Proof.
  unfold videoSlot. intros H. inv_res. destruct (find (matches rtpmap_re) lines) as [line|] eqn:Ef; [|done].
  destruct (find_split _ _ _ Ef) as (before & after & Hlines & Hbefore & Hline).
  destruct (rtpmap_shape _ Hline) as (d & Hd & Hdd & Hn & Hdig). rewrite Hdd in H. inv_res.
  match goal with H : find _ _ = Some ?f |- _ => destruct (find_split _ _ _ H) as (b1 & a1 & Hl1 & Hb1 & H1); clear H end.
  match goal with H : find _ _ = Some ?f |- _ => destruct (find_split _ _ _ H) as (b2 & a2 & Hl2 & Hb2 & H2); clear H end.
  destruct (startsWith_spec _ _ H2) as (rest & Hrest & Hdrop). bools.
  match goal with H : ¬ (js "a=recvonly" ∉ lines) |- _ => apply dec_stable in H; rename H into Hrecv end.
  match goal with H : ¬ (js "packetization-mode=1" ∉ _) |- _ => apply dec_stable in H; rename H into Hmode end.
  rewrite <- Hdrop in Hmode, Hl1. destruct (profile_text _ H1) as (h & Hh & Hhd & Hlen & Hhex). pose proof (js_to_Z_digits _ Hn Hdig) as Hpos.
  subst v. constructor; cbn [payloadType profileLevelId].
  - done.
  - match goal with H : existsb (fun _ => _ || _) _ = false |- _ => apply existsb_Forall in H; eapply Forall_impl; [exact H|] end.
    intros l Hl. cbn beta in Hl. bools. by split.
  - by apply existsb_Forall.
  - exists before, d, after. by rewrite <- Hd.
  - lia.
  - exists b2, rest, a2, b1, h, a1. unfold fmtp_of. cbn [payloadType profileLevelId].
    split_and!; [by rewrite <- Hrest | done | done | by rewrite <- Hh | done | done | done | by rewrite <- Hhd].
  - change (drop _ _) with (drop (String.length "profile-level-id=") x2). rewrite Hhd. destruct (lower_profile h Hhex) as [-> ?]. by split.
Qed.

(** ** The whole offer *)

Lemma filter_single {A} (P : A -> Prop) `{!forall x, Decision (P x)} l x :
  filter P l = [x] -> exists before after, l = before ++ x :: after /\ P x /\
    Forall (fun y => ~ P y) before /\ Forall (fun y => ~ P y) after.
Proof.
  induction l as [|y l IH]; [done|]. rewrite filter_cons. case_decide as Hy.
  - intros [= -> Hl]. exists [], l. split_and!; [done|done|constructor|].
    apply Forall_forall. intros z Hz HP. assert (Hin : z ∈ filter P l) by (by apply list_elem_of_filter).
    rewrite Hl in Hin. by apply not_elem_of_nil in Hin.
  - intros (b & a & -> & ? & ? & ?)%IH. exists (y :: b), a. split_and!; try done. by constructor.
Qed.

Lemma filter_all {A} (P : A -> Prop) `{!forall x, Decision (P x)} l :
  length (filter P l) = length l -> Forall P l.
Proof.
  induction l as [|y l IH]; [constructor|]. rewrite filter_cons. simpl.
  pose proof (length_filter P l). case_decide; simpl; intros Hl; [constructor; auto with lia | lia].
Qed.

Lemma filter_id {A} (P : A -> Prop) `{!forall x, Decision (P x)} l : Forall P l -> filter P l = l.
Proof. induction 1 as [|x l Hx _ IH]; [done|]. by rewrite filter_cons, decide_True, IH. Qed.

(** The advertised message limit, from the session part and the DataChannel section alone. *)
Definition limit_ok (lines : list jsstr) (limit : option Z) : Prop :=
  match limit with
  | None => Forall (fun l => matches message_limit_re l = false) lines
  | Some n => exists before d after, lines = before ++ (js "a=max-message-size:" ++ d) :: after /\
      Forall (fun l => matches message_limit_re l = false) (before ++ after) /\
      d <> [] /\ Forall (fun c => digit c = true) d /\ n = js_to_Z d /\ 0 <= n <= MAX_SAFE_INTEGER
  end.

Lemma limit_shape lines (limits := filter (fun l => matches message_limit_re l = true) lines)
  (advertised := match limits with [] => None
    | l :: _ => Some (js_to_Z (drop (String.length "a=max-message-size:") l)) end) :
  zlength limits <= 1 ->
  match advertised with Some n => MAX_SAFE_INTEGER <? n | None => false end = false ->
  limit_ok lines advertised.
Proof.
  unfold advertised, limits. destruct (filter _ lines) as [|l [|l' k]] eqn:E; intros H1 Hs.
  - simpl. apply Forall_forall. intros l Hl. destruct (matches message_limit_re l) eqn:Em; [|done].
    assert (Hin : l ∈ filter (fun l => matches message_limit_re l = true) lines) by by apply list_elem_of_filter.
    rewrite E in Hin. by apply not_elem_of_nil in Hin.
  - destruct (filter_single _ _ _ E) as (b & a & -> & Hm & Hb & Ha).
    rewrite matches_spec in Hm. unfold message_limit_re in Hm.
    apply in_rlit_cat in Hm as (d & -> & Hd). apply in_plus_cls in Hd as [Hn Hd].
    change (String.length "a=max-message-size:") with (length (js "a=max-message-size:")) in *.
    rewrite drop_app_length in *. pose proof (js_to_Z_digits _ Hn Hd). bools.
    exists b, d, a. split_and!; try done. apply Forall_app.
    split; (eapply Forall_impl; [eassumption|]); intros l Hl; cbn beta in Hl; by apply not_true_is_false in Hl.
  - rewrite !zlength_cons in H1. pose proof (zlength_nonneg k). lia.
Qed.

Definition video_section (lines : list jsstr) : Prop := startsWith (heading lines) (js "m=video ") = true.

Lemma datachannel_not_video line :
  datachannelSection line = true -> startsWith line (js "m=video ") = true -> False.
Proof.
  unfold datachannelSection. intros Hd (r & -> & _)%startsWith_spec.
  cbn in Hd. destruct (split_on 32 r) as [|? [|? [|? [|? ?]]]]; try done.
Qed.

Lemma offer_spec sdp maxVideo shape :
  parseOffer sdp maxVideo = Ok shape ->
  exists session before app after,
    join_crlf (session ++ concat (before ++ app :: after)) = sdp /\
    zlength (session ++ concat (before ++ app :: after)) <= MAX_LINES /\
    Forall (fun l => ~ media_line l) session /\ Forall a_section (before ++ app :: after) /\
    datachannelSection (heading app) = true /\ Forall video_section (before ++ after) /\
    Forall2 slot_ok (before ++ after) (video shape) /\ zlength (video shape) <= maxVideo /\
    limit_ok (session ++ app) (maxMessageBytes shape).
Proof.
  unfold parseOffer. intros H. apply result_bind_Ok in H as ([session sections] & Hs & H).
  destruct (split_spec _ _ _ Hs) as (Hj & Hm & Hse & Hsec).
  destruct (filter (fun lines => datachannelSection (heading lines) = true) sections) as [|app [|? ?]] eqn:Ea; try done.
  inv_res. bools. subst shape. simpl.
  destruct (filter_single _ _ _ Ea) as (b & a & -> & Happ & Hb & Ha). exists session, b, app, a.
  assert (Hf : filter (fun lines => startsWith (heading lines) (js "m=video ") = true) (b ++ app :: a) =
    filter (fun lines => startsWith (heading lines) (js "m=video ") = true) (b ++ a)).
  { rewrite !filter_app, filter_cons, decide_False; [done|]. intros Hv. by eapply datachannel_not_video. }
  rewrite Hf in *.
  assert (Hall : Forall video_section (b ++ a)).
  { apply (filter_all (fun lines => startsWith (heading lines) (js "m=video ") = true)). apply Nat2Z.inj.
    match goal with H : zlength [app] + _ = _ |- _ => revert H end. unfold zlength.
    rewrite !length_app. simpl. lia. }
  match goal with H : mapR videoSlot _ = Ok ?v |- _ => rename v into slots; apply mapR_Ok in H; rename H into Hslots end.
  pose proof (filter_id (fun lines => startsWith (heading lines) (js "m=video ") = true) _ Hall) as Hid.
  clear Hf. rewrite Hid in *. clear Hid.
  split_and!; try done.
  - eapply Forall2_impl; [exact Hslots|]. apply videoSlot_sound.
  - apply Forall2_length in Hslots. unfold zlength in *. lia.
  - by apply limit_shape.
Qed.

(** C32: an offer that is accepted is exactly a session part, one DataChannel
    section and receive-only H.264 video sections, no more of them than the
    deployment allows and in the order the answer reports them; each slot's
    payload type is the one of the first H.264 line of its section, fits seven
    bits, and the first [fmtp] line of that payload in the section offers
    packetization mode 1 and the profile the slot reports, the first
    [profile-level-id] of six hexadecimal digits there, in lower case; the
    message limit is read outside the video sections. *)
Theorem offer_sound sdp maxVideo shape :
  parseOffer sdp maxVideo = Ok shape ->
  exists session before app after,
    join_crlf (session ++ concat (before ++ app :: after)) = sdp /\
    zlength (session ++ concat (before ++ app :: after)) <= MAX_LINES /\
    Forall (fun l => ~ media_line l) session /\ Forall a_section (before ++ app :: after) /\
    datachannelSection (heading app) = true /\ Forall video_section (before ++ after) /\
    Forall2 slot_ok (before ++ after) (video shape) /\ zlength (video shape) <= maxVideo /\
    limit_ok (session ++ app) (maxMessageBytes shape).
Proof. apply offer_spec. Qed.

Lemma offer_sound_witness : exists shape, parseOffer demo_offer 1 = Ok shape /\
  exists session before app after,
    join_crlf (session ++ concat (before ++ app :: after)) = demo_offer /\
    Forall2 slot_ok (before ++ after) (video shape) /\ zlength (video shape) <= 1 /\
    limit_ok (session ++ app) (maxMessageBytes shape).
Proof.
  eexists. split; [exact demo_offer_parsed|].
  destruct (offer_sound demo_offer 1 _ demo_offer_parsed) as (s & b & ap & a & ? & ? & ? & ? & ? & ? & ? & ? & ?).
  by exists s, b, ap, a.
Defined.
