(* ===== verification/Endpoint.v ===== *)
(** * One WebRTC peer

    [transport/endpoint.ts]: three DataChannels between a peer and its router.
    The peer connection is outside the program: what it does arrives as the
    operations of the interface below (a channel appears, changes state, drains
    or delivers a message, the connection changes state, negotiation goes on or
    fails, the closing promise settles), in any order.  The router is used
    through [RouterPort] only. *)

From S2P Require Import Prelude JsNumber JsString JsMap Values SessionValidation Sdp.

Module Endpoint.

(** ** Data *)

(** [DataChannel]; [null] is [None]. *)
Record DataChannel := {
  label : jsstr; ordered : bool; negotiated : bool;
  maxRetransmits : option Z; maxPacketLifeTime : option Z;
  readyState : jsstr; bufferedAmount : Z; bufferedAmountLowThreshold : Z }.
Definition with_threshold n (c : DataChannel) := {|
  label := label c; ordered := ordered c; negotiated := negotiated c;
  maxRetransmits := maxRetransmits c; maxPacketLifeTime := maxPacketLifeTime c;
  readyState := readyState c; bufferedAmount := bufferedAmount c; bufferedAmountLowThreshold := n |}.
(** What the transport changes on its own: [readyState] and [bufferedAmount]. *)
Definition with_transport st n (c : DataChannel) := {|
  label := label c; ordered := ordered c; negotiated := negotiated c;
  maxRetransmits := maxRetransmits c; maxPacketLifeTime := maxPacketLifeTime c;
  readyState := st; bufferedAmount := n; bufferedAmountLowThreshold := bufferedAmountLowThreshold c |}.

(** A negotiated video section; its methods are effects of the interface. *)
Record VideoSlot := { mid : jsstr; slotProfile : jsstr }.
Record VideoPort := { maxSlots : Z; addSlot : OfferedVideo -> result VideoSlot; stopSlot : VideoSlot -> result unit }.
Inductive message := TextMessage (s : jsstr) | BinaryMessage (b : list Z).
Record offer := { offer_type : jsval; offer_sdp : jsval }.

Record EndpointOptions := {
  opt_maxMessageBytes : jsval; opt_maxBufferedBytes : jsval; opt_maxSdpBytes : jsval;
  opt_timeoutMs : jsval; opt_video : option VideoPort }.

(** The listeners registered with the peer and its channels. *)
Inductive listener :=
| OnDataChannel | ConnectionStateChange | BufferedAmountLow (l : jsstr) | StateChanged (l : jsstr) | OnMessage (l : jsstr).
#[export] Instance listener_eq : EqDecision listener.
Proof. solve_decision. Defined.

(** [closing]: not yet, [peer.close()] queued, running, or over. *)
Inductive closing_state := NotClosing | CloseQueued | ClosePending | CloseDone.

(** What the endpoint does to its surroundings. *)
Inductive effect :=
| Sent (l : jsstr) (bytes : list Z) (buffered : Z)
| Delivered (l : jsstr) (bytes : list Z)
| PeerClose
| SlotStopped (slot : VideoSlot)
| OnError
| OnClosed.

Definition labels : list jsstr := [js "ros.control.v1"; js "ros.reliable.v1"; js "ros.realtime.v1"].
Definition realtime_label : jsstr := js "ros.realtime.v1".

Section endpoint.
(** The state of the router. *)
Context {R : Type}.

Record endpoint := {
  maxBufferedBytes : Z; maxSdpBytes : Z; timeoutMs : Z; videoPort : option VideoPort;
  channels : jsmap jsstr DataChannel;
  listening : list listener;
  router : option R;
  closed : bool; used : bool; closing : closing_state;
  timer : bool (** the negotiation timer is armed *);
  deadline : option (option js_error) (** the promise raced against negotiation *);
  maxMessageBytes : Z;
  slots : list VideoSlot;
  events : list effect (** newest first *) }.

Definition set_channels v (s : endpoint) : endpoint :=
  {| maxBufferedBytes := maxBufferedBytes s; maxSdpBytes := maxSdpBytes s;
     timeoutMs := timeoutMs s; videoPort := videoPort s; channels := v; listening := listening s;
     router := router s; closed := closed s; used := used s; closing := closing s;
     timer := timer s; deadline := deadline s; maxMessageBytes := maxMessageBytes s;
     slots := slots s; events := events s |}.
Definition set_listening v (s : endpoint) : endpoint :=
  {| maxBufferedBytes := maxBufferedBytes s; maxSdpBytes := maxSdpBytes s;
     timeoutMs := timeoutMs s; videoPort := videoPort s; channels := channels s; listening := v;
     router := router s; closed := closed s; used := used s; closing := closing s;
     timer := timer s; deadline := deadline s; maxMessageBytes := maxMessageBytes s;
     slots := slots s; events := events s |}.
Definition set_router v (s : endpoint) : endpoint :=
  {| maxBufferedBytes := maxBufferedBytes s; maxSdpBytes := maxSdpBytes s;
     timeoutMs := timeoutMs s; videoPort := videoPort s; channels := channels s;
     listening := listening s; router := v; closed := closed s; used := used s;
     closing := closing s; timer := timer s; deadline := deadline s;
     maxMessageBytes := maxMessageBytes s; slots := slots s; events := events s |}.
Definition set_closed v (s : endpoint) : endpoint :=
  {| maxBufferedBytes := maxBufferedBytes s; maxSdpBytes := maxSdpBytes s;
     timeoutMs := timeoutMs s; videoPort := videoPort s; channels := channels s;
     listening := listening s; router := router s; closed := v; used := used s;
     closing := closing s; timer := timer s; deadline := deadline s;
     maxMessageBytes := maxMessageBytes s; slots := slots s; events := events s |}.
Definition set_used v (s : endpoint) : endpoint :=
  {| maxBufferedBytes := maxBufferedBytes s; maxSdpBytes := maxSdpBytes s;
     timeoutMs := timeoutMs s; videoPort := videoPort s; channels := channels s;
     listening := listening s; router := router s; closed := closed s; used := v;
     closing := closing s; timer := timer s; deadline := deadline s;
     maxMessageBytes := maxMessageBytes s; slots := slots s; events := events s |}.
Definition set_closing v (s : endpoint) : endpoint :=
  {| maxBufferedBytes := maxBufferedBytes s; maxSdpBytes := maxSdpBytes s;
     timeoutMs := timeoutMs s; videoPort := videoPort s; channels := channels s;
     listening := listening s; router := router s; closed := closed s; used := used s;
     closing := v; timer := timer s; deadline := deadline s; maxMessageBytes := maxMessageBytes s;
     slots := slots s; events := events s |}.
Definition set_timer v (s : endpoint) : endpoint :=
  {| maxBufferedBytes := maxBufferedBytes s; maxSdpBytes := maxSdpBytes s;
     timeoutMs := timeoutMs s; videoPort := videoPort s; channels := channels s;
     listening := listening s; router := router s; closed := closed s; used := used s;
     closing := closing s; timer := v; deadline := deadline s;
     maxMessageBytes := maxMessageBytes s; slots := slots s; events := events s |}.
Definition set_deadline v (s : endpoint) : endpoint :=
  {| maxBufferedBytes := maxBufferedBytes s; maxSdpBytes := maxSdpBytes s;
     timeoutMs := timeoutMs s; videoPort := videoPort s; channels := channels s;
     listening := listening s; router := router s; closed := closed s; used := used s;
     closing := closing s; timer := timer s; deadline := v; maxMessageBytes := maxMessageBytes s;
     slots := slots s; events := events s |}.
Definition set_maxMessageBytes v (s : endpoint) : endpoint :=
  {| maxBufferedBytes := maxBufferedBytes s; maxSdpBytes := maxSdpBytes s;
     timeoutMs := timeoutMs s; videoPort := videoPort s; channels := channels s;
     listening := listening s; router := router s; closed := closed s; used := used s;
     closing := closing s; timer := timer s; deadline := deadline s; maxMessageBytes := v;
     slots := slots s; events := events s |}.
Definition set_slots v (s : endpoint) : endpoint :=
  {| maxBufferedBytes := maxBufferedBytes s; maxSdpBytes := maxSdpBytes s;
     timeoutMs := timeoutMs s; videoPort := videoPort s; channels := channels s;
     listening := listening s; router := router s; closed := closed s; used := used s;
     closing := closing s; timer := timer s; deadline := deadline s;
     maxMessageBytes := maxMessageBytes s; slots := v; events := events s |}.
Definition set_events v (s : endpoint) : endpoint :=
  {| maxBufferedBytes := maxBufferedBytes s; maxSdpBytes := maxSdpBytes s;
     timeoutMs := timeoutMs s; videoPort := videoPort s; channels := channels s;
     listening := listening s; router := router s; closed := closed s; used := used s;
     closing := closing s; timer := timer s; deadline := deadline s;
     maxMessageBytes := maxMessageBytes s; slots := slots s; events := v |}.

Definition note (e : effect) : ST endpoint unit := modify (fun s => set_events (e :: events s) s).

(** ** Sending

    [channel.send] belongs to the transport: it is noted with the amount then
    buffered, which the transport's own events change. *)

Definition send (l : jsstr) (bytes : list Z) : ST endpoint bool :=
  s ← get;
  if closed s then mret false else
  match mget l (channels s) with
  | None => mret false
  | Some channel =>
      if negb (bool_decide (readyState channel = js "open")) then mret false else
      throw_when (maxMessageBytes s <? zlength bytes) (Error "message_size");;
      if maxBufferedBytes s - bufferedAmount channel <? zlength bytes then mret false else
      note (Sent l bytes (bufferedAmount channel));;
      mret true
  end.

(** ** The router

    [RouterPort] and [makeRouter].  A router reaches the endpoint only through
    [send], besides its own state. *)
Class RouterPort := {
  makeRouter : Z -> list VideoSlot -> result R;
  router_receive : jsstr -> list Z -> ST endpoint unit;
  router_flush : ST endpoint unit;
  router_close : ST endpoint unit;
  router_isClosed : R -> bool }.

Class RouterLaws (P : RouterPort) := router_laws : forall I : endpoint -> Prop,
  (forall l bytes, preserves I (send l bytes)) ->
  (forall r s, is_Some (router s) -> I s -> I (set_router (Some r) s)) ->
  (forall l bytes, preserves I (router_receive l bytes)) /\ preserves I router_flush /\ preserves I router_close.

Context {port : RouterPort}.

(** [this.router?.isClosed] *)
Definition isClosed (s : endpoint) : bool :=
  match router s with Some r => router_isClosed r | None => false end.

(** ** Closing *)

(** [reject(error)]: a settled promise stays as it is. *)
Definition reject (e : js_error) : ST endpoint unit :=
  modify (fun s => match deadline s with Some None => set_deadline (Some (Some e)) s | _ => s end).

Definition stop_slot (slot : VideoSlot) : ST endpoint unit :=
  s ← get;
  match videoPort s with
  | Some video =>
      catch (lift (stopSlot video slot);; note (SlotStopped slot)) (fun _ => note OnError)
  | None => mret tt
  end.

Definition close : ST endpoint unit :=
  s ← get;
  match closing s with
  | NotClosing =>
      modify (set_closed true);;
      modify (set_timer false);;
      reject (Error "endpoint_closed");;
      modify (set_listening []);;
      match router s with
      | Some _ => catch router_close (fun _ => note OnError)
      | None => mret tt
      end;;
      open_slots ← gets slots;
      modify (set_slots []);;
      mapS stop_slot open_slots;;
      modify (set_channels []);;
      modify (set_closing CloseQueued)
  | _ => mret tt
  end.

(** The microtask of [Promise.resolve().then(() => peer.close())]. *)
Definition run_peer_close : ST endpoint unit :=
  s ← get;
  match closing s with CloseQueued => modify (set_closing ClosePending);; note PeerClose | _ => mret tt end.
(** [peer.close()] settled, or its deadline passed ([ok = false]). *)
Definition settle_close (ok : bool) : ST endpoint unit :=
  s ← get;
  match closing s with
  | ClosePending => modify (set_closing CloseDone);; (if ok then mret tt else note OnError);; note OnClosed
  | _ => mret tt
  end.

(** ** Channels *)

Definition flush : ST endpoint unit :=
  s ← get;
  (match router s with Some _ => router_flush | None => mret tt end);;
  s ← get;
  if isClosed s then close else mret tt.

Definition opened : ST endpoint unit :=
  s ← get;
  if negb (msize (channels s) =? 3)
     || existsb (fun kv => negb (bool_decide (readyState kv.2 = js "open"))) (channels s) then mret tt
  else modify (set_timer false);; flush.

(** The attributes [channel] refuses. *)
Definition unacceptable (s : endpoint) (c : DataChannel) : bool :=
  let realtime := bool_decide (label c = realtime_label) in
  closed s || bool_decide (label c ∉ labels) || mhas (label c) (channels s) || negotiated c
  || eqb (ordered c) realtime || bool_decide (maxPacketLifeTime c <> None)
  || bool_decide (maxRetransmits c <> if realtime then Some 0 else None).

Definition channel (c : DataChannel) : ST endpoint unit :=
  s ← get;
  if unacceptable s c then close else
  modify (set_channels (mset (label c) (with_threshold (maxBufferedBytes s / 2) c) (channels s)));;
  modify (fun s => set_listening (listening s ++
    [BufferedAmountLow (label c); StateChanged (label c); OnMessage (label c)]) s);;
  opened.

(** The listeners of a channel. *)
Definition on_low (l : jsstr) : ST endpoint unit := flush.
Definition on_state (l : jsstr) (state : jsstr) : ST endpoint unit :=
  if bool_decide (state = js "closed") then close else opened.
Definition message_bytes (m : message) : list Z :=
  match m with TextMessage s => utf8 s | BinaryMessage b => b end.
Definition on_message (l : jsstr) (m : message) : ST endpoint unit :=
  s ← get;
  match router s with
  | None => close
  | Some _ =>
      if negb (msize (channels s) =? 3) then close else
      let bytes := message_bytes m in
      if maxMessageBytes s <? zlength bytes then close else
      note (Delivered l bytes);;
      router_receive l bytes;;
      s ← get;
      if isClosed s then close else mret tt
  end.
(** The listener of [connectionStateChange]. *)
Definition on_connection (state : jsstr) : ST endpoint unit :=
  if bool_decide (state ∈ [js "failed"; js "closed"; js "disconnected"]) then close else mret tt.

(** ** Negotiation *)

Definition constructor (options : EndpointOptions) : result endpoint :=
  maxMessage ← positiveLimit (opt_maxMessageBytes options);
  maxBuffered ← positiveLimit (opt_maxBufferedBytes options);
  maxSdp ← positiveLimit (opt_maxSdpBytes options);
  ms ← positiveLimit (opt_timeoutMs options);
  throw_when (maxBuffered <? Z.min 16384 maxMessage) (Error "invalid_limit");;
  Ok {| maxBufferedBytes := maxBuffered; maxSdpBytes := maxSdp; timeoutMs := ms;
        videoPort := opt_video options; channels := []; listening := [OnDataChannel; ConnectionStateChange];
        router := None; closed := false; used := false; closing := NotClosing; timer := false;
        deadline := None; maxMessageBytes := Z.min 16384 maxMessage; slots := []; events := [] |}.

(** The part of [answer] before its first [await]. *)
Definition prepare (o : offer) : ST endpoint unit :=
  s ← get;
  sdp ← lift (match offer_type o, offer_sdp o with
    | VStr t, VStr sdp =>
        throw_when (negb (bool_decide (t = js "offer")) || (maxSdpBytes s <? byteLength sdp)) (Error "invalid_offer");;
        Ok sdp
    | _, _ => Throw (Error "invalid_offer")
    end);
  shape ← lift (parseOffer sdp (match videoPort s with Some v => maxSlots v | None => 0 end));
  let advertised := default 65536 (Sdp.maxMessageBytes shape) in
  modify (fun s => if advertised =? 0 then s else set_maxMessageBytes (Z.min (maxMessageBytes s) advertised) s);;
  (match videoPort s with
   | Some v => mapS (fun offered =>
       slot ← lift (addSlot v offered); modify (fun s => set_slots (slots s ++ [slot]) s)) (video shape);; mret tt
   | None => mret tt
   end);;
  s ← get;
  r ← lift (makeRouter (maxMessageBytes s) (slots s));
  modify (set_router (Some r));;
  modify (fun s => set_timer true (set_deadline (Some None) s)).

(** [catch (error) { await this.close(); throw error; }] *)
Definition or_close {A} (m : ST endpoint A) : ST endpoint A := catch m (fun e => close;; mthrow e).

Definition answer (o : offer) : ST endpoint unit :=
  s ← get;
  throw_when (used s || closed s) (Error "endpoint_unavailable");;
  modify (set_used true);;
  or_close (prepare o).

(** [negotiate] after the peer has set both descriptions, raced against the
    deadline: a rejection that came first wins. *)
Definition negotiated_answer (local : option (jsstr * jsstr)) : ST endpoint (jsstr * jsstr) :=
  s ← get;
  or_close match deadline s with
  | Some (Some e) => mthrow e
  | _ =>
      throw_when (closed s) (Error "endpoint_closed");;
      match local with
      | None => mthrow (Error "invalid_answer")
      | Some (t, sdp) =>
          throw_when (maxSdpBytes s <? byteLength sdp) (Error "invalid_answer");;
          mret (t, sdp)
      end
  end.
(** A promise of the peer rejected. *)
Definition negotiation_failed (e : js_error) : ST endpoint (jsstr * jsstr) :=
  s ← get;
  or_close (match deadline s with Some (Some e') => mthrow e' | _ => mthrow e end).

(** The timer of the deadline fires. *)
Definition expire : ST endpoint unit :=
  s ← get;
  if timer s then modify (set_timer false);; close;; reject (Error "negotiation_timeout") else mret tt.

(** ** The peer's side *)

(** What may happen next, in any order: an event reaches a listener that is
    still registered, and the transport changes a channel on its own. *)
Inductive event :=
| Answer (o : offer)
| Negotiated (local : option (jsstr * jsstr))
| NegotiationFailed (e : js_error)
| Expire
| NewChannel (c : DataChannel)
| Transport (l : jsstr) (st : jsstr) (buffered : Z)
| Low (l : jsstr)
| State (l : jsstr) (st : jsstr)
| Message (l : jsstr) (m : message)
| Connection (st : jsstr)
| RunPeerClose
| SettleClose (ok : bool)
| Close
| RouterSend (l : jsstr) (bytes : list Z) (** the router sends from a ROS callback *)
| RouterState (r : R).

Definition when_listening (x : listener) (m : ST endpoint unit) : ST endpoint unit :=
  s ← get; if bool_decide (x ∈ listening s) then m else mret tt.
Definition set_transport (l st : jsstr) (n : Z) (s : endpoint) : endpoint :=
  match mget l (channels s) with
  | Some c => set_channels (mset l (with_transport st n c) (channels s)) s
  | None => s
  end.

Definition handle (e : event) : ST endpoint unit :=
  match e with
  | Answer o => answer o
  | Negotiated local => negotiated_answer local;; mret tt
  | NegotiationFailed e => negotiation_failed e;; mret tt
  | Expire => expire
  | NewChannel c => when_listening OnDataChannel (channel c)
  | Transport l st n => modify (set_transport l st n)
  | Low l => when_listening (BufferedAmountLow l) (on_low l)
  | State l st => when_listening (StateChanged l) (on_state l st)
  | Message l m => when_listening (OnMessage l) (on_message l m)
  | Connection st => when_listening ConnectionStateChange (on_connection st)
  | RunPeerClose => run_peer_close
  | SettleClose ok => settle_close ok
  | Close => close
  | RouterSend l bytes => s ← get; match router s with Some _ => send l bytes;; mret tt | None => mret tt end
  | RouterState r => modify (fun s => match router s with Some _ => set_router (Some r) s | None => s end)
  end.
Fixpoint run (es : list event) (s : endpoint) : endpoint :=
  match es with [] => s | e :: es => run es (handle e s).2 end.

End endpoint.
Arguments endpoint : clear implicits.
Arguments RouterPort : clear implicits.
Arguments event : clear implicits.
End Endpoint.
