(* ===== verification/EndpointProps.v ===== *)
(** * What a peer can never do

    Invariants of [Endpoint] over every order of events, for any router that
    keeps to its interface. *)

From S2P Require Import Prelude JsNumber JsString JsMap Values SessionValidation Sdp SdpProps Endpoint.

Module EndpointProps.
Import Endpoint.

Section props.
Context {R : Type} {port : RouterPort R} {laws : RouterLaws port}.
Implicit Types s : endpoint R.
(** The configured bound of a transport buffer. *)
Context (B : Z).

(** ** The invariant *)

Definition acceptable (c : DataChannel) : Prop :=
  let realtime := bool_decide (label c = realtime_label) in
  label c ∈ labels /\ negotiated c = false /\ ordered c = negb realtime /\
  maxPacketLifeTime c = None /\ maxRetransmits c = (if realtime then Some 0 else None).

(** Traffic with the peer stays within the negotiated limits. *)
Definition effect_ok (limit buffer : Z) (e : effect) : Prop :=
  match e with
  | Sent l bytes buffered => l ∈ labels /\ zlength bytes <= limit /\ zlength bytes + buffered <= buffer
  | Delivered l bytes => l ∈ labels /\ zlength bytes <= limit
  | _ => True
  end.
Definition traffic (e : effect) : bool :=
  match e with Sent _ _ _ | Delivered _ _ => true | _ => false end.
Definition count (f : effect -> bool) (l : list effect) : Z := zsum (fun e => if f e then 1 else 0) l.
Definition is_PeerClose (e : effect) : bool := match e with PeerClose => true | _ => false end.
Definition is_OnClosed (e : effect) : bool := match e with OnClosed => true | _ => false end.

Record core (s : endpoint R) : Prop := {
  core_keys : NoDup (mkeys (channels s));
  core_channels : mall (fun l c => label c = l /\ acceptable c /\
    bufferedAmountLowThreshold c = maxBufferedBytes s / 2) (channels s);
  core_limit : 0 < maxMessageBytes s <= 16384 /\ maxMessageBytes s <= maxBufferedBytes s;
  core_listening : forall l, OnMessage l ∈ listening s -> l ∈ labels;
  core_events : Forall (effect_ok (maxMessageBytes s) (maxBufferedBytes s)) (events s);
  core_unused : used s = false -> router s = None /\ Forall (fun e => traffic e = false) (events s);
  core_closing : count is_PeerClose (events s) =
      match closing s with NotClosing | CloseQueued => 0 | _ => 1 end /\
    count is_OnClosed (events s) = match closing s with CloseDone => 1 | _ => 0 end;
  core_buffer : maxBufferedBytes s = B }.

(** Nothing is left of a closed peer. *)
Definition released (s : endpoint R) : Prop :=
  channels s = [] /\ slots s = [] /\ listening s = [] /\ timer s = false /\ deadline s <> Some None /\
  closing s <> NotClosing.
Definition inv (s : endpoint R) : Prop :=
  core s /\ if closed s then released s else closing s = NotClosing.

(** ** Preservation *)

(** The fields [core] does not look at. *)
Lemma core_silent s s' :
  core s -> channels s' = channels s -> maxBufferedBytes s' = maxBufferedBytes s ->
  maxMessageBytes s' = maxMessageBytes s -> listening s' = listening s -> events s' = events s ->
  (used s' = false -> used s = false /\ (router s = None -> router s' = None)) ->
  closing s' = closing s -> core s'.
Proof.
  intros [? ? ? ? ? Hu ?] E1 E2 E3 E4 E5 E6 E7. constructor; rewrite ?E1, ?E2, ?E3, ?E4, ?E5, ?E7; try done.
  intros [Hu' Hr]%E6. destruct (Hu Hu'). auto.
Qed.
Ltac silent := eapply core_silent; [eassumption | reflexivity.. | try done | reflexivity].

Lemma core_note s e :
  core s -> effect_ok (maxMessageBytes s) (maxBufferedBytes s) e -> (used s = false -> traffic e = false) ->
  is_PeerClose e = false -> is_OnClosed e = false -> core (set_events (e :: events s) s).
Proof.
  intros [? ? ? ? ? Hu [Hp Ho]] He Ht Hpc Hoc. constructor; simpl; try done.
  - by constructor.
  - intros H. destruct (Hu H). split; [done|]. constructor; auto.
  - unfold count in *. simpl. by rewrite Hpc, Hoc.
Qed.

(** All that [send] can do. *)
Lemma send_cases l bytes s :
  (send l bytes s).2 = s \/
  exists c, closed s = false /\ mget l (channels s) = Some c /\ readyState c = js "open" /\
    zlength bytes <= maxMessageBytes s /\ zlength bytes + bufferedAmount c <= maxBufferedBytes s /\
    send l bytes s = (Ok true, set_events (Sent l bytes (bufferedAmount c) :: events s) s).
Proof.
  unfold send. rewrite ST_bind_eq. unfold get. destruct (closed s); [by left|].
  destruct (mget l (channels s)) as [c|]; [|by left].
  destruct (negb _) eqn:E0; [by left|]. rewrite ST_bind_eq. unfold throw_when.
  destruct (maxMessageBytes s <? zlength bytes) eqn:E1; [by left|].
  destruct (maxBufferedBytes s - bufferedAmount c <? zlength bytes) eqn:E2; [by left|].
  right. exists c. bools. split_and!; try done; lia.
Qed.

Lemma core_send l bytes : preserves (fun s => core s /\ is_Some (router s)) (send l bytes).
Proof.
  intros s [Hs Hr]. destruct (send_cases l bytes s) as [->|(c & _ & Hc & _ & H1 & H2 & ->)]; [done|].
  simpl. split; [|done]. apply core_note; try done.
  - simpl. destruct (mall_get _ _ _ _ (core_channels _ Hs) Hc) as (<- & [? _] & _).
    split_and!; done.
  - intros Hu. destruct (core_unused _ Hs Hu) as [Hn _]. rewrite Hn in Hr. by destruct Hr.
Qed.

(** [core] together with facts about the fields the router cannot reach. *)
Definition with_router (P : endpoint R -> Prop) s : Prop := core s /\ is_Some (router s) /\ P s.
(** A fact that survives [send] and a change of the router. *)
Definition unreached (P : endpoint R -> Prop) : Prop :=
  (forall e s, P s -> P (set_events (e :: events s) s)) /\ (forall r s, P s -> P (set_router r s)).

Lemma send_unreached P l bytes : unreached P -> preserves P (send l bytes).
Proof.
  intros [He _] s Hs. destruct (send_cases l bytes s) as [->|(c & _ & _ & _ & _ & _ & ->)]; [done|]. by apply He.
Qed.

Lemma with_router_send P l bytes : unreached P -> preserves (with_router P) (send l bytes).
Proof.
  intros HP s (Hc & Hr & Hs). destruct (core_send l bytes s ltac:(by split)).
  split_and!; try done. by apply send_unreached.
Qed.
Lemma with_router_set P r s : unreached P -> with_router P s -> with_router P (set_router (Some r) s).
Proof.
  intros HP (Hc & Hr & Hs). split_and!; [|done|by apply HP].
  destruct Hc as [? ? ? ? ? Hu ?]. constructor; simpl; try done. intros [Hn _]%Hu. rewrite Hn in Hr. by destruct Hr.
Qed.
Lemma router_preserves P :
  unreached P ->
  (forall l bytes, preserves (with_router P) (router_receive l bytes)) /\
  preserves (with_router P) router_flush /\ preserves (with_router P) router_close.
Proof.
  intros HP. apply laws; [intros l bytes; by apply with_router_send|]. intros r s _ Hs. by apply with_router_set.
Qed.

(** [close] up to the point where the router is gone. *)
Definition closing_facts (d : option (option js_error)) s : Prop :=
  closed s = true /\ timer s = false /\ listening s = [] /\ deadline s = d /\ closing s = NotClosing.
(** The race a pending negotiation loses. *)
Definition rejected (d : option (option js_error)) : option (option js_error) :=
  match d with Some None => Some (Some (Error "endpoint_closed")) | _ => d end.

Lemma stop_slots_spec l s :
  core s -> exists s', (mapS stop_slot l s).2 = s' /\ is_ok (mapS stop_slot l s).1 = true /\ core s' /\
    closed s' = closed s /\ timer s' = timer s /\ listening s' = listening s /\ deadline s' = deadline s /\
    closing s' = closing s /\ slots s' = slots s /\ channels s' = channels s.
Proof.
  revert s. induction l as [|x l IH]; intros s Hs; [by exists s|]. simpl.
  assert (Hx : exists s1, stop_slot x s = (Ok tt, s1) /\ core s1 /\
    closed s1 = closed s /\ timer s1 = timer s /\ listening s1 = listening s /\ deadline s1 = deadline s /\
    closing s1 = closing s /\ slots s1 = slots s /\ channels s1 = channels s).
  { unfold stop_slot. rewrite ST_bind_eq. unfold get. destruct (videoPort s) as [v|]; [|by exists s].
    unfold catch. rewrite ST_bind_eq. unfold lift. destruct (stopSlot v x) as [[]|e]; unfold note; unfold_st;
      (eexists; split; [reflexivity|]; split; [by apply core_note|done]). }
  destruct Hx as (s1 & Hx & Hc1 & E1 & E2 & E3 & E4 & E5 & E6 & E7). rewrite ST_bind_eq, Hx, ST_bind_eq.
  destruct (IH s1 Hc1) as (s2 & Heq & Hok & Hc2 & F1 & F2 & F3 & F4 & F5 & F6 & F7).
  destruct (mapS stop_slot l s1) as [[ys|e] s3]; [|done]. simpl in *. subst s3. exists s2.
  split_and!; try done; congruence.
Qed.

(** The part of [close] that needs no router. *)
Definition shut s : endpoint R :=
  set_listening [] (match deadline s with
    | Some None => set_deadline (Some (Some (Error "endpoint_closed"))) (set_timer false (set_closed true s))
    | _ => set_timer false (set_closed true s) end).

Lemma shut_spec s : core s -> closing s = NotClosing -> core (shut s) /\ closing_facts (rejected (deadline s)) (shut s) /\ router (shut s) = router s.
Proof.
  unfold shut, rejected. intros [? ? ? ? ? ? ? ?] Hn. destruct (deadline s) as [[e|]|] eqn:E; split_and!; try done.
  all: match goal with
    | |- core _ => constructor; first [assumption | intros l Hl; cbn in Hl; by apply not_elem_of_nil in Hl]
    | _ => unfold closing_facts; simpl; rewrite ?E; split_and!; done
    end.
Qed.

Lemma closing_unreached d : unreached (closing_facts d).
Proof. split; intros; done. Qed.

Lemma close_spec s :
  inv s -> exists s', close s = (Ok tt, s') /\ inv s' /\ closed s' = true /\
    (closing s = NotClosing -> deadline s' = rejected (deadline s)).
Proof.
  intros [Hc Hcl]. unfold close. rewrite ST_bind_eq. unfold get.
  destruct (closing s) eqn:Ecl.
  2-4: exists s; split; [done|]; destruct (closed s) eqn:E; [|congruence];
    split; [split; [done | by rewrite E] | by split].
  assert (E : closed s = false).
  { destruct (closed s); [|done]. by destruct Hcl as (_ & _ & _ & _ & _ & ?). }
  destruct (shut_spec s Hc Ecl) as (Hc1 & Hf1 & Hr1).
  assert (H2 : exists s2, core s2 /\ closing_facts (rejected (deadline s)) s2 /\
    (match router s with Some _ => catch router_close (fun _ => note OnError) | None => mret tt end) (shut s)
      = (Ok tt, s2)).
  { destruct (router s) as [r|] eqn:Er; [|by exists (shut s)].
    destruct (router_preserves (closing_facts (rejected (deadline s))) (closing_unreached _)) as (_ & _ & Hclose).
    destruct (Hclose (shut s)) as (Hc2 & _ & Hf2).
    { split_and!; [done | rewrite Hr1; done | done]. }
    unfold catch. destruct (router_close (shut s)) as [[[]|e] s2]; simpl in *; [by exists s2|].
    eexists; split_and!; [by apply (core_note s2 OnError) | by apply closing_unreached | reflexivity]. }
  destruct H2 as (s2 & Hc2 & Hf2 & Hrun).
  destruct (stop_slots_spec (slots s2) (set_slots [] s2)) as (s3 & Heq & Hok & Hc3 & F1 & F2 & F3 & F4 & F5 & F6 & F7).
  { destruct Hc2. by constructor. }
  exists (set_closing CloseQueued (set_channels [] s3)). split.
  - transitivity ((match router s with Some _ => catch router_close (fun _ => note OnError) | None => mret tt end;;
      open_slots ← gets slots; modify (set_slots []);; mapS stop_slot open_slots;;
      modify (set_channels []);; modify (set_closing CloseQueued)) (shut s)); [reflexivity|].
    rewrite ST_bind_eq, Hrun. rewrite ST_bind_eq. unfold gets. rewrite ST_bind_eq. unfold modify. rewrite ST_bind_eq.
    destruct (mapS stop_slot (slots s2) (set_slots [] s2)) as [[ys|e] s3']; [|done]. simpl in *. by subst.
  - destruct Hf2 as (G1 & G2 & G3 & G4 & G5). simpl in *.
    assert (Hcl3 : closed s3 = true) by congruence. split; [|split; [done | congruence]].
    assert (deadline s3 <> Some None) by (rewrite F4, G4; by destruct (deadline s) as [[]|]).
    split; [|unfold released; simpl; rewrite Hcl3, F2, F3, F6; by split_and!].
    destruct Hc3 as [? ? ? ? ? ? Hcount]. rewrite F5, G5 in Hcount.
    constructor; first [assumption | apply NoDup_nil_2 | constructor].
Qed.

Lemma inv_close : preserves inv close.
Proof. intros s Hs. destruct (close_spec s Hs) as (s' & -> & Hs' & _). done. Qed.

Lemma inv_or_close {A} (m : ST (endpoint R) A) : preserves inv m -> preserves inv (or_close m).
Proof.
  intros Hm. apply preserves_catch; [done|]. intros e. apply preserves_bind; [apply inv_close|].
  intros _. apply preserves_throw.
Qed.

(** ** Every operation keeps the invariant *)

Definition settled s : Prop := if closed s then released s else closing s = NotClosing.
Lemma settled_unreached : unreached settled.
Proof. split; intros x s Hs; unfold settled in *; simpl; by destruct (closed s). Qed.

Lemma inv_receive l bytes s : inv s -> is_Some (router s) -> inv (router_receive l bytes s).2.
Proof.
  intros [Hc Hs] Hr. destruct (router_preserves settled settled_unreached) as [H _].
  by destruct (H l bytes s) as (? & _ & ?).
Qed.
Lemma inv_router_flush s : inv s -> is_Some (router s) -> inv (router_flush s).2.
Proof.
  intros [Hc Hs] Hr. destruct (router_preserves settled settled_unreached) as (_ & H & _).
  by destruct (H s) as (? & _ & ?).
Qed.

Lemma inv_if {A} (b : bool) (m m' : ST (endpoint R) A) :
  preserves inv m -> preserves inv m' -> preserves inv (if b then m else m').
Proof. by destruct b. Qed.

Lemma inv_flush : preserves inv flush.
Proof.
  apply preserves_get_bind. intros s Hs. apply bind_at.
  - destruct (router s) eqn:E; [|done]. by apply inv_router_flush.
  - intros _. apply preserves_get_bind. intros s1 H1. destruct (isClosed s1); [by apply inv_close | done].
Qed.

Lemma inv_timer_off s : inv s -> inv (set_timer false s).
Proof.
  intros [Hc Hs]. split; [silent|]. unfold settled in *. simpl. destruct (closed s); [|done].
  destruct Hs as (? & ? & ? & ? & ? & ?). by split_and!.
Qed.

Lemma inv_opened : preserves inv opened.
Proof.
  apply preserves_get_bind. intros s Hs. destruct (_ || _); [done|].
  apply bind_at; [by apply inv_timer_off | intros _; apply inv_flush].
Qed.

Lemma unacceptable_false s c : unacceptable s c = false ->
  closed s = false /\ mget (label c) (channels s) = None /\ acceptable c.
Proof.
  unfold unacceptable, acceptable. intros H. bools.
  repeat match goal with H : ¬ (_ ∉ _) |- _ => apply dec_stable in H | H : ¬ (_ <> _) |- _ => apply dec_stable in H end.
  split_and!; try done.
  - unfold mhas in *. bools. by apply eq_None_not_Some.
  - match goal with H : eqb _ _ = false |- _ => apply eqb_false_iff in H end.
    destruct (ordered c), (bool_decide (label c = realtime_label)); done.
Qed.

Lemma inv_channel c : preserves inv (channel c).
Proof.
  apply preserves_get_bind. intros s Hs. destruct (unacceptable s c) eqn:Eu; [by apply inv_close|].
  destruct (unacceptable_false s c Eu) as (Hcl & Hnew & Hok).
  apply (inv_opened (set_listening _ (set_channels _ s))). destruct Hs as [Hc Hs]. rewrite Hcl in Hs.
  split; [|simpl; by rewrite Hcl]. destruct Hc as [Hk Hch ? Hl ? ? ?]. constructor; try assumption.
  - by apply NoDup_mset.
  - apply mall_set; [done|]. by destruct Hok.
  - intros l. simpl. rewrite elem_of_app. intros [?|Hin]; [by apply Hl|].
    rewrite !elem_of_cons in Hin. destruct Hok as [Hok _].
    destruct Hin as [[=]|[[=]|[[= ->]|[]%elem_of_nil]]]. done.
Qed.

Lemma inv_on_message l m : forall s, inv s -> l ∈ labels -> inv (on_message l m s).2.
Proof.
  intros s Hs Hl. unfold on_message. rewrite ST_bind_eq. unfold get.
  destruct (router s) as [r|] eqn:Er; [|by apply inv_close]. destruct (negb _); [by apply inv_close|].
  destruct (maxMessageBytes s <? zlength (message_bytes m)) eqn:El; [by apply inv_close|]. bools.
  set (s1 := set_events (Delivered l (message_bytes m) :: events s) s).
  assert (H1 : inv s1).
  { destruct Hs as [Hc Hs]. split; [|exact Hs]. apply core_note; try done.
    intros Hu. destruct (core_unused _ Hc Hu) as [Hn _]. congruence. }
  apply (bind_at inv (router_receive l (message_bytes m)) _ s1); [apply inv_receive; [done | by exists r]|].
  intros _. apply preserves_get_bind. intros s2 H2. destruct (isClosed s2); [by apply inv_close | done].
Qed.

(** ** Negotiation *)

(** The state in which an offer is examined. *)
Definition idle s : Prop :=
  core s /\ used s = true /\ closing s = NotClosing /\ closed s = false /\ router s = None /\ Forall (fun e => traffic e = false) (events s).

Lemma idle_limit n s : 0 <= n -> idle s ->
  idle (if n =? 0 then s else set_maxMessageBytes (Z.min (maxMessageBytes s) n) s).
Proof.
  intros Hn (Hc & H). destruct (n =? 0) eqn:E; [done|]. bools. split; [|exact H].
  destruct H as (_ & _ & _ & _ & Ht). destruct Hc as [? ? Hlim ? He ? ?].
  constructor; try assumption; simpl in *; [lia|].
  eapply Forall_impl; [exact Ht|]. intros [] Hx; by try discriminate Hx.
Qed.

Lemma idle_slots s l : idle s -> idle (set_slots l s).
Proof. intros (Hc & H). split; [silent | exact H]. Qed.

Lemma idle_inv s : idle s -> inv s.
Proof. intros (Hc & _ & Hn & Hcl & _). split; [done|]. by rewrite Hcl. Qed.

Lemma parseOffer_limit_nonneg sdp n shape :
  parseOffer sdp n = Ok shape -> 0 <= default 65536 (Sdp.maxMessageBytes shape).
Proof.
  intros (? & ? & ? & ? & _ & _ & _ & _ & _ & _ & _ & _ & H)%offer_spec.
  destruct (Sdp.maxMessageBytes shape); simpl in *; [naive_solver | lia].
Qed.

Lemma preserves_idle_slots v l :
  preserves idle (mapS (fun offered => slot ← lift (addSlot v offered);
    modify (fun s => set_slots (slots s ++ [slot]) s)) l).
Proof.
  apply preserves_mapS. intros x. apply preserves_bind; [apply preserves_lift|]. intros slot.
  apply preserves_modify. intros s. apply idle_slots.
Qed.

Lemma inv_prepare o s : idle s -> inv (prepare o s).2.
Proof.
  intros Hs. unfold prepare. rewrite ST_bind_eq. unfold get, lift.
  rewrite ST_bind_eq. match goal with |- context [match ?r with Ok _ => _ | Throw _ => _ end] => destruct r as [sdp|e] end;
    [|by apply idle_inv].
  rewrite ST_bind_eq. destruct (parseOffer _ _) as [shape|e] eqn:Ep; [|by apply idle_inv].
  apply parseOffer_limit_nonneg in Ep. set (n := default 65536 (Sdp.maxMessageBytes shape)) in *. clearbody n.
  rewrite ST_bind_eq. unfold modify at 1.
  pose proof (idle_limit n s Ep Hs) as H1. set (s1 := if n =? 0 then s else _) in *. clearbody s1.
  set (make_slots := match videoPort s with Some v => _ | None => _ end).
  assert (H2 : preserves idle make_slots).
  { unfold make_slots. destruct (videoPort s) as [v|]; [|apply preserves_ret].
    apply preserves_bind; [apply preserves_idle_slots | intros _; apply preserves_ret]. }
  specialize (H2 _ H1). rewrite ST_bind_eq. destruct (make_slots s1) as [[[]|e] s2]; [|by apply idle_inv].
  simpl in H2. rewrite ST_bind_eq, ST_bind_eq. destruct (makeRouter _ _) as [r|e]; [|by apply idle_inv].
  destruct H2 as (Hc & Hu & Hn & Hcl & Hr & Ht).
  split; [|simpl; by rewrite Hcl]. eapply core_silent; [exact Hc | reflexivity.. | | reflexivity].
  simpl. congruence.
Qed.

Lemma inv_answer o : preserves inv (answer o).
Proof.
  apply preserves_get_bind. intros s Hs. unfold throw_when. rewrite ST_bind_eq.
  destruct (used s || closed s) eqn:E; [done|]. bools.
  change (inv (or_close (prepare o) (set_used true s)).2). unfold or_close, catch.
  assert (Hi : idle (set_used true s)).
  { destruct Hs as [Hc Hs]. destruct (core_unused _ Hc) as [Hr Ht]; [done|].
    match goal with H : closed s = false |- _ => rewrite H in Hs end. split_and!; try done.
    destruct Hc. by constructor. }
  pose proof (inv_prepare o _ Hi) as Hp. destruct (prepare o (set_used true s)) as [[[]|e] s1]; [done|].
  apply bind_at; [by apply inv_close | intros _; apply preserves_throw].
Qed.

Lemma inv_negotiated local : preserves inv (negotiated_answer local).
Proof.
  apply preserves_get_bind. intros s Hs. apply inv_or_close; [|done].
  destruct (deadline s) as [[e|]|]; [apply preserves_throw| |];
    (apply preserves_bind; [apply preserves_throw_when|]; intros _; destruct local as [[t sdp]|]; [|apply preserves_throw];
     apply preserves_bind; [apply preserves_throw_when | intros _; apply preserves_ret]).
Qed.

Lemma inv_failed e : preserves inv (negotiation_failed e).
Proof.
  apply preserves_get_bind. intros s Hs. apply inv_or_close; [|done].
  destruct (deadline s) as [[e'|]|]; apply preserves_throw.
Qed.

Lemma inv_reject e : preserves inv (reject e).
Proof.
  apply preserves_modify. intros s [Hc Hs]. destruct (deadline s) as [[e'|]|] eqn:Ed; try done.
  split; [silent|]. unfold settled in *. simpl. destruct (closed s); [|done].
  destruct Hs as (? & ? & ? & ? & ? & ?). by split_and!.
Qed.

Lemma inv_expire : preserves inv expire.
Proof.
  apply preserves_get_bind. intros s Hs. destruct (timer s); [|done].
  apply bind_at; [by apply inv_timer_off|]. intros _.
  apply preserves_bind; [apply inv_close | intros _; apply inv_reject].
Qed.

Lemma inv_run_peer_close : preserves inv run_peer_close.
Proof.
  apply preserves_get_bind. intros s Hi. destruct (closing s) eqn:E; try exact Hi. destruct Hi as [Hc Hs].
  destruct (closed s) eqn:Ecl; [|congruence]. unfold note. unfold_st. split.
  - destruct Hc as [? ? ? ? He Hu [Hp Ho]]. rewrite E in *. constructor; try assumption; simpl.
    + by constructor.
    + intros [? ?]%Hu. split; [done|]. by constructor.
    + unfold count in *. simpl. split; [lia | done].
  - simpl. rewrite Ecl. destruct Hs as (? & ? & ? & ? & ? & ?). by split_and!.
Qed.

Lemma inv_settle_close ok : preserves inv (settle_close ok).
Proof.
  apply preserves_get_bind. intros s Hi. destruct (closing s) eqn:E; try exact Hi. destruct Hi as [Hc Hs].
  destruct (closed s) eqn:Ecl; [|congruence].
  assert (H1 : forall evs, evs = events s \/ evs = OnError :: events s ->
    inv (set_events (OnClosed :: evs) (set_closing CloseDone s))).
  { intros evs Hevs. split.
    - destruct Hc as [? ? ? ? He Hu [Hp Ho]]. rewrite E in *. constructor; try assumption; simpl.
      + constructor; [done|]. destruct Hevs as [->| ->]; [done | by constructor].
      + intros [? ?]%Hu. split; [done|]. constructor; [done|]. destruct Hevs as [->| ->]; [done | by constructor].
      + unfold count in *. simpl. destruct Hevs as [->| ->]; simpl; split; lia.
    - simpl. rewrite Ecl. destruct Hs as (? & ? & ? & ? & ? & ?). by split_and!. }
  destruct ok; unfold note; unfold_st; apply H1; auto.
Qed.

Lemma inv_when_listening x m :
  (forall s, inv s -> x ∈ listening s -> inv (m s).2) -> preserves inv (when_listening x m).
Proof. intros Hm. apply preserves_get_bind. intros s Hs. case_bool_decide; [by apply Hm | done]. Qed.

Lemma inv_transport l st n s : inv s -> inv (set_transport l st n s).
Proof.
  intros [Hc Hs]. unfold set_transport. destruct (mget l (channels s)) as [c|] eqn:Ec; [|done]. split.
  - destruct Hc as [? Hch ? ? ? ? ?]. constructor; try assumption; [by apply NoDup_mset|].
    apply mall_set; [done|]. by destruct (mall_get _ _ _ _ Hch Ec) as (? & ? & ?).
  - simpl. destruct (closed s); [|done]. destruct Hs as (H & _). by rewrite H in Ec.
Qed.

Lemma inv_handle e : preserves inv (handle e).
Proof.
  destruct e; simpl.
  - apply inv_answer.
  - apply preserves_bind; [apply inv_negotiated | intros _; apply preserves_ret].
  - apply preserves_bind; [apply inv_failed | intros _; apply preserves_ret].
  - apply inv_expire.
  - apply inv_when_listening. intros s Hs _. by apply inv_channel.
  - apply preserves_modify. intros s. apply inv_transport.
  - apply inv_when_listening. intros s Hs _. by apply inv_flush.
  - apply inv_when_listening. intros s Hs _. unfold on_state. case_bool_decide; [by apply inv_close | by apply inv_opened].
  - apply inv_when_listening. intros s Hs Hl. apply inv_on_message; [done|]. by apply (core_listening _ (proj1 Hs)).
  - apply inv_when_listening. intros s Hs _. unfold on_connection. case_bool_decide; [by apply inv_close | done].
  - apply inv_run_peer_close.
  - apply inv_settle_close.
  - apply inv_close.
  - apply preserves_get_bind. intros s Hs. destruct (router s) as [r|] eqn:E; [|done].
    apply bind_at; [|intros; apply preserves_ret]. destruct Hs as [Hc Hs].
    split; [by destruct (core_send l bytes s ltac:(split; [done | by exists r])) |].
    by apply (send_unreached settled l bytes settled_unreached).
  - apply preserves_modify. intros s [Hc Hs]. destruct (router s) as [r0|] eqn:E; [|done]. split.
    + eapply core_silent; [exact Hc | reflexivity.. | | reflexivity]. simpl. intros Hu. split; [done | congruence].
    + by apply settled_unreached.
Qed.

Lemma inv_run es s : inv s -> inv (run es s).
Proof. revert s. induction es as [|e es IH]; intros s Hs; [done|]. simpl. apply IH. by apply inv_handle. Qed.

(** ** A closed peer stays silent *)

Definition silent_since (ev0 : list effect) s : Prop :=
  closed s = true /\ listening s = [] /\ closing s <> NotClosing /\ timer s = false /\
  exists new, events s = new ++ ev0 /\ Forall (fun e => traffic e = false) new.

Lemma silent_close ev0 : preserves (silent_since ev0) close.
Proof.
  apply preserves_get_bind. intros s Hs. destruct (closing s) eqn:E; try exact Hs.
  by destruct Hs as (_ & _ & ? & _).
Qed.

Lemma silent_or_close {A} ev0 (m : ST (endpoint R) A) : preserves (silent_since ev0) m -> preserves (silent_since ev0) (or_close m).
Proof.
  intros Hm. apply preserves_catch; [done|]. intros e. apply preserves_bind; [apply silent_close|].
  intros _. apply preserves_throw.
Qed.

Lemma silent_when ev0 x m : preserves (silent_since ev0) (when_listening x m).
Proof.
  apply preserves_get_bind. intros s (? & Hl & ?). rewrite bool_decide_eq_false_2; [done|].
  rewrite Hl. apply not_elem_of_nil.
Qed.

Lemma silent_note ev0 s e c :
  silent_since ev0 s -> traffic e = false -> c <> NotClosing ->
  silent_since ev0 (set_events (e :: events s) (set_closing c s)).
Proof.
  intros (? & ? & ? & ? & new & Hn & Ht) He Hc. split_and!; try done.
  exists (e :: new). simpl. rewrite Hn. split; [done | by constructor].
Qed.

Lemma silent_handle ev0 e : preserves (silent_since ev0) (handle e).
Proof.
  destruct e; simpl; try apply silent_when.
  - apply preserves_get_bind. intros s Hs. unfold throw_when. rewrite ST_bind_eq.
    destruct Hs as (Hc & ?) eqn:Es. rewrite Hc, orb_true_r. exact Hs.
  - apply preserves_bind; [|intros _; apply preserves_ret]. apply preserves_get_bind. intros s Hs.
    apply silent_or_close; [|done].
    destruct (deadline s) as [[e|]|]; [apply preserves_throw| |];
      (apply preserves_bind; [apply preserves_throw_when|]; intros _; destruct local as [[t sdp]|]; [|apply preserves_throw];
       apply preserves_bind; [apply preserves_throw_when | intros _; apply preserves_ret]).
  - apply preserves_bind; [|intros _; apply preserves_ret]. apply preserves_get_bind. intros s Hs.
    apply silent_or_close; [|done]. destruct (deadline s) as [[e'|]|]; apply preserves_throw.
  - apply preserves_get_bind. intros s Hs. destruct (timer s) eqn:E; [|exact Hs].
    destruct Hs as (_ & _ & _ & ? & _). congruence.
  - apply preserves_modify. intros s Hs. unfold set_transport. by destruct (mget l (channels s)).
  - apply preserves_get_bind. intros s Hs. destruct (closing s) eqn:E; try exact Hs.
    unfold note. unfold_st. by apply (silent_note ev0 s PeerClose ClosePending).
  - apply preserves_get_bind. intros s Hs. destruct (closing s) eqn:E; try exact Hs.
    destruct ok; unfold note; unfold_st; [by apply (silent_note ev0 s OnClosed CloseDone)|].
    apply (silent_note ev0 (set_events (OnError :: events s) (set_closing CloseDone s)) OnClosed CloseDone); try done.
    by apply silent_note.
  - apply silent_close.
  - apply preserves_get_bind. intros s Hs. destruct (router s); [|exact Hs].
    apply bind_at; [|intros; apply preserves_ret]. destruct (send_cases l bytes s) as [->|(c & Hc & _)]; [exact Hs|].
    destruct Hs as [? _]. congruence.
  - apply preserves_modify. intros s Hs. by destruct (router s).
Qed.

Lemma silent_run ev0 es s : silent_since ev0 s -> silent_since ev0 (run es s).
Proof. revert s. induction es as [|e es IH]; intros s Hs; [done|]. simpl. apply IH. by apply silent_handle. Qed.

Lemma count_nonneg f l : 0 <= count f l.
Proof. apply zsum_nonneg. intros e. by destruct (f e). Qed.
End props.

Lemma constructor_inv {R} options (s : endpoint R) : constructor options = Ok s -> inv (maxBufferedBytes s) s.
Proof.
  unfold constructor. intros H. inv_res. bools. subst s.
  repeat match goal with H : positiveLimit _ = Ok _ |- _ => apply positiveLimit_Ok in H as (_ & _ & _ & ?) end.
  split; [|done]. constructor; simpl; try done.
  - constructor.
  - constructor.
  - lia.
  - intros l [[=]|[[=]|[]%elem_of_nil]%elem_of_cons]%elem_of_cons.
Qed.

(** A run in two parts. *)
Lemma run_app {R} {port : RouterPort R} es es' (s : endpoint R) : run (es ++ es') s = run es' (run es s).
Proof. revert s. induction es as [|e es IH]; intros s; simpl; [done | apply IH]. Qed.

(** C33: whatever the peer, the transport and the router do and in whatever
    order, every message handed to the transport was at most the negotiated
    limit (never more than 16384) and fitted the configured buffer beside what
    was already buffered; every message handed to the router was within the
    same limit; and the registered channels are at most the three of the
    protocol, each with its own label and exactly the delivery attributes it
    must have. *)
Theorem peer_within_limits {R} (port : RouterPort R) (laws : RouterLaws port) options (s0 : endpoint R) es :
  constructor options = Ok s0 ->
  let s := run es s0 in
  maxBufferedBytes s = maxBufferedBytes s0 /\ 0 < maxMessageBytes s <= 16384 /\
  Forall (effect_ok (maxMessageBytes s) (maxBufferedBytes s)) (events s) /\
  mall (fun l c => label c = l /\ acceptable c) (channels s) /\ msize (channels s) <= 3.
Proof.
  intros Hc%constructor_inv s. pose proof (inv_run (maxBufferedBytes s0) es s0 Hc) as [Hs _]. fold s in Hs.
  destruct Hs as [Hk Hch Hlim _ He _ _ HB].
  split; [done|]. split; [lia|]. split; [done|]. split.
  - eapply mall_impl; [exact Hch|]. naive_solver.
  - unfold msize, zlength. rewrite <- (length_map fst (channels s)). fold (mkeys (channels s)).
    assert (Hsub : mkeys (channels s) ⊆ labels).
    { intros l Hl. unfold mkeys in Hl. apply list_elem_of_fmap in Hl as ([k c] & -> & Hin).
      unfold mall in Hch. rewrite Forall_forall in Hch. by destruct (Hch (k, c) Hin) as (<- & [? _] & _). }
    change 3 with (Z.of_nat (length labels)). apply Nat2Z.inj_le. apply NoDup_incl_length; [by apply NoDup_ListNoDup|].
    intros l Hl. apply list_elem_of_In, Hsub. by apply list_elem_of_In.
Qed.

(** C34: a peer is closed once: once it is closed its channels, slots,
    listeners and negotiation timer are gone, nothing more is ever sent to the
    transport or handed to the router, the connection is closed at most once
    and the owner is told at most once, after that. *)
Theorem peer_closed_once {R} (port : RouterPort R) (laws : RouterLaws port) options (s0 : endpoint R) es es' :
  constructor options = Ok s0 ->
  let s := run es s0 in let s' := run (es ++ es') s0 in
  count is_OnClosed (events s') <= count is_PeerClose (events s') <= 1 /\
  (closed s = true -> closed s' = true /\ released s' /\
    exists new, events s' = new ++ events s /\ Forall (fun e => traffic e = false) new).
Proof.
  intros Hc%constructor_inv s s'. unfold s'. rewrite run_app. fold s.
  pose proof (inv_run _ es s0 Hc) as Hs. fold s in Hs. pose proof (inv_run _ es' s Hs) as [Hc' Hs'].
  split. { destruct (core_closing _ _ Hc') as [-> ->]. destruct (closing (run es' s)); lia. }
  intros Hcl. destruct Hs as [_ Hs]. rewrite Hcl in Hs. destruct Hs as (? & ? & ? & ? & ? & ?).
  destruct (silent_run (events s) es' s) as (Hcl' & _ & _ & _ & Hnew).
  { split_and!; try done. by exists []. }
  split_and!; [done | by rewrite Hcl' in Hs' | done].
Qed.

(** when the negotiation deadline expires, the peer is closed and the
    pending answer is rejected with [endpoint_closed]; the [negotiation_timeout]
    the timer raises comes second and is never seen. *)
Theorem expire_reports_closed {R} (port : RouterPort R) (laws : RouterLaws port) B (s : endpoint R) :
  inv B s -> timer s = true -> deadline s = Some None ->
  expire s = (Ok tt, (expire s).2) /\ inv B (expire s).2 /\ closed (expire s).2 = true /\
  deadline (expire s).2 = Some (Some (Error "endpoint_closed")).
Proof.
  intros Hs Ht Hd.
  destruct (close_spec B (set_timer false s) (inv_timer_off B s Hs)) as (s1 & Hcl & Hi1 & Hc1 & Hd1).
  simpl in Hd1. rewrite Hd in Hd1.
  assert (closing s = NotClosing).
  { destruct Hs as [_ Hs]. destruct (closed s); [|done]. destruct Hs as (_ & _ & _ & ? & _). congruence. }
  specialize (Hd1 ltac:(done)).
  assert (Hx : expire s = (Ok tt, s1)); [|by rewrite Hx].
  unfold expire. rewrite ST_bind_eq. unfold get. rewrite Ht, ST_bind_eq. unfold modify. rewrite ST_bind_eq, Hcl.
  unfold reject, modify. by rewrite Hd1.
Qed.

(** ** A concrete router

    It answers every message on the channel it came from and stops on an
    empty one; its state says whether it is closed. *)

#[local] Instance echo : RouterPort bool := {
  makeRouter := fun _ _ => Ok false;
  router_receive := fun l bytes =>
    match bytes with
    | [] => modify (fun s => match router s with Some _ => set_router (Some true) s | None => s end)
    | _ => send l bytes;; mret tt
    end;
  router_flush := mret tt;
  router_close := modify (fun s => match router s with Some _ => set_router (Some true) s | None => s end);
  router_isClosed := fun b => b }.
#[local] Instance echo_laws : RouterLaws echo.
Proof.
  intros I Hsend Hset.
  assert (Hstop : preserves I (modify (fun s => match router s with Some _ => set_router (Some true) s | None => s end))).
  { apply preserves_modify. intros s Hs. destruct (router s) as [b|] eqn:E; [|done]. apply Hset; [by exists b | done]. }
  split_and!; [|apply preserves_ret|exact Hstop].
  intros l [|x bytes]; [exact Hstop|]. apply preserves_bind; [apply Hsend | intros _; apply preserves_ret].
Qed.

Definition vnum (z : Z) : jsval := VNum (of_Z z).
Definition demo_options : EndpointOptions := {|
  opt_maxMessageBytes := vnum 65536; opt_maxBufferedBytes := vnum 20000; opt_maxSdpBytes := vnum 4096;
  opt_timeoutMs := vnum 1000;
  opt_video := Some {| maxSlots := 1;
    addSlot := fun v => Ok {| mid := js "1"; slotProfile := profileLevelId v |};
    stopSlot := fun _ => Ok tt |} |}.
Definition demo_endpoint : endpoint bool :=
  match constructor demo_options with Ok s => s | Throw _ => {| maxBufferedBytes := 0; maxSdpBytes := 0; timeoutMs := 0;
    videoPort := None; channels := []; listening := []; router := None; closed := true; used := true;
    closing := NotClosing; timer := false; deadline := None; maxMessageBytes := 0; slots := []; events := [] |} end.
Definition demo_channel (l : jsstr) : DataChannel := {|
  label := l; ordered := negb (bool_decide (l = realtime_label)); negotiated := false;
  maxRetransmits := if bool_decide (l = realtime_label) then Some 0 else None; maxPacketLifeTime := None;
  readyState := js "open"; bufferedAmount := 0; bufferedAmountLowThreshold := 0 |}.
Definition demo_events : list (event bool) :=
  [Answer {| offer_type := VStr (js "offer"); offer_sdp := VStr demo_offer |}] ++
  map (fun l => NewChannel (demo_channel l)) labels ++
  [Message realtime_label (TextMessage (js "hi")); Transport realtime_label (js "open") 19999;
   Message realtime_label (TextMessage (js "hi"))].
Definition demo_closing : list (event bool) :=
  [Connection (js "failed"); RunPeerClose; Close; Message realtime_label (TextMessage (js "late")); SettleClose false].

Lemma demo_endpoint_made : constructor demo_options = Ok demo_endpoint.
Proof. vm_compute. reflexivity. Qed.

Lemma peer_within_limits_witness :
  let s := run demo_events demo_endpoint in
  events s = [Delivered realtime_label (js "hi"); Sent realtime_label (js "hi") 0; Delivered realtime_label (js "hi")] /\
  Forall (effect_ok (maxMessageBytes s) (maxBufferedBytes s)) (events s) /\ msize (channels s) <= 3.
Proof.
  cbv zeta. split; [vm_compute; reflexivity|].
  destruct (peer_within_limits echo echo_laws demo_options demo_endpoint demo_events demo_endpoint_made)
    as (_ & _ & H & _ & H'). exact (conj H H').
Defined.

Lemma peer_closed_once_witness :
  let s := run (demo_events ++ demo_closing) demo_endpoint in
  take 4 (events s) = [OnClosed; OnError; PeerClose; SlotStopped {| mid := js "1"; slotProfile := js "42e01f" |}] /\
  count is_OnClosed (events s) <= count is_PeerClose (events s) <= 1.
Proof.
  cbv zeta. split; [vm_compute; reflexivity|].
  exact (proj1 (peer_closed_once echo echo_laws demo_options demo_endpoint demo_events demo_closing demo_endpoint_made)).
Defined.

Definition demo_waiting : endpoint bool := run (take 1 demo_events) demo_endpoint.
Lemma expire_reports_closed_witness :
  timer demo_waiting = true /\ deadline (expire demo_waiting).2 = Some (Some (Error "endpoint_closed")).
Proof.
  split; [vm_compute; reflexivity|].
  refine (proj2 (proj2 (proj2 (expire_reports_closed echo echo_laws _ demo_waiting
    (inv_run _ (take 1 demo_events) demo_endpoint (constructor_inv _ _ demo_endpoint_made)) _ _)))); vm_compute; reflexivity.
Defined.
End EndpointProps.
