(* ===== verification/Deframer.v ===== *)
(** * Splitting a worker's output

    [media/worker.ts]: [lines] cuts the control output into lines, [frames] the
    media output into RTP packets.  Each is a feed function over the bytes left
    from the chunks before; what it hands to its callback is [emitted]. *)

From S2P Require Import Prelude.

Module Deframer.

Definition MAX_LINE_BYTES : Z := 8192.
Definition MIN_PACKET_BYTES : Z := 12.
Definition MAX_PACKET_BYTES : Z := 1500.

Abbreviation bytes := (list Z).
Record feed := { pending : bytes; emitted : list bytes }.
Definition empty : feed := {| pending := []; emitted := [] |}.
Definition set_pending p (f : feed) := {| pending := p; emitted := emitted f |}.
Definition emit b p (f : feed) := {| pending := p; emitted := emitted f ++ [b] |}.

(** [pending.indexOf(0x0a)], as the bytes before it and those after it. *)
Fixpoint cut_line (b : bytes) : option (bytes * bytes) :=
  match b with
  | [] => None
  | c :: b => if c =? 10 then Some ([], b)
              else match cut_line b with Some (line, rest) => Some (c :: line, rest) | None => None end
  end.

Fixpoint line_loop (fuel : nat) (f : feed) : feed :=
  match fuel with
  | O => f
  | S fuel =>
      match cut_line (pending f) with
      | None => f
      | Some (line, rest) =>
          line_loop fuel (match line with [] => set_pending rest f | _ => emit line rest f end)
      end
  end.

Definition lines (chunk : bytes) : ST feed unit :=
  modify (fun f => set_pending (pending f ++ chunk) f);;
  modify (fun f => line_loop (S (length (pending f))) f);;
  f ← get;
  throw_when (MAX_LINE_BYTES <? zlength (pending f)) (Error "worker control line exceeded its limit").

(** [readUInt16BE(0)] *)
Definition uint16 (hi lo : Z) : Z := hi * 256 + lo.

Fixpoint frame_loop (fuel : nat) : ST feed unit :=
  match fuel with
  | O => mret tt
  | S fuel =>
      f ← get;
      match pending f with
      | hi :: lo :: body =>
          let length := uint16 hi lo in
          throw_when ((length <? MIN_PACKET_BYTES) || (MAX_PACKET_BYTES <? length))
            (Error "worker sent an out-of-range RTP length");;
          if zlength (pending f) <? 2 + length then mret tt
          else modify (emit (take (Z.to_nat length) body) (drop (Z.to_nat length) body));; frame_loop fuel
      | _ => mret tt
      end
  end.

Definition frames (chunk : bytes) : ST feed unit :=
  modify (fun f => set_pending (pending f ++ chunk) f);;
  f ← get; frame_loop (S (length (pending f))).

(** The chunks of a stream, until one throws. *)
Definition feed_all (step : bytes -> ST feed unit) (chunks : list bytes) : ST feed unit :=
  mapS step chunks;; mret tt.

(** ** Frames *)

Definition valid_packet (p : bytes) : Prop := MIN_PACKET_BYTES <= zlength p <= MAX_PACKET_BYTES.
(** RFC 4571: a big-endian length and the packet. *)
Definition frame (p : bytes) : bytes := (zlength p / 256) :: (zlength p mod 256) :: p.
Definition stream (ps : list bytes) : bytes := concat (map frame ps).
(** The bytes of a packet that has not arrived in full. *)
Definition partial (b : bytes) : Prop :=
  match b with
  | hi :: lo :: body => MIN_PACKET_BYTES <= uint16 hi lo <= MAX_PACKET_BYTES /\ zlength body < uint16 hi lo
  | _ => True
  end.

Lemma frame_length p : valid_packet p -> uint16 (zlength p / 256) (zlength p mod 256) = zlength p.
Proof. intros _. unfold uint16. pose proof (Z.div_mod (zlength p) 256). lia. Qed.

Lemma frame_loop_packet fuel p rest out :
  valid_packet p ->
  frame_loop (S fuel) {| pending := frame p ++ rest; emitted := out |} =
  frame_loop fuel {| pending := rest; emitted := out ++ [p] |}.
Proof.
  intros Hp. simpl. rewrite ST_bind_eq. unfold get. simpl. rewrite frame_length by done.
  unfold valid_packet in Hp. unfold throw_when. rewrite ST_bind_eq.
  destruct (_ || _) eqn:E; [unfold MIN_PACKET_BYTES, MAX_PACKET_BYTES in *; lia|]. simpl.
  destruct (_ <? 2 + zlength p) eqn:E2.
  { bools. rewrite !zlength_cons, zlength_app in E2. pose proof (zlength_nonneg rest). lia. }
  rewrite ST_bind_eq. unfold modify, emit. simpl. unfold zlength. rewrite Nat2Z.id.
  by rewrite take_app_length, drop_app_length.
Qed.

Lemma frame_loop_stream ps rest out fuel :
  Forall valid_packet ps -> (length (stream ps ++ rest) < fuel)%nat ->
  exists fuel', (length rest < fuel')%nat /\
    frame_loop fuel {| pending := stream ps ++ rest; emitted := out |} =
    frame_loop fuel' {| pending := rest; emitted := out ++ ps |}.
Proof.
  intros Hps. revert out fuel. induction Hps as [|p ps Hp _ IH]; intros out fuel Hf.
  - exists fuel. by rewrite app_nil_r.
  - destruct fuel as [|fuel]; [lia|]. change (stream (p :: ps)) with (frame p ++ stream ps) in *.
    rewrite <- app_assoc in *. rewrite frame_loop_packet by done.
    destruct (IH (out ++ [p]) fuel) as (fuel' & Hl & ->).
    { rewrite length_app in Hf. simpl in Hf. lia. }
    exists fuel'. by rewrite <- app_assoc.
Qed.

Lemma frame_loop_partial rest out fuel :
  partial rest -> frame_loop fuel {| pending := rest; emitted := out |} = (Ok tt, {| pending := rest; emitted := out |}).
Proof.
  intros Hr. destruct fuel as [|fuel]; [done|]. simpl. rewrite ST_bind_eq. unfold get. simpl.
  destruct rest as [|hi [|lo body]]; try done. simpl in Hr. unfold throw_when. rewrite ST_bind_eq.
  destruct ((uint16 hi lo <? MIN_PACKET_BYTES) || (MAX_PACKET_BYTES <? uint16 hi lo)) eqn:E; [lia|]. clear E.
  destruct (zlength (hi :: lo :: body) <? 2 + uint16 hi lo) eqn:E; [done|]. bools. rewrite !zlength_cons in E. lia.
Qed.

(** A length no packet can have. *)
Definition broken (b : bytes) : Prop :=
  exists hi lo body, b = hi :: lo :: body /\ ~ (MIN_PACKET_BYTES <= uint16 hi lo <= MAX_PACKET_BYTES).

Lemma frame_loop_broken rest out fuel :
  broken rest -> (length rest < fuel)%nat ->
  frame_loop fuel {| pending := rest; emitted := out |} =
  (Throw (Error "worker sent an out-of-range RTP length"), {| pending := rest; emitted := out |}).
Proof.
  intros (hi & lo & body & -> & Hr) Hf. destruct fuel as [|fuel]; [lia|]. simpl. rewrite ST_bind_eq. unfold get. simpl.
  unfold throw_when. rewrite ST_bind_eq.
  destruct ((uint16 hi lo <? MIN_PACKET_BYTES) || (MAX_PACKET_BYTES <? uint16 hi lo)) eqn:E; [done|]. lia.
Qed.

(** A prefix of a stream is a shorter stream and what has arrived of the next packet. *)
Lemma stream_prefix ps rest a b :
  Forall valid_packet ps -> a ++ b = stream ps ++ rest ->
  exists qs ps' r, ps = qs ++ ps' /\ a = stream qs ++ r /\ r ++ b = stream ps' ++ rest /\
    (partial r \/ ps' = []).
Proof.
  intros Hps. revert a. induction Hps as [|p ps Hp _ IH]; intros a Hab.
  - exists [], [], a. split_and!; auto.
  - change (stream (p :: ps)) with (frame p ++ stream ps) in Hab. rewrite <- app_assoc in Hab.
    apply app_eq_inv in Hab as [(k & Ha & Hk)|(k & Ha & Hk)].
    + destruct (IH k) as (qs & ps' & r & -> & -> & Hr & Hd); [done|]. exists (p :: qs), ps', r.
      split_and!; try done. rewrite Ha. change (stream (p :: qs)) with (frame p ++ stream qs). by rewrite app_assoc.
    + destruct k as [|x k].
      { exists [p], ps, []. rewrite app_nil_r in Ha. subst. split_and!; try done; [|by left].
        unfold stream. simpl. by rewrite !app_nil_r. }
      exists [], (p :: ps), a. split_and!; try done.
      { change (stream (p :: ps)) with (frame p ++ stream ps). rewrite Ha, Hk, <- !app_assoc. done. }
      left. unfold frame in Ha. destruct a as [|hi [|lo a]]; try done.
      injection Ha as <- <- Hp'. unfold partial. rewrite frame_length by done. split; [exact Hp|].
      subst p. rewrite zlength_app, zlength_cons. pose proof (zlength_nonneg k). lia.
Qed.

Lemma frames_step r chunk out qs r' :
  Forall valid_packet qs -> r ++ chunk = stream qs ++ r' ->
  (partial r' -> frames chunk {| pending := r; emitted := out |} = (Ok tt, {| pending := r'; emitted := out ++ qs |})) /\
  (broken r' -> frames chunk {| pending := r; emitted := out |} =
    (Throw (Error "worker sent an out-of-range RTP length"), {| pending := r'; emitted := out ++ qs |})).
Proof.
  intros Hqs Hr. assert (Heq : exists fuel, (length r' < fuel)%nat /\
    frames chunk {| pending := r; emitted := out |} = frame_loop fuel {| pending := r'; emitted := out ++ qs |}).
  { destruct (frame_loop_stream qs r' out (S (length (stream qs ++ r'))) Hqs) as (fuel & Hl & Hf); [lia|].
    exists fuel. split; [done|]. rewrite <- Hf. unfold frames, set_pending. rewrite !ST_bind_eq. unfold modify. simpl.
    rewrite ST_bind_eq. unfold get. simpl. by rewrite Hr. }
  destruct Heq as (fuel & Hl & ->). split; intros H; [by apply frame_loop_partial | by apply frame_loop_broken].
Qed.

Lemma feed_cons step c chunks f :
  feed_all step (c :: chunks) f =
  match step c f with (Ok _, f') => feed_all step chunks f' | (Throw e, f') => (Throw e, f') end.
Proof.
  unfold feed_all. rewrite !ST_bind_eq. simpl. rewrite ST_bind_eq. destruct (step c f) as [[[]|e] f']; [|done].
  rewrite !ST_bind_eq. by destruct (mapS step chunks f') as [[?|?] ?].
Qed.

Lemma partial_prefix a b : partial (a ++ b) -> partial a.
Proof.
  destruct a as [|hi [|lo a]]; try done. simpl. rewrite zlength_app. pose proof (zlength_nonneg b). lia.
Qed.
Lemma broken_prefix a b : broken (a ++ b) -> partial a \/ broken a.
Proof.
  intros (hi & lo & body & Hab & Hn). destruct a as [|hi' [|lo' a]]; [by left..|].
  injection Hab as -> -> _. right. by exists hi, lo, a.
Qed.
Lemma partial_not_broken a : partial a -> broken a -> False.
Proof. intros Hp (hi & lo & body & -> & Hn). simpl in Hp. tauto. Qed.
Lemma partial_no_frame p qs b rest : valid_packet p -> partial b -> b = stream (p :: qs) ++ rest -> False.
Proof.
  intros Hp Hb ->. change (stream (p :: qs)) with (frame p ++ stream qs) in Hb. unfold frame in Hb. simpl in Hb.
  rewrite frame_length in Hb by done. rewrite !zlength_app in Hb.
  pose proof (zlength_nonneg (stream qs)). pose proof (zlength_nonneg rest). lia.
Qed.

Lemma frames_from r out chunks ps rest :
  Forall valid_packet ps -> partial r -> r ++ concat chunks = stream ps ++ rest ->
  (partial rest -> feed_all frames chunks {| pending := r; emitted := out |} =
    (Ok tt, {| pending := rest; emitted := out ++ ps |})) /\
  (broken rest -> exists f, feed_all frames chunks {| pending := r; emitted := out |} =
    (Throw (Error "worker sent an out-of-range RTP length"), f) /\ emitted f = out ++ ps).
Proof.
  revert r out ps. induction chunks as [|c chunks IH]; intros r out ps Hps Hr Heq.
  { simpl in Heq. rewrite app_nil_r in Heq. destruct ps as [|p ps].
    - simpl in Heq. subst. rewrite app_nil_r. split; [done|]. intros H. by destruct (partial_not_broken rest).
    - apply Forall_cons in Hps as [Hp _]. by destruct (partial_no_frame p ps r rest). }
  simpl in Heq. rewrite app_assoc in Heq.
  destruct (stream_prefix ps rest (r ++ c) (concat chunks) Hps Heq) as (qs & ps' & r' & -> & Hrc & Hr' & Hd).
  apply Forall_app in Hps as [Hqs Hps']. destruct (frames_step r c out qs r' Hqs Hrc) as [Hgo Hstop].
  assert (Hnext : partial r' ->
    (partial rest -> feed_all frames (c :: chunks) {| pending := r; emitted := out |} =
      (Ok tt, {| pending := rest; emitted := out ++ qs ++ ps' |})) /\
    (broken rest -> exists f, feed_all frames (c :: chunks) {| pending := r; emitted := out |} =
      (Throw (Error "worker sent an out-of-range RTP length"), f) /\ emitted f = out ++ qs ++ ps')).
  { intros Hp. rewrite feed_cons, (Hgo Hp), !app_assoc. by apply IH. }
  destruct Hd as [Hp| ->]; [by apply Hnext|]. simpl in Hr'. subst rest. split; intros H.
  - apply Hnext; [by eapply partial_prefix | done].
  - destruct (broken_prefix _ _ H) as [Hp|Hb]; [by apply Hnext|].
    rewrite feed_cons, (Hstop Hb). eexists. split; [done|]. by rewrite app_nil_r.
Qed.

(** C40: however a worker's media output is cut into chunks, exactly the packets
    it framed are delivered, in order and unchanged, and an unfinished packet
    is kept for the next chunk; at the first length outside 12..1500 the packets
    before it have been delivered, the feed throws, and nothing after it is
    delivered. *)
Theorem frames_any_chunking ps rest chunks :
  Forall valid_packet ps -> concat chunks = stream ps ++ rest ->
  (partial rest -> feed_all frames chunks empty = (Ok tt, {| pending := rest; emitted := ps |})) /\
  (broken rest -> exists f, feed_all frames chunks empty =
    (Throw (Error "worker sent an out-of-range RTP length"), f) /\ emitted f = ps).
Proof. intros Hps Heq. by apply (frames_from [] [] chunks ps rest). Qed.

Definition demo_packet : bytes := map Z.of_nat (seq 0 12).
Lemma frames_any_chunking_witness :
  let chunks := [[0]; [12] ++ take 5 demo_packet; drop 5 demo_packet ++ [0; 12]] in
  Forall valid_packet [demo_packet] /\ concat chunks = stream [demo_packet] ++ [0; 12] /\
  feed_all frames chunks empty = (Ok tt, {| pending := [0; 12]; emitted := [demo_packet] |}).
Proof.
  assert (Hv : Forall valid_packet [demo_packet]).
  { constructor; [|done]. split; vm_compute; discriminate. }
  cbv zeta. split; [exact Hv|]. split; [vm_compute; reflexivity|].
  apply (proj1 (frames_any_chunking [demo_packet] [0; 12] [[0]; [12] ++ take 5 demo_packet; drop 5 demo_packet ++ [0; 12]]
    Hv ltac:(vm_compute; reflexivity))).
  split; [split; vm_compute; discriminate | vm_compute; reflexivity].
Defined.

(** ** Lines *)

(** The complete lines of a text and what follows the last one. *)
Fixpoint split_lines (b : bytes) : list bytes * bytes :=
  match b with
  | [] => ([], [])
  | c :: b =>
      let '(ls, tail) := split_lines b in
      if c =? 10 then ([] :: ls, tail)
      else match ls with l :: ls => ((c :: l) :: ls, tail) | [] => ([], c :: tail) end
  end.
Definition nonempty (b : bytes) : bool := match b with [] => false | _ => true end.

Lemma cut_line_split b :
  split_lines b = match cut_line b with
    | Some (line, rest) => (line :: (split_lines rest).1, (split_lines rest).2)
    | None => ([], b) end.
Proof.
  induction b as [|c b IH]; [done|]. simpl. destruct (c =? 10) eqn:E.
  - by destruct (split_lines b).
  - rewrite IH. destruct (cut_line b) as [[line rest]|]; [|done]. by destruct (split_lines rest).
Qed.

Lemma cut_line_length b line rest : cut_line b = Some (line, rest) -> (length rest < length b)%nat.
Proof.
  revert line. induction b as [|c b IH]; [done|]. intros line. simpl. destruct (c =? 10).
  - intros [= <- <-]. lia.
  - destruct (cut_line b) as [[l r]|]; [|done]. intros [= <- <-]. specialize (IH l eq_refl). lia.
Qed.

Lemma line_loop_split fuel f :
  (length (pending f) < fuel)%nat ->
  line_loop fuel f = {| pending := (split_lines (pending f)).2;
    emitted := emitted f ++ List.filter nonempty (split_lines (pending f)).1 |}.
Proof.
  revert f. induction fuel as [|fuel IH]; intros [p out] Hf; [simpl in *; lia|]. simpl in *.
  rewrite cut_line_split. destruct (cut_line p) as [[line rest]|] eqn:E; simpl; [|by rewrite app_nil_r].
  apply cut_line_length in E. rewrite IH; [|destruct line; simpl; lia].
  destruct line; simpl; [done|]. by rewrite <- app_assoc.
Qed.

Lemma split_lines_app a b :
  split_lines (a ++ b) = ((split_lines a).1 ++ (split_lines ((split_lines a).2 ++ b)).1,
                          (split_lines ((split_lines a).2 ++ b)).2).
Proof.
  induction a as [|c a IH]; simpl; [by destruct (split_lines b)|]. rewrite IH. clear IH.
  destruct (split_lines a) as [ls tail]. simpl. destruct (c =? 10) eqn:E; [done|].
  destruct ls as [|l ls]; simpl; [|done]. rewrite E. by destruct (split_lines (tail ++ b)) as [[|l ls] t].
Qed.

Lemma lines_step p out chunk r f' :
  lines chunk {| pending := p; emitted := out |} = (r, f') ->
  f' = {| pending := (split_lines (p ++ chunk)).2;
          emitted := out ++ List.filter nonempty (split_lines (p ++ chunk)).1 |} /\
  (r = Ok tt /\ zlength (pending f') <= MAX_LINE_BYTES \/
   r = Throw (Error "worker control line exceeded its limit") /\ MAX_LINE_BYTES < zlength (pending f')).
Proof.
  unfold lines. rewrite !ST_bind_eq. unfold modify at 1. rewrite ST_bind_eq. unfold modify at 1. rewrite ST_bind_eq.
  unfold get. rewrite line_loop_split by lia. simpl. unfold throw_when.
  destruct (MAX_LINE_BYTES <? zlength (split_lines (p ++ chunk)).2) eqn:E; intros [= <- <-]; (split; [done|]); bools; [right | left]; simpl; auto with lia.
Qed.

(** The state after a text, however it came. *)
Definition after (text : bytes) : feed :=
  {| pending := (split_lines text).2; emitted := List.filter nonempty (split_lines text).1 |}.

Lemma lines_after text chunk r f' :
  lines chunk (after text) = (r, f') ->
  f' = after (text ++ chunk) /\
  (r = Ok tt /\ zlength (pending f') <= MAX_LINE_BYTES \/
   r = Throw (Error "worker control line exceeded its limit") /\ MAX_LINE_BYTES < zlength (pending f')).
Proof.
  intros H. unfold after. rewrite split_lines_app. simpl. rewrite List.filter_app.
  by apply lines_step in H as [-> Hr].
Qed.

(** however a worker's control output is cut into chunks, exactly the
    nonempty complete lines of the text fed so far have been delivered, in
    order, and the unfinished line is pending; feeding stops with an error at
    the first chunk that leaves more than 8192 bytes of an unfinished line, and
    only then. *)
Theorem lines_any_chunking chunks r f :
  feed_all lines chunks empty = (r, f) ->
  exists fed rest, chunks = fed ++ rest /\ f = after (concat fed) /\
    (r = Ok tt /\ rest = [] /\ zlength (pending f) <= MAX_LINE_BYTES \/
     r = Throw (Error "worker control line exceeded its limit") /\ MAX_LINE_BYTES < zlength (pending f)).
Proof.
  enough (Hf : forall text, zlength (pending (after text)) <= MAX_LINE_BYTES ->
    feed_all lines chunks (after text) = (r, f) ->
    exists fed rest, chunks = fed ++ rest /\ f = after (text ++ concat fed) /\
    (r = Ok tt /\ rest = [] /\ zlength (pending f) <= MAX_LINE_BYTES \/
     r = Throw (Error "worker control line exceeded its limit") /\ MAX_LINE_BYTES < zlength (pending f))).
  { by apply (Hf []). }
  induction chunks as [|c chunks IH]; intros text Hp.
  { intros [= <- <-]. exists [], []. simpl. rewrite app_nil_r. split; [done|]. split; [done|]. by left. }
  rewrite feed_cons. destruct (lines c (after text)) as [r1 f1] eqn:E.
  apply lines_after in E as [-> [[-> Hl]|[-> Hl]]].
  - intros H. apply IH in H as (fed & rest & -> & -> & Hd); [|done].
    exists (c :: fed), rest. simpl. rewrite app_assoc. done.
  - intros [= <- <-]. exists [c], chunks. simpl. rewrite app_nil_r. split_and!; [done|done|by right].
Qed.

Lemma lines_any_chunking_witness :
  let chunks := [[123]; [125; 10; 10; 91]; [93]] in
  exists fed rest, chunks = fed ++ rest /\
    {| pending := [91; 93]; emitted := [[123; 125]] |} = after (concat fed).
Proof.
  cbv zeta. destruct (lines_any_chunking [[123]; [125; 10; 10; 91]; [93]] (Ok tt)
    {| pending := [91; 93]; emitted := [[123; 125]] |} ltac:(vm_compute; reflexivity))
    as (fed & rest & H1 & H2 & _). by exists fed, rest.
Defined.
End Deframer.
