(* ===== verification/VideoSource.v ===== *)
(** * One video source

    [media/source.ts]: an encoder that exists only while somebody watches.
    Encoders, viewers, timers and the clock are outside: encoders are numbered in
    the order they are created, and what they do arrives as events.  A promise
    the code awaits is a list of what waits for it, resumed when it settles. *)

From S2P Require Import Prelude JsNumber ConfigTypes.

Module Source.

(** ** Data *)

Inductive VideoState := Starting | Active | Idle | Failed.
#[export] Instance video_state_eq : EqDecision VideoState.
Proof. solve_decision. Defined.
Abbreviation viewer := nat.
Abbreviation packet := (list Z).

Inductive effect :=
| StartEncoder (k : nat)
| AskKeyframe (k : nat)
| StopEncoder (k : nat)
| WriteError
| OnError.

(** A packet as it left [renumber]: who encoded it, its original timestamp and
    its rewritten bytes. *)
Record sent := { by_encoder : nat; original : Z; bytes : packet }.

Record source := {
  viewers : list viewer;
  encoder : option nat (** [this.source] *);
  grace : bool (** [cancelGrace] is armed *);
  start_timer : bool (** [cancelStart] is armed *);
  phase : VideoState;
  lastKeyframeAt : number; failedAt : number;
  sequence : Z; emitted : Z; origin : option Z; shift : Z;
  packets : Z; keyframeRequests : Z;
  releasing : option nat (** [this.release]: the encoder whose stop it waits for *);
  waiting : list nat (** starts suspended in [begin], by the stop they wait for *);
  stopping : list nat (** stops that have not settled *);
  clock : number (** what [options.clock()] returns now *);
  created : nat;
  live : list nat (** encoders created whose stop has not settled *);
  wire : list sent (** newest first *);
  events : list effect (** newest first *) }.

Definition set_viewers v (s : source) : source :=
  {| viewers := v; encoder := encoder s; grace := grace s; start_timer := start_timer s;
     phase := phase s; lastKeyframeAt := lastKeyframeAt s; failedAt := failedAt s;
     sequence := sequence s; emitted := emitted s; origin := origin s; shift := shift s;
     packets := packets s; keyframeRequests := keyframeRequests s; releasing := releasing s;
     waiting := waiting s; stopping := stopping s; clock := clock s; created := created s;
     live := live s; wire := wire s; events := events s |}.
Definition set_encoder v (s : source) : source :=
  {| viewers := viewers s; encoder := v; grace := grace s; start_timer := start_timer s;
     phase := phase s; lastKeyframeAt := lastKeyframeAt s; failedAt := failedAt s;
     sequence := sequence s; emitted := emitted s; origin := origin s; shift := shift s;
     packets := packets s; keyframeRequests := keyframeRequests s; releasing := releasing s;
     waiting := waiting s; stopping := stopping s; clock := clock s; created := created s;
     live := live s; wire := wire s; events := events s |}.
Definition set_grace v (s : source) : source :=
  {| viewers := viewers s; encoder := encoder s; grace := v; start_timer := start_timer s;
     phase := phase s; lastKeyframeAt := lastKeyframeAt s; failedAt := failedAt s;
     sequence := sequence s; emitted := emitted s; origin := origin s; shift := shift s;
     packets := packets s; keyframeRequests := keyframeRequests s; releasing := releasing s;
     waiting := waiting s; stopping := stopping s; clock := clock s; created := created s;
     live := live s; wire := wire s; events := events s |}.
Definition set_start_timer v (s : source) : source :=
  {| viewers := viewers s; encoder := encoder s; grace := grace s; start_timer := v;
     phase := phase s; lastKeyframeAt := lastKeyframeAt s; failedAt := failedAt s;
     sequence := sequence s; emitted := emitted s; origin := origin s; shift := shift s;
     packets := packets s; keyframeRequests := keyframeRequests s; releasing := releasing s;
     waiting := waiting s; stopping := stopping s; clock := clock s; created := created s;
     live := live s; wire := wire s; events := events s |}.
Definition set_phase v (s : source) : source :=
  {| viewers := viewers s; encoder := encoder s; grace := grace s; start_timer := start_timer s;
     phase := v; lastKeyframeAt := lastKeyframeAt s; failedAt := failedAt s;
     sequence := sequence s; emitted := emitted s; origin := origin s; shift := shift s;
     packets := packets s; keyframeRequests := keyframeRequests s; releasing := releasing s;
     waiting := waiting s; stopping := stopping s; clock := clock s; created := created s;
     live := live s; wire := wire s; events := events s |}.
Definition set_lastKeyframeAt v (s : source) : source :=
  {| viewers := viewers s; encoder := encoder s; grace := grace s; start_timer := start_timer s;
     phase := phase s; lastKeyframeAt := v; failedAt := failedAt s; sequence := sequence s;
     emitted := emitted s; origin := origin s; shift := shift s; packets := packets s;
     keyframeRequests := keyframeRequests s; releasing := releasing s; waiting := waiting s;
     stopping := stopping s; clock := clock s; created := created s; live := live s;
     wire := wire s; events := events s |}.
Definition set_failedAt v (s : source) : source :=
  {| viewers := viewers s; encoder := encoder s; grace := grace s; start_timer := start_timer s;
     phase := phase s; lastKeyframeAt := lastKeyframeAt s; failedAt := v; sequence := sequence s;
     emitted := emitted s; origin := origin s; shift := shift s; packets := packets s;
     keyframeRequests := keyframeRequests s; releasing := releasing s; waiting := waiting s;
     stopping := stopping s; clock := clock s; created := created s; live := live s;
     wire := wire s; events := events s |}.
Definition set_sequence v (s : source) : source :=
  {| viewers := viewers s; encoder := encoder s; grace := grace s; start_timer := start_timer s;
     phase := phase s; lastKeyframeAt := lastKeyframeAt s; failedAt := failedAt s; sequence := v;
     emitted := emitted s; origin := origin s; shift := shift s; packets := packets s;
     keyframeRequests := keyframeRequests s; releasing := releasing s; waiting := waiting s;
     stopping := stopping s; clock := clock s; created := created s; live := live s;
     wire := wire s; events := events s |}.
Definition set_emitted v (s : source) : source :=
  {| viewers := viewers s; encoder := encoder s; grace := grace s; start_timer := start_timer s;
     phase := phase s; lastKeyframeAt := lastKeyframeAt s; failedAt := failedAt s;
     sequence := sequence s; emitted := v; origin := origin s; shift := shift s;
     packets := packets s; keyframeRequests := keyframeRequests s; releasing := releasing s;
     waiting := waiting s; stopping := stopping s; clock := clock s; created := created s;
     live := live s; wire := wire s; events := events s |}.
Definition set_origin v (s : source) : source :=
  {| viewers := viewers s; encoder := encoder s; grace := grace s; start_timer := start_timer s;
     phase := phase s; lastKeyframeAt := lastKeyframeAt s; failedAt := failedAt s;
     sequence := sequence s; emitted := emitted s; origin := v; shift := shift s;
     packets := packets s; keyframeRequests := keyframeRequests s; releasing := releasing s;
     waiting := waiting s; stopping := stopping s; clock := clock s; created := created s;
     live := live s; wire := wire s; events := events s |}.
Definition set_shift v (s : source) : source :=
  {| viewers := viewers s; encoder := encoder s; grace := grace s; start_timer := start_timer s;
     phase := phase s; lastKeyframeAt := lastKeyframeAt s; failedAt := failedAt s;
     sequence := sequence s; emitted := emitted s; origin := origin s; shift := v;
     packets := packets s; keyframeRequests := keyframeRequests s; releasing := releasing s;
     waiting := waiting s; stopping := stopping s; clock := clock s; created := created s;
     live := live s; wire := wire s; events := events s |}.
Definition set_packets v (s : source) : source :=
  {| viewers := viewers s; encoder := encoder s; grace := grace s; start_timer := start_timer s;
     phase := phase s; lastKeyframeAt := lastKeyframeAt s; failedAt := failedAt s;
     sequence := sequence s; emitted := emitted s; origin := origin s; shift := shift s;
     packets := v; keyframeRequests := keyframeRequests s; releasing := releasing s;
     waiting := waiting s; stopping := stopping s; clock := clock s; created := created s;
     live := live s; wire := wire s; events := events s |}.
Definition set_keyframeRequests v (s : source) : source :=
  {| viewers := viewers s; encoder := encoder s; grace := grace s; start_timer := start_timer s;
     phase := phase s; lastKeyframeAt := lastKeyframeAt s; failedAt := failedAt s;
     sequence := sequence s; emitted := emitted s; origin := origin s; shift := shift s;
     packets := packets s; keyframeRequests := v; releasing := releasing s; waiting := waiting s;
     stopping := stopping s; clock := clock s; created := created s; live := live s;
     wire := wire s; events := events s |}.
Definition set_releasing v (s : source) : source :=
  {| viewers := viewers s; encoder := encoder s; grace := grace s; start_timer := start_timer s;
     phase := phase s; lastKeyframeAt := lastKeyframeAt s; failedAt := failedAt s;
     sequence := sequence s; emitted := emitted s; origin := origin s; shift := shift s;
     packets := packets s; keyframeRequests := keyframeRequests s; releasing := v;
     waiting := waiting s; stopping := stopping s; clock := clock s; created := created s;
     live := live s; wire := wire s; events := events s |}.
Definition set_waiting v (s : source) : source :=
  {| viewers := viewers s; encoder := encoder s; grace := grace s; start_timer := start_timer s;
     phase := phase s; lastKeyframeAt := lastKeyframeAt s; failedAt := failedAt s;
     sequence := sequence s; emitted := emitted s; origin := origin s; shift := shift s;
     packets := packets s; keyframeRequests := keyframeRequests s; releasing := releasing s;
     waiting := v; stopping := stopping s; clock := clock s; created := created s; live := live s;
     wire := wire s; events := events s |}.
Definition set_stopping v (s : source) : source :=
  {| viewers := viewers s; encoder := encoder s; grace := grace s; start_timer := start_timer s;
     phase := phase s; lastKeyframeAt := lastKeyframeAt s; failedAt := failedAt s;
     sequence := sequence s; emitted := emitted s; origin := origin s; shift := shift s;
     packets := packets s; keyframeRequests := keyframeRequests s; releasing := releasing s;
     waiting := waiting s; stopping := v; clock := clock s; created := created s; live := live s;
     wire := wire s; events := events s |}.
Definition set_clock v (s : source) : source :=
  {| viewers := viewers s; encoder := encoder s; grace := grace s; start_timer := start_timer s;
     phase := phase s; lastKeyframeAt := lastKeyframeAt s; failedAt := failedAt s;
     sequence := sequence s; emitted := emitted s; origin := origin s; shift := shift s;
     packets := packets s; keyframeRequests := keyframeRequests s; releasing := releasing s;
     waiting := waiting s; stopping := stopping s; clock := v; created := created s;
     live := live s; wire := wire s; events := events s |}.
Definition set_created v (s : source) : source :=
  {| viewers := viewers s; encoder := encoder s; grace := grace s; start_timer := start_timer s;
     phase := phase s; lastKeyframeAt := lastKeyframeAt s; failedAt := failedAt s;
     sequence := sequence s; emitted := emitted s; origin := origin s; shift := shift s;
     packets := packets s; keyframeRequests := keyframeRequests s; releasing := releasing s;
     waiting := waiting s; stopping := stopping s; clock := clock s; created := v; live := live s;
     wire := wire s; events := events s |}.
Definition set_live v (s : source) : source :=
  {| viewers := viewers s; encoder := encoder s; grace := grace s; start_timer := start_timer s;
     phase := phase s; lastKeyframeAt := lastKeyframeAt s; failedAt := failedAt s;
     sequence := sequence s; emitted := emitted s; origin := origin s; shift := shift s;
     packets := packets s; keyframeRequests := keyframeRequests s; releasing := releasing s;
     waiting := waiting s; stopping := stopping s; clock := clock s; created := created s;
     live := v; wire := wire s; events := events s |}.
Definition set_wire v (s : source) : source :=
  {| viewers := viewers s; encoder := encoder s; grace := grace s; start_timer := start_timer s;
     phase := phase s; lastKeyframeAt := lastKeyframeAt s; failedAt := failedAt s;
     sequence := sequence s; emitted := emitted s; origin := origin s; shift := shift s;
     packets := packets s; keyframeRequests := keyframeRequests s; releasing := releasing s;
     waiting := waiting s; stopping := stopping s; clock := clock s; created := created s;
     live := live s; wire := v; events := events s |}.
Definition set_events v (s : source) : source :=
  {| viewers := viewers s; encoder := encoder s; grace := grace s; start_timer := start_timer s;
     phase := phase s; lastKeyframeAt := lastKeyframeAt s; failedAt := failedAt s;
     sequence := sequence s; emitted := emitted s; origin := origin s; shift := shift s;
     packets := packets s; keyframeRequests := keyframeRequests s; releasing := releasing s;
     waiting := waiting s; stopping := stopping s; clock := clock s; created := created s;
     live := live s; wire := wire s; events := v |}.

Definition note (e : effect) (s : source) : source := set_events (e :: events s) s.

(** [new VideoSource(options)] *)
Definition constructor (now : number) : source := {|
  viewers := []; encoder := None; grace := false; start_timer := false; phase := Idle;
  lastKeyframeAt := NegInfinity; failedAt := NegInfinity; sequence := 0; emitted := 0; origin := None;
  shift := 0; packets := 0; keyframeRequests := 0; releasing := None; waiting := []; stopping := [];
  clock := now; created := 0; live := []; wire := []; events := [] |}.

(** ** Buffers *)

Definition readUInt32BE (b : packet) (at_ : nat) : result Z :=
  match drop at_ b with
  | b0 :: b1 :: b2 :: b3 :: _ => Ok (((b0 * 256 + b1) * 256 + b2) * 256 + b3)
  | _ => Throw (Error "ERR_BUFFER_OUT_OF_BOUNDS")
  end.
Definition writeUInt32BE (v : Z) (at_ : nat) (b : packet) : packet :=
  take at_ b ++ [v / 16777216 mod 256; v / 65536 mod 256; v / 256 mod 256; v mod 256] ++ drop (at_ + 4) b.
Definition writeUInt16BE (v : Z) (at_ : nat) (b : packet) : packet :=
  take at_ b ++ [v / 256 mod 256; v mod 256] ++ drop (at_ + 2) b.

Definition CLOCK_HZ : Z := 90000.
(** [Math.round(CLOCK_HZ / framerate)] *)
Definition frame_step (b : VideoBinding) : Z :=
  default 0 (nround_Z (ndiv (of_Z CLOCK_HZ) (of_Z (framerate (input b))))).

(** ** Getters *)

Definition terminal (p : VideoState) : bool := bool_decide (p = Idle) || bool_decide (p = Failed).
Definition running (s : source) : bool :=
  bool_decide (releasing s <> None) || negb (terminal (phase s)).
Record VideoDiagnostics := {
  d_track : jsstr; d_backend : VideoBackend; d_state : VideoState; d_viewers : Z; d_packets : Z; d_keyframes : Z }.

Section source.
(** [options.binding] and [options.settings] *)
Variables (binding : VideoBinding) (settings : VideoSettings).

Definition diagnostics (s : source) : VideoDiagnostics := {|
  d_track := v_name binding; d_backend := backend (ConfigTypes.encoder binding); d_state := phase s;
  d_viewers := zlength (viewers s); d_packets := packets s; d_keyframes := keyframeRequests s |}.
Definition retryable (s : source) : bool :=
  nleb (of_Z (retryMinIntervalMs settings)) (nsub (clock s) (failedAt s)).

(** What is outside: whether an encoder's [requestKeyframe] returns, the packets
    it emits before its [start] returns, whether a viewer's [write] returns, and
    the notification of a viewer, which must not throw but may call back. *)
Variable keyframe_ok : nat -> bool.
Variable start_packets : nat -> list packet.
Variable write_ok : viewer -> packet -> bool.
Variable viewer_state : viewer -> VideoState -> source -> source.

(** ** Keyframes and leaving *)

Definition requestKeyframe (s : source) : source :=
  if nltb (nsub (clock s) (lastKeyframeAt s)) (of_Z (pliMinIntervalMs settings)) then s else
  let s := set_keyframeRequests (keyframeRequests s + 1) (set_lastKeyframeAt (clock s) s) in
  match encoder s with
  | Some k => if keyframe_ok k then note (AskKeyframe k) s else note OnError s
  | None => s
  end.

(** [this.viewers.delete(viewer)] is false for a viewer that is not there. *)
Definition remove (v : viewer) (s : source) : source :=
  if bool_decide (v ∉ viewers s) then s else
  let s := set_viewers (filter (fun w => w <> v) (viewers s)) s in
  if bool_decide (viewers s <> []) || bool_decide (phase s = Idle) then s
  else set_grace true s.

(** ** Notification

    [for (const viewer of this.viewers)]: a viewer that was removed before its
    turn is skipped. *)
Fixpoint notify_all (vs : list viewer) (s : source) : source :=
  match vs with
  | [] => s
  | v :: vs => notify_all vs (if bool_decide (v ∈ viewers s) then viewer_state v (phase s) s else s)
  end.
Definition notify (s : source) : source := notify_all (viewers s) s.

(** ** Stopping *)

Definition finish (p : VideoState) (s : source) : source :=
  let s := set_grace false (set_start_timer false s) in
  let held := encoder s in
  let s := set_phase p (set_encoder None s) in
  let s := if bool_decide (p = Failed) then set_failedAt (clock s) s else s in
  let s := notify s in
  let s := if bool_decide (p = Failed) then set_viewers [] s else s in
  match held with
  | None => s
  | Some k => note (StopEncoder k) (set_stopping (stopping s ++ [k]) (set_releasing (Some k) s))
  end.

Definition close (s : source) : source := finish Idle (set_viewers [] s).

(** ** Delivery *)

Definition renumber (k : nat) (b : packet) : ST source packet :=
  original ← lift (readUInt32BE b 4);
  modify (fun s => match origin s with
    | Some _ => s
    | None => set_shift ((emitted s + frame_step binding - original) mod 2 ^ 32) (set_origin (Some original) s)
    end);;
  modify (fun s => set_emitted ((original + shift s) mod 2 ^ 32) s);;
  s ← get;
  let b := writeUInt16BE (Z.land (sequence s) 0xffff) 2 (writeUInt32BE (emitted s) 4 b) in
  modify (set_sequence (sequence s + 1));;
  modify (fun s => set_wire ({| by_encoder := k; original := original; bytes := b |} :: wire s) s);;
  mret b.

Fixpoint write_all (vs : list viewer) (b : packet) (s : source) : source :=
  match vs with
  | [] => s
  | v :: vs => write_all vs b (if write_ok v b then s else note WriteError s)
  end.

(** [packet => { if (this.source === source) this.deliver(packet); }] *)
Definition deliver (k : nat) (b : packet) : ST source unit :=
  s ← get;
  if negb (bool_decide (encoder s = Some k)) then mret tt else
  modify (fun s => if bool_decide (phase s = Starting)
    then notify (set_phase Active (set_start_timer false s)) else s);;
  modify (fun s => set_packets (packets s + 1) s);;
  b ← renumber k b;
  modify (fun s => write_all (viewers s) b s).

(** ** Starting *)

(** The rest of [begin] once nothing is being released. *)
Definition launch (s : source) : source :=
  if negb (bool_decide (phase s = Starting)) || bool_decide (viewers s = []) then s else
  let k := created s in
  let s := set_live (live s ++ [k]) (set_created (S k) (set_origin None s)) in
  let s := note (StartEncoder k) (set_encoder (Some k) s) in
  (mapS (deliver k) (start_packets k) s).2.

Definition begin (s : source) : source :=
  let s := notify (set_phase Starting s) in
  let s := set_start_timer true s in
  match releasing s with
  | Some k => set_waiting (waiting s ++ [k]) s
  | None => launch s
  end.

Definition add (v : viewer) (s : source) : source :=
  let s := if bool_decide (v ∈ viewers s) then s else set_viewers (viewers s ++ [v]) s in
  let s := set_grace false s in
  if terminal (phase s) then begin s else
  let s := if bool_decide (phase s = Active) then requestKeyframe s else s in
  viewer_state v (phase s) s.

(** ** Events *)

Definition grace_fires (s : source) : source := if grace s then finish Idle (set_grace false s) else s.
Definition start_fires (s : source) : source := if start_timer s then finish Failed s else s.
(** The encoder's [onFailed], which ignores a superseded encoder. *)
Definition encoder_failed (k : nat) (s : source) : source :=
  if bool_decide (encoder s = Some k) then finish Failed s else s.
(** The promise of [source.start] rejected. *)
Definition start_rejected (k : nat) (s : source) : source :=
  if (k <? created s)%nat then finish Failed (note OnError s) else s.
(** The promise of [source.stop] settled: [release] is cleared, then every start
    that waited for it goes on. *)
Definition stop_settled (k : nat) (ok : bool) (s : source) : source :=
  if bool_decide (k ∉ stopping s) then s else
  let s := if ok then s else note OnError s in
  let s := set_stopping (filter (fun j => j <> k) (stopping s)) (set_live (filter (fun j => j <> k) (live s)) s) in
  let s := set_releasing None s in
  let resumed := length (filter (fun j => j = k) (waiting s)) in
  Nat.iter resumed launch (set_waiting (filter (fun j => j <> k) (waiting s)) s).

Inductive event :=
| Add (v : viewer) | Remove (v : viewer) | Keyframe | Close | GraceFires | StartFires
| Packet (k : nat) (b : packet) | EncoderFailed (k : nat) | StartRejected (k : nat)
| StopSettled (k : nat) (ok : bool) | Tick (now : number).

Definition handle (e : event) (s : source) : source :=
  match e with
  | Add v => add v s
  | Remove v => remove v s
  | Keyframe => requestKeyframe s
  | Close => close s
  | GraceFires => grace_fires s
  | StartFires => start_fires s
  | Packet k b => (deliver k b s).2
  | EncoderFailed k => encoder_failed k s
  | StartRejected k => start_rejected k s
  | StopSettled k ok => stop_settled k ok s
  | Tick now => set_clock now s
  end.
Definition run (es : list event) (s : source) : source := fold_left (fun s e => handle e s) es s.
End source.

(** ** Probing

    [probe]: what the encoder answers, or nothing before the deadline; the
    second component says whether the source stops the encoder itself. *)
Inductive probe_outcome := Proved | Refused (e : js_error) | Silent.
Definition probe (o : probe_outcome) : result unit * bool :=
  match o with
  | Proved => (Ok tt, false)
  | Refused e => (Throw e, false)
  | Silent => (Throw (Error "backend did not answer the probe"), true)
  end.
End Source.
