(* ===== verification/VideoSourceProps.v ===== *)
(** * What a video source guarantees

    Invariants of [Source] over every order of events, for viewers that keep to
    their interface. *)

From S2P Require Import Prelude JsNumber ConfigTypes VideoSource.

Module SourceProps.
Import Source.

(** A notified viewer reaches the source only by leaving it or by asking for a
    keyframe. *)
Class ViewerLaws (settings : VideoSettings) (keyframe_ok : nat -> bool)
  (viewer_state : viewer -> VideoState -> source -> source) : Prop :=
  viewer_laws : forall I : source -> Prop,
    (forall v s, I s -> I (remove v s)) -> (forall s, I s -> I (requestKeyframe settings keyframe_ok s)) ->
    forall v p s, I s -> I (viewer_state v p s).

Section props.
Context (binding : VideoBinding) (settings : VideoSettings) (keyframe_ok : nat -> bool)
  (start_packets : nat -> list packet) (write_ok : viewer -> packet -> bool)
  (viewer_state : viewer -> VideoState -> source -> source)
  {laws : ViewerLaws settings keyframe_ok viewer_state}.
Implicit Types s : source.

Abbreviation requestKeyframe := (requestKeyframe settings keyframe_ok).
Abbreviation notify := (notify viewer_state).
Abbreviation finish := (finish viewer_state).
Abbreviation deliver := (deliver binding write_ok viewer_state).
Abbreviation launch := (launch binding start_packets write_ok viewer_state).
Abbreviation begin := (begin binding start_packets write_ok viewer_state).
Abbreviation add := (add binding settings keyframe_ok start_packets write_ok viewer_state).
Abbreviation handle := (handle binding settings keyframe_ok start_packets write_ok viewer_state).
Abbreviation run := (run binding settings keyframe_ok start_packets write_ok viewer_state).
Abbreviation renumber := (renumber binding).

(** ** What a notification leaves alone *)

Record frame s s' : Prop := {
  f_encoder : encoder s' = encoder s; f_timer : start_timer s' = start_timer s; f_phase : phase s' = phase s;
  f_failedAt : failedAt s' = failedAt s; f_sequence : sequence s' = sequence s; f_emitted : emitted s' = emitted s;
  f_origin : origin s' = origin s; f_shift : shift s' = shift s; f_releasing : releasing s' = releasing s;
  f_waiting : waiting s' = waiting s; f_stopping : stopping s' = stopping s; f_created : created s' = created s;
  f_live : live s' = live s; f_wire : wire s' = wire s }.

Lemma frame_refl s : frame s s.
Proof. by constructor. Qed.
Lemma frame_trans s1 s2 s3 : frame s1 s2 -> frame s2 s3 -> frame s1 s3.
Proof. intros [] []. constructor; congruence. Qed.

Lemma remove_frame v s : frame s (remove v s).
Proof. unfold remove. destruct (bool_decide _); [apply frame_refl|]. simpl. by destruct (_ || _). Qed.
Lemma keyframe_frame s : frame s (requestKeyframe s).
Proof.
  unfold Source.requestKeyframe. destruct (nltb _ _); [apply frame_refl|]. simpl.
  destruct (encoder s) as [k|] eqn:E; [|by constructor]. destruct (keyframe_ok k); by constructor.
Qed.
Lemma viewer_frame v p s : frame s (viewer_state v p s).
Proof.
  apply (laws (frame s)); [| |apply frame_refl]; intros; (eapply frame_trans; [eassumption|]);
    [apply remove_frame | apply keyframe_frame].
Qed.
Lemma notify_all_frame vs s : frame s (notify_all viewer_state vs s).
Proof.
  revert s. induction vs as [|v vs IH]; intros s; simpl; [apply frame_refl|].
  eapply frame_trans; [|apply IH]. destruct (bool_decide _); [apply viewer_frame | apply frame_refl].
Qed.
Lemma notify_frame s : frame s (notify s).
Proof. apply notify_all_frame. Qed.

(** ** Who watches *)

(** Apart from [Idle] phases, a source nobody watches has its grace timer armed. *)
Definition watched s : Prop :=
  NoDup (viewers s) /\ (grace s = true -> viewers s = []) /\ (viewers s = [] -> grace s = true).

Lemma remove_watched v s : phase s <> Idle -> watched s -> watched (remove v s).
Proof.
  intros Hp (Hn & Hg & Hv). unfold remove. case_bool_decide as Hin; [done|]. simpl.
  destruct (bool_decide (filter (fun w => w <> v) (viewers s) <> [])) eqn:E; simpl.
  - bools. split_and!; simpl; [by apply NoDup_filter | | done]. intros Hgr. by rewrite (Hg Hgr).
  - rewrite (bool_decide_eq_false_2 (phase s = Idle)) by done. bools. apply dec_stable in E.
    split_and!; simpl; [by apply NoDup_filter | done | done].
Qed.
Lemma keyframe_watched s : watched s -> watched (requestKeyframe s).
Proof.
  intros H. unfold Source.requestKeyframe. destruct (nltb _ _); [done|]. simpl.
  destruct (encoder s) as [k|]; [|done]. by destruct (keyframe_ok k).
Qed.
Lemma keyframe_phase s : phase (requestKeyframe s) = phase s.
Proof. apply keyframe_frame. Qed.
Lemma viewer_watched v p s : phase s <> Idle -> watched s -> watched (viewer_state v p s).
Proof.
  intros Hp Hw. apply (laws (fun s => phase s <> Idle /\ watched s)); [| |done].
  - intros w s1 [? ?]. split; [|by apply remove_watched]. by rewrite (f_phase _ _ (remove_frame w s1)).
  - intros s1 [? ?]. split; [|by apply keyframe_watched]. by rewrite keyframe_phase.
Qed.
Lemma notify_watched s : phase s <> Idle -> watched s -> watched (notify s).
Proof.
  unfold Source.notify. generalize (viewers s). intros vs. revert s.
  induction vs as [|v vs IH]; intros s Hp Hw; simpl; [done|]. case_bool_decide; [|by apply IH].
  apply IH; [by rewrite (f_phase _ _ (viewer_frame v (phase s) s)) | by apply viewer_watched].
Qed.

(** ** The state machine *)

Record inv s : Prop := {
  i_terminal : terminal (phase s) = true -> viewers s = [] /\ encoder s = None /\ start_timer s = false;
  i_watched : terminal (phase s) = false -> watched s;
  i_starting : phase s = Starting -> start_timer s = true;
  i_active : phase s = Active -> encoder s <> None /\ start_timer s = false;
  i_encoder : forall k, encoder s = Some k -> (k < created s)%nat /\ k ∈ live s /\ k ∉ stopping s;
  i_stopping : forall k, k ∈ stopping s -> (k < created s)%nat /\ k ∈ live s;
  i_waiting : forall k, k ∈ waiting s -> k ∈ stopping s;
  i_releasing : forall k, releasing s = Some k -> k ∈ stopping s }.

(** The part of the invariant that holds in the middle of an operation too. *)
Definition links s : Prop :=
  (forall k, encoder s = Some k -> (k < created s)%nat /\ k ∈ live s /\ k ∉ stopping s) /\
  (forall k, k ∈ stopping s -> (k < created s)%nat /\ k ∈ live s) /\
  (forall k, k ∈ waiting s -> k ∈ stopping s) /\ (forall k, releasing s = Some k -> k ∈ stopping s).
Lemma inv_links s : inv s -> links s.
Proof. by intros []. Qed.

Lemma terminal_true p : terminal p = true <-> p = Idle \/ p = Failed.
Proof. destruct p; split; intros H; try done; try (by auto); by destruct H. Qed.

(** A notification in a phase that is not terminal. *)
Lemma inv_frame s s' :
  inv s -> frame s s' -> terminal (phase s) = false -> watched s' -> inv s'.
Proof.
  intros [] [] Ht Hw. constructor; intros; repeat match goal with H : ?x s' = _ |- _ => rewrite H in * end; eauto; congruence.
Qed.

Lemma not_terminal p : terminal p = false -> p <> Idle.
Proof. by destruct p. Qed.

Lemma inv_notify s : inv s -> terminal (phase s) = false -> inv (notify s).
Proof.
  intros Hi Ht. apply (inv_frame s); [done | apply notify_frame | done |].
  apply notify_watched; [by apply not_terminal | by apply i_watched].
Qed.

Lemma inv_keyframe s : inv s -> inv (requestKeyframe s).
Proof.
  intros Hi. unfold Source.requestKeyframe. destruct (nltb _ _); [done|]. simpl.
  destruct (encoder s) as [k|]; [destruct (keyframe_ok k)|]; destruct Hi; by constructor.
Qed.

Lemma inv_remove v s : inv s -> inv (remove v s).
Proof.
  intros Hi. destruct (terminal (phase s)) eqn:Ht.
  - unfold remove. destruct (i_terminal _ Hi Ht) as (-> & _). by rewrite bool_decide_eq_true_2 by apply not_elem_of_nil.
  - apply (inv_frame s); [done | apply remove_frame | done |].
    apply remove_watched; [by apply not_terminal | by apply i_watched].
Qed.

Lemma elem_snoc {A} (x y : A) l : x ∈ l ++ [y] <-> x ∈ l \/ x = y.
Proof. rewrite elem_of_app, list_elem_of_singleton. done. Qed.

(** [finish] up to the encoder it holds. *)
Lemma finish_cases p s : exists s4,
  (phase s4 = p /\ encoder s4 = None /\ start_timer s4 = false /\ created s4 = created s /\ live s4 = live s /\
   stopping s4 = stopping s /\ waiting s4 = waiting s /\ releasing s4 = releasing s /\
   (p = Failed \/ viewers s = [] -> viewers s4 = [])) /\
  finish p s = match encoder s with None => s4
    | Some k => note (StopEncoder k) (set_stopping (stopping s4 ++ [k]) (set_releasing (Some k) s4)) end.
Proof.
  set (s1 := set_phase p (set_encoder None (set_grace false (set_start_timer false s)))).
  set (s2 := if bool_decide (p = Failed) then set_failedAt (clock s1) s1 else s1).
  exists (if bool_decide (p = Failed) then set_viewers [] (notify s2) else notify s2). split; [|done].
  assert (H2 : phase s2 = p /\ encoder s2 = None /\ start_timer s2 = false /\ created s2 = created s /\ live s2 = live s /\
    stopping s2 = stopping s /\ waiting s2 = waiting s /\ releasing s2 = releasing s /\ viewers s2 = viewers s).
  { unfold s2. by destruct (bool_decide _). }
  destruct H2 as (? & ? & ? & ? & ? & ? & ? & ? & Hv), (notify_frame s2).
  case_bool_decide as Hp; simpl; split_and!; try congruence; intros [?|Hnone]; try done.
  unfold Source.notify. rewrite Hv, Hnone. simpl. congruence.
Qed.

Lemma inv_finish p s :
  links s -> p = Failed \/ p = Idle /\ viewers s = [] -> inv (finish p s).
Proof.
  intros (N & P & Q & R) Hp.
  destruct (finish_cases p s) as (s4 & (E1 & E2 & E3 & E4 & E5 & E6 & E7 & E8 & E9) & ->).
  assert (Hv : viewers s4 = []) by (apply E9; destruct Hp as [?|[_ ?]]; auto).
  destruct (encoder s) as [k|] eqn:Ek.
  - destruct (N k eq_refl) as (? & ? & ?). constructor; simpl; rewrite ?E1, ?E2, ?E3, ?E4, ?E5, ?E6, ?E7; try done.
    1-3: by destruct Hp as [->|[-> _]].
    + intros j [Hj| ->]%elem_snoc; [by apply P | done].
    + intros j Hj. apply elem_snoc. left. by apply Q.
    + intros j [= <-]. apply elem_snoc. by right.
  - constructor; rewrite ?E1, ?E2, ?E3, ?E4, ?E5, ?E6, ?E7, ?E8; try done; by destruct Hp as [->|[-> _]].
Qed.

Lemma inv_wire s s' :
  inv s -> viewers s' = viewers s -> grace s' = grace s -> encoder s' = encoder s -> start_timer s' = start_timer s ->
  phase s' = phase s -> created s' = created s -> live s' = live s -> stopping s' = stopping s ->
  waiting s' = waiting s -> releasing s' = releasing s -> inv s'.
Proof.
  intros [T W S A N P Q R] E1 E2 E3 E4 E5 E6 E7 E8 E9 E10.
  constructor; unfold watched in *; rewrite ?E1, ?E2, ?E3, ?E4, ?E5, ?E6, ?E7, ?E8, ?E9, ?E10; done.
Qed.

Lemma inv_write_all vs b s : inv s -> inv (write_all write_ok vs b s).
Proof.
  revert s. induction vs as [|v vs IH]; intros s Hi; simpl; [done|]. apply IH.
  destruct (write_ok v b); [done|]. by eapply inv_wire.
Qed.

Lemma inv_renumber k b : preserves inv (renumber k b).
Proof.
  apply preserves_bind; [apply preserves_lift|]. intros o.
  apply preserves_bind; [apply preserves_modify; intros s Hi; destruct (origin s); [done | by eapply inv_wire]|].
  intros _. apply preserves_bind; [apply preserves_modify; intros s Hi; by eapply inv_wire|].
  intros _. apply preserves_get_bind. intros s Hi.
  apply bind_at; [by eapply inv_wire|]. intros _.
  apply preserves_bind; [apply preserves_modify; intros s' Hi'; by eapply inv_wire|]. intros _. apply preserves_ret.
Qed.

Lemma inv_activate s :
  inv s -> encoder s <> None ->
  inv (if bool_decide (phase s = Starting) then notify (set_phase Active (set_start_timer false s)) else s).
Proof.
  intros Hi He. case_bool_decide as Hp; [|done]. apply inv_notify; [|done].
  destruct Hi as [T W S A N P Q R]. rewrite Hp in *. by constructor.
Qed.

Lemma inv_deliver k b : preserves inv (deliver k b).
Proof.
  apply preserves_get_bind. intros s Hi. destruct (negb _) eqn:E; [done|]. bools.
  apply bind_at; [apply inv_activate; [done | congruence]|]. intros _.
  apply preserves_bind; [apply preserves_modify; intros s' Hi'; by eapply inv_wire|]. intros _.
  apply preserves_bind; [apply inv_renumber|]. intros b'. apply preserves_modify. intros s'. apply inv_write_all.
Qed.

Lemma inv_launch s : inv s -> inv (launch s).
Proof.
  intros Hi. unfold Source.launch. destruct (negb _ || _) eqn:E; [done|]. bools.
  match goal with H : phase s = Starting |- _ => rename H into Hp end.
  apply preserves_mapS; [intros b; apply inv_deliver|].
  destruct Hi as [T W S A N P Q R]. rewrite Hp in *. constructor; simpl; try rewrite Hp; try done.
  - intros k [= <-]. split_and!; [lia | by apply elem_snoc; right|]. intros Hk. apply P in Hk. lia.
  - intros k Hk. apply P in Hk as [? ?]. split; [lia | by apply elem_snoc; left].
Qed.

Lemma inv_begin s : links s -> watched s -> encoder s = None -> inv (begin s).
Proof.
  intros Hi Hw He. unfold Source.begin.
  pose proof (notify_frame (set_phase Starting s)) as Hf.
  pose proof (notify_watched (set_phase Starting s) ltac:(done) Hw) as Hw'.
  set (s1 := notify (set_phase Starting s)) in *. simpl.
  assert (H1 : inv (set_start_timer true s1)).
  { destruct Hi as (N & P & Q & R), Hf. simpl in *. constructor; simpl;
      repeat match goal with H : _ s1 = _ |- _ => rewrite H end; rewrite ?He; try done. }
  destruct (releasing s1) as [k|] eqn:Ek; [|by apply inv_launch].
  pose proof (i_releasing _ H1 k Ek) as Hk. destruct H1 as [T W S A N P Q R']. constructor; try done.
  intros j. simpl. intros [Hj| ->]%elem_snoc; [by apply Q | done].
Qed.

Lemma inv_add v s : inv s -> inv (add v s).
Proof.
  intros Hi. unfold Source.add.
  set (s1 := if bool_decide (v ∈ viewers s) then s else set_viewers (viewers s ++ [v]) s).
  assert (H1 : NoDup (viewers s) -> NoDup (viewers s1) /\ viewers s1 <> []).
  { intros Hn. unfold s1. case_bool_decide as Hin; simpl.
    - split; [done|]. intros E. rewrite E in Hin. by apply not_elem_of_nil in Hin.
    - split; [|by destruct (viewers s)]. apply NoDup_app. split_and!; [done | | apply NoDup_singleton].
      intros w Hw ->%list_elem_of_singleton. done. }
  assert (Hf : phase s1 = phase s /\ encoder s1 = encoder s /\ start_timer s1 = start_timer s /\ created s1 = created s /\
    live s1 = live s /\ stopping s1 = stopping s /\ waiting s1 = waiting s /\ releasing s1 = releasing s).
  { unfold s1. by destruct (bool_decide _). }
  destruct Hf as (E1 & E2 & E3 & E4 & E5 & E6 & E7 & E8). simpl. rewrite E1.
  assert (Hw : NoDup (viewers s) -> watched (set_grace false s1)).
  { intros [? ?]%H1. by split_and!. }
  assert (Hl : links (set_grace false s1)).
  { unfold links. simpl. rewrite E2, E4, E5, E6, E7, E8. by apply inv_links. }
  destruct (terminal (phase s)) eqn:Ht.
  - destruct (i_terminal _ Hi Ht) as (Hv & He & _). apply inv_begin; [done | | simpl; congruence].
    apply Hw. rewrite Hv. constructor.
  - set (s2 := set_grace false s1).
    assert (H2 : inv s2).
    { destruct Hl as (N & P & Q & R), Hi as [T W S A _ _ _ _]. constructor; try done; simpl; rewrite ?E1, ?E2, ?E3; try done.
      - congruence.
      - intros _. apply Hw, W, Ht. }
    assert (Hp2 : phase s2 = phase s) by done.
    set (s3 := if bool_decide (phase s = Active) then requestKeyframe s2 else s2).
    assert (H3 : inv s3 /\ phase s3 = phase s).
    { unfold s3. case_bool_decide; [|done]. split; [by apply inv_keyframe | by rewrite keyframe_phase]. }
    destruct H3 as [H3 Hp3].
    apply (inv_frame s3); [done | apply viewer_frame | by rewrite Hp3 |].
    apply viewer_watched; [rewrite Hp3; by apply not_terminal | apply i_watched; [done | by rewrite Hp3]].
Qed.

Lemma inv_iter_launch n s : inv s -> inv (Nat.iter n launch s).
Proof. intros Hi. induction n as [|n IH]; simpl; [done | by apply inv_launch]. Qed.

Lemma inv_stop_settled k ok s : inv s -> inv (stop_settled binding start_packets write_ok viewer_state k ok s).
Proof.
  intros Hi. unfold stop_settled. case_bool_decide as Hk; [done|].
  apply inv_iter_launch. set (s1 := if ok then s else note OnError s).
  assert (H1 : inv s1) by (unfold s1; destruct ok; [done | by eapply inv_wire]).
  destruct H1 as [T W S A N P Q R]. constructor; simpl; try done.
  - intros j Hj. destruct (N j Hj) as (? & ? & Hs). split_and!; [done | |].
    + apply list_elem_of_filter. split; [|done]. intros ->. unfold s1 in Hs. by destruct ok.
    + rewrite list_elem_of_filter. naive_solver.
  - intros j. rewrite !list_elem_of_filter. naive_solver.
  - intros j. rewrite !list_elem_of_filter. naive_solver.
Qed.

Lemma inv_source_handle e s : inv s -> inv (handle e s).
Proof.
  intros Hi. destruct e; simpl.
  - by apply inv_add.
  - by apply inv_remove.
  - by apply inv_keyframe.
  - apply inv_finish; [by destruct Hi | auto].
  - unfold grace_fires. destruct (grace s) eqn:Hg; [|done]. apply inv_finish; [by destruct Hi|]. right.
    split; [done|]. destruct (terminal (phase s)) eqn:Ht; [by destruct (i_terminal _ Hi Ht)|]. destruct (i_watched _ Hi Ht) as (_ & Hw & _). by apply Hw.
  - unfold start_fires. destruct (start_timer s); [|done]. apply inv_finish; [by destruct Hi | auto].
  - by apply inv_deliver.
  - unfold encoder_failed. case_bool_decide; [|done]. apply inv_finish; [by destruct Hi | auto].
  - unfold start_rejected. destruct (_ <? _)%nat; [|done]. apply inv_finish; [by destruct Hi | auto].
  - by apply inv_stop_settled.
  - by eapply inv_wire.
Qed.

Lemma inv_source_run es s : inv s -> inv (run es s).
Proof. revert s. induction es as [|e es IH]; intros s Hi; simpl; [done|]. by apply IH, inv_source_handle. Qed.

Lemma inv_constructor now : inv (constructor now).
Proof. constructor; try done; intros k Hk; by apply not_elem_of_nil in Hk. Qed.

(** ** Only a new viewer makes a source run *)

Lemma running_finish p s : inv s -> p = Idle \/ p = Failed -> running (finish p s) = true -> running s = true.
Proof.
  intros Hi Hp. destruct (encoder s) as [k|] eqn:Ek.
  - intros _. unfold running. destruct (terminal (phase s)) eqn:Ht; [|by rewrite orb_true_r].
    destruct (i_terminal _ Hi Ht) as (_ & ? & _). congruence.
  - destruct (finish_cases p s) as (s4 & (E1 & _ & _ & _ & _ & _ & _ & E8 & _) & ->). rewrite Ek.
    unfold running. rewrite E1, E8. replace (terminal p) with true by (by destruct Hp as [->| ->]).
    rewrite orb_false_r. by intros ->.
Qed.

Lemma running_frame s s' : frame s s' -> running s' = running s.
Proof. intros Hf. unfold running. by rewrite (f_releasing _ _ Hf), (f_phase _ _ Hf). Qed.

Lemma running_handle e s :
  inv s -> (forall v, e <> Add v) -> running (handle e s) = true -> running s = true.
Proof.
  intros Hi He. destruct e; simpl.
  - by destruct (He v).
  - by rewrite (running_frame _ _ (remove_frame v s)).
  - by rewrite (running_frame _ _ (keyframe_frame s)).
  - intros Hr. destruct (terminal (phase s)) eqn:Ht.
    + apply (running_finish Idle); [done | auto|]. destruct (i_terminal _ Hi Ht) as (Hv & _).
      unfold close in Hr. replace (set_viewers [] s) with s in Hr; [done|].
      clear Hr. destruct s. simpl in *. by rewrite Hv.
    + unfold running. by rewrite Ht, orb_true_r.
  - unfold grace_fires. destruct (grace s) eqn:Hg; [|done]. intros Hr. destruct (terminal (phase s)) eqn:Ht.
    + unfold running in *. rewrite Ht. destruct (i_terminal _ Hi Ht) as (Hv & He' & _).
      destruct (finish_cases Idle (set_grace false s)) as (s4 & (E1 & _ & _ & _ & _ & _ & _ & E8 & _) & Hf).
      rewrite Hf in Hr. simpl in Hr, E8. rewrite He', E1, E8 in Hr. done.
    + unfold running. by rewrite Ht, orb_true_r.
  - unfold start_fires. destruct (start_timer s); [apply running_finish; auto | done].
  - unfold Source.deliver. rewrite ST_bind_eq. unfold get. case_bool_decide as Hk; simpl; [|done]. intros _.
    unfold running. destruct (terminal (phase s)) eqn:Ht; [|by rewrite orb_true_r].
    destruct (i_terminal _ Hi Ht) as (_ & ? & _). congruence.
  - unfold encoder_failed. case_bool_decide; [apply running_finish; auto | done].
  - unfold start_rejected. destruct (_ <? _)%nat; [|done]. intros Hr. apply (running_finish Failed (note OnError s)); auto.
    by eapply inv_wire.
  - unfold stop_settled. case_bool_decide; [done|]. intros Hr. unfold running. apply orb_true_iff. right.
    destruct (terminal (phase s)) eqn:Ht; [|done]. exfalso.
    match type of Hr with running (Nat.iter ?n _ ?x) = _ => assert (Hx : phase x = phase s /\ releasing x = None) by (by destruct ok);
      revert Hr; generalize n; generalize dependent x end.
    intros x [Hp Hrel] n. replace (Nat.iter n launch x) with x.
    + unfold running. by rewrite Hp, Hrel, Ht.
    + induction n as [|n IH]; simpl; [done|]. rewrite <- IH. unfold Source.launch. rewrite Hp. by destruct (phase s).
  - by intros.
Qed.
End props.
End SourceProps.
