(* ===== verification/VideoSourceRuns.v ===== *)
(** * The runs of a video source

    When an encoder runs, when it stops, how its packets are numbered, and two
    orders of events in which the source does not do what it means to. *)

From S2P Require Import Prelude JsNumber ConfigTypes VideoSource VideoSourceProps.

Module SourceRuns.
Import Source SourceProps.

Section runs.
Context (binding : VideoBinding) (settings : VideoSettings) (keyframe_ok : nat -> bool)
  (start_packets : nat -> list packet) (write_ok : viewer -> packet -> bool)
  (viewer_state : viewer -> VideoState -> source -> source)
  {laws : ViewerLaws settings keyframe_ok viewer_state}.
Implicit Types s : source.

Abbreviation requestKeyframe := (requestKeyframe settings keyframe_ok).
Abbreviation notify := (notify viewer_state).
Abbreviation finish := (finish viewer_state).
Abbreviation deliver := (deliver binding write_ok viewer_state).
Abbreviation launch := (launch binding start_packets write_ok viewer_state).
Abbreviation begin := (begin binding start_packets write_ok viewer_state).
Abbreviation add := (add binding settings keyframe_ok start_packets write_ok viewer_state).
Abbreviation handle := (handle binding settings keyframe_ok start_packets write_ok viewer_state).
Abbreviation run := (run binding settings keyframe_ok start_packets write_ok viewer_state).
Abbreviation renumber := (renumber binding).

(** ** Numbering *)

Definition seq_of (b : packet) : Z := match drop 2 b with b0 :: b1 :: _ => b0 * 256 + b1 | _ => -1 end.
Definition time_of (b : packet) : Z := match readUInt32BE b 4 with Ok t => t | Throw _ => -1 end.

(** The packet sent after another continues its numbering: the sequence number
    is the next one, and the timestamp keeps the distance the encoder put
    between the two, or is one frame later when another encoder took over. *)
Definition follows (p q : sent) : Prop :=
  seq_of (bytes q) = (seq_of (bytes p) + 1) mod 65536 /\
  time_of (bytes q) = (time_of (bytes p) +
    (if bool_decide (by_encoder q = by_encoder p) then original q - original p else frame_step binding)) mod 2 ^ 32.

Fixpoint continuous (w : list sent) : Prop :=
  match w with
  | q :: (p :: _) as w' => follows p q /\ continuous w'
  | _ => True
  end.

(** What the counters of the source say about the packets sent so far. *)
Record numbered s : Prop := {
  n_chain : continuous (wire s);
  n_head : match wire s with
    | [] => sequence s = 0 /\ emitted s = 0 /\ origin s = None
    | p :: _ => seq_of (bytes p) = (sequence s - 1) mod 65536 /\ time_of (bytes p) = emitted s /\
        (forall o, origin s = Some o -> emitted s = (original p + shift s) mod 2 ^ 32 /\
          forall k, encoder s = Some k -> by_encoder p = k) /\
        (origin s = None -> forall k, encoder s = Some k -> by_encoder p <> k) /\
        (by_encoder p < created s)%nat
    end;
  n_fresh : forall k, encoder s = Some k -> (k < created s)%nat }.

Lemma numbered_frame s s' : numbered s -> frame s s' -> numbered s'.
Proof.
  intros [H1 H2 H3] [E1 _ _ _ E2 E3 E4 E5 _ _ _ E6 _ E7].
  constructor; rewrite ?E1, ?E2, ?E3, ?E4, ?E5, ?E6, ?E7; done.
Qed.

Lemma rewritten_seq b t n : (8 <= length b)%nat -> 0 <= n < 65536 ->
  seq_of (writeUInt16BE n 2 (writeUInt32BE t 4 b)) = n.
Proof.
  intros Hl Hn. do 8 (destruct b as [|? b]; [simpl in Hl; lia|]).
  unfold seq_of, writeUInt16BE, writeUInt32BE. simpl.
  pose proof (Z.div_mod n 256 ltac:(lia)). rewrite (Z.mod_small (n / 256)); [lia|].
  split; [apply Z.div_pos; lia | apply Z.div_lt_upper_bound; lia].
Qed.

Lemma rewritten_time b t n : (8 <= length b)%nat -> 0 <= t < 2 ^ 32 ->
  time_of (writeUInt16BE n 2 (writeUInt32BE t 4 b)) = t.
Proof.
  intros Hl Ht. do 8 (destruct b as [|? b]; [simpl in Hl; lia|]).
  unfold time_of, readUInt32BE, writeUInt16BE, writeUInt32BE. simpl.
  change 16777216 with (256 * 256 * 256). change 65536 with (256 * 256).
  rewrite <- !Z.div_div by lia.
  pose proof (Z.div_mod t 256 ltac:(lia)). pose proof (Z.div_mod (t / 256) 256 ltac:(lia)).
  pose proof (Z.div_mod (t / 256 / 256) 256 ltac:(lia)).
  rewrite (Z.mod_small (t / 256 / 256 / 256)); [lia|]. rewrite !Z.div_div by lia.
  split; [apply Z.div_pos; lia | apply Z.div_lt_upper_bound; lia].
Qed.

Lemma readUInt32BE_length b t : readUInt32BE b 4 = Ok t -> (8 <= length b)%nat.
Proof. unfold readUInt32BE. do 8 (destruct b as [|? b]; [done|]). simpl. lia. Qed.

(** [renumber] on the counters. *)
Lemma renumber_spec k b s b' s' :
  renumber k b s = (Ok b', s') ->
  exists o, readUInt32BE b 4 = Ok o /\
    let sh := match origin s with Some _ => shift s | None => (emitted s + frame_step binding - o) mod 2 ^ 32 end in
    s' = set_wire ({| by_encoder := k; original := o; bytes := b' |} :: wire s) (set_sequence (sequence s + 1)
      (set_emitted ((o + sh) mod 2 ^ 32) (match origin s with Some _ => s | None => set_shift sh (set_origin (Some o) s) end))) /\
    seq_of b' = sequence s mod 65536 /\ time_of b' = (o + sh) mod 2 ^ 32.
Proof.
  unfold Source.renumber. rewrite ST_bind_eq. unfold lift. destruct (readUInt32BE b 4) as [o|e] eqn:Ho; [|done].
  intros H. exists o. split; [done|]. cbv zeta. pose proof (readUInt32BE_length _ _ Ho) as Hl.
  assert (Hs : forall s1, readUInt32BE b 4 = Ok o -> (8 <= length b)%nat -> origin s1 = Some (default o (origin s)) ->
    (modify (fun s => set_emitted ((o + shift s) mod 2 ^ 32) s);;
      s ← get;
      let b := writeUInt16BE (Z.land (sequence s) 0xffff) 2 (writeUInt32BE (emitted s) 4 b) in
      modify (set_sequence (sequence s + 1));;
      modify (fun s => set_wire ({| by_encoder := k; original := o; bytes := b |} :: wire s) s);;
      mret b) s1 = (Ok b', s') ->
    s' = set_wire ({| by_encoder := k; original := o; bytes := b' |} :: wire s1) (set_sequence (sequence s1 + 1)
      (set_emitted ((o + shift s1) mod 2 ^ 32) s1)) /\
    seq_of b' = sequence s1 mod 65536 /\ time_of b' = (o + shift s1) mod 2 ^ 32).
  { intros s1 _ _ _ [= <- <-]. split; [done|]. change 0xffff with (Z.ones 16). rewrite Z.land_ones by lia.
    change (2 ^ 16) with 65536. pose proof (Z.mod_pos_bound (sequence s1) 65536 ltac:(lia)).
    pose proof (Z.mod_pos_bound (o + shift s1) (2 ^ 32) ltac:(lia)).
    split; [by apply rewritten_seq | by apply rewritten_time]. }
  rewrite ST_bind_eq in H. unfold modify at 1 in H.
  destruct (origin s) as [o0|] eqn:Eo; apply Hs in H; simpl; auto.
Qed.

Lemma renumber_throws k b s e s' : renumber k b s = (Throw e, s') -> s' = s.
Proof.
  unfold Source.renumber. rewrite ST_bind_eq. unfold lift. destruct (readUInt32BE b 4); [done|]. by intros [= _ ->].
Qed.

Lemma follows_head k o b' s p w :
  wire s = p :: w -> numbered s -> encoder s = Some k ->
  let sh := match origin s with Some _ => shift s | None => (emitted s + frame_step binding - o) mod 2 ^ 32 end in
  seq_of b' = sequence s mod 65536 -> time_of b' = (o + sh) mod 2 ^ 32 ->
  follows p {| by_encoder := k; original := o; bytes := b' |}.
Proof.
  intros Hw [_ Hn _] He sh Hs Ht. rewrite Hw in Hn. destruct Hn as (Hseq & Htime & Hold & Hnew & _).
  split; simpl.
  - rewrite Hs, Hseq. rewrite Zplus_mod_idemp_l. f_equal. lia.
  - rewrite Ht, Htime. unfold sh. destruct (origin s) as [o0|].
    + destruct (Hold o0 eq_refl) as [Hem Hk]. rewrite (Hk k He), bool_decide_eq_true_2 by done.
      rewrite Hem. rewrite Zplus_mod_idemp_l. f_equal. lia.
    + rewrite bool_decide_eq_false_2 by (intros Hk; by apply (Hnew eq_refl k He)).
      rewrite Zplus_mod_idemp_r. f_equal. lia.
Qed.

Lemma numbered_renumber k b s :
  encoder s = Some k -> numbered s -> numbered (renumber k b s).2.
Proof.
  intros He Hn. destruct (renumber k b s) as [[b'|e] s'] eqn:E; simpl; [|by rewrite (renumber_throws _ _ _ _ _ E)].
  destruct (renumber_spec _ _ _ _ _ E) as (o & _ & -> & Hs & Ht).
  set (sh := match origin s with Some _ => _ | None => _ end) in *.
  assert (Hf : encoder s = Some k /\ (k < created s)%nat) by (split; [done | by apply (n_fresh _ Hn)]).
  set (s1 := match origin s with Some _ => s | None => set_shift sh (set_origin (Some o) s) end).
  assert (H1 : wire s1 = wire s /\ encoder s1 = encoder s /\ created s1 = created s /\ shift s1 = sh /\ is_Some (origin s1)).
  { unfold s1, sh. destruct (origin s) eqn:Eo; simpl; rewrite ?Eo; eauto. }
  destruct H1 as (E1 & E2 & E3 & E4 & [o1 E5]).
  constructor; simpl.
  - destruct (wire s) as [|p w] eqn:Ew; [done|]. split; [exact (follows_head k o b' s p w Ew Hn He Hs Ht)|].
    pose proof (n_chain _ Hn) as Hc. by rewrite Ew in Hc.
  - rewrite E2, E3, E4, E5, He. split_and!; try done.
    + rewrite Hs. f_equal. lia.
    + intros o' _. split; [done|]. by intros k' [= <-].
    + by apply Hf.
  - intros k' Hk'. rewrite E3. apply (n_fresh _ Hn). congruence.
Qed.

Lemma numbered_silent s s' :
  numbered s -> wire s' = wire s -> sequence s' = sequence s -> emitted s' = emitted s -> origin s' = origin s ->
  shift s' = shift s -> encoder s' = encoder s -> created s' = created s -> numbered s'.
Proof. intros [H1 H2 H3] E1 E2 E3 E4 E5 E6 E7. constructor; rewrite ?E1, ?E2, ?E3, ?E4, ?E5, ?E6, ?E7; done. Qed.
Ltac numbered := match goal with H : numbered _ |- _ => solve [eapply numbered_silent; [exact H | reflexivity ..]] end.

Lemma numbered_write_all vs b s : numbered s -> numbered (write_all write_ok vs b s).
Proof.
  revert s. induction vs as [|v vs IH]; intros s Hn; simpl; [done|]. apply IH. destruct (write_ok v b); [done | numbered].
Qed.

Lemma numbered_deliver k b : preserves numbered (deliver k b).
Proof.
  apply preserves_get_bind. intros s Hn. destruct (negb _) eqn:E; [done|]. bools.
  set (s1 := if bool_decide (phase s = Starting) then notify (set_phase Active (set_start_timer false s)) else s).
  assert (H1 : numbered s1 /\ encoder s1 = Some k).
  { unfold s1. case_bool_decide; [|done]. split; [|by rewrite (f_encoder _ _ (notify_frame settings keyframe_ok viewer_state _))].
    eapply numbered_frame; [|apply (notify_frame settings keyframe_ok viewer_state)]. numbered. }
  change (numbered ((modify (fun s => set_packets (packets s + 1) s);; b ← renumber k b;
    modify (fun s => write_all write_ok (viewers s) b s)) s1).2).
  rewrite ST_bind_eq. unfold modify at 1. apply bind_at.
  - apply numbered_renumber; [simpl; by destruct H1 | destruct H1; numbered].
  - intros b'. apply preserves_modify. intros s'. apply numbered_write_all.
Qed.

Lemma numbered_launch s : numbered s -> numbered (launch s).
Proof.
  intros Hn. unfold Source.launch. destruct (negb _ || _); [done|].
  apply preserves_mapS; [intros b; apply numbered_deliver|].
  destruct Hn as [H1 H2 H3]. constructor; simpl; [done| |intros k [= <-]; lia].
  destruct (wire s) as [|p w]; [naive_solver|]. destruct H2 as (? & ? & _ & _ & Hlt). split_and!; try done; [|lia].
  intros _ k [= <-]. lia.
Qed.

Lemma numbered_stop s : numbered s -> numbered (set_encoder None s).
Proof.
  intros [H1 H2 H3]. constructor; simpl; [done| |done].
  destruct (wire s) as [|p w]; [done|]. destruct H2 as (? & ? & Ho & _ & ?). split_and!; try done.
  intros o Hoo. by destruct (Ho o Hoo).
Qed.

Lemma numbered_finish p s : numbered s -> numbered (finish p s).
Proof.
  intros Hn. unfold Source.finish.
  set (s1 := set_phase p (set_encoder None (set_grace false (set_start_timer false s)))).
  assert (H1 : numbered s1) by (eapply numbered_silent; [apply numbered_stop; exact Hn | reflexivity ..]).
  set (s2 := if bool_decide (p = Failed) then _ else s1).
  assert (H2 : numbered s2) by (unfold s2; case_bool_decide; [numbered | done]).
  assert (H3 : numbered (notify s2)) by (eapply numbered_frame; [exact H2 | apply (notify_frame settings keyframe_ok viewer_state)]).
  set (s4 := if bool_decide (p = Failed) then _ else notify s2).
  assert (H4 : numbered s4) by (unfold s4; case_bool_decide; [numbered | done]).
  destruct (encoder (set_grace false (set_start_timer false s))); [numbered | done].
Qed.

Lemma numbered_begin s : numbered s -> numbered (begin s).
Proof.
  intros Hn. unfold Source.begin.
  assert (H1 : numbered (notify (set_phase Starting s))).
  { eapply numbered_frame; [|apply (notify_frame settings keyframe_ok viewer_state)]. numbered. }
  destruct (releasing _); [numbered|]. apply numbered_launch. numbered.
Qed.

Lemma numbered_handle e s : numbered s -> numbered (handle e s).
Proof.
  intros Hn. destruct e; simpl.
  - unfold Source.add. set (s1 := set_grace false _).
    assert (H1 : numbered s1) by (unfold s1; case_bool_decide; numbered).
    destruct (terminal _); [by apply numbered_begin|]. eapply numbered_frame; [|apply (viewer_frame settings keyframe_ok viewer_state)].
    case_bool_decide; [|done]. eapply numbered_frame; [exact H1 | apply keyframe_frame].
  - eapply numbered_frame; [exact Hn | apply remove_frame].
  - eapply numbered_frame; [exact Hn | apply keyframe_frame].
  - apply numbered_finish. numbered.
  - unfold grace_fires. destruct (grace s); [apply numbered_finish; numbered | done].
  - unfold start_fires. destruct (start_timer s); [by apply numbered_finish | done].
  - by apply numbered_deliver.
  - unfold encoder_failed. case_bool_decide; [by apply numbered_finish | done].
  - unfold start_rejected. destruct (_ <? _)%nat; [apply numbered_finish; numbered | done].
  - unfold stop_settled. case_bool_decide; [done|].
    set (s1 := set_waiting _ _). assert (H1 : numbered s1) by (unfold s1; destruct ok; numbered).
    clearbody s1. generalize (length (filter (fun j => j = k) (waiting (set_releasing None (set_stopping
      (filter (fun j => j <> k) (stopping (if ok then s else note OnError s)))
      (set_live (filter (fun j => j <> k) (live (if ok then s else note OnError s))) (if ok then s else note OnError s))))))).
    intros n. induction n as [|n IH]; simpl; [done | by apply numbered_launch].
  - numbered.
Qed.

Lemma numbered_run es s : numbered s -> numbered (run es s).
Proof. revert s. induction es as [|e es IH]; intros s Hn; simpl; [done|]. by apply IH, numbered_handle. Qed.

(** C35: across every encoder a track ever had, in every order of events, the
    packets a track sends are numbered as one stream: sequence numbers go up by
    one modulo 2^16 from zero, timestamps keep their distances within one
    encoder's stream, and the first packet of the next encoder comes one frame
    after the last of the previous one, modulo 2^32. *)
Theorem numbering_continuous now es :
  let s := run es (constructor now) in
  continuous (wire s) /\ match wire s with p :: _ => seq_of (bytes p) = (sequence s - 1) mod 65536 | [] => sequence s = 0 end.
Proof.
  cbv zeta. assert (H0 : numbered (constructor now)) by (by constructor).
  destruct (numbered_run es _ H0) as [Hc Hh _]. split; [done|].
  by destruct (wire (run es (constructor now))); destruct Hh.
Qed.

(** ** When an encoder runs *)

(** C36: in every reachable state an encoder is held only while starting or
    active, and then it is a live one; a source nobody watches is either
    terminal or has its grace timer armed, and the grace timer is armed only
    then; a starting source has its start deadline armed, so that it cannot
    hang; an active source holds an encoder; every start that is suspended, and
    the release itself, wait for a stop that has not settled. *)
Theorem source_lifecycle now es :
  let s := run es (constructor now) in
  (forall k, encoder s = Some k -> terminal (phase s) = false /\ k ∈ live s /\ k ∉ stopping s) /\
  (viewers s = [] -> terminal (phase s) = true \/ grace s = true) /\
  (grace s = true -> viewers s = []) /\
  (phase s = Starting -> start_timer s = true) /\
  (phase s = Active -> exists k, encoder s = Some k) /\
  (forall k, k ∈ waiting s \/ releasing s = Some k -> k ∈ stopping s).
Proof.
  cbv zeta. pose proof (inv_source_run binding settings keyframe_ok start_packets write_ok viewer_state es _
    (inv_constructor now)) as Hi.
  set (s := run es (constructor now)) in *. clearbody s. destruct Hi as [T W S A N P Q R].
  destruct (terminal (phase s)) eqn:Ht.
  - destruct (T eq_refl) as (Hv & He & _). split_and!; try done; try congruence; auto.
    + intros Ha. rewrite Ha in Ht. done.
    + intros k [?|?]; auto.
  - destruct (W eq_refl) as (_ & Hg & Hv). split_and!; auto.
    + intros k Hk. by destruct (N k Hk) as (_ & ? & ?).
    + intros [He _]%A. destruct (encoder s) as [k|]; [by exists k | done].
    + intros k [?|?]; auto.
Qed.

Lemma remove_all vs s :
  terminal (phase s) = false -> watched s -> viewers s ⊆ vs ->
  frame s (fold_left (fun s v => remove v s) vs s) /\ viewers (fold_left (fun s v => remove v s) vs s) = [].
Proof.
  revert s. induction vs as [|v vs IH]; intros s Ht Hw Hsub; simpl.
  { split; [apply frame_refl|]. destruct (viewers s) as [|v vs]; [done|]. set_solver. }
  destruct (IH (remove v s)) as [Hf He].
  - by rewrite (f_phase _ _ (remove_frame v s)).
  - apply remove_watched; [by destruct (phase s) | done].
  - unfold remove. case_bool_decide as Hin; [set_solver|]. simpl.
    destruct (_ || _); simpl; intros w [? Hw']%list_elem_of_filter; set_solver.
  - split; [|done]. eapply frame_trans; [apply remove_frame | done].
Qed.

Lemma source_run_app es es' s : run (es ++ es') s = run es' (run es s).
Proof. apply fold_left_app. Qed.
Lemma run_remove vs s : run (map Remove vs) s = fold_left (fun s v => remove v s) vs s.
Proof. revert s. induction vs as [|v vs IH]; intros s; simpl; [done | apply IH]. Qed.

Lemma notify_nobody s : viewers s = [] -> notify s = s.
Proof. unfold Source.notify. by intros ->. Qed.

(** Stopping a source nobody watches. *)
Lemma finish_nobody k s : viewers s = [] -> encoder s = Some k ->
  finish Idle s = note (StopEncoder k) (set_stopping (stopping s ++ [k]) (set_releasing (Some k)
    (set_phase Idle (set_encoder None (set_grace false (set_start_timer false s)))))).
Proof. intros Hv He. unfold Source.finish. simpl. rewrite He. by rewrite notify_nobody. Qed.

Lemma filter_none {A} (P : A -> Prop) `{!forall x, Decision (P x)} l : (forall x, x ∈ l -> ~ P x) -> filter P l = [].
Proof.
  induction l as [|x l IH]; intros Hdis; [done|]. rewrite filter_cons, decide_False by (apply Hdis; left).
  apply IH. intros y Hy. apply Hdis. by right.
Qed.

(** C37: an encoder nobody watches goes away: in every reachable state that
    holds an encoder, once each viewer has left, the grace window has passed
    and the encoder's stop has settled, the source is idle, holds no encoder,
    and the encoder is no longer live. *)
Theorem unwatched_encoder_stops now es k ok :
  let s := run es (constructor now) in
  encoder s = Some k ->
  let s' := run (map Remove (viewers s) ++ [GraceFires; StopSettled k ok]) s in
  encoder s' = None /\ phase s' = Idle /\ k ∉ live s' /\ running s' = false.
Proof.
  intros s He. pose proof (inv_source_run binding settings keyframe_ok start_packets write_ok viewer_state es _
    (inv_constructor now)) as Hi. fold s in Hi. clearbody s.
  assert (Ht : terminal (phase s) = false).
  { destruct (terminal (phase s)) eqn:E; [|done]. destruct (i_terminal _ Hi E) as (_ & ? & _). congruence. }
  cbv zeta. rewrite source_run_app, run_remove.
  destruct (remove_all (viewers s) s Ht (i_watched _ Hi Ht) ltac:(done)) as [Hf Hv].
  assert (H1 : inv (fold_left (fun s v => remove v s) (viewers s) s)).
  { generalize (viewers s). intros vs. clear - Hi laws. revert s Hi. induction vs as [|v vs IH]; intros s Hi; simpl; [done|].
    apply IH. by apply inv_remove. }
  set (s1 := fold_left _ _ _) in *. clearbody s1.
  assert (Hg : grace s1 = true).
  { apply (i_watched _ H1); [by rewrite (f_phase _ _ Hf) | done]. }
  destruct Hf as [F1 _ _ _ _ _ _ _ F2 F3 F4 F5 F6 _].
  destruct (i_encoder _ Hi k He) as (_ & Hl & Hs).
  simpl. unfold grace_fires. rewrite Hg. rewrite (finish_nobody k) by (simpl; congruence).
  unfold stop_settled. rewrite bool_decide_eq_false_2 by (simpl; rewrite elem_snoc; auto).
  set (s2 := note _ _).
  replace (filter (fun j => j = k) (waiting (set_releasing None _))) with (@nil nat).
  2:{ symmetry. apply filter_none. intros j Hj ->.
      assert (Hw : k ∈ waiting s1) by (unfold s2 in Hj; by destruct ok).
      rewrite F3 in Hw. by apply (i_waiting _ Hi) in Hw. }
  simpl. split_and!; try (by destruct ok).
  - rewrite list_elem_of_filter. destruct ok; simpl; naive_solver.
Qed.

(** ** One encoder at a time *)

(** No two starts wait for one stop. *)
Fixpoint calm (es : list event) s : Prop :=
  (length (waiting s) <= 1)%nat /\ match es with [] => True | e :: es => calm es (handle e s) end.

Record single s : Prop := {
  s_live : match encoder s with Some k => live s = [k] /\ stopping s = [] | None => live s = stopping s end;
  s_one : (length (stopping s) <= 1)%nat;
  s_releasing : releasing s = head (stopping s) }.

Lemma single_eq s s' : single s -> encoder s' = encoder s -> live s' = live s -> stopping s' = stopping s ->
  releasing s' = releasing s -> single s'.
Proof. intros [H1 H2 H3] E1 E2 E3 E4. constructor; rewrite ?E1, ?E2, ?E3, ?E4; done. Qed.
Lemma single_frame s s' : single s -> frame s s' -> single s'.
Proof. intros Hs []. by eapply single_eq. Qed.
Ltac single := match goal with H : single _ |- _ => solve [eapply single_eq; [exact H | reflexivity ..]] end.

Lemma single_deliver k b : preserves single (deliver k b).
Proof.
  apply preserves_get_bind. intros s Hs. destruct (negb _); [done|]. apply bind_at.
  { simpl. case_bool_decide; [|done]. eapply single_frame; [|apply (notify_frame settings keyframe_ok viewer_state)]. single. }
  intros _. apply preserves_bind; [apply preserves_modify; intros; single|]. intros _.
  apply preserves_bind.
  - intros s1 H1. destruct (renumber k b s1) as [[b'|e] s2] eqn:E; [|by rewrite (renumber_throws _ _ _ _ _ E)].
    destruct (renumber_spec _ _ _ _ _ E) as (o & _ & -> & _). simpl. destruct (origin s1); single.
  - intros b'. apply preserves_modify. intros s1 H1. generalize (viewers s1). intros vs. revert s1 H1.
    induction vs as [|v vs IH]; intros s1 H1; simpl; [done|]. apply IH. destruct (write_ok v b'); [done | single].
Qed.

Lemma single_launch s : single s -> encoder s = None -> stopping s = [] -> single (launch s).
Proof.
  intros Hs He Hst. unfold Source.launch. destruct (negb _ || _); [done|].
  apply preserves_mapS; [intros b; apply single_deliver|].
  destruct Hs as [H1 H2 H3]. rewrite He, Hst in H1. rewrite Hst in *. constructor; simpl; rewrite ?Hst, ?H1; done.
Qed.

Lemma single_finish p s : single s -> single (finish p s).
Proof.
  intros [H1 H2 H3].
  destruct (finish_cases settings keyframe_ok viewer_state p s) as (s4 & (_ & E1 & _ & _ & E3 & E5 & _ & E6 & _) & ->).
  destruct (encoder s) as [k|].
  - destruct H1 as [Hl Hst]. rewrite Hst in *. constructor; simpl; rewrite ?E1, ?E3, ?E5, ?Hl; done.
  - constructor; rewrite ?E1, ?E3, ?E5, ?E6; done.
Qed.

Lemma single_begin s : single s -> encoder s = None -> single (begin s).
Proof.
  intros Hs He. unfold Source.begin.
  pose proof (notify_frame settings keyframe_ok viewer_state (set_phase Starting s)) as Hf.
  assert (H1 : single (notify (set_phase Starting s))) by (eapply single_frame; [|exact Hf]; single).
  set (s1 := set_start_timer true (notify (set_phase Starting s))).
  destruct (releasing s1) eqn:E; [single|]. apply single_launch; [single | by rewrite (f_encoder _ _ Hf : encoder s1 = _) |].
  destruct H1 as [_ _ Hr]. change (releasing s1 = head (stopping s1)) in Hr. rewrite E in Hr. by destruct (stopping s1).
Qed.

Lemma single_handle e s : inv s -> single s -> (length (waiting s) <= 1)%nat -> single (handle e s).
Proof.
  intros Hi Hs Hc. destruct e; simpl.
  - unfold Source.add. set (s1 := set_grace false _).
    assert (H1 : single s1 /\ encoder s1 = encoder s /\ phase s1 = phase s).
    { unfold s1. split_and!; case_bool_decide; done || single. }
    destruct H1 as (H1 & E1 & E2). rewrite E2. destruct (terminal (phase s)) eqn:Ht.
    + apply single_begin; [done|]. rewrite E1. by apply (i_terminal _ Hi Ht).
    + eapply single_frame; [|apply (viewer_frame settings keyframe_ok viewer_state)]. case_bool_decide; [|done].
      eapply single_frame; [exact H1 | apply keyframe_frame].
  - eapply single_frame; [exact Hs | apply remove_frame].
  - eapply single_frame; [exact Hs | apply keyframe_frame].
  - apply single_finish. single.
  - unfold grace_fires. destruct (grace s); [apply single_finish; single | done].
  - unfold start_fires. destruct (start_timer s); [by apply single_finish | done].
  - by apply single_deliver.
  - unfold encoder_failed. case_bool_decide; [by apply single_finish | done].
  - unfold start_rejected. destruct (_ <? _)%nat; [apply single_finish; single | done].
  - unfold stop_settled. case_bool_decide as Hk; [done|].
    destruct Hs as [H1 H2 H3]. destruct (stopping s) as [|k' [|? ?]] eqn:Est; [by apply not_elem_of_nil in Hk| |simpl in H2; lia].
    apply list_elem_of_singleton in Hk as <-.
    assert (He : encoder s = None) by (destruct (encoder s); [by destruct H1 | done]). rewrite He in H1.
    set (s1 := set_waiting _ _).
    assert (E1 : encoder s1 = None /\ live s1 = [] /\ stopping s1 = [] /\ releasing s1 = None).
    { unfold s1. destruct ok; simpl; rewrite Est, H1; rewrite !filter_cons, !decide_False by auto; done. }
    assert (S1 : single s1) by (destruct E1 as (Ea & Eb & Ec & Ed); constructor; rewrite ?Ea, ?Eb, ?Ec, ?Ed; simpl; done || lia).
    assert (Hn : (length (filter (fun j => j = k) (waiting (if ok then s else note OnError s))) <= 1)%nat).
    { replace (waiting (if ok then s else note OnError s)) with (waiting s) by (by destruct ok).
      pose proof (length_filter (fun j => j = k) (waiting s)). lia. }
    cbn [waiting set_releasing set_stopping set_live].
    destruct (length (filter _ (waiting (if ok then s else note OnError s)))) as [|[|n]]; simpl; [done| |lia].
    destruct E1 as (? & ? & ? & ?). by apply single_launch.
  - single.
Qed.

(** A track never holds two encoders, as long as no two starts wait for the
    same release: an encoder that is live is the one the source holds or the
    one it is releasing. *)
Theorem one_encoder now es :
  calm es (constructor now) ->
  let s := run es (constructor now) in
  (length (live s) <= 1)%nat /\ forall k, k ∈ live s -> encoder s = Some k \/ releasing s = Some k.
Proof.
  cbv zeta. enough (H : forall s, inv s -> single s -> calm es s ->
    (length (live (run es s)) <= 1)%nat /\ forall k, k ∈ live (run es s) -> encoder (run es s) = Some k \/ releasing (run es s) = Some k).
  { apply H; [apply inv_constructor | constructor; simpl; done || lia]. }
  induction es as [|e es IH]; intros s Hi Hs Hc; simpl in *.
  - destruct Hs as [H1 H2 H3]. destruct (encoder s) as [k|].
    + destruct H1 as [-> _]. split; [simpl; lia|]. intros j ->%list_elem_of_singleton. by left.
    + rewrite H1. split; [done|]. intros j Hj. right. rewrite H3.
      destruct (stopping s) as [|k [|? ?]]; [by apply not_elem_of_nil in Hj | | simpl in *; lia].
      by apply list_elem_of_singleton in Hj as ->.
  - destruct Hc as [Hl Hc]. apply IH; [by apply inv_source_handle | by apply single_handle | done].
Qed.

(** ** Encoders out of reach *)

(** A live encoder the source neither holds nor is stopping. *)
Definition orphan k s : Prop :=
  k ∈ live s /\ encoder s <> Some k /\ k ∉ stopping s /\ (k < created s)%nat.

Lemma orphan_eq k s s' : orphan k s -> encoder s' = encoder s -> live s' = live s -> stopping s' = stopping s ->
  created s' = created s -> orphan k s'.
Proof. intros (? & ? & ? & ?) E1 E2 E3 E4. unfold orphan. by rewrite E1, E2, E3, E4. Qed.
Lemma orphan_frame k s s' : orphan k s -> frame s s' -> orphan k s'.
Proof. intros Ho []. by eapply orphan_eq. Qed.
Ltac orphan := match goal with H : orphan _ _ |- _ => solve [eapply orphan_eq; [exact H | reflexivity ..]] end.

Lemma orphan_deliver k j b : preserves (orphan k) (deliver j b).
Proof.
  apply preserves_get_bind. intros s Hs. destruct (negb _); [done|]. apply bind_at.
  { simpl. case_bool_decide; [|done]. eapply orphan_frame; [|apply (notify_frame settings keyframe_ok viewer_state)]. orphan. }
  intros _. apply preserves_bind; [apply preserves_modify; intros; orphan|]. intros _.
  apply preserves_bind.
  - intros s1 H1. destruct (renumber j b s1) as [[b'|e] s2] eqn:E; [|by rewrite (renumber_throws _ _ _ _ _ E)].
    destruct (renumber_spec _ _ _ _ _ E) as (o & _ & -> & _). simpl. destruct (origin s1); orphan.
  - intros b'. apply preserves_modify. intros s1 H1. generalize (viewers s1). intros vs. revert s1 H1.
    induction vs as [|v vs IH]; intros s1 H1; simpl; [done|]. apply IH. destruct (write_ok v b'); [done | orphan].
Qed.

Lemma orphan_launch k s : orphan k s -> orphan k (launch s).
Proof.
  intros (Hl & He & Hst & Hc). unfold Source.launch. destruct (negb _ || _); [done|].
  apply preserves_mapS; [intros b; apply orphan_deliver|].
  split_and!; simpl; [by apply elem_snoc; left | intros [= ?]; lia | done | lia].
Qed.

Lemma orphan_finish k p s : orphan k s -> orphan k (finish p s).
Proof.
  intros (Hl & He & Hst & Hc).
  destruct (finish_cases settings keyframe_ok viewer_state p s) as (s4 & (_ & E1 & _ & E2 & E3 & E4 & _) & ->).
  unfold orphan. destruct (encoder s) as [j|]; simpl; rewrite ?E1, ?E2, ?E3, ?E4; split_and!; try done.
  intros [?| ->]%elem_snoc; done.
Qed.

Lemma orphan_handle k e s : orphan k s -> orphan k (handle e s).
Proof.
  intros Hs. destruct e; simpl.
  - unfold Source.add. set (s1 := set_grace false _).
    assert (H1 : orphan k s1) by (unfold s1; case_bool_decide; orphan).
    destruct (terminal _).
    + unfold Source.begin. pose proof (notify_frame settings keyframe_ok viewer_state (set_phase Starting s1)) as Hf.
      assert (H2 : orphan k (notify (set_phase Starting s1))) by (eapply orphan_frame; [|exact Hf]; orphan).
      destruct (releasing _); [orphan | apply orphan_launch; orphan].
    + eapply orphan_frame; [|apply (viewer_frame settings keyframe_ok viewer_state)]. case_bool_decide; [|done].
      eapply orphan_frame; [exact H1 | apply keyframe_frame].
  - eapply orphan_frame; [exact Hs | apply remove_frame].
  - eapply orphan_frame; [exact Hs | apply keyframe_frame].
  - apply orphan_finish. orphan.
  - unfold grace_fires. destruct (grace s); [apply orphan_finish; orphan | done].
  - unfold start_fires. destruct (start_timer s); [by apply orphan_finish | done].
  - by apply orphan_deliver.
  - unfold encoder_failed. case_bool_decide; [by apply orphan_finish | done].
  - unfold start_rejected. destruct (_ <? _)%nat; [apply orphan_finish; orphan | done].
  - unfold stop_settled. case_bool_decide as Hk; [done|].
    assert (H1 : orphan k (set_waiting (filter (fun j => j <> k0) (waiting (if ok then s else note OnError s)))
      (set_releasing None (set_stopping (filter (fun j => j <> k0) (stopping (if ok then s else note OnError s)))
      (set_live (filter (fun j => j <> k0) (live (if ok then s else note OnError s))) (if ok then s else note OnError s)))))).
    { destruct Hs as (Hl & He & Hst & Hc). assert (k <> k0) by (by intros ->).
      destruct ok; split_and!; simpl; try done; rewrite list_elem_of_filter; naive_solver. }
    match goal with |- orphan _ (Nat.iter ?n _ _) => generalize n end.
    intros n. induction n as [|n IH]; simpl; [exact H1 | by apply orphan_launch].
  - orphan.
Qed.
Lemma orphan_run k es s : orphan k s -> orphan k (run es s).
Proof. revert s. induction es as [|e es IH]; intros s Hs; simpl; [done|]. by apply IH, orphan_handle. Qed.
End runs.

(** ** Concrete runs *)

(** Viewers that do not call back. *)
Definition quiet : viewer -> VideoState -> source -> source := fun _ _ s => s.
#[export] Instance quiet_laws settings keyframe_ok : ViewerLaws settings keyframe_ok quiet.
Proof. intros I _ _ v p s Hs. exact Hs. Qed.

Definition demo_settings : VideoSettings :=
  {| startTimeoutMs := 5000; retryMinIntervalMs := 1000; stopGraceMs := 5000; pliMinIntervalMs := 200 |}.
Definition demo_binding : VideoBinding := {|
  v_name := js "front"; v_rosTopic := js "/camera"; v_rosType := js "sensor_msgs/msg/Image";
  v_rosQos := {| reliability := BestEffort; durability := Volatile; history := KeepLast; depth := 1 |};
  input := {| encoding := rgb8; in_width := 640; in_height := 480; framerate := 30 |}; output := None;
  ConfigTypes.encoder := {| backend := openh264; bitrate := 1000000; keyframeInterval := 30; profile := constrained_baseline |};
  subscribeScope := js "video" |}.
Definition demo_keyframe : nat -> bool := fun _ => true.
Definition demo_start : nat -> list packet := fun _ => [].
Definition demo_write : viewer -> packet -> bool := fun _ _ => true.
Abbreviation demo_run := (run demo_binding demo_settings demo_keyframe demo_start demo_write quiet).
Definition rtp (seq time : Z) : packet :=
  [128; 96; seq / 256; seq mod 256; 0; 0; time / 256; time mod 256; 0; 0; 0; 1; 103].
Definition t0 : number := of_Z 10000.

Definition demo_events : list event :=
  [Add 0; Packet 0 (rtp 700 1000); Packet 0 (rtp 701 4000); Remove 0; GraceFires; StopSettled 0 true;
   Add 1; Packet 1 (rtp 9 60000); Packet 0 (rtp 702 7000)].

Lemma numbering_continuous_witness :
  let s := demo_run demo_events (constructor t0) in
  map (fun p => (seq_of (bytes p), time_of (bytes p))) (wire s) = [(2, 9000); (1, 6000); (0, 3000)] /\
  continuous demo_binding (wire s).
Proof.
  cbv zeta. split; [vm_compute; reflexivity|].
  pose proof (numbering_continuous demo_binding demo_settings demo_keyframe demo_start demo_write quiet t0 demo_events) as H.
  cbv zeta in H. destruct H as [H _]. exact H.
Defined.

Lemma source_lifecycle_witness :
  let s := demo_run demo_events (constructor t0) in
  encoder s = Some 1%nat /\ terminal (phase s) = false.
Proof.
  cbv zeta.
  pose proof (source_lifecycle demo_binding demo_settings demo_keyframe demo_start demo_write quiet t0 demo_events) as H.
  cbv zeta in H. destruct H as [H _]. specialize (H 1%nat).
  assert (He : encoder (demo_run demo_events (constructor t0)) = Some 1%nat) by (vm_compute; reflexivity).
  split; [exact He|]. destruct (H He) as [H' _]. exact H'.
Defined.

Lemma unwatched_encoder_stops_witness :
  let s := demo_run (take 3 demo_events) (constructor t0) in
  encoder s = Some 0%nat /\ live s = [0%nat] /\
  running (demo_run (map Remove (viewers s) ++ [GraceFires; StopSettled 0 true]) s) = false.
Proof.
  cbv zeta.
  assert (He : encoder (demo_run (take 3 demo_events) (constructor t0)) = Some 0%nat) by (vm_compute; reflexivity).
  split; [exact He|]. split; [vm_compute; reflexivity|].
  pose proof (unwatched_encoder_stops demo_binding demo_settings demo_keyframe demo_start demo_write quiet
    t0 (take 3 demo_events) 0%nat true He) as H. cbv zeta in H. destruct H as (_ & _ & _ & H). exact H.
Defined.

Lemma one_encoder_witness :
  calm demo_binding demo_settings demo_keyframe demo_start demo_write quiet demo_events (constructor t0) /\
  (length (live (demo_run demo_events (constructor t0))) <= 1)%nat.
Proof.
  assert (Hc : calm demo_binding demo_settings demo_keyframe demo_start demo_write quiet demo_events (constructor t0)).
  { vm_compute. repeat split; repeat constructor. }
  split; [exact Hc|].
  pose proof (one_encoder demo_binding demo_settings demo_keyframe demo_start demo_write quiet t0 demo_events Hc) as H.
  cbv zeta in H. destruct H as [H _]. exact H.
Defined.

(** Two starts that wait for the same release both go on when it settles: the
    second encoder replaces the first, which is then out of reach for good. *)
Theorem restart_leaks_encoder es :
  let s := demo_run [Add 0; Packet 0 (rtp 1 1); Remove 0; GraceFires; Add 1; Remove 1; GraceFires; Add 2;
    StopSettled 0 true] (constructor t0) in
  live s = [1; 2]%nat /\ encoder s = Some 2%nat /\ orphan 1 (demo_run es s).
Proof.
  set (s := demo_run _ (constructor t0)). cbv zeta.
  assert (E : live s = [1; 2]%nat /\ encoder s = Some 2%nat /\ stopping s = [] /\ created s = 3%nat)
    by (vm_compute; repeat split; reflexivity).
  clearbody s. destruct E as (E1 & E2 & E3 & E4). split; [done|]. split; [done|].
  apply orphan_run; [apply _|]. unfold orphan. rewrite E1, E2, E3, E4.
  split_and!; [left | done | apply not_elem_of_nil | lia].
Qed.

(** A start abandoned because its viewer left is not taken up by a viewer that
    arrives in the grace window: the source stays in [Starting] with nothing on
    its way, until the start deadline fails it. *)
Theorem abandoned_start_stalls :
  let s := demo_run [Add 0; Packet 0 (rtp 1 1); Remove 0; GraceFires; Add 1; Remove 1; StopSettled 0 true; Add 2]
    (constructor t0) in
  phase s = Starting /\ viewers s = [2%nat] /\ grace s = false /\ encoder s = None /\ waiting s = [] /\
  releasing s = None /\ stopping s = [] /\ phase (demo_run [StartFires] s) = Failed.
Proof. vm_compute. by split_and!. Qed.
End SourceRuns.
