(* ===== verification/MediaService.v ===== *)
(** * The media plane

    [media/index.ts]: the configured sources by track name, the bound on the
    encoders that may run at once, and the probe that runs before any peer is
    accepted.  A viewer that calls back into another track's source does so as
    an event of its own: the two sources share no state but the clock. *)

From S2P Require Import Prelude JsMap JsNumber JsString ConfigTypes VideoSource VideoSourceProps VideoSourceRuns.

Module Media.
Import Source SourceProps.

Record service := { sources : jsmap jsstr source; closed : bool }.
Definition set_sources m (s : service) := {| sources := m; closed := closed s |}.
Definition set_closed b (s : service) := {| sources := sources s; closed := b |}.

Definition backend_id (b : VideoBackend) : jsstr :=
  match b with fixture => js "fixture" | l4t_v4l2 => js "l4t_v4l2" | openh264 => js "openh264" end.

Section service.
(** [options.config] and the backends the build provides *)
Variables (config : VideoConfig) (backends : list VideoBackend).

(** [new MediaService(options)] *)
Definition constructor (now : number) : service := {|
  sources := fold_left (fun m b => mset (v_name b) (Source.constructor now) m) (tracks config) [];
  closed := false |}.

Definition maxSlots : Z := maxSlotsPerPeer (v_limits config).
Definition catalog (allowed : VideoBinding -> bool) : list (jsstr * jsstr) :=
  map (fun b => (v_name b, js "h264")) (List.filter allowed (tracks config)).

Definition diagnostics (s : service) : list VideoDiagnostics :=
  omap (fun kv => match find (fun b => bool_decide (v_name b = kv.1)) (tracks config) with
                  | Some b => Some (Source.diagnostics b kv.2)
                  | None => None
                  end) (sources s).

(** [this.options.config.tracks.find(track => track.name === name)] *)
Definition track_of (name : jsstr) : option VideoBinding :=
  find (fun b => bool_decide (v_name b = name)) (tracks config).

(** [factory(binding)]: a backend the build lacks refuses every probe. *)
Definition factory (answers : VideoBinding -> probe_outcome) (b : VideoBinding) : probe_outcome :=
  if bool_decide (backend (ConfigTypes.encoder b) ∈ backends) then answers b
  else Refused (Error "backend is not available in this build").

Definition message_of (e : js_error) : jsstr :=
  match e with Error m | TypeError m | AggregateError _ m => js m | ErrorText m => m
  | ConfigError path reason => path ++ js ": " ++ js reason end.

(** [probe], given what each encoder answers. *)
Definition probe_names (answers : VideoBinding -> probe_outcome) (names : list jsstr) : result (list unit) :=
  mapR (fun name =>
    match track_of name with
    | None => Throw (TypeError "track")
    | Some b =>
        match (Source.probe (factory answers b)).1 with
        | Ok u => Ok u
        | Throw e => Throw (ErrorText (js "video_tracks." ++ name ++ js ".encoder.backend: "
            ++ backend_id (backend (ConfigTypes.encoder b)) ++ js " unavailable: " ++ message_of e))
        end
    end) names.
Definition probe (answers : VideoBinding -> probe_outcome) (s : service) : result unit :=
  _ ← probe_names answers (mkeys (sources s)); Ok tt.

(** What is outside each source. *)
Variable keyframe_ok : jsstr -> nat -> bool.
Variable start_packets : jsstr -> nat -> list packet.
Variable write_ok : jsstr -> viewer -> packet -> bool.
Variable viewer_state : jsstr -> viewer -> VideoState -> source -> source.

Definition binding_of (track : jsstr) : option VideoBinding := track_of track.

(** [private source(track)] *)
Definition source_of (track : jsstr) : ST service source :=
  s ← get;
  match mget track (sources s) with
  | None => mthrow (Error "unknown_video_track")
  | Some source => throw_when (closed s) (Error "unknown_video_track");; mret source
  end.

Definition running_count (s : service) : Z := zlength (filter (fun source => running source = true) (mvalues (sources s))).

(** An operation of one source. *)
Definition on_source (track : jsstr) (e : event) (s : service) : service :=
  match mget track (sources s), track_of track with
  | Some source, Some b =>
      set_sources (mset track (handle b (settings config) (keyframe_ok track) (start_packets track) (write_ok track)
        (viewer_state track) e source) (sources s)) s
  | _, _ => s
  end.

Definition attach (track : jsstr) (v : viewer) : ST service unit :=
  source ← source_of track;
  s ← get;
  throw_when (negb (running source) && (maxPipelines (v_limits config) <=? running_count s)) (Error "video_pipeline_limit");;
  throw_when (negb (retryable (settings config) source)) (Error "video_retry_too_soon");;
  modify (on_source track (Add v)).
Definition detach (track : jsstr) (v : viewer) : ST service unit :=
  source_of track;; modify (on_source track (Remove v)).
Definition requestKeyframe (track : jsstr) : ST service unit :=
  source_of track;; modify (on_source track Keyframe).
Definition close : ST service unit :=
  modify (set_closed true);;
  modify (fun s => fold_left (fun s track => on_source track Close s) (mkeys (sources s)) s).

(** What happens to a service: its operations, and the events of its sources
    that no operation causes. *)
Inductive action :=
| Attach (track : jsstr) (v : viewer) | Detach (track : jsstr) (v : viewer) | RequestKeyframe (track : jsstr) | CloseAll
| SourceEvent (track : jsstr) (e : event) (He : forall v, e <> Add v).

Definition perform (a : action) : ST service unit :=
  match a with
  | Attach track v => attach track v
  | Detach track v => detach track v
  | RequestKeyframe track => requestKeyframe track
  | CloseAll => close
  | SourceEvent track e _ => modify (on_source track e)
  end.
Fixpoint perform_all (l : list action) (s : service) : service :=
  match l with [] => s | a :: l => perform_all l (perform a s).2 end.

(** ** The pipeline bound *)

Context {laws : forall track, ViewerLaws (settings config) (keyframe_ok track) (viewer_state track)}.

Definition runs_now (x : source) : Z := if running x then 1 else 0.

Lemma running_count_msum s : running_count s = msum runs_now (sources s).
Proof.
  unfold running_count, mvalues, msum, zsum. induction (sources s) as [|[k x] m IH]; [done|]. simpl.
  rewrite filter_cons. unfold runs_now at 1. case_decide as Hx.
  - rewrite Hx, zlength_cons, IH. lia.
  - apply not_true_is_false in Hx. by rewrite Hx, IH.
Qed.

Record wf (s : service) : Prop := {
  wf_keys : NoDup (mkeys (sources s));
  wf_sources : mall (fun _ x => inv x) (sources s);
  wf_bound : running_count s <= Z.max 0 (maxPipelines (v_limits config)) }.

(** An event that is not a new viewer starts nothing. *)
Lemma wf_event track e s : (forall v, e <> Add v) -> wf s -> wf (on_source track e s).
Proof.
  intros He [Hk Hs Hb]. unfold on_source. destruct (mget track (sources s)) as [x|] eqn:Ex; [|done].
  destruct (track_of track) as [b|]; [|done]. set (x' := handle _ _ _ _ _ _ _ _).
  pose proof (mall_get _ _ _ _ Hs Ex) as Hx.
  constructor; simpl; [by apply NoDup_mset | by apply mall_set; [|apply inv_source_handle] |].
  rewrite running_count_msum in *. simpl. rewrite (msum_mset_old _ track x' x) by done.
  enough (runs_now x' <= runs_now x) by lia. unfold runs_now.
  destruct (running x') eqn:E; [|by destruct (running x)].
  by rewrite (running_handle _ _ _ _ _ _ _ x Hx He E).
Qed.

Lemma source_of_spec track s :
  source_of track s = match mget track (sources s) with
    | Some x => if closed s then (Throw (Error "unknown_video_track"), s) else (Ok x, s)
    | None => (Throw (Error "unknown_video_track"), s) end.
Proof.
  unfold source_of. rewrite ST_bind_eq. unfold get. destruct (mget track (sources s)) as [x|]; [|done].
  rewrite ST_bind_eq. unfold throw_when. by destruct (closed s).
Qed.

(** [attach] on every branch. *)
Lemma attach_spec track v s :
  attach track v s =
  match mget track (sources s) with
  | None => (Throw (Error "unknown_video_track"), s)
  | Some x =>
      if closed s then (Throw (Error "unknown_video_track"), s) else
      if negb (running x) && (maxPipelines (v_limits config) <=? running_count s) then (Throw (Error "video_pipeline_limit"), s) else
      if negb (retryable (settings config) x) then (Throw (Error "video_retry_too_soon"), s) else
      (Ok tt, on_source track (Add v) s)
  end.
Proof.
  unfold attach. rewrite ST_bind_eq, source_of_spec. destruct (mget track (sources s)) as [x|]; [|done].
  destruct (closed s); [done|]. rewrite ST_bind_eq. unfold get. rewrite ST_bind_eq. unfold throw_when at 1.
  destruct (_ && _); [done|]. simpl. rewrite ST_bind_eq. unfold throw_when. by destruct (negb _).
Qed.

Lemma wf_attach track v s : wf s -> wf (attach track v s).2.
Proof.
  intros Hw. rewrite attach_spec. destruct (mget track (sources s)) as [x|] eqn:Ex; [|done].
  destruct (closed s); [done|]. destruct (_ && _) eqn:Eb; [done|]. destruct (negb (retryable _ _)); [done|].
  destruct Hw as [Hk Hs Hb]. simpl. unfold on_source. rewrite Ex. destruct (track_of track) as [b|]; [|done].
  set (x' := handle _ _ _ _ _ _ _ _). pose proof (mall_get _ _ _ _ Hs Ex) as Hx.
  constructor; simpl; [by apply NoDup_mset | by apply mall_set; [|apply inv_source_handle] |].
  rewrite running_count_msum in *. simpl. rewrite (msum_mset_old _ track x' x) by done.
  assert (runs_now x' <= 1) by (unfold runs_now; destruct (running x'); lia).
  assert (Hrx : runs_now x = if running x then 1 else 0) by done.
  destruct (running x); simpl in Eb; [lia|]. bools. lia.
Qed.

Lemma wf_perform a : preserves wf (perform a).
Proof.
  assert (Hop : forall track e, (forall v, e <> Add v) -> preserves wf (source_of track;; modify (on_source track e))).
  { intros track e He. apply preserves_bind; [|intros _; apply preserves_modify; intros s; by apply wf_event].
    intros s Hs. rewrite source_of_spec. destruct (mget _ _); [by destruct (closed s) | done]. }
  destruct a as [track v|track v|track| |track e He]; simpl.
  - intros s. apply wf_attach.
  - by apply Hop.
  - by apply Hop.
  - apply preserves_bind; [apply preserves_modify; intros s []; by constructor|]. intros _.
    apply preserves_modify. intros s Hs. generalize (mkeys (sources s)). intros l. revert s Hs.
    induction l as [|track l IH]; intros s Hs; simpl; [done|]. apply IH. by apply wf_event.
  - apply preserves_modify. intros s. by apply wf_event.
Qed.

Lemma wf_constructor now : wf (constructor now).
Proof.
  assert (H : forall l m, NoDup (mkeys m) -> mall (fun _ x => inv x /\ running x = false) m ->
    let m' := fold_left (fun m b => mset (v_name b) (Source.constructor now) m) l m in
    NoDup (mkeys m') /\ mall (fun _ x => inv x /\ running x = false) m').
  { induction l as [|b l IH]; intros m Hk Hm; simpl; [done|]. apply IH; [by apply NoDup_mset|].
    apply mall_set; [done|]. split; [apply inv_constructor | done]. }
  destruct (H (tracks config) []) as [Hk Hm]; [constructor | constructor|].
  constructor; simpl; [done | eapply mall_impl; [exact Hm|]; naive_solver |].
  rewrite running_count_msum. simpl. enough (msum runs_now (fold_left (fun m b => mset (v_name b) (Source.constructor now) m) (tracks config) []) <= 0) by lia.
  revert Hm. generalize (fold_left (fun m b => mset (v_name b) (Source.constructor now) m) (tracks config) []). clear.
  unfold mall, msum. induction 1 as [|[k x] m [_ Hx] _ IH]; simpl in *; [done|]. unfold runs_now at 1. rewrite Hx. lia.
Qed.

(** C38: whatever peers and encoders do, in whatever order, no more sources run
    at once - starting, active, in their grace window or still releasing their
    encoder - than [max_pipelines] allows; an attachment that would exceed it,
    or comes inside a retry window, is refused and changes nothing. *)
Theorem pipelines_bounded now l :
  let s := perform_all l (constructor now) in
  running_count s <= Z.max 0 (maxPipelines (v_limits config)) /\
  forall track v x, mget track (sources s) = Some x -> closed s = false ->
    (running x = false /\ maxPipelines (v_limits config) <= running_count s ->
       attach track v s = (Throw (Error "video_pipeline_limit"), s)) /\
    (running x = true \/ running_count s < maxPipelines (v_limits config) -> retryable (settings config) x = false ->
       attach track v s = (Throw (Error "video_retry_too_soon"), s)).
Proof.
  cbv zeta. enough (H : forall s, wf s -> wf (perform_all l s)).
  { destruct (H _ (wf_constructor now)) as [_ _ Hb]. split; [exact Hb|]. intros track v x Hx Hc.
    rewrite attach_spec, Hx, Hc. split.
    - intros [-> Hm]. simpl. apply Z.leb_le in Hm. by rewrite Hm.
    - intros Hr Hre. rewrite Hre. destruct Hr as [-> |Hlt]; [done|].
      destruct (running x); [done|]. simpl. destruct (_ <=? _) eqn:E; [bools; lia | done]. }
  induction l as [|a l IH]; intros s Hs; simpl; [done|]. apply IH. by apply wf_perform.
Qed.
End service.

(** ** A concrete service: two tracks, one pipeline *)

Definition demo_track (name : string) : VideoBinding := {|
  v_name := js name; v_rosTopic := js "/camera"; v_rosType := js "sensor_msgs/msg/Image";
  v_rosQos := {| reliability := BestEffort; durability := Volatile; history := KeepLast; depth := 1 |};
  input := {| encoding := rgb8; in_width := 640; in_height := 480; framerate := 30 |}; output := None;
  ConfigTypes.encoder := {| backend := openh264; bitrate := 1000000; keyframeInterval := 30; profile := constrained_baseline |};
  subscribeScope := js "video" |}.
Definition demo_config : VideoConfig := {|
  settings := SourceRuns.demo_settings;
  v_limits := {| maxTracks := 2; maxPipelines := 1; maxSlotsPerPeer := 2; maxWidth := 1920; maxHeight := 1080;
    maxFramerate := 60 |};
  tracks := [demo_track "front"; demo_track "rear"] |}.
Abbreviation demo_perform := (perform_all demo_config (fun _ => SourceRuns.demo_keyframe) (fun _ => SourceRuns.demo_start)
  (fun _ => SourceRuns.demo_write) (fun _ => SourceRuns.quiet)).
Abbreviation demo_attach := (attach demo_config (fun _ => SourceRuns.demo_keyframe) (fun _ => SourceRuns.demo_start)
  (fun _ => SourceRuns.demo_write) (fun _ => SourceRuns.quiet)).
Definition demo_service : service := demo_perform [Attach (js "front") 0] (constructor demo_config SourceRuns.t0).

Lemma pipelines_bounded_witness :
  running_count demo_service = 1 /\
  (demo_attach (js "rear") 1%nat demo_service).1 = Throw (Error "video_pipeline_limit").
Proof.
  assert (Hc : running_count demo_service = 1) by (vm_compute; reflexivity).
  split; [exact Hc|].
  assert (Hx : mget (js "rear") (sources demo_service) = Some (Source.constructor SourceRuns.t0)) by (vm_compute; reflexivity).
  pose proof (pipelines_bounded demo_config (fun _ => SourceRuns.demo_keyframe) (fun _ => SourceRuns.demo_start)
    (fun _ => SourceRuns.demo_write) (fun _ => SourceRuns.quiet) (laws := fun _ => SourceRuns.quiet_laws _ _)
    SourceRuns.t0 [Attach (js "front") 0]) as H.
  cbv zeta in H. fold demo_service in H. destruct H as [_ H].
  destruct (H (js "rear") 1%nat _ Hx ltac:(vm_compute; reflexivity)) as [H' _].
  rewrite H'; [reflexivity|]. split; [vm_compute; reflexivity | rewrite Hc; vm_compute; discriminate].
Defined.
End Media.
