(* ===== verification/Fixture.v ===== *)
(** * The fixture backend

    [media/fixture.ts]: a recorded RTP stream is parsed into frames and played
    in a loop, renumbered as it goes. *)

From S2P Require Import Prelude JsNumber Deframer VideoSource VideoSourceRuns.

Module Fixture.
Import Source.

Record Frame := { packets : list packet; keyframe : bool; delayMs : Z }.
(** A frame while it is being collected. *)
Record raw_frame := { raw_packets : list packet; raw_keyframe : bool; timestamp : Z }.
Record Recording := { frames : list Frame; keyframes : list nat }.

Definition RTP_HEADER_BYTES : nat := 12.
Definition FU_A : Z := 28.
Definition NAL_SPS : Z := 7.

(** The NAL unit type a packet starts, read through a fragment header. *)
Definition nal_type (p : packet) : Z :=
  let byte n := default 0 (p !! n) in
  let type := Z.land (byte RTP_HEADER_BYTES) 0x1f in
  if type =? FU_A then Z.land (byte (S RTP_HEADER_BYTES)) 0x1f else type.

(** [frames.push], or the packet joins the last frame. *)
Definition collect (fs : list raw_frame) (p : packet) (time : Z) : list raw_frame :=
  let key := nal_type p =? NAL_SPS in
  match rev fs with
  | current :: before =>
      if timestamp current =? time
      then rev before ++ [{| raw_packets := raw_packets current ++ [p]; raw_keyframe := raw_keyframe current || key;
             timestamp := time |}]
      else fs ++ [{| raw_packets := [p]; raw_keyframe := key; timestamp := time |}]
  | [] => [{| raw_packets := [p]; raw_keyframe := key; timestamp := time |}]
  end.

(** The loop over the recording; [rest] is [fixture.subarray(offset)]. *)
Fixpoint parse_loop (fuel : nat) (rest : packet) (fs : list raw_frame) : result (list raw_frame) :=
  match fuel, rest with
  | S fuel, hi :: lo :: body =>
      let length := hi * 256 + lo in
      let p := take (Z.to_nat length) body in
      throw_when ((length <? Z.of_nat RTP_HEADER_BYTES + 1) || negb (zlength p =? length))
        (Error "fixture is not a framed RTP recording");;
      time ← readUInt32BE p 4;
      parse_loop fuel (drop (Z.to_nat length) body) (collect fs p time)
  | _, _ => Ok fs
  end.

Definition ticks_per_ms : number := ndiv (of_Z CLOCK_HZ) (of_Z 1000).
(** [frames.slice(1).map((frame, index) => ...)] *)
Fixpoint gaps (fs : list raw_frame) : list number :=
  match fs with
  | f :: (g :: _) as fs' => ndiv (of_Z (timestamp g - timestamp f)) ticks_per_ms :: gaps fs'
  | _ => []
  end.
(** [Math.max(1, Math.round(gaps[index] ?? gaps[gaps.length - 1] ?? 1))] *)
Definition delay_of (gs : list number) (index : nat) : Z :=
  let gap := match gs !! index with Some g => g | None => default (of_Z 1) (last gs) end in
  Z.max 1 (default 1 (nround_Z gap)).

Definition played (fs : list raw_frame) : list Frame :=
  imap (fun index f => {| packets := raw_packets f; keyframe := raw_keyframe f; delayMs := delay_of (gaps fs) index |}) fs.
Definition key_indices (fs : list Frame) : list nat := omap id (imap (fun index f => if keyframe f then Some index else None) fs).

Definition parse (fixture : packet) : result Recording :=
  fs ← parse_loop (S (length fixture)) fixture [];
  throw_when (bool_decide (fs = []) || negb (existsb raw_keyframe fs)) (Error "fixture contains no keyframe");;
  Ok {| frames := played fs; keyframes := key_indices (played fs) |}.

(** ** Playing *)

Record player := {
  recording : option Recording; armed : bool (** [cancel] *); cursor : nat; p_sequence : Z; p_timestamp : Z;
  out : list packet (** oldest first *) }.
Definition new_player : player :=
  {| recording := None; armed := false; cursor := 0; p_sequence := 0; p_timestamp := 0; out := [] |}.

Fixpoint emit_all (ps : list packet) (s : player) : player :=
  match ps with
  | [] => s
  | p :: ps =>
      let copy := writeUInt32BE (p_timestamp s) 4 (writeUInt16BE (Z.land (p_sequence s) 0xffff) 2 p) in
      emit_all ps {| recording := recording s; armed := armed s; cursor := cursor s; p_sequence := p_sequence s + 1;
        p_timestamp := p_timestamp s; out := out s ++ [copy] |}
  end.

(** [play]; [None] is a frame that is not there. *)
Definition play (s : player) : option player :=
  r ← recording s;
  f ← frames r !! cursor s;
  let s := emit_all (packets f) {| recording := recording s; armed := armed s;
    cursor := (cursor s + 1) mod length (frames r); p_sequence := p_sequence s; p_timestamp := p_timestamp s; out := out s |} in
  Some {| recording := recording s; armed := true; cursor := cursor s; p_sequence := p_sequence s;
    p_timestamp := (p_timestamp s + delayMs f * 90) mod 2 ^ 32; out := out s |}.

Definition probe (fixture : packet) : result unit := _ ← parse fixture; Ok tt.
Definition start (fixture : packet) (s : player) : result (option player) :=
  r ← parse fixture;
  Ok (play {| recording := Some r; armed := armed s; cursor := cursor s; p_sequence := p_sequence s;
    p_timestamp := p_timestamp s; out := out s |}).
Definition requestKeyframe (s : player) : player :=
  match recording s with
  | None => s
  | Some r =>
      let next := match find (fun i => (cursor s <=? i)%nat) (keyframes r) with
        | Some i => i | None => default 0%nat (head (keyframes r)) end in
      {| recording := recording s; armed := armed s; cursor := next; p_sequence := p_sequence s;
         p_timestamp := p_timestamp s; out := out s |}
  end.
Definition stop (s : player) : player := {| recording := recording s; armed := false; cursor := cursor s;
  p_sequence := p_sequence s; p_timestamp := p_timestamp s; out := out s |}.
(** The timer [play] armed. *)
Definition tick (s : player) : option player := if armed s then play s else Some s.

(** ** Parsing is total and loses nothing *)

Lemma collect_packets fs p time :
  concat (map raw_packets (collect fs p time)) = concat (map raw_packets fs) ++ [p].
Proof.
  unfold collect. destruct (rev fs) as [|current before] eqn:E.
  - assert (fs = []) as -> by (rewrite <- (rev_involutive fs), E; done). done.
  - assert (fs = rev before ++ [current]) as -> by (rewrite <- (rev_involutive fs), E; done).
    destruct (_ =? _); rewrite !map_app, !concat_app; simpl; rewrite ?app_nil_r, <- ?app_assoc; done.
Qed.

(** Frames hold packets of one timestamp each, and at least one packet. *)
Definition frame_ok (f : raw_frame) : Prop :=
  raw_packets f <> [] /\ Forall (fun p => readUInt32BE p 4 = Ok (timestamp f)) (raw_packets f) /\
  raw_keyframe f = existsb (fun p => nal_type p =? NAL_SPS) (raw_packets f).
(** Neighbouring frames differ in their timestamp. *)
Fixpoint distinct_neighbours (fs : list raw_frame) : Prop :=
  match fs with f :: (g :: _) as fs' => timestamp f <> timestamp g /\ distinct_neighbours fs' | _ => True end.

Lemma distinct_snoc fs f g : distinct_neighbours (fs ++ [f]) -> timestamp f <> timestamp g -> distinct_neighbours (fs ++ [f; g]).
Proof.
  induction fs as [|h fs IH]; simpl; [done|]. destruct fs as [|h' fs]; simpl in *; [naive_solver|].
  intros [? ?] ?. split; [done|]. by apply IH.
Qed.
Lemma distinct_last fs f g : distinct_neighbours (fs ++ [f]) -> timestamp f = timestamp g -> distinct_neighbours (fs ++ [g]).
Proof.
  induction fs as [|h fs IH]; simpl; [done|]. destruct fs as [|h' fs]; simpl in *; [intros [? ?] ?; split; congruence|].
  intros [? ?] ?. split; [done|]. by apply IH.
Qed.

Lemma collect_ok fs p time :
  Forall frame_ok fs -> distinct_neighbours fs -> readUInt32BE p 4 = Ok time ->
  Forall frame_ok (collect fs p time) /\ distinct_neighbours (collect fs p time).
Proof.
  intros Hfs Hd Hp. unfold collect.
  assert (Hnew : frame_ok {| raw_packets := [p]; raw_keyframe := nal_type p =? NAL_SPS; timestamp := time |}).
  { split_and!; simpl; [done | by constructor | by rewrite orb_false_r]. }
  destruct (rev fs) as [|current before] eqn:E; [by split; [constructor|]|].
  assert (fs = rev before ++ [current]) as -> by (rewrite <- (rev_involutive fs), E; done).
  destruct (timestamp current =? time) eqn:Et; bools.
  - apply Forall_app in Hfs as [Hb [(Hne & Hall & Hk) _]%Forall_cons]. split.
    + apply Forall_app. split; [done|]. constructor; [|done]. split_and!; simpl.
      * by destruct (raw_packets current).
      * apply Forall_app. split; [by rewrite <- Et | by constructor].
      * rewrite existsb_app, Hk. simpl. by rewrite orb_false_r.
    + by eapply distinct_last.
  - split; [by apply Forall_app; split; [|constructor]|]. rewrite <- app_assoc. by apply distinct_snoc.
Qed.

Definition byte (b : Z) : Prop := 0 <= b < 256.
Definition recorded (p : packet) : Prop := 13 <= zlength p.

Lemma parse_loop_spec fuel rest fs fs' :
  (length rest < fuel)%nat -> Forall byte rest ->
  Forall frame_ok fs -> distinct_neighbours fs ->
  parse_loop fuel rest fs = Ok fs' ->
  Forall frame_ok fs' /\ distinct_neighbours fs' /\
  exists ps tail, rest = Deframer.stream ps ++ tail /\ (length tail <= 1)%nat /\ Forall recorded ps /\
    concat (map raw_packets fs') = concat (map raw_packets fs) ++ ps.
Proof.
  revert rest fs. induction fuel as [|fuel IH]; intros rest fs Hf Hb Hfs Hd; [lia|].
  destruct rest as [|hi [|lo body]].
  1-2: intros [= <-]; split_and!; try done; eexists [], _; split_and!;
    [reflexivity | simpl; lia | done | by rewrite app_nil_r].
  cbn [parse_loop]. intros H. inv_res. bools. rename x0 into time.
  match goal with H : readUInt32BE _ _ = _ |- _ => rename H into Ht end.
  set (n := hi * 256 + lo) in *. set (p := take (Z.to_nat n) body) in *.
  apply Forall_cons in Hb as [Hhi Hb]. apply Forall_cons in Hb as [Hlo Hb]. unfold byte in Hhi, Hlo.
  destruct (collect_ok fs p time Hfs Hd Ht) as [Hfs1 Hd1].
  assert (Hlen : zlength p = n) by lia.
  assert (Hbody : body = p ++ drop (Z.to_nat n) body) by (unfold p; by rewrite take_drop).
  destruct (IH (drop (Z.to_nat n) body) (collect fs p time)) as (? & ? & ps & tail & Hr & Htl & Hps & Hc); try done.
  { rewrite length_drop. simpl in Hf. lia. }
  { by apply Forall_drop. }
  split_and!; try done. exists (p :: ps), tail. split_and!; try done.
  - change (Deframer.stream (p :: ps)) with (Deframer.frame p ++ Deframer.stream ps). rewrite <- app_assoc, <- Hr.
    unfold Deframer.frame. rewrite Hlen.
    replace (n / 256) with hi by (unfold n; rewrite Z.add_comm, Z.div_add, Z.div_small; lia).
    replace (n mod 256) with lo by (unfold n; rewrite Z.add_comm, Z.mod_add, Z.mod_small; lia).
    cbn [app]. by rewrite <- Hbody.
  - constructor; [|done]. unfold recorded, RTP_HEADER_BYTES in *. lia.
  - rewrite Hc, collect_packets, <- app_assoc. done.
Qed.

Lemma key_indices_elem fs i : i ∈ key_indices fs <-> exists f, fs !! i = Some f /\ keyframe f = true.
Proof.
  unfold key_indices. rewrite list_elem_of_omap. split.
  - intros (o & Ho & Hi). unfold id in Hi. subst o. apply list_elem_of_lookup in Ho as [j Hj].
    rewrite list_lookup_imap in Hj. apply fmap_Some in Hj as (f & Hf & Hk).
    destruct (keyframe f) eqn:E; [|done]. injection Hk as ->. by exists f.
  - intros (f & Hf & Hk). exists (Some i). split; [|done]. apply list_elem_of_lookup. exists i.
    rewrite list_lookup_imap, Hf. simpl. by rewrite Hk.
Qed.

Lemma played_packets fs : map packets (played fs) = map raw_packets fs.
Proof.
  unfold played. generalize (delay_of (gaps fs)). induction fs as [|f fs IH]; intros g; [done|].
  simpl. f_equal. rewrite <- (IH (g ∘ S)). done.
Qed.

(** a recording that parses is a sequence of framed packets (and at most
    one stray byte): the frames hold exactly those packets, in order, none of
    them empty; every key index names a frame that starts with parameter sets,
    there is one, and every frame is held for at least a millisecond. *)
Theorem parse_lossless fixture r :
  Forall byte fixture -> parse fixture = Ok r ->
  exists ps tail, fixture = Deframer.stream ps ++ tail /\ (length tail <= 1)%nat /\
    concat (map packets (frames r)) = ps /\ Forall recorded ps /\
    Forall (fun f => packets f <> [] /\ 1 <= delayMs f /\
      keyframe f = existsb (fun p => nal_type p =? NAL_SPS) (packets f)) (frames r) /\
    (forall i, i ∈ keyframes r <-> exists f, frames r !! i = Some f /\ keyframe f = true) /\ keyframes r <> [].
Proof.
  intros Hb H. unfold parse in H. inv_res. subst r. rename x into fs. simpl.
  match goal with H : parse_loop _ _ _ = _ |- _ => apply parse_loop_spec in H as (Hok & _ & ps & tail & -> & Ht & Hps & Hc);
    [|lia|done|constructor|done] end.
  exists ps, tail. simpl in Hc. rewrite played_packets. split_and!; try done.
  - unfold played. apply Forall_lookup. intros i f. rewrite list_lookup_imap. intros (g & Hg & ->)%fmap_Some.
    rewrite Forall_lookup in Hok. destruct (Hok i g Hg) as (Hne & _ & Hk). simpl. split_and!; [done | unfold delay_of; lia | done].
  - apply key_indices_elem.
  - bools. match goal with H : existsb _ _ = true |- _ => apply existsb_exists in H as (g & Hin & Hk) end.
    apply list_elem_of_In, list_elem_of_lookup in Hin as [i Hi].
    intros Hnil. assert (Hi' : i ∈ key_indices (played fs)).
    { apply key_indices_elem. unfold played. rewrite list_lookup_imap, Hi. by eexists. }
    rewrite Hnil in Hi'. by apply not_elem_of_nil in Hi'.
Qed.

(** ** Playing never stops *)

Inductive act := Play | Seek.
Definition step (a : act) (s : player) : option player :=
  match a with Play => play s | Seek => Some (requestKeyframe s) end.
Fixpoint run (acts : list act) (s : player) : option player :=
  match acts with [] => Some s | a :: acts => s ← step a s; run acts s end.

(** A player of a recording, between two frames. *)
Record ready (r : Recording) (s : player) : Prop := {
  r_recording : recording s = Some r;
  r_cursor : (cursor s < length (frames r))%nat;
  r_sequence : p_sequence s = zlength (out s);
  r_numbered : forall i p, out s !! i = Some p -> SourceRuns.seq_of p = Z.of_nat i mod 65536 }.

(** What [parse] promises to the player. *)
Definition playable (r : Recording) : Prop :=
  Forall (fun f => Forall recorded (packets f)) (frames r) /\ keyframes r <> [] /\
  (forall i, i ∈ keyframes r -> (i < length (frames r))%nat).

Lemma stamped_seq p n t : recorded p -> 0 <= n < 65536 ->
  SourceRuns.seq_of (writeUInt32BE t 4 (writeUInt16BE n 2 p)) = n.
Proof.
  unfold recorded, zlength. intros Hl Hn. do 8 (destruct p as [|? p]; [simpl in Hl; lia|]).
  unfold SourceRuns.seq_of, writeUInt16BE, writeUInt32BE. simpl.
  pose proof (Z.div_mod n 256 ltac:(lia)). rewrite (Z.mod_small (n / 256)); [lia|].
  split; [apply Z.div_pos; lia | apply Z.div_lt_upper_bound; lia].
Qed.

Lemma emit_all_spec ps s :
  Forall recorded ps -> p_sequence s = zlength (out s) ->
  (forall i p, out s !! i = Some p -> SourceRuns.seq_of p = Z.of_nat i mod 65536) ->
  let s' := emit_all ps s in
  recording s' = recording s /\ cursor s' = cursor s /\ p_sequence s' = zlength (out s') /\
  p_timestamp s' = p_timestamp s /\ length (out s') = (length (out s) + length ps)%nat /\
  forall i p, out s' !! i = Some p -> SourceRuns.seq_of p = Z.of_nat i mod 65536.
Proof.
  intros Hps. revert s. induction Hps as [|p ps Hp _ IH]; intros s Hs Hout; simpl; [split_and!; done || lia|].
  match goal with |- context [emit_all ps ?x] => destruct (IH x) as (-> & -> & H1 & H2 & H3 & H4) end; simpl.
  - rewrite zlength_app, zlength_cons, zlength_nil. lia.
  - intros i q. rewrite lookup_app_Some. intros [Hi|[Hle Hi]]; [by apply Hout|].
    apply list_lookup_singleton_Some in Hi as [Hi <-]. assert (i = length (out s)) as -> by lia.
    change 0xffff with (Z.ones 16). rewrite Z.land_ones by lia. change (2 ^ 16) with 65536.
    rewrite Hs. unfold zlength. apply stamped_seq; [done|]. apply Z.mod_pos_bound. lia.
  - simpl in *. rewrite length_app in H3. simpl in H3. split_and!; done || lia.
Qed.

Lemma play_ready r s : playable r -> ready r s ->
  exists s', play s = Some s' /\ ready r s' /\ armed s' = true.
Proof.
  intros (Hrec & _ & _) [Hr Hc Hs Hn]. unfold play. rewrite Hr. simpl.
  destruct (lookup_lt_is_Some_2 _ _ Hc) as [f Hf]. rewrite Hf. simpl.
  rewrite Forall_lookup in Hrec. specialize (Hrec _ _ Hf).
  match goal with |- context [emit_all (packets f) ?x] => destruct (emit_all_spec (packets f) x Hrec) as (E1 & E2 & E3 & _ & _ & E4) end;
    [done..|]. simpl in *.
  eexists. split; [reflexivity|]. split; [|done]. constructor; simpl; try done.
  rewrite E2. apply Nat.mod_upper_bound. lia.
Qed.

Lemma seek_ready r s : playable r -> ready r s ->
  ready r (requestKeyframe s) /\ cursor (requestKeyframe s) ∈ keyframes r.
Proof.
  intros (_ & Hne & Hk) [Hr Hc Hs Hn]. unfold requestKeyframe. rewrite Hr.
  set (next := match find _ _ with Some i => i | None => _ end).
  assert (Hin : next ∈ keyframes r).
  { unfold next. destruct (find _ _) as [i|] eqn:E.
    - apply find_some in E as [E _]. by apply list_elem_of_In.
    - destruct (keyframes r) as [|i l]; [done|]. left. }
  split; [constructor; simpl; auto | done].
Qed.

(** Once a recording has been accepted, playing it never runs out of
    frames: after any number of timer ticks and keyframe requests, in any order,
    there is a next frame, the n-th packet sent carries sequence number n modulo
    2^16, and the frame after a keyframe request is one a decoder can join at. *)
Theorem replay_never_stops fixture o acts :
  Forall byte fixture -> start fixture new_player = Ok o ->
  exists r s s', parse fixture = Ok r /\ o = Some s /\ run acts s = Some s' /\ is_Some (play s') /\
    (forall i p, out s' !! i = Some p -> SourceRuns.seq_of p = Z.of_nat i mod 65536) /\
    exists f, frames r !! cursor (requestKeyframe s') = Some f /\ keyframe f = true.
Proof.
  intros Hb H. unfold start in H. inv_res. rename x into r.
  match goal with H : parse _ = _ |- _ => rename H into Hparse end.
  destruct (parse_lossless fixture r Hb Hparse) as (ps & tail & _ & _ & Hc & Hrec & Hfr & Hkey & Hne).
  assert (Hp : playable r).
  { split_and!; [|done|].
    - apply Forall_lookup. intros i f Hf. rewrite <- Hc in Hrec. apply Forall_concat in Hrec.
      rewrite Forall_map in Hrec. rewrite Forall_lookup in Hrec. by eapply Hrec.
    - intros i (f & Hf & _)%Hkey. by eapply lookup_lt_Some. }
  assert (H0 : ready r {| recording := Some r; armed := false; cursor := 0; p_sequence := 0; p_timestamp := 0; out := [] |}).
  { constructor; simpl; try done. destruct (keyframes r) as [|k l] eqn:Ek; [done|].
    destruct (proj1 (Hkey k)) as (f & Hf & _); [left|]. apply lookup_lt_Some in Hf. lia. }
  destruct (play_ready r _ Hp H0) as (s & Hs & Hrs & _). subst o. exists r, s.
  assert (Hrun : forall acts s, ready r s -> exists s', run acts s = Some s' /\ ready r s').
  { clear - Hp. induction acts as [|a acts IH]; intros s Hs; simpl; [by exists s|]. destruct a; simpl.
    - destruct (play_ready r s Hp Hs) as (s1 & -> & H1 & _). simpl. by apply IH.
    - apply IH. by apply seek_ready. }
  destruct (Hrun acts s Hrs) as (s' & Hs' & Hrs'). exists s'. split_and!; try done.
  - destruct (play_ready r s' Hp Hrs') as (s1 & -> & _). by exists s1.
  - by apply r_numbered with r.
  - apply Hkey. by apply seek_ready.
Qed.

(** ** A recording of two frames *)

Definition demo_rtp (time nal : Z) : packet := [128; 96; 0; 0; 0; 0; time / 256; time mod 256; 0; 0; 0; 1; nal].
Definition demo_fixture : packet :=
  Deframer.stream [demo_rtp 0 7; demo_rtp 0 5; demo_rtp 3000 1].
Lemma demo_fixture_bytes : Forall byte demo_fixture.
Proof.
  assert (H : forallb (fun b => (0 <=? b) && (b <? 256)) demo_fixture = true) by (vm_compute; reflexivity).
  apply Forall_forall. intros b Hb. rewrite forallb_forall in H. apply list_elem_of_In, H in Hb. unfold byte. lia.
Qed.
Definition demo_recording : Recording := {|
  frames := [{| packets := [demo_rtp 0 7; demo_rtp 0 5]; keyframe := true; delayMs := 33 |};
             {| packets := [demo_rtp 3000 1]; keyframe := false; delayMs := 33 |}];
  keyframes := [0%nat] |}.
Lemma demo_parses : parse demo_fixture = Ok demo_recording.
Proof. vm_compute. reflexivity. Qed.

Lemma parse_lossless_witness :
  parse demo_fixture = Ok demo_recording /\ keyframes demo_recording <> [] /\
  forall i, i ∈ keyframes demo_recording <-> exists f, frames demo_recording !! i = Some f /\ keyframe f = true.
Proof.
  destruct (parse_lossless demo_fixture demo_recording demo_fixture_bytes demo_parses) as (ps & tail & _ & _ & _ & _ & _ & H & H').
  split; [exact demo_parses|]. split; [exact H' | exact H].
Defined.

Lemma replay_never_stops_witness :
  exists s', run [Play; Seek; Play; Play; Seek] {| recording := Some demo_recording; armed := true; cursor := 1; p_sequence := 2;
      p_timestamp := 2970; out := [demo_rtp 0 7; [128; 96; 0; 1; 0; 0; 0; 0; 0; 0; 0; 1; 5]] |} = Some s' /\
    length (out s') = 6%nat /\ is_Some (play s').
Proof.
  destruct (replay_never_stops demo_fixture (Some {| recording := Some demo_recording; armed := true; cursor := 1; p_sequence := 2;
      p_timestamp := 2970; out := [demo_rtp 0 7; [128; 96; 0; 1; 0; 0; 0; 0; 0; 0; 0; 1; 5]] |})
    [Play; Seek; Play; Play; Seek] demo_fixture_bytes ltac:(vm_compute; reflexivity)) as (r & s & s' & _ & Hs & Hrun & Hplay & _).
  injection Hs as <-. exists s'. split; [exact Hrun|]. split; [|exact Hplay].
  assert (Hlen : (fun s => length (out s)) <$> run [Play; Seek; Play; Play; Seek] {| recording := Some demo_recording; armed := true; cursor := 1; p_sequence := 2;
      p_timestamp := 2970; out := [demo_rtp 0 7; [128; 96; 0; 1; 0; 0; 0; 0; 0; 0; 0; 1; 5]] |} = Some 6%nat)
    by (vm_compute; reflexivity).
  rewrite Hrun in Hlen. by injection Hlen.
Defined.
End Fixture.
