(* ===== verification/Worker.v ===== *)
(** * Worker supervision

    [media/worker.ts]: one child process per encoder, spoken to in lines of JSON
    and read back as lines and framed packets.  Processes are numbered in the
    order they are spawned; what one does arrives as an event.  [JSON.parse] of a
    line is a parameter. *)

From S2P Require Import Prelude JsNumber Values ConfigTypes Deframer.

Module Worker.
Import Deframer.
Definition CONTRACT_VERSION : Z := 1.
Definition num (z : Z) : jsval := VNum (of_Z z).

(** ** What is sent to a worker *)

Definition reliability_id (r : Reliability) : jsval := VStr (match r with Reliable => js "reliable" | BestEffort => js "best_effort" end).
Definition encoding_id (e : VideoEncoding) : jsval := VStr (match e with rgb8 => js "rgb8" | bgr8 => js "bgr8" | mono8 => js "mono8" end).
Definition backend_name (b : VideoBackend) : jsval := VStr (match b with fixture => js "fixture" | l4t_v4l2 => js "l4t_v4l2" | openh264 => js "openh264" end).
Definition profile_name (p : VideoProfile) : jsval := VStr (match p with
  | constrained_baseline => js "constrained_baseline" | main => js "main" | high => js "high" end).

Definition specification (b : VideoBinding) : jsval :=
  obj ([(js "ros_topic", VStr (v_rosTopic b));
        (js "ros_qos", obj [(js "reliability", reliability_id (reliability (v_rosQos b))); (js "depth", num (depth (v_rosQos b)))]);
        (js "input", obj [(js "encoding", encoding_id (encoding (input b))); (js "width", num (in_width (input b)));
                          (js "height", num (in_height (input b))); (js "framerate", num (framerate (input b)))])]
    ++ match output b with
       | None => []
       | Some o => [(js "output", obj [(js "width", num (out_width o)); (js "height", num (out_height o))])]
       end
    ++ [(js "encoder", obj [(js "backend", backend_name (backend (encoder b))); (js "bitrate", num (bitrate (encoder b)));
                            (js "keyframe_interval", num (keyframeInterval (encoder b)));
                            (js "profile", profile_name (profile (encoder b)))])]).

(** [JSON.stringify({ v: CONTRACT_VERSION, op, ... }) + '\n'], as the value it writes. *)
Definition request (op : string) (rest : list (jsstr * jsval)) : jsval :=
  obj ([(js "v", num CONTRACT_VERSION); (js "op", VStr (js op))] ++ rest).

(** ** State *)

(** How the promise of [begin] settled. *)
Inductive outcome := Resolved (event : jsval) | Rejected (e : js_error).
(** One call of [begin]: the process and the closure's variables. *)
Record proc := {
  streaming : bool (** [onPacket !== undefined] *);
  settled : option outcome;
  text : bytes (** [pending] of [readEvent] *);
  media : feed (** [readPacket] *) }.
Inductive effect :=
| SendLine (k : nat) (line : jsval)
| GotPacket (k : nat) (p : bytes)
| ReportFailed (k : nat)
| StopProcess (k : nat) (line : jsval).

Record worker := {
  child : option nat; stopping : bool; procs : list proc; effects : list effect (** newest first *) }.
Definition new_worker : worker := {| child := None; stopping := false; procs := []; effects := [] |}.

Definition note (e : effect) (s : worker) : worker :=
  {| child := child s; stopping := stopping s; procs := procs s; effects := e :: effects s |}.
Definition set_child c b (s : worker) : worker :=
  {| child := c; stopping := b; procs := procs s; effects := effects s |}.
Definition set_procs ps (s : worker) : worker :=
  {| child := child s; stopping := stopping s; procs := ps; effects := effects s |}.
Definition update (k : nat) (f : proc -> proc) (s : worker) : worker := set_procs (alter f k (procs s)) s.
Definition settle o (p : proc) : proc := {| streaming := streaming p; settled := Some o; text := text p; media := media p |}.
Definition set_text t (p : proc) : proc := {| streaming := streaming p; settled := settled p; text := t; media := media p |}.
Definition set_media m (p : proc) : proc := {| streaming := streaming p; settled := settled p; text := text p; media := m |}.

Section worker.
Variable binding : VideoBinding.
(** [JSON.parse(line.toString('utf8'))]; [None] is a [SyntaxError]. *)
Variable JSON_parse : bytes -> option jsval.

(** ** The closure of [begin] *)

Definition fail (k : nat) (e : js_error) (s : worker) : worker :=
  if stopping s then s else
  match procs s !! k with
  | None => s
  | Some p =>
      match settled p with
      | Some _ => if streaming p then note (ReportFailed k) s else s
      | None => update k (settle (Rejected e)) s
      end
  end.

(** [if (!settled) { settled = true; resolve(event); }] *)
Definition resolve (k : nat) (event : jsval) (s : worker) : worker :=
  match procs s !! k with
  | Some p => match settled p with None => update k (settle (Resolved event)) s | Some _ => s end
  | None => s
  end.

(** [typeof event.cause === 'string' ? event.cause : ...] *)
Definition cause (event : jsval) : js_error :=
  match prop "cause" event with VStr c => ErrorText c | _ => Error "worker reported a failure" end.
Definition is_version (v : jsval) : bool := match v with VNum x => neqb x (of_Z CONTRACT_VERSION) | _ => false end.
Definition is_true (v : jsval) : bool := match v with VBool b => b | _ => false end.

(** The callback of [readEvent].  Reading a property of [null] throws. *)
Definition on_line (k : nat) (line : bytes) : ST worker unit :=
  match JSON_parse line with
  | None => modify (fail k (Error "worker sent malformed control output"))
  | Some VNull => mthrow (TypeError "null")
  | Some event =>
      if negb (is_version (prop "v" event)) then modify (fail k (Error "worker speaks an unsupported contract version")) else
      let op := prop "op" event in
      if is_str "failed" op || is_str "probe_result" op && negb (is_true (prop "ok" event))
      then modify (fail k (cause event))
      else if is_str "probe_result" op || is_str "started" op
      then modify (resolve k event)
      else mret tt
  end.

Definition pending_text (k : nat) (s : worker) : bytes := match procs s !! k with Some p => text p | None => [] end.
(** The loop of [lines], with its callback. *)
Fixpoint event_loop (fuel : nat) (k : nat) : ST worker unit :=
  match fuel with
  | O => mret tt
  | S fuel =>
      s ← get;
      match cut_line (pending_text k s) with
      | None => mret tt
      | Some (line, rest) =>
          modify (update k (set_text rest));;
          (if bool_decide (line = []) then mret tt else on_line k line);;
          event_loop fuel k
      end
  end.

Definition on_output (k : nat) (chunk : bytes) : ST worker unit :=
  catch
    (modify (update k (fun p => set_text (text p ++ chunk) p));;
     s ← get;
     event_loop (S (length (pending_text k s))) k;;
     s ← get;
     throw_when (MAX_LINE_BYTES <? zlength (pending_text k s)) (Error "worker control line exceeded its limit"))
    (fun e => modify (fail k e)).

Definition on_rtp (k : nat) (chunk : bytes) : ST worker unit :=
  s ← get;
  match procs s !! k with
  | Some p =>
      if streaming p then
        let '(r, m) := frames chunk {| pending := pending (media p); emitted := [] |} in
        modify (update k (set_media {| pending := pending m; emitted := [] |}));;
        modify (fun s => fold_left (fun s packet => note (GotPacket k packet) s) (emitted m) s);;
        match r with Ok _ => mret tt | Throw e => modify (fail k e) end
      else mret tt
  | None => mret tt
  end.

Definition on_exit (k : nat) : ST worker unit := modify (fail k (Error "worker exited before it was asked to stop")).

Definition begin (line : jsval) (streams : bool) : ST worker unit :=
  s ← get;
  let k := length (procs s) in
  modify (fun s => set_child (Some k) false
    (set_procs (procs s ++ [{| streaming := streams; settled := None; text := []; media := empty |}]) s));;
  modify (note (SendLine k line)).

(** ** The source the factory returns *)

Definition stop : ST worker unit :=
  s ← get;
  match child s with
  | None => mret tt
  | Some k => modify (set_child None true);; modify (note (StopProcess k (request "shutdown" [])))
  end.
Definition start : ST worker unit := begin (request "start" [(js "spec", specification binding)]) true.
Definition probe : ST worker unit := begin (request "probe" [(js "spec", specification binding)]) false.
(** [finally { await this.stop(); }] once the probe of process [k] has settled. *)
Definition probe_done (k : nat) : ST worker unit :=
  s ← get;
  match procs s !! k with
  | Some p => if negb (streaming p) && bool_decide (is_Some (settled p)) then stop else mret tt
  | None => mret tt
  end.
Definition requestKeyframe : ST worker unit :=
  s ← get;
  match child s with Some k => modify (note (SendLine k (request "force_keyframe" []))) | None => mret tt end.

(** ** Events *)

Inductive event :=
| Start | Probe | ProbeDone (k : nat) | Keyframe | Stop
| Output (k : nat) (chunk : bytes) | Rtp (k : nat) (chunk : bytes) | Exit (k : nat).
Definition from_process (e : event) : bool := match e with Output _ _ | Rtp _ _ | Exit _ => true | _ => false end.
Definition handle (e : event) : ST worker unit :=
  match e with
  | Start => start | Probe => probe | ProbeDone k => probe_done k | Keyframe => requestKeyframe | Stop => stop
  | Output k chunk => on_output k chunk | Rtp k chunk => on_rtp k chunk | Exit k => on_exit k
  end.
Definition run (es : list event) (s : worker) : worker := fold_left (fun s e => (handle e s).2) es s.

(** ** What every process event keeps

    A property that survives [fail], [resolve], delivery of a packet and the
    bookkeeping of the deframers survives everything a process does. *)
Section closed_under.
Variable I : worker -> Prop.
Hypothesis I_fail : forall k e s, I s -> I (fail k e s).
Hypothesis I_resolve : forall k v s, I s -> I (resolve k v s).
Hypothesis I_text : forall k f s, (forall p, streaming (f p) = streaming p /\ settled (f p) = settled p) -> I s -> I (update k f s).
Hypothesis I_packet : forall k p s, I s -> I (note (GotPacket k p) s).

Lemma keeps_on_line k line : preserves I (on_line k line).
Proof.
  unfold on_line. destruct (JSON_parse line) as [event|]; [|apply preserves_modify; auto].
  assert (H : preserves I (if negb (is_version (prop "v" event)) then modify (fail k (Error "worker speaks an unsupported contract version")) else
      let op := prop "op" event in
      if is_str "failed" op || is_str "probe_result" op && negb (is_true (prop "ok" event)) then modify (fail k (cause event))
      else if is_str "probe_result" op || is_str "started" op then modify (resolve k event) else mret tt)).
  { destruct (negb _); [apply preserves_modify; auto|]. cbv zeta. destruct (_ || _); [apply preserves_modify; auto|].
    destruct (_ || _); [apply preserves_modify; auto | apply preserves_ret]. }
  destruct event; try exact H. apply preserves_throw.
Qed.

Lemma keeps_event_loop fuel k : preserves I (event_loop fuel k).
Proof.
  induction fuel as [|fuel IH]; [apply preserves_ret|]. apply preserves_get_bind. intros s Hs.
  destruct (cut_line _) as [[line rest]|]; [|done]. apply bind_at; [by apply I_text|]. intros _.
  apply preserves_bind; [|intros _; apply IH]. destruct (bool_decide _); [apply preserves_ret | apply keeps_on_line].
Qed.

Lemma keeps_process e : from_process e = true -> preserves I (handle e).
Proof.
  destruct e as [| | | | |k chunk|k chunk|k]; try done; intros _; simpl.
  - apply preserves_catch; [|intros e; apply preserves_modify; auto].
    apply preserves_bind; [apply preserves_modify; intros s; by apply I_text|]. intros _.
    apply preserves_get_bind. intros s Hs. apply bind_at; [by apply keeps_event_loop|]. intros _.
    apply preserves_get_bind. intros s1 H1. by apply preserves_throw_when.
  - apply preserves_get_bind. intros s Hs. destruct (procs s !! k) as [p|]; [|done].
    destruct (streaming p); [|done]. destruct (frames _ _) as [r m].
    apply bind_at; [by apply I_text|]. intros _. apply preserves_bind.
    + apply preserves_modify. generalize (emitted m). intros ps. induction ps as [|q ps IH]; intros s1 H1; simpl; auto.
    + intros _. destruct r; [apply preserves_ret | apply preserves_modify; auto].
  - apply preserves_modify. auto.
Qed.
End closed_under.

Lemma update_lookup k f s j : procs (update k f s) !! j = if decide (j = k) then f <$> procs s !! j else procs s !! j.
Proof. simpl. case_decide as Hj; [subst; by rewrite list_lookup_alter_eq | by rewrite list_lookup_alter_ne]. Qed.

(** ** A promise settles once *)

Definition settled_of (k : nat) (s : worker) : option outcome := p ← procs s !! k; settled p.
Definition settles (k : nat) (o : outcome) (s : worker) : Prop := settled_of k s = Some o.

Lemma settles_update k o j f s :
  (forall p, settled p = Some o -> settled (f p) = Some o) -> settles k o s -> settles k o (update j f s).
Proof.
  unfold settles, settled_of. intros Hf. rewrite update_lookup. case_decide; [|done].
  destruct (procs s !! k) as [p|]; [|done]. simpl. apply Hf.
Qed.

Lemma settles_fail k o j e s : settles k o s -> settles k o (fail j e s).
Proof.
  intros Hs. unfold fail. destruct (stopping s); [done|]. destruct (procs s !! j) as [p|] eqn:Ej; [|done].
  destruct (settled p) eqn:Ep; [by destruct (streaming p)|]. unfold settles, settled_of in *. rewrite update_lookup.
  case_decide as Hk; [|done]. subst. rewrite Ej in Hs. simpl in Hs. congruence.
Qed.
Lemma settles_resolve k o j v s : settles k o s -> settles k o (resolve j v s).
Proof.
  intros Hs. unfold resolve. destruct (procs s !! j) as [p|] eqn:Ej; [|done].
  destruct (settled p) eqn:Ep; [done|]. unfold settles, settled_of in *. rewrite update_lookup.
  case_decide as Hk; [|done]. subst. rewrite Ej in Hs. simpl in Hs. congruence.
Qed.

Lemma settles_begin k o line b : preserves (settles k o) (begin line b).
Proof.
  apply preserves_get_bind. intros s Hs. unfold modify. unfold settles, settled_of in *. simpl.
  destruct (procs s !! k) as [p|] eqn:E; [|done]. by rewrite (lookup_app_l_Some _ _ _ _ E).
Qed.
Lemma settles_stop k o : preserves (settles k o) stop.
Proof. apply preserves_get_bind. intros s Hs. by destruct (child s). Qed.

Lemma settles_handle k o e : preserves (settles k o) (handle e).
Proof.
  destruct (from_process e) eqn:Ef.
  - apply keeps_process; [intros; by apply settles_fail | intros; by apply settles_resolve | | done | done].
    intros j f s Hf. apply settles_update. intros p <-. by apply Hf.
  - destruct e as [| |j| | | | |]; try done; simpl; try apply settles_begin; try apply settles_stop.
    + apply preserves_get_bind. intros s Hs. destruct (procs s !! j) as [p|]; [|done]. destruct (_ && _); [|done].
      by apply settles_stop.
    + apply preserves_get_bind. intros s Hs. by destruct (child s).
Qed.

(** ** After a stop *)

Definition reported (e : effect) : bool := match e with ReportFailed _ => true | _ => false end.
(** Since [s0] no failure was reported or made a promise reject. *)
Definition quiet_since (s0 s : worker) : Prop :=
  stopping s = true /\ List.filter reported (effects s) = List.filter reported (effects s0) /\
  forall k e, settles k (Rejected e) s -> settles k (Rejected e) s0.

Lemma quiet_handle s0 e : from_process e = true -> preserves (quiet_since s0) (handle e).
Proof.
  intros Hf. apply keeps_process; [| | |intros k p s Hs; exact Hs|done].
  - intros k e' s Hs. unfold fail. pose proof Hs as [Hst _]. by rewrite Hst.
  - intros k v s (Hs & Hr & Hj). unfold resolve. destruct (procs s !! k) as [p|] eqn:Ek; [|done].
    destruct (settled p) eqn:Ep; [done|]. split_and!; [done|done|]. intros j e'. unfold settles, settled_of.
    rewrite update_lookup. case_decide as Hk; [|apply Hj]. subst. rewrite Ek. done.
  - intros k f s Hf' (Hs & Hr & Hj). split_and!; [done|done|]. intros j e'. unfold settles, settled_of.
    rewrite update_lookup. case_decide as Hk; [|apply Hj]. destruct (procs s !! j) as [p|] eqn:Ej; [|done].
    simpl. destruct (Hf' p) as [_ ->]. intros He. apply Hj. unfold settles, settled_of. by rewrite Ej.
Qed.

(** C39: the promise of a request settles once, whatever the worker and its
    owner do afterwards; and once a worker has been told to stop, nothing it
    does on its way out - half a line, half a packet, its exit - reports a
    failure or rejects a promise, until another worker is started. *)
Theorem stopped_worker_is_silent s es :
  (forall k o, settles k o s -> settles k o (run es s)) /\
  (is_Some (child s) -> Forall (fun e => from_process e = true) es ->
     let s1 := (handle Stop s).2 in
     List.filter reported (effects (run es s1)) = List.filter reported (effects s) /\
     forall k e, settles k (Rejected e) (run es s1) -> settles k (Rejected e) s).
Proof.
  split.
  - intros k o. revert s. induction es as [|e es IH]; intros s Hs; simpl; [done|]. apply IH. by apply settles_handle.
  - intros [c Hc] Hes s1.
    assert (H1 : s1 = note (StopProcess c (request "shutdown" [])) (set_child None true s)).
    { unfold s1. simpl. unfold stop. rewrite ST_bind_eq. unfold get. by rewrite Hc. }
    assert (Hq : quiet_since s s1) by (rewrite H1; by split_and!). clearbody s1. clear H1.
    enough (Hr : quiet_since s (run es s1)) by by destruct Hr as (_ & ? & ?).
    revert s1 Hq. induction Hes as [|e es He _ IH]; intros s1 Hq; simpl; [done|]. apply IH. by apply quiet_handle.
Qed.
End worker.

(** ** A worker that is stopped in the middle of a line *)

Definition demo_binding : VideoBinding := {|
  v_name := js "front"; v_rosTopic := js "/camera"; v_rosType := js "sensor_msgs/msg/Image";
  v_rosQos := {| reliability := BestEffort; durability := Volatile; history := KeepLast; depth := 1 |};
  input := {| encoding := rgb8; in_width := 640; in_height := 480; framerate := 30 |}; output := None;
  ConfigTypes.encoder := {| backend := openh264; bitrate := 1000000; keyframeInterval := 30; profile := constrained_baseline |};
  subscribeScope := js "video" |}.
(** A parser that knows one line. *)
Definition demo_parse (line : list Z) : option jsval :=
  if bool_decide (line = js "started") then Some (obj [(js "v", num 1); (js "op", VStr (js "started"))]) else None.
Definition demo_worker : worker := run demo_binding demo_parse [Start; Output 0 (js "started" ++ [10])] new_worker.

Lemma stopped_worker_is_silent_witness :
  settled_of 0 demo_worker = Some (Resolved (obj [(js "v", num 1); (js "op", VStr (js "started"))])) /\
  List.filter reported (effects (run demo_binding demo_parse [Output 0 (js "oops" ++ [10]); Rtp 0 [0; 1]; Exit 0]
    (handle demo_binding demo_parse Stop demo_worker).2)) = List.filter reported (effects demo_worker) /\
  List.filter reported (effects (run demo_binding demo_parse [Exit 0] demo_worker)) = [ReportFailed 0].
Proof.
  split; [vm_compute; reflexivity|]. split; [|vm_compute; reflexivity].
  destruct (stopped_worker_is_silent demo_binding demo_parse demo_worker
    [Output 0 (js "oops" ++ [10]); Rtp 0 [0; 1]; Exit 0]) as [_ H].
  destruct (H ltac:(vm_compute; eexists; reflexivity) ltac:(repeat constructor)) as [H' _]. exact H'.
Defined.
End Worker.
