(* ===== verification/Protocol.v ===== *)
(** * Wire envelopes

    [router/protocol.ts]: the channels, the checks on the envelopes a peer
    sends, and the encoding of those it receives. *)

From S2P Require Import Prelude JsNumber JsString JsMap Regex Values SessionValidation Json.

Definition CONTROL : jsstr := js "ros.control.v1".
Definition RELIABLE : jsstr := js "ros.reliable.v1".
Definition REALTIME : jsstr := js "ros.realtime.v1".

Definition isChannel (value : jsstr) : bool :=
  bool_decide (value = CONTROL) || bool_decide (value = RELIABLE) || bool_decide (value = REALTIME).

Definition dataChannel (reliable : bool) : jsstr := if reliable then RELIABLE else REALTIME.

(** [value === 1] *)
Definition is_one (v : jsval) : bool := match v with VNum x => neqb x (of_Z 1) | _ => false end.

Definition parseWire (bytes : list Z) (maxBytes : Z) : result jsval :=
  throw_when ((zlength bytes =? 0) || (maxBytes <? zlength bytes)) (Error "message_size");;
  text ← text_decode bytes;
  value ← json_parse text;
  throw_when (negb (is_record value)) (Error "invalid_envelope");;
  throw_when (negb (is_one (prop "v" value)) || match prop "op" value with VStr _ => false | _ => true end)
    (Error "invalid_protocol");;
  Ok value.

Definition textField (wire : jsval) (key : string) : result jsstr :=
  identifier (prop key wire);;
  match prop key wire with VStr s => Ok s | _ => Throw (Error "invalid_identifier") end.

(** [Object.keys(wire)] of a parsed envelope. *)
Definition keys_of (wire : jsval) : list jsstr := match wire with VObj _ props => own_keys props | _ => [] end.
Definition fields (wire : jsval) (allowed : list string) : result unit :=
  throw_when (existsb (fun key => negb (bool_decide (key ∈ map js ("v" :: "op" :: allowed)%string))) (keys_of wire))
    (Error "unknown_field").

Definition encodeWire (wire : jsval) (maxBytes : Z) : result (list Z) :=
  text ← stringify wire;
  let bytes := utf8 (default (js "undefined") text) in
  throw_when (maxBytes <? zlength bytes) (Error "message_size");;
  Ok bytes.

(** An envelope the bridge writes. *)
Definition envelope (members : list (string * jsval)) : jsval :=
  obj (map (fun kv => (js kv.1, kv.2)) (("v"%string, VNum (of_Z 1)) :: members)).

(** ** What the checks give *)

Lemma textField_Ok wire key s : textField wire key = Ok s -> prop key wire = VStr s.
Proof.
  unfold textField. intros H. inv_res. destruct x. apply identifier_Ok in Hx as (s' & Hs & _).
  rewrite Hs in H |- *. by injection H as ->.
Qed.

(** The text of an object begins with a brace, so its bytes are not empty. *)
Lemma stringify_obj props t : stringify (VObj ObjectProto props) = Ok (Some t) -> exists u, t = 123 :: u.
Proof.
  simpl. intros H. apply result_bind_Ok in H as (parts & _ & H). injection H as <-. by eexists.
Qed.
Lemma stringify_obj_some props o : stringify (VObj ObjectProto props) = Ok o -> is_Some o.
Proof. simpl. intros H. apply result_bind_Ok in H as (parts & _ & H). by injection H as <-. Qed.

(** Encoded envelopes are admissible in a queue of that message size. *)
Lemma encodeWire_size members maxBytes bytes :
  encodeWire (envelope members) maxBytes = Ok bytes -> 0 < zlength bytes <= maxBytes.
Proof.
  unfold encodeWire, envelope, obj. intros H. inv_res. bools. subst bytes.
  destruct (stringify_obj_some _ _ Hx) as [t ->]. destruct (stringify_obj _ _ Hx) as [u ->].
  simpl. rewrite zlength_cons. pose proof (zlength_nonneg (utf8 u)). simpl in *. rewrite zlength_cons in *. lia.
Qed.
