(* ===== verification/VideoRouter.v ===== *)
(** * Video control of one peer

    [router/video.ts]: which negotiated section carries which track, and which
    tracks the peer watches.  The media plane and the queue of control
    envelopes are used through an interface; the media plane may call the
    viewer it is given back while it attaches it. *)

From S2P Require Import Prelude JsNumber JsString JsMap Regex Values Sdp Endpoint VideoSource Protocol.

Module VideoRouter.

(** [Number.parseInt(s, 16)]; [None] is NaN. *)
Definition hex_of (c : Z) : option Z :=
  if between 48 57 c then Some (c - 48) else if between 97 102 c then Some (c - 87)
  else if between 65 70 c then Some (c - 55) else None.
Fixpoint hex_digits (s : jsstr) (acc : option Z) : option Z :=
  match s with
  | [] => acc
  | c :: s => match hex_of c with Some d => hex_digits s (Some (default 0 acc * 16 + d)) | None => acc end
  end.
Definition hex_prefix (s : jsstr) : jsstr :=
  match s with c :: d :: s' => if (c =? 48) && ((d =? 120) || (d =? 88)) then s' else s | _ => s end.
Definition parseInt16 (s : jsstr) : option Z :=
  match trimStart s with
  | c :: s' =>
      if c =? 45 then Z.opp <$> hex_digits (hex_prefix s') None
      else if c =? 43 then hex_digits (hex_prefix s') None
      else hex_digits (hex_prefix (c :: s')) None
  | [] => None
  end.
Definition profileIdc (profileLevelId : jsstr) : option Z := parseInt16 (take 2 profileLevelId).

Abbreviation VideoSlot := Endpoint.VideoSlot.
Abbreviation mid := Endpoint.mid.
Abbreviation slotProfile := Endpoint.slotProfile.
Abbreviation VideoState := Source.VideoState.
#[export] Existing Instance Source.video_state_eq.

(** The viewer of a binding is determined by its track and slot. *)
Record Binding := { slot : VideoSlot; watching : bool; attached : bool }.
Record video := { bound : jsmap jsstr Binding; free : list VideoSlot }.
Definition set_bound m (v : video) := {| bound := m; free := free v |}.
Definition with_flags w a (b : Binding) := {| slot := slot b; watching := w; attached := a |}.

Definition state_text (st : VideoState) : jsstr :=
  match st with
  | Source.Idle => js "idle" | Source.Starting => js "starting"
  | Source.Active => js "active" | Source.Failed => js "failed"
  end.

(** [VideoAccess]: the media plane as one peer sees it, over the state [S] of
    the whole; [attach] is given the [state] method of the viewer. *)
Class VideoAccess (S : Type) := {
  catalog_of : S -> list (jsstr * jsstr);
  authorize : jsstr -> S -> bool;
  track_profile : jsstr -> S -> result Z;
  attach : jsstr -> (VideoState -> ST S unit) -> ST S unit;
  detach : jsstr -> ST S unit;
  requestKeyframe : jsstr -> ST S unit }.

(** Where the router of this peer keeps its video state. *)
Class HasVideo (S : Type) := { the_video : S -> video; put_video : video -> S -> S }.

Section router.
Context {S : Type} {has : HasVideo S} {access : VideoAccess S}.
(** [this.send] *)
Variable send : jsval -> ST S unit.

Definition in_video {A} (m : ST video A) : ST S A := on the_video put_video m.

(** [new VideoRouter(access, slots, send)] *)
Definition constructor (slots : list VideoSlot) : video := {| bound := []; free := slots |}.

Definition catalog (s : S) : option (list (jsstr * jsstr)) :=
  match catalog_of s with [] => None | tracks => Some tracks end.

(** An assignment to the flags of a binding. *)
Definition set_flags (track : jsstr) (w a : bool) : ST S unit :=
  in_video (modify (fun v =>
    match mget track (bound v) with
    | Some b => set_bound (mset track (with_flags w a b) (bound v)) v
    | None => v
    end)).

(** The [state] method of [viewer(track, slot, failed)]. *)
Definition viewer_state (track : jsstr) (sl : VideoSlot) (st : VideoState) : ST S unit :=
  (if bool_decide (st = Source.Failed) then set_flags track false false else mret tt);;
  send (envelope [("op", VStr (js "video.state")); ("track", VStr track); ("mid", VStr (mid sl));
                  ("state", VStr (state_text st))]).

(** [const [slot] = this.free.splice(index, 1)] at the first slot of a profile. *)
Fixpoint take_slot (wanted : Z) (slots : list VideoSlot) : option (VideoSlot * list VideoSlot) :=
  match slots with
  | [] => None
  | sl :: slots =>
      if bool_decide (profileIdc (slotProfile sl) = Some wanted) then Some (sl, slots)
      else '(sl', rest) ← take_slot wanted slots; Some (sl', sl :: rest)
  end.

Definition bind (track : jsstr) : ST S Binding :=
  s ← get;
  match mget track (bound (the_video s)) with
  | Some existing => mret existing
  | None =>
      throw_when (bool_decide (free (the_video s) = [])) (Error "video_slot_limit");;
      wanted ← lift (track_profile track s);
      match take_slot wanted (free (the_video s)) with
      | None => mthrow (Error "video_profile_mismatch")
      | Some (sl, rest) =>
          let entry := {| slot := sl; watching := false; attached := false |} in
          in_video (modify (fun v => {| bound := mset track entry (bound v); free := rest |}));;
          mret entry
      end
  end.

Definition release (track : jsstr) : ST S unit :=
  s ← get;
  match mget track (bound (the_video s)) with
  | None => mret tt
  | Some entry =>
      set_flags track false (attached entry);;
      if attached entry then set_flags track false false;; detach track else mret tt
  end.

Definition operation (wire : jsval) (id : jsstr) : ST S jsval :=
  if is_str "video.subscribe" (prop "op" wire) then
    lift (fields wire ["id"; "track"]);;
    track ← lift (textField wire "track");
    s ← get;
    throw_when (negb (authorize track s)) (Error "unauthorized");;
    entry ← bind track;
    (if watching entry then mret tt
     else attach track (viewer_state track (slot entry));; set_flags track true true);;
    mret (envelope [("op", VStr (js "video.subscribed")); ("id", VStr id); ("track", VStr track);
                    ("mid", VStr (mid (slot entry)))])
  else if is_str "video.unsubscribe" (prop "op" wire) then
    lift (fields wire ["id"; "mid"]);;
    m ← lift (textField wire "mid");
    s ← get;
    match find (fun kv => bool_decide (mid (slot kv.2) = m)) (bound (the_video s)) with
    | None => mthrow (Error "unknown_video_slot")
    | Some (track, _) =>
        release track;;
        mret (envelope [("op", VStr (js "video.unsubscribed")); ("id", VStr id)])
    end
  else mthrow (Error "unknown_operation").

Definition close : ST S unit :=
  s ← get; mapS release (mkeys (bound (the_video s)));; mret tt.

(** The body of [revalidate]'s loop; entries are never removed from [bound]. *)
Definition recheck (track : jsstr) : ST S unit :=
  s ← get;
  match mget track (bound (the_video s)) with
  | None => mret tt
  | Some entry =>
      if watching entry && negb (authorize track s)
      then release track;; viewer_state track (slot entry) Source.Failed
      else mret tt
  end.
Definition revalidate : ST S unit :=
  s ← get; mapS recheck (mkeys (bound (the_video s)));; mret tt.

(** [slot.onKeyframeRequest] of a bound slot. *)
Definition on_keyframe_request (m : jsstr) : ST S unit :=
  s ← get;
  match find (fun kv => bool_decide (mid (slot kv.2) = m)) (bound (the_video s)) with
  | Some (track, entry) => if watching entry then requestKeyframe track else mret tt
  | None => mret tt
  end.
End router.
End VideoRouter.
