(* ===== verification/Router.v ===== *)
(** * The router of one peer

    [router/index.ts]: a peer's envelopes are validated, answered, and turned
    into subscriptions, publishers and commands.  The state holds everything
    the router owns together with the guard it shares with the other peers and
    what its surroundings would answer now ([out]); beside it stands the state
    [E] of the transport, reached only through [send].  One reading of the
    clock serves a whole operation. *)

From S2P Require Import Prelude JsNumber JsString JsMap Values SessionValidation CommandGuard DeliveryQueue RequestCache ConfigTypes Codec Json Protocol Endpoint VideoSource VideoRouter.

Module Router.

(** ** Data *)

Inductive access_kind := Subscribe | Publish.
#[export] Instance access_kind_eq : EqDecision access_kind.
Proof. solve_decision. Defined.

Record RouterBinding := { binding : TopicBinding; codec : Codec.codec; schemaId : jsstr }.
(** The closure [unsubscribe] is an effect named by the stream. *)
Record Subscription := { s_entry : RouterBinding; ready : bool; s_seq : Z; s_nextAt : number }.
Record Publisher := { p_entry : RouterBinding; guarded : bool; p_seq : Z; p_nextAt : number }.
Record RouterLimits := { maxHandles : Z; maxRequests : Z; requestTtlMs : Z; maxControlRateHz : Z }.

(** What the clock, the authorization hook, the ROS adapter and the media plane
    answer at the moment; [None] is a call that returns. *)
Record outside := {
  clock : number;
  authorize : option (TopicBinding -> access_kind -> bool);
  ros_subscribe : jsstr -> option js_error;
  ros_unsubscribe : jsstr -> option js_error;
  ros_publish : jsstr -> jsval -> option js_error;
  media_catalog : list (jsstr * jsstr);
  media_authorize : jsstr -> bool;
  media_profile : jsstr -> result Z;
  media_attach : jsstr -> list VideoRouter.VideoState * option js_error;
  media_detach : jsstr -> option js_error;
  media_keyframe : jsstr -> option js_error }.

(** What the router did to its surroundings.  [Published] also records the
    handle and the sequence number the value was accepted under. *)
Inductive effect :=
| Sent (channel : jsstr) (bytes : list Z)
| Listening (publicName id : jsstr)
| Unlistened (id : jsstr)
| Published (handle : jsstr) (seq : Z) (publicName : jsstr) (native : jsval)
| Attached (track : jsstr)
| Detached (track : jsstr)
| Notified.

Record router := {
  sessionId : jsstr; epoch : jsstr; limits : RouterLimits;
  entries : jsmap jsstr RouterBinding;
  subscriptions : jsmap jsstr Subscription;
  publishers : jsmap jsstr Publisher;
  queue : Queue.queue;
  cache : Cache.cache;
  video : option VideoRouter.video;
  maxBytes : Z; nextId : Z; lastTime : number;
  controlWindow : number; controlCount : Z;
  welcomed : bool; closed : bool;
  guard : Guard.guard;
  out : outside;
  log : list effect (** newest first *) }.

Definition set_subscriptions v (s : router) : router :=
  {| sessionId := sessionId s; epoch := epoch s; limits := limits s; entries := entries s;
     subscriptions := v; publishers := publishers s; queue := queue s; cache := cache s;
     video := video s; maxBytes := maxBytes s; nextId := nextId s; lastTime := lastTime s;
     controlWindow := controlWindow s; controlCount := controlCount s; welcomed := welcomed s;
     closed := closed s; guard := guard s; out := out s; log := log s |}.
Definition set_publishers v (s : router) : router :=
  {| sessionId := sessionId s; epoch := epoch s; limits := limits s; entries := entries s;
     subscriptions := subscriptions s; publishers := v; queue := queue s; cache := cache s;
     video := video s; maxBytes := maxBytes s; nextId := nextId s; lastTime := lastTime s;
     controlWindow := controlWindow s; controlCount := controlCount s; welcomed := welcomed s;
     closed := closed s; guard := guard s; out := out s; log := log s |}.
Definition set_queue v (s : router) : router :=
  {| sessionId := sessionId s; epoch := epoch s; limits := limits s; entries := entries s;
     subscriptions := subscriptions s; publishers := publishers s; queue := v; cache := cache s;
     video := video s; maxBytes := maxBytes s; nextId := nextId s; lastTime := lastTime s;
     controlWindow := controlWindow s; controlCount := controlCount s; welcomed := welcomed s;
     closed := closed s; guard := guard s; out := out s; log := log s |}.
Definition set_cache v (s : router) : router :=
  {| sessionId := sessionId s; epoch := epoch s; limits := limits s; entries := entries s;
     subscriptions := subscriptions s; publishers := publishers s; queue := queue s; cache := v;
     video := video s; maxBytes := maxBytes s; nextId := nextId s; lastTime := lastTime s;
     controlWindow := controlWindow s; controlCount := controlCount s; welcomed := welcomed s;
     closed := closed s; guard := guard s; out := out s; log := log s |}.
Definition set_video v (s : router) : router :=
  {| sessionId := sessionId s; epoch := epoch s; limits := limits s; entries := entries s;
     subscriptions := subscriptions s; publishers := publishers s; queue := queue s;
     cache := cache s; video := v; maxBytes := maxBytes s; nextId := nextId s;
     lastTime := lastTime s; controlWindow := controlWindow s; controlCount := controlCount s;
     welcomed := welcomed s; closed := closed s; guard := guard s; out := out s; log := log s |}.
Definition set_nextId v (s : router) : router :=
  {| sessionId := sessionId s; epoch := epoch s; limits := limits s; entries := entries s;
     subscriptions := subscriptions s; publishers := publishers s; queue := queue s;
     cache := cache s; video := video s; maxBytes := maxBytes s; nextId := v;
     lastTime := lastTime s; controlWindow := controlWindow s; controlCount := controlCount s;
     welcomed := welcomed s; closed := closed s; guard := guard s; out := out s; log := log s |}.
Definition set_lastTime v (s : router) : router :=
  {| sessionId := sessionId s; epoch := epoch s; limits := limits s; entries := entries s;
     subscriptions := subscriptions s; publishers := publishers s; queue := queue s;
     cache := cache s; video := video s; maxBytes := maxBytes s; nextId := nextId s; lastTime := v;
     controlWindow := controlWindow s; controlCount := controlCount s; welcomed := welcomed s;
     closed := closed s; guard := guard s; out := out s; log := log s |}.
Definition set_controlWindow v (s : router) : router :=
  {| sessionId := sessionId s; epoch := epoch s; limits := limits s; entries := entries s;
     subscriptions := subscriptions s; publishers := publishers s; queue := queue s;
     cache := cache s; video := video s; maxBytes := maxBytes s; nextId := nextId s;
     lastTime := lastTime s; controlWindow := v; controlCount := controlCount s;
     welcomed := welcomed s; closed := closed s; guard := guard s; out := out s; log := log s |}.
Definition set_controlCount v (s : router) : router :=
  {| sessionId := sessionId s; epoch := epoch s; limits := limits s; entries := entries s;
     subscriptions := subscriptions s; publishers := publishers s; queue := queue s;
     cache := cache s; video := video s; maxBytes := maxBytes s; nextId := nextId s;
     lastTime := lastTime s; controlWindow := controlWindow s; controlCount := v;
     welcomed := welcomed s; closed := closed s; guard := guard s; out := out s; log := log s |}.
Definition set_welcomed v (s : router) : router :=
  {| sessionId := sessionId s; epoch := epoch s; limits := limits s; entries := entries s;
     subscriptions := subscriptions s; publishers := publishers s; queue := queue s;
     cache := cache s; video := video s; maxBytes := maxBytes s; nextId := nextId s;
     lastTime := lastTime s; controlWindow := controlWindow s; controlCount := controlCount s;
     welcomed := v; closed := closed s; guard := guard s; out := out s; log := log s |}.
Definition set_closed v (s : router) : router :=
  {| sessionId := sessionId s; epoch := epoch s; limits := limits s; entries := entries s;
     subscriptions := subscriptions s; publishers := publishers s; queue := queue s;
     cache := cache s; video := video s; maxBytes := maxBytes s; nextId := nextId s;
     lastTime := lastTime s; controlWindow := controlWindow s; controlCount := controlCount s;
     welcomed := welcomed s; closed := v; guard := guard s; out := out s; log := log s |}.
Definition set_guard v (s : router) : router :=
  {| sessionId := sessionId s; epoch := epoch s; limits := limits s; entries := entries s;
     subscriptions := subscriptions s; publishers := publishers s; queue := queue s;
     cache := cache s; video := video s; maxBytes := maxBytes s; nextId := nextId s;
     lastTime := lastTime s; controlWindow := controlWindow s; controlCount := controlCount s;
     welcomed := welcomed s; closed := closed s; guard := v; out := out s; log := log s |}.
Definition set_out v (s : router) : router :=
  {| sessionId := sessionId s; epoch := epoch s; limits := limits s; entries := entries s;
     subscriptions := subscriptions s; publishers := publishers s; queue := queue s;
     cache := cache s; video := video s; maxBytes := maxBytes s; nextId := nextId s;
     lastTime := lastTime s; controlWindow := controlWindow s; controlCount := controlCount s;
     welcomed := welcomed s; closed := closed s; guard := guard s; out := v; log := log s |}.
Definition set_log v (s : router) : router :=
  {| sessionId := sessionId s; epoch := epoch s; limits := limits s; entries := entries s;
     subscriptions := subscriptions s; publishers := publishers s; queue := queue s;
     cache := cache s; video := video s; maxBytes := maxBytes s; nextId := nextId s;
     lastTime := lastTime s; controlWindow := controlWindow s; controlCount := controlCount s;
     welcomed := welcomed s; closed := closed s; guard := guard s; out := out s; log := v |}.
Definition set_sessionId v (s : router) : router :=
  {| sessionId := v; epoch := epoch s; limits := limits s; entries := entries s;
     subscriptions := subscriptions s; publishers := publishers s; queue := queue s;
     cache := cache s; video := video s; maxBytes := maxBytes s; nextId := nextId s;
     lastTime := lastTime s; controlWindow := controlWindow s; controlCount := controlCount s;
     welcomed := welcomed s; closed := closed s; guard := guard s; out := out s; log := log s |}.

Definition with_ready b (s : Subscription) :=
  {| s_entry := s_entry s; ready := b; s_seq := s_seq s; s_nextAt := s_nextAt s |}.
Definition with_next n t (s : Subscription) :=
  {| s_entry := s_entry s; ready := ready s; s_seq := n; s_nextAt := t |}.
Definition with_published n t (p : Publisher) :=
  {| p_entry := p_entry p; guarded := guarded p; p_seq := n; p_nextAt := t |}.

Definition raise (o : option js_error) : result unit := match o with Some e => Throw e | None => Ok tt end.

Section router.
(** The transport and [options.send]. *)
Context {E : Type}.
Variable transport_send : jsstr -> list Z -> ST E bool.
(** [options.guard]'s authorization hook. *)
Variable guard_hook : Guard.CommandIdentity -> Guard.phase -> ST Guard.guard bool.

Abbreviation peer := (router * E)%type.

Definition here {A} (m : ST router A) : ST peer A := on fst (fun r s => (r, s.2)) m.
Definition this : ST peer router := gets fst.
Definition update (f : router -> router) : ST peer unit := modify (fun s => (f s.1, s.2)).
Definition note (e : effect) : ST peer unit := update (fun r => set_log (e :: log r) r).
Definition in_queue {A} (m : ST Queue.queue A) : ST peer A := here (on queue set_queue m).
Definition in_cache {A} (m : ST Cache.cache A) : ST peer A := here (on cache set_cache m).
Definition in_guard {A} (m : ST Guard.guard A) : ST peer A := here (on guard set_guard m).

(** [options.send(channel, bytes)] *)
Definition transmit (channel : jsstr) (bytes : list Z) : ST peer bool :=
  b ← on snd (fun e s => (s.1, e)) (transport_send channel bytes);
  (if b : bool then note (Sent channel bytes) else mret tt);;
  mret b.

(** ** The media plane *)

#[export] Instance router_has_video : VideoRouter.HasVideo peer := {
  the_video s := default (VideoRouter.constructor []) (video s.1);
  put_video v s := (set_video (Some v) s.1, s.2) }.
#[export] Instance router_video_access : VideoRouter.VideoAccess peer := {
  catalog_of s := media_catalog (out s.1);
  authorize track s := media_authorize (out s.1) track;
  track_profile track s := media_profile (out s.1) track;
  attach track state :=
    r ← this;
    let '(states, outcome) := media_attach (out r) track in
    match outcome with
    | Some e => mthrow e
    | None => note (Attached track);; mapS state states;; mret tt
    end;
  detach track := r ← this; lift (raise (media_detach (out r) track));; note (Detached track);
  requestKeyframe track := r ← this; lift (raise (media_keyframe (out r) track)) }.

(** ** Lookups *)

Definition now : ST peer number :=
  r ← this;
  let value := clock (out r) in
  throw_when (negb (is_finite value) || nltb value (lastTime r)
              || nltb (nsub (of_Z MAX_SAFE_INTEGER) (of_Z (requestTtlMs (limits r)))) value) (Error "invalid_clock");;
  update (set_lastTime value);;
  mret value.

Definition id : ST peer jsstr :=
  update (fun r => set_nextId (nextId r + 1) r);;
  r ← this; mret (tagged (sessionId r) (nextId r)).

Definition direction_of (operation : access_kind) : Direction :=
  match operation with Subscribe => ros_to_web | Publish => web_to_ros end.
Definition allowed (entry : RouterBinding) (operation : access_kind) (r : router) : bool :=
  bool_decide (direction (binding entry) = direction_of operation)
  && match authorize (out r) with Some hook => hook (binding entry) operation | None => false end.

Definition entry_of (name : jsstr) (operation : access_kind) : ST peer RouterBinding :=
  r ← this;
  match mget name (entries r) with
  | None => mthrow (Error "unauthorized")
  | Some entry =>
      throw_when (negb (allowed entry operation r)) (Error "unauthorized");;
      throw_when (closed r) (Error "router_closed");;
      mret entry
  end.

Definition publisher_of (handle : jsstr) : ST peer Publisher :=
  r ← this; lift (of_option (Error "unknown_handle") (mget handle (publishers r))).
Definition subscription_of (id : jsstr) : ST peer Subscription :=
  r ← this; lift (of_option (Error "unknown_stream") (mget id (subscriptions r))).

Definition channel_of (entry : RouterBinding) : jsstr :=
  dataChannel (bool_decide (delivery (binding entry) = DReliable)).

(** ** Queues *)

Definition unsubscribe (id : jsstr) : ST peer unit :=
  r ← this; lift (raise (ros_unsubscribe (out r) id));; note (Unlistened id).

Definition removeSubscription (id : jsstr) : ST peer unit :=
  subscription_of id;;
  update (fun r => set_subscriptions (mdelete id (subscriptions r)) r);;
  in_queue (Queue.closeStream id);;
  unsubscribe id.

(** The loop of [drain]; it ends after at most one turn per queued message. *)
Fixpoint drain_loop (fuel : nat) (id channel : jsstr) : ST peer bool :=
  match fuel with
  | O => mret true
  | S fuel =>
      next ← in_queue (Queue.peek id);
      match next with
      | None => mret true
      | Some bytes =>
          sent ← transmit channel bytes;
          if sent : bool then in_queue (Queue.dequeue id);; drain_loop fuel id channel else mret false
      end
  end.
Definition backlog (id : jsstr) (r : router) : nat :=
  match mget id (Queue.streams (queue r)) with Some s => length (Queue.messages s) | None => O end.
Definition drain (id channel : jsstr) : ST peer bool :=
  r ← this; drain_loop (S (backlog id r)) id channel.

Definition control_id : jsstr := js "control".
Definition enqueue_control (bytes : list Z) : ST peer unit :=
  in_queue (Queue.enqueue control_id (VBytes bytes));; mret tt.

Definition respond (wire : jsval) : ST peer unit :=
  r ← this;
  throw_when (closed r) (Error "router_closed");;
  bytes ← lift (encodeWire wire (maxBytes r));
  enqueue_control bytes.

(** ** Closing *)

(** [try { unsubscribe() } catch (error) { failures.push(error) }] over the subscriptions. *)
Definition release_listener (id : jsstr) : ST peer (option js_error) :=
  o ← attempt (unsubscribe id); mret (match o with Throw e => Some e | Ok _ => None end).

Definition close : ST peer unit :=
  r ← this;
  if closed r then mret tt else
  update (set_closed true);;
  (match video r with Some _ => VideoRouter.close | None => mret tt end);;
  in_guard (Guard.revokeSession (sessionId r));;
  r ← this;
  outcomes ← mapS release_listener (mkeys (subscriptions r));
  let failures := omap (fun o => o) outcomes in
  update (set_subscriptions []);; update (set_publishers []);;
  in_queue Queue.clear;; in_cache Cache.clear;;
  note Notified;;
  throw_when (negb (bool_decide (length failures = O))) (AggregateError failures "cleanup_failed").

(** ** Sending

    [flush], [error] and [event] call each other; [fuel] bounds the depth, and
    [fuel_of] is always enough ([flush_equation]). *)

Definition error_wire (id : option jsstr) : jsval :=
  envelope [("op", VStr (js "error")); ("id", match id with Some s => VStr s | None => VUndefined end);
            ("code", VStr (js "request_rejected"))].

Section sending.
Variable flush : ST peer unit.

Definition error_with (id : option jsstr) : ST peer unit :=
  r ← this;
  if closed r then mret tt else
  catch (respond (error_wire id);; flush) (fun _ => close).

Definition event_with (wire : jsval) : ST peer unit :=
  catch (respond wire;; flush) (fun _ => error_with None).

(** The loop of [flush] over the subscriptions; a deleted one is not visited. *)
Fixpoint flush_streams (ids : list jsstr) : ST peer unit :=
  match ids with
  | [] => mret tt
  | id :: ids =>
      r ← this;
      match mget id (subscriptions r) with
      | None => flush_streams ids
      | Some subscription =>
          o ← attempt (entry_of (publicName (binding (s_entry subscription))) Subscribe);
          match o with
          | Throw _ => removeSubscription id;; error_with None
          | Ok _ =>
              emptied ← drain id (channel_of (s_entry subscription));
              if emptied : bool then flush_streams ids else mret tt
          end
      end
  end.

Definition flush_body : ST peer unit :=
  r ← this;
  if closed r then mret tt else
  (match video r with Some _ => VideoRouter.revalidate event_with | None => mret tt end);;
  emptied ← drain control_id CONTROL;
  if emptied : bool then r ← this; flush_streams (mkeys (subscriptions r)) else mret tt.
End sending.

Fixpoint flush_fuel (fuel : nat) : ST peer unit :=
  match fuel with O => mret tt | S fuel => flush_body (flush_fuel fuel) end.

(** What revocation can still take away: subscriptions and watched tracks. *)
Definition count_watched (m : jsmap jsstr VideoRouter.Binding) : nat :=
  length (List.filter (fun kv => VideoRouter.watching kv.2) m).
Definition watched (r : router) : nat :=
  match video r with Some v => count_watched (VideoRouter.bound v) | None => O end.
Definition fuel_of (r : router) : nat := S (length (subscriptions r) + watched r).
Definition flush : ST peer unit := r ← this; flush_fuel (fuel_of r).
Definition error : option jsstr -> ST peer unit := error_with flush.
Definition event : jsval -> ST peer unit := event_with flush.

(** ** Samples *)

Definition sample_body (id : jsstr) (native : jsval) (subscription : Subscription) : ST peer unit :=
  entry ← entry_of (publicName (binding (s_entry subscription))) Subscribe;
  t ← now;
  if nltb t (s_nextAt subscription) then mret tt else
  let at_ := nadd t (ndiv (of_Z 1000) (maxRateHz (binding entry))) in
  update (fun r => set_subscriptions (mset id (with_next (s_seq subscription) at_ subscription) (subscriptions r)) r);;
  lift (sequence (VStr (Z_to_js (s_seq subscription))));;
  data ← lift (Codec.encode (codec entry) native);
  update (fun r => set_subscriptions (mset id (with_next (s_seq subscription + 1) at_ subscription) (subscriptions r)) r);;
  r ← this;
  bytes ← lift (encodeWire (envelope [("op", VStr (js "message")); ("stream_id", VStr id); ("epoch", VStr (epoch r));
    ("seq", VStr (Z_to_js (s_seq subscription))); ("data", data)]) (maxBytes r));
  in_queue (Queue.enqueue id (VBytes bytes));;
  flush.

Definition sample (id : jsstr) (native : jsval) : ST peer unit :=
  r ← this;
  match mget id (subscriptions r) with
  | None => mret tt
  | Some subscription =>
      if negb (ready subscription) then mret tt else
      catch (sample_body id native subscription) (fun _ =>
        r ← this;
        (if mhas id (subscriptions r) then removeSubscription id else mret tt);;
        error None)
  end.

(** ** Operations of the control channel *)

Definition subscribe (entry : RouterBinding) (requestId : jsstr) : ST peer jsval :=
  id ← id;
  let q := ConfigTypes.queue (binding entry) in
  in_queue (Queue.register (VStr id)
    (VStr (if bool_decide (ConfigTypes.policy q = QLatest) then js "latest" else js "reliable"))
    (VNum (of_Z (ConfigTypes.maxMessages q))));;
  catch (
    r ← this;
    lift (raise (ros_subscribe (out r) (publicName (binding entry))));;
    note (Listening (publicName (binding entry)) id);;
    update (fun r => set_subscriptions (mset id {| s_entry := entry; ready := false; s_seq := 0;
      s_nextAt := S754_zero false |} (subscriptions r)) r))
    (fun e => in_queue (Queue.closeStream id);; mthrow e);;
  r ← this;
  mret (envelope [("op", VStr (js "subscribed")); ("id", VStr requestId); ("stream_id", VStr id);
                  ("epoch", VStr (epoch r)); ("schema_id", VStr (schemaId entry))]).

Definition advertise (entry : RouterBinding) (requestId : jsstr) : ST peer jsval :=
  r ← this;
  handle ← match commandGuard (binding entry) with
           | Some g => in_guard (Guard.openHandle guard_hook (sessionId r) (VStr (rosTopic (binding entry)))
                                   (Some (VNum (of_Z (ConfigTypes.leaseMs g)))))
           | None => id
           end;
  update (fun r => set_publishers (mset handle {| p_entry := entry;
    guarded := bool_decide (is_Some (commandGuard (binding entry)));
    p_seq := -1; p_nextAt := S754_zero false |} (publishers r)) r);;
  mret (envelope [("op", VStr (js "advertised")); ("id", VStr requestId); ("handle", VStr handle);
                  ("epoch", VStr (epoch r)); ("schema_id", VStr (schemaId entry))]).

Definition arm_or_unadvertise (arm : bool) (wire : jsval) (requestId : jsstr) : ST peer jsval :=
  lift (fields wire ["id"; "handle"]);;
  handle ← lift (textField wire "handle");
  publisher ← publisher_of handle;
  entry_of (publicName (binding (p_entry publisher))) Publish;;
  r ← this;
  if arm then
    throw_when (negb (guarded publisher)) (Error "lease_not_required");;
    lease ← in_guard (Guard.arm guard_hook (sessionId r) handle);
    mret (envelope [("op", VStr (js "lease")); ("id", VStr requestId); ("handle", VStr handle);
      ("epoch", VStr (epoch r)); ("lease_id", VStr (Guard.lease_id lease)); ("expires_at", VNum (Guard.expiresAt lease))])
  else
    (if guarded publisher then in_guard (Guard.closeHandle (sessionId r) handle) else mret tt);;
    update (fun r => set_publishers (mdelete handle (publishers r)) r);;
    mret (envelope [("op", VStr (js "unadvertised")); ("id", VStr requestId)]).

Definition is_video_op (wire : jsval) : bool :=
  match prop "op" wire with VStr s => startsWith s (js "video.") | _ => false end.

Definition operation (wire : jsval) (requestId : jsstr) : ST peer jsval :=
  let op := prop "op" wire in
  if is_str "subscribe" op || is_str "advertise" op then
    lift (fields wire ["id"; "topic"]);;
    topic ← lift (textField wire "topic");
    entry ← entry_of topic (if is_str "subscribe" op then Subscribe else Publish);
    r ← this;
    throw_when (maxHandles (limits r) <=? msize (subscriptions r) + msize (publishers r)) (Error "handle_limit");;
    if is_str "subscribe" op then subscribe entry requestId else advertise entry requestId
  else if is_str "unsubscribe" op then
    lift (fields wire ["id"; "stream_id"]);;
    id ← lift (textField wire "stream_id");
    removeSubscription id;;
    mret (envelope [("op", VStr (js "unsubscribed")); ("id", VStr requestId)])
  else
    r ← this;
    if bool_decide (is_Some (video r)) && is_video_op wire then VideoRouter.operation event wire requestId
    else if is_str "arm" op || is_str "unadvertise" op then arm_or_unadvertise (is_str "arm" op) wire requestId
    else mthrow (Error "unknown_operation").

(** ** Control *)

Definition direction_text (d : Direction) : jsstr := match d with ros_to_web => js "ros_to_web" | web_to_ros => js "web_to_ros" end.
Definition delivery_text (d : Delivery) : jsstr := match d with DReliable => js "reliable" | DRealtime => js "realtime" end.
Definition catalog_entry (e : RouterBinding) : jsval :=
  let b := binding e in
  obj [(js "topic", VStr (publicName b)); (js "ros_type", VStr (rosType b));
       (js "direction", VStr (direction_text (direction b))); (js "delivery", VStr (delivery_text (delivery b)));
       (js "schema_id", VStr (schemaId e))].
Definition catalog (r : router) : list jsval :=
  map catalog_entry (List.filter (fun e => allowed e
    (if bool_decide (direction (binding e) = ros_to_web) then Subscribe else Publish) r) (mvalues (entries r))).
Definition video_entry (t : jsstr * jsstr) : jsval := obj [(js "track", VStr t.1); (js "codec", VStr t.2)].

Definition hello (wire : jsval) : ST peer unit :=
  lift (fields wire []);;
  r ← this;
  throw_when (welcomed r) (Error "already_welcomed");;
  s ← get;
  let watchable := match video r with Some _ => VideoRouter.catalog s | None => None end in
  respond (envelope ([("op", VStr (js "welcome")); ("epoch", VStr (epoch r)); ("catalog", arr (catalog r))]%string
    ++ match watchable with Some tracks => [("video"%string, arr (map video_entry tracks))] | None => [] end));;
  update (set_welcomed true).

Definition answer (wire : jsval) (requestId : jsstr) : ST peer unit :=
  input ← lift (stringify wire);
  let input := default (js "undefined") input in
  t ← now;
  cached ← in_cache (Cache.lookup requestId input t);
  match cached with
  | Some bytes => enqueue_control bytes
  | None =>
      r ← this;
      in_cache (Cache.reserve (maxBytes r + zlength input * 2));;
      response ← operation wire requestId;
      bytes ← lift (encodeWire response (maxBytes r));
      in_cache (Cache.store requestId input bytes t);;
      enqueue_control bytes
  end.

Definition control (wire : jsval) (requestId : option jsstr) : ST peer unit :=
  if is_str "hello" (prop "op" wire) then hello wire else
  r ← this;
  throw_when (negb (welcomed r)) (Error "hello_required");;
  if is_str "ready" (prop "op" wire) then
    lift (fields wire ["stream_id"]);;
    id ← lift (textField wire "stream_id");
    s ← subscription_of id;
    update (fun r => set_subscriptions (mset id (with_ready true s) (subscriptions r)) r)
  else
    match requestId with
    | None => mthrow (Error "request_id_required")
    | Some requestId => answer wire requestId
    end.

(** ** Publishing *)

(** The callback [send] of [publish], after the sequence number is taken. *)
Definition hand_over (entry : RouterBinding) (handle : jsstr) (seq : Z) (native : jsval) : ST peer unit :=
  entry_of (publicName (binding entry)) Publish;;
  lift (Codec.encode (codec entry) native);;
  r ← this;
  note (Published handle seq (publicName (binding entry)) native);;
  lift (raise (ros_publish (out r) (publicName (binding entry)) native)).

Definition is_epoch (r : router) (v : jsval) : bool := match v with VStr s => bool_decide (s = epoch r) | _ => false end.

Definition publish (channel : jsstr) (wire : jsval) : ST peer unit :=
  lift (fields wire ["id"; "handle"; "epoch"; "seq"; "lease_id"; "data"]);;
  r ← this;
  throw_when (negb (welcomed r) || negb (is_str "publish" (prop "op" wire)) || negb (is_epoch r (prop "epoch" wire)))
    (Error "invalid_publish");;
  handle ← lift (textField wire "handle");
  publisher ← publisher_of handle;
  entry ← entry_of (publicName (binding (p_entry publisher))) Publish;
  throw_when (negb (bool_decide (channel = channel_of entry))) (Error "invalid_channel");;
  text ← lift (textField wire "seq");
  seq ← lift (sequence (VStr text));
  t ← now;
  throw_when ((seq <=? p_seq publisher) || nltb t (p_nextAt publisher)) (Error "publish_rate_or_sequence");;
  native ← lift (Codec.decode (codec entry) (prop "data" wire));
  ticket ← (if guarded publisher then
              lease ← lift (textField wire "lease_id");
              k ← in_guard (Guard.prepare guard_hook {| Guard.rq_sessionId := sessionId r; Guard.rq_epoch := epoch r;
                     Guard.rq_handle := handle; Guard.rq_leaseId := lease; Guard.rq_seq := VStr (Z_to_js seq) |});
              mret (Some k)
            else
              throw_when (negb (is_undefined (prop "lease_id" wire))) (Error "unexpected_lease");;
              mret None);
  update (fun r => set_publishers (mset handle (with_published seq
    (nadd t (ndiv (of_Z 1000) (maxRateHz (binding entry)))) publisher) (publishers r)) r);;
  (match ticket with Some k => in_guard (Guard.reserve guard_hook k true);; mret tt | None => mret tt end);;
  hand_over entry handle seq native;;
  respond (envelope [("op", VStr (js "published_to_ros")); ("handle", VStr handle); ("seq", VStr (Z_to_js seq))]).

(** ** Receiving *)

Definition controlRate : ST peer unit :=
  t ← now;
  let window := nfloor (ndiv t (of_Z 1000)) in
  update (fun r => if neqb window (controlWindow r) then r else set_controlCount 0 (set_controlWindow window r));;
  update (fun r => set_controlCount (controlCount r + 1) r);;
  r ← this;
  throw_when (maxControlRateHz (limits r) <? controlCount r) (Error "control_rate").

(** Up to the request identifier: what fails here is reported without one. *)
Definition admit_wire (channel : jsstr) (raw : list Z) : ST peer (jsval * option jsstr) :=
  throw_when (negb (isChannel channel)) (Error "invalid_channel");;
  (if bool_decide (channel = CONTROL) then controlRate else mret tt);;
  r ← this;
  wire ← lift (parseWire raw (maxBytes r));
  if is_undefined (prop "id" wire) then mret (wire, None) else
  requestId ← lift (textField wire "id");
  mret (wire, Some requestId).

Definition receive (channel : jsstr) (raw : list Z) : ST peer unit :=
  r ← this;
  if closed r then mret tt else
  admitted ← attempt (admit_wire channel raw);
  match admitted with
  | Throw _ => error None
  | Ok (wire, requestId) =>
      outcome ← attempt ((if bool_decide (channel = CONTROL) then control wire requestId else publish channel wire);; flush);
      match outcome with Throw _ => error requestId | Ok _ => mret tt end
  end.
End router.

(** ** Construction *)

Record RouterOptions := {
  opt_config : BridgeConfig; opt_bindings : list RouterBinding; opt_epoch : jsval;
  opt_maxHandles : jsval; opt_maxRequests : jsval; opt_requestTtlMs : jsval; opt_maxControlRateHz : jsval;
  opt_callbacks : bool (** [clock] and [send] are functions *);
  opt_video : option (list VideoRouter.VideoSlot) }.

(** The loop over [options.bindings]. *)
Fixpoint copy_entries (topics : list TopicBinding) (l : list RouterBinding) (m : jsmap jsstr RouterBinding) :
  result (jsmap jsstr RouterBinding) :=
  match l with
  | [] => Ok m
  | entry :: l =>
      throw_when (negb (bool_decide (binding entry ∈ topics)) || mhas (publicName (binding entry)) m) (Error "invalid_binding");;
      identifier (VStr (schemaId entry));;
      copy_entries topics l (mset (publicName (binding entry)) entry m)
  end.

(** Everything before the guard is asked for a session. *)
Definition prepare (o : RouterOptions) (g : Guard.guard) (env : outside) : result router :=
  mh ← positiveLimit (opt_maxHandles o);
  mr ← positiveLimit (opt_maxRequests o);
  ttl ← positiveLimit (opt_requestTtlMs o);
  rate ← positiveLimit (opt_maxControlRateHz o);
  identifier (opt_epoch o);;
  throw_when (negb (opt_callbacks o)) (Error "invalid_callback");;
  entries ← copy_entries (topics (opt_config o)) (opt_bindings o) [];
  let lim := ConfigTypes.limits (opt_config o) in
  let maxBytes := Z.min 16384 (ConfigTypes.maxMessageBytes lim) in
  q ← Queue.constructor {| Queue.opt_maxStreams := VNum (nadd (of_Z mh) (of_Z 1));
        Queue.opt_maxBytes := VNum (of_Z (maxPeerQueueBytes lim)); Queue.opt_maxMessageBytes := VNum (of_Z maxBytes) |};
  match Queue.register (VStr control_id) (VStr (js "reliable")) (VNum (of_Z mr)) q with
  | (Throw e, _) => Throw e
  | (Ok _, q) => Ok {|
      sessionId := []; epoch := match opt_epoch o with VStr s => s | _ => [] end;
      limits := {| maxHandles := mh; maxRequests := mr; requestTtlMs := ttl; maxControlRateHz := rate |};
      entries := entries; subscriptions := []; publishers := []; queue := q;
      cache := Cache.constructor mr ttl (maxPeerQueueBytes lim);
      video := VideoRouter.constructor <$> opt_video o; maxBytes := maxBytes; nextId := 0;
      lastTime := S754_zero false; controlWindow := S754_zero false; controlCount := 0;
      welcomed := false; closed := false; guard := g; out := env; log := [] |}
  end.

(** [new SessionRouter(options)] with the shared guard: its state and the router. *)
Definition constructor (o : RouterOptions) (g : Guard.guard) (env : outside) : result router * Guard.guard :=
  match prepare o g env with
  | Throw e => (Throw e, g)
  | Ok r =>
      match (now (E := unit);; in_guard (Guard.openSession (VStr (epoch r)))) (r, tt) with
      | (Ok sid, (r, _)) => (Ok (set_sessionId sid r), guard r)
      | (Throw e, (r, _)) => (Throw e, guard r)
      end
  end.
End Router.

