(* ===== verification/RouterProps.v ===== *)
(** * What the router's operations leave alone

    [calm] is what sending, refusing and closing may do to a router: they send,
    drop and release, and never publish, subscribe or advertise.  On it rests
    the equation of [flush], whose mutual recursion with [error] and [event]
    the model bounds by fuel. *)

From S2P Require Import Prelude JsMap JsNumber JsString Values SessionValidation CommandGuard CommandGuardProps DeliveryQueue RequestCache ConfigTypes Codec Protocol VideoSource VideoRouter Router.

Module RouterProps.
Import Router.

(** ** Queue limits never change *)

Definition keeps_limit {A} (m : ST Queue.queue A) : Prop :=
  forall q, Queue.maxMessageBytes (m q).2 = Queue.maxMessageBytes q.

Lemma keeps_limit_enqueue id message : keeps_limit (Queue.enqueue id message).
Proof.
  intros q. rewrite Queue.enqueue_cases. repeat case_match; try done.
  unfold Queue.enqueue_spec. repeat case_match; done.
Qed.
Lemma keeps_limit_dequeue id : keeps_limit (Queue.dequeue id).
Proof. intros q. rewrite Queue.dequeue_eq. repeat case_match; done. Qed.
Lemma keeps_limit_closeStream id : keeps_limit (Queue.closeStream id).
Proof. intros q. rewrite Queue.closeStream_eq. by repeat case_match. Qed.
Lemma keeps_limit_register id pol max : keeps_limit (Queue.register id pol max).
Proof. intros q. by destruct (Queue.register_cases id pol max q) as [(e & ->)|(?&?&_&_&_&_&_&->)]. Qed.

(** ** Calm *)

Record good (r : router) : Prop := {
  good_queue : Queue.wf (queue r);
  good_limit : Queue.maxMessageBytes (queue r) = maxBytes r;
  good_cache : Cache.wf (cache r);
  good_guard : Guard.wf (guard r) }.

(** Effects that carry nothing to ROS. *)
Definition quiet (max : Z) (e : effect) : Prop :=
  match e with
  | Sent channel bytes => isChannel channel = true /\ 0 < zlength bytes <= max
  | Published _ _ _ _ => False
  | _ => True
  end.

Definition frame (r : router) :=
  (sessionId r, epoch r, limits r, entries r, maxBytes r,
   (nextId r, lastTime r, controlWindow r, controlCount r, welcomed r, out r)).

Record calm (r r' : router) : Prop := {
  calm_frame : frame r' = frame r;
  calm_closed : closed r = true -> closed r' = true;
  calm_subs : subscriptions r' `sublist_of` subscriptions r;
  calm_pubs : publishers r' `sublist_of` publishers r;
  calm_watched : (watched r' <= watched r)%nat;
  calm_cache : cache r' = cache r \/ cache r' = Cache.set_entries [] 0 (cache r);
  calm_log : forall h q n v, Published h q n v ∈ log r' -> Published h q n v ∈ log r;
  calm_good : good r -> good r' /\ Guard.evolves (guard r) (guard r') /\
    exists new, log r' = new ++ log r /\ Forall (quiet (maxBytes r)) new }.

#[export] Instance calm_preorder : PreOrder calm.
Proof.
  split.
  - intros r. split; try done; [by left|]. intros Hg. split_and!; [done | by apply Guard.evolves_refl, Hg |]. by exists [].
  - intros r1 r2 r3 [Hf1 Hc1 Hs1 Hp1 Hw1 Hk1 Hl1 Hg1] [Hf2 Hc2 Hs2 Hp2 Hw2 Hk2 Hl2 Hg2].
    split; [congruence | auto | by etrans | by etrans | lia | | auto |].
    { destruct Hk1 as [H1|H1], Hk2 as [H2|H2]; rewrite H2, H1; auto. }
    intros (Hg & He & new & Hl & Hn)%Hg1. apply Hg2 in Hg as (Hg & He' & new' & Hl' & Hn').
    split_and!; [done | by eapply Guard.evolves_trans |].
    exists (new' ++ new). rewrite Hl', Hl, app_assoc. split; [done|]. apply Forall_app. split; [|done].
    injection Hf1 as _ _ _ _ Hm _. by rewrite <- Hm.
Qed.

Lemma calm_same r r' : calm r r' ->
  sessionId r' = sessionId r /\ epoch r' = epoch r /\ limits r' = limits r /\ entries r' = entries r /\
  maxBytes r' = maxBytes r /\ nextId r' = nextId r /\ welcomed r' = welcomed r /\ out r' = out r.
Proof. intros [Hf _ _ _ _ _ _ _]. by injection Hf as ? ? ? ? ? ? ? ? ? ? ?. Qed.

(** Between states of a router with its transport. *)
Definition calms {E} (s s' : router * E) : Prop := calm s.1 s'.1.
#[export] Instance calms_preorder {E} : PreOrder (@calms E).
Proof. split; [intros s; unfold calms; reflexivity | intros x y z; unfold calms; apply transitivity]. Qed.

(** ** Watched tracks *)

Lemma watched_mset (m : jsmap jsstr VideoRouter.Binding) track b b' :
  mget track m = Some b ->
  (count_watched (mset track b' m) + (if VideoRouter.watching b then 1 else 0)
   = count_watched m + (if VideoRouter.watching b' then 1 else 0))%nat.
Proof.
  unfold count_watched. induction m as [|[k c] m IH]; simpl; [done|]. destruct (decide (track = k)) as [->|].
  - intros [= ->]. simpl. destruct (VideoRouter.watching b), (VideoRouter.watching b'); simpl; lia.
  - intros Hm%IH. simpl. destruct (VideoRouter.watching c); simpl; lia.
Qed.

Section props.
Context {E : Type} (transport_send : jsstr -> list Z -> ST E bool).
Context (guard_hook : Guard.CommandIdentity -> Guard.phase -> ST Guard.guard bool).
Abbreviation peer := (router * E)%type.
Abbreviation mvs := (moves (@calms E)).
Implicit Types s : peer.

(** ** The calm operations *)

Lemma moves_this : mvs this.
Proof. apply moves_gets. apply _. Qed.
Hint Resolve moves_this : bridge.

Lemma this_bind {A} (f : router -> ST peer A) s : (this ≫= f) s = f s.1 s.
Proof. reflexivity. Qed.

Lemma calm_update f : (forall r, calm r (f r)) -> mvs (update (E := E) f).
Proof. intros H s. apply H. Qed.

Lemma calm_note e : (forall max, quiet max e) -> mvs (note (E := E) e).
Proof.
  intros He. apply calm_update. intros r. split; try done; [by left | |].
  { intros h q n v [Heq|]%elem_of_cons; [|done]. subst e. destruct (He 0). }
  intros Hg. split_and!; [by destruct Hg | by apply Guard.evolves_refl, Hg |]. exists [e]. split; [done|]. by constructor.
Qed.

Lemma calm_in_queue {A} (m : ST Queue.queue A) :
  preserves Queue.wf m -> keeps_limit m -> mvs (in_queue (E := E) m).
Proof.
  intros Hw Hl s. unfold in_queue, here, on. specialize (Hl (queue s.1)). specialize (Hw (queue s.1)).
  destruct (m _) as [a q]. simpl in *. split; try done; [by left|]. intros [].
  split_and!; [split; simpl; [auto | congruence | done..] | by apply Guard.evolves_refl | by exists []].
Qed.

Lemma calm_clear_cache : mvs (in_cache (E := E) Cache.clear).
Proof.
  intros s. split; try done; [by right|]. intros [].
  split_and!; [split; simpl; auto; by apply Cache.preserves_clear | by apply Guard.evolves_refl | by exists []].
Qed.

Lemma calm_in_guard {A} (m : ST Guard.guard A) : Guard.sound m -> mvs (in_guard (E := E) m).
Proof.
  intros Hw s. unfold in_guard, here, on. specialize (Hw (guard s.1)). unfold Guard.wp in Hw.
  destruct (m _) as [a g]. split; try done; [by left|]. intros []. destruct Hw as (? & ? & _); [done|].
  split_and!; [split; simpl; auto | done | by exists []].
Qed.

Lemma calm_peek id : mvs (in_queue (E := E) (Queue.peek id)).
Proof.
  assert (H : forall q, (Queue.peek id q).2 = q).
  { intros q. unfold Queue.peek. rewrite ST_bind_eq, Queue.stream_eq. destruct (mget id (Queue.streams q)) as [t|]; [|done]. unfold_st. by destruct (Queue.stopped t). }
  apply calm_in_queue; intros q; by rewrite H.
Qed.

Lemma calm_enqueue id bytes : mvs (in_queue (E := E) (Queue.enqueue id bytes)).
Proof. apply calm_in_queue; [apply Queue.wf_enqueue | apply keeps_limit_enqueue]. Qed.
Lemma calm_dequeue id : mvs (in_queue (E := E) (Queue.dequeue id)).
Proof. apply calm_in_queue; [apply Queue.wf_dequeue | apply keeps_limit_dequeue]. Qed.
Lemma calm_closeStream id : mvs (in_queue (E := E) (Queue.closeStream id)).
Proof. apply calm_in_queue; [apply Queue.wf_closeStream | apply keeps_limit_closeStream]. Qed.

Hint Resolve calm_peek calm_enqueue calm_dequeue calm_closeStream : bridge.

Lemma calm_unsubscribe id : mvs (unsubscribe id).
Proof. unfold unsubscribe. moving. by apply calm_note. Qed.

Hint Resolve calm_unsubscribe : bridge.

Lemma calm_removeSubscription id : mvs (removeSubscription id).
Proof.
  unfold removeSubscription, subscription_of. moving. apply calm_update. intros r. split; try done; simpl.
  - apply sublist_filter.
  - by left.
  - intros Hg. split_and!; [destruct Hg; by split | by apply Guard.evolves_refl, Hg | by exists []].
Qed.
Hint Resolve calm_removeSubscription : bridge.

(** Lookups change nothing. *)
Lemma entry_of_eq name k s :
  entry_of name k s =
    (match mget name (entries s.1) with
     | None => Throw (Error "unauthorized")
     | Some e => if negb (allowed e k s.1) then Throw (Error "unauthorized")
                 else if closed s.1 then Throw (Error "router_closed") else Ok e
     end, s).
Proof.
  unfold entry_of, this. rewrite gets_bind. destruct (mget name (entries s.1)) as [e|]; [|done].
  unfold throw_when. destruct (negb _); [done|]. by destruct (closed s.1).
Qed.
Lemma entry_of_same name k s : (entry_of name k s).2 = s.
Proof. by rewrite entry_of_eq. Qed.

(** *** The media plane *)

Lemma set_flags_eq track w a s :
  VideoRouter.set_flags track w a s = (Ok tt, (set_video (Some
    (match mget track (VideoRouter.bound (VideoRouter.the_video s)) with
     | Some b => VideoRouter.set_bound (mset track (VideoRouter.with_flags w a b)
                   (VideoRouter.bound (VideoRouter.the_video s))) (VideoRouter.the_video s)
     | None => VideoRouter.the_video s end)) s.1, s.2)).
Proof. done. Qed.

Lemma watched_eq s : watched s.1 = count_watched (VideoRouter.bound (VideoRouter.the_video s)).
Proof. unfold watched. simpl. by destruct (video s.1). Qed.

Lemma watched_set v (r : router) : watched (set_video (Some v) r) = count_watched (VideoRouter.bound v).
Proof. done. Qed.

Lemma set_flags_watched track a s b :
  mget track (VideoRouter.bound (VideoRouter.the_video s)) = Some b -> VideoRouter.watching b = true ->
  (watched (VideoRouter.set_flags track false a s).2.1 < watched s.1)%nat.
Proof.
  intros Hb Hw. rewrite (watched_eq s), set_flags_eq, Hb. unfold watched. simpl.
  pose proof (watched_mset _ _ _ (VideoRouter.with_flags false a b) Hb) as H. rewrite Hw in H. simpl in H.  lia.
Qed.

Lemma calm_set_flags track a : mvs (VideoRouter.set_flags track false a).
Proof.
  intros s. rewrite set_flags_eq. unfold calms. simpl. split; try done; [|by left|].
  - rewrite (watched_eq s), watched_set. destruct (mget track _) as [b|] eqn:Hb; [|done].
    cbn [VideoRouter.bound VideoRouter.set_bound]. pose proof (watched_mset _ _ _ (VideoRouter.with_flags false a b) Hb) as H. simpl in *.
    destruct (VideoRouter.watching b); lia.
  - intros Hg. split_and!; [destruct Hg; by split | by apply Guard.evolves_refl, Hg | by exists []].
Qed.
Lemma calm_detach track : mvs (VideoRouter.detach track).
Proof. simpl. moving. by apply calm_note. Qed.
Hint Resolve calm_set_flags calm_detach : bridge.

Lemma calm_release track : mvs (VideoRouter.release track).
Proof. unfold VideoRouter.release. moving. Qed.
Hint Resolve calm_release : bridge.

Lemma calm_viewer_failed send track sl :
  (forall w, mvs (send w)) -> mvs (VideoRouter.viewer_state send track sl Source.Failed).
Proof. intros Hs. unfold VideoRouter.viewer_state. simpl. moving. Qed.

Lemma calm_revalidate send : (forall w, mvs (send w)) -> mvs (VideoRouter.revalidate send).
Proof.
  intros Hs. unfold VideoRouter.revalidate, VideoRouter.recheck. moving. by apply calm_viewer_failed.
Qed.

Lemma calm_video_close : mvs VideoRouter.close.
Proof. unfold VideoRouter.close. moving. Qed.
Hint Resolve calm_video_close : bridge.

(** *** Queues, closing and sending *)

Lemma calm_respond wire : mvs (respond wire).
Proof. unfold respond, enqueue_control. moving. Qed.
Hint Resolve calm_respond : bridge.

Lemma calm_close : mvs close.
Proof.
  unfold close, release_listener. moving.
  all: try (apply calm_update; intros r; split; try done;
    [apply sublist_nil_l | by left | intros Hg; split_and!; [destruct Hg; by split | by apply Guard.evolves_refl, Hg | by exists []]]).
  - apply calm_update. intros r. split; try done; [by left|].
    intros Hg; split_and!; [destruct Hg; by split | by apply Guard.evolves_refl, Hg | by exists []].
  - apply calm_in_guard, sound_revokeSession.
  - apply calm_in_queue; [apply Queue.wf_queue_clear | done].
  - apply calm_clear_cache.
  - by apply calm_note.
Qed.
Hint Resolve calm_close : bridge.

Lemma peek_size id q bytes :
  Queue.wf q -> (Queue.peek id q).1 = Ok (Some bytes) -> 0 < zlength bytes <= Queue.maxMessageBytes q.
Proof.
  intros Hq. unfold Queue.peek. rewrite ST_bind_eq, Queue.stream_eq.
  destruct (mget id (Queue.streams q)) as [t|] eqn:Ht; [|done]. unfold_st.
  destruct (Queue.stopped t); [done|]. simpl. intros [= Hh].
  pose proof (Queue.sw_size _ _ (Queue.wf_stream _ Hq _ _ Ht)) as Hz.
  destruct (Queue.messages t) as [|m ms]; [done|]. injection Hh as ->. by apply Forall_cons in Hz as [? _].
Qed.
Lemma peek_same id q : (Queue.peek id q).2 = q.
Proof.
  unfold Queue.peek. rewrite ST_bind_eq, Queue.stream_eq. destruct (mget id (Queue.streams q)) as [t|]; [|done].
  unfold_st. by destruct (Queue.stopped t).
Qed.

(** Sending a message of an admissible size. *)
Lemma calm_transmit channel bytes s :
  isChannel channel = true -> (good s.1 -> 0 < zlength bytes <= maxBytes s.1) ->
  calms s (transmit transport_send channel bytes s).2.
Proof.
  intros Hc Hb. unfold transmit, on. rewrite ST_bind_eq. simpl.
  destruct (transport_send channel bytes s.2) as [[b|e] t]; simpl; [|unfold calms; reflexivity].
  destruct b; [|unfold calms; reflexivity]. unfold calms. split; try done; [by left | by intros h q n v [|]%elem_of_cons|]. simpl. intros Hg.
  split_and!; [destruct Hg; by split | by apply Guard.evolves_refl, Hg |].
  exists [Sent channel bytes]. split; [done|]. constructor; [|done]. split; [done | by apply Hb].
Qed.

Lemma calm_drain id channel : isChannel channel = true -> mvs (drain transport_send id channel).
Proof.
  intros Hc. unfold drain. apply moves_bind; [apply _ | apply moves_this | intros r].
  generalize (S (backlog id r)). intros fuel.
  induction fuel as [|fuel IH]; simpl; [moving|]. intros s. rewrite ST_bind_eq.
  pose proof (calm_peek id s) as Hp. unfold in_queue, here, on in Hp |- *.
  pose proof (fun bytes => peek_size id (queue s.1) bytes) as Hsz. pose proof (peek_same id (queue s.1)) as Hq.
  destruct (Queue.peek id (queue s.1)) as [[[bytes|]|e] q]; simpl in Hp, Hsz, Hq |- *; try done. subst q.
  rewrite ST_bind_eq. set (s1 := (set_queue (queue s.1) s.1, s.2)) in *.
  assert (Ht : calms s1 (transmit transport_send channel bytes s1).2).
  { apply calm_transmit; [done|]. intros [Hw Hl _ _]. rewrite <- Hl. by apply Hsz. }
  destruct (transmit _ _ _ s1) as [[b|e] s2]; [|by etrans].
  etrans; [exact Hp|]. etrans; [exact Ht|]. destruct b; [|unfold calms; reflexivity].
  apply moves_bind; [apply _ | apply calm_dequeue | intros _; exact IH].
Qed.

Lemma channel_of_ok entry : isChannel (channel_of entry) = true.
Proof. unfold channel_of. by destruct (bool_decide _). Qed.

Section recursion.
Variable fl : ST peer unit.
Hypothesis calm_fl : mvs fl.

Lemma calm_error_with id : mvs (error_with fl id).
Proof. unfold error_with. moving. Qed.
Hint Resolve calm_error_with : bridge.
Lemma calm_event_with wire : mvs (event_with fl wire).
Proof. unfold event_with. moving. Qed.

Lemma calm_flush_streams ids : mvs (flush_streams transport_send fl ids).
Proof.
  induction ids as [|id ids IH]; simpl; [moving|]. unfold entry_of. moving.
  apply calm_drain, channel_of_ok.
Qed.

Lemma calm_flush_body : mvs (flush_body transport_send fl).
Proof.
  unfold flush_body. moving.
  - apply calm_revalidate. intros w. apply calm_event_with.
  - by apply calm_drain.
  - apply calm_flush_streams.
Qed.
End recursion.

Lemma calm_flush_fuel fuel : mvs (flush_fuel transport_send fuel).
Proof. induction fuel as [|fuel IH]; simpl; [moving | by apply calm_flush_body]. Qed.
Lemma calm_flush : mvs (flush transport_send).
Proof. unfold flush. moving. apply calm_flush_fuel. Qed.
Lemma calm_error id : mvs (error transport_send id).
Proof. apply calm_error_with, calm_flush. Qed.
Lemma calm_event wire : mvs (event transport_send wire).
Proof. apply calm_event_with, calm_flush. Qed.

(** ** The equation of [flush] *)

Definition measure (s : peer) : nat := (length (subscriptions s.1) + watched s.1)%nat.

Lemma calms_measure s s' : calms s s' -> (measure s' <= measure s)%nat.
Proof. intros [_ _ Hs _ Hw _ _ _]. apply sublist_length in Hs. unfold measure. lia. Qed.

(** Methods that agree where [measure] is below a bound. *)
Definition agree {A} (k : nat) (m n : ST peer A) : Prop := forall s, (measure s < k)%nat -> m s = n s.

Lemma agree_bind {A B} k (m : ST peer A) (f g : A -> ST peer B) :
  mvs m -> (forall a, agree k (f a) (g a)) -> agree k (m ≫= f) (m ≫= g).
Proof.
  intros Hm Hfg s Hs. rewrite !ST_bind_eq. pose proof (calms_measure _ _ (Hm s)).
  destruct (m s) as [[a|e] s']; [|done]. apply Hfg. simpl in *. lia.
Qed.
Lemma agree_catch {A} k (m n : ST peer A) (h h' : js_error -> ST peer A) :
  mvs m -> agree k m n -> (forall e, agree k (h e) (h' e)) -> agree k (catch m h) (catch n h').
Proof.
  intros Hm Hmn Hh s Hs. unfold catch. rewrite <- Hmn by done. pose proof (calms_measure _ _ (Hm s)).
  destruct (m s) as [[a|e] s']; [done|]. apply Hh. simpl in *. lia.
Qed.
Lemma agree_refl {A} k (m : ST peer A) : agree k m m.
Proof. by intros s _. Qed.

Lemma release_measure track s b :
  mget track (VideoRouter.bound (VideoRouter.the_video s)) = Some b -> VideoRouter.watching b = true ->
  (measure (VideoRouter.release track s).2 < measure s)%nat.
Proof.
  intros Hb Hw. unfold VideoRouter.release. rewrite get_bind, Hb.
  pose proof (set_flags_watched track (VideoRouter.attached b) s b Hb Hw) as Hlt.
  rewrite ST_bind_eq. rewrite set_flags_eq in *. set (s1 := (set_video _ s.1, s.2)) in *.
  assert (Hm : (measure s1 < measure s)%nat) by (unfold measure, s1; simpl in *; lia).
  enough (Hc : calms s1 ((if VideoRouter.attached b then VideoRouter.set_flags track false false;; VideoRouter.detach track else mret tt) s1).2)
    by (apply calms_measure in Hc; lia).
  destruct (VideoRouter.attached b); [|unfold calms; reflexivity].
  apply moves_bind; [apply _ | apply calm_set_flags | intros _; apply calm_detach].
Qed.

Section congruence.
Variables (F G : ST peer unit) (k : nat).
Hypothesis calm_F : mvs F.
Hypothesis FG : agree k F G.

Lemma agree_error_with id : agree k (error_with F id) (error_with G id).
Proof.
  unfold error_with. apply agree_bind; [apply moves_this | intros r]. destruct (closed r); [apply agree_refl|].
  apply agree_catch; [moving | | intros e; apply agree_refl]. by apply agree_bind; [apply calm_respond | intros _].
Qed.
Lemma agree_event_with wire : agree k (event_with F wire) (event_with G wire).
Proof.
  unfold event_with. apply agree_catch; [moving | | intros _; apply agree_error_with].
  by apply agree_bind; [apply calm_respond | intros _].
Qed.

Lemma recheck_eq track s : (measure s <= k)%nat ->
  VideoRouter.recheck (event_with F) track s = VideoRouter.recheck (event_with G) track s.
Proof.
  intros Hs. unfold VideoRouter.recheck. rewrite !get_bind.
  destruct (mget track (VideoRouter.bound (VideoRouter.the_video s))) as [b|] eqn:Hb; [|done]. destruct (VideoRouter.watching b) eqn:Hw; [|done]. simpl.
  destruct (negb _); [|done]. rewrite !ST_bind_eq. pose proof (release_measure track s b Hb Hw) as Hlt.
  destruct (VideoRouter.release track s) as [[u|e] s1]; [|done].
  assert (Hag : agree k (VideoRouter.viewer_state (event_with F) track (VideoRouter.slot b) Source.Failed)
    (VideoRouter.viewer_state (event_with G) track (VideoRouter.slot b) Source.Failed)); [|apply Hag; simpl in *; lia].
  unfold VideoRouter.viewer_state. apply agree_bind; [moving | intros _; apply agree_event_with].
Qed.

Lemma revalidate_eq s : (measure s <= k)%nat ->
  VideoRouter.revalidate (event_with F) s = VideoRouter.revalidate (event_with G) s.
Proof.
  intros Hs. unfold VideoRouter.revalidate. rewrite !get_bind. rewrite !ST_bind_eq.
  enough (H : forall l s, (measure s <= k)%nat ->
    mapS (VideoRouter.recheck (event_with F)) l s = mapS (VideoRouter.recheck (event_with G)) l s) by by rewrite H.
  clear s Hs. induction l as [|track l IH]; intros s Hs; [done|]. simpl. rewrite !ST_bind_eq, <- recheck_eq by done.
  assert (Hc : calms s (VideoRouter.recheck (event_with F) track s).2).
  { unfold VideoRouter.recheck. apply moves_bind; [apply _ | apply moves_get, _ | intros t].
    destruct (mget track (VideoRouter.bound (VideoRouter.the_video t))); [|moving]. destruct (_ && _); [|moving].
    apply moves_bind; [apply _ | apply calm_release | intros _].
    apply calm_viewer_failed. intros w. by apply calm_event_with. }
  apply calms_measure in Hc. destruct (VideoRouter.recheck (event_with F) track s) as [[u|e] s']; [|done].
  rewrite !ST_bind_eq, IH; [done | simpl in *; lia].
Qed.

Lemma removal_measure id s x :
  mget id (subscriptions s.1) = Some x -> (measure (removeSubscription id s).2 < measure s)%nat.
Proof.
  intros Hx. set (s1 := (set_subscriptions (mdelete id (subscriptions s.1)) s.1, s.2)).
  assert (He : removeSubscription id s = (in_queue (Queue.closeStream id) ≫= (fun _ => unsubscribe id)) s1).
  { unfold removeSubscription, subscription_of. rewrite ST_bind_eq. unfold this. rewrite gets_bind, Hx. done. }
  rewrite He. assert (Hc : calms s1 ((in_queue (Queue.closeStream id) ≫= (fun _ => unsubscribe id)) s1).2).
  { apply moves_bind; [apply _ | apply calm_closeStream | intros _; apply calm_unsubscribe]. }
  apply calms_measure in Hc. assert (measure s1 < measure s)%nat.
  { unfold measure, s1. simpl. pose proof (mget_elem _ _ _ Hx) as Hin.
    enough (length (mdelete id (subscriptions s.1)) < length (subscriptions s.1))%nat by (unfold watched in *; simpl; lia).
    apply length_filter_lt with (id, x); [done | by intros []]. }
  lia.
Qed.

Lemma flush_streams_eq ids s : (measure s <= k)%nat ->
  flush_streams transport_send F ids s = flush_streams transport_send G ids s.
Proof.
  revert s. induction ids as [|id ids IH]; intros s Hs; [done|]. simpl. unfold this. rewrite !gets_bind. destruct (mget id (subscriptions s.1)) as [x|] eqn:Hx; [|by apply IH]. rewrite !ST_bind_eq.
  unfold attempt. pose proof (removal_measure id s x Hx) as Hlt.
  pose proof (entry_of_same (publicName (binding (s_entry x))) Subscribe s) as Hsame.
  destruct (entry_of _ _ s) as [[e|e] s0]; simpl in Hsame; subst s0.
  - rewrite !ST_bind_eq. pose proof (calm_drain id _ (channel_of_ok (s_entry x)) s) as Hd%calms_measure.
    destruct (drain _ _ _ s) as [[b|e'] s']; [|done]. destruct b; [|done]. apply IH. simpl in *. lia.
  - rewrite !ST_bind_eq. destruct (removeSubscription id s) as [[u|e'] s']; [|done].
    apply agree_error_with. simpl in *. lia.
Qed.

Lemma flush_body_eq s : (measure s <= k)%nat -> flush_body transport_send F s = flush_body transport_send G s.
Proof.
  intros Hs. unfold flush_body. unfold this. rewrite !gets_bind.
  destruct (closed s.1); [done|]. rewrite !ST_bind_eq.
  assert (Hv : match video s.1 with Some _ => VideoRouter.revalidate (event_with F) | None => mret tt end s =
    match video s.1 with Some _ => VideoRouter.revalidate (event_with G) | None => mret tt end s).
  { destruct (video s.1); [by apply revalidate_eq | done]. }
  rewrite <- Hv. assert (Hc : mvs (match video s.1 with Some _ => VideoRouter.revalidate (event_with F) | None => mret tt end)).
  { destruct (video s.1); [|moving]. apply calm_revalidate. intros w. by apply calm_event_with. }
  specialize (Hc s). apply calms_measure in Hc.
  destruct (match video s.1 with Some _ => VideoRouter.revalidate (event_with F) | None => mret tt end s) as [[u|e] s1]; [|done]. rewrite !ST_bind_eq.
  pose proof (calm_drain control_id CONTROL ltac:(done) s1) as Hd%calms_measure.
  destruct (drain _ _ _ s1) as [[b|e] s2]; [|done]. destruct b; [|done].
  unfold this. rewrite !gets_bind. apply flush_streams_eq. simpl in *. lia.
Qed.
End congruence.

Lemma flush_fuel_enough n : forall m s, (measure s < n)%nat -> (measure s < m)%nat ->
  flush_fuel transport_send n s = flush_fuel transport_send m s.
Proof.
  induction n as [|n IH]; intros m s Hn Hm; [lia|]. destruct m as [|m]; [lia|]. simpl.
  apply (flush_body_eq _ _ (measure s)); [apply calm_flush_fuel | | done].
  intros s' Hs'. apply IH; lia.
Qed.

Lemma flush_eq n s : (measure s < n)%nat -> flush transport_send s = flush_fuel transport_send n s.
Proof. intros Hn. change (flush_fuel transport_send (S (measure s)) s = flush_fuel transport_send n s). apply flush_fuel_enough; lia. Qed.

(** C4: the model of [flush] satisfies the recursion the code writes, without
    fuel: [flush] revalidates, drains and refuses by calling [error] and
    [event], which call [flush] again.  So the recursion of [flush], [error]
    and [event] terminates from every state, and its depth is at most one more
    than the number of subscriptions and watched tracks. *)
Theorem flush_equation s :
  flush transport_send s = flush_body transport_send (flush transport_send) s /\
  forall n, (length (subscriptions s.1) + watched s.1 < n)%nat -> flush_fuel transport_send n s = flush transport_send s.
Proof.
  split; [|intros n Hn; symmetry; by apply flush_eq].
  change (flush_body transport_send (flush_fuel transport_send (measure s)) s = flush_body transport_send (flush transport_send) s).
  apply (flush_body_eq _ _ (measure s)); [apply calm_flush_fuel | | done].
  intros s' Hs'. symmetry. by apply flush_eq.
Qed.
End props.
End RouterProps.
