(* ===== verification/RouterInv.v ===== *)
(** * The invariant of the router

    What holds between the envelopes of a peer: the parts the router owns are
    well formed, its handles stay within their limit, every publisher and
    stream is of a topic of the right direction, and the commands handed to
    ROS under a handle come with increasing sequence numbers. *)

From Stdlib Require Import Sorting.Sorted.
From S2P Require Import Prelude JsMap JsNumber JsString Values SessionValidation CommandGuard CommandGuardProps DeliveryQueue RequestCache ConfigTypes Codec Json Protocol VideoSource VideoRouter Router RouterProps.

Module RouterInv.
Import Router RouterProps.

(** The sequence numbers published under a handle, newest first. *)
Definition command (h : jsstr) (e : effect) : option Z :=
  match e with Published h' seq _ _ => if decide (h' = h) then Some seq else None | _ => None end.
Definition commands (h : jsstr) (l : list effect) : list Z := omap (command h) l.

(** Identifiers the guard or this router has issued. *)
Definition issued (r : router) (h : jsstr) : Prop :=
  Guard.issued (guard r) h \/ exists n, 1 <= n <= nextId r /\ h = tagged (sessionId r) n.

Definition registered (r : router) (e : RouterBinding) : Prop :=
  mget (publicName (binding e)) (entries r) = Some e.

(** A command in the log: a value of a published topic, in its wire type. *)
Definition command_ok (r : router) (e : effect) : Prop :=
  match e with
  | Published h _ name native => issued r h /\ exists entry, mget name (entries r) = Some entry /\
      direction (binding entry) = web_to_ros /\ exists wire, Codec.encode (codec entry) native = Ok wire
  | Sent channel bytes => isChannel channel = true /\ 0 < zlength bytes <= maxBytes r
  | _ => True
  end.

Definition publisher_ok (r : router) (h : jsstr) (p : Publisher) : Prop :=
  issued r h /\ registered r (p_entry p) /\ direction (binding (p_entry p)) = web_to_ros /\
  guarded p = bool_decide (is_Some (commandGuard (binding (p_entry p)))) /\
  Forall (fun seq => seq <= p_seq p) (commands h (log r)).
Definition stream_ok (r : router) (id : jsstr) (x : Subscription) : Prop :=
  (exists n, 1 <= n <= nextId r /\ id = tagged (sessionId r) n) /\
  registered r (s_entry x) /\ direction (binding (s_entry x)) = ros_to_web /\ 0 <= s_seq x.

Record inv (r : router) : Prop := {
  inv_good : good r;
  inv_session : Guard.issued (guard r) (sessionId r);
  inv_next : 0 <= nextId r;
  inv_entries : mall (fun name e => publicName (binding e) = name) (entries r);
  inv_keys : NoDup (mkeys (subscriptions r)) /\ NoDup (mkeys (publishers r));
  inv_count : msize (subscriptions r) + msize (publishers r) <= maxHandles (limits r);
  inv_streams : mall (stream_ok r) (subscriptions r);
  inv_publishers : mall (publisher_ok r) (publishers r);
  inv_log : Forall (command_ok r) (log r);
  inv_order : forall h, StronglySorted Z.gt (commands h (log r)) }.

(** ** Identifiers never collide *)

Lemma digits_no_colon n : 0 <= n -> 58 ∉ Z_to_js n.
Proof.
  intros Hn. unfold Z_to_js. rewrite (proj2 (Z.ltb_ge n 0)) by lia.
  destruct (Z_digits_spec n) as (_ & Ha & _); [done|]. intros Hin. rewrite Forall_forall in Ha.
  specialize (Ha _ Hin). unfold Regex.digit, Regex.between in Ha. bools. lia.
Qed.

Lemma session_tags_apart g sid n : Guard.issued g sid -> 1 <= n -> ~ Guard.issued g (tagged sid n).
Proof.
  intros (k & Hk & ->) Hn (m & Hm & Heq). unfold tagged in Heq. rewrite <- !app_assoc in Heq.
  apply app_inv_head in Heq. simpl in Heq. injection Heq as Heq.
  apply (digits_no_colon m); [lia|]. rewrite <- Heq. apply elem_of_app. right. left.
Qed.

(** ** Growing states *)

(** Later states issue more and keep the topics and the limits. *)
Record grows (r r' : router) : Prop := {
  gr_session : sessionId r' = sessionId r;
  gr_next : nextId r <= nextId r';
  gr_entries : entries r' = entries r;
  gr_max : maxBytes r' = maxBytes r;
  gr_guard : forall h, Guard.issued (guard r) h -> Guard.issued (guard r') h }.

Lemma grows_issued r r' h : grows r r' -> issued r h -> issued r' h.
Proof.
  intros [Hs Hn _ _ Hg] [Hi|(n & Hle & ->)]; [left; auto | right; exists n; rewrite Hs; split; [lia | done]].
Qed.
Lemma grows_command r r' e : grows r r' -> command_ok r e -> command_ok r' e.
Proof.
  intros Hg. destruct e; simpl; try done; [by rewrite (gr_max _ _ Hg)|].
  intros [Hi Hn]. split; [by eapply grows_issued | by rewrite (gr_entries _ _ Hg)].
Qed.
Lemma grows_stream r r' id x : grows r r' -> stream_ok r id x -> stream_ok r' id x.
Proof.
  intros [Hs Hn He _ _] ((n & Hle & ->) & Hr & Hd). split; [exists n; rewrite Hs; split; [lia | done]|].
  unfold registered. by rewrite He.
Qed.
Lemma grows_publisher r r' h p : grows r r' -> commands h (log r') = commands h (log r) ->
  publisher_ok r h p -> publisher_ok r' h p.
Proof.
  intros Hg Hl (Hi & Hr & Hd & Hgd & Hf). unfold publisher_ok, registered. rewrite Hl, (gr_entries _ _ Hg).
  split_and!; try done. by eapply grows_issued.
Qed.

(** Changes that keep the tables or shrink them, and log nothing new for ROS. *)
Lemma inv_shrink r r' :
  inv r -> grows r r' -> good r' -> limits r' = limits r ->
  subscriptions r' `sublist_of` subscriptions r -> publishers r' `sublist_of` publishers r ->
  (exists new, log r' = new ++ log r /\ Forall (quiet (maxBytes r)) new) -> inv r'.
Proof.
  intros [Hgd Hs Hn He [Hk1 Hk2] Hc Hst Hp Hl Ho] Hg Hgd' Hlim Hsub Hpub (new & Hlog & Hq).
  assert (Hcmd : forall h, commands h (log r') = commands h (log r)).
  { intros h. unfold commands. rewrite Hlog, omap_app. replace (omap (command h) new) with (@nil Z); [done|].
    symmetry. clear - Hq. induction Hq as [|e new Hqe _ IH]; [done|]. simpl. by destruct e. }
  assert (Hmall : forall V (P : jsstr -> V -> Prop) (m m' : jsmap jsstr V), m' `sublist_of` m -> mall P m -> mall P m').
  { intros V P m m' Hm. unfold mall. rewrite !Forall_forall. intros H x Hx. apply H.
    apply (sublist_subseteq _ _ Hm), Hx. }
  assert (Hnd : forall V (m m' : jsmap jsstr V), m' `sublist_of` m -> NoDup (mkeys m) -> NoDup (mkeys m')).
  { intros V m m' Hm Hnd. eapply sublist_NoDup; [exact Hnd|]. exact (fmap_sublist fst _ _ Hm). }
  assert (Hsz : forall V (m m' : jsmap jsstr V), m' `sublist_of` m -> msize m' <= msize m).
  { intros V m m' Hm%sublist_length. unfold msize, zlength. lia. }
  split.
  - done.
  - rewrite (gr_session _ _ Hg). by apply Hg.
  - pose proof (gr_next _ _ Hg). lia.
  - by rewrite (gr_entries _ _ Hg).
  - split; [by eapply Hnd | by eapply Hnd].
  - rewrite Hlim. pose proof (Hsz _ _ _ Hsub). pose proof (Hsz _ _ _ Hpub). lia.
  - eapply mall_impl; [by eapply Hmall|]. intros id x. by apply grows_stream.
  - eapply mall_impl; [by eapply Hmall|]. intros h p. by apply grows_publisher.
  - rewrite Hlog. apply Forall_app. split.
    + eapply Forall_impl; [exact Hq|]. intros []; simpl; try done. by rewrite (gr_max _ _ Hg).
    + eapply Forall_impl; [exact Hl|]. intros e. by apply grows_command.
  - intros h. by rewrite Hcmd.
Qed.

Lemma calm_inv r r' : calm r r' -> inv r -> inv r'.
Proof.
  intros [Hf _ Hs Hp _ _ _ Hg] Hi. destruct (Hg (inv_good _ Hi)) as (Hgd & He & Hl).
  injection Hf as H1 H2 H3 H4 H5 H6 H7 H8 H9 H10 H11.
  apply (inv_shrink r r'); try done. split; try done; [lia|]. intros h. by apply Guard.issued_evolves.
Qed.
End RouterInv.
