(* ===== verification/RouterOps.v ===== *)
(** * Every operation keeps the router's invariant

    [RouterInv.inv] through subscribing, advertising, publishing, the video
    operations and the envelopes that ask for them. *)

From Stdlib Require Import Sorting.Sorted.
From S2P Require Import Prelude JsMap JsNumber JsString Values SessionValidation CommandGuard CommandGuardProps CommandGuardRuns DeliveryQueue RequestCache ConfigTypes Codec Json Protocol VideoSource VideoRouter Router RouterProps RouterInv.

Module RouterOps.
Import Router RouterProps RouterInv.

(** ** State changes *)

Lemma sublist_refl {A} (l : list A) : l `sublist_of` l.
Proof. done. Qed.
#[local] Hint Resolve sublist_refl : core.

(** The fields the invariant does not look at. *)
Lemma inv_neutral (f : router -> router) r :
  (queue (f r), cache (f r), guard (f r), sessionId (f r), limits (f r), entries (f r)) =
    (queue r, cache r, guard r, sessionId r, limits r, entries r) ->
  (subscriptions (f r), publishers (f r), maxBytes (f r), log (f r)) = (subscriptions r, publishers r, maxBytes r, log r) ->
  nextId r <= nextId (f r) -> inv r -> inv (f r).
Proof.
  intros [= H1 H2 H3 H4 H5 H6] [= H7 H8 H9 H10] Hn Hi. apply (inv_shrink r); try done.
  - split; try done. by rewrite H3.
  - destruct (inv_good _ Hi). split; congruence.
  - by rewrite H7.
  - by rewrite H8.
  - by exists [].
Qed.

Lemma inv_set_stream r id x x' :
  inv r -> mget id (subscriptions r) = Some x -> s_entry x' = s_entry x -> 0 <= s_seq x' ->
  inv (set_subscriptions (mset id x' (subscriptions r)) r).
Proof.
  intros [[] Hs Hn He [Hk1 Hk2] Hc Hst Hp Hl Ho] Hx Hex Hq. split; try done; simpl.
  - split; [by apply NoDup_mset | done].
  - rewrite msize_mset_old; [done | by rewrite Hx].
  - apply mall_set; [done|]. pose proof (mall_get _ _ _ _ Hst Hx) as (Ht & Hr & Hd & _).
    unfold stream_ok, registered in *. by rewrite Hex.
Qed.

(** Identifiers under which nothing has happened yet. *)
Definition unused (r : router) (h : jsstr) : Prop :=
  issued r h /\ mget h (publishers r) = None /\ commands h (log r) = [].
Definition room (r : router) : Prop := msize (subscriptions r) + msize (publishers r) < maxHandles (limits r).

Lemma unused_of r r' h :
  inv r -> ~ issued r h -> issued r' h -> publishers r' = publishers r -> log r' = log r -> unused r' h.
Proof.
  intros Hi Hn Hi' Hp Hl. unfold unused. rewrite Hp, Hl. split_and!; [done| |].
  - destruct (mget h (publishers r)) as [p|] eqn:Hg; [|done]. exfalso. apply Hn.
    by destruct (mall_get _ _ _ _ (inv_publishers _ Hi) Hg).
  - pose proof (inv_log _ Hi) as Hlog. clear Hl. unfold commands.
    induction Hlog as [|e l He _ IH]; [done|]. simpl. destruct e; simpl; try done.
    destruct (decide _) as [->|]; [|done]. by destruct He.
Qed.

Lemma inv_add_stream r id e :
  inv r -> (exists n, 1 <= n <= nextId r /\ id = tagged (sessionId r) n) -> room r ->
  mget id (subscriptions r) = None -> registered r e -> direction (binding e) = ros_to_web ->
  inv (set_subscriptions (mset id {| s_entry := e; ready := false; s_seq := 0; s_nextAt := S754_zero false |}
    (subscriptions r)) r).
Proof.
  intros [[] Hs Hn He [Hk1 Hk2] Hc Hst Hp Hl Ho] Ht Hr Hnone Hreg Hd. unfold room in Hr. split; try done; simpl.
  - split; [by apply NoDup_mset | done].
  - rewrite msize_mset_new by done. lia.
  - apply mall_set; [done|]. split_and!; try done.
Qed.

Lemma inv_add_publisher r h e :
  inv r -> unused r h -> room r -> registered r e -> direction (binding e) = web_to_ros ->
  inv (set_publishers (mset h {| p_entry := e; guarded := bool_decide (is_Some (commandGuard (binding e)));
    p_seq := -1; p_nextAt := S754_zero false |} (publishers r)) r).
Proof.
  intros [[] Hs Hn He [Hk1 Hk2] Hc Hst Hp Hl Ho] (Hi & Hnone & Hcmd) Hr Hreg Hd. unfold room in Hr. split; try done; simpl.
  - split; [done | by apply NoDup_mset].
  - rewrite msize_mset_new by done. lia.
  - apply mall_set; [done|]. unfold publisher_ok. simpl. by rewrite Hcmd.
Qed.

(** Taking a sequence number, and then handing the command over. *)
Lemma inv_take r h p q t :
  inv r -> mget h (publishers r) = Some p -> p_seq p < q ->
  inv (set_publishers (mset h (with_published q t p) (publishers r)) r) /\
  Forall (fun seq => seq < q) (commands h (log r)).
Proof.
  intros [[] Hs Hn He [Hk1 Hk2] Hc Hst Hp Hl Ho] Hg Hq.
  pose proof (mall_get _ _ _ _ Hp Hg) as (Hi & Hr & Hd & Hgd & Hf). split.
  - split; try done; simpl.
    + split; [done | by apply NoDup_mset].
    + rewrite msize_mset_old; [done | by rewrite Hg].
    + apply mall_set; [done|]. split_and!; try done. eapply Forall_impl; [exact Hf|]. simpl. lia.
  - eapply Forall_impl; [exact Hf|]. simpl. lia.
Qed.

Lemma inv_command r h p name native :
  inv r -> mget h (publishers r) = Some p -> Forall (fun seq => seq < p_seq p) (commands h (log r)) ->
  command_ok r (Published h (p_seq p) name native) ->
  inv (set_log (Published h (p_seq p) name native :: log r) r).
Proof.
  intros [[] Hs Hn He [Hk1 Hk2] Hc Hst Hp Hl Ho] Hg Hlt Hok.
  assert (Hcmd : forall h', commands h' (Published h (p_seq p) name native :: log r) =
    if decide (h = h') then p_seq p :: commands h' (log r) else commands h' (log r)).
  { intros h'. unfold commands. simpl. by destruct (decide (h = h')). }
  split; try done; simpl.
  - apply mall_intro; [done|]. intros h' p' Hg'. pose proof (mall_get _ _ _ _ Hp Hg') as (? & ? & ? & ? & Hf).
    split_and!; try done. change (Forall (fun seq => seq <= p_seq p') (commands h' (Published h (p_seq p) name native :: log r))).
    rewrite Hcmd. destruct (decide (h = h')) as [<-|]; [|done].
    rewrite Hg in Hg'. injection Hg' as <-. constructor; [lia | done].
  - by constructor.
  - intros h'. change (StronglySorted Z.gt (commands h' (Published h (p_seq p) name native :: log r))). rewrite Hcmd. destruct (decide (h = h')) as [<-|]; [|done]. constructor; [done|].
    eapply Forall_impl; [exact Hlt|]. simpl. lia.
Qed.

(** ** Operations *)

Section ops.
Context {E : Type} (transport_send : jsstr -> list Z -> ST E bool).
Context (guard_hook : Guard.CommandIdentity -> Guard.phase -> ST Guard.guard bool) `{!SoundHook guard_hook}.
Abbreviation peer := (router * E)%type.
Implicit Types s : peer.

Definition pinv s : Prop := inv s.1.
Abbreviation keeps := (preserves pinv).

Lemma keeps_calm {A} (m : ST peer A) : moves calms m -> keeps m.
Proof. apply moves_preserves. intros s s'. apply calm_inv. Qed.

Lemma keeps_update f : (forall r, inv r -> inv (f r)) -> keeps (update (E := E) f).
Proof. intros H s Hs. by apply H. Qed.
Lemma keeps_this : keeps this.
Proof. apply preserves_gets. Qed.

Lemma keeps_get {B} (f : peer -> ST peer B) : (forall x, keeps (f x)) -> keeps (get ≫= f).
Proof. intros Hf. apply preserves_get_bind. intros x. apply Hf. Qed.
Lemma keeps_in_video {A} (m : ST VideoRouter.video A) : keeps (VideoRouter.in_video m).
Proof.
  apply preserves_on. intros s. unfold pinv. simpl. by apply (inv_neutral (set_video (Some _))).
Qed.

(** Reduce preservation to that of the steps. *)
Ltac keeping :=
  repeat match goal with
  | |- preserves _ (get ≫= _) => apply keeps_get; intros ?
  | |- preserves _ (_ ≫= _) => apply preserves_bind; [| intros ?]
  | |- preserves _ (if ?b then _ else _) => destruct b
  | |- preserves _ (match ?x with _ => _ end) => destruct x
  | |- preserves _ (mapS _ _) => apply preserves_mapS; intros ?
  | |- preserves _ (catch _ _) => apply preserves_catch; [| intros ?]
  | |- preserves _ (attempt _) => apply preserves_attempt
  | |- preserves _ (VideoRouter.in_video _) => apply keeps_in_video
  | |- preserves _ (mret _) => apply preserves_ret
  | |- preserves _ (mthrow _) => apply preserves_throw
  | |- preserves _ (lift _) => apply preserves_lift
  | |- preserves _ (throw_when _ _) => apply preserves_throw_when
  | |- preserves _ this => apply keeps_this
  | H : _ |- preserves _ _ => solve [apply H]
  end.

Lemma keeps_now : keeps now.
Proof. unfold now. keeping. apply keeps_update. intros r. by apply inv_neutral. Qed.

Lemma keeps_video_operation wire id : keeps (VideoRouter.operation (event transport_send) wire id).
Proof.
  assert (Hst : forall t sl st, keeps (VideoRouter.viewer_state (event transport_send) t sl st)).
  { intros. unfold VideoRouter.viewer_state, VideoRouter.set_flags. keeping. apply keeps_calm, calm_event. }
  unfold VideoRouter.operation, VideoRouter.bind, VideoRouter.set_flags. simpl VideoRouter.attach.
  keeping.
  - apply keeps_calm. by apply calm_note.
  - apply keeps_calm, calm_release.
Qed.

Lemma keeps_in_guard {A} (m : ST Guard.guard A) : Guard.sound m -> keeps (in_guard m).
Proof. intros Hm. by apply keeps_calm, calm_in_guard. Qed.

(** What a lookup of a topic gives. *)
Lemma entry_of_facts name k s e :
  pinv s -> (entry_of name k s).1 = Ok e ->
  mget name (entries s.1) = Some e /\ publicName (binding e) = name /\ registered s.1 e /\
  direction (binding e) = direction_of k /\ allowed e k s.1 = true /\ closed s.1 = false.
Proof.
  intros Hi. rewrite entry_of_eq. simpl. destruct (mget name (entries s.1)) as [e'|] eqn:He; [|done].
  destruct (allowed e' k s.1) eqn:Ha; [|done]. destruct (closed s.1); [done|]. intros [= ->].
  pose proof (mall_get _ _ _ _ (inv_entries _ Hi) He) as Hn. simpl in Hn. unfold registered. rewrite Hn.
  split_and!; try done. unfold allowed in Ha. bools. done.
Qed.

Lemma triple_entry_of name k (P : peer -> Prop) Q :
  (forall s, P s -> pinv s) ->
  (forall s e, P s -> registered s.1 e -> direction (binding e) = direction_of k -> publicName (binding e) = name ->
    allowed e k s.1 = true -> closed s.1 = false -> Q e s) ->
  triple pinv P (entry_of name k) Q.
Proof.
  intros HP HQ s Hs. pose proof (fun e => entry_of_facts name k s e (HP _ Hs)) as Hf. rewrite entry_of_eq in *. simpl in Hf.
  destruct (match mget name (entries s.1) with Some _ => _ | None => _ end) as [e|e]; [|auto].
  destruct (Hf e eq_refl) as (_ & ? & ? & ? & ? & ?). auto.
Qed.

Lemma triple_this (P : peer -> Prop) (Q : router -> peer -> Prop) :
  (forall s, P s -> Q s.1 s) -> triple pinv P this Q.
Proof. apply triple_gets. Qed.

(** *** Subscribing and advertising *)

Definition roomy (e : RouterBinding) (d : Direction) s : Prop :=
  pinv s /\ room s.1 /\ registered s.1 e /\ direction (binding e) = d.

Lemma roomy_calm e d s s' : calms s s' -> roomy e d s -> roomy e d s'.
Proof.
  intros Hc (Hi & Hr & Hreg & Hd). split_and!; [by eapply calm_inv | | | done].
  - unfold room in *. pose proof (sublist_length _ _ (calm_subs _ _ Hc)). pose proof (sublist_length _ _ (calm_pubs _ _ Hc)).
    destruct (calm_same _ _ Hc) as (_ & _ & -> & _). unfold msize, zlength in *. lia.
  - unfold registered in *. by destruct (calm_same _ _ Hc) as (_ & _ & _ & -> & _).
Qed.

(** A new router identifier. *)
Definition tagged_here (r : router) (h : jsstr) : Prop := exists n, 1 <= n <= nextId r /\ h = tagged (sessionId r) n.

Lemma triple_id e d :
  triple pinv (roomy e d) id (fun h s => roomy e d s /\ unused s.1 h /\ tagged_here s.1 h /\ mget h (subscriptions s.1) = None).
Proof.
  intros s (Hi & Hr & Hreg & Hd). unfold id. simpl. pose proof (inv_next _ Hi) as Hn.
  set (r' := set_nextId (nextId s.1 + 1) s.1). set (h := tagged (sessionId s.1) (nextId s.1 + 1)).
  assert (Hi' : inv r') by (apply (inv_neutral (fun r => set_nextId (nextId s.1 + 1) r)); try done; simpl; lia).
  assert (Ht : tagged_here r' h) by (exists (nextId s.1 + 1); simpl; split; [lia | done]).
  split_and!; try done.
  - apply (unused_of s.1 r'); try done; [|by right].
    intros [Hg|(n & Hle & Heq%tagged_inj)]; [|lia]. by apply (session_tags_apart _ _ _ (inv_session _ Hi)) in Hg; [|lia].
  - destruct (mget h (subscriptions s.1)) as [x|] eqn:Hx; [|done]. exfalso.
    destruct (mall_get _ _ _ _ (inv_streams _ Hi) Hx) as ((n & Hle & Heq%tagged_inj) & _). lia.
Qed.

Lemma keeps_subscribe e requestId :
  triple pinv (roomy e ros_to_web) (subscribe e requestId) (fun _ => pinv).
Proof.
  unfold subscribe. eapply triple_bind; [apply triple_id | intros h; simpl].
  set (P := fun s => roomy e ros_to_web s /\ tagged_here s.1 h /\ mget h (subscriptions s.1) = None).
  assert (HP : forall s s', calms s s' -> P s -> P s').
  { intros s s' Hc (Hr & Ht & Hm). split_and!; [by eapply roomy_calm | |].
    - unfold tagged_here in *. by destruct (calm_same _ _ Hc) as (-> & _ & _ & _ & _ & -> & _).
    - apply mget_None. intros Hin. apply mget_None in Hm. apply Hm.
      by apply (sublist_subseteq _ _ (fmap_sublist fst _ _ (calm_subs _ _ Hc))). }
  assert (HPi : forall s, P s -> pinv s) by (by intros s (Hr & _); apply Hr).
  assert (Hcalm : forall A (m : ST peer A), moves calms m -> triple pinv P m (fun _ => P)).
  { intros A m Hm s Hs. specialize (Hm s). pose proof (HP _ _ Hm Hs) as Hs'. destruct (m s) as [[a|x] s']; auto. }
  eapply triple_bind with (Q := fun _ => P).
  { eapply triple_conseq; [apply Hcalm, calm_in_queue; [apply Queue.wf_register | apply keeps_limit_register] | |]; [|done].
    intros s (Hr & _ & Ht & Hm). done. }
  intros ?. eapply triple_bind with (Q := fun _ => pinv).
  { apply triple_catch.
    - eapply triple_bind; [apply triple_this with (Q := fun _ => P); done | intros r].
      eapply triple_bind with (Q := fun _ => P); [apply triple_lift; auto | intros ?].
      eapply triple_bind with (Q := fun _ => P); [by apply Hcalm, calm_note | intros ?].
      apply triple_modify. intros s ((Hi & Hr & Hreg & Hd) & Ht & Hm). by apply inv_add_stream.
    - intros x. eapply triple_bind; [apply triple_preserves, keeps_calm, calm_closeStream | intros ?; by apply triple_throw]. }
  intros ?. eapply triple_bind; [apply triple_this with (Q := fun _ => pinv); done | intros r; by apply triple_ret].
Qed.

Lemma keeps_advertise e requestId :
  triple pinv (roomy e web_to_ros) (advertise guard_hook e requestId) (fun _ => pinv).
Proof.
  unfold advertise. eapply triple_bind; [apply triple_this with (Q := fun _ => roomy e web_to_ros); done | intros r].
  eapply triple_bind with (Q := fun h s => roomy e web_to_ros s /\ unused s.1 h).
  { destruct (commandGuard (binding e)) as [g|].
    - intros s Hs. pose proof (calm_in_guard (E := E) _ (sound_openHandle guard_hook (sessionId r)
        (VStr (rosTopic (binding e))) (Some (VNum (of_Z (ConfigTypes.leaseMs g))))) s) as Hc.
      pose proof (roomy_calm _ _ _ _ Hc Hs) as Hs'. destruct Hs as (Hi & _).
      pose proof (wp_openHandle guard_hook (sessionId r) (VStr (rosTopic (binding e)))
        (Some (VNum (of_Z (ConfigTypes.leaseMs g)))) (guard s.1) (good_guard _ (inv_good _ Hi))) as (_ & He & Hpost).
      unfold in_guard, here, on in *. destruct (Guard.openHandle _ _ _ _ _) as [[h|x] g']; simpl in *; [|by apply Hs'].
      split; [done|]. destruct (Hpost h eq_refl) as [Hn Hh].
      apply (unused_of s.1); try done; [|by left].
      intros [Hx|(n & Hle & ->)]; [done|].
      apply (session_tags_apart g' (sessionId s.1) n); [|lia|done]. apply (Guard.issued_evolves _ _ _ He), Hi.
    - eapply triple_conseq; [apply triple_id | done | by intros h s (? & ? & _)]. }
  intros h. eapply triple_bind with (Q := fun _ => pinv).
  { apply triple_modify. intros s ((Hi & Hr & Hreg & Hd) & Hu). by apply inv_add_publisher. }
  intros ?. by apply triple_ret.
Qed.

Lemma keeps_arm_or_unadvertise arm wire requestId : keeps (arm_or_unadvertise guard_hook arm wire requestId).
Proof.
  unfold arm_or_unadvertise, publisher_of, entry_of. keeping.
  - apply keeps_in_guard, sound_arm, _.
  - apply keeps_in_guard, sound_closeHandle.
  - apply keeps_update. intros r Hi. eapply (inv_shrink r); [done | split; done | | done | done | apply sublist_filter | by exists []].
    destruct (inv_good _ Hi). by split.
Qed.

Lemma keeps_operation wire requestId : keeps (operation transport_send guard_hook wire requestId).
Proof.
  unfold operation. destruct (is_str "subscribe" _ || _) eqn:Hop.
  - apply (preserves_triple pinv _ (fun _ => pinv)); [|done]. eapply triple_bind; [apply triple_preserves, preserves_lift | intros ?].
    eapply triple_bind; [apply triple_preserves, preserves_lift | intros topic].
    set (k := if is_str "subscribe" _ then Subscribe else Publish).
    eapply triple_bind with (Q := fun e s => pinv s /\ registered s.1 e /\ direction (binding e) = direction_of k).
    { by apply triple_entry_of. }
    intros e. eapply triple_bind with (Q := fun r s => r = s.1 /\ pinv s /\ registered s.1 e /\ direction (binding e) = direction_of k).
    { by apply triple_this. }
    intros r. eapply triple_bind with (Q := fun _ => roomy e (direction_of k)).
    { apply triple_throw_when; [by intros s (_ & ? & _)|]. intros s (-> & Hi & Hr & Hd) Hlt. bools. done. }
    intros ?. subst k. destruct (is_str "subscribe" _); [apply keeps_subscribe | apply keeps_advertise].
  - keeping.
    + apply keeps_calm, calm_removeSubscription.
    + apply keeps_video_operation.
    + apply keeps_arm_or_unadvertise.
Qed.
End ops.
End RouterOps.
