(* ===== verification/RouterRuns.v ===== *)
(** * Runs of a router

    Envelopes, samples, keyframe requests, changes of the surroundings and a
    close, in any order from a construction, and what they never do. *)

From Stdlib Require Import Sorting.Sorted.
From S2P Require Import Prelude JsMap JsNumber JsString Values SessionValidation CommandGuard CommandGuardProps CommandGuardRuns DeliveryQueue RequestCache ConfigTypes Codec Json Protocol VideoSource VideoRouter Router RouterProps RouterInv RouterOps.

Module RouterRuns.
Import Router RouterProps RouterInv RouterOps.

Section ops.
Context {E : Type} (transport_send : jsstr -> list Z -> ST E bool).
Context (guard_hook : Guard.CommandIdentity -> Guard.phase -> ST Guard.guard bool) `{!SoundHook guard_hook}.
Abbreviation peer := (router * E)%type.
Implicit Types s : peer.
Abbreviation keeps := (preserves (pinv (E := E))).

(** ** What an operation may change

    [R] is any relation that allows calm steps and changes of the state that
    keep the cache, the log and the message size; answering a request allows
    no more. *)

Section kept.
Context (R : peer -> peer -> Prop) `{!PreOrder R}.
Hypothesis R_calm : forall s s', calms s s' -> R s s'.
Hypothesis R_set : forall s r, maxBytes r = maxBytes s.1 -> cache r = cache s.1 -> log r = log s.1 -> R s (r, s.2).
Abbreviation mv := (moves R).

Lemma kept_calm {A} (m : ST peer A) : moves calms m -> mv m.
Proof. intros H s. apply R_calm, H. Qed.
Lemma kept_update f : (forall r, maxBytes (f r) = maxBytes r /\ cache (f r) = cache r /\ log (f r) = log r) -> mv (update (E := E) f).
Proof. intros H s. destruct (H s.1) as (? & ? & ?). by apply R_set. Qed.
Lemma kept_this : mv this.
Proof. apply moves_gets. apply _. Qed.
Lemma kept_in_queue {A} (m : ST Queue.queue A) : mv (in_queue m).
Proof. intros s. unfold in_queue, here, on. destruct (m _). by apply R_set. Qed.
Lemma kept_in_guard {A} (m : ST Guard.guard A) : mv (in_guard m).
Proof. intros s. unfold in_guard, here, on. destruct (m _). by apply R_set. Qed.
Lemma kept_in_video {A} (m : ST VideoRouter.video A) : mv (VideoRouter.in_video m).
Proof. intros s. unfold VideoRouter.in_video, on. destruct (m _). by apply R_set. Qed.
Lemma kept_note e : (forall max, quiet max e) -> mv (note e).
Proof. intros H. by apply kept_calm, calm_note. Qed.
Hint Resolve kept_this kept_in_queue kept_in_guard kept_in_video kept_note : bridge.

Lemma kept_viewer_state t sl st : mv (VideoRouter.viewer_state (event transport_send) t sl st).
Proof. unfold VideoRouter.viewer_state, VideoRouter.set_flags. moving. apply kept_calm, calm_event. Qed.

Lemma kept_video_operation wire id : mv (VideoRouter.operation (event transport_send) wire id).
Proof.
  pose proof kept_viewer_state as Hst. unfold VideoRouter.operation, VideoRouter.bind, VideoRouter.set_flags. simpl VideoRouter.attach. moving.
  all: first [by apply kept_note | apply kept_calm, calm_release].
Qed.

Lemma kept_operation wire requestId : mv (operation transport_send guard_hook wire requestId).
Proof.
  unfold operation, subscribe, advertise, arm_or_unadvertise, entry_of, id, publisher_of. moving.
  all: first [by apply kept_update | by apply kept_note | apply kept_calm, calm_removeSubscription | apply kept_video_operation].
Qed.
End kept.

(** Answering may close the router, which clears the cache; nothing else an
    operation does touches it. *)
Definition cache_kept s s' : Prop :=
  maxBytes s'.1 = maxBytes s.1 /\ (cache s'.1 = cache s.1 \/ cache s'.1 = Cache.set_entries [] 0 (cache s.1)).
#[export] Instance cache_kept_preorder : PreOrder cache_kept.
Proof.
  split; [by intros s; split; [|left]|]. intros s1 s2 s3 [Hm1 H1] [Hm2 H2]. split; [congruence|].
  destruct H1 as [H1|H1], H2 as [H2|H2]; rewrite H2, H1; auto.
Qed.
Lemma operation_keeps_cache wire requestId : moves cache_kept (operation transport_send guard_hook wire requestId).
Proof.
  apply kept_operation; [apply _ | | by intros s r ? ? _; split; [|left]].
  intros s s' H. split; [by destruct (calm_same _ _ H) as (_&_&_&_&?&_) | apply H].
Qed.

(** ** Answering *)

Lemma keeps_respond wire : keeps (respond wire).
Proof. apply keeps_calm, calm_respond. Qed.
Lemma keeps_enqueue_control bytes : keeps (enqueue_control bytes).
Proof. apply keeps_calm. unfold enqueue_control. moving. apply calm_enqueue. Qed.

(** Replacing the cache. *)
Lemma inv_set_cache c r : inv r -> Cache.wf c -> inv (set_cache c r).
Proof.
  intros Hi Hc. apply (inv_shrink r); try done; [|by exists []]. destruct (inv_good _ Hi). by split.
Qed.

(** Room for an answer of the maximal size. *)
Definition admitted (requestId input : jsstr) (n : Z) s : Prop :=
  pinv s /\ maxBytes s.1 = n /\ mget requestId (Cache.entries (cache s.1)) = None /\
  msize (Cache.entries (cache s.1)) < Cache.maxEntries (cache s.1) /\
  n + zlength input * 2 <= Cache.maxBytes (cache s.1) - Cache.bytes (cache s.1).

Lemma admitted_kept requestId input n s s' :
  admitted requestId input n s -> cache_kept s s' -> pinv s' -> admitted requestId input n s'.
Proof.
  intros (Hi & Hm & Hn & Hs & Hb) [Hm' Hc] Hi'. unfold admitted. split; [done|]. split; [congruence|].
  destruct Hc as [->| ->]; [done|]. simpl. pose proof (Cache.cache_bytes_nonneg _ (good_cache _ (inv_good _ Hi))).
  pose proof (msize_nonneg (Cache.entries (cache s.1))). split_and!; [done | rewrite (zlength_nil : msize [] = 0); lia | lia].
Qed.

Lemma triple_lookup requestId input t n :
  triple pinv (fun s => pinv s /\ maxBytes s.1 = n) (in_cache (Cache.lookup requestId input t)) (fun o s =>
    pinv s /\ maxBytes s.1 = n /\ (o = None -> mget requestId (Cache.entries (cache s.1)) = None /\
      msize (Cache.entries (cache s.1)) < Cache.maxEntries (cache s.1))).
Proof.
  intros s [Hi Hm]. unfold in_cache, here, on. pose proof (Cache.wf_lookup requestId input t (cache s.1) (good_cache _ (inv_good _ Hi))) as Hw.
  pose proof (inv_set_cache _ _ Hi Hw) as Hi'. rewrite Cache.lookup_eq in *. simpl in *.
  destruct (mget requestId (Cache.entries (Cache.live t (cache s.1)))) as [e|] eqn:He.
  - by destruct (decide _).
  - destruct (Z.leb_spec (Cache.maxEntries (Cache.live t (cache s.1))) (msize (Cache.entries (Cache.live t (cache s.1))))); [done|].
    by split_and!.
Qed.

Lemma keeps_answer wire requestId : keeps (answer transport_send guard_hook wire requestId).
Proof.
  unfold answer. apply preserves_bind; [apply preserves_lift | intros input]. set (inp := default _ input).
  apply preserves_bind; [apply keeps_now | intros t].
  assert (H : forall n, triple pinv (fun s => pinv s /\ maxBytes s.1 = n) (in_cache (Cache.lookup requestId inp t) ≫= (fun cached =>
    match cached with
    | Some bytes => enqueue_control bytes
    | None => r ← this; in_cache (Cache.reserve (maxBytes r + zlength inp * 2));;
        response ← operation transport_send guard_hook wire requestId;
        bytes ← lift (encodeWire response (maxBytes r));
        in_cache (Cache.store requestId inp bytes t);; enqueue_control bytes
    end)) (fun _ => pinv)).
  { intros n. eapply triple_bind; [apply triple_lookup|]. intros [bytes|].
    { eapply triple_conseq; [apply triple_preserves, keeps_enqueue_control | by intros s (? & _) | done]. }
    eapply triple_bind with (Q := fun r s => maxBytes r = n /\ pinv s /\ maxBytes s.1 = n /\
      mget requestId (Cache.entries (cache s.1)) = None /\ msize (Cache.entries (cache s.1)) < Cache.maxEntries (cache s.1)).
    { apply triple_this. intros s (? & ? & H). destruct (H eq_refl). done. }
    intros r. eapply triple_bind with (Q := fun _ s => maxBytes r = n /\ admitted requestId inp n s).
    { intros s (Hr & Hi & Hm & Hn & Hs). unfold in_cache, here, on, Cache.reserve. unfold_st.
      destruct (Z.ltb_spec (Cache.maxBytes (cache s.1) - Cache.bytes (cache s.1)) (maxBytes r + zlength inp * 2)); simpl.
      - by apply inv_set_cache, Hi.
      - split; [done|]. split; [by apply inv_set_cache, Hi|]. rewrite <- Hr in *. done. }
    intros ?. eapply triple_bind with (Q := fun _ s => maxBytes r = n /\ admitted requestId inp n s).
    { intros s [Hr Ha]. pose proof (keeps_operation transport_send guard_hook wire requestId s (proj1 Ha)) as Hi'.
      pose proof (admitted_kept _ _ _ _ _ Ha (operation_keeps_cache wire requestId s) Hi') as Ha'.
      destruct (operation _ _ _ _ s) as [[response|e] s']; [done | exact Hi']. }
    intros response. eapply triple_bind with (Q := fun bytes s => zlength bytes <= n /\ admitted requestId inp n s).
    { apply triple_lift; [by intros s (_ & ? & _)|]. intros bytes s [Hr Ha] Hb. split; [|done]. rewrite <- Hr.
      unfold encodeWire in Hb. inv_res. bools. by subst bytes. }
    intros bytes. eapply triple_bind with (Q := fun _ => pinv); [|intros ?; apply triple_preserves, keeps_enqueue_control].
    intros s (Hb & Hi & Hm & Hn & Hs & Hroom). unfold in_cache, here, on.
    pose proof (Cache.wf_store requestId inp bytes t (cache s.1) (good_cache _ (inv_good _ Hi)) Hn Hs ltac:(lia)) as Hw.
    simpl in *. by apply inv_set_cache. }
  intros s Hs. specialize (H (maxBytes s.1) s (conj Hs eq_refl)). simpl in H.
  match goal with |- context [(?m s).2] => destruct (m s) as [[u|e] s'] end; exact H.
Qed.

Lemma keeps_hello wire : keeps (hello wire).
Proof.
  unfold hello. apply preserves_bind; [apply preserves_lift | intros _].
  apply preserves_bind; [apply keeps_this | intros r]. apply preserves_bind; [apply preserves_throw_when | intros _].
  apply keeps_get. intros s. apply preserves_bind; [apply keeps_respond | intros _].
  apply keeps_update. intros r'. by apply inv_neutral.
Qed.

Lemma keeps_control wire requestId : keeps (control transport_send guard_hook wire requestId).
Proof.
  unfold control. destruct (is_str "hello" _); [apply keeps_hello|].
  apply preserves_bind; [apply keeps_this | intros r]. apply preserves_bind; [apply preserves_throw_when | intros _].
  destruct (is_str "ready" _); [|destruct requestId; [apply keeps_answer | apply preserves_throw]].
  apply preserves_bind; [apply preserves_lift | intros _]. apply preserves_bind; [apply preserves_lift | intros id].
  intros s Hs. unfold subscription_of. rewrite ST_bind_eq. unfold this. rewrite gets_bind.
  destruct (mget id (subscriptions s.1)) as [x|] eqn:Hx; [|exact Hs]. simpl.
  apply (inv_set_stream _ _ x); [done | done | done |].
  by destruct (mall_get _ _ _ _ (inv_streams _ Hs) Hx) as (_ & _ & _ & ?).
Qed.

(** ** Publishing *)

(** A command under way: its publisher, its topic, and the sequence numbers
    already used under its handle. *)
Record under_way (h : jsstr) (p : Publisher) (e : RouterBinding) (s : peer) : Prop := {
  uw_inv : pinv s;
  uw_publisher : mget h (publishers s.1) = Some p;
  uw_entry : registered s.1 e;
  uw_direction : direction (binding e) = web_to_ros }.
Definition next_up (h : jsstr) (p : Publisher) (e : RouterBinding) (s : peer) : Prop :=
  under_way h p e s /\ Forall (fun seq => seq < p_seq p) (commands h (log s.1)).

Lemma under_way_guard h p e g s :
  under_way h p e s -> pinv (set_guard g s.1, s.2) -> under_way h p e (set_guard g s.1, s.2).
Proof. by intros [] ?. Qed.

Lemma triple_in_guard {A} (m : ST Guard.guard A) h p e (R : peer -> Prop) :
  Guard.sound m -> (forall s, R s -> under_way h p e s) ->
  (forall s g, R s -> pinv (set_guard g s.1, s.2) -> R (set_guard g s.1, s.2)) ->
  triple pinv R (in_guard m) (fun _ => R).
Proof.
  intros Hm HR Hg s Hs. pose proof (keeps_in_guard (E := E) m Hm s (uw_inv _ _ _ _ (HR _ Hs))) as Hi.
  unfold in_guard, here, on in *. destruct (m (guard s.1)) as [[a|x] g]; simpl in *; [by apply Hg | done].
Qed.

Lemma keeps_hand_over h p e seq native :
  p_seq p = seq -> triple pinv (next_up h p e) (hand_over e h seq native) (fun _ => pinv).
Proof.
  intros Hseq. unfold hand_over. eapply triple_bind with (Q := fun _ => next_up h p e).
  { apply triple_entry_of; [by intros s [[] _] | done]. }
  intros ?. eapply triple_bind with (Q := fun _ s => next_up h p e s /\ exists w, Codec.encode (codec e) native = Ok w).
  { apply triple_lift; [by intros s [[] _]|]. intros w s Hs Hw. split; [done | by exists w]. }
  intros ?. eapply triple_bind with (Q := fun _ s => next_up h p e s /\ exists w, Codec.encode (codec e) native = Ok w).
  { by apply triple_this. }
  intros r. eapply triple_bind with (Q := fun _ => pinv); [|intros ?; by apply triple_lift].
  apply triple_modify. intros s ([[Hi Hp He Hd] Hlt] & Hw). rewrite <- Hseq. apply inv_command; try done.
  split; [by destruct (mall_get _ _ _ _ (inv_publishers _ Hi) Hp)|]. by exists e.
Qed.

Lemma keeps_publish channel wire : keeps (publish guard_hook channel wire).
Proof.
  apply (preserves_triple pinv _ (fun _ => pinv)); [|done]. unfold publish.
  eapply triple_bind; [apply triple_preserves, preserves_lift | intros ?].
  eapply triple_bind; [apply triple_preserves, keeps_this | intros r].
  eapply triple_bind; [apply triple_preserves, preserves_throw_when | intros ?].
  eapply triple_bind; [apply triple_preserves, preserves_lift | intros handle].
  eapply triple_bind with (Q := fun p s => pinv s /\ mget handle (publishers s.1) = Some p).
  { intros s Hs. unfold publisher_of, this. rewrite gets_bind. unfold lift. by destruct (mget handle (publishers s.1)) eqn:Hp. }
  intros p. eapply triple_bind with (Q := fun e => under_way handle p e).
  { apply triple_entry_of; [by intros s [? _]|]. by intros s e [? ?] ? ? ? ? ?. }
  intros e. set (K := under_way handle p e). assert (HK : forall s, K s -> pinv s) by (by intros s []).
  assert (Hlift : forall A (x : result A), triple pinv K (lift x) (fun _ => K)) by (intros; by apply triple_lift; auto).
  assert (Hthrow : forall b x, triple pinv K (throw_when b x) (fun _ => K)) by (intros; by apply triple_throw_when; auto).
  eapply triple_bind; [apply Hthrow | intros ?].
  eapply triple_bind; [apply Hlift | intros text]. eapply triple_bind; [apply Hlift | intros seq].
  eapply triple_bind with (Q := fun _ => K).
  { intros s Hs. pose proof (keeps_now (E := E) s (HK _ Hs)) as Hi. unfold now in *. unfold this in *. rewrite gets_bind in *.
    cbv zeta in *. destruct (_ || _); [done|]. simpl in *. by destruct Hs. }
  intros t. eapply triple_bind with (Q := fun _ s => K s /\ p_seq p < seq).
  { apply triple_throw_when; [done|]. intros s Hs Hb. bools. done. }
  intros ?. eapply triple_bind with (Q := fun _ s => K s /\ p_seq p < seq).
  { apply triple_lift; [by intros s [? _]; apply HK | done]. }
  intros native. eapply triple_bind with (Q := fun _ s => K s /\ p_seq p < seq).
  { destruct (guarded p).
    - eapply triple_bind with (Q := fun _ s => K s /\ p_seq p < seq).
      { apply triple_lift; [by intros s [? _]; apply HK | done]. }
      intros lease. eapply triple_bind with (Q := fun _ s => K s /\ p_seq p < seq); [|intros k; by apply triple_ret].
      apply (triple_in_guard _ handle p e); [apply sound_prepare, _ | by intros s [? _] |].
      intros s g [Hs Hq] Hi. split; [by apply under_way_guard | done].
    - eapply triple_bind with (Q := fun _ s => K s /\ p_seq p < seq); [|intros ?; by apply triple_ret].
      apply triple_throw_when; [by intros s [? _]; apply HK | done]. }
  intros ticket. set (p' := with_published seq (nadd t (ndiv (of_Z 1000) (maxRateHz (binding e)))) p).
  eapply triple_bind with (Q := fun _ => next_up handle p' e).
  { apply triple_modify. intros s [[Hi Hp He Hd] Hq]. destruct (inv_take _ _ _ seq (nadd t (ndiv (of_Z 1000) (maxRateHz (binding e)))) Hi Hp Hq) as [Hi' Hf].
    split; [|done]. split; try done. simpl. apply mget_mset_eq. }
  intros ?. eapply triple_bind with (Q := fun _ => next_up handle p' e).
  { destruct ticket as [k|]; [|by apply triple_ret]. eapply triple_bind with (Q := fun _ => next_up handle p' e); [|intros ?; by apply triple_ret].
    apply (triple_in_guard _ handle p' e).
    - intros g Hw. eapply Guard.wp_conseq; [by apply wp_reserve | done].
    - by intros s [? _].
    - intros s g [Hs Hq] Hi. split; [by apply under_way_guard | done]. }
  intros ?. eapply triple_bind; [by apply (keeps_hand_over handle p')|].
  intros ?. apply triple_preserves, keeps_respond.
Qed.

(** ** Samples and envelopes *)

Lemma keeps_flush : keeps (flush transport_send).
Proof. apply keeps_calm, calm_flush. Qed.
Lemma keeps_error id : keeps (error transport_send id).
Proof. apply keeps_calm, calm_error. Qed.

Lemma keeps_sample id native : keeps (sample transport_send id native).
Proof.
  intros s Hs. unfold sample. rewrite this_bind. destruct (mget id (subscriptions s.1)) as [x|] eqn:Hx; [|done].
  destruct (negb (ready x)); [done|]. revert s Hs Hx.
  set (P := fun s : peer => pinv s /\ exists y, mget id (subscriptions s.1) = Some y /\ s_entry y = s_entry x).
  assert (Hq : forall s, pinv s -> mget id (subscriptions s.1) = Some x -> 0 <= s_seq x).
  { intros s Hs Hx. by destruct (mall_get _ _ _ _ (inv_streams _ Hs) Hx) as (_ & _ & _ & ?). }
  assert (Hset : forall n t, 0 <= n -> triple pinv P (update (fun r => set_subscriptions (mset id (with_next n t x) (subscriptions r)) r)) (fun _ => P)).
  { intros n t Hn. apply triple_modify. intros s (Hi & y & Hy & He). split; [by apply (inv_set_stream _ _ y)|].
    exists (with_next n t x). split; [apply mget_mset_eq | done]. }
  assert (HP : forall s, P s -> pinv s) by (by intros s [? _]).
  enough (Hall : 0 <= s_seq x -> triple pinv P (catch (sample_body transport_send id native x) (fun _ =>
    r ← this; (if mhas id (subscriptions r) then removeSubscription id else mret tt);; error transport_send None)) (fun _ => pinv)).
  { intros s Hs Hx. assert (HPs : P s) by (split; [done | by exists x]). specialize (Hall (Hq s Hs Hx) s HPs).
    destruct (catch _ _ s) as [[u|e] s']; exact Hall. }
  intros Hn. apply triple_catch.
  - unfold sample_body. eapply triple_bind with (Q := fun _ => P); [by apply triple_entry_of; auto | intros e].
    eapply triple_bind with (Q := fun _ => P).
    { intros s Hs. pose proof (keeps_now (E := E) s (HP _ Hs)) as Hi. unfold now, this in *. rewrite gets_bind in *.
      cbv zeta in *. destruct (_ || _); [by apply HP|]. simpl in *. by destruct Hs. }
    intros t. destruct (nltb _ _); [by apply triple_ret|]. cbv zeta.
    eapply triple_bind; [by apply Hset | intros ?]. eapply triple_bind with (Q := fun _ => P); [apply triple_lift; auto | intros ?].
    eapply triple_bind with (Q := fun _ => P); [apply triple_lift; auto | intros data].
    eapply triple_bind; [apply Hset; lia | intros ?]. eapply triple_bind with (Q := fun _ => P); [by apply triple_this | intros r].
    eapply triple_bind with (Q := fun _ => P); [apply triple_lift; auto | intros bytes].
    eapply triple_bind with (Q := fun _ => pinv).
    { eapply triple_conseq; [apply triple_preserves, keeps_calm, calm_enqueue | done | done]. }
    intros ?. apply triple_preserves, keeps_flush.
  - intros x'. apply triple_preserves. apply preserves_bind; [apply keeps_this | intros r].
    apply preserves_bind; [apply preserves_if; [apply keeps_calm, calm_removeSubscription | apply preserves_ret] | intros _; apply keeps_error].
Qed.

Lemma keeps_admit channel raw : keeps (admit_wire channel raw).
Proof.
  unfold admit_wire, controlRate. apply preserves_bind; [apply preserves_throw_when | intros _].
  apply preserves_bind.
  { apply preserves_if; [|apply preserves_ret]. apply preserves_bind; [apply keeps_now | intros t]. cbv zeta.
    apply preserves_bind; [apply keeps_update; intros r; destruct (neqb _ _); [done | by apply (inv_neutral (fun r => set_controlCount 0 (set_controlWindow (nfloor (ndiv t (of_Z 1000))) r)))] | intros _].
    apply preserves_bind; [apply keeps_update; intros r; by apply (inv_neutral (fun r => set_controlCount (controlCount r + 1) r)) | intros _].
    apply preserves_bind; [apply keeps_this | intros r; apply preserves_throw_when]. }
  intros _. apply preserves_bind; [apply keeps_this | intros r]. apply preserves_bind; [apply preserves_lift | intros wire].
  destruct (is_undefined _); [apply preserves_ret|]. apply preserves_bind; [apply preserves_lift | intros; apply preserves_ret].
Qed.

Lemma keeps_receive channel raw : keeps (receive transport_send guard_hook channel raw).
Proof.
  unfold receive. apply preserves_bind; [apply keeps_this | intros r]. destruct (closed r); [apply preserves_ret|].
  apply preserves_bind; [apply preserves_attempt, keeps_admit | intros [[wire requestId]|e]]; [|apply keeps_error].
  apply preserves_bind; [|intros [?|?]; [apply preserves_ret | apply keeps_error]].
  apply preserves_attempt, preserves_bind; [|intros _; apply keeps_flush].
  apply preserves_if; [apply keeps_control | apply keeps_publish].
Qed.

(** ** Runs

    The peer's envelopes, the transport's [flush] and [close], ROS samples,
    the callbacks of the media plane, and what changes around the router: the
    clock, the permissions and the answers of ROS and media ([Surroundings]),
    the other users of the guard ([Elsewhere]), and the transport. *)

Inductive action :=
| Receive (channel : jsstr) (raw : list Z)
| Flush
| Close
| Sample (id : jsstr) (native : jsval)
| ViewerState (track : jsstr) (st : VideoRouter.VideoState)
| KeyframeRequest (mid : jsstr)
| Surroundings (o : outside)
| Elsewhere (ops : list CommandGuardRuns.op)
| Transport (f : E -> E).

Definition perform (a : action) s : peer :=
  match a with
  | Receive channel raw => (receive transport_send guard_hook channel raw s).2
  | Flush => (flush transport_send s).2
  | Close => (close s).2
  | Sample id native => (sample transport_send id native s).2
  | ViewerState track st =>
      match mget track (VideoRouter.bound (VideoRouter.the_video s)) with
      | Some b => (VideoRouter.viewer_state (event transport_send) track (VideoRouter.slot b) st s).2
      | None => s
      end
  | KeyframeRequest m => (VideoRouter.on_keyframe_request m s).2
  | Surroundings o => (set_out o (set_guard (Guard.set_clock (clock o) (guard s.1)) s.1), s.2)
  | Elsewhere ops => (set_guard (CommandGuardRuns.run guard_hook ops (guard s.1)).2 s.1, s.2)
  | Transport f => (s.1, f s.2)
  end.
Definition run (actions : list action) s : peer := fold_left (fun s a => perform a s) actions s.

Lemma inv_guard_moves g r : inv r -> Guard.wf g -> Guard.evolves (guard r) g -> inv (set_guard g r).
Proof.
  intros Hi Hg He. apply (inv_shrink r); try done; [| |by exists []].
  - split; try done. intros h. by apply Guard.issued_evolves.
  - destruct (inv_good _ Hi). by split.
Qed.

Lemma keeps_perform a s : pinv s -> pinv (perform a s).
Proof.
  intros Hs. destruct a; simpl.
  - by apply keeps_receive.
  - by apply keeps_flush.
  - by apply (keeps_calm close calm_close).
  - by apply keeps_sample.
  - destruct (mget track _) as [b|]; [|done]. revert s Hs. apply preserves_bind; [|intros _; apply keeps_calm, calm_event].
    apply preserves_if; [apply keeps_in_video | apply preserves_ret].
  - revert s Hs. apply keeps_get. intros s. destruct (find _ _) as [[t b]|]; [|apply preserves_ret].
    apply preserves_if; [|apply preserves_ret]. simpl. apply preserves_bind; [apply keeps_this | intros r; apply preserves_lift].
  - apply (inv_neutral (set_out o)); try done.
    destruct (exec_sound guard_hook (Clock (clock o)) (guard s.1) (good_guard _ (inv_good _ Hs))). by apply inv_guard_moves.
  - destruct (run_sound guard_hook ops (guard s.1) (good_guard _ (inv_good _ Hs))). by apply inv_guard_moves.
  - done.
Qed.
Lemma keeps_run actions s : pinv s -> pinv (run actions s).
Proof. revert s. induction actions as [|a actions IH]; intros s Hs; [done|]. simpl. by apply IH, keeps_perform. Qed.
End ops.

(** ** Construction *)

Definition valid_limits (l : Limits) : Prop := 0 < ConfigTypes.maxMessageBytes l /\ 0 < maxPeerQueueBytes l.

Lemma copy_entries_ok topics l : forall m m', mall (fun name e => publicName (binding e) = name) m ->
  copy_entries topics l m = Ok m' -> mall (fun name e => publicName (binding e) = name) m'.
Proof.
  induction l as [|e l IH]; intros m m' Hm; simpl; [by intros [= <-]|]. intros H. inv_res.
  eapply IH; [|exact H]. by apply mall_set.
Qed.

Lemma prepare_inv o g env r :
  Guard.wf g -> valid_limits (ConfigTypes.limits (opt_config o)) -> prepare o g env = Ok r ->
  good r /\ guard r = g /\ mall (fun name e => publicName (binding e) = name) (entries r) /\ 0 <= maxHandles (limits r) /\
  (nextId r, subscriptions r, publishers r, log r) = (0, [], [], []).
Proof.
  intros Hg [Hm Hb] H. unfold prepare in H. inv_res.
  match goal with H : context [Queue.register ?a ?b ?c ?q] |- _ =>
    pose proof (Queue.wf_register a b c q) as Hw; pose proof (keeps_limit_register a b c q) as Hl;
    destruct (Queue.register a b c q) as [[u|e] q']; [|discriminate H] end.
  injection H as <-. simpl in *.
  match goal with H : Queue.constructor _ = Ok _ |- _ => pose proof (Queue.queue_constructor_wf _ _ H) as Hq; unfold Queue.constructor in H; inv_res; subst end.
  simpl in *. repeat match goal with H : positiveLimit _ = Ok _ |- _ => apply positiveLimit_Ok in H as (? & [= ?] & ? & ?) end. subst.
  rewrite to_Z_of_Z in * by (unfold MAX_SAFE_INTEGER; lia). simplify_eq.
  split_and!; try done.
  - match goal with H : (if ?b then Ok _ else _) = Ok _ |- _ => destruct b; [injection H as Hlim | done] end.
    split; simpl; [auto | by rewrite Hlim | apply Cache.cache_constructor_wf; lia | done].
  - match goal with H : copy_entries _ _ _ = Ok _ |- _ => apply (copy_entries_ok _ _ _ _) in H; [exact H | constructor] end.
  - lia.
Qed.

Lemma router_constructor_inv o g env r g' :
  Guard.wf g -> valid_limits (ConfigTypes.limits (opt_config o)) -> constructor o g env = (Ok r, g') -> inv r.
Proof.
  intros Hg Hl. unfold constructor. destruct (prepare o g env) as [r0|e] eqn:Hp; [|done].
  destruct (prepare_inv _ _ _ _ Hg Hl Hp) as (Hgood & Hgd & He & Hmh & [= Hn Hs Hpub Hlog]).
  rewrite ST_bind_eq. unfold now. rewrite this_bind. cbv zeta. destruct (_ || _); [done|]. simpl.
  unfold in_guard, here, on. simpl. rewrite Hgd.
  destruct (wp_openSession (VStr (epoch r0)) g Hg) as (Hw & Hev & Hid).
  destruct (Guard.openSession (VStr (epoch r0)) g) as [[sid|x] g1]; [|done]. simpl in *. intros [= <- <-].
  destruct Hgood. split; simpl; rewrite ?Hn, ?Hs, ?Hpub, ?Hlog; try done; [by apply Hid | split; apply NoDup_nil_2 | apply Forall_nil_2.. | intros h; apply SSorted_nil].
Qed.

Lemma constructor_log o g env r g' :
  Guard.wf g -> valid_limits (ConfigTypes.limits (opt_config o)) -> constructor o g env = (Ok r, g') -> log r = [].
Proof.
  intros Hg Hl. unfold constructor. destruct (prepare o g env) as [r0|e] eqn:Hp; [|done].
  destruct (prepare_inv _ _ _ _ Hg Hl Hp) as (_ & _ & _ & _ & [= _ _ _ Hlog]).
  rewrite ST_bind_eq. unfold now. rewrite this_bind. cbv zeta. destruct (_ || _); [done|]. simpl.
  unfold in_guard, here, on. simpl. destruct (Guard.openSession _ _) as [[sid|x] g1]; [|done]. by intros [= <- <-].
Qed.

(** ** Properties of every run *)

Section properties.
Context {E : Type} (transport_send : jsstr -> list Z -> ST E bool).
Context (guard_hook : Guard.CommandIdentity -> Guard.phase -> ST Guard.guard bool) `{!SoundHook guard_hook}.

(** C2: whatever a peer sends and however ROS, the media plane, the transport
    and the other peers behave, a router keeps its handles within their limit,
    its queue, its request cache and the shared guard well formed and within
    their budgets, and hands the transport only messages of the three channels,
    neither empty nor above the negotiated size. *)
Theorem router_bounded o g env r0 g' (e : E) actions :
  Guard.wf g -> valid_limits (ConfigTypes.limits (opt_config o)) -> constructor o g env = (Ok r0, g') ->
  let r := (run transport_send guard_hook actions (r0, e)).1 in
  msize (subscriptions r) + msize (publishers r) <= maxHandles (limits r) /\
  Queue.wf (queue r) /\ Cache.wf (cache r) /\ Guard.wf (guard r) /\
  forall channel bytes, Sent channel bytes ∈ log r -> isChannel channel = true /\ 0 < zlength bytes <= maxBytes r.
Proof.
  intros Hg Hl Hc r. pose proof (router_constructor_inv _ _ _ _ _ Hg Hl Hc) as Hi.
  pose proof (keeps_run transport_send guard_hook actions (r0, e) Hi) as [Hgd _ _ _ _ Hn _ _ Hlog _]. fold r in Hgd, Hn, Hlog.
  destruct Hgd. split_and!; try done; intros channel bytes Hin; rewrite Forall_forall in Hlog; apply (Hlog _ Hin).
Qed.

(** C3: over every run, the commands a router hands to ROS under one handle
    carry strictly increasing sequence numbers, so a command is never repeated
    or reordered, whatever handles are opened, closed and reopened; and each
    value goes to a topic configured from the web to ROS and has the wire form
    its codec requires. *)
Theorem commands_in_order o g env r0 g' (e : E) actions :
  Guard.wf g -> valid_limits (ConfigTypes.limits (opt_config o)) -> constructor o g env = (Ok r0, g') ->
  let r := (run transport_send guard_hook actions (r0, e)).1 in
  (forall h i j a b, (i < j)%nat -> commands h (rev (log r)) !! i = Some a -> commands h (rev (log r)) !! j = Some b -> a < b) /\
  forall h seq name native, Published h seq name native ∈ log r -> exists entry, mget name (entries r) = Some entry /\
    direction (binding entry) = web_to_ros /\ exists wire, Codec.encode (codec entry) native = Ok wire.
Proof.
  intros Hg Hl Hc r. pose proof (router_constructor_inv _ _ _ _ _ Hg Hl Hc) as Hi.
  pose proof (keeps_run transport_send guard_hook actions (r0, e) Hi) as [_ _ _ _ _ _ _ _ Hlog Ho]. fold r in Hlog, Ho.
  split.
  - intros h i j a b Hij Ha Hb. specialize (Ho h).
    assert (Hrev : commands h (rev (log r)) = rev (commands h (log r))).
    { unfold commands. generalize (log r). intros l. induction l as [|x l IH]; [done|]. simpl. rewrite omap_app, IH. simpl.
      destruct (command h x); [done | by rewrite app_nil_r]. }
    rewrite Hrev, rev_alt in Ha, Hb. change (rev_append ?l []) with (reverse l) in Ha, Hb. clear Hrev. revert i j a b Hij Ha Hb.
    induction Ho as [|x l Hs IH Hx]; intros i j a b Hij; [done|]. rewrite reverse_cons. intros Ha Hb.
    apply lookup_snoc_Some in Hb as [[Hj Hb]|[-> <-]].
    + apply lookup_snoc_Some in Ha as [[_ Ha]|[-> _]]; [exact (IH _ _ _ _ Hij Ha Hb) | lia].
    + apply lookup_snoc_Some in Ha as [[_ Ha]|[-> _]]; [|lia]. apply list_elem_of_lookup_2 in Ha. rewrite elem_of_reverse in Ha.
      rewrite Forall_forall in Hx. specialize (Hx _ Ha). lia.
  - intros h seq name native Hin. rewrite Forall_forall in Hlog. by destruct (Hlog _ Hin).
Qed.
End properties.
End RouterRuns.
