(* ===== verification/RouterDemo.v ===== *)
(** * Concrete sessions

    One configuration and some conversations with a router, by which the
    properties are shown to apply. *)

From S2P Require Import Prelude JsMap JsNumber JsString Values SessionValidation CommandGuard CommandGuardProps CommandGuardRuns DeliveryQueue RequestCache ConfigTypes CodecTypes Codec Json Protocol Endpoint VideoSource VideoRouter Router RouterProps RouterInv RouterOps RouterRuns.

Module RouterDemo.
Import Router RouterRuns.

Definition topic (name : string) (d : Direction) (g : option TopicGuard) : TopicBinding := {|
  publicName := js name; rosTopic := js "/ros" ++ js name; rosType := js "std_msgs/msg/Bool"; direction := d;
  qos := {| reliability := Reliable; durability := Volatile; history := KeepLast; depth := 1 |};
  delivery := DReliable; maxRateHz := of_Z 10; ConfigTypes.queue := {| ConfigTypes.policy := QFifo; ConfigTypes.maxMessages := 4 |};
  access := None; commandGuard := g |}.
Definition bool_codec : Codec.codec := {|
  Codec.schema := FBoolean; Codec.options := {| CodecTypes.maxDepth := 4; CodecTypes.maxArrayLength := 4; CodecTypes.maxStringBytes := 64;
    CodecTypes.maxByteLength := 64; CodecTypes.maxNodes := 8; CodecTypes.allowNonFinite := false |} |}.
Definition entry (b : TopicBinding) : RouterBinding := {| binding := b; Router.codec := bool_codec; schemaId := js "s1" |}.
Definition odom := entry (topic "/odom" ros_to_web None).
Definition lamp := entry (topic "/lamp" web_to_ros None).
Definition drive := entry (topic "/drive" web_to_ros (Some {| ConfigTypes.leaseMs := 500 |})).

Definition options : RouterOptions := {|
  opt_config := {| robotId := js "r"; ConfigTypes.limits := {| maxPeers := 2; ConfigTypes.maxMessageBytes := 1024;
    maxPeerQueueBytes := 65536; maxChannelBufferedBytes := 65536 |}; topics := map binding [odom; lamp; drive] |};
  opt_bindings := [odom; lamp; drive]; opt_epoch := VStr (js "e1");
  opt_maxHandles := VNum (of_Z 2); opt_maxRequests := VNum (of_Z 4); opt_requestTtlMs := VNum (of_Z 1000);
  opt_maxControlRateHz := VNum (of_Z 20); opt_callbacks := true; opt_video := None |}.

(** Everything is allowed and everything around the router answers. *)
Definition calm_world (t : Z) : outside := {|
  clock := of_Z t; authorize := Some (fun _ _ => true);
  ros_subscribe := fun _ => None; ros_unsubscribe := fun _ => None; ros_publish := fun _ _ => None;
  media_catalog := []; media_authorize := fun _ => true; media_profile := fun _ => Ok 66;
  media_attach := fun _ => ([], None); media_detach := fun _ => None; media_keyframe := fun _ => None |}.

(** A transport that takes messages while it is [true]. *)
Definition send (_ : jsstr) (_ : list Z) : ST bool bool := get.
Definition hook : Guard.CommandIdentity -> Guard.phase -> ST Guard.guard bool := fun _ _ => mret true.
#[export] Instance demo_router_hook : SoundHook hook := pure_hook (fun _ _ => true).

Definition guard0 : Guard.guard := CommandGuardRuns.demo_guard.
(** A placeholder for the case that never arises. *)
Definition nothing : router := {|
  sessionId := []; epoch := []; limits := {| maxHandles := 0; maxRequests := 0; requestTtlMs := 0; maxControlRateHz := 0 |};
  entries := []; subscriptions := []; publishers := [];
  queue := {| Queue.maxStreams := 0; Queue.maxBytes := 0; Queue.maxMessageBytes := 0; Queue.streams := []; Queue.bytes := 0; Queue.dropped := 0 |};
  cache := Cache.constructor 0 0 0; video := None; maxBytes := 0; nextId := 0; lastTime := NaN; controlWindow := NaN;
  controlCount := 0; welcomed := false; closed := true; guard := guard0; out := calm_world 0; log := [] |}.
Definition made (o : RouterOptions) : router :=
  match constructor o guard0 (calm_world 100) with (Ok r, _) => r | _ => nothing end.
Definition start : router := made options.

(** JSON text written with single quotes. *)
Definition json (s : string) : list Z := utf8 (map (fun c => if c =? 39 then 34 else c) (js s)).
Definition run := RouterRuns.run send hook.
Definition replies (s : router * bool) : list string :=
  omap (fun e => match e with Sent _ bytes => Some (string_of_list_ascii (map (fun z => ascii_of_N (Z.to_N z)) bytes)) | _ => None end) (rev (log s.1)).

(** A peer arms the drive topic and publishes on it. *)
Definition arming : list (action (E := bool)) := [
  Receive CONTROL (json "{'v':1,'op':'hello'}");
  Receive CONTROL (json "{'v':1,'op':'subscribe','id':'r1','topic':'/odom'}");
  Receive CONTROL (json "{'v':1,'op':'advertise','id':'r2','topic':'/drive'}");
  Receive CONTROL (json "{'v':1,'op':'arm','id':'r3','handle':'g:2'}");
  Receive CONTROL (json "{'v':1,'op':'ready','stream_id':'g:1:1'}");
  Sample (js "g:1:1") (VBool true)].
Definition drive_on (seq : string) : action (E := bool) :=
  Receive RELIABLE (json ("{'v':1,'op':'publish','handle':'g:2','epoch':'e1','seq':'" ++ seq ++ "','lease_id':'g:3','data':true}")).
Definition session : list action :=
  arming ++ [drive_on "5"; drive_on "5"; Surroundings (calm_world 300); drive_on "6"; Flush].
Definition ended : router := (RouterRuns.run send hook session (start, true)).1.
Definition guard1 : Guard.guard := (constructor options guard0 (calm_world 100)).2.

Lemma demo_valid : valid_limits (ConfigTypes.limits (opt_config options)).
Proof. done. Qed.
Lemma demo_constructed : constructor options guard0 (calm_world 100) = (Ok start, guard1).
Proof. vm_compute. reflexivity. Qed.
Lemma demo_guard_wf : Guard.wf guard0.
Proof. eapply CommandGuardRuns.guard_constructor_wf, CommandGuardRuns.demo_guard_constructed. Qed.

Lemma router_bounded_witness :
  msize (subscriptions ended) + msize (publishers ended) = 2 /\ maxHandles (limits ended) = 2 /\
  msize (subscriptions ended) + msize (publishers ended) <= maxHandles (limits ended).
Proof.
  split_and!; [vm_compute; reflexivity | vm_compute; reflexivity |].
  exact (proj1 (router_bounded send hook options guard0 (calm_world 100) start guard1 true session demo_guard_wf demo_valid demo_constructed)).
Defined.

Lemma commands_in_order_witness :
  RouterInv.commands (js "g:2") (rev (log ended)) = [5; 6] /\ 5 < 6.
Proof.
  assert (H : RouterInv.commands (js "g:2") (rev (log ended)) = [5; 6]) by (vm_compute; reflexivity). split; [exact H|].
  refine (proj1 (commands_in_order send hook options guard0 (calm_world 100) start guard1 true session demo_guard_wf demo_valid demo_constructed)
    (js "g:2") 0%nat 1%nat 5 6 ltac:(lia) _ _); vm_compute; reflexivity.
Defined.

Lemma flush_equation_witness : RouterProps.measure (ended, true) = 1%nat /\
  flush_fuel send 2 (ended, true) = flush send (ended, true).
Proof.
  split; [vm_compute; reflexivity|]. apply (RouterProps.flush_equation send (ended, true)). vm_compute. lia.
Defined.
End RouterDemo.
