(* ===== verification/RouterAuth.v ===== *)
(** * The authority of a command

    Where a value handed to ROS comes from: one envelope on a data channel,
    admitted when the topic, the permission, the rate, the sequence number and,
    for a guarded topic, the lease of its publisher allowed it. *)

From S2P Require Import Prelude JsMap JsNumber JsString Values SessionValidation CommandGuard CommandGuardProps CommandGuardRuns DeliveryQueue RequestCache ConfigTypes Codec Json Protocol VideoSource VideoRouter Router RouterProps RouterInv RouterOps RouterRuns RouterDemo.

Module RouterAuth.
Import Router RouterProps RouterInv RouterOps RouterRuns.

Section auth.
Context {E : Type} (transport_send : jsstr -> list Z -> ST E bool).
Context (guard_hook : Guard.CommandIdentity -> Guard.phase -> ST Guard.guard bool) `{!SoundHook guard_hook}.
Abbreviation peer := (router * E)%type.
Implicit Types s : peer.

(** What a router asks its guard for: this handle, under this lease. *)
Definition request_of (r : router) (h lease : jsstr) (q : Z) : Guard.CommandRequest :=
  {| Guard.rq_sessionId := sessionId r; Guard.rq_epoch := epoch r; Guard.rq_handle := h;
     Guard.rq_leaseId := lease; Guard.rq_seq := VStr (Z_to_js q) |}.

(** The lease a guarded command was published under: the guard accepted the
    ticket and then the publication, and [g] is the guard it was left with;
    its clock is the one the last check of the expiry has read. *)
Definition leased (r : router) (wire : jsval) (h : jsstr) (q : Z) : Prop :=
  exists lease k g1 g hs l, prop "lease_id" wire = VStr lease /\
    Guard.prepare guard_hook (request_of r h lease q) (guard r) = (Ok k, g1) /\
    Guard.reserve guard_hook k true g1 = (Ok (request_of r h lease q, q), g) /\
    Guard.evolves (guard r) g /\ mget h (Guard.handles g) = Some hs /\
    Guard.sessionId (Guard.identity hs) = sessionId r /\ Guard.epoch (Guard.identity hs) = epoch r /\
    Guard.published hs = q /\ Guard.lease hs = Some l /\ Guard.lease_id l = lease /\
    Guard.lastTime g = Guard.clock g /\ nltb (Guard.clock g) (Guard.expiresAt l) = true.

(** What admits the value [v] of an envelope under handle [h] as number [q]. *)
Definition authorized (r : router) (channel : jsstr) (wire : jsval) (h : jsstr) (q : Z) (name : jsstr) (v : jsval) : Prop :=
  welcomed r = true /\ closed r = false /\ is_epoch r (prop "epoch" wire) = true /\
  prop "handle" wire = VStr h /\ sequence (prop "seq" wire) = Ok q /\
  exists p e, mget h (publishers r) = Some p /\ mget name (entries r) = Some e /\
    publicName (binding (p_entry p)) = name /\ direction (binding e) = web_to_ros /\
    allowed e Publish r = true /\ channel = channel_of e /\
    p_seq p < q /\ nltb (clock (out r)) (p_nextAt p) = false /\
    Codec.decode (codec e) (prop "data" wire) = Ok v /\
    if guarded p then leased r wire h q else is_undefined (prop "lease_id" wire) = true.

Section publish.
Variables (s0 : peer) (channel : jsstr) (wire : jsval).
Hypothesis Hs0 : pinv s0.

Definition safe s : Prop := forall h q name v, Published h q name v ∈ log s.1 ->
  Published h q name v ∈ log s0.1 \/ authorized s0.1 channel wire h q name v.
Definition same_log s : Prop := log s.1 = log s0.1.
Lemma same_safe s : same_log s -> safe s.
Proof. intros H h q name v Hin. left. by rewrite <- H. Qed.

Lemma triple_start {A} (r : result A) :
  triple safe (eq s0) (lift r) (fun a s => s = s0 /\ r = Ok a).
Proof. apply triple_lift; [intros s <-; by apply same_safe | by intros a s <- ?]. Qed.
Lemma triple_fact {A} (P : peer -> Prop) (r : result A) :
  (forall s, P s -> same_log s) -> triple safe P (lift r) (fun a s => P s /\ r = Ok a).
Proof. intros HP. apply triple_lift; [intros s Hs; by apply same_safe, HP | done]. Qed.
Lemma triple_test (P : peer -> Prop) b e :
  (forall s, P s -> same_log s) -> triple safe P (throw_when b e) (fun _ s => P s /\ b = false).
Proof. intros HP. apply triple_throw_when; [intros s Hs; by apply same_safe, HP | done]. Qed.

Lemma log_respond w : moves (fun s s' : peer => log s'.1 = log s.1) (respond w).
Proof.
  assert (Hpre : PreOrder (fun s s' : peer => log s'.1 = log s.1)) by (split; [done | intros x y z H1 H2; congruence]).
  unfold respond, enqueue_control. moving. intros s. unfold in_queue, here, on. by destruct (Queue.enqueue _ _ _).
Qed.

(** Facts gathered before the guard is asked. *)
Definition admitted_by (h : jsstr) (p : Publisher) (e : RouterBinding) (q : Z) (v : jsval) : Prop :=
  welcomed s0.1 = true /\ closed s0.1 = false /\ is_epoch s0.1 (prop "epoch" wire) = true /\
  prop "handle" wire = VStr h /\ sequence (prop "seq" wire) = Ok q /\
  mget h (publishers s0.1) = Some p /\ mget (publicName (binding e)) (entries s0.1) = Some e /\
  publicName (binding (p_entry p)) = publicName (binding e) /\ direction (binding e) = web_to_ros /\
  allowed e Publish s0.1 = true /\ channel = channel_of e /\
  p_seq p < q /\ nltb (clock (out s0.1)) (p_nextAt p) = false /\ Codec.decode (codec e) (prop "data" wire) = Ok v.

Lemma admitted_authorized h p e q v :
  admitted_by h p e q v -> (if guarded p then leased s0.1 wire h q else is_undefined (prop "lease_id" wire) = true) ->
  authorized s0.1 channel wire h q (publicName (binding e)) v.
Proof. intros (?&?&?&?&?&?&?&?&?&?&?&?&?&?) Hl. unfold authorized. do 5 (split; [done|]). by exists p, e. Qed.

(** Handing the value over adds that command and nothing else. *)
Lemma triple_hand_over h e q v :
  authorized s0.1 channel wire h q (publicName (binding e)) v ->
  triple safe same_log (hand_over e h q v) (fun _ => safe).
Proof.
  intros Ha. unfold hand_over. eapply triple_bind with (Q := fun _ => same_log).
  { intros s Hs. rewrite entry_of_eq. destruct (match mget _ (entries s.1) with Some _ => _ | None => _ end); [done | by apply same_safe]. }
  intros ?. eapply triple_bind with (Q := fun _ => same_log).
  { eapply triple_conseq; [by apply triple_fact | done | by intros ? ? [? _]]. }
  intros ?. eapply triple_bind with (Q := fun _ => same_log); [by apply triple_gets | intros r].
  eapply triple_bind with (Q := fun _ => safe); [|intros ?; by apply triple_lift].
  apply triple_modify. intros s Hs h' q' name' v' [Heq|Hin]%elem_of_cons; [|left; by rewrite <- Hs].
  simplify_eq. by right.
Qed.

(** After the guard accepted the ticket, or was not needed. *)
Definition ticketed (h : jsstr) (p : Publisher) (q : Z) (ticket : option nat) s : Prop :=
  same_log s /\ Guard.wf (guard s.1) /\ Guard.evolves (guard s0.1) (guard s.1) /\
  match ticket with
  | Some k => guarded p = true /\ exists lease t, prop "lease_id" wire = VStr lease /\
      Guard.prepare guard_hook (request_of s0.1 h lease q) (guard s0.1) = (Ok k, guard s.1) /\
      Guard.tickets (guard s.1) !! k = Some t /\ Guard.seq t = q /\ Guard.saved t = request_of s0.1 h lease q
  | None => guarded p = false /\ is_undefined (prop "lease_id" wire) = true
  end.

Lemma triple_reserve h p q k :
  triple safe (ticketed h p q (Some k)) (in_guard (Guard.reserve guard_hook k true))
    (fun _ s => same_log s /\ guarded p = true /\ leased s0.1 wire h q).
Proof.
  intros s (Hl & Hw & He & Hg & lease & t & Hlease & Hprep & Ht & Hq & Hsv). unfold in_guard, here, on.
  pose proof (wp_reserve guard_hook k true (guard s.1) Hw) as (Hw' & He' & Hpost).
  destruct (Guard.reserve guard_hook k true (guard s.1)) as [[[rq n]|x] g] eqn:Hres; simpl in *; [|by apply same_safe].
  destruct (Hpost _ eq_refl) as ((hs & (_ & Hhs & Hsid & Hep & _ & Htime & l & Hl1 & Hl2 & Hl3) & Hpub) & (t' & Ht' & _ & Hsv' & Hq') & _).
  rewrite Ht in Ht'. injection Ht' as <-. simpl in *. rewrite Hsv in Hsv'. subst rq n. simpl in *. rewrite Hq in *.
  split_and!; [done | done |]. exists lease, k, (guard s.1), g, hs, l. split_and!; try done; [congruence | by eapply Guard.evolves_trans].
Qed.

Lemma triple_prepare h p q lease :
  guarded p = true -> prop "lease_id" wire = VStr lease ->
  triple safe (fun s => same_log s /\ guard s.1 = guard s0.1) (in_guard (Guard.prepare guard_hook (request_of s0.1 h lease q))) (fun k => ticketed h p q (Some k)).
Proof.
  intros Hg Hlease s [Hl Heq]. unfold in_guard, here, on. rewrite Heq.
  pose proof (wp_prepare guard_hook (request_of s0.1 h lease q) (guard s0.1) (good_guard _ (inv_good _ Hs0))) as (Hw & He & Hpost).
  destruct (Guard.prepare _ _ _) as [[k|x] g] eqn:Hprep; simpl in *; [|by apply same_safe].
  destruct (Hpost k eq_refl) as (t & Ht & Hsv & Hq). split_and!; try done. exists lease, t. split_and!; try done.
  unfold sequence in Hq. inv_res. by rewrite js_to_Z_to_js in Hq.
Qed.

Lemma publish_safe : triple safe (eq s0) (publish guard_hook channel wire) (fun _ => safe).
Proof.
  unfold publish. eapply triple_bind; [apply triple_start | intros ?]. simpl.
  eapply triple_bind with (Q := fun r s => s = s0 /\ r = s0.1); [by apply triple_gets; intros s [-> _] | intros r].
  eapply triple_bind; [apply triple_test; by intros s [-> _] | intros ?]. simpl.
  eapply triple_bind; [apply triple_fact; by intros s [[-> _] _] | intros h]. simpl.
  eapply triple_bind with (Q := fun p s => s = s0 /\ r = s0.1 /\ welcomed r = true /\ is_epoch r (prop "epoch" wire) = true /\
    prop "handle" wire = VStr h /\ mget h (publishers s0.1) = Some p).
  { intros s (((-> & ->) & Hb) & Hh%textField_Ok). bools. unfold publisher_of. rewrite this_bind. unfold lift.
    destruct (mget h (publishers s0.1)) as [p|] eqn:Hp; [done | by apply same_safe]. }
  intros p. eapply triple_bind with (Q := fun e s => s = s0 /\ r = s0.1 /\ welcomed r = true /\ closed s0.1 = false /\
    is_epoch r (prop "epoch" wire) = true /\ prop "handle" wire = VStr h /\ mget h (publishers s0.1) = Some p /\
    mget (publicName (binding e)) (entries s0.1) = Some e /\ publicName (binding (p_entry p)) = publicName (binding e) /\
    direction (binding e) = web_to_ros /\ allowed e Publish s0.1 = true).
  { intros s (-> & -> & Hw & Hep & Hh & Hp).
    pose proof (fun e => entry_of_facts (publicName (binding (p_entry p))) Publish s0 e Hs0) as Hf. rewrite entry_of_eq in *. simpl in Hf.
    destruct (match mget _ (entries s0.1) with Some _ => _ | None => _ end) as [e|x]; [|by apply same_safe].
    destruct (Hf e eq_refl) as (? & ? & ? & ? & ? & ?). split_and!; done. }
  intros e. eapply triple_bind; [apply triple_test; by intros s [-> _] | intros ?]. simpl.
  eapply triple_bind; [apply triple_fact; by intros s [[-> _] _] | intros text]. simpl.
  eapply triple_bind; [apply triple_fact; by intros s [[[-> _] _] _] | intros q]. cbv beta.
  set (F := welcomed s0.1 = true /\ closed s0.1 = false /\ is_epoch s0.1 (prop "epoch" wire) = true /\
    prop "handle" wire = VStr h /\ sequence (prop "seq" wire) = Ok q /\ mget h (publishers s0.1) = Some p /\
    mget (publicName (binding e)) (entries s0.1) = Some e /\ publicName (binding (p_entry p)) = publicName (binding e) /\
    direction (binding e) = web_to_ros /\ allowed e Publish s0.1 = true /\ channel = channel_of e).
  set (K := fun s : peer => (same_log s /\ guard s.1 = guard s0.1) /\ r = s0.1 /\ F).
  eapply triple_bind with (Q := fun t s => K s /\ t = clock (out s0.1)).
  { intros s ((((-> & -> & ?) & Hch) & Ht%textField_Ok) & Hq). bools. unfold now. rewrite this_bind. cbv zeta.
    destruct (_ || _); [by apply same_safe|]. simpl. assert (sequence (prop "seq" wire) = Ok q) by (rewrite Ht; exact Hq). destruct_and!. unfold K, F. by split_and!. }
  intros t. eapply triple_bind; [apply triple_test; by intros s [[[? _] _] _] | intros ?]. simpl.
  eapply triple_bind; [apply triple_fact; by intros s [[[[? _] _] _] _] | intros v]. simpl.
  eapply triple_bind with (Q := fun ticket s => admitted_by h p e q v /\ ticketed h p q ticket s).
  { intros s ((([Hk (-> & HF)] & ->) & Hb) & Hd). bools. revert s Hk.
    assert (Ha : admitted_by h p e q v) by (unfold F in HF; unfold admitted_by; naive_solver).
    assert (Hall : triple safe (fun s => same_log s /\ guard s.1 = guard s0.1) (if guarded p
      then lease ← lift (textField wire "lease_id"); k ← in_guard (Guard.prepare guard_hook {|
        Guard.rq_sessionId := sessionId s0.1; Guard.rq_epoch := epoch s0.1; Guard.rq_handle := h;
        Guard.rq_leaseId := lease; Guard.rq_seq := VStr (Z_to_js q) |}); mret (Some k)
      else throw_when (negb (is_undefined (prop "lease_id" wire))) (Error "unexpected_lease");; mret None)
      (fun ticket s => admitted_by h p e q v /\ ticketed h p q ticket s)); [|exact Hall].
    destruct (guarded p) eqn:Hg.
    - eapply triple_bind; [apply triple_fact; by intros s [? _] | intros lease]. simpl.
      eapply triple_bind with (Q := fun k => ticketed h p q (Some k)); [|intros k; by apply triple_ret].
      intros s [Hs Hl%textField_Ok]. by apply triple_prepare.
    - eapply triple_bind; [apply triple_test; by intros s [? _] | intros ?]. simpl. apply triple_ret.
      intros s [[Hl Heq] Hu]. bools. split; [done|]. unfold ticketed. rewrite Heq.
      split_and!; try done; [apply Hs0 | apply Guard.evolves_refl, Hs0]. }
  intros ticket. eapply triple_bind with (Q := fun _ s => admitted_by h p e q v /\ ticketed h p q ticket s).
  { apply triple_modify. intros s [? ?]. done. }
  intros ?. eapply triple_bind with (Q := fun _ s => same_log s /\ authorized s0.1 channel wire h q (publicName (binding e)) v).
  { destruct ticket as [k|].
    - eapply triple_bind with (Q := fun _ s => (same_log s /\ guarded p = true /\ leased s0.1 wire h q) /\ admitted_by h p e q v).
      { intros s [Ha Ht]. pose proof (triple_reserve h p q k s Ht) as Hr.
        destruct (in_guard _ s) as [[x|x] s']; [by split | done]. }
      intros ?. apply triple_ret. intros s ((Hl & Hg & Hle) & Ha). split; [done|]. apply (admitted_authorized _ p); [done|]. by rewrite Hg.
    - apply triple_ret. intros s (Ha & Hl & _ & _ & Hg & Hu). split; [done|]. apply (admitted_authorized _ p); [done|]. by rewrite Hg. }
  intros ?. eapply triple_bind with (Q := fun _ => safe).
  { intros s [Hl Ha]. by apply (triple_hand_over h e q v Ha). }
  intros ?. intros s Hs. pose proof (log_respond (envelope [("op"%string, VStr (js "published_to_ros")); ("handle"%string, VStr h); ("seq"%string, VStr (Z_to_js q))]) s) as Hl.
  destruct (respond _ s) as [[x|x] s']; simpl in Hl; intros h' q' n' v'; rewrite Hl; apply Hs.
Qed.
End publish.

(** ** Everything else is silent *)

Definition silent s s' : Prop := maxBytes s'.1 = maxBytes s.1 /\
  forall h q name v, Published h q name v ∈ log s'.1 -> Published h q name v ∈ log s.1.
#[export] Instance silent_preorder : PreOrder silent.
Proof. split; [done|]. intros s1 s2 s3 [] []. split; [congruence | auto]. Qed.
Abbreviation quietly := (moves silent).

Lemma silent_calm s s' : calms s s' -> silent s s'.
Proof. intros H. split; [by destruct (calm_same _ _ H) as (_&_&_&_&?&_) | apply H]. Qed.
Lemma silent_set s r : maxBytes r = maxBytes s.1 -> cache r = cache s.1 -> log r = log s.1 -> silent s (r, s.2).
Proof. intros Hm _ Hl. split; [done|]. simpl. by rewrite Hl. Qed.
Lemma silently {A} (m : ST peer A) : moves calms m -> quietly m.
Proof. intros H s. apply silent_calm, H. Qed.
Lemma silent_update f : (forall r, maxBytes (f r) = maxBytes r /\ log (f r) = log r) -> quietly (update (E := E) f).
Proof. intros H s. destruct (H s.1) as [? Hl]. split; [done|]. simpl. by rewrite Hl. Qed.
Lemma silent_this : quietly this.
Proof. apply moves_gets. apply _. Qed.
Lemma silent_in_cache {A} (m : ST Cache.cache A) : quietly (in_cache m).
Proof. intros s. unfold in_cache, here, on. by destruct (m _). Qed.
Lemma silent_now : quietly now.
Proof. unfold now. pose proof silent_this. moving. Qed.
Hint Resolve silent_this silent_in_cache silent_now : bridge.

Lemma silent_operation wire id : quietly (operation transport_send guard_hook wire id).
Proof. apply kept_operation; [apply _ | apply silent_calm | apply silent_set]. Qed.

Lemma silent_control wire id : quietly (control transport_send guard_hook wire id).
Proof.
  unfold control, hello, answer, subscription_of, enqueue_control. moving.
  all: try (by apply silent_update); first [apply silently, calm_respond | apply silently, calm_enqueue | apply silent_operation].
Qed.

Lemma silent_admit channel raw : quietly (admit_wire channel raw).
Proof.
  unfold admit_wire, controlRate. moving. all: apply silent_update; intros r; by try destruct (neqb _ _).
Qed.

Lemma silent_flush : quietly (flush transport_send).
Proof. apply silently, calm_flush. Qed.
Lemma silent_error id : quietly (error transport_send id).
Proof. apply silently, calm_error. Qed.
Hint Resolve silent_flush silent_error : bridge.

Lemma silent_sample id native : quietly (sample transport_send id native).
Proof.
  unfold sample, sample_body, entry_of. moving.
  all: first [by apply silent_update | apply silently, calm_enqueue | apply silently, calm_removeSubscription].
Qed.

(** ** One envelope *)

Lemma receive_authorized channel raw s h q name v :
  pinv s -> Published h q name v ∈ log (receive transport_send guard_hook channel raw s).2.1 ->
  Published h q name v ∈ log s.1 \/
  exists wire, parseWire raw (maxBytes s.1) = Ok wire /\ authorized s.1 channel wire h q name v.
Proof.
  intros Hs. unfold receive. rewrite this_bind. destruct (closed s.1); [by left|].
  destruct (decide (channel = CONTROL)) as [->|Hc].
  - intros Hin. left. revert Hin. rewrite bool_decide_true by done.
    assert (Hq : quietly (admitted ← attempt (admit_wire CONTROL raw);
      match admitted with
      | Throw _ => error transport_send None
      | Ok (wire, requestId) =>
          outcome ← attempt (control transport_send guard_hook wire requestId;; flush transport_send);
          match outcome with Throw _ => error transport_send requestId | Ok _ => mret tt end
      end)) by (moving; [apply silent_admit | apply silent_control]).
    apply Hq.
  - rewrite bool_decide_false by done. rewrite ST_bind_eq. unfold attempt at 1.
    assert (Ha : admit_wire channel raw s = ((throw_when (negb (isChannel channel)) (Error "invalid_channel");;
      wire ← parseWire raw (maxBytes s.1);
      if is_undefined (prop "id" wire) then Ok (wire, None) else id ← textField wire "id"; Ok (wire, Some id)), s)).
    { unfold admit_wire. rewrite bool_decide_false by done. rewrite ST_bind_eq. destruct (negb _); [done|]. simpl.
      rewrite ST_bind_eq. simpl. rewrite this_bind, ST_bind_eq. unfold lift at 1. destruct (parseWire raw _) as [wire|x]; [|done]. simpl.
      destruct (is_undefined _); [done|]. rewrite ST_bind_eq. unfold lift. by destruct (textField wire "id"). }
    match type of Ha with _ = (?m, _) => destruct m as [[wire id]|x] eqn:Hr end; rewrite Ha; clear Ha; cbn beta iota.
    + assert (Hw : parseWire raw (maxBytes s.1) = Ok wire).
      { inv_res. match goal with H : parseWire _ _ = Ok ?w |- _ => assert (w = wire) as <-; [|done] end.
        destruct (is_undefined _); [by simplify_eq|]. inv_res. by simplify_eq. }
      intros Hin. enough (Hps : safe s channel wire (publish guard_hook channel wire s).2).
      { destruct (Hps h q name v) as [|]; [|by left | right; by exists wire]. revert Hin.
        rewrite ST_bind_eq. unfold attempt. rewrite ST_bind_eq. destruct (publish _ _ _ s) as [[u|x] s'].
        - pose proof (proj2 (silent_flush s')) as Hf. destruct (flush transport_send s') as [[u'|x] s'']; simpl in *; [apply Hf|].
          intros Hin. apply Hf. by apply (silent_error id s'').
        - apply (silent_error id s'). }
      pose proof (publish_safe s channel wire Hs s eq_refl) as Hp. by destruct (publish _ _ _ s) as [[u|x] s'].
    + intros Hin. left. by apply (silent_error None s).
Qed.

Lemma perform_authorized a s h q name v :
  pinv s -> Published h q name v ∈ log (perform transport_send guard_hook a s).1 ->
  Published h q name v ∈ log s.1 \/
  exists channel raw wire, a = Receive channel raw /\ parseWire raw (maxBytes s.1) = Ok wire /\ authorized s.1 channel wire h q name v.
Proof.
  intros Hs. destruct a as [channel raw| | |stream native|track st|mid|?|?|?]; simpl.
  - intros [|(wire & ? & ?)]%receive_authorized; [by left | right; by exists channel, raw, wire | done].
  - intros H. left. by apply (silent_flush s).
  - intros H. left. by apply (silently close calm_close s).
  - intros H. left. by apply (silent_sample stream native s).
  - intros H. left. destruct (mget track _) as [b|]; [|done].
    by apply (kept_viewer_state transport_send silent silent_calm silent_set track (VideoRouter.slot b) st s).
  - intros Hin. left. assert (Hk : quietly (VideoRouter.on_keyframe_request mid)); [|by apply (Hk s)].
    unfold VideoRouter.on_keyframe_request. simpl. moving.
  - by left.
  - by left.
  - by left.
Qed.

Lemma run_authorized actions s h q name v :
  pinv s -> Published h q name v ∈ log (run transport_send guard_hook actions s).1 ->
  Published h q name v ∈ log s.1 \/
  exists before channel raw wire after, actions = before ++ Receive channel raw :: after /\
    let r := (run transport_send guard_hook before s).1 in
    parseWire raw (maxBytes r) = Ok wire /\ authorized r channel wire h q name v.
Proof.
  revert s. induction actions as [|a actions IH]; intros s Hs; [by left|]. simpl.
  intros [Hin|(before & channel & raw & wire & after & -> & Hw)]%IH; [| |by apply keeps_perform].
  - apply perform_authorized in Hin as [|(channel & raw & wire & -> & Hw)]; [by left | | done].
    right. by exists [], channel, raw, wire, actions.
  - right. by exists (a :: before), channel, raw, wire, after.
Qed.
End auth.

(** C1: every value a router ever hands to ROS came from one envelope of its
    peer that the source's rules admit at that moment: the session is welcomed
    and open, the envelope names its epoch and a publisher of that peer, the
    topic is configured from the web to ROS, permitted and on the channel the
    envelope came over, the sequence number is new and the rate kept, the data
    decodes to the value, and for a guarded topic the envelope carries the
    lease of that publisher and the guard, asked from the state it is in at
    that moment, accepted the ticket and then the publication: the lease has
    not expired at the time the guard's clock shows when it accepts, and the
    guard has recorded the number (for an unguarded topic, no lease).  So no
    command is invented, replayed or issued without authority, over all
    interleavings. *)
Theorem commands_authorized {E : Type} (transport_send : jsstr -> list Z -> ST E bool)
  (guard_hook : Guard.CommandIdentity -> Guard.phase -> ST Guard.guard bool) `{!SoundHook guard_hook}
  o g env r0 g' (e : E) actions h q name v :
  Guard.wf g -> valid_limits (ConfigTypes.limits (opt_config o)) -> constructor o g env = (Ok r0, g') ->
  Published h q name v ∈ log (run transport_send guard_hook actions (r0, e)).1 ->
  exists before channel raw wire after, actions = before ++ Receive channel raw :: after /\
    let r := (run transport_send guard_hook before (r0, e)).1 in
    parseWire raw (maxBytes r) = Ok wire /\ authorized guard_hook r channel wire h q name v.
Proof.
  intros Hg Hl Hc Hpub. pose proof (router_constructor_inv _ _ _ _ _ Hg Hl Hc) as Hi.
  destruct (run_authorized transport_send guard_hook actions (r0, e) h q name v Hi Hpub) as [Hin|]; [|done].
  simpl in Hin. rewrite (constructor_log _ _ _ _ _ Hg Hl Hc) in Hin. by apply not_elem_of_nil in Hin.
Qed.

Lemma commands_authorized_witness :
  Published (js "g:2") 5 (js "/drive") (VBool true) ∈ log (run RouterDemo.send RouterDemo.hook RouterDemo.session (RouterDemo.start, true)).1 /\
  exists before channel raw wire after, RouterDemo.session = before ++ Receive channel raw :: after /\
    let r := (run RouterDemo.send RouterDemo.hook before (RouterDemo.start, true)).1 in
    parseWire raw (maxBytes r) = Ok wire /\ authorized RouterDemo.hook r channel wire (js "g:2") 5 (js "/drive") (VBool true).
Proof.
  assert (H : Published (js "g:2") 5 (js "/drive") (VBool true) ∈ log (run RouterDemo.send RouterDemo.hook RouterDemo.session (RouterDemo.start, true)).1).
  { vm_compute. repeat first [apply list_elem_of_here | apply list_elem_of_further]. }
  split; [exact H|].
  exact (commands_authorized RouterDemo.send RouterDemo.hook RouterDemo.options RouterDemo.guard0 (RouterDemo.calm_world 100)
    RouterDemo.start RouterDemo.guard1 true RouterDemo.session (js "g:2") 5 (js "/drive") (VBool true)
    RouterDemo.demo_guard_wf RouterDemo.demo_valid RouterDemo.demo_constructed H).
Defined.
End RouterAuth.
