(* ===== verification/RouterFrame.v ===== *)
(** * What a router leaves alone

    A router reaches its transport only through [send], its guard only through
    the guard's operations, and is closed only by [close]: a fact of a router
    and its transport that survives these steps survives every method. *)

From S2P Require Import Prelude JsMap JsNumber JsString Values SessionValidation CommandGuard CommandGuardProps DeliveryQueue RequestCache ConfigTypes Codec Protocol VideoRouter Router.

Module RouterFrame.
Import Router.

Definition sent_by (log : list effect) : list (jsstr * list Z) :=
  omap (fun e => match e with Sent channel bytes => Some (channel, bytes) | _ => None end) log.

Lemma triple_get_any {S A} (I P : S -> Prop) (f : S -> ST S A) Q :
  (forall x, triple I P (f x) Q) -> triple I P (get ≫= f) Q.
Proof. intros H s Hs. exact (H s s Hs). Qed.

(** What such a fact may look at. *)
Definition view (r : router) := (sent_by (log r), closed r, guard r, sessionId r, out r).

Section frame.
Context {E : Type} (transport_send : jsstr -> list Z -> ST E bool).

Definition related (J : router -> E -> Prop) (s : router * E) : Prop := J s.1 s.2.

Record framing (J : router -> E -> Prop) : Prop := {
  fr_same : forall r r' e, view r' = view r -> J r e -> J r' e;
  fr_guard : forall r g e, (Guard.wf (guard r) -> Guard.wf g /\ Guard.evolves (guard r) g) -> J r e -> J (set_guard g r) e;
  fr_close : preserves (related J) close;
  fr_send : forall channel bytes, preserves (related J) (transmit transport_send channel bytes) }.

Context (guard_hook : Guard.CommandIdentity -> Guard.phase -> ST Guard.guard bool) `{!SoundHook guard_hook}.
Context (J : router -> E -> Prop) (HJ : framing J).
Abbreviation framed := (preserves (related J)).

Lemma framed_update f : (forall r, view (f r) = view r) -> framed (update (E := E) f).
Proof. intros Hf s Hs. exact (fr_same _ HJ s.1 (f s.1) s.2 (Hf s.1) Hs). Qed.
Lemma framed_note e : (forall channel bytes, e <> Sent channel bytes) -> framed (note (E := E) e).
Proof. intros He. apply framed_update. intros r. destruct e; try done. by destruct (He channel bytes). Qed.
Lemma framed_in_queue {A} (m : ST Queue.queue A) : framed (in_queue m).
Proof. intros s Hs. unfold in_queue, here, on. destruct (m (queue s.1)). by refine (fr_same _ HJ s.1 _ s.2 _ Hs). Qed.
Lemma framed_in_cache {A} (m : ST Cache.cache A) : framed (in_cache m).
Proof. intros s Hs. unfold in_cache, here, on. destruct (m (cache s.1)). by refine (fr_same _ HJ s.1 _ s.2 _ Hs). Qed.
Lemma framed_in_guard {A} (m : ST Guard.guard A) : Guard.sound m -> framed (in_guard m).
Proof.
  intros Hm s Hs. unfold in_guard, here, on. specialize (Hm (guard s.1)). destruct (m (guard s.1)) as [o g] eqn:Hg.
  refine (fr_guard _ HJ s.1 g s.2 _ Hs). intros Hw. destruct (Hm Hw) as (? & ? & _). by rewrite Hg in *.
Qed.
Lemma framed_in_video {A} (m : ST VideoRouter.video A) : framed (VideoRouter.in_video m).
Proof. intros s Hs. unfold VideoRouter.in_video, on. destruct (m (VideoRouter.the_video s)). by refine (fr_same _ HJ s.1 _ s.2 _ Hs). Qed.
Lemma framed_transmit channel bytes : framed (transmit transport_send channel bytes).
Proof. by apply (fr_send _ HJ). Qed.
Lemma framed_close : framed close.
Proof. apply HJ. Qed.
Lemma framed_get {B} (f : router * E -> ST (router * E) B) : (forall x, framed (f x)) -> framed (get ≫= f).
Proof. intros Hf. apply preserves_get_bind. intros x. apply Hf. Qed.
Lemma sound_reserve ticket callable : Guard.sound (Guard.reserve guard_hook ticket callable).
Proof. intros g Hw. eapply Guard.wp_conseq; [by apply wp_reserve | done]. Qed.
Create HintDb framed.
Hint Resolve framed_transmit framed_close : framed.
Hint Resolve sound_openHandle sound_arm sound_prepare sound_reserve sound_closeHandle : framed.

(** Reduce to the steps that note or transmit something. *)
Ltac framing :=
  repeat match goal with
  | |- preserves _ (get ≫= _) => apply framed_get; intros ?
  | |- preserves _ (_ ≫= _) => apply preserves_bind; [| intros ?]
  | |- preserves _ (if ?b then _ else _) => destruct b
  | |- preserves _ (match ?x with _ => _ end) => destruct x
  | |- preserves _ (mapS _ _) => apply preserves_mapS; intros ?
  | |- preserves _ (catch _ _) => apply preserves_catch; [| intros ?]
  | |- preserves _ (attempt _) => apply preserves_attempt
  | |- preserves _ (VideoRouter.in_video _) => apply framed_in_video
  | |- preserves _ (in_queue _) => apply framed_in_queue
  | |- preserves _ (in_cache _) => apply framed_in_cache
  | |- preserves _ (in_guard _) => apply framed_in_guard; solve [eauto with framed typeclass_instances]
  | |- preserves _ (note _) => by apply framed_note
  | |- preserves _ (update _) => apply framed_update; intros ?; by repeat case_match
  | |- preserves _ (mret _) => apply preserves_ret
  | |- preserves _ (mthrow _) => apply preserves_throw
  | |- preserves _ (lift _) => apply preserves_lift
  | |- preserves _ (throw_when _ _) => apply preserves_throw_when
  | |- preserves _ this => apply preserves_gets
  | H : _ |- preserves _ _ => solve [apply H]
  | |- preserves _ _ => solve [eauto with framed]
  end.

Lemma framed_drain id channel : framed (drain transport_send id channel).
Proof.
  unfold drain. framing. generalize (S (backlog id a)). intros fuel.
  induction fuel as [|fuel IH]; simpl; framing.
Qed.
Lemma framed_release track : framed (VideoRouter.release track).
Proof. unfold VideoRouter.release, VideoRouter.set_flags. simpl. framing. Qed.
Hint Resolve framed_drain framed_release : framed.
Lemma framed_viewer_state send track sl st : (forall w, framed (send w)) -> framed (VideoRouter.viewer_state send track sl st).
Proof. intros Hs. unfold VideoRouter.viewer_state, VideoRouter.set_flags. framing. Qed.
Lemma framed_removeSubscription id : framed (removeSubscription id).
Proof. unfold removeSubscription, subscription_of, unsubscribe. framing. Qed.
Lemma framed_respond wire : framed (respond wire).
Proof. unfold respond, enqueue_control. framing. Qed.
Lemma framed_entry_of name k : framed (entry_of (E := E) name k).
Proof. unfold entry_of. framing. Qed.
Hint Resolve framed_viewer_state framed_removeSubscription framed_respond framed_entry_of : framed.

Section recursion.
Variable fl : ST (router * E) unit.
Hypothesis framed_fl : framed fl.
Lemma framed_error_with id : framed (error_with fl id).
Proof. unfold error_with. framing. Qed.
Hint Resolve framed_error_with : framed.
Lemma framed_event_with wire : framed (event_with fl wire).
Proof. unfold event_with. framing. Qed.
Hint Resolve framed_event_with : framed.
Lemma framed_flush_streams ids : framed (flush_streams transport_send fl ids).
Proof. induction ids as [|id ids IH]; simpl; framing. Qed.
Hint Resolve framed_flush_streams : framed.
Lemma framed_flush_body : framed (flush_body transport_send fl).
Proof. unfold flush_body, VideoRouter.revalidate, VideoRouter.recheck. framing. Qed.
End recursion.
Lemma framed_flush : framed (flush transport_send).
Proof.
  unfold flush. framing. generalize (fuel_of a). intros fuel.
  induction fuel as [|fuel IH]; simpl; [framing|by apply framed_flush_body].
Qed.
Hint Resolve framed_flush : framed.
Lemma framed_error id : framed (error transport_send id).
Proof. by apply framed_error_with, framed_flush. Qed.
Lemma framed_event wire : framed (event transport_send wire).
Proof. by apply framed_event_with, framed_flush. Qed.
Lemma framed_now : framed (now (E := E)).
Proof. unfold now. framing. Qed.
Lemma framed_id : framed (id (E := E)).
Proof. unfold id. framing. Qed.
Hint Resolve framed_error framed_event framed_now framed_id : framed.

Lemma framed_sample id native : framed (sample transport_send id native).
Proof. unfold sample, sample_body. framing. Qed.
Lemma framed_on_keyframe_request m : framed (VideoRouter.on_keyframe_request m).
Proof. unfold VideoRouter.on_keyframe_request. simpl. framing. Qed.
Lemma framed_video_operation wire id : framed (VideoRouter.operation (event transport_send) wire id).
Proof. unfold VideoRouter.operation, VideoRouter.bind, VideoRouter.set_flags. simpl VideoRouter.attach. framing. Qed.
Hint Resolve framed_video_operation : framed.
Lemma framed_operation wire requestId : framed (operation transport_send guard_hook wire requestId).
Proof.
  unfold operation, subscribe, advertise, arm_or_unadvertise, publisher_of. framing.
Qed.
Hint Resolve framed_operation : framed.
Lemma framed_control wire requestId : framed (control transport_send guard_hook wire requestId).
Proof. unfold control, hello, answer, enqueue_control, subscription_of. framing. Qed.
Lemma framed_publish channel wire : framed (publish guard_hook channel wire).
Proof. unfold publish, hand_over, publisher_of. framing. Qed.
Hint Resolve framed_control framed_publish : framed.
Lemma framed_receive channel raw : framed (receive transport_send guard_hook channel raw).
Proof. unfold receive, admit_wire, controlRate. framing. Qed.
End frame.

(** ** What [close] does *)

Section closing.
Context {E : Type}.
Abbreviation peer := (router * E)%type.
Implicit Types s : peer.

(** A change of the router that leaves [v] alone, and the transport. *)
Definition leaves {X} (v : router -> X) s s' : Prop := v s'.1 = v s.1 /\ s'.2 = s.2.
#[local] Instance leaves_preorder {X} (v : router -> X) : PreOrder (leaves v).
Proof. split; [intros s; by split|]. intros s1 s2 s3 [] []. split; congruence. Qed.
Lemma leaves_update {X} (v : router -> X) f : (forall r, v (f r) = v r) -> moves (leaves v) (update (E := E) f).
Proof. intros Hf s. split; [apply Hf | done]. Qed.
Lemma leaves_here {X T A} (v : router -> X) inner outer (m : ST T A) :
  (forall x r, v (outer x r) = v r) -> moves (leaves v) (here (E := E) (on inner outer m)).
Proof. intros Hf s. unfold here, on. destruct (m (inner s.1)). split; [apply Hf | done]. Qed.
Lemma leaves_in_video {X A} (v : router -> X) (m : ST VideoRouter.video A) :
  (forall x r, v (set_video x r) = v r) -> moves (leaves v) (VideoRouter.in_video (S := peer) m).
Proof. intros Hf s. unfold VideoRouter.in_video, on. destruct (m _). split; [apply Hf | done]. Qed.
Lemma leaves_this {X} (v : router -> X) : moves (leaves v) (this (E := E)).
Proof. apply moves_gets. apply _. Qed.
#[local] Hint Resolve leaves_this : bridge.
#[local] Hint Extern 1 (moves (leaves _) (update _)) => by apply leaves_update : bridge.
#[local] Hint Extern 1 (moves (leaves _) (note _)) => by apply leaves_update : bridge.
#[local] Hint Extern 1 (moves (leaves _) (in_guard _)) => by apply leaves_here : bridge.
#[local] Hint Extern 1 (moves (leaves _) (in_queue _)) => by apply leaves_here : bridge.
#[local] Hint Extern 1 (moves (leaves _) (in_cache _)) => by apply leaves_here : bridge.
#[local] Hint Extern 1 (moves (leaves _) (VideoRouter.in_video _)) => by apply leaves_in_video : bridge.

(** It sends nothing. *)
Lemma close_sends_nothing : moves (leaves (fun r => sent_by (log r))) (close (E := E)).
Proof.
  unfold close, release_listener, unsubscribe, VideoRouter.close, VideoRouter.release, VideoRouter.set_flags.
  simpl VideoRouter.detach. moving.
Qed.
(** Its second half, from the revocation on, changes neither the guard nor what surrounds the router. *)
Definition session_of (r : router) := (guard r, sessionId r, out r, closed r).
Definition after_revocation : ST peer unit :=
  r ← this;
  outcomes ← mapS release_listener (mkeys (subscriptions r));
  let failures := omap (fun o => o) outcomes in
  update (set_subscriptions []);; update (set_publishers []);;
  in_queue Queue.clear;; in_cache Cache.clear;;
  note Notified;;
  throw_when (negb (bool_decide (length failures = O))) (AggregateError failures "cleanup_failed").
Lemma after_revocation_leaves : moves (leaves session_of) after_revocation.
Proof. unfold after_revocation, release_listener, unsubscribe. moving. Qed.

(** The media plane lets go of every viewer. *)
Definition lets_go (o : outside) : Prop := forall track, media_detach o track = None.

(** Letting the viewers go cannot fail then, and changes nothing else. *)
Definition calmly (g : Guard.guard) (sid : jsstr) s : Prop := guard s.1 = g /\ sessionId s.1 = sid /\ lets_go (out s.1).
Lemma triple_release g sid track :
  triple (fun _ => False) (calmly g sid) (VideoRouter.release track) (fun _ => calmly g sid).
Proof.
  assert (Hf : forall t w a, triple (fun _ => False) (calmly g sid) (VideoRouter.set_flags t w a) (fun _ => calmly g sid)).
  { intros t w a s Hs. unfold VideoRouter.set_flags, VideoRouter.in_video, on. exact Hs. }
  unfold VideoRouter.release. apply triple_get_any. intros x. destruct (mget track _) as [b|]; [|by apply triple_ret].
  eapply triple_bind; [apply Hf | intros ?]. destruct (VideoRouter.attached b); [|by apply triple_ret].
  eapply triple_bind; [apply Hf | intros ?]. intros s (Hg & Hs & Ho). simpl. rewrite ST_bind_eq. simpl. rewrite ST_bind_eq.
  unfold lift. rewrite Ho. by split_and!.
Qed.
Lemma triple_video_close g sid : triple (fun _ => False) (calmly g sid) VideoRouter.close (fun _ => calmly g sid).
Proof.
  unfold VideoRouter.close. apply triple_get_any. intros x.
  eapply triple_bind with (Q := fun _ => calmly g sid); [|intros ?; by apply triple_ret].
  apply (triple_mapS (fun _ => False) _ (fun _ => calmly g sid)). intros. apply triple_release.
Qed.

(** The session of an open router is its guard's, and a closed router's is revoked. *)
Record session_ok (r : router) : Prop := {
  so_guard : Guard.wf (guard r);
  so_issued : Guard.issued (guard r) (sessionId r);
  so_out : lets_go (out r);
  so_revoked : closed r = true -> mget (sessionId r) (Guard.sessions (guard r)) = None }.

Lemma session_ok_guard r g : Guard.wf g /\ Guard.evolves (guard r) g -> session_ok r -> session_ok (set_guard g r).
Proof.
  intros [Hw He] [Hg Hi Ho Hr]. split; simpl; try done; [by eapply Guard.issued_evolves|]. intros Hc.
  destruct (mget (sessionId r) (Guard.sessions g)) as [ep|] eqn:Hs; [|done].
  apply (Guard.ev_sessions _ _ He) in Hs; [|done]. by rewrite Hr in Hs.
Qed.
Lemma close_session s : session_ok s.1 -> session_ok (close s).2.1.
Proof.
  intros Hs. unfold close. change (this ≫= ?f) with (fun s : router * E => f s.1 s). cbv beta.
  destruct (closed s.1) eqn:Hc; [done|]. destruct Hs as [Hg Hi Ho _].
  rewrite ST_bind_eq. unfold update at 1, modify at 1. rewrite ST_bind_eq.
  set (m := match video s.1 with Some _ => VideoRouter.close | None => mret tt end).
  assert (Hm : triple (fun _ => False) (calmly (guard s.1) (sessionId s.1)) m (fun _ => calmly (guard s.1) (sessionId s.1))).
  { unfold m. destruct (video s.1); [apply triple_video_close | by apply triple_ret]. }
  specialize (Hm (set_closed true s.1, s.2) ltac:(by split_and!)).
  destruct (m _) as [[[]|e] s1]; [|done]. destruct Hm as (Hg1 & Hs1 & Ho1).
  change (session_ok ((in_guard (Guard.revokeSession (sessionId s.1));; after_revocation) s1).2.1). rewrite ST_bind_eq.
  assert (He : in_guard (Guard.revokeSession (sessionId s.1)) s1 =
    let '(o, g) := Guard.revokeSession (sessionId s.1) (guard s1.1) in (o, (set_guard g s1.1, s1.2))) by done.
  rewrite He. clear He.
  pose proof (sound_revokeSession (sessionId s.1) (guard s.1) Hg) as (Hw2 & He2 & _).
  rewrite Hg1. destruct (Guard.revokeSession (sessionId s.1) (guard s.1)) as [o g2] eqn:Hrev.
  assert (Hgone : o = Ok tt /\ mget (sessionId s.1) (Guard.sessions g2) = None).
  { unfold Guard.revokeSession in Hrev. unfold_st. injection Hrev as <- <-. split; [done|]. apply mget_mdelete_eq. }
  destruct Hgone as [-> Hgone]. simpl in Hw2, He2.
  pose proof (after_revocation_leaves (set_guard g2 s1.1, s1.2)) as [Hl _].
  change (session_ok (after_revocation (set_guard g2 s1.1, s1.2)).2.1).
  destruct (after_revocation _) as [o' s2]. simpl in *. injection Hl as H1 H2 H3 H4.
  split; rewrite ?H1, ?H2, ?H3, ?Hs1; try done. by eapply Guard.issued_evolves.
Qed.

(** [close] closes. *)
Lemma close_shuts s : closed (close s).2.1 = true.
Proof.
  destruct (closed s.1) eqn:Hc.
  - unfold close. change (this ≫= ?f) with (fun s : router * E => f s.1 s). cbv beta. by rewrite Hc.
  - unfold close. change (this ≫= ?f) with (fun s : router * E => f s.1 s). cbv beta. rewrite Hc.
    match goal with |- closed ((update _;; ?m) s).2.1 = true => assert (Hm : moves (leaves closed) m) end.
    { unfold release_listener, unsubscribe, VideoRouter.close, VideoRouter.release, VideoRouter.set_flags.
      simpl VideoRouter.detach. moving. }
    by apply (Hm (set_closed true s.1, s.2)).
Qed.
End closing.

(** A new router has sent nothing, is open, and holds a session of its guard. *)
Lemma new_router o g env r : fst (constructor o g env) = Ok r ->
  sent_by (log r) = [] /\ closed r = false /\ (Guard.wf g -> lets_go env -> session_ok r).
Proof.
  unfold constructor. destruct (prepare o g env) as [r0|e] eqn:Ep; [|done].
  assert (H0 : log r0 = [] /\ closed r0 = false /\ guard r0 = g /\ out r0 = env).
  { unfold prepare in Ep. inv_res. by repeat (case_match; simplify_eq/=). }
  destruct H0 as (Hl & Hc & Hg & Ho). rewrite ST_bind_eq.
  assert (Hn : exists t, (now (E := unit) (r0, tt)).2 = (set_lastTime t r0, tt)).
  { unfold now. change (this ≫= ?f) with (fun s : router * unit => f s.1 s). cbv beta zeta. rewrite ST_bind_eq. unfold throw_when.
    destruct (_ || _ || _); [exists (lastTime r0); by destruct r0 | by eexists]. }
  destruct Hn as [t Hn]. destruct (now (r0, tt)) as [[t'|e] s1]; simpl in Hn; subst s1; [|done].
  unfold in_guard, here, on. simpl. pose proof (wp_openSession (VStr (epoch r0)) (guard r0)) as Hw. rewrite Hg in *.
  destruct (Guard.openSession _ g) as [[sid|e] g'] eqn:Hs; [|done]. intros [= <-]. simpl. rewrite Hl. split_and!; [done..|].
  intros Hwf Hgo. destruct (Hw Hwf) as (Hw' & _ & Hi). rewrite Hs in *. split; simpl; [done | by apply Hi | by rewrite Ho | congruence].
Qed.
End RouterFrame.
