(* ===== verification/Peer.v ===== *)
(** * One peer: its endpoint and its router

    [transport/endpoint.ts] with the [SessionRouter] of [router/index.ts] that
    [app/runtime.ts] gives it: the router discharges the interface the endpoint
    is verified against, and what the one reports to have sent is what the
    other put on the wire. *)

From S2P Require Import Prelude JsMap JsNumber JsString Values SessionValidation CommandGuard CommandGuardProps CommandGuardRuns DeliveryQueue RequestCache ConfigTypes Codec Protocol VideoRouter Router RouterFrame Endpoint EndpointProps.

Module Peer.
Import Router RouterFrame.

(** ** The router as the endpoint's *)

Section peer.
Context (options : Z -> list Endpoint.VideoSlot -> RouterOptions) (shared : Guard.guard) (env : outside).
Context (guard_hook : Guard.CommandIdentity -> Guard.phase -> ST Guard.guard bool) `{!SoundHook guard_hook}.
Abbreviation endpoint := (Endpoint.endpoint router).

(** A method of the router, while the endpoint is its transport. *)
Definition in_router (m : ST (router * endpoint) unit) : ST endpoint unit := fun e =>
  match Endpoint.router e with
  | None => (Ok tt, e)
  | Some r => let '(o, (r', e')) := m (r, e) in (o, Endpoint.set_router (Some r') e')
  end.

#[export] Instance session_router : Endpoint.RouterPort router := {
  makeRouter maxMessageBytes slots := fst (constructor (options maxMessageBytes slots) shared env);
  router_receive channel raw := in_router (receive Endpoint.send guard_hook channel raw);
  router_flush := in_router (flush Endpoint.send);
  router_close := in_router close;
  router_isClosed := closed }.

(** What [send] does: it puts one message on the wire, or nothing. *)
Lemma send_outcome (l : jsstr) bytes (e : endpoint) :
  (exists n, Endpoint.send l bytes e = (Ok true, Endpoint.set_events (Endpoint.Sent l bytes n :: Endpoint.events e) e)) \/
  exists o, Endpoint.send l bytes e = (o, e) /\ o <> Ok true.
Proof.
  unfold Endpoint.send, Endpoint.note. unfold_st.
  repeat case_match; simplify_eq/=; try (by left; eexists); right; eexists; (split; [reflexivity|done]).
Qed.

(** A method that reaches the endpoint through [send] alone. *)
Definition carried (m : ST (router * endpoint) unit) : Prop := forall I : endpoint -> Prop,
  (forall channel bytes, preserves (fun s => I s.2) (transmit Endpoint.send channel bytes)) -> preserves (fun s => I s.2) m.
Lemma framed_carried m : (forall J, framing Endpoint.send J -> preserves (related J) m) -> carried m.
Proof.
  intros Hm I Ht. apply (Hm (fun _ e => I e)). split; try done. intros s Hs. unfold related in *.
  pose proof (close_sends_nothing s) as [_ He]. destruct (close s) as [o s']. simpl in *. by rewrite He.
Qed.
Lemma in_router_law (m : ST (router * endpoint) unit) (I : endpoint -> Prop) :
  carried m -> (forall l bytes, preserves I (Endpoint.send l bytes)) ->
  (forall r s, is_Some (Endpoint.router s) -> I s -> I (Endpoint.set_router (Some r) s)) ->
  preserves I (in_router m).
Proof.
  intros Hm Hsend Hset e He. unfold in_router. destruct (Endpoint.router e) as [r|] eqn:Er; [|done].
  specialize (Hm (fun e => I e /\ is_Some (Endpoint.router e))).
  destruct (Hm ltac:(
    intros channel bytes [r1 e1] [H1 H2]; unfold transmit, on; rewrite ST_bind_eq; simpl;
    pose proof (Hsend channel bytes e1 H1) as H3;
    destruct (send_outcome channel bytes e1) as [[n Hs]|(o & Hs & _)]; rewrite Hs in *; simpl in *; [by split|];
    by destruct o as [[]|]) (r, e) ltac:(by split; [|exists r])) as [HI HR].
  destruct (m (r, e)) as [o [r' e']]. simpl in *. by apply Hset.
Qed.
#[export] Instance session_router_laws : Endpoint.RouterLaws session_router.
Proof.
  intros I Hsend Hset. split_and!; intros; apply in_router_law; try done; apply framed_carried; intros J HJ;
    [by apply framed_receive | by apply framed_flush | apply HJ].
Qed.

(** ** What may happen to a peer

    Its transport's events, what ROS and the media plane call back, and changes
    of what the router shares with others. *)
Inductive event :=
| Transport (e : Endpoint.event router)
| Sampled (id : jsstr) (native : jsval)
| ViewerChanged (track : jsstr) (st : VideoRouter.VideoState)
| KeyframeRequested (mid : jsstr)
| Surroundings (o : outside)
| Shared (ops : list op).
Definition outward (e : Endpoint.event router) : bool :=
  match e with Endpoint.RouterSend _ _ | Endpoint.RouterState _ => false | _ => true end.
Definition viewer_changed (track : jsstr) (st : VideoRouter.VideoState) : ST (router * endpoint) unit :=
  s ← get;
  match mget track (VideoRouter.bound (VideoRouter.the_video s)) with
  | Some b => VideoRouter.viewer_state (Router.event Endpoint.send) track (VideoRouter.slot b) st
  | None => mret tt
  end.
Definition on_router (f : router -> router) : ST endpoint unit :=
  in_router (update f).
Definition handle (e : event) : ST endpoint unit :=
  match e with
  | Transport e => if outward e then Endpoint.handle e else mret tt
  | Sampled id native => in_router (sample Endpoint.send id native)
  | ViewerChanged track st => in_router (viewer_changed track st)
  | KeyframeRequested mid => in_router (VideoRouter.on_keyframe_request mid)
  | Surroundings o => on_router (set_out o)
  | Shared ops => on_router (fun r => set_guard (CommandGuardRuns.run guard_hook ops (guard r)).2 r)
  end.
Fixpoint run (es : list event) (s : endpoint) : endpoint :=
  match es with [] => s | e :: es => run es (handle e s).2 end.

(** ** The wire carries what the router sent, and a closed peer is revoked *)

Definition wire (events : list Endpoint.effect) : list (jsstr * list Z) :=
  omap (fun e => match e with Endpoint.Sent l bytes _ => Some (l, bytes) | _ => None end) events.
Definition wired (s : endpoint) : Prop :=
  wire (Endpoint.events s) = match Endpoint.router s with Some r => sent_by (log r) | None => [] end.
(** A closed peer's router is closed; and as long as the media plane lets go of
    every viewer ([mild]), the session of a closed router is revoked. *)
Section runs.
Context (mild : Prop) (mild_env : mild -> lets_go env) (wf_shared : Guard.wf shared).
Definition revoked (s : endpoint) : Prop :=
  match Endpoint.router s with
  | Some r => (Endpoint.closed s = true -> closed r = true) /\ (mild -> session_ok r)
  | None => True
  end.
Definition kept (s : endpoint) : Prop := wired s /\ revoked s.

(** [kept] as a fact of the router and its endpoint. *)
Definition held (r : router) (e : endpoint) : Prop :=
  wire (Endpoint.events e) = sent_by (log r) /\ (Endpoint.closed e = true -> closed r = true) /\ (mild -> session_ok r).
Lemma held_close s : wire (Endpoint.events s.2) = sent_by (log s.1) -> (mild -> session_ok s.1) ->
  held (close s).2.1 (close s).2.2.
Proof.
  intros Hw Hs. destruct (close_sends_nothing s) as [Hl He]. simpl in Hl. split; [by rewrite He, Hl|].
  split; [intros _; apply close_shuts | intros Hm; by apply close_session, Hs].
Qed.
Lemma held_framing : framing Endpoint.send held.
Proof.
  split.
  - intros r r' e [= Hl Hc Hg Hs Ho] (Hw & Hcl & Hm). split; [by rewrite Hl|]. split; [by rewrite Hc|].
    intros [H1 H2 H3 H4]%Hm. split; by rewrite ?Hg, ?Hs, ?Ho, ?Hc.
  - intros r g e Hg (Hw & Hc & Hm). split_and!; [done..|]. intros H. pose proof (Hm H) as Hok.
    apply session_ok_guard; [apply Hg, Hok | done].
  - intros s (Hw & _ & Hm). by apply held_close.
  - intros channel bytes [r e] (Hw & Hc & Hm). unfold related, transmit, on. rewrite ST_bind_eq. simpl in *.
    destruct (send_outcome channel bytes e) as [[n ->]|([[]|x] & -> & Ho)]; try done.
    split; [simpl; by rewrite Hw|]. split; [done|]. intros H. by destruct (Hm H).
Qed.

(** A method of the router that frames keeps both. *)
Lemma in_router_kept (m : ST (router * endpoint) unit) :
  (forall J, framing Endpoint.send J -> preserves (related J) m) -> preserves kept (in_router m).
Proof.
  intros Hm e [Hw Hr]. unfold in_router. unfold wired, revoked in Hw, Hr.
  destruct (Endpoint.router e) as [r|] eqn:Er; [|by split; unfold wired, revoked; simpl; rewrite Er].
  pose proof (Hm held held_framing (r, e) (conj Hw Hr)) as H.
  destruct (m (r, e)) as [o [r' e']]. exact H.
Qed.
Lemma in_router_close_kept e r : wired e -> Endpoint.router e = Some r -> (mild -> session_ok r) -> kept (in_router close e).2.
Proof.
  intros Hw Er Hs. unfold in_router. unfold wired in Hw. rewrite Er in *.
  pose proof (held_close (r, e) Hw Hs) as H. destruct (close (r, e)) as [o [r' e']]. exact H.
Qed.
(** A change of the router between its methods. *)
Lemma on_router_eq f e : (on_router f e).2 = match Endpoint.router e with Some r => Endpoint.set_router (Some (f r)) e | None => e end.
Proof. unfold on_router, in_router. by destruct (Endpoint.router e). Qed.
Lemma on_router_kept f e :
  (forall r, sent_by (log (f r)) = sent_by (log r) /\ closed (f r) = closed r /\ ((mild -> session_ok r) -> mild -> session_ok (f r))) ->
  kept e -> kept (on_router f e).2.
Proof.
  intros Hf [Hw Hr]. rewrite on_router_eq. unfold kept, wired, revoked in *. destruct (Endpoint.router e) as [r|] eqn:Er; [|by rewrite Er].
  simpl. destruct (Hf r) as (-> & -> & Hs). destruct Hr as [Hc Hm]. split; [done|]. split; [done | by apply Hs].
Qed.

Lemma peer_kept_note e : (forall l bytes n, e <> Endpoint.Sent l bytes n) -> preserves kept (Endpoint.note e).
Proof. intros He s Hs. destruct e; try done. by destruct (He l bytes buffered). Qed.
Lemma kept_get {A} (f : endpoint -> ST endpoint A) : (forall x, preserves kept (f x)) -> preserves kept (get ≫= f).
Proof. intros Hf. apply preserves_get_bind. intros x. apply Hf. Qed.
Lemma peer_kept_modify f : (forall s, kept s -> kept (f s)) -> preserves kept (modify f).
Proof. apply preserves_modify. Qed.
Ltac keeping :=
  repeat match goal with
  | |- preserves _ (get ≫= _) => apply kept_get; intros ?
  | |- preserves _ (_ ≫= _) => apply preserves_bind; [| intros ?]
  | |- preserves _ (if ?b then _ else _) => destruct b
  | |- preserves _ (match ?x with _ => _ end) => destruct x
  | |- preserves _ (mapS _ _) => apply preserves_mapS; intros ?
  | |- preserves _ (catch _ _) => apply preserves_catch; [| intros ?]
  | |- preserves _ (Endpoint.note _) => by apply peer_kept_note
  | |- preserves _ (modify _) => apply peer_kept_modify; intros ? ?; first [assumption | by repeat case_match]
  | |- preserves _ (mret _) => apply preserves_ret
  | |- preserves _ (mthrow _) => apply preserves_throw
  | |- preserves _ (lift _) => apply preserves_lift
  | |- preserves _ (gets _) => apply preserves_gets
  | |- preserves _ (throw_when _ _) => apply preserves_throw_when
  | |- preserves _ _ => solve [eauto with kept]
  end.
Create HintDb kept.

Lemma kept_stop_slot slot : preserves kept (Endpoint.stop_slot slot).
Proof. unfold Endpoint.stop_slot. keeping. Qed.
Hint Resolve kept_stop_slot : kept.
Lemma peer_kept_close : preserves kept Endpoint.close.
Proof.
  apply preserves_get_bind. intros s Hs. destruct (Endpoint.closing s); try exact Hs.
  set (P := fun s' : endpoint => wired s' /\ Endpoint.router s' = Endpoint.router s).
  match goal with |- kept ((_ ≫= fun _ => _ ≫= fun _ => ?m) s).2 => assert (triple kept P m (fun _ => kept)) as H end.
  - eapply triple_bind with (Q := fun _ => P).
    { apply triple_modify. intros e He. by repeat case_match. }
    intros _. eapply triple_bind with (Q := fun _ => P); [by apply triple_modify|].
    intros _. eapply triple_bind with (Q := fun _ => kept).
    { intros e [Hw Hr]. destruct Hs as [_ Hrev]. unfold revoked in Hrev. destruct (Endpoint.router s) as [r|].
      - pose proof (in_router_close_kept e r Hw Hr (proj2 Hrev)) as Hc. unfold catch. simpl.
        destruct (in_router close e) as [[]  e']; [exact Hc|]. by apply (peer_kept_note Endpoint.OnError).
      - split; [done|]. unfold revoked. by rewrite Hr. }
    intros _. apply triple_preserves. keeping.
  - specialize (H (Endpoint.set_timer false (Endpoint.set_closed true s)) (conj (proj1 Hs) eq_refl)).
    match goal with |- kept ((_ ≫= fun _ => _ ≫= fun _ => ?m) s).2 => change (kept (m (Endpoint.set_timer false (Endpoint.set_closed true s))).2) end.
    match goal with |- kept (?x).2 => destruct x as [[] e'] end; exact H.
Qed.
Hint Resolve peer_kept_close : kept.

(** ** Every event *)

Lemma kept_flush : preserves kept Endpoint.flush.
Proof.
  unfold Endpoint.flush. assert (preserves kept Endpoint.router_flush) by (apply in_router_kept; intros; by apply framed_flush).
  keeping.
Qed.
Hint Resolve kept_flush : kept.
Lemma kept_opened : preserves kept Endpoint.opened.
Proof. unfold Endpoint.opened. keeping. Qed.
Hint Resolve kept_opened : kept.
Lemma kept_channel c : preserves kept (Endpoint.channel c).
Proof. unfold Endpoint.channel. keeping. Qed.
Lemma kept_on_message l m : preserves kept (Endpoint.on_message l m).
Proof.
  unfold Endpoint.on_message.
  assert (forall bytes, preserves kept (Endpoint.router_receive l bytes)) by (intros; apply in_router_kept; intros; by apply framed_receive).
  keeping.
Qed.
Hint Resolve kept_channel kept_on_message : kept.

(** The state in which an offer is examined. *)
Definition fresh (s : endpoint) : Prop := wired s /\ Endpoint.router s = None /\ Endpoint.closed s = false.
Lemma fresh_kept s : fresh s -> kept s.
Proof. intros (Hw & Hn & _). split; [done|]. unfold revoked. by rewrite Hn. Qed.
Lemma kept_prepare o : triple kept fresh (Endpoint.prepare o) (fun _ => kept).
Proof.
  unfold Endpoint.prepare. apply triple_get_any. intros x.
  eapply triple_bind with (Q := fun _ => fresh); [apply triple_lift; [apply fresh_kept|by intros]|]. intros sdp.
  eapply triple_bind with (Q := fun _ => fresh); [apply triple_lift; [apply fresh_kept|by intros]|]. intros shape.
  eapply triple_bind with (Q := fun _ => fresh); [apply triple_modify; intros s Hs; by destruct (default _ _ =? 0)|]. intros _.
  eapply triple_bind with (Q := fun _ => fresh).
  { destruct (Endpoint.videoPort x) as [v|]; [|by apply triple_ret].
    eapply triple_bind with (Q := fun _ => fresh); [|intros; by apply triple_ret].
    apply (triple_mapS kept _ (fun _ => fresh)). intros visited y rest _.
    eapply triple_bind with (Q := fun _ => fresh); [apply triple_lift; [apply fresh_kept|by intros]|].
    intros slot. by apply triple_modify. }
  intros _. apply triple_get_any. intros x'.
  eapply triple_bind with (Q := fun r s => fresh s /\ sent_by (log r) = [] /\ (mild -> session_ok r)).
  { apply triple_lift; [apply fresh_kept|]. intros r s Hs Hr. apply new_router in Hr as (? & _ & Hok). split_and!; [done..|]. auto. }
  intros r. eapply triple_bind with (Q := fun _ => kept); [|intros _; by apply triple_modify].
  apply triple_modify. intros s [(Hw & Hn & Hc) [Hr Hok]]. unfold wired in Hw. rewrite Hn in Hw.
  split; [unfold wired; simpl; congruence|]. unfold revoked. simpl. split; [congruence | done].
Qed.
Lemma kept_answer B o s : EndpointProps.inv B s -> kept s -> kept (Endpoint.answer o s).2.
Proof.
  intros [Hc _] Hs. unfold Endpoint.answer. rewrite ST_bind_eq. unfold get, throw_when. rewrite ST_bind_eq.
  destruct (Endpoint.used s || Endpoint.closed s) eqn:E; [exact Hs|]. bools.
  change (kept (Endpoint.or_close (Endpoint.prepare o) (Endpoint.set_used true s)).2).
  unfold Endpoint.or_close, catch.
  pose proof (kept_prepare o (Endpoint.set_used true s)) as H1.
  assert (fresh (Endpoint.set_used true s)) as H2.
  { split; [exact (proj1 Hs)|]. simpl. split; [|done]. by eapply EndpointProps.core_unused. }
  specialize (H1 H2). destruct (Endpoint.prepare o _) as [[[]|e] s1]; [exact H1|].
  apply (preserves_bind kept Endpoint.close); [apply peer_kept_close| |exact H1]. intros _. apply preserves_throw.
Qed.


Lemma kept_endpoint B e s : EndpointProps.inv B s -> kept s -> outward e = true -> kept (Endpoint.handle e s).2.
Proof.
  intros Hi Hs Ho. destruct e; try done; [by eapply kept_answer|..]; clear Hi Ho; revert s Hs;
    match goal with |- forall s, _ -> kept (Endpoint.handle ?e s).2 => change (preserves kept (Endpoint.handle e)) end;
    cbn [Endpoint.handle]; unfold Endpoint.negotiated_answer, Endpoint.negotiation_failed, Endpoint.or_close, Endpoint.expire, Endpoint.reject,
      Endpoint.when_listening, Endpoint.on_low, Endpoint.on_state, Endpoint.on_connection, Endpoint.run_peer_close, Endpoint.settle_close,
      Endpoint.set_transport; keeping.
Qed.

(** The router's part of an event. *)
Lemma framed_viewer_changed track st J : framing Endpoint.send J -> preserves (related J) (viewer_changed track st).
Proof.
  intros HJ. apply preserves_get_bind. intros s Hs. destruct (mget track _) as [b|]; [|done].
  apply (framed_viewer_state Endpoint.send J HJ); [|done]. intros w. by apply framed_event.
Qed.
Lemma inv_in_router B (m : ST (router * endpoint) unit) : carried m -> preserves (EndpointProps.inv B) (in_router m).
Proof.
  intros Hm s [Hc Hs]. unfold in_router. destruct (Endpoint.router s) as [r|] eqn:Er; [|by split].
  pose proof (in_router_law m (EndpointProps.with_router B EndpointProps.settled) Hm
    (fun l bytes => EndpointProps.with_router_send B _ l bytes EndpointProps.settled_unreached)
    (fun r s _ => EndpointProps.with_router_set B _ r s EndpointProps.settled_unreached) s) as H.
  unfold in_router in H. rewrite Er in H. destruct H as (Hc' & _ & Hs'); [split_and!; [done | by exists r | done]|]. by split.
Qed.
Lemma inv_on_router B f : preserves (EndpointProps.inv B) (on_router f).
Proof. apply inv_in_router. by intros I Ht s Hs. Qed.

(** What the surroundings say after an event. *)
Definition gentle (e : event) : Prop := match e with Surroundings o => lets_go o | _ => True end.

Lemma kept_surroundings o s : (mild -> lets_go o) -> kept s -> kept (on_router (set_out o) s).2.
Proof. intros Ho. apply on_router_kept. intros r. split_and!; [done..|]. intros Hr Hm. destruct (Hr Hm). split; simpl; auto. Qed.
Lemma kept_shared ops s : kept s -> kept (on_router (fun r => set_guard (CommandGuardRuns.run guard_hook ops (guard r)).2 r) s).2.
Proof.
  apply on_router_kept. intros r. split_and!; [done..|]. intros Hr Hm. pose proof (Hr Hm) as Hok.
  apply session_ok_guard; [|done]. apply run_sound; [done | apply Hok].
Qed.

Lemma peer_handle B e s : (mild -> gentle e) -> EndpointProps.inv B s -> kept s ->
  EndpointProps.inv B (handle e s).2 /\ kept (handle e s).2.
Proof.
  intros Hg Hi Hs. destruct e as [e|id native|track st|m|o|ops]; simpl.
  - destruct (outward e) eqn:Ho; [|done]. split; [by apply EndpointProps.inv_handle|by eapply kept_endpoint].
  - split; [apply inv_in_router; [apply framed_carried|done]|apply in_router_kept; [|done]]; intros; by apply framed_sample.
  - split; [apply inv_in_router; [apply framed_carried|done]|apply in_router_kept; [|done]]; intros; by apply framed_viewer_changed.
  - split; [apply inv_in_router; [apply framed_carried|done]|apply in_router_kept; [|done]]; intros; by apply framed_on_keyframe_request.
  - split; [by apply inv_on_router | by apply kept_surroundings].
  - split; [by apply inv_on_router | by apply kept_shared].
Qed.
Lemma peer_run B es s : (mild -> Forall gentle es) -> EndpointProps.inv B s -> kept s ->
  EndpointProps.inv B (run es s) /\ kept (run es s).
Proof.
  revert s. induction es as [|e es IH]; intros s Hg Hi Hs; [done|]. simpl.
  assert (H : mild -> gentle e) by (intros H; by apply Hg, Forall_cons in H as [? _]).
  destruct (peer_handle B e s H Hi Hs). apply IH; [|done..]. intros Hm. by apply Hg, Forall_cons in Hm as [_ ?].
Qed.
End runs.

(** C17: a peer with its router, from its construction and through every order
    of events, with the guard used by others in between: what was put on the
    wire is exactly what the router sent, in the same order, each message on
    one of the three channels and within the negotiated limit; and once the
    peer is closed none of its listeners is left with the transport, its router
    is closed, and, as long as the media plane lets go of its viewers without
    an error, its session is revoked: the guard knows neither the session nor
    any handle of it. *)
Theorem peer_transmits endpoint_options s0 es :
  Guard.wf shared -> Endpoint.constructor endpoint_options = Ok s0 ->
  let s := run es s0 in
  wire (Endpoint.events s) = match Endpoint.router s with Some r => sent_by (log r) | None => [] end /\
  Forall (fun '(l, bytes) => l ∈ Endpoint.labels /\ zlength bytes <= Endpoint.maxMessageBytes s) (wire (Endpoint.events s)) /\
  (Endpoint.closed s = true -> Endpoint.listening s = [] /\
     match Endpoint.router s with Some r => closed r = true | None => True end) /\
  (lets_go env -> Forall gentle es -> Endpoint.closed s = true -> forall r, Endpoint.router s = Some r ->
     mget (sessionId r) (Guard.sessions (guard r)) = None /\
     forall h st, mget h (Guard.handles (guard r)) = Some st -> Guard.sessionId (Guard.identity st) <> sessionId r).
Proof.
  intros Hw0 Hs0 s. pose proof (EndpointProps.constructor_inv _ _ Hs0) as Hi.
  set (mild := lets_go env /\ Forall gentle es).
  assert (kept mild s0) as Hk.
  { unfold Endpoint.constructor in Hs0. inv_res. by simplify_eq. }
  destruct (peer_run mild ltac:(by intros []) Hw0 _ es s0 ltac:(by intros []) Hi Hk) as [[Hc Hset] [Hw Hr]]. fold s in Hc, Hset, Hw, Hr.
  split_and!; [exact Hw| | |].
  - apply Forall_forall. intros [l bytes] Hin. unfold wire in Hin. apply list_elem_of_omap in Hin as (e & Hin & He).
    pose proof (EndpointProps.core_events _ _ Hc) as Hev. rewrite Forall_forall in Hev. specialize (Hev e Hin).
    destruct e; simplify_eq/=. naive_solver.
  - intros Hcl. split; [|unfold revoked in Hr; destruct (Endpoint.router s); [by apply Hr|done]]. rewrite Hcl in Hset. apply Hset.
  - intros Henv Hes Hcl r Er. unfold revoked in Hr. rewrite Er in Hr. destruct Hr as [Hrc Hok].
    destruct (Hok (conj Henv Hes)) as [Hwf _ _ Hrev]. pose proof (Hrev (Hrc Hcl)) as Hnone. split; [done|].
    intros h st Hst Heq. pose proof (Guard.hw_session _ _ _ (Guard.wf_handle _ Hwf _ _ Hst)) as Hsess.
    by rewrite Heq, Hnone in Hsess.
Qed.
End peer.
End Peer.
