(* ===== verification/PeerDemo.v ===== *)
(** * A concrete peer

    One peer from its offer to its end, through the endpoint and its router. *)

From S2P Require Import Prelude JsMap JsNumber JsString Values SessionValidation CommandGuard CommandGuardProps ConfigTypes Sdp SdpProps Protocol VideoRouter Router RouterFrame RouterDemo Endpoint EndpointProps Peer.

Module PeerDemo.

Definition peer_options (maxMessageBytes : Z) (_ : list Endpoint.VideoSlot) : Router.RouterOptions := {|
  Router.opt_config := {| robotId := js "r"; ConfigTypes.limits := {| maxPeers := 2; ConfigTypes.maxMessageBytes := maxMessageBytes;
    maxPeerQueueBytes := 65536; maxChannelBufferedBytes := 65536 |};
    topics := map Router.binding [RouterDemo.odom; RouterDemo.lamp; RouterDemo.drive] |};
  Router.opt_bindings := [RouterDemo.odom; RouterDemo.lamp; RouterDemo.drive]; Router.opt_epoch := VStr (js "e1");
  Router.opt_maxHandles := VNum (of_Z 2); Router.opt_maxRequests := VNum (of_Z 4); Router.opt_requestTtlMs := VNum (of_Z 1000);
  Router.opt_maxControlRateHz := VNum (of_Z 20); Router.opt_callbacks := true; Router.opt_video := None |}.
Definition endpoint_options : Endpoint.EndpointOptions := {|
  Endpoint.opt_maxMessageBytes := VNum (of_Z 65536); Endpoint.opt_maxBufferedBytes := VNum (of_Z 20000);
  Endpoint.opt_maxSdpBytes := VNum (of_Z 4096); Endpoint.opt_timeoutMs := VNum (of_Z 1000);
  Endpoint.opt_video := Some {| Endpoint.maxSlots := 1;
    Endpoint.addSlot := fun v => Ok {| Endpoint.mid := js "1"; Endpoint.slotProfile := profileLevelId v |};
    Endpoint.stopSlot := fun _ => Ok tt |} |}.
Definition new_endpoint : Endpoint.endpoint Router.router :=
  {| Endpoint.maxBufferedBytes := 20000; Endpoint.maxSdpBytes := 4096; Endpoint.timeoutMs := 1000;
     Endpoint.videoPort := Endpoint.opt_video endpoint_options; Endpoint.channels := [];
     Endpoint.listening := [Endpoint.OnDataChannel; Endpoint.ConnectionStateChange]; Endpoint.router := None;
     Endpoint.closed := false; Endpoint.used := false; Endpoint.closing := Endpoint.NotClosing; Endpoint.timer := false;
     Endpoint.deadline := None; Endpoint.maxMessageBytes := 16384; Endpoint.slots := []; Endpoint.events := [] |}.
Lemma new_endpoint_made : Endpoint.constructor endpoint_options = Ok new_endpoint.
Proof. vm_compute. reflexivity. Qed.

Definition said (text : string) : Peer.event :=
  Peer.Transport (Endpoint.Message CONTROL (Endpoint.BinaryMessage (RouterDemo.json text))).
Definition meeting : list Peer.event :=
  Peer.Transport (Endpoint.Answer {| Endpoint.offer_type := VStr (js "offer"); Endpoint.offer_sdp := VStr demo_offer |}) ::
  map (fun l => Peer.Transport (Endpoint.NewChannel (EndpointProps.demo_channel l))) Endpoint.labels.
Definition conversation : list Peer.event := meeting ++ [
  said "{'v':1,'op':'hello'}"; said "{'v':1,'op':'subscribe','id':'r1','topic':'/odom'}";
  said "{'v':1,'op':'ready','stream_id':'g:1:1'}"; Peer.Sampled (js "g:1:1") (VBool true)].
Definition ending : list Peer.event := [Peer.Transport (Endpoint.Connection (js "failed")); Peer.Sampled (js "g:1:1") (VBool false)].
Abbreviation peer_run := (Peer.run peer_options RouterDemo.guard0 (RouterDemo.calm_world 100) RouterDemo.hook).

Lemma gentle_conversation : Forall Peer.gentle (conversation ++ ending).
Proof. repeat constructor. Qed.

Lemma peer_transmits_witness :
  let s := peer_run (conversation ++ ending) new_endpoint in
  length (Peer.wire (Endpoint.events s)) = 3%nat /\ Endpoint.closed s = true /\
  Peer.wire (Endpoint.events s) = match Endpoint.router s with Some r => RouterFrame.sent_by (Router.log r) | None => [] end /\
  Endpoint.listening s = [] /\
  exists r, Endpoint.router s = Some r /\ Router.closed r = true /\ mget (Router.sessionId r) (Guard.sessions (Router.guard r)) = None.
Proof.
  cbv zeta. split; [vm_compute; reflexivity|].
  assert (Hc : Endpoint.closed (peer_run (conversation ++ ending) new_endpoint) = true) by (vm_compute; reflexivity).
  split; [exact Hc|].
  destruct (Peer.peer_transmits peer_options RouterDemo.guard0 (RouterDemo.calm_world 100) RouterDemo.hook
    endpoint_options new_endpoint (conversation ++ ending) RouterDemo.demo_guard_wf new_endpoint_made) as (Hw & _ & Hr & Hs).
  split; [exact Hw|]. destruct (Hr Hc) as [Hl Hclosed]. split; [exact Hl|].
  assert (Hx : is_Some (Endpoint.router (peer_run (conversation ++ ending) new_endpoint))) by (apply (bool_decide_eq_true_1 _); vm_compute; reflexivity).
  destruct Hx as [r Hx]. exists r. split; [exact Hx|]. split; [by rewrite Hx in Hclosed|].
  refine (proj1 (Hs _ gentle_conversation Hc r Hx)). intros track. reflexivity.
Defined.
End PeerDemo.
