(* ===== verification/Adapter.v ===== *)
(** * The ROS adapter

    [ros/adapter.ts]: the process owns one native entity per output and lends
    listeners to the sessions.  The native backend is an interface
    ([ros/types.d.ts]) that may fail at every call; [MockRosBackend] is the one
    the repository ships for its tests. *)

From S2P Require Import Prelude JsNumber JsString JsMap Values SessionValidation ConfigTypes CodecTypes Codec Json Router.

Module Adapter.
Import Router.

(** [RosBackend].  A publisher is known by the number it was created under, a
    subscription by the key whose aliases its callback serves. *)
Class RosBackend (B : Type) := {
  createPublisher : jsstr -> jsstr -> RosQos -> ST B nat;
  publish_native : nat -> jsval -> ST B unit;
  createSubscription : jsstr -> jsstr -> RosQos -> jsstr -> ST B unit;
  spin : ST B unit;
  close_backend : ST B unit }.

Inductive adapter_state := New | Running | Closed.
#[export] Instance adapter_state_eq : EqDecision adapter_state.
Proof. solve_decision. Defined.

Definition reliability_text (r : Reliability) : jsstr := match r with Reliable => js "reliable" | BestEffort => js "best_effort" end.
Definition durability_text (d : Durability) : jsstr := match d with Volatile => js "volatile" | TransientLocal => js "transient_local" end.
Definition history_text (h : History) : jsstr := match h with KeepLast => js "keep_last" end.

(** [JSON.stringify] of an array always gives a text. *)
Definition entityKey (entry : RouterBinding) : jsstr :=
  let b := binding entry in
  match stringify (arr [VStr (rosTopic b); VStr (rosType b); VStr (history_text (history (qos b))); VNum (of_Z (depth (qos b)));
                        VStr (reliability_text (reliability (qos b))); VStr (durability_text (durability (qos b)))]) with
  | Ok (Some text) => text
  | _ => []
  end.

Section adapter.
(** The backend, and the listeners of the sessions. *)
Context {B : Type} {backend_ops : RosBackend B} {L : Type} `{EqDecision L}.

(** What the adapter did, the newest first: the calls it made on its backend,
    with the arguments and the publishers they were made with. *)
Inductive effect :=
| Created (dir : Direction) (key type topic : jsstr) (qos : RosQos) (** the call *)
| Opened (publisher : nat) (type topic : jsstr) (qos : RosQos) (** what [createPublisher] gave *)
| Spun
| Released
| Handed (publisher : nat) (native : jsval)
| Delivered (l : L) (native : jsval)
| Reported (e : js_error).

Record adapter := {
  registrations : jsmap jsstr RouterBinding;
  listeners : jsmap jsstr (list L);
  publishers : jsmap jsstr nat;
  state : adapter_state;
  aliases : jsmap jsstr (list jsstr) (** the local [subscriptions] of [start], kept by its callbacks *);
  backend : B;
  log : list effect }.

Definition set_listeners v (s : adapter) := {| registrations := registrations s; listeners := v; publishers := publishers s;
  state := state s; aliases := aliases s; backend := backend s; log := log s |}.
Definition set_publishers v (s : adapter) := {| registrations := registrations s; listeners := listeners s; publishers := v;
  state := state s; aliases := aliases s; backend := backend s; log := log s |}.
Definition set_state v (s : adapter) := {| registrations := registrations s; listeners := listeners s; publishers := publishers s;
  state := v; aliases := aliases s; backend := backend s; log := log s |}.
Definition set_aliases v (s : adapter) := {| registrations := registrations s; listeners := listeners s; publishers := publishers s;
  state := state s; aliases := v; backend := backend s; log := log s |}.
Definition set_backend v (s : adapter) := {| registrations := registrations s; listeners := listeners s; publishers := publishers s;
  state := state s; aliases := aliases s; backend := v; log := log s |}.
Definition set_log v (s : adapter) := {| registrations := registrations s; listeners := listeners s; publishers := publishers s;
  state := state s; aliases := aliases s; backend := backend s; log := v |}.

Definition note (e : effect) : ST adapter unit := modify (fun s => set_log (e :: log s) s).
(** [this.onError(error)] *)
Definition report (e : js_error) : ST adapter unit := note (Reported e).
Definition in_backend {A} (m : ST B A) : ST adapter A := on backend set_backend m.

(** The calls on the backend, noted as they are made. *)
Definition open_publisher (key type topic : jsstr) (q : RosQos) : ST adapter nat :=
  note (Created web_to_ros key type topic q);;
  p ← in_backend (createPublisher type topic q);
  note (Opened p type topic q);;
  mret p.
Definition open_subscription (key type topic : jsstr) (q : RosQos) : ST adapter unit :=
  note (Created ros_to_web key type topic q);;
  in_backend (createSubscription type topic q key).
Definition hand (p : nat) (native : jsval) : ST adapter unit :=
  note (Handed p native);;
  in_backend (publish_native p native).

(** The loop of the constructor. *)
Fixpoint register (l : list RouterBinding) (s : adapter) : result adapter :=
  match l with
  | [] => Ok s
  | entry :: l =>
      let name := publicName (binding entry) in
      throw_when (mhas name (registrations s)) (Error "duplicate_ros_registration");;
      register l {| registrations := mset name entry (registrations s); listeners := mset name [] (listeners s);
        publishers := publishers s; state := state s; aliases := aliases s; backend := backend s; log := log s |}
  end.
Definition constructor (registry : list RouterBinding) (b : B) : result adapter :=
  register registry {| registrations := []; listeners := []; publishers := []; state := New; aliases := []; backend := b; log := [] |}.

Definition close : ST adapter unit :=
  s ← get;
  if bool_decide (state s = Closed) then mret tt else
  modify (set_state Closed);;
  modify (set_listeners []);;
  modify (set_publishers []);;
  note Released;;
  in_backend close_backend.

(** The body of the loop of [start]. *)
Definition create_entity (item : jsstr * RouterBinding) : ST adapter unit :=
  let '(name, entry) := item in
  let b := binding entry in
  let key := entityKey entry in
  s ← get;
  if bool_decide (direction b = web_to_ros) then
    if mhas key (publishers s) then mret tt else
    p ← open_publisher key (rosType b) (rosTopic b) (qos b);
    modify (fun s => set_publishers (mset key p (publishers s)) s)
  else
    match mget key (aliases s) with
    | Some existing => modify (fun s => set_aliases (mset key (existing ++ [name]) (aliases s)) s)
    | None =>
        modify (fun s => set_aliases (mset key [name] (aliases s)) s);;
        open_subscription key (rosType b) (rosTopic b) (qos b)
    end.

Definition start : ST adapter unit :=
  s ← get;
  throw_when (negb (bool_decide (state s = New))) (Error "ros_adapter_not_new");;
  catch (
    mapS create_entity (registrations s);;
    modify (set_state Running);;
    note Spun;;
    in_backend spin)
  (fun error =>
    o ← attempt close;
    match o with
    | Throw cleanup => mthrow (AggregateError [error; cleanup] "ros_start_cleanup_failed")
    | Ok _ => mthrow error
    end).

Definition registration (name : jsstr) (dir : Direction) : ST adapter RouterBinding :=
  s ← get;
  throw_when (negb (bool_decide (state s = Running))) (Error "ros_adapter_not_running");;
  match mget name (registrations s) with
  | None => mthrow (Error "ros_binding_denied")
  | Some entry =>
      throw_when (negb (bool_decide (direction (binding entry) = dir))) (Error "ros_binding_denied");;
      mret entry
  end.

Definition undefined_value : js_error := TypeError "undefined".

(** [listeners.add(callback)]; the closure it returns is [unsubscribe]. *)
Definition subscribe (name : jsstr) (callback : L) : ST adapter unit :=
  registration name ros_to_web;;
  s ← get;
  ls ← lift (of_option undefined_value (mget name (listeners s)));
  modify (set_listeners (mset name (if bool_decide (callback ∈ ls) then ls else ls ++ [callback]) (listeners s))).
Definition unsubscribe (name : jsstr) (callback : L) : ST adapter unit :=
  modify (fun s => match mget name (listeners s) with
    | Some ls => set_listeners (mset name (filter (.≠ callback) ls) (listeners s)) s
    | None => s
    end).

Definition publish (name : jsstr) (native : jsval) : ST adapter unit :=
  entry ← registration name web_to_ros;
  let key := entityKey entry in
  wire ← lift (Codec.encode (codec entry) native);
  normalized ← lift (Codec.decode (codec entry) wire);
  s ← get;
  p ← lift (of_option undefined_value (mget key (publishers s)));
  hand p normalized.

Section receive.
(** The callbacks the sessions lend: they may use the adapter again. *)
Variable callback : L -> jsval -> ST adapter unit.

Definition deliver (name : jsstr) (c : Codec.codec) (wire : jsval) (l : L) : ST adapter unit :=
  s ← get;
  if negb (match mget name (listeners s) with Some ls => bool_decide (l ∈ ls) | None => false end) then mret tt else
  catch (v ← lift (Codec.decode c wire); note (Delivered l v);; callback l v) report.

Definition receive (name : jsstr) (native : jsval) : ST adapter unit :=
  s ← get;
  if negb (bool_decide (state s = Running)) then mret tt else
  catch (
    entry ← lift (of_option undefined_value (mget name (registrations s)));
    wire ← lift (Codec.encode (codec entry) native);
    ls ← lift (of_option undefined_value (mget name (listeners s)));
    mapS (deliver name (codec entry) wire) ls;; mret tt)
  report.

(** The callback of the native subscription of a key. *)
Definition on_native (key : jsstr) (native : jsval) : ST adapter unit :=
  s ← get;
  mapS (fun alias => receive alias native) (default [] (mget key (aliases s)));; mret tt.
End receive.
End adapter.
Arguments adapter : clear implicits.
Arguments effect : clear implicits.

(** ** The mock backend *)

Module Mock.
Record published_item := { p_type : jsstr; p_topic : jsstr; p_qos : RosQos; p_native : jsval }.
Record MockRosBackend := {
  creators : list (jsstr * jsstr * RosQos) (** the publishers handed out *);
  published : list published_item;
  subscriptions : list (jsstr * jsstr * RosQos * jsstr);
  closed : bool; spinning : bool }.
Definition fresh : MockRosBackend := {| creators := []; published := []; subscriptions := []; closed := false; spinning := false |}.

#[export] Instance mock : RosBackend MockRosBackend := {
  createPublisher type topic qos := fun m =>
    (Ok (List.length (creators m)), {| creators := creators m ++ [(type, topic, qos)]; published := published m;
      subscriptions := subscriptions m; closed := closed m; spinning := spinning m |});
  publish_native p native := fun m =>
    match creators m !! p with
    | Some (type, topic, qos) => (Ok tt, {| creators := creators m; subscriptions := subscriptions m; closed := closed m; spinning := spinning m;
        published := published m ++ [{| p_type := type; p_topic := topic; p_qos := qos; p_native := native |}] |})
    | None => (Ok tt, m)
    end;
  createSubscription type topic qos callback := fun m =>
    (Ok tt, {| creators := creators m; published := published m; subscriptions := subscriptions m ++ [(type, topic, qos, callback)];
      closed := closed m; spinning := spinning m |});
  spin := fun m => (Ok tt, {| creators := creators m; published := published m; subscriptions := subscriptions m; closed := closed m; spinning := true |});
  close_backend := fun m => (Ok tt, {| creators := creators m; published := published m; subscriptions := []; closed := true; spinning := false |}) }.

(** A delivery by the mock: the callbacks registered for a topic. *)
Definition emit {L : Type} `{EqDecision L} (callback : L -> jsval -> ST (adapter MockRosBackend L) unit) (topic : jsstr) (native : jsval) :
  ST (adapter MockRosBackend L) unit :=
  s ← get;
  mapS (fun '(_, t, _, key) => if bool_decide (t = topic) then on_native callback key native else mret tt) (subscriptions (backend s));;
  mret tt.
End Mock.
End Adapter.
