(* ===== verification/AdapterProps.v ===== *)
(** * What the ROS adapter guarantees

    One native entity per output, deliveries and publications only while the
    adapter runs, and listeners that cannot disturb each other; over every
    order of operations, with a backend and callbacks that may fail anywhere. *)

From S2P Require Import Prelude JsNumber JsString JsMap Values SessionValidation ConfigTypes CodecTypes Codec Json JsonProps Router RouterDemo Adapter.

Module AdapterProps.
Import Router Adapter.

(** ** Entity keys *)

Definition text_entry (e : RouterBinding) : Prop :=
  Forall JsonProps.code_unit (rosTopic (binding e)) /\ Forall JsonProps.code_unit (rosType (binding e)).

Lemma entityKey_text e : exists rest,
  entityKey e = 91 :: quote (rosTopic (binding e)) ++ 44 :: quote (rosType (binding e)) ++ rest.
Proof.
  unfold entityKey. cbn [stringify arr map]. set (n := if is_finite _ then _ else _). clearbody n. unfold_st.
  eexists. cbv [mbind result_bind mret result_ret commas default from_option]. cbn [app]. rewrite <- !app_assoc. cbn [app].
  rewrite <- !app_assoc. reflexivity.
Qed.

Lemma entityKey_inj e e' : text_entry e -> text_entry e' -> entityKey e = entityKey e' ->
  rosTopic (binding e) = rosTopic (binding e') /\ rosType (binding e) = rosType (binding e').
Proof.
  intros [Ht Hy] [Ht' Hy'] Hk. destruct (entityKey_text e) as (r & H), (entityKey_text e') as (r' & H'). rewrite H, H' in Hk.
  apply (f_equal (drop 1)) in Hk. apply JsonProps.quote_inj in Hk as [? Hk]; [|done..].
  apply (f_equal (drop 1)) in Hk. by apply JsonProps.quote_inj in Hk as [? _].
Qed.

Section props.
Context {B : Type} {backend_ops : RosBackend B} {L : Type} `{EqDecision L}.
Abbreviation adp := (adapter B L).
Implicit Types s : adp.

(** ** The invariant *)

(** The keys of the entities created in one direction, newest first. *)
Definition created_key (d : Direction) (e : effect L) : option jsstr :=
  match e with Created d' k _ _ _ => if decide (d' = d) then Some k else None | _ => None end.
Definition created (d : Direction) (l : list (effect L)) : list jsstr := omap (created_key d) l.
Definition is_report (e : effect L) : Prop := match e with Reported _ => True | _ => False end.

(** A configured entry of one direction. *)
Definition configured (s : adp) (d : Direction) (e : RouterBinding) : Prop :=
  exists name, mget name (registrations s) = Some e /\ direction (binding e) = d.
(** [p] is a publisher the backend gave for the topic, the type and the QoS of
    a configured entry with this key. *)
Definition publisher_for (s : adp) (key : jsstr) (p : nat) : Prop :=
  exists e, configured s web_to_ros e /\ entityKey e = key /\
    Opened p (rosType (binding e)) (rosTopic (binding e)) (qos (binding e)) ∈ log s.

(** Why a call on the backend was made: an entity is created as an entry
    configures it; a value handed to ROS is the copy its entry's codec makes,
    and goes to a publisher for that entry's key. *)
Definition justified (s : adp) (e : effect L) : Prop :=
  match e with
  | Created d key type topic q => exists entry, configured s d entry /\ entityKey entry = key /\
      rosType (binding entry) = type /\ rosTopic (binding entry) = topic /\ qos (binding entry) = q
  | Handed p native => exists entry given wire, configured s web_to_ros entry /\
      Codec.encode (codec entry) given = Ok wire /\ Codec.decode (codec entry) wire = Ok native /\
      publisher_for s (entityKey entry) p
  | _ => True
  end.
Lemma publisher_for_grows s s' key p :
  registrations s' = registrations s -> log s ⊆ log s' -> publisher_for s key p -> publisher_for s' key p.
Proof. intros Hr Hl (e & (name & ?) & ? & ?). exists e. unfold configured. rewrite Hr. eauto. Qed.
Lemma justified_grows s s' e :
  registrations s' = registrations s -> log s ⊆ log s' -> justified s e -> justified s' e.
Proof.
  intros Hr Hl. destruct e as [d key type topic q| | | |p native| |]; try done; simpl; unfold configured.
  - by rewrite Hr.
  - intros (entry & given & wire & Hc & ? & ? & ?). exists entry, given, wire. rewrite Hr. split_and!; try done.
    by eapply publisher_for_grows.
Qed.

Record facts (s : adp) : Prop := {
  f_names : mall (fun name e => publicName (binding e) = name) (registrations s);
  f_keys : NoDup (mkeys (registrations s));
  f_created : forall d, NoDup (created d (log s));
  f_log : Forall (justified s) (log s);
  f_publishers : forall key p, mget key (publishers s) = Some p -> publisher_for s key p;
  f_listeners : state s <> Closed -> forall name, is_Some (mget name (registrations s)) -> is_Some (mget name (listeners s)) }.

(** Entities exist for the registrations already visited. *)
Record opened (visited : list (jsstr * RouterBinding)) (s : adp) : Prop := {
  o_publishers : created web_to_ros (log s) = rev (mkeys (publishers s));
  o_aliases : created ros_to_web (log s) = rev (mkeys (aliases s));
  o_out : forall name e, (name, e) ∈ visited -> direction (binding e) = web_to_ros -> is_Some (mget (entityKey e) (publishers s));
  o_in : forall name e, (name, e) ∈ visited -> direction (binding e) = ros_to_web ->
    exists l, mget (entityKey e) (aliases s) = Some l /\ name ∈ l;
  o_sound : forall key l name, mget key (aliases s) = Some l -> name ∈ l ->
    exists e, mget name (registrations s) = Some e /\ entityKey e = key /\ direction (binding e) = ros_to_web }.

Record inv (s : adp) : Prop := {
  i_facts : facts s;
  i_state : match state s with
    | New => log s = [] /\ publishers s = [] /\ aliases s = []
    | Running => Released ∉ log s /\ opened (registrations s) s
    | Closed => listeners s = [] /\ publishers s = [] /\
        exists new old, log s = new ++ Released :: old /\ Forall is_report new /\ Released ∉ old
    end }.

(** In the middle of [start], or where a call of it has thrown. *)
Definition broken (s : adp) : Prop := facts s /\ state s <> Closed /\ Released ∉ log s.

(** ** Operations *)

Lemma facts_note e s :
  facts s -> justified s e -> (forall d k, created_key d e = Some k -> k ∉ created d (log s)) -> facts (set_log (e :: log s) s).
Proof.
  intros [Hn Hk Hc Hh Hp Hl] He Hnew.
  assert (Hgrow : log s ⊆ log (set_log (e :: log s) s)) by (intros x Hx; by right).
  split; try done; simpl.
  - intros d. unfold created. simpl. destruct (created_key d e) as [k|] eqn:Hd; [|apply Hc].
    apply NoDup_cons. split; [by apply Hnew | apply Hc].
  - constructor; [by eapply (justified_grows s)|]. eapply Forall_impl; [exact Hh|]. intros x. by apply justified_grows.
  - intros key p Hkey. by eapply (publisher_for_grows s), Hp.
Qed.

Definition active (s : adp) : Prop := inv s /\ state s <> New.

Lemma active_report e : preserves active (report e).
Proof.
  intros s [[Hf Hs] Hn]. split; [|done]. split; [by apply facts_note|]. simpl in *. destruct (state s); [done| |].
  - destruct Hs as [Hr []]. split; [by intros [|]%elem_of_cons | by split].
  - destruct Hs as (? & ? & new & old & Hl & Hnew & Hold). split_and!; [done..|].
    exists (Reported e :: new), old. rewrite Hl. split_and!; [done | by constructor | done].
Qed.

Lemma facts_same s s' : facts s -> registrations s' = registrations s -> log s' = log s ->
  (forall key p, mget key (publishers s') = Some p -> publisher_for s key p) ->
  (state s' <> Closed -> forall name, is_Some (mget name (registrations s)) -> is_Some (mget name (listeners s'))) -> facts s'.
Proof.
  intros [Hn Hk Hc Hh Hp Hl] Hr Hg Hps Hls. assert (Hgrow : log s ⊆ log s') by by rewrite Hg.
  split; rewrite ?Hr, ?Hg; try done.
  - eapply Forall_impl; [exact Hh|]. intros x. by apply justified_grows.
  - intros key p Hkey. by eapply (publisher_for_grows s), Hps.
Qed.

(** [close], from a running adapter or from a start that has failed. *)
Lemma close_broken s : broken s -> inv (close s).2 /\ state (close s).2 = Closed.
Proof.
  intros (Hf & Hs & Hr). unfold close. rewrite get_bind, bool_decide_false by done. unfold note, in_backend, on. unfold_st.
  destruct (close_backend (backend s)) as [o b] eqn:Hb. simpl. rewrite Hb. simpl. split; [|done]. split; simpl.
  - apply (facts_same (set_log (Released :: log s) s)); try done. by apply facts_note.
  - split_and!; [done..|]. by exists [], (log s).
Qed.
Lemma running_broken s : inv s -> state s = Running -> broken s.
Proof. intros [Hf Hs] Hr. rewrite Hr in Hs. split_and!; [done | by rewrite Hr | apply Hs]. Qed.
Lemma new_broken s : inv s -> state s = New -> broken s.
Proof. intros [Hf Hs] Hr. rewrite Hr in Hs. destruct Hs as (Hl & _). split_and!; [done | by rewrite Hr | rewrite Hl; apply not_elem_of_nil]. Qed.

Lemma adapter_inv_close : preserves inv close.
Proof.
  intros s Hs. destruct (state s) eqn:Hst.
  - by apply close_broken, new_broken.
  - by apply close_broken, running_broken.
  - unfold close. rewrite get_bind. by rewrite bool_decide_true.
Qed.
Lemma close_closed s : state (close s).2 = Closed.
Proof.
  unfold close. rewrite get_bind. case_bool_decide; [done|]. unfold note, in_backend, on. unfold_st.
  destruct (close_backend (backend s)) as [o b] eqn:Hb. simpl. by rewrite Hb.
Qed.

(** ** Starting *)

Lemma broken_backend b s : broken s -> broken (set_backend b s).
Proof. intros ([] & ? & ?). split_and!; try done. Qed.
Lemma opened_backend visited b s : opened visited s -> opened visited (set_backend b s).
Proof. by intros []. Qed.
Lemma triple_in_backend {A} (m : ST B A) visited :
  triple broken (fun s => broken s /\ state s = New /\ opened visited s) (in_backend m) (fun _ s => broken s /\ state s = New /\ opened visited s).
Proof.
  intros s (Hb & Hn & Ho). unfold in_backend, on. destruct (m (backend s)) as [[a|e] b];
    [split_and!; [by apply broken_backend | done | by apply opened_backend] | by apply broken_backend].
Qed.

Lemma mget_grows {V} (m : jsmap jsstr V) k v k' : is_Some (mget k' m) -> is_Some (mget k' (mset k v m)).
Proof. intros H. rewrite mget_mset. destruct (decide _); [by eexists | done]. Qed.

Lemma create_publisher visited name e s :
  broken s /\ state s = New /\ opened visited s -> mget name (registrations s) = Some e ->
  direction (binding e) = web_to_ros -> mget (entityKey e) (publishers s) = None ->
  match create_entity (name, e) s with
  | (Ok _, s') => broken s' /\ state s' = New /\ opened (visited ++ [(name, e)]) s'
  | (Throw _, s') => broken s'
  end.
Proof.
  intros ((Hf & Hs & Hr) & Hn & [Hp Ha Hout Hin Hsound]) He Hd Hnone.
  set (call := Created (L := L) web_to_ros (entityKey e) (rosType (binding e)) (rosTopic (binding e)) (qos (binding e))).
  assert (Hb : broken (set_log (call :: log s) s)).
  { split_and!; [|done | by intros [|]%elem_of_cons]. apply facts_note; [done|exists e; split_and!; try done; by exists name|].
    intros d k. simpl. case_decide as Hd'; [|done]. intros [= <-]. subst d. rewrite Hp, list_elem_of_In, <- in_rev, <- list_elem_of_In.
    by apply mget_None. }
  unfold create_entity. rewrite get_bind, bool_decide_true by done. unfold mhas. rewrite Hnone, bool_decide_false by (by intros []).
  unfold open_publisher, note, in_backend, on. unfold_st. simpl.
  destruct (createPublisher _ _ _ (backend s)) as [[p|x] b]; [|by apply (broken_backend b) in Hb].
  set (given := Opened (L := L) p (rosType (binding e)) (rosTopic (binding e)) (qos (binding e))).
  destruct Hb as (Hfb & ? & ?). apply (facts_note given) in Hfb; [|done..]. split_and!; [|done|].
  - split_and!; [|done | by intros [|]%elem_of_cons]. apply (facts_same _ _ Hfb); [done..| |apply Hfb].
    intros key p'. simpl. rewrite mget_mset. destruct (decide _) as [->|]; [|by apply Hfb]. intros [= <-].
    exists e. split_and!; [by exists name | done | left].
  - split; simpl; try done.
    + rewrite mkeys_mset_new by by apply mget_None. rewrite rev_app_distr. unfold created in *. simpl. by rewrite Hp.
    + intros name' e' [Hv|Hv%list_elem_of_singleton]%elem_of_app Hd'; [by eapply mget_grows, Hout|].
      injection Hv as -> ->. rewrite mget_mset_eq. by eexists.
    + intros name' e' [Hv|Hv%list_elem_of_singleton]%elem_of_app Hd'; [by eapply Hin | congruence].
Qed.

(** The aliases of an entity after one more name. *)
Lemma opened_alias visited name e l s :
  opened visited s -> mget name (registrations s) = Some e -> direction (binding e) = ros_to_web ->
  name ∈ l -> (forall n, n ∈ l -> n = name \/ exists l', mget (entityKey e) (aliases s) = Some l' /\ n ∈ l') ->
  (forall l' n, mget (entityKey e) (aliases s) = Some l' -> n ∈ l' -> n ∈ l) ->
  (forall name' e', (name', e') ∈ visited ++ [(name, e)] -> direction (binding e') = ros_to_web ->
    exists l', mget (entityKey e') (mset (entityKey e) l (aliases s)) = Some l' /\ name' ∈ l') /\
  (forall key l' name', mget key (mset (entityKey e) l (aliases s)) = Some l' -> name' ∈ l' ->
    exists e', mget name' (registrations s) = Some e' /\ entityKey e' = key /\ direction (binding e') = ros_to_web).
Proof.
  intros [Hp Ha Hout Hin Hsound] He Hd Hl Hback Hold. split.
  - intros name' e' [Hv|Hv%list_elem_of_singleton]%elem_of_app Hd'.
    + destruct (Hin _ _ Hv Hd') as (l' & Hl' & Hn). rewrite mget_mset. destruct (decide _) as [Heq|]; [|by exists l'].
      exists l. split; [done|]. rewrite Heq in Hl'. by eapply Hold.
    + injection Hv as -> ->. exists l. by rewrite mget_mset_eq.
  - intros key l' name'. rewrite mget_mset. destruct (decide _) as [->|]; [|by apply Hsound].
    intros [= <-] [->|(l2 & Hl2 & Hn)]%Hback; [by exists e | by eapply Hsound].
Qed.

Lemma create_subscription visited name e s :
  broken s /\ state s = New /\ opened visited s -> mget name (registrations s) = Some e -> direction (binding e) = ros_to_web ->
  match create_entity (name, e) s with
  | (Ok _, s') => broken s' /\ state s' = New /\ opened (visited ++ [(name, e)]) s'
  | (Throw _, s') => broken s'
  end.
Proof.
  intros (Hb & Hn & Ho) He Hd. unfold create_entity. rewrite get_bind, bool_decide_false by congruence.
  destruct (mget (entityKey e) (aliases s)) as [l|] eqn:Hl.
  - destruct (opened_alias visited name e (l ++ [name]) s Ho He Hd) as [Hin Hsound].
    + apply elem_of_app. right. left.
    + intros n [?|?%list_elem_of_singleton]%elem_of_app; [right; by exists l | by left].
    + intros l' n Hl' Hn'. rewrite Hl in Hl'. injection Hl' as <-. apply elem_of_app. by left.
    + unfold_st. destruct Hb as (Hf & ? & ?). destruct Ho as [Hp Ha Hout _ _].
      split_and!; [split_and!; [|done..]; apply (facts_same _ _ Hf); try done; apply Hf | done |].
      split; simpl; try done.
      * rewrite mkeys_mset_old; [done|]. apply mget_elem in Hl. by apply (list_elem_of_fmap_2 fst) in Hl.
      * intros name' e' [Hv|Hv%list_elem_of_singleton]%elem_of_app; [by eapply Hout | by injection Hv as -> ->; rewrite Hd].
  - set (call := Created (L := L) ros_to_web (entityKey e) (rosType (binding e)) (rosTopic (binding e)) (qos (binding e))).
    set (s1 := set_log (call :: log s) (set_aliases (mset (entityKey e) [name] (aliases s)) s)).
    change (match in_backend (createSubscription (rosType (binding e)) (rosTopic (binding e)) (qos (binding e)) (entityKey e)) s1 with
      | (Ok _, s') => broken s' /\ state s' = New /\ opened (visited ++ [(name, e)]) s' | (Throw _, s') => broken s' end).
    pose proof (triple_in_backend (createSubscription (rosType (binding e)) (rosTopic (binding e)) (qos (binding e)) (entityKey e))
      (visited ++ [(name, e)]) s1) as Ht. apply Ht. clear Ht.
    destruct (opened_alias visited name e [name] s Ho He Hd) as [Hin Hsound].
    + left.
    + intros n ?%list_elem_of_singleton. by left.
    + intros l' n Hl'. congruence.
    + destruct Hb as (Hf & ? & ?). destruct Ho as [Hp Ha Hout _ _]. split_and!; [split_and!; [|done|] | done |].
      * apply (facts_same (set_log (call :: log s) s)); [|done|done| |apply Hf].
        2: { intros key p Hkey. apply (publisher_for_grows s); [done | by right | by eapply f_publishers]. }
        apply facts_note; [done|exists e; split_and!; try done; by exists name|]. intros d k. simpl. case_decide as Hd'; [|done]. intros [= <-]. subst d.
        rewrite Ha, list_elem_of_In, <- in_rev, <- list_elem_of_In. by apply mget_None.
      * by intros [|]%elem_of_cons.
      * split; simpl; try done.
        -- rewrite mkeys_mset_new by by apply mget_None. rewrite rev_app_distr. unfold created in *. simpl. by rewrite Ha.
        -- intros name' e' [Hv|Hv%list_elem_of_singleton]%elem_of_app; [by eapply Hout | by injection Hv as -> ->; rewrite Hd].
Qed.

Lemma create_entity_registrations item s : registrations (create_entity item s).2 = registrations s.
Proof.
  assert (PreOrder (fun s s' : adp => registrations s' = registrations s)) by (split; [done | intros ? ? ? H1 H2; by rewrite H2]).
  revert s. change (moves (fun s s' : adp => registrations s' = registrations s) (create_entity item)).
  unfold create_entity, open_publisher, open_subscription, note, in_backend. moving; intros t; unfold on, modify; simpl; try reflexivity;
    match goal with |- context [let (_, _) := ?x in _] => destruct x end; reflexivity.
Qed.

Lemma create_entities s0 : inv s0 -> state s0 = New ->
  triple broken (eq s0) (mapS create_entity (registrations s0))
    (fun _ s => (broken s /\ state s = New /\ opened (registrations s0) s) /\ registrations s = registrations s0).
Proof.
  intros Hi Hn. set (P := fun visited s => (broken s /\ state s = New /\ opened visited s) /\ registrations s = registrations s0).
  eapply (triple_conseq _ (P [])); [apply (triple_mapS broken create_entity P)| | done].
  - intros visited [name e] rest Hl s [Hs Hr].
    assert (He : mget name (registrations s) = Some e).
    { rewrite Hr. apply elem_mget; [apply Hi|]. rewrite Hl. apply elem_of_app. right. left. }
    pose proof (create_entity_registrations (name, e) s) as Hkeep. rewrite Hr in Hkeep.
    enough (Hc : match create_entity (name, e) s with
      | (Ok _, s') => broken s' /\ state s' = New /\ opened (visited ++ [(name, e)]) s' | (Throw _, s') => broken s' end).
    { by destruct (create_entity (name, e) s) as [[u|x] s']. }
    destruct (decide (direction (binding e) = web_to_ros)) as [Hd|Hd];
      [|apply create_subscription; [done..|]; by destruct (direction (binding e))].
    destruct (mget (entityKey e) (publishers s)) as [p|] eqn:Hp; [|by apply create_publisher].
    unfold create_entity. rewrite get_bind, bool_decide_true by done. unfold mhas. rewrite Hp, bool_decide_true by by eexists.
    simpl. destruct Hs as (Hb & Hs & [Hpub Ha Hout Hin Hsound]). split_and!; [done..|]. split; try done.
    + intros name' e' [Hv|Hv%list_elem_of_singleton]%elem_of_app Hd'; [by eapply Hout | injection Hv as -> ->; by rewrite Hp].
    + intros name' e' [Hv|Hv%list_elem_of_singleton]%elem_of_app Hd'; [by eapply Hin | congruence].
  - intros s <-. split; [|done]. destruct Hi as [Hf Hs]. pose proof Hs as Hs'. rewrite Hn in Hs'. destruct Hs' as (Hl & Hp & Ha).
    split_and!; [by apply new_broken; [split|] | done |]. split; rewrite ?Hl, ?Hp, ?Ha; try done; by intros ? ? ?%not_elem_of_nil.
Qed.

Lemma running_backend b s : inv s -> state s = Running -> inv (set_backend b s).
Proof. intros [[] Hs] Hr. split; [by split|]. simpl. rewrite Hr in *. destruct Hs as [? []]. by split. Qed.

Lemma inv_start : preserves inv start.
Proof.
  intros s Hs. unfold start. rewrite get_bind. unfold throw_when. rewrite ST_bind_eq.
  case_bool_decide as Hn; simpl; [|done]. unfold catch.
  assert (Hbody : triple broken (eq s) (mapS create_entity (registrations s);; modify (set_state Running);; note Spun;; in_backend spin)
    (fun _ s' => inv s')).
  { eapply triple_bind; [by apply create_entities | intros ?]. simpl.
    set (Q := fun s' : adp => inv s' /\ state s' = Running).
    eapply triple_bind with (Q := fun _ => Q).
    { apply triple_modify. intros t [((Hf & _ & Hr) & Ht & Ho) Hreg]. split; [|done]. split; simpl.
      - apply (facts_same _ _ Hf); [done|done|apply Hf|]. intros _. apply Hf. congruence.
      - split; [done|]. rewrite Hreg. by destruct Ho. }
    intros ?. eapply triple_bind with (Q := fun _ => Q).
    { apply triple_modify. intros t [[Hf Ho] Ht]. rewrite Ht in Ho. split; [|done]. split; [by apply facts_note|]. simpl. rewrite Ht.
      destruct Ho as [Hr []]. split; [by intros [|]%elem_of_cons | by split]. }
    intros ?. intros t [Hi Ht]. unfold in_backend, on. destruct (spin (backend t)) as [[u|x] b].
    - by apply running_backend.
    - apply broken_backend, running_broken; done. }
  specialize (Hbody s eq_refl). match type of Hbody with match ?m s with _ => _ end => destruct (m s) as [[u|x] s'] end; [done|].
  unfold attempt. rewrite ST_bind_eq. pose proof (close_broken s' Hbody) as [Hc _]. by destruct (close s') as [[u|y] t].
Qed.

Lemma registration_Ok name dir s e : (registration name dir s).1 = Ok e ->
  state s = Running /\ mget name (registrations s) = Some e /\ direction (binding e) = dir.
Proof.
  unfold registration. rewrite get_bind. unfold throw_when. rewrite ST_bind_eq. case_bool_decide as Hr; simpl; [|done].
  destruct (mget name (registrations s)) as [e'|]; [|done]. rewrite ST_bind_eq. case_bool_decide as Hd; simpl; [|done]. by intros [= <-].
Qed.
Lemma registration_same name dir s : (registration name dir s).2 = s.
Proof.
  unfold registration. rewrite get_bind. unfold throw_when. rewrite ST_bind_eq. case_bool_decide; simpl; [|done].
  destruct (mget name (registrations s)); [|done]. rewrite ST_bind_eq. by case_bool_decide.
Qed.

(** All that [publish] can do. *)
Lemma publish_cases name native s :
  (publish name native s).2 = s \/
  exists e wire v p, state s = Running /\ mget name (registrations s) = Some e /\ direction (binding e) = web_to_ros /\
    Codec.encode (codec e) native = Ok wire /\ Codec.decode (codec e) wire = Ok v /\ mget (entityKey e) (publishers s) = Some p /\
    publish name native s = in_backend (publish_native p v) (set_log (Handed p v :: log s) s).
Proof.
  unfold publish. rewrite ST_bind_eq. pose proof (registration_Ok name web_to_ros s) as Hreg. pose proof (registration_same name web_to_ros s) as Hsame.
  destruct (registration name web_to_ros s) as [[e|x] s0]; simpl in *; subst s0; [|by left].
  destruct (Hreg e eq_refl) as (Hr & He & Hd). rewrite ST_bind_eq. unfold lift at 1. destruct (Codec.encode (codec e) native) as [wire|] eqn:Hw; [|by left].
  rewrite ST_bind_eq. unfold lift at 1. destruct (Codec.decode (codec e) wire) as [v|] eqn:Hv; [|by left].
  rewrite get_bind, ST_bind_eq. unfold lift. destruct (mget (entityKey e) (publishers s)) as [p|] eqn:Hp; [|by left].
  right. exists e, wire, v, p. split_and!; try done. rewrite ST_bind_eq, Hv, get_bind, ST_bind_eq, Hp. done.
Qed.

Lemma inv_publish name native : preserves inv (publish name native).
Proof.
  intros s Hs. destruct (publish_cases name native s) as [->|(e & wire & v & p & Hr & He & Hd & Hw & Hv & Hp & ->)]; [done|].
  unfold in_backend, on. destruct (publish_native p v _) as [o b]. simpl. apply running_backend; [|done].
  destruct Hs as [Hf Hs]. rewrite Hr in Hs. split.
  - apply facts_note; [done| |done]. exists e, native, wire. split_and!; try done; [by exists name | by eapply f_publishers].
  - simpl. rewrite Hr. destruct Hs as [Hrel []]. split; [by intros [|]%elem_of_cons | by split].
Qed.

(** Changing the listeners of a name that has some. *)
Lemma inv_listeners name ls s : inv s -> is_Some (mget name (listeners s)) -> inv (set_listeners (mset name ls (listeners s)) s).
Proof.
  intros [Hf Hs] [x Hx]. split.
  - apply (facts_same _ _ Hf); [done|done|apply Hf|]. intros Hc n Hn. simpl. by apply mget_grows, Hf.
  - simpl. destruct (state s); [done| |].
    + destruct Hs as [? []]. by split.
    + destruct Hs as (Hl & _). by rewrite Hl in Hx.
Qed.

Lemma inv_subscribe name l : preserves inv (subscribe name l).
Proof.
  intros s Hs. unfold subscribe. rewrite ST_bind_eq. pose proof (registration_same name ros_to_web s) as Hsame.
  destruct (registration name ros_to_web s) as [[e|x] s0]; simpl in *; subst s0; [|done].
  rewrite get_bind, ST_bind_eq. unfold lift. destruct (mget name (listeners s)) as [ls|] eqn:Hl; [|done].
  simpl. apply inv_listeners; [done | by rewrite Hl].
Qed.
Lemma inv_unsubscribe name l : preserves inv (unsubscribe name l).
Proof.
  intros s Hs. unfold unsubscribe. unfold_st. destruct (mget name (listeners s)) as [ls|] eqn:Hl; [|done].
  apply inv_listeners; [done | by rewrite Hl].
Qed.

(** ** Delivery when callbacks leave the adapter alone *)

Section fan_out.
Variable callback : L -> jsval -> ST adp unit.
Variable outcome : L -> jsval -> result unit.
Hypothesis callback_pure : forall l v s, callback l v s = (outcome l v, s).

(** What one listener causes, in order. *)
Definition served (c : Codec.codec) (wire : jsval) (l : L) : list (effect L) :=
  match Codec.decode c wire with
  | Throw e => [Reported e]
  | Ok v => Delivered l v :: match outcome l v with Throw e => [Reported e] | Ok _ => [] end
  end.

Lemma deliver_pure name c wire l ls s : mget name (listeners s) = Some ls -> l ∈ ls ->
  deliver callback name c wire l s = (Ok tt, set_log (rev (served c wire l) ++ log s) s).
Proof.
  intros Hls Hl. unfold deliver. rewrite get_bind, Hls, bool_decide_true by done. simpl. unfold catch. rewrite ST_bind_eq. unfold lift, served.
  destruct (Codec.decode c wire) as [v|x]; [|done]. rewrite ST_bind_eq. unfold note at 1, modify at 1. rewrite callback_pure.
  destruct (outcome l v) as [[]|x]; done.
Qed.

Lemma deliver_all name c wire ls todo s : mget name (listeners s) = Some ls -> todo ⊆ ls ->
  exists us, mapS (deliver callback name c wire) todo s = (Ok us, set_log (rev (flat_map (served c wire) todo) ++ log s) s).
Proof.
  revert s. induction todo as [|l todo IH]; intros s Hls Hsub; [exists []; by destruct s|]. simpl.
  rewrite ST_bind_eq, (deliver_pure _ _ _ _ ls) by set_solver. rewrite ST_bind_eq.
  destruct (IH (set_log (rev (served c wire l) ++ log s) s) Hls) as (us & ->); [set_solver|]. exists (tt :: us).
  simpl. rewrite rev_app_distr, <- app_assoc. done.
Qed.
End fan_out.

(** ** Callbacks and runs *)

(** What a session does with the adapter it borrows. *)
Inductive use := Subscribe (name : jsstr) (l : L) | Unsubscribe (name : jsstr) (l : L) | Publish (name : jsstr) (native : jsval) | Shut.
Definition perform_use (u : use) s : adp :=
  match u with
  | Subscribe name l => (subscribe name l s).2
  | Unsubscribe name l => (unsubscribe name l s).2
  | Publish name native => (publish name native s).2
  | Shut => (close s).2
  end.

Lemma inv_use u s : inv s -> inv (perform_use u s).
Proof. intros Hs. destruct u; [by apply inv_subscribe | by apply inv_unsubscribe | by apply inv_publish | by apply adapter_inv_close]. Qed.
Lemma state_use u s : state s <> New -> state (perform_use u s) <> New.
Proof.
  intros Hn. destruct u; simpl.
  - unfold subscribe. rewrite ST_bind_eq. pose proof (registration_same name ros_to_web s) as Hsame.
    destruct (registration name ros_to_web s) as [[e|x] s0]; simpl in *; subst s0; [|done].
    rewrite get_bind, ST_bind_eq. unfold lift. by destruct (mget name (listeners s)).
  - unfold unsubscribe. unfold_st. by destruct (mget name (listeners s)).
  - destruct (publish_cases name native s) as [->|(e & wire & v & p & _ & _ & _ & _ & _ & _ & ->)]; [done|].
    unfold in_backend, on. by destruct (publish_native p v _).
  - by rewrite close_closed.
Qed.

(** A callback may do any sequence of these, and may throw. *)
Class Borrower (callback : L -> jsval -> ST adp unit) := borrower :
  forall l v s, exists uses, (callback l v s).2 = fold_left (fun s u => perform_use u s) uses s.

Section runs.
Context (callback : L -> jsval -> ST adp unit) `{!Borrower callback}.

Lemma active_callback l v : preserves active (callback l v).
Proof.
  intros s Hs. destruct (borrower l v s) as (uses & ->). revert s Hs. induction uses as [|u uses IH]; intros s [Hi Hn]; [done|].
  simpl. apply IH. split; [by apply inv_use | by apply state_use].
Qed.

Lemma active_deliver name c wire l : preserves active (deliver callback name c wire l).
Proof.
  intros s Hs. unfold deliver. rewrite get_bind. destruct (mget name (listeners s)) as [ls|] eqn:Hl; [|done]. simpl.
  case_bool_decide as Hin; [|done]. simpl. revert s Hs Hl Hin.
  enough (H : forall s, active s -> state s = Running -> active (catch (v ← lift (Codec.decode c wire); note (Delivered l v);; callback l v) report s).2).
  { intros s Hs Hl Hin. apply H; [done|]. destruct Hs as [[_ Hi] Hn]. destruct (state s); [done..|]. destruct Hi as (He & _). by rewrite He in Hl. }
  intros s Hs Hr. unfold catch. rewrite ST_bind_eq. unfold lift. destruct (Codec.decode c wire) as [v|x]; [|by apply active_report].
  rewrite ST_bind_eq. unfold note at 1, modify at 1.
  assert (H1 : active (set_log (Delivered l v :: log s) s)).
  { destruct Hs as [[Hf Hi] Hn]. rewrite Hr in Hi. split; [|done]. split; [by apply facts_note|]. simpl. rewrite Hr.
    destruct Hi as [Hrel []]. split; [by intros [|]%elem_of_cons | by split]. }
  apply (active_callback l v) in H1. destruct (callback l v _) as [[u|x] s']; [done | by apply active_report].
Qed.

Lemma active_receive name native : preserves active (receive callback name native).
Proof.
  apply preserves_get_bind. intros s Hs. destruct (negb _); [done|]. revert s Hs.
  enough (H : forall r ls, preserves active (catch (
    entry ← lift r; wire ← lift (Codec.encode (codec entry) native);
    ls ← lift ls; mapS (deliver callback name (codec entry) wire) ls;; mret tt) report)) by (intros s Hs; by apply H).
  intros r ls. apply preserves_catch; [|apply active_report]. apply preserves_bind; [apply preserves_lift | intros e].
  apply preserves_bind; [apply preserves_lift | intros wire]. apply preserves_bind; [apply preserves_lift | intros l].
  apply preserves_bind; [|intros ?; apply preserves_ret]. apply preserves_mapS. intros x. apply active_deliver.
Qed.
Lemma adapter_inv_receive name native : preserves inv (receive callback name native).
Proof.
  intros s Hs. destruct (decide (state s = New)) as [Hn|Hn]; [|by apply (active_receive name native s)].
  unfold receive. rewrite get_bind, bool_decide_false by congruence. exact Hs.
Qed.
Lemma inv_on_native key native : preserves inv (on_native callback key native).
Proof.
  apply preserves_get_bind. intros s Hs. revert s Hs.
  enough (H : forall l, preserves inv (mapS (fun alias => receive callback alias native) l;; mret tt)) by (intros s Hs; by apply H).
  intros l. apply preserves_bind; [|intros ?; apply preserves_ret]. apply preserves_mapS. intros x. apply adapter_inv_receive.
Qed.

(** The life of an adapter: its operations, native samples for an entity, and
    a backend that changes on its own. *)
Inductive action := Start | Use (u : use) | Native (key : jsstr) (native : jsval) | Backend (f : B -> B).
Definition perform (a : action) s : adp :=
  match a with
  | Start => (start s).2
  | Use u => perform_use u s
  | Native key native => (on_native callback key native s).2
  | Backend f => set_backend (f (backend s)) s
  end.
Definition run (actions : list action) s : adp := fold_left (fun s a => perform a s) actions s.

Lemma inv_set_backend b s : inv s -> inv (set_backend b s).
Proof.
  intros [[] Hs]. split; [by split|]. simpl. destruct (state s); [done | destruct Hs as [? []]; by split | done].
Qed.
Lemma adapter_inv_run actions s : inv s -> inv (run actions s).
Proof.
  revert s. induction actions as [|a actions IH]; intros s Hs; [done|]. simpl. apply IH. destruct a; simpl.
  - by apply inv_start.
  - by apply inv_use.
  - by apply inv_on_native.
  - by apply inv_set_backend.
Qed.

End runs.
End props.

(** ** Construction *)

Lemma register_ok {B L} l : forall (s s' : adapter B L),
  NoDup (mkeys (registrations s)) -> mall (fun name e => publicName (binding e) = name) (registrations s) ->
  (forall name, is_Some (mget name (registrations s)) -> is_Some (mget name (listeners s))) ->
  register l s = Ok s' ->
  NoDup (mkeys (registrations s')) /\ mall (fun name e => publicName (binding e) = name) (registrations s') /\
  (forall name, is_Some (mget name (registrations s')) -> is_Some (mget name (listeners s'))) /\
  (log s', state s', publishers s', aliases s') = (log s, state s, publishers s, aliases s).
Proof.
  induction l as [|e l IH]; intros s s' Hn Hm Hl; simpl; [by intros [= <-]|]. intros H. inv_res.
  apply IH in H; simpl; [done | by apply NoDup_mset | by apply mall_set |].
  intros name. rewrite !mget_mset. destruct (decide _); [by eexists | apply Hl].
Qed.

Lemma adapter_constructor_inv {B L} registry b (s : adapter B L) : constructor registry b = Ok s -> inv s /\ state s = New.
Proof.
  intros (Hn & Hm & Hl & [= H1 H2 H3 H4])%register_ok; simpl; [|constructor|constructor|by intros ? []].
  split; [|done]. split; [|by rewrite H1, H2, H3, H4]. split; rewrite ?H1, ?H3; try done; intros d; constructor.
Qed.

(** ** Properties *)

(** C5: over every life of an adapter, with a backend that may fail at any call
    and listeners that may use the adapter again or throw: before its start it
    does nothing; each entity is created once, with the ROS type, topic and QoS
    of a configured topic of that direction, and topics share one only when
    their ROS topic and type agree; every value handed to ROS is the copy that
    the codec of a configured topic from the web made of a value by encoding and
    decoding it, and goes to a publisher the backend gave for that topic's own
    ROS type and topic; the native context is released exactly once, by the
    close, and nothing but error reports happens after it; and while the adapter
    runs, every topic has its entity. *)
Theorem adapter_safe {B} {ops : RosBackend B} {L} `{EqDecision L} (callback : L -> jsval -> ST (adapter B L) unit) `{!Borrower callback}
  registry b (s0 : adapter B L) actions :
  constructor registry b = Ok s0 ->
  let s := run callback actions s0 in
  (state s = New -> log s = []) /\ (forall d, NoDup (created d (log s))) /\
  (forall d key type topic q, Created d key type topic q ∈ log s -> exists entry, configured s d entry /\ entityKey entry = key /\
    rosType (binding entry) = type /\ rosTopic (binding entry) = topic /\ qos (binding entry) = q) /\
  (forall e e', text_entry e -> text_entry e' -> entityKey e = entityKey e' ->
    rosTopic (binding e) = rosTopic (binding e') /\ rosType (binding e) = rosType (binding e')) /\
  ((forall d e, configured s d e -> text_entry e) -> forall p native, Handed p native ∈ log s ->
    exists entry given wire first, configured s web_to_ros entry /\
      Codec.encode (codec entry) given = Ok wire /\ Codec.decode (codec entry) wire = Ok native /\
      configured s web_to_ros first /\ entityKey first = entityKey entry /\
      Opened p (rosType (binding entry)) (rosTopic (binding entry)) (qos (binding first)) ∈ log s) /\
  match state s with
  | Closed => exists new old, log s = new ++ Released :: old /\ Forall is_report new /\ Released ∉ old
  | st => Released ∉ log s /\ (st = Running -> forall name e, mget name (registrations s) = Some e ->
      if decide (direction (binding e) = web_to_ros) then exists p, mget (entityKey e) (publishers s) = Some p /\ publisher_for s (entityKey e) p
      else exists l, mget (entityKey e) (aliases s) = Some l /\ name ∈ l)
  end.
Proof.
  intros Hc s. apply adapter_constructor_inv in Hc as [Hi _]. apply (adapter_inv_run callback actions) in Hi as [Hf Hs]. fold s in Hf, Hs.
  pose proof (f_log _ Hf) as Hlog. rewrite Forall_forall in Hlog. split_and!.
  - intros Hn. rewrite Hn in Hs. apply Hs.
  - apply Hf.
  - intros d key type topic q Hin. apply (Hlog _ Hin).
  - apply entityKey_inj.
  - intros Ht p native Hin. apply Hlog in Hin as (entry & given & wire & He & Henc & Hdec & first & Hfirst & Hkey & Hopen).
    exists entry, given, wire, first. split_and!; try done.
    by destruct (entityKey_inj first entry (Ht _ _ Hfirst) (Ht _ _ He) Hkey) as [<- <-].
  - destruct (state s).
    + destruct Hs as (-> & _). split; [apply not_elem_of_nil | done].
    + destruct Hs as [Hr [_ _ Hout Hin _]]. split; [done|]. intros _ name e He. apply mget_elem in He.
      destruct (decide _) as [Hd|Hd]; [|eapply Hin; [done|]; by destruct (direction (binding e))].
      destruct (Hout _ _ He Hd) as [p Hp]. exists p. split; [done|]. by apply (f_publishers _ Hf).
    + apply Hs.
Qed.

(** One listener cannot keep a sample from the others.  A sample of a
    running adapter goes, as a fresh copy the codec decoded, to every listener
    of its topic in the order they subscribed; a listener that throws is
    reported and the next one served; a sample that does not have its topic's
    type is reported and reaches nobody; and the call itself never throws. *)
Theorem fan_out_isolated {B} {ops : RosBackend B} {L} `{EqDecision L} (callback : L -> jsval -> ST (adapter B L) unit) outcome
  name native (s : adapter B L) entry ls :
  (forall l v s, callback l v s = (outcome l v, s)) ->
  state s = Running -> mget name (registrations s) = Some entry -> mget name (listeners s) = Some ls ->
  receive callback name native s = (Ok tt, set_log (rev
    match Codec.encode (codec entry) native with
    | Throw e => [Reported e]
    | Ok wire => flat_map (served outcome (codec entry) wire) ls
    end ++ log s) s).
Proof.
  intros Hp Hr He Hl. unfold receive. rewrite get_bind, bool_decide_true by done. simpl. unfold catch. rewrite ST_bind_eq, He. unfold lift at 1. simpl.
  rewrite ST_bind_eq. unfold lift at 1. destruct (Codec.encode (codec entry) native) as [wire|x]; [|done].
  rewrite ST_bind_eq, Hl. unfold lift. simpl. rewrite ST_bind_eq.
  destruct (deliver_all callback outcome Hp name (codec entry) wire ls ls s Hl) as (us & ->); done.
Qed.

(** ** A concrete adapter: two listeners on one topic, the first of which throws *)

#[export] Existing Instance Mock.mock.
Definition demo_outcome (l : nat) (v : jsval) : result unit := if decide (l = 0%nat) then Throw (Error "slow") else Ok tt.
Definition demo_callback (l : nat) (v : jsval) : ST (adapter Mock.MockRosBackend nat) unit := lift (demo_outcome l v).
#[export] Instance demo_borrower : Borrower demo_callback.
Proof. intros l v s. by exists []. Qed.
Definition demo_registry : list RouterBinding := [RouterDemo.odom; RouterDemo.lamp; RouterDemo.drive].
Definition demo_new : adapter Mock.MockRosBackend nat :=
  {| registrations := map (fun e => (publicName (binding e), e)) demo_registry;
     listeners := map (fun e => (publicName (binding e), [])) demo_registry; publishers := []; state := New; aliases := [];
     backend := Mock.fresh; log := [] |}.
Definition demo_actions : list (action (B := Mock.MockRosBackend) (L := nat)) :=
  [Start; Use (Subscribe (js "/odom") 0%nat); Use (Subscribe (js "/odom") 1%nat);
   Native (entityKey RouterDemo.odom) (VBool true); Use (Publish (js "/lamp") (VBool false)); Use Shut].
Definition demo_running : adapter Mock.MockRosBackend nat := run demo_callback (take 3 demo_actions) demo_new.

Lemma demo_adapter_constructed : constructor (L := nat) demo_registry Mock.fresh = Ok demo_new.
Proof. vm_compute. reflexivity. Qed.

Definition text_entryb (e : RouterBinding) : bool :=
  forallb (fun c => (0 <=? c) && (c <=? 65535)) (rosTopic (binding e)) && forallb (fun c => (0 <=? c) && (c <=? 65535)) (rosType (binding e)).
Lemma text_entryb_ok e : text_entryb e = true -> text_entry e.
Proof.
  unfold text_entryb, text_entry, JsonProps.code_unit. rewrite andb_true_iff, !forallb_forall, !Forall_forall.
  intros [H1 H2]. split; intros c Hc%list_elem_of_In; [specialize (H1 c Hc)|specialize (H2 c Hc)]; bools; lia.
Qed.
Lemma demo_text d e : configured (run demo_callback demo_actions demo_new) d e -> text_entry e.
Proof.
  assert (Hr : registrations (run demo_callback demo_actions demo_new) = registrations demo_new) by (vm_compute; reflexivity).
  assert (Hall : forallb text_entryb (map snd (registrations demo_new)) = true) by (vm_compute; reflexivity).
  intros (name & He & _). rewrite Hr in He. apply text_entryb_ok. rewrite forallb_forall in Hall. apply Hall, list_elem_of_In.
  apply mget_elem in He. by apply (list_elem_of_fmap_2 snd) in He.
Qed.

Lemma adapter_safe_witness :
  Handed 0%nat (VBool false) ∈ log (run demo_callback demo_actions demo_new) /\
  exists entry given wire first, configured (run demo_callback demo_actions demo_new) web_to_ros entry /\
    Codec.encode (codec entry) given = Ok wire /\ Codec.decode (codec entry) wire = Ok (VBool false) /\
    configured (run demo_callback demo_actions demo_new) web_to_ros first /\ entityKey first = entityKey entry /\
    Opened 0%nat (rosType (binding entry)) (rosTopic (binding entry)) (qos (binding first)) ∈ log (run demo_callback demo_actions demo_new).
Proof.
  assert (H : Handed 0%nat (VBool false) ∈ log (run demo_callback demo_actions demo_new)).
  { vm_compute. repeat first [apply list_elem_of_here | apply list_elem_of_further]. }
  split; [exact H|].
  exact (proj1 (proj2 (proj2 (proj2 (proj2 (adapter_safe demo_callback demo_registry Mock.fresh demo_new demo_actions demo_adapter_constructed)))))
    demo_text _ _ H).
Defined.

Lemma fan_out_isolated_witness :
  log (receive demo_callback (js "/odom") (VBool true) demo_running).2 =
    [Delivered 1%nat (VBool true); Reported (Error "slow"); Delivered 0%nat (VBool true)] ++ log demo_running.
Proof.
  rewrite (fan_out_isolated demo_callback demo_outcome (js "/odom") (VBool true) demo_running RouterDemo.odom [0%nat; 1%nat]);
    [vm_compute; reflexivity | done | vm_compute; reflexivity | vm_compute; reflexivity | vm_compute; reflexivity].
Defined.
End AdapterProps.
