(* ===== verification/Rclnodejs.v ===== *)
(** * The rclnodejs backend

    [ros/rclnodejs.ts]: the [RosBackend] over the native addon.  The addon is a
    parameter, [Rcl]; the wrapper resolves names once, converts between the
    native representation and the codec's, and checks where an entity landed. *)

From S2P Require Import Prelude JsNumber JsString JsMap Values SessionValidation ConfigTypes CodecTypes CodecScalars CodecSchema Codec CodecProps CodecDecode CodecMain Descriptor Representation Router RouterDemo Adapter AdapterProps.

Module Rclnodejs.
Import Router Adapter.

(** [new rcl.QoS(history, depth, reliability, durability)] *)
Record QoS := { q_history : Z; q_depth : Z; q_reliability : Z; q_durability : Z }.
Definition native_qos (value : RosQos) : QoS := {|
  q_history := 1; q_depth := depth value;
  q_reliability := if decide (reliability value = Reliable) then 1 else 2;
  q_durability := if decide (durability value = Volatile) then 2 else 1 |}.

(** [RclModule] and [RclNode] over one context: publishers and subscription
    callbacks are numbers, and creating an entity gives the topic it has. *)
Class Rcl (N : Type) := {
  init : list jsstr -> ST N unit;
  new_node : jsstr -> jsstr -> ST N unit;
  node_createPublisher : jsstr -> jsstr -> QoS -> ST N (jsstr * nat);
  node_publish : nat -> jsval -> ST N unit;
  node_createSubscription : jsstr -> jsstr -> QoS -> nat -> ST N jsstr;
  resolveTopicName : jsstr -> ST N jsstr;
  node_spin : Z -> ST N unit;
  context_shutdown : ST N unit }.

Record RclOptions := { nodeName : jsstr; namespace : jsstr; args : list jsstr; spinTimeoutMs : number; codecOptions : jsval }.

Section backend.
Context {N : Type} {rcl : Rcl N}.
(** [new rcl.MessageIntrospector(type).schema], and the startup settings. *)
Variables (describe : jsstr -> result (list Descriptor.RosField)) (options : RclOptions).

Record RclBackend := {
  node : N;
  originalNames : jsmap jsstr jsstr;
  handles : list (Codec.codec * nat) (** the publishers handed out, with their [representation] *);
  readers : list (Codec.codec * jsstr) (** the callbacks of the subscriptions, with theirs *) }.
Definition set_node v (s : RclBackend) := {| node := v; originalNames := originalNames s; handles := handles s; readers := readers s |}.
Definition set_names v (s : RclBackend) := {| node := node s; originalNames := v; handles := handles s; readers := readers s |}.
Definition set_handles v (s : RclBackend) := {| node := node s; originalNames := originalNames s; handles := v; readers := readers s |}.
Definition set_readers v (s : RclBackend) := {| node := node s; originalNames := originalNames s; handles := handles s; readers := v |}.
Definition in_node {A} (m : ST N A) : ST RclBackend A := on node set_node m.

Definition original (topic : jsstr) : ST RclBackend jsstr :=
  s ← get;
  lift (of_option (Error "ros_topic_not_resolved") (mget topic (originalNames s))).

(** [rosRepresentation(descriptorFromRos(type, describe), options.codecOptions)] *)
Definition representation (type : jsstr) : result Codec.codec :=
  descriptor ← Descriptor.descriptorFromRos describe type (VNum (of_Z 32));
  createCodec descriptor (codecOptions options).

Definition createPublisher (type topic : jsstr) (policy : RosQos) : ST RclBackend nat :=
  c ← lift (representation type);
  name ← original topic;
  publisher ← in_node (node_createPublisher type name (native_qos policy));
  throw_when (negb (bool_decide (publisher.1 = topic))) (Error "ros_publisher_topic_mismatch");;
  s ← get;
  modify (set_handles (handles s ++ [(c, publisher.2)]));;
  mret (List.length (handles s)).
Definition publish (handle : nat) (native : jsval) : ST RclBackend unit :=
  s ← get;
  match handles s !! handle with
  | Some (c, publisher) =>
      value ← lift (Representation.to_native c native);
      in_node (node_publish publisher value)
  | None => mret tt
  end.

Definition createSubscription (type topic : jsstr) (policy : RosQos) (callback : jsstr) : ST RclBackend unit :=
  c ← lift (representation type);
  name ← original topic;
  s ← get;
  modify (set_readers (readers s ++ [(c, callback)]));;
  landed ← in_node (node_createSubscription type name (native_qos policy) (List.length (readers s)));
  throw_when (negb (bool_decide (landed = topic))) (Error "ros_subscription_topic_mismatch").

Definition spin : ST RclBackend unit := in_node (node_spin (default 0 (to_Z (spinTimeoutMs options)))).
Definition close : ST RclBackend unit :=
  modify (set_names []);;
  in_node context_shutdown.
Definition resolveTopic (name : jsstr) : ST RclBackend jsstr :=
  resolved ← in_node (resolveTopicName name);
  modify (fun s => set_names (mset resolved name (originalNames s)) s);;
  mret resolved.

(** [createRclnodejsBackend(rcl, options)] *)
Definition createRclnodejsBackend : ST N RclBackend :=
  throw_when (negb (is_safe_integer (spinTimeoutMs options)) || nleb (spinTimeoutMs options) (of_Z 0))
    (TypeError "invalid_spin_timeout");;
  catch (
    init (args options);;
    new_node (nodeName options) (namespace options);;
    n ← get;
    mret {| node := n; originalNames := []; handles := []; readers := [] |})
  (fun error =>
    o ← attempt context_shutdown;
    match o with
    | Throw cleanup => mthrow (AggregateError [error; cleanup] "ros_init_cleanup_failed")
    | Ok _ => mthrow error
    end).
End backend.
Arguments RclBackend : clear implicits.

#[export] Instance rcl_backend {N} {rcl : Rcl N} describe options : RosBackend (RclBackend N) := {
  Adapter.createPublisher := createPublisher describe options;
  publish_native := publish;
  Adapter.createSubscription := createSubscription describe options;
  Adapter.spin := spin options;
  close_backend := close }.

(** A sample of the addon for the callback [id]: the sample is converted and
    goes to the listeners of the entity, or its failure to [onError]. *)
Definition on_sample {N L} `{EqDecision L} (callback : L -> jsval -> ST (adapter (RclBackend N) L) unit) (id : nat) (native : jsval) :
  ST (adapter (RclBackend N) L) unit :=
  s ← get;
  match readers (backend s) !! id with
  | None => mret tt
  | Some (c, key) =>
      catch (value ← lift (Representation.from_native c native); on_native callback key value) report
  end.

(** ** What the addon documents: a node resolves the names it is given *)

Class Remapping {N} (rcl : Rcl N) (remap : jsstr -> jsstr) := {
  resolves_name name n t n' : resolveTopicName name n = (Ok t, n') -> t = remap name;
  publisher_topic type name q n p n' : node_createPublisher type name q n = (Ok p, n') -> p.1 = remap name;
  subscription_topic type name q id n t n' : node_createSubscription type name q id n = (Ok t, n') -> t = remap name }.

Section runs.
Context {N : Type} {rcl : Rcl N} (describe : jsstr -> result (list Descriptor.RosField)) (options : RclOptions).
Notation ops := (rcl_backend describe options).

Inductive action :=
| Resolve (name : jsstr)
| Publisher (type topic : jsstr) (policy : RosQos)
| Publish (handle : nat) (native : jsval)
| Subscribe (type topic : jsstr) (policy : RosQos) (key : jsstr)
| Spin | Close
| Addon (f : N -> N) (** the addon works on its own *).
Definition perform (a : action) (s : RclBackend N) : RclBackend N :=
  match a with
  | Resolve name => (resolveTopic name s).2
  | Publisher type topic policy => (createPublisher describe options type topic policy s).2
  | Publish handle native => (publish handle native s).2
  | Subscribe type topic policy key => (createSubscription describe options type topic policy key s).2
  | Spin => (spin options s).2
  | Close => (close s).2
  | Addon f => set_node (f (node s)) s
  end.
Definition run (actions : list action) (s : RclBackend N) : RclBackend N := fold_left (fun s a => perform a s) actions s.

(** Each converter is the one of a described type. *)
Definition of_type (c : Codec.codec) : Prop := exists type, representation describe options type = Ok c.
Context (remap : jsstr -> jsstr) {Hremap : Remapping rcl remap}.
Record inv (s : RclBackend N) : Prop := {
  i_names : mall (fun topic name => remap name = topic) (originalNames s);
  i_handles : Forall (fun h => of_type h.1) (handles s);
  i_readers : Forall (fun r => of_type r.1) (readers s) }.

Lemma inv_in_node {A} (m : ST N A) : preserves inv (in_node m).
Proof. intros s [H1 H2 H3]. unfold in_node, on. destruct (m (node s)) as [o n]. by split. Qed.
#[local] Hint Resolve inv_in_node : bridge.

Lemma original_Ok topic (s : RclBackend N) name s' : original topic s = (Ok name, s') -> s' = s /\ mget topic (originalNames s) = Some name.
Proof. unfold original. rewrite get_bind. unfold lift. destruct (mget topic (originalNames s)); by intros [= <- <-]. Qed.
Lemma original_same topic (s : RclBackend N) : (original topic s).2 = s.
Proof. done. Qed.

Lemma inv_perform a s : inv s -> inv (perform a s).
Proof.
  intros Hs. destruct a; simpl.
  - unfold resolveTopic. rewrite ST_bind_eq. pose proof (inv_in_node (resolveTopicName name) s Hs) as Hi.
    destruct (in_node (resolveTopicName name) s) as [[t|e] s1] eqn:Hr; [|done]. simpl in *. destruct Hi as [H1 H2 H3].
    split; try done. simpl. apply mall_set; [done|]. unfold in_node, on in Hr.
    destruct (resolveTopicName name (node s)) as [o n] eqn:Hn. injection Hr as -> _. by apply resolves_name in Hn.
  - unfold createPublisher. rewrite ST_bind_eq. unfold lift at 1.
    destruct (representation describe options type) as [c|e] eqn:Hc; [|done].
    apply bind_at; [by rewrite original_same|]. intros name. apply preserves_bind; [auto with bridge|]. intros [t h].
    apply preserves_bind; [auto with bridge|]. intros _. apply preserves_get_bind. intros x [H1 H2 H3]. simpl.
    split; simpl; [done | | done]. apply Forall_app. split; [done|]. constructor; [by exists type | done].
  - unfold publish. rewrite get_bind. destruct (handles s !! handle) as [[c h]|]; [|done].
    apply bind_at; [done | auto with bridge].
  - unfold createSubscription. rewrite ST_bind_eq. unfold lift at 1.
    destruct (representation describe options type) as [c|e] eqn:Hc; [|done].
    apply bind_at; [by rewrite original_same|]. intros name. apply preserves_get_bind. intros x [H1 H2 H3].
    apply bind_at; [|intros _; auto with bridge]. simpl.
    split; simpl; [done | done |]. apply Forall_app. split; [done|]. constructor; [by exists type | done].
  - by apply inv_in_node.
  - unfold close. apply bind_at; [|auto with bridge]. destruct Hs. split; [constructor | done..].
  - destruct Hs. by split.
Qed.
Lemma backend_inv_run actions s : inv s -> inv (run actions s).
Proof. revert s. induction actions as [|a actions IH]; intros s Hs; [done|]. by apply IH, inv_perform. Qed.

Lemma created_empty n s n' : createRclnodejsBackend options n = (Ok s, n') -> inv s /\ node s = n'.
Proof.
  unfold createRclnodejsBackend. unfold throw_when. destruct (_ || _); [done|].
  rewrite ST_bind_eq. cbn [mret ST_ret]. unfold catch. destruct ((init (args options);; _) n) as [[x|e] n2] eqn:Hb.
  - intros [= <- <-]. inv_st. injection Hy1 as -> ->. subst. split; [split; constructor | done].
  - rewrite ST_bind_eq. unfold attempt. by destruct (context_shutdown n2) as [[?|?] ?].
Qed.

Lemma of_type_Ok type c : representation describe options type = Ok c ->
  exists d, keys_ok d /\ createCodec d (codecOptions options) = Ok c /\ Descriptor.ros_schema describe type (schema c).
Proof.
  unfold representation. intros (d & Hd & Hc)%result_bind_Ok. exists d. split_and!; [by eapply Descriptor.descriptor_keys | done |].
  by eapply Descriptor.descriptor_schema.
Qed.

(** What the wrapper makes of a call of the addon that creates an entity. *)
Lemma publisher_equation s type topic name policy : inv s -> mget topic (originalNames s) = Some name ->
  createPublisher describe options type topic policy s =
  match representation describe options type with
  | Throw e => (Throw e, s)
  | Ok c => match node_createPublisher type name (native_qos policy) (node s) with
    | (Throw e, n) => (Throw e, set_node n s)
    | (Ok p, n) => (Ok (List.length (handles s)), set_handles (handles s ++ [(c, p.2)]) (set_node n s))
    end
  end.
Proof.
  intros Hs Hn. unfold createPublisher. rewrite ST_bind_eq. unfold lift at 1.
  destruct (representation describe options type) as [c|e]; [|done].
  rewrite ST_bind_eq. unfold original. rewrite get_bind, Hn. cbn [of_option lift]. rewrite ST_bind_eq. unfold in_node, on.
  destruct (node_createPublisher type name (native_qos policy) (node s)) as [[p|e] n] eqn:Hp; [|done].
  assert (Ht : p.1 = topic) by (rewrite (publisher_topic _ _ _ _ _ _ Hp); by apply (mall_get _ _ _ _ (i_names s Hs))).
  rewrite bool_decide_true by done. reflexivity.
Qed.
Lemma subscription_equation s type topic name policy key : inv s -> mget topic (originalNames s) = Some name ->
  createSubscription describe options type topic policy key s =
  match representation describe options type with
  | Throw e => (Throw e, s)
  | Ok c => let s1 := set_readers (readers s ++ [(c, key)]) s in
    match node_createSubscription type name (native_qos policy) (List.length (readers s)) (node s) with
    | (Throw e, n) => (Throw e, set_node n s1)
    | (Ok _, n) => (Ok tt, set_node n s1)
    end
  end.
Proof.
  intros Hs Hn. unfold createSubscription. rewrite ST_bind_eq. unfold lift at 1.
  destruct (representation describe options type) as [c|e]; [|done].
  rewrite ST_bind_eq. unfold original. rewrite get_bind, Hn. cbn [of_option lift]. rewrite get_bind, ST_bind_eq.
  cbn [modify]. rewrite ST_bind_eq. unfold in_node, on. cbn [node set_readers].
  destruct (node_createSubscription type name (native_qos policy) (List.length (readers s)) (node s)) as [[t|e] n] eqn:Hp; [|done].
  assert (Ht : t = topic) by (rewrite (subscription_topic _ _ _ _ _ _ _ Hp); by apply (mall_get _ _ _ _ (i_names s Hs))).
  by rewrite bool_decide_true.
Qed.
Lemma publish_equation s handle c h v w : inv s -> handles s !! handle = Some (c, h) -> bytes_ok v ->
  Representation.bytes_fit (Codec.options c) -> Codec.encode c v = Ok w ->
  exists r, publish handle v s = in_node (node_publish h r) s /\
    Representation.from_native c r = Ok (norm (schema c) v) /\
    (forall w', Codec.decode c w' = Ok v -> norm (schema c) v = v).
Proof.
  intros Hs Hh Hv Hfit Hw. pose proof (i_handles s Hs) as Hall. rewrite Forall_lookup in Hall.
  destruct (Hall _ _ Hh) as [type (d & Hk & Hc & _)%of_type_Ok]. simpl in Hc.
  destruct (Representation.native_back _ _ _ _ _ Hk Hc Hv Hfit Hw) as (r & Hr & Hback). exists r. split_and!; [|done|].
  - unfold publish. by rewrite get_bind, Hh, Hr.
  - intros w' Hw'. by apply (Representation.decoded_norm d (codecOptions options) c w').
Qed.
End runs.

(** C12: over every life of a backend on an addon whose nodes remap names: an
    entity asked for under a resolved topic, publisher or subscription, is
    created under the original name that resolves to it, with the type and the
    QoS asked for, so a chain of remapping rules is applied once and the topic
    check never fails; a topic that was not resolved creates nothing; the values
    of every topic follow the ROS definition of its type; a value its codec can
    encode, where the codec's byte limit is below 32768, reaches the addon in a
    form that comes back as the codec's normal form of it, which is the same
    value when the codec has decoded it before (with a larger limit a long byte
    sequence may be refused on the way back); and whatever the addon delivers is
    typed or refused. *)
Theorem entities_where_configured {N} {rcl : Rcl N} describe opts remap {Hremap : Remapping rcl remap} actions n0 s0 n1 :
  createRclnodejsBackend opts n0 = (Ok s0, n1) ->
  let s := run describe opts actions s0 in
  (forall name t s', resolveTopic name s = (Ok t, s') -> t = remap name /\ mget t (originalNames s') = Some name) /\
  (forall type topic policy, match mget topic (originalNames s) with
    | None => (createPublisher describe opts type topic policy s).2 = s /\
        exists e, (createPublisher describe opts type topic policy s).1 = Throw e
    | Some name => remap name = topic /\ createPublisher describe opts type topic policy s =
        match representation describe opts type with
        | Throw e => (Throw e, s)
        | Ok c => match node_createPublisher type name (native_qos policy) (node s) with
          | (Throw e, n) => (Throw e, set_node n s)
          | (Ok p, n) => (Ok (List.length (handles s)), set_handles (handles s ++ [(c, p.2)]) (set_node n s))
          end
        end
    end) /\
  (forall type topic policy key, match mget topic (originalNames s) with
    | None => (createSubscription describe opts type topic policy key s).2 = s /\
        exists e, (createSubscription describe opts type topic policy key s).1 = Throw e
    | Some name => remap name = topic /\ createSubscription describe opts type topic policy key s =
        match representation describe opts type with
        | Throw e => (Throw e, s)
        | Ok c => let s1 := set_readers (readers s ++ [(c, key)]) s in
          match node_createSubscription type name (native_qos policy) (List.length (readers s)) (node s) with
          | (Throw e, n) => (Throw e, set_node n s1)
          | (Ok _, n) => (Ok tt, set_node n s1)
          end
        end
    end) /\
  (forall type c, representation describe opts type = Ok c -> Descriptor.ros_schema describe type (schema c)) /\
  (forall handle c h v w, handles s !! handle = Some (c, h) -> bytes_ok v -> Representation.bytes_fit (Codec.options c) ->
    Codec.encode c v = Ok w -> exists r, publish handle v s = in_node (node_publish h r) s /\
      Representation.from_native c r = Ok (norm (schema c) v) /\
      (forall w', Codec.decode c w' = Ok v -> norm (schema c) v = v)) /\
  (forall id c key native v, readers s !! id = Some (c, key) -> Representation.from_native c native = Ok v ->
    CodecDecode.conforms (Codec.options c) (schema c) v).
Proof.
  intros H0 s. apply (created_empty describe opts remap) in H0 as [H0 _].
  apply (backend_inv_run describe opts remap actions) in H0 as Hs. fold s in Hs. clear H0. split_and!.
  - intros name t s' H. unfold resolveTopic, in_node, on in H. rewrite ST_bind_eq in H.
    destruct (resolveTopicName name (node s)) as [[t0|e] n] eqn:Hr; [|done]. injection H as <- <-.
    split; [by eapply resolves_name | apply mget_mset_eq].
  - intros type topic policy. destruct (mget topic (originalNames s)) as [name|] eqn:Hn.
    + split; [by apply (mall_get _ _ _ _ (i_names _ _ _ _ Hs)) | by eapply publisher_equation].
    + unfold createPublisher. rewrite ST_bind_eq. unfold lift. destruct (representation _ _ _) as [c|e]; [|by eauto].
      rewrite ST_bind_eq. unfold original. rewrite get_bind, Hn. simpl. eauto.
  - intros type topic policy key. destruct (mget topic (originalNames s)) as [name|] eqn:Hn.
    + split; [by apply (mall_get _ _ _ _ (i_names _ _ _ _ Hs)) | by eapply subscription_equation].
    + unfold createSubscription. rewrite ST_bind_eq. unfold lift. destruct (representation _ _ _) as [c|e]; [|by eauto].
      rewrite ST_bind_eq. unfold original. rewrite get_bind, Hn. simpl. eauto.
  - intros type c (d & _ & _ & Hc)%of_type_Ok. done.
  - intros handle c h v w. by eapply publish_equation.
  - intros id c key native v Hr. pose proof (i_readers _ _ _ _ Hs) as Hall. rewrite Forall_lookup in Hall.
    destruct (Hall _ _ Hr) as [type (d & Hk & Hc & _)%of_type_Ok]. by eapply Representation.from_native_typed.
Qed.

(** ** A concrete addon: [/a] is remapped to [/b] and [/b] to [/c] *)

Definition demo_remap (name : jsstr) : jsstr :=
  if decide (name = js "/a") then js "/b" else if decide (name = js "/b") then js "/c" else name.
Record demo_node := { opened_on : list jsstr; sent : list (nat * jsval) }.
#[export] Instance demo_rcl : Rcl demo_node := {
  init _ := mret tt; new_node _ _ := mret tt;
  node_createPublisher _ name _ := fun n =>
    (Ok (demo_remap name, List.length (opened_on n)), {| opened_on := opened_on n ++ [demo_remap name]; sent := sent n |});
  node_publish h v := modify (fun n => {| opened_on := opened_on n; sent := sent n ++ [(h, v)] |});
  node_createSubscription _ name _ _ := mret (demo_remap name);
  resolveTopicName name := mret (demo_remap name);
  node_spin _ := mret tt; context_shutdown := mret tt }.
#[export] Instance demo_remapping : Remapping demo_rcl demo_remap.
Proof. split; intros *; by intros [= <- <-]. Qed.

Definition demo_options : RclOptions := {| nodeName := js "bridge"; namespace := js "/"; args := [];
  spinTimeoutMs := of_Z 10; codecOptions := obj [] |}.
Definition demo_qos : RosQos := {| reliability := Reliable; durability := Volatile; history := KeepLast; depth := 10 |}.
Definition demo_start : RclBackend demo_node :=
  {| node := {| opened_on := []; sent := [] |}; originalNames := []; handles := []; readers := [] |}.
Definition demo_type : jsstr := js "a/msg/Twist".
Definition demo_actions : list (action (N := demo_node)) := [Resolve (js "/a"); Publisher demo_type (js "/b") demo_qos].
Definition demo_state : RclBackend demo_node := run Descriptor.demo_lookup demo_options demo_actions demo_start.
Definition demo_value : jsval := obj [(js "linear", obj [(js "x", VNum (of_Z 1)); (js "y", VNum (of_Z 2))]); (js "stamp", VBigInt 7)].

Lemma demo_backend_created : createRclnodejsBackend demo_options {| opened_on := []; sent := [] |} = (Ok demo_start, {| opened_on := []; sent := [] |}).
Proof. vm_compute. reflexivity. Qed.
Lemma demo_handle : exists c h, handles demo_state !! 0%nat = Some (c, h) /\ Representation.bytes_fit (Codec.options c) /\
  (exists w, Codec.encode c demo_value = Ok w) /\ norm (schema c) demo_value = demo_value.
Proof.
  eexists _, _. split; [vm_compute; reflexivity|]. split; [vm_compute; reflexivity|].
  split; [eexists; vm_compute; reflexivity | vm_compute; reflexivity].
Qed.

Lemma entities_where_configured_witness :
  opened_on (node demo_state) = [js "/b"] /\
  (createPublisher Descriptor.demo_lookup demo_options demo_type (js "/b") demo_qos demo_state).1 = Ok 1%nat /\
  exists c r, Representation.from_native c r = Ok demo_value /\ publish 0 demo_value demo_state = in_node (node_publish 0 r) demo_state.
Proof.
  pose proof (entities_where_configured Descriptor.demo_lookup demo_options demo_remap demo_actions _ _ _ demo_backend_created)
    as (_ & _ & _ & _ & H & _).
  split; [vm_compute; reflexivity|]. split; [vm_compute; reflexivity|].
  destruct demo_handle as (c & h & Hh & Hf & [w Hw] & Hn).
  destruct (H 0%nat c h demo_value w Hh ltac:(repeat constructor) Hf Hw) as (r & Hr & Hback & _). exists c, r.
  assert (h = 0%nat) as -> by (vm_compute in Hh; congruence). split; [by rewrite Hn in Hback | exact Hr].
Defined.
End Rclnodejs.
