(* ===== verification/Registry.v ===== *)
(** * The registry

    [app/registry.ts]: the types a configuration names, the canonical form of a
    descriptor, and the registry of topics with their codecs and schema
    identifiers.  The YAML library, the type generator and SHA-256 are
    parameters. *)

From stdpp Require Import sorting.
From S2P Require Import Prelude JsNumber JsString JsMap Regex Values SessionValidation ConfigTypes ConfigValidation ConfigBinding ConfigProps CodecTypes CodecScalars CodecSchema Codec CodecProps CodecDecode CodecMain Json Descriptor Router Adapter.

Module Registry.

(** ** [canonical] *)

(** The order of [Array.prototype.sort] on strings: by code units. *)
Fixpoint str_leb (a b : jsstr) : bool :=
  match a, b with
  | [], _ => true
  | _ :: _, [] => false
  | x :: a, y :: b => (x <? y) || ((x =? y) && str_leb a b)
  end.
Definition str_le (a b : jsstr) : Prop := str_leb a b = true.
#[export] Instance str_le_dec : RelDecision str_le.
Proof. intros a b. unfold str_le. apply _. Defined.
Definition sort_keys (l : list jsstr) : list jsstr := merge_sort str_le l.

Fixpoint canonical (value : jsval) : jsval :=
  match value with
  | VArr slots _ => VArr (map (fun s => match s.1 with HoleSlot => s | _ => (DataSlot, canonical s.2) end) slots) 0
  | VObj _ props =>
      let members := map (fun p => (p.1, canonical p.2)) props in
      object_of (omap (fun name => pair name <$> prop_lookup name members) (sort_keys (own_keys props)))
  | VBytes bs => obj (imap (fun i b => (Z_to_js (Z.of_nat i), VNum (of_Z b))) bs)
  | _ => value
  end.

(** ** [inspectConfig] *)

Section load.
(** [parseDocument(source, ...)] and [document.toJS({ maxAliasCount: 0 })]. *)
Context {D : Type} (parse : jsstr -> option D) (toJS : D -> result jsval).
Definition yaml (source : jsstr) : option jsval :=
  match parse source with
  | Some document => match toJS document with Ok v => Some v | Throw _ => None end
  | None => None
  end.

Definition inspectConfig (source : jsstr) (maxBytes : Z) : result BridgeConfig :=
  throw_when (maxBytes <? byteLength source) (Error "config_too_large");;
  document ← of_option (Error "invalid_config") (parse source);
  value ← toJS document;
  root ← ConfigValidation.record value (map js ["version"; "robot_id"; "limits"; "topics"; "video"; "video_tracks"]) (js "$");
  topics ← ConfigValidation.record (prop "topics" root) (object_keys (prop "topics" root)) (js "topics");
  available ← mapR (fun name =>
    entry ← ConfigValidation.record (entry topics name) (object_keys (entry topics name)) (js "topic");
    str (prop "ros_type" entry) rosType_re (js "ros_type")) (object_keys topics);
  parseBridgeConfig yaml source {| availableTypes := available; maxConfigBytes := Some (VNum (of_Z maxBytes));
    maxTopics := None; resolveTopic := None |}.
End load.

(** ** [createRegistry] *)

Section registry.
(** [createHash('sha256').update(text).digest('hex')] *)
Context (sha256 : jsstr -> jsstr) (describe : jsstr -> result (list Descriptor.RosField)).

Definition registration (b : TopicBinding) : result Router.RouterBinding :=
  descriptor ← Descriptor.descriptorFromRos describe (rosType b) (VNum (of_Z 32));
  let allowNonFinite := bool_decide (commandGuard b = None) in
  schema ← stringify (canonical (obj [(js "codec", VStr (js "ros-json-v1")); (js "descriptor", descriptor);
    (js "allowNonFinite", VBool allowNonFinite)]));
  codec ← createCodec descriptor (obj [(js "allowNonFinite", VBool allowNonFinite)]);
  Ok {| Router.binding := b; Router.codec := codec; Router.schemaId := js "sha256:" ++ sha256 (default [] schema) |}.
Definition createRegistry (config : BridgeConfig) : result (list Router.RouterBinding) :=
  mapR registration (topics config).
End registry.

(** ** The order of the keys *)

Lemma str_leb_cons x y a b : str_leb (x :: a) (y :: b) = true <-> x < y \/ x = y /\ str_leb a b = true.
Proof. simpl. by rewrite orb_true_iff, andb_true_iff, Z.ltb_lt, Z.eqb_eq. Qed.
#[export] Instance str_le_trans : Transitive str_le.
Proof.
  unfold str_le. intros a. induction a as [|x a IH]; intros [|y b] [|z c]; try done.
  rewrite !str_leb_cons. intros [?|[-> ?]] [?|[-> ?]]; [left; lia | left; lia | left; lia | right; eauto].
Qed.
#[export] Instance str_le_total : Total str_le.
Proof.
  unfold str_le. intros a. induction a as [|x a IH]; intros [|y b]; [by left | by left | by right |].
  rewrite !str_leb_cons. destruct (Z.lt_total x y) as [?|[->|?]]; [auto | | auto]. destruct (IH b); auto.
Qed.
#[export] Instance str_le_antisymm : AntiSymm (=) str_le.
Proof.
  unfold str_le. intros a. induction a as [|x a IH]; intros [|y b]; try done.
  rewrite !str_leb_cons. intros [?|[-> ?]] [?|[? ?]]; try lia. f_equal. auto.
Qed.

Lemma sort_keys_perm l : sort_keys l ≡ₚ l.
Proof. apply merge_sort_Permutation. Qed.
Lemma sort_keys_unique l k : l ≡ₚ k -> sort_keys l = sort_keys k.
Proof.
  intros Hp. apply (Sorted_unique str_le); [apply (Sorted_merge_sort str_le)..|].
  change (sort_keys l ≡ₚ sort_keys k). by rewrite !sort_keys_perm.
Qed.

(** ** Plain data: what a parser or [descriptorFromRos] builds *)

Definition leaf (v : jsval) : bool := match v with VBytes _ | VArr _ _ | VObj _ _ => false | _ => true end.
Inductive plain : jsval -> Prop :=
| plain_leaf v : leaf v = true -> plain v
| plain_arr l : (forall v, v ∈ l -> plain v) -> plain (arr l)
| plain_obj m : NoDup (map fst m) -> (forall k v, (k, v) ∈ m -> plain v) -> plain (obj m).

(** The same data, whatever the order of its members. *)
Inductive same : jsval -> jsval -> Prop :=
| same_leaf v : leaf v = true -> same v v
| same_arr l l' : List.length l = List.length l' ->
    (forall i v w, l !! i = Some v -> l' !! i = Some w -> same v w) -> same (arr l) (arr l')
| same_obj m m' : map fst m ≡ₚ map fst m' ->
    (forall k v w, mget k m = Some v -> mget k m' = Some w -> same v w) -> same (obj m) (obj m').

Lemma canonical_leaf v : leaf v = true -> canonical v = v.
Proof. by destruct v. Qed.
Lemma canonical_arr l : canonical (arr l) = arr (map canonical l).
Proof. simpl. unfold arr. f_equal. rewrite !map_map. by apply map_ext. Qed.
Definition sorted_members (m : list (jsstr * jsval)) : list (jsstr * jsval) :=
  omap (fun k => (fun v => (k, canonical v)) <$> mget k m) (sort_keys (map fst m)).
Lemma canonical_obj m : canonical (obj m) = object_of (sorted_members m).
Proof.
  set (props := map (fun kv => (StringKey kv.1, DataProp, kv.2)) m).
  change (canonical (obj m)) with (object_of (omap (fun k => pair k <$> prop_lookup k (map (fun p => (p.1, canonical p.2)) props))
    (sort_keys (own_keys props)))).
  assert (Hk : own_keys props = map fst m).
  { unfold props. induction m as [|kv m' IH]; [done|]. cbn. by f_equal. }
  assert (Hg : forall k, pair k <$> prop_lookup k (map (fun p => (p.1, canonical p.2)) props) =
    (fun v => (k, canonical v)) <$> mget k m).
  { intros k. unfold props. clear. induction m as [|[k' v] m IH]; [done|]. simpl. by destruct (decide (k = k')). }
  rewrite Hk. f_equal. unfold sorted_members. generalize (sort_keys (map fst m)) as ks.
  induction ks as [|k ks IH]; [done|]. cbn -[mget prop_lookup]. by rewrite Hg, IH.
Qed.

Lemma sorted_members_fst m : map fst (sorted_members m) = sort_keys (map fst m).
Proof.
  unfold sorted_members. assert (Hk : forall k, k ∈ sort_keys (map fst m) -> is_Some (mget k m)).
  { intros k Hk. rewrite sort_keys_perm in Hk. destruct (mget k m) eqn:Hn; [done|]. by apply mget_None in Hn. }
  revert Hk. generalize (sort_keys (map fst m)) as ks. induction ks as [|k ks IH]; intros Hk; [done|]. simpl.
  destruct (Hk k ltac:(left)) as [v ->]. simpl. f_equal. apply IH. intros k' Hk'. apply Hk. by right.
Qed.
Lemma sorted_members_in m k w : (k, w) ∈ sorted_members m <-> k ∈ map fst m /\ exists v, mget k m = Some v /\ w = canonical v.
Proof.
  unfold sorted_members. rewrite list_elem_of_omap. split.
  - intros (k' & Hk & Hw). rewrite sort_keys_perm in Hk. destruct (mget k' m) as [v|] eqn:Hv; [|done].
    injection Hw as <- <-. eauto.
  - intros (Hk & v & Hv & ->). exists k. rewrite sort_keys_perm. split; [done|]. by rewrite Hv.
Qed.

Lemma same_canonical v w : same v w -> canonical v = canonical w.
Proof.
  induction 1 as [v Hv | l l' Hl _ IH | m m' Hk _ IH]; [done| |].
  - rewrite !canonical_arr. f_equal. apply list_eq_same_length with (List.length l); [by rewrite length_map..|].
    intros i v w _ Hv Hw. rewrite list_lookup_fmap in Hv, Hw.
    destruct (l !! i) eqn:H1, (l' !! i) eqn:H2; simplify_eq/=. by eapply IH.
  - rewrite !canonical_obj. f_equal. unfold sorted_members. rewrite (sort_keys_unique _ _ Hk).
    assert (Hg : forall k, (fun v => (k, canonical v)) <$> mget k m = (fun v => (k, canonical v)) <$> mget k m').
    { intros k. destruct (mget k m) as [v|] eqn:Hv, (mget k m') as [w|] eqn:Hw; simpl; [by rewrite (IH k v w) | | |done]; exfalso.
      - apply mget_None in Hw. apply Hw. unfold mkeys. rewrite <- Hk. apply mget_elem in Hv. by apply (list_elem_of_fmap_2 fst) in Hv.
      - apply mget_None in Hv. apply Hv. unfold mkeys. rewrite Hk. apply mget_elem in Hw. by apply (list_elem_of_fmap_2 fst) in Hw. }
    generalize (sort_keys (map fst m')) as ks. induction ks as [|k ks IHk]; [done|]. cbn -[mget]. by rewrite Hg, IHk.
Qed.

Lemma arr_inj l k : arr l = arr k -> l = k.
Proof.
  intros [= H]. apply (f_equal (map snd)) in H. rewrite !map_map in H. simpl in H. by rewrite !map_id in H.
Qed.
Lemma obj_inj (m m' : list (jsstr * jsval)) : obj m = obj m' -> m = m'.
Proof.
  intros [= H]. apply (f_equal (map (fun p : prop_key * prop_kind * jsval => (match p.1.1 with StringKey k => k | SymbolKey => [] end, p.2)))) in H.
  rewrite !map_map in H. simpl in H. by rewrite !(map_ext (fun x => (x.1, x.2)) id), !map_id in H by (by intros []).
Qed.

Lemma canonical_same v : plain v -> forall w, plain w -> canonical v = canonical w -> same v w.
Proof.
  induction 1 as [v Hv | l _ IH | m Hm _ IH]; intros w Hw He.
  - rewrite canonical_leaf in He by done. destruct Hw as [w Hw | k _ | k _ _].
    + rewrite canonical_leaf in He by done. subst. by constructor.
    + rewrite canonical_arr in He. by subst v.
    + rewrite canonical_obj in He. by subst v.
  - rewrite canonical_arr in He. destruct Hw as [w Hw | k Hk | k _ _].
    + rewrite canonical_leaf in He by done. by subst w.
    + rewrite canonical_arr in He. apply arr_inj in He. constructor; [by apply (f_equal List.length) in He; rewrite !length_map in He|].
      intros i v w Hv Hw. eapply IH; [by eapply list_elem_of_lookup_2 | apply Hk; by eapply list_elem_of_lookup_2 |].
      apply (f_equal (lookup i)) in He. rewrite !list_lookup_fmap, Hv, Hw in He. by injection He.
    + by rewrite canonical_obj in He.
  - rewrite canonical_obj in He. destruct Hw as [w Hw | k _ | m' Hm' Hp].
    + rewrite canonical_leaf in He by done. by subst w.
    + by rewrite canonical_arr in He.
    + rewrite canonical_obj in He.
      destruct (Descriptor.object_of_perm (sorted_members m)) as (kvs & H1 & P1), (Descriptor.object_of_perm (sorted_members m')) as (kvs' & H2 & P2).
      rewrite H1, H2 in He. apply obj_inj in He. subst kvs'.
      assert (Hk : map fst m ≡ₚ map fst m').
      { rewrite <- (sort_keys_perm (map fst m)), <- (sort_keys_perm (map fst m')), <- !sorted_members_fst. by rewrite <- P1, P2. }
      constructor; [done|]. intros k v w Hv Hw. pose proof (mget_elem _ _ _ Hv) as Hin. pose proof (mget_elem _ _ _ Hw) as Hin'.
      eapply IH; [done | by eapply Hp |].
      assert (Hc : (k, canonical v) ∈ sorted_members m).
      { apply sorted_members_in. split; [by apply (list_elem_of_fmap_2 fst) in Hin | eauto]. }
      rewrite <- P1, P2 in Hc. apply sorted_members_in in Hc as (_ & w' & Hw' & ->). congruence.
Qed.

(** C23: [canonical] is a normal form: two pieces of data have the same
    canonical form exactly when they differ only in the order of their
    members, at any depth.  The text that is hashed into a schema identifier
    therefore depends on the definition of the type and not on the order in
    which its descriptor was put together. *)
Theorem canonical_spec v w : plain v -> plain w -> canonical v = canonical w <-> same v w.
Proof. intros Hv Hw. split; [by apply canonical_same | apply same_canonical]. Qed.

Definition demo_data (swap : bool) : jsval :=
  let a := (js "b", VNum (of_Z 1)) in let b := (js "a", arr [VNull; obj [(js "10", VBool true); (js "9", VBool false)]]) in
  obj (if swap then [b; a] else [a; b]).
Lemma demo_plain swap : plain (demo_data swap).
Proof.
  assert (Ha : plain (arr [VNull; obj [(js "10", VBool true); (js "9", VBool false)]])).
  { apply plain_arr. intros v Hv. repeat (apply elem_of_cons in Hv as [->|Hv]); [by apply plain_leaf | | by apply elem_of_nil in Hv].
    apply plain_obj; [apply (bool_decide_eq_true_1 _); vm_compute; reflexivity|].
    intros k v Hv. repeat (apply elem_of_cons in Hv as [[= -> ->]|Hv]); [by apply plain_leaf.. | by apply elem_of_nil in Hv]. }
  destruct swap; (apply plain_obj; [apply (bool_decide_eq_true_1 _); vm_compute; reflexivity|]);
    intros k v Hv; repeat (apply elem_of_cons in Hv as [[= -> ->]|Hv]); done || (by apply plain_leaf) || (by apply elem_of_nil in Hv).
Qed.
Lemma canonical_spec_witness : same (demo_data true) (demo_data false) /\ demo_data true <> demo_data false.
Proof.
  split; [|by vm_compute]. apply (canonical_spec _ _ (demo_plain true) (demo_plain false)). vm_compute. reflexivity.
Defined.

(** ** The registry of a configuration *)

(** No number that is not finite, at any depth. *)
Fixpoint all_finite (v : jsval) : bool :=
  match v with
  | VNum x => is_finite x
  | VArr slots _ => forallb (fun s => all_finite s.2) slots
  | VObj _ props => forallb (fun p => all_finite p.2) props
  | _ => true
  end.
Lemma conforms_finite o f v : schema_ok f -> allowNonFinite o = false -> conforms o f v -> all_finite v = true.
Proof.
  intros Hs Ho. revert v. induction f as [|b|bits s|bits|b|b e IH|fields IH] using Field_ind'; intros v Hv.
  - by destruct Hv as [b ->].
  - by destruct Hv as (s & -> & _).
  - destruct Hv as (z & Hz & ->). destruct (Z.eqb_spec bits 64) as [|Hne]; [done|]. simpl.
    apply of_Z_finite. eapply int_range_small; [exact Hs | done | exact Hz].
  - destruct Hv as (x & -> & Hf & _). simpl. destruct (is_finite x); [done|]. specialize (Hf eq_refl). congruence.
  - by destruct Hv as (bs & -> & _).
  - destruct Hv as (vs & -> & _ & Hall). simpl in *. clear -Hall IH Hs. induction Hall as [|v vs Hv _ IHl]; [done|].
    simpl. by rewrite IH, IHl.
  - apply conforms_object in Hv as (vs & -> & Hall). apply schema_ok_object in Hs as [_ Hs]. simpl. clear -Hall IH Hs.
    induction Hall as [|f v fields vs Hv _ IHl]; [done|]. apply Forall_cons in IH as [IH1 IH], Hs as [Hs1 Hs].
    simpl. by rewrite IH1, IHl.
Qed.

Section sound.
Context (sha256 : jsstr -> jsstr) (describe : jsstr -> result (list Descriptor.RosField)).

(** What the registry holds for one topic. *)
Record entry_ok (entry : Router.RouterBinding) : Prop := {
  eo_schema : Descriptor.ros_schema describe (rosType (Router.binding entry)) (schema (Router.codec entry));
  eo_finite : allowNonFinite (options (Router.codec entry)) = bool_decide (commandGuard (Router.binding entry) = None);
  eo_keys : schema_ok (schema (Router.codec entry));
  eo_id : exists text, Router.schemaId entry = js "sha256:" ++ sha256 text }.

Lemma registry_entry_Ok b entry : registration sha256 describe b = Ok entry -> Router.binding entry = b /\ entry_ok entry.
Proof.
  unfold registration. intros H. inv_res. subst entry. simpl. split; [done|].
  split; simpl; [by eapply Descriptor.descriptor_schema | | | eauto].
  - unfold createCodec in Hx1. inv_res. subst. simpl. clear -Hx2.
    destruct (bool_decide _); vm_compute in Hx2; injection Hx2 as <-; reflexivity.
  - eapply createCodec_schema_ok; [by eapply Descriptor.descriptor_keys | exact Hx1].
Qed.

Lemma createRegistry_Ok config reg : createRegistry sha256 describe config = Ok reg ->
  map Router.binding reg = topics config /\ Forall entry_ok reg.
Proof.
  unfold createRegistry. intros H%mapR_Ok. induction H as [|b e bs reg He _ [IH1 IH2]]; [done|].
  apply registry_entry_Ok in He as [<- He]. simpl. rewrite IH1. auto.
Qed.

Lemma copy_entries_accepts ts reg : Forall (fun e => Router.binding e ∈ ts) reg ->
  NoDup (map (fun e => publicName (Router.binding e)) reg) ->
  Forall (fun e => identifier (VStr (Router.schemaId e)) = Ok tt) reg ->
  forall m, (forall e, e ∈ reg -> mget (publicName (Router.binding e)) m = None) -> exists m', Router.copy_entries ts reg m = Ok m'.
Proof.
  intros Ht Hn Hi. induction reg as [|e reg IH]; intros m Hm; [by exists m|].
  apply Forall_cons in Ht as [Ht1 Ht], Hi as [Hi1 Hi]. apply NoDup_cons in Hn as [Hni Hn]. cbn [Router.copy_entries].
  rewrite bool_decide_true by done. unfold mhas. rewrite (Hm e) by left. rewrite bool_decide_false by (by intros [? ?]).
  cbn [negb orb throw_when mbind result_bind]. rewrite Hi1. cbn [mbind result_bind].
  apply IH; [done..|]. intros e' He'. rewrite mget_mset. destruct (decide _) as [Heq|]; [|apply Hm; by right].
  exfalso. apply Hni. rewrite <- Heq. by apply (list_elem_of_fmap_2 (fun e => publicName (Router.binding e))).
Qed.
Lemma register_accepts {B L} reg : NoDup (map (fun e => publicName (Router.binding e)) reg) ->
  forall s : Adapter.adapter B L, (forall e, e ∈ reg -> mget (publicName (Router.binding e)) (Adapter.registrations s) = None) ->
  exists s', Adapter.register reg s = Ok s'.
Proof.
  intros Hn. induction reg as [|e reg IH]; intros s Hs; [by exists s|]. apply NoDup_cons in Hn as [Hni Hn]. simpl.
  unfold mhas. rewrite (Hs e) by left. rewrite bool_decide_false by (by intros [? ?]). simpl.
  apply IH; [done|]. intros e' He'. simpl. rewrite mget_mset. destruct (decide _) as [Heq|]; [|apply Hs; by right].
  exfalso. apply Hni. rewrite <- Heq. by apply (list_elem_of_fmap_2 (fun e => publicName (Router.binding e))).
Qed.

(** Names are the keys of an object. *)
Lemma object_keys_NoDup v : keys_ok v -> NoDup (object_keys v).
Proof.
  assert (Hs : forall n, NoDup (map (fun i => Z_to_js (Z.of_nat i)) (seq 0 n))).
  { intros n. apply (NoDup_fmap_2_strong (fun i => Z_to_js (Z.of_nat i))); [|apply NoDup_seq].
    intros x y _ _ H%Z_to_js_inj. lia. }
  destruct v as [| | | | |s| | |bs|slots extra|proto props]; simpl; intros Hk; try apply NoDup_nil_2; [apply Hs | apply Hs | |].
  - assert (Hsub : forall (g : nat -> option jsstr) l, (forall i k, g i = Some k -> k = Z_to_js (Z.of_nat i)) -> NoDup l -> NoDup (omap g l)).
    { intros g l Hg. induction 1 as [|i l Hi _ IH]; [constructor|]. simpl. destruct (g i) as [k|] eqn:Hgi; [|done].
      apply NoDup_cons. split; [|done]. intros (j & Hj & Hgj)%list_elem_of_omap.
      apply Hg in Hgi, Hgj. subst. apply Z_to_js_inj in Hgj. by replace i with j in Hi by lia. }
    apply Hsub; [|apply NoDup_seq]. intros i k. repeat case_match; by intros [= <-].
  - apply (keys_ok_obj proto) in Hk as [Hn _]. clear -Hn. induction props as [|[[k kd] v] props IH]; [constructor|].
    apply NoDup_cons in Hn as [Hni Hn]. unfold own_keys in *. simpl. destruct k as [k|]; [|by apply IH].
    destruct kd; try (by apply IH); (apply NoDup_cons; split; [|by apply IH]);
      intros ([[k' kd'] v'] & Hin & Hk)%list_elem_of_omap; apply Hni; destruct k' as [k'|]; try done;
      destruct kd'; try done; injection Hk as ->;
      exact (list_elem_of_fmap_2 (fun p : prop_key * prop_kind * jsval => p.1.1) _ _ Hin).
Qed.
End sound.

(** What a SHA-256 digest looks like in hexadecimal. *)
Definition hex_digest (sha256 : jsstr -> jsstr) : Prop := forall text, List.length (sha256 text) = 64%nat /\
  Forall (fun c => digit c || between 97 102 c = true) (sha256 text).
Lemma schemaId_identifier sha256 text : hex_digest sha256 -> identifier (VStr (js "sha256:" ++ sha256 text)) = Ok tt.
Proof.
  intros H. destruct (H text) as [Hl Hc]. apply identifier_Ok. eexists. split; [reflexivity|].
  split; [rewrite length_app, Hl; vm_compute; lia|]. apply Forall_app. split; [by repeat constructor|].
  eapply Forall_impl; [exact Hc|]. intros c. unfold digit, between. lia.
Qed.

Lemma registry_accepted {D} (parse : jsstr -> option D) toJS sha256 describe source cfg_options config reg :
  (forall document v, toJS document = Ok v -> keys_ok v) -> hex_digest sha256 ->
  parseBridgeConfig (yaml parse toJS) source cfg_options = Ok config -> createRegistry sha256 describe config = Ok reg ->
  NoDup (map (fun e => publicName (Router.binding e)) reg) /\ exists m, Router.copy_entries (topics config) reg [] = Ok m.
Proof.
  intros Hy Hsha (doc & Hdoc & Hnames)%config_names [Hb He]%createRegistry_Ok.
  assert (Hn : NoDup (map (fun e => publicName (Router.binding e)) reg)).
  { rewrite <- (map_map Router.binding publicName), Hb, Hnames. apply object_keys_NoDup, keys_ok_prop.
    unfold yaml in Hdoc. destruct (parse source) as [d|]; [|done]. destruct (toJS d) eqn:Hd; [|done].
    injection Hdoc as ->. by eapply Hy. }
  split; [done|]. apply copy_entries_accepts; [|done| |done].
  - apply Forall_forall. intros e Hin. rewrite <- Hb. by apply (list_elem_of_fmap_2 Router.binding).
  - eapply Forall_impl; [exact He|]. intros e [_ _ _ [text ->]]. by apply schemaId_identifier.
Qed.

(** C22: the registry of an accepted configuration has one entry per topic, in
    the order of the document, and no two of one name, so that the ROS adapter
    and every router accept it as it is.  The codec of each topic has the
    schema of its ROS type, and on a guarded topic it lets no infinity and no
    NaN through, at any depth. *)
Theorem registry_usable {D} (parse : jsstr -> option D) toJS sha256 describe source cfg_options config reg {B L} (b : B) :
  (forall document v, toJS document = Ok v -> keys_ok v) -> hex_digest sha256 ->
  parseBridgeConfig (yaml parse toJS) source cfg_options = Ok config -> createRegistry sha256 describe config = Ok reg ->
  map Router.binding reg = topics config /\
  (exists a, Adapter.constructor (L := L) reg b = Ok a) /\ (exists m, Router.copy_entries (topics config) reg [] = Ok m) /\
  forall entry, entry ∈ reg ->
    Descriptor.ros_schema describe (rosType (Router.binding entry)) (schema (Router.codec entry)) /\
    forall g wire v, commandGuard (Router.binding entry) = Some g -> decode (Router.codec entry) wire = Ok v -> all_finite v = true.
Proof.
  intros Hy Hsha Hcfg Hreg. destruct (registry_accepted _ _ _ _ _ _ _ _ Hy Hsha Hcfg Hreg) as [Hn Hm]. apply createRegistry_Ok in Hreg as [Hb He].
  split_and!; [done | by apply register_accepts | done |].
  - intros entry Hin. rewrite Forall_forall in He. destruct (He _ Hin) as [H1 H2 H3 _]. split; [done|].
    intros g wire v Hg [n Hv]%convert_Ok. destruct (visit_decodes _ _ H3 _ _ _ _ _ Hv) as (Hc & _).
    eapply conforms_finite; [done | | exact Hc]. rewrite H2. by rewrite Hg.
Qed.

(** ** A concrete registry: one guarded topic *)

Definition demo_toJS (document : unit) : result jsval := Ok demo_document.
Definition demo_sha256 (text : jsstr) : jsstr := repeat 48 64.
Definition demo_describe (type : jsstr) : result (list Descriptor.RosField) :=
  Ok [Descriptor.field "speed" (Descriptor.plain "float64")].
Definition demo_config : BridgeConfig :=
  match parseBridgeConfig (yaml (fun _ => Some tt) demo_toJS) [] demo_options with Ok c => c
  | Throw _ => {| robotId := []; limits := {| maxPeers := 0; maxMessageBytes := 0; maxPeerQueueBytes := 0; maxChannelBufferedBytes := 0 |}; topics := [] |} end.
Definition demo_entry : Router.RouterBinding :=
  match registration demo_sha256 demo_describe demo_topic with Ok e => e
  | Throw _ => {| Router.binding := demo_topic; Router.codec := demo_codec; Router.schemaId := [] |} end.

Lemma demo_keys_unique document v : demo_toJS document = Ok v -> keys_ok v.
Proof.
  intros [= <-]. unfold demo_document, map_val. cbn.
  repeat split; apply (bool_decide_eq_true_1 _); vm_compute; reflexivity.
Qed.
Lemma demo_digest : hex_digest demo_sha256.
Proof. intros text. split; [done|]. by repeat constructor. Qed.

Definition infinite_command : jsval := obj [(js "speed", VStr (js "Infinity"))].
Lemma registry_usable_witness :
  inspectConfig (fun _ => Some tt) demo_toJS [] 1048576 = Ok demo_config /\
  createRegistry demo_sha256 demo_describe demo_config = Ok [demo_entry] /\
  (exists a, Adapter.constructor (L := nat) [demo_entry] Adapter.Mock.fresh = Ok a) /\
  decode (Router.codec demo_entry) infinite_command <> Ok (obj [(js "speed", VNum (S754_infinity false))]).
Proof.
  assert (Hc : parseBridgeConfig (yaml (fun _ => Some tt) demo_toJS) [] demo_options = Ok demo_config) by (vm_compute; reflexivity).
  assert (Hr : createRegistry demo_sha256 demo_describe demo_config = Ok [demo_entry]) by (vm_compute; reflexivity).
  destruct (registry_usable (L := nat) (fun _ => Some tt) demo_toJS demo_sha256 demo_describe [] demo_options demo_config [demo_entry]
    Adapter.Mock.fresh demo_keys_unique demo_digest Hc Hr) as (_ & Ha & _ & He).
  split; [vm_compute; reflexivity|]. split; [exact Hr|]. split; [exact Ha|]. intros Hd.
  destruct (He demo_entry ltac:(left)) as [_ Hf].
  assert (Hg : commandGuard (Router.binding demo_entry) = Some {| leaseMs := 250 |}) by (vm_compute; reflexivity).
  discriminate (Hf _ _ _ Hg Hd).
Defined.
End Registry.
