(* ===== verification/Signaling.v ===== *)
(** * Signaling

    [signaling/handler.ts], [signaling/docs.ts] and [signaling/openapi.ts]: the
    HTTPS handler that authenticates an offer, reads its body under a size and a
    time limit and hands it to the transport, the documentation it serves, and
    the specification it publishes.  SHA-256, the distributed assets and the
    YAML writer are parameters; requests, body chunks, timers and the outcome
    of a negotiation are events. *)

From S2P Require Import Prelude JsNumber JsString JsMap Values SessionValidation CodecTypes CodecSchema Json.

Module Signaling.

(** ** Bytes of a body *)

(** [Buffer.toString('utf8')]: every maximal part that is not UTF-8 becomes
    U+FFFD.  The second byte is restricted after some first bytes, so neither
    overlong forms nor surrogates are read. *)
Definition second_byte (a b : Z) : bool :=
  if a =? 0xE0 then (0xA0 <=? b) && (b <=? 0xBF)
  else if a =? 0xED then (0x80 <=? b) && (b <=? 0x9F)
  else if a =? 0xF0 then (0x90 <=? b) && (b <=? 0xBF)
  else if a =? 0xF4 then (0x80 <=? b) && (b <=? 0x8F)
  else continuation b.
Fixpoint utf8_lossy (bs : list Z) : jsstr :=
  match bs with
  | [] => []
  | a :: bs1 =>
      if a <? 0x80 then a :: utf8_lossy bs1
      else if negb ((0xC2 <=? a) && (a <=? 0xF4)) then 0xFFFD :: utf8_lossy bs1
      else match bs1 with
      | [] => [0xFFFD]
      | b :: bs2 =>
          if negb (second_byte a b) then 0xFFFD :: utf8_lossy bs1
          else if a <=? 0xDF then ((a - 0xC0) * 64 + (b - 0x80)) :: utf8_lossy bs2
          else match bs2 with
          | [] => [0xFFFD]
          | c :: bs3 =>
              if negb (continuation c) then 0xFFFD :: utf8_lossy bs2
              else if a <=? 0xEF then ((a - 0xE0) * 4096 + (b - 0x80) * 64 + (c - 0x80)) :: utf8_lossy bs3
              else match bs3 with
              | [] => [0xFFFD]
              | d :: bs4 =>
                  if negb (continuation d) then 0xFFFD :: utf8_lossy bs3
                  else utf16 ((a - 0xF0) * 262144 + (b - 0x80) * 4096 + (c - 0x80) * 64 + (d - 0x80)) ++ utf8_lossy bs4
              end
          end
      end
  end.

(** ** [readBody] *)

Record body := {
  size : Z; chunks : list (list Z);
  listening : bool (** [data], [end] and [aborted] are attached *);
  guarded : bool (** so is [error] *);
  timer : bool;
  outcome : option (result jsval) (** the promise, once settled *) }.
Definition readBody : body := {| size := 0; chunks := []; listening := true; guarded := true; timer := true; outcome := None |}.

(** Settling a promise again has no effect. *)
Definition finish (o : result jsval) (b : body) : body := {|
  size := size b; chunks := chunks b; listening := false; guarded := guarded b; timer := false;
  outcome := match outcome b with Some o => Some o | None => Some o end |}.

Inductive body_event := Data (chunk : list Z) | End | Failed | Aborted | Closed | Expired.
Definition data (maxBytes : Z) (chunk : list Z) (b : body) : body :=
  let counted cs := {| size := size b + zlength chunk; chunks := cs; listening := listening b; guarded := guarded b;
    timer := timer b; outcome := outcome b |} in
  if maxBytes <? size b + zlength chunk then finish (Throw (Error "body_too_large")) (counted (chunks b))
  else counted (chunks b ++ [chunk]).
Definition end_ (b : body) : body :=
  match json_parse (utf8_lossy (concat (chunks b))) with
  | Ok value => finish (Ok value) b
  | Throw _ => finish (Throw (Error "bad_request")) b
  end.
Definition failed (b : body) : body := finish (Throw (Error "bad_request")) b.
Definition body_step (maxBytes : Z) (e : body_event) (b : body) : body :=
  match e with
  | Data chunk => if listening b then data maxBytes chunk b else b
  | End => if listening b then end_ b else b
  | Aborted => if listening b then failed b else b
  | Failed => if guarded b then failed b else b
  | Closed => {| size := size b; chunks := chunks b; listening := listening b; guarded := false; timer := timer b; outcome := outcome b |}
  | Expired => if timer b then finish (Throw (Error "request_timeout")) b else b
  end.

(** ** The specification *)

Definition text (s : string) : jsval := VStr (js s).
Definition members (l : list (string * jsval)) : jsval := obj (map (fun m => (js m.1, m.2)) l).
Definition closed_object (required : list string) (properties : list (string * jsval)) : jsval := members [
  ("type", text "object"); ("additionalProperties", VBool false); ("required", arr (map text required));
  ("properties", members properties)]%string.
Definition enum (s : string) : jsval := members [("type", text "string"); ("enum", arr [text s])]%string.
Definition json_content (schema : jsval) : jsval := members [("application/json", members [("schema", schema)])]%string.
Definition errorResponse (description error : string) : jsval := members [
  ("description", text description); ("content", json_content (closed_object ["error"] [("error", enum error)]))]%string.

Definition description_text : string := "HTTPS signaling only. ROS Topic publish/subscribe uses the versioned WebRTC DataChannel protocol, not REST. Create the three required DataChannels and complete ICE gathering before submitting an offer.".
Definition health_operation : jsval := members [
  ("operationId", text "getHealth"); ("summary", text "Check signaling readiness"); ("security", arr []);
  ("responses", members [("200", members [
    ("description", text "Signaling HTTP handler is ready; this does not certify ROS peer availability.");
    ("content", json_content (closed_object ["status"] [("status", enum "ready")]))])])]%string.
Definition offer_operation : jsval := members [
  ("operationId", text "exchangeOffer"); ("summary", text "Exchange a WebRTC SDP offer for an answer");
  ("security", arr [members [("bearerAuth", arr [])]]);
  ("description", text "Requires Content-Type exactly application/json. Body bytes, read timeout and concurrent negotiations are bounded by deployment settings. Invalid SDP or negotiation failure is rejected. An SDP answer alone does not establish the DataChannel ready handshake.");
  ("requestBody", members [("required", VBool true);
    ("content", json_content (closed_object ["type"; "sdp"] [("type", enum "offer"); ("sdp", members [("type", text "string")])]))]);
  ("responses", members [
    ("200", members [("description", text "SDP answer; complete the WebRTC and DataChannel handshake on the client.");
      ("content", json_content (closed_object ["type"; "sdp"] [("type", enum "answer"); ("sdp", members [("type", text "string")])]))]);
    ("400", errorResponse "Malformed JSON, invalid offer fields or rejected negotiation." "offer_rejected");
    ("401", errorResponse "Missing or incorrect Bearer credential." "unauthorized");
    ("408", errorResponse "Request body read deadline exceeded." "request_timeout");
    ("413", errorResponse "Request body exceeds the configured byte limit." "body_too_large");
    ("415", errorResponse "Content-Type is not exactly application/json." "content_type");
    ("503", errorResponse "Concurrent pending negotiation limit reached." "busy")])]%string.
Definition signalingOpenApi : jsval := members [
  ("openapi", text "3.0.3");
  ("info", members [("title", text "ROS WebRTC Bridge Signaling API"); ("version", text "1.0.0"); ("description", text description_text)]);
  ("servers", arr [members [("url", text "/")]]);
  ("paths", members [("/health", members [("get", health_operation)]); ("/offer", members [("post", offer_operation)])]);
  ("components", members [("securitySchemes", members [("bearerAuth", members [
    ("type", text "http"); ("scheme", text "bearer");
    ("description", text "Runtime-issued credential; never commit or persist it.")])])])]%string.

(** ** The documentation *)

Inductive content := Text (t : jsstr) | Asset (name : jsstr).
Section docs.
(** [stringify] of the YAML library. *)
Variable yaml_stringify : jsval -> jsstr.

(** A text written with single quotes for double ones. *)
Definition quoted (s : string) : jsstr := map (fun c => if c =? 39 then 34 else c) (js s).
Definition html : jsstr :=
  quoted "<!doctype html><html lang='en'><head><meta charset='utf-8'><meta name='viewport' content='width=device-width,initial-scale=1'>" ++ [10] ++
  quoted "<title>ROS WebRTC Bridge API</title><link rel='icon' href='data:,'><link rel='stylesheet' href='/docs/swagger-ui.css'></head>" ++ [10] ++
  quoted "<body><div id='swagger-ui'></div><script src='/docs/swagger-ui-bundle.js'></script><script src='/docs/init.js'></script></body></html>".
Definition init_js : jsstr :=
  quoted "SwaggerUIBundle({url:'/openapi.json',dom_id:'#swagger-ui',validatorUrl:null,persistAuthorization:false,queryConfigEnabled:false});".
Definition specification_text : jsstr := match stringify signalingOpenApi with Ok (Some t) => t | _ => [] end.

(** The map from URLs to content types and bodies. *)
Definition resources : jsmap jsstr (jsstr * content) := [
  (js "/openapi.json", (js "application/json", Text specification_text));
  (js "/openapi.yaml", (js "application/yaml", Text (yaml_stringify signalingOpenApi)));
  (js "/docs/swagger-ui.css", (js "text/css", Asset (js "swagger-ui-dist/swagger-ui.css")));
  (js "/docs/swagger-ui-bundle.js", (js "application/javascript", Asset (js "swagger-ui-dist/swagger-ui-bundle.js")));
  (js "/docs/init.js", (js "application/javascript", Text init_js));
  (js "/docs", (js "text/html", Text html));
  (js "/docs/", (js "text/html", Text html))].
End docs.

(** ** The handler *)

Record request := { method : jsstr; url : option jsstr; authorization : option jsstr; content_type : option jsstr }.
Record SignalingOptions := { credential : jsval; maxBodyBytes : jsval; requestTimeoutMs : jsval; maxPending : jsval }.
(** The snapshot of the options, validated. *)
Record limits := { l_credential : jsstr; l_body : Z; l_timeout : Z; l_pending : Z }.

(** Where the asynchronous function of a request is suspended. *)
Inductive phase := Reading | Negotiating | Settled.
#[export] Instance phase_eq : EqDecision phase.
Proof. solve_decision. Defined.
Record call := { req : request; read : body; at_phase : phase }.

Inductive effect :=
| WriteHead (id : nat) (status : Z) (type : jsstr)
| Send (id : nat) (body : content)
| Accept (id : nat) (sdp : jsstr) (** [settings.accept(...)] is called *)
| Rejected (id : nat) (e : js_error) (** the handler's promise rejects *).

Section handler.
Variables (sha256 : jsstr -> list Z) (yaml_stringify : jsval -> jsstr).

Definition authenticate (expected : jsstr) (supplied : option jsstr) : bool :=
  match supplied with
  | None => false
  | Some supplied => bool_decide (sha256 (js "Bearer " ++ expected) = sha256 supplied)
  end.

Record handler := { settings : limits; pending : Z; calls : jsmap nat call; log : list effect (** newest first *) }.
Definition set_pending v (s : handler) := {| settings := settings s; pending := v; calls := calls s; log := log s |}.
Definition set_calls v (s : handler) := {| settings := settings s; pending := pending s; calls := v; log := log s |}.
Definition set_log v (s : handler) := {| settings := settings s; pending := pending s; calls := calls s; log := v |}.
Definition note (e : effect) : ST handler unit := modify (fun s => set_log (e :: log s) s).

Definition createSignalingHandler (o : SignalingOptions) : result handler :=
  match credential o with
  | VStr c =>
      throw_when (zlength c <? 32) (Error "invalid_credential");;
      mb ← positiveLimit (maxBodyBytes o);
      mt ← positiveLimit (requestTimeoutMs o);
      mp ← positiveLimit (maxPending o);
      Ok {| settings := {| l_credential := c; l_body := mb; l_timeout := mt; l_pending := mp |};
            pending := 0; calls := []; log := [] |}
  | _ => Throw (Error "invalid_credential")
  end.

(** [headersSent] of the response. *)
Definition is_head (id : nat) (e : effect) : bool := match e with WriteHead i _ _ => bool_decide (i = id) | _ => false end.
Definition writeHead (id : nat) (status : Z) (type : jsstr) : ST handler unit :=
  s ← get;
  throw_when (existsb (is_head id) (log s)) (Error "ERR_HTTP_HEADERS_SENT");;
  note (WriteHead id status type).
Definition reply (id : nat) (status : Z) (v : jsval) : ST handler unit :=
  writeHead id status (js "application/json");;
  t ← lift (stringify v);
  note (Send id (Text (default [] t))).
Definition error_body (s : string) : jsval := members [("error"%string, text s)].

Definition serveSignalingDocs (id : nat) (r : request) : ST handler bool :=
  if negb (bool_decide (method r = js "GET")) then mret false else
  match mget (default [] (url r)) (resources yaml_stringify) with
  | None => mret false
  | Some (type, content) =>
      writeHead id 200 type;;
      note (Send id content);;
      mret true
  end.

(** [error.message] *)
Definition message (e : js_error) : jsstr :=
  match e with
  | Error m | TypeError m | AggregateError _ m => js m
  | ErrorText m => m
  | ConfigError path reason => path ++ js ": " ++ js reason
  end.

(** The [finally] block, and the end of the function. *)
Definition settle (id : nat) (o : result unit) : ST handler unit :=
  modify (fun s => set_pending (pending s - 1) s);;
  modify (fun s => set_calls (mmap (fun i c => if decide (i = id) then {| req := req c; read := read c; at_phase := Settled |} else c) (calls s)) s);;
  match o with Throw e => note (Rejected id e) | Ok _ => mret tt end.
Definition refuse (id : nat) (e : js_error) : ST handler unit :=
  let reason := message e in
  o ← attempt (
    if decide (reason = js "body_too_large") then reply id 413 (error_body "body_too_large")
    else if decide (reason = js "request_timeout") then reply id 408 (error_body "request_timeout")
    else reply id 400 (error_body "offer_rejected"));
  settle id o.

(** What [JSON.parse] gave, as an offer. *)
Definition offer_sdp (offer : jsval) : result jsstr :=
  match offer with
  | VObj _ props =>
      throw_when (existsb (fun k => negb (bool_decide (k = js "type") || bool_decide (k = js "sdp"))) (own_keys props)
                  || negb (is_str "offer" (prop "type" offer))) (Error "bad_request");;
      match prop "sdp" offer with VStr s => Ok s | _ => Throw (Error "bad_request") end
  | _ => Throw (Error "bad_request")
  end.

(** The function after [await readBody(...)], up to [await settings.accept(...)]. *)
Definition body_read (id : nat) (o : result jsval) : ST handler unit :=
  match (offer ← o; offer_sdp offer) with
  | Throw e => refuse id e
  | Ok sdp =>
      note (Accept id sdp);;
      modify (fun s => set_calls (mmap (fun i c => if decide (i = id) then {| req := req c; read := read c; at_phase := Negotiating |} else c) (calls s)) s)
  end.
(** And after it. *)
Definition negotiated (id : nat) (o : result jsval) : ST handler unit :=
  r ← attempt (v ← lift o; reply id 200 v);
  match r with Ok _ => settle id (Ok tt) | Throw e => refuse id e end.

(** The function up to its first suspension. *)
Definition handle (id : nat) (r : request) : ST handler unit :=
  s ← get;
  served ← serveSignalingDocs id r;
  if served : bool then mret tt
  else if bool_decide (method r = js "GET") && bool_decide (url r = Some (js "/health")) then
    reply id 200 (members [("status"%string, text "ready")])
  else if negb (bool_decide (method r = js "POST")) || negb (bool_decide (url r = Some (js "/offer"))) then
    reply id 404 (error_body "not_found")
  else if negb (authenticate (l_credential (settings s)) (authorization r)) then reply id 401 (error_body "unauthorized")
  else if negb (bool_decide (content_type r = Some (js "application/json"))) then reply id 415 (error_body "content_type")
  else if l_pending (settings s) <=? pending s then reply id 503 (error_body "busy")
  else
    modify (set_pending (pending s + 1));;
    modify (set_calls (mset id {| req := r; read := readBody; at_phase := Reading |} (calls s))).

(** ** Events *)

Inductive event := Request (id : nat) (r : request) | Body (id : nat) (e : body_event) | Answered (id : nat) (o : result jsval).
Definition step (e : event) : ST handler unit :=
  s ← get;
  match e with
  | Request id r => handle id r
  | Body id e =>
      match mget id (calls s) with
      | None => mret tt
      | Some c =>
          let b := body_step (l_body (settings s)) e (read c) in
          modify (set_calls (mset id {| req := req c; read := b; at_phase := at_phase c |} (calls s)));;
          match at_phase c, outcome b with
          | Reading, Some o => body_read id o
          | _, _ => mret tt
          end
      end
  | Answered id o =>
      match mget id (calls s) with
      | Some {| at_phase := Negotiating |} => negotiated id o
      | _ => mret tt
      end
  end.
Definition run (events : list event) (s : handler) : handler := fold_left (fun s e => (step e s).2) events s.
End handler.
End Signaling.
