(* ===== verification/SignalingProps.v ===== *)
(** * What the signaling handler guarantees

    Authentication before any body is read, bounded requests and bodies, one
    response per request, and agreement with the published specification. *)

From S2P Require Import Prelude JsNumber JsString JsMap Values SessionValidation CodecTypes CodecSchema Json Signaling.

Module SignalingProps.
Import Signaling.

(** ** What the specification says *)

(** The operation a request addresses, its response schemas, and its request
    schema. *)
Definition lower_method (m : jsstr) : string :=
  if decide (m = js "GET") then "get" else if decide (m = js "POST") then "post" else "other".
Definition member (k : jsstr) (v : jsval) : jsval := match v with VObj _ props => default VUndefined (prop_lookup k props) | _ => VUndefined end.
Definition operation (r : request) : jsval :=
  prop (lower_method (method r)) (member (default [] (url r)) (prop "paths" signalingOpenApi)).
Definition content_schema (v : jsval) : jsval := prop "schema" (prop "application/json" (prop "content" v)).
Definition response_schema (op : jsval) (status : Z) : jsval := content_schema (member (Z_to_js status) (prop "responses" op)).
Definition request_schema (op : jsval) : jsval := content_schema (prop "requestBody" op).

(** A value has a schema of strings, or of an object of strings. *)
Definition elements (v : jsval) : list jsval := match v with VArr slots _ => map snd slots | _ => [] end.
Definition is_text (v : jsval) (s : jsval) : bool := match v, s with VStr a, VStr b => bool_decide (a = b) | _, _ => false end.
Definition valid_string (schema v : jsval) : bool :=
  is_str "string" (prop "type" schema) && match v with VStr _ => true | _ => false end &&
  (is_undefined (prop "enum" schema) || existsb (is_text v) (elements (prop "enum" schema))).
Definition valid (schema v : jsval) : bool :=
  match v, prop "properties" schema with
  | VObj _ props, VObj _ declared =>
      is_str "object" (prop "type" schema) &&
      forallb (fun name => match name with VStr k => bool_decide (k ∈ own_keys props) | _ => false end) (elements (prop "required" schema)) &&
      forallb (fun k => match prop_lookup k declared, prop_lookup k props with
        | Some s, Some x => valid_string s x | _, _ => false end) (own_keys props)
  | _, _ => false
  end.

Definition answer_value (sdp : jsstr) : jsval := members [("type", text "answer"); ("sdp", VStr sdp)]%string.

(** What may be sent in response to a request. *)
Section props.
Context (sha256 : jsstr -> list Z) (yaml_stringify : jsval -> jsstr).

Definition response_ok (r : request) (status : Z) (type : jsstr) (c : content) : Prop :=
  (method r = js "GET" /\ status = 200 /\ mget (default [] (url r)) (resources yaml_stringify) = Some (type, c)) \/
  (type = js "application/json" /\ exists v t, c = Text t /\ stringify v = Ok (Some t) /\
    if is_undefined (operation r) then status = 404 /\ v = error_body "not_found"
    else valid (response_schema (operation r) status) v = true).

(** An authenticated offer. *)
Record offer_request (l : limits) (r : request) : Prop := {
  or_method : method r = js "POST";
  or_url : url r = Some (js "/offer");
  or_auth : authenticate sha256 (l_credential l) (authorization r) = true;
  or_type : content_type r = Some (js "application/json") }.

Definition has_head (id : nat) (l : list effect) : bool := existsb (is_head id) l.
Definition is_accept (id : nat) (e : effect) : bool := match e with Accept i _ => bool_decide (i = id) | _ => false end.
Definition has_accept (id : nat) (l : list effect) : bool := existsb (is_accept id) l.
#[local] Arguments has_head : simpl never.
#[local] Arguments has_accept : simpl never.
#[local] Arguments resources : simpl never.

(** The logs of the handler: a response is written at once and at most once
    per request, and only an authenticated offer is accepted, at most once. *)
Inductive log_ok (l : limits) (reqs : list (nat * request)) : list effect -> Prop :=
| log_nil : log_ok l reqs []
| log_answer id r status type c log : log_ok l reqs log -> has_head id log = false -> (id, r) ∈ reqs ->
    response_ok r status type c -> log_ok l reqs (Send id c :: WriteHead id status type :: log)
| log_accept id r sdp log : log_ok l reqs log -> has_accept id log = false -> has_head id log = false ->
    (id, r) ∈ reqs -> offer_request l r -> log_ok l reqs (Accept id sdp :: log).

Lemma log_ok_mono l reqs reqs' log : (forall x, x ∈ reqs -> x ∈ reqs') -> log_ok l reqs log -> log_ok l reqs' log.
Proof. intros H. induction 1; econstructor; eauto. Qed.

(** ** Bodies *)

Record body_ok (max : Z) (b : body) : Prop := {
  b_size : zlength (concat (chunks b)) <= max;
  b_count : listening b = true -> size b = zlength (concat (chunks b));
  b_open : outcome b = None -> listening b = true /\ timer b = true }.
Lemma body_ok_start max : 0 <= max -> body_ok max readBody.
Proof. by split. Qed.
Lemma body_ok_finish max o b : zlength (concat (chunks b)) <= max -> body_ok max (finish o b).
Proof. intros H. split; simpl; [done | done |]. by destruct (outcome b). Qed.
Lemma body_ok_step max e b : body_ok max b -> body_ok max (body_step max e b).
Proof.
  intros Hb. pose proof (b_size _ _ Hb) as Hs. destruct e as [chunk| | | | |]; simpl.
  - destruct (listening b) eqn:Hl; [|done]. unfold data. pose proof (b_count _ _ Hb Hl) as Hc.
    destruct (Z.ltb_spec max (size b + zlength chunk)) as [|Hle]; [by apply body_ok_finish|].
    assert (Hz : zlength (concat (chunks b ++ [chunk])) = zlength (concat (chunks b)) + zlength chunk).
    { rewrite concat_app, zlength_app. simpl. by rewrite app_nil_r. }
    split; simpl; [by rewrite Hz, <- Hc | by rewrite Hz, <- Hc | apply Hb].
  - destruct (listening b); [|done]. unfold end_. destruct (json_parse _); by apply body_ok_finish.
  - destruct (guarded b); [|done]. by apply body_ok_finish.
  - destruct (listening b); [|done]. by apply body_ok_finish.
  - destruct Hb. by split.
  - destruct (timer b); [|done]. by apply body_ok_finish.
Qed.
Lemma body_step_settled max e b o : outcome b = Some o -> outcome (body_step max e b) = Some o.
Proof.
  intros H. assert (Hf : forall o' b, outcome b = Some o -> outcome (finish o' b) = Some o) by (intros o' b' Hb; simpl; by rewrite Hb).
  destruct e as [chunk| | | | |]; simpl; repeat (unfold data, end_, failed; case_match); auto.
Qed.

(** ** The invariant *)

Record call_ok (l : limits) (reqs : list (nat * request)) (log : list effect) (id : nat) (c : call) : Prop := {
  c_req : (id, req c) ∈ reqs;
  c_offer : offer_request l (req c);
  c_body : body_ok (l_body l) (read c);
  c_reading : at_phase c = Reading <-> outcome (read c) = None;
  c_head : has_head id log = bool_decide (at_phase c = Settled);
  c_accept : at_phase c = Reading -> has_accept id log = false }.
Definition open (c : call) : Z := if decide (at_phase c = Settled) then 0 else 1.

Record inv (l : limits) (reqs : list (nat * request)) (s : handler) : Prop := {
  i_settings : settings s = l;
  i_body : 0 <= l_body l;
  i_keys : NoDup (mkeys (calls s));
  i_calls : mall (call_ok l reqs (log s)) (calls s);
  i_pending : pending s = msum open (calls s);
  i_bound : pending s <= l_pending l;
  i_log : log_ok l reqs (log s);
  i_seen : forall id, has_head id (log s) = true \/ has_accept id (log s) = true \/ is_Some (mget id (calls s)) ->
    id ∈ map fst reqs;
  i_cover : forall id, id ∈ map fst reqs -> has_head id (log s) = true \/ is_Some (mget id (calls s)) }.

(** More log and the same calls cover no less. *)
Lemma cover_more (reqs : list (nat * request)) log log' (m m' : jsmap nat call) :
  (forall id, id ∈ map fst reqs -> has_head id log = true \/ is_Some (mget id m)) ->
  (forall id, has_head id log = true -> has_head id log' = true) -> (forall id, is_Some (mget id m) -> is_Some (mget id m')) ->
  forall id, id ∈ map fst reqs -> has_head id log' = true \/ is_Some (mget id m').
Proof. naive_solver. Qed.
Lemma head_more id l log : has_head id log = true -> has_head id (l ++ log) = true.
Proof. unfold has_head. rewrite existsb_app. intros ->. by rewrite orb_true_r. Qed.
Lemma mget_mset_some (id i : nat) c (m : jsmap nat call) : is_Some (mget i m) -> is_Some (mget i (mset id c m)).
Proof. rewrite mget_mset. destruct (decide _); eauto. Qed.

Lemma open_range c : 0 <= open c <= 1.
Proof. unfold open. destruct (decide _); lia. Qed.

(** Logging for one request leaves the others as they are. *)
Lemma call_ok_other l reqs log log' id i c : i <> id -> call_ok l reqs log i c ->
  (forall j, j <> id -> has_head j log' = has_head j log /\ has_accept j log' = has_accept j log) ->
  call_ok l reqs log' i c.
Proof. intros Hne [] Hl. destruct (Hl i Hne) as [H1 H2]. split; try done; by rewrite ?H1, ?H2. Qed.

Lemma calls_replace l reqs log log' (m : jsmap nat call) id c' :
  NoDup (mkeys m) -> mall (call_ok l reqs log) m -> call_ok l reqs log' id c' ->
  (forall j, j <> id -> has_head j log' = has_head j log /\ has_accept j log' = has_accept j log) ->
  mall (call_ok l reqs log') (mset id c' m).
Proof.
  intros Hn Hm Hc Hl. apply mall_intro; [by apply NoDup_mset|]. intros i c. rewrite mget_mset.
  destruct (decide (i = id)) as [->|Hne]; [by intros [= <-]|]. intros Hi.
  eapply call_ok_other; [exact Hne | by apply (mall_get _ _ _ _ Hm) | done].
Qed.

Lemma head_answer j id st type c log : j <> id ->
  has_head j (Send id c :: WriteHead id st type :: log) = has_head j log /\
  has_accept j (Send id c :: WriteHead id st type :: log) = has_accept j log.
Proof. intros Hne. unfold has_head, has_accept. simpl. by rewrite bool_decide_false by congruence. Qed.

Lemma handler_inv_answer l reqs s id c c' st t : inv l reqs s -> mget id (calls s) = Some c -> at_phase c <> Settled ->
  req c' = req c -> body_ok (l_body l) (read c') -> is_Some (outcome (read c')) -> at_phase c' = Settled ->
  response_ok (req c) st (js "application/json") (Text t) ->
  inv l reqs {| settings := settings s; pending := pending s - 1; calls := mset id c' (calls s);
    log := Send id (Text t) :: WriteHead id st (js "application/json") :: log s |}.
Proof.
  intros [Hs Hb Hk Hc Hp Hbd Hl Hseen Hcov] Hid Hph Hr Hbody [o Ho] Hset Hresp.
  pose proof (mall_get _ _ _ _ Hc Hid) as [C1 C2 C3 C4 C5 C6]. split; simpl; try done.
  - by apply NoDup_mset.
  - eapply calls_replace; [done | exact Hc | | intros j Hj; by apply head_answer].
    split; try (by rewrite ?Hr); [by rewrite Hset, Ho | by rewrite Hset; unfold has_head; simpl; rewrite bool_decide_true | by rewrite Hset].
  - rewrite (msum_mset_old open id c' c) by done. unfold open at 2 3. rewrite Hset, decide_False, decide_True by done. lia.
  - lia.
  - econstructor; [done | by rewrite C5, bool_decide_false | exact C1 | exact Hresp].
  - intros j Hj. apply Hseen. destruct (decide (j = id)) as [->|Hne]; [right; right; eauto|].
    destruct (head_answer j id st (js "application/json") (Text t) (log s) Hne) as [H1 H2]. rewrite H1, H2 in Hj.
    rewrite mget_mset_ne in Hj by done. exact Hj.
  - eapply cover_more; [exact Hcov | intros; by apply (head_more _ [_; _]) | intros; by apply mget_mset_some].
Qed.

Lemma inv_accept l reqs s id c c' sdp : inv l reqs s -> mget id (calls s) = Some c -> at_phase c = Reading ->
  req c' = req c -> body_ok (l_body l) (read c') -> is_Some (outcome (read c')) -> at_phase c' = Negotiating ->
  inv l reqs {| settings := settings s; pending := pending s; calls := mset id c' (calls s); log := Accept id sdp :: log s |}.
Proof.
  intros [Hs Hb Hk Hc Hp Hbd Hl Hseen Hcov] Hid Hph Hr Hbody [o Ho] Hset.
  pose proof (mall_get _ _ _ _ Hc Hid) as [C1 C2 C3 C4 C5 C6]. rewrite Hph in C5.
  assert (Hother : forall j, j <> id -> has_head j (Accept id sdp :: log s) = has_head j (log s) /\
    has_accept j (Accept id sdp :: log s) = has_accept j (log s)).
  { intros j Hj. unfold has_head, has_accept. simpl. by rewrite bool_decide_false by congruence. }
  split; simpl; try done.
  - by apply NoDup_mset.
  - eapply calls_replace; [done | exact Hc | | done].
    split; try (by rewrite ?Hr); [by rewrite Hset, Ho | rewrite Hset; exact C5 | by rewrite Hset].
  - rewrite (msum_mset_old open id c' c) by done. unfold open at 2 3. rewrite Hset, Hph, !decide_False by done. lia.
  - econstructor; [done | by apply C6 | exact C5 | exact C1 | exact C2].
  - intros j Hj. apply Hseen. destruct (decide (j = id)) as [->|Hne]; [right; right; eauto|].
    destruct (Hother j Hne) as [H1 H2]. rewrite H1, H2, mget_mset_ne in Hj by done. exact Hj.
  - eapply cover_more; [exact Hcov | intros; by apply (head_more _ [_]) | intros; by apply mget_mset_some].
Qed.

Lemma inv_body l reqs s id c b : inv l reqs s -> mget id (calls s) = Some c -> body_ok (l_body l) b ->
  (at_phase c = Reading <-> outcome b = None) ->
  inv l reqs (set_calls (mset id {| req := req c; read := b; at_phase := at_phase c |} (calls s)) s).
Proof.
  intros [Hs Hb Hk Hc Hp Hbd Hl Hseen Hcov] Hid Hbody Hout.
  pose proof (mall_get _ _ _ _ Hc Hid) as [C1 C2 C3 C4 C5 C6]. split; simpl; try done.
  - by apply NoDup_mset.
  - by eapply calls_replace.
  - rewrite (msum_mset_old open id _ c) by done. unfold open at 2 3. simpl. lia.
  - intros j. rewrite mget_mset. destruct (decide (j = id)) as [->|]; [|apply Hseen]. intros _. apply Hseen. eauto.
  - eapply cover_more; [exact Hcov | done | intros; by apply mget_mset_some].
Qed.

(** ** Replies *)

Lemma reply_eq id st v t s : has_head id (log s) = false -> stringify v = Ok (Some t) ->
  reply id st v s = (Ok tt, set_log (Send id (Text t) :: WriteHead id st (js "application/json") :: log s) s).
Proof.
  intros Hh Hv. unfold reply. rewrite ST_bind_eq. unfold writeHead. rewrite get_bind. unfold has_head in Hh. rewrite Hh.
  simpl. by rewrite Hv.
Qed.

Definition to_offer (r : request) : Prop := method r = js "POST" /\ url r = Some (js "/offer").
Lemma offer_request_to l r : offer_request l r -> to_offer r.
Proof. by intros [Hm Hu _ _]. Qed.
Lemma operation_offer r : to_offer r -> operation r = offer_operation.
Proof. intros [Hm Hu]. unfold operation. rewrite Hm, Hu. reflexivity. Qed.
Lemma offer_response r st v t : to_offer r -> stringify v = Ok (Some t) ->
  valid (response_schema offer_operation st) v = true -> response_ok r st (js "application/json") (Text t).
Proof.
  intros Hr Hv Hs. right. split; [done|]. exists v, t. rewrite (operation_offer r) by done.
  split_and!; [done..|]. change (is_undefined offer_operation) with false. exact Hs.
Qed.

Lemma mmap_here {V} (f : V -> V) id c (m : jsmap nat V) : NoDup (mkeys m) -> is_Some (mget id m) ->
  mmap (fun i c => if decide (i = id) then f c else c) (mset id c m) = mset id (f c) m.
Proof.
  assert (Hid : forall m : jsmap nat V, id ∉ mkeys m -> mmap (fun i c => if decide (i = id) then f c else c) m = m).
  { intros m'. unfold mmap. induction m' as [|[i v] m' IH]; simpl; [done|].
    intros [Hi Hm]%not_elem_of_cons. rewrite decide_False by done. by rewrite IH. }
  induction m as [|[i v] m IH]; intros Hn [x Hx]; [done|]. apply NoDup_cons in Hn as [Hni Hn]. simpl in *.
  destruct (decide (id = i)) as [->|Hne].
  - unfold mmap. simpl. rewrite decide_True by done. f_equal. by apply Hid.
  - unfold mmap in *. simpl. rewrite decide_False by done. f_equal. apply IH; eauto.
Qed.

(** The refusal of an error: its status and body. *)
Definition refusal (e : js_error) : Z * string :=
  if decide (message e = js "body_too_large") then (413, "body_too_large"%string)
  else if decide (message e = js "request_timeout") then (408, "request_timeout"%string)
  else (400, "offer_rejected"%string).
Lemma refusal_text e : exists t, stringify (error_body (refusal e).2) = Ok (Some t) /\
  valid (response_schema offer_operation (refusal e).1) (error_body (refusal e).2) = true.
Proof.
  unfold refusal. repeat case_decide; (eexists; split; [vm_compute; reflexivity | vm_compute; reflexivity]).
Qed.

Definition settled (c : call) : call := {| req := req c; read := read c; at_phase := Settled |}.
(** A request that has been answered. *)
Definition answered (s : handler) (id : nat) (c : call) (st : Z) (t : jsstr) : handler :=
  {| settings := settings s; pending := pending s - 1; calls := mset id (settled c) (calls s);
     log := Send id (Text t) :: WriteHead id st (js "application/json") :: log s |}.

Lemma refuse_eq s id c e t : NoDup (mkeys (calls s)) -> is_Some (mget id (calls s)) -> has_head id (log s) = false ->
  stringify (error_body (refusal e).2) = Ok (Some t) ->
  refuse id e (set_calls (mset id c (calls s)) s) = (Ok tt, answered s id c (refusal e).1 t).
Proof.
  intros Hn Hid Hh Ht. unfold refuse. cbv zeta. rewrite ST_bind_eq. unfold attempt.
  assert (Hr : (if decide (message e = js "body_too_large") then reply id 413 (error_body "body_too_large")
    else if decide (message e = js "request_timeout") then reply id 408 (error_body "request_timeout")
    else reply id 400 (error_body "offer_rejected")) = reply id (refusal e).1 (error_body (refusal e).2))
    by (unfold refusal; repeat case_decide; reflexivity).
  rewrite Hr, (reply_eq id _ _ t) by done. unfold settle, note. unfold_st. simpl.
  rewrite (mmap_here settled) by done. reflexivity.
Qed.

Lemma inv_refuse l reqs s id c b e : inv l reqs s -> mget id (calls s) = Some c -> at_phase c <> Settled ->
  body_ok (l_body l) b -> is_Some (outcome b) ->
  exists t, refuse id e (set_calls (mset id {| req := req c; read := b; at_phase := at_phase c |} (calls s)) s) =
    (Ok tt, answered s id {| req := req c; read := b; at_phase := at_phase c |} (refusal e).1 t) /\
    inv l reqs (answered s id {| req := req c; read := b; at_phase := at_phase c |} (refusal e).1 t).
Proof.
  intros Hs Hid Hph Hb Ho. destruct (refusal_text e) as (t & Ht & Hv). exists t.
  pose proof (mall_get _ _ _ _ (i_calls _ _ _ Hs) Hid) as Hc. split.
  - apply refuse_eq; [apply Hs | eauto | | done]. rewrite (c_head _ _ _ _ _ Hc). by rewrite bool_decide_false.
  - eapply handler_inv_answer; try done. eapply offer_response; [by eapply offer_request_to, Hc | done | done].
Qed.

(** ** Steps *)

Lemma inv_body_read l reqs s id c b o : inv l reqs s -> mget id (calls s) = Some c -> at_phase c = Reading ->
  body_ok (l_body l) b -> outcome b = Some o ->
  inv l reqs (body_read id o (set_calls (mset id {| req := req c; read := b; at_phase := Reading |} (calls s)) s)).2.
Proof.
  intros Hs Hid Hph Hb Ho. unfold body_read. destruct (offer ← o; offer_sdp offer) as [sdp|e].
  - unfold note. unfold_st. simpl.
    rewrite (mmap_here (fun c => {| req := req c; read := read c; at_phase := Negotiating |})) by (apply Hs || eauto).
    refine (inv_accept l reqs s id c {| req := req c; read := b; at_phase := Negotiating |} sdp Hs Hid Hph eq_refl Hb _ eq_refl). eauto.
  - rewrite <- Hph. destruct (inv_refuse l reqs s id c b e Hs Hid ltac:(by rewrite Hph) Hb ltac:(eauto)) as (t & -> & Hi). exact Hi.
Qed.

Lemma answer_text sdp : exists t, stringify (answer_value sdp) = Ok (Some t).
Proof. eexists. reflexivity. Qed.
Lemma answer_valid sdp : valid (response_schema offer_operation 200) (answer_value sdp) = true.
Proof. reflexivity. Qed.

Lemma set_calls_same s id c : mget id (calls s) = Some c -> set_calls (mset id {| req := req c; read := read c; at_phase := at_phase c |} (calls s)) s = s.
Proof. intros H. destruct c. simpl. rewrite mset_same by done. by destruct s. Qed.

Lemma handler_inv_negotiated l reqs s id c o : inv l reqs s -> mget id (calls s) = Some c -> at_phase c = Negotiating ->
  (forall v, o = Ok v -> exists sdp, v = answer_value sdp) ->
  exists st t, negotiated id o s = (Ok tt, answered s id c st t) /\ inv l reqs (answered s id c st t).
Proof.
  intros Hs Hid Hph Ho. pose proof (mall_get _ _ _ _ (i_calls _ _ _ Hs) Hid) as Hc.
  assert (Hh : has_head id (log s) = false) by (rewrite (c_head _ _ _ _ _ Hc); by rewrite bool_decide_false by (by rewrite Hph)).
  assert (Hout : is_Some (outcome (read c))).
  { destruct (outcome (read c)) eqn:Hn; [by eexists|]. apply (c_reading _ _ _ _ _ Hc) in Hn. congruence. }
  unfold negotiated. rewrite ST_bind_eq. unfold attempt. destruct o as [v|e].
  - destruct (Ho v eq_refl) as [sdp ->]. destruct (answer_text sdp) as [t Ht]. exists 200, t.
    rewrite ST_bind_eq. unfold lift at 1. rewrite (reply_eq id 200 _ t) by done. split.
    + unfold settle, note. unfold_st. simpl.
      assert (Hm : calls s = mset id c (calls s)) by (symmetry; by apply mset_same). rewrite Hm at 1.
      by rewrite (mmap_here settled) by (apply Hs || eauto).
    + eapply handler_inv_answer; try done; [by rewrite Hph | apply Hc |]. eapply offer_response; [by eapply offer_request_to, Hc | done | apply answer_valid].
  - rewrite ST_bind_eq. cbn [lift].
    destruct (inv_refuse l reqs s id c (read c) e Hs Hid ltac:(by rewrite Hph) (c_body _ _ _ _ _ Hc) Hout) as (t & Hr & Hi).
    rewrite set_calls_same in Hr by done. rewrite Hr. eexists _, t. split; [|destruct c; exact Hi]. by destruct c.
Qed.

(** ** New requests *)

Lemma call_ok_mono l reqs x log id c : call_ok l reqs log id c -> call_ok l (x :: reqs) log id c.
Proof. intros []. split; try done. by right. Qed.
Lemma fresh_seen l reqs s id : inv l reqs s -> id ∉ map fst reqs ->
  has_head id (log s) = false /\ has_accept id (log s) = false /\ mget id (calls s) = None.
Proof.
  intros Hs Hid. split_and!.
  - destruct (has_head id (log s)) eqn:H; [|done]. exfalso. apply Hid, (i_seen _ _ _ Hs). by left.
  - destruct (has_accept id (log s)) eqn:H; [|done]. exfalso. apply Hid, (i_seen _ _ _ Hs). right. by left.
  - destruct (mget id (calls s)) eqn:H; [|done]. exfalso. apply Hid, (i_seen _ _ _ Hs). right. right. eauto.
Qed.

Lemma inv_respond l reqs s id r st ty c : inv l reqs s -> id ∉ map fst reqs -> response_ok r st ty c ->
  inv l ((id, r) :: reqs) (set_log (Send id c :: WriteHead id st ty :: log s) s).
Proof.
  intros Hs Hid Hr. destruct (fresh_seen l reqs s id Hs Hid) as (Hh & Ha & Hn). destruct Hs as [H1 H2 H3 H4 H5 H6 H7 H8 H9].
  split; simpl; try done.
  - apply mall_intro; [done|]. intros i c' Hi. assert (Hne : i <> id) by congruence.
    eapply call_ok_other; [exact Hne | apply call_ok_mono; by apply (mall_get _ _ _ _ H4) | intros j Hj; by apply head_answer].
    Unshelve. all: exact id.
  - econstructor; [eapply log_ok_mono; [|exact H7]; intros; by right | done | left | done].
  - intros j Hj. destruct (decide (j = id)) as [->|Hne]; [left|]. right. apply H8.
    destruct (head_answer j id st ty c (log s) Hne) as [E1 E2]. by rewrite E1, E2 in Hj.
  - intros j [->|Hj]%elem_of_cons; [left; unfold has_head; simpl; by rewrite bool_decide_true|].
    eapply cover_more; [exact H9 | intros; by apply (head_more _ [_; _]) | done | done].
Qed.

Lemma inv_admit l reqs s id r : inv l reqs s -> id ∉ map fst reqs -> offer_request l r -> pending s < l_pending l ->
  inv l ((id, r) :: reqs) {| settings := settings s; pending := pending s + 1;
    calls := mset id {| req := r; read := readBody; at_phase := Reading |} (calls s); log := log s |}.
Proof.
  intros Hs Hid Hr Hp. destruct (fresh_seen l reqs s id Hs Hid) as (Hh & Ha & Hn). destruct Hs as [H1 H2 H3 H4 H5 H6 H7 H8 H9].
  split; simpl; try done.
  - by apply NoDup_mset.
  - apply mall_set; [eapply mall_impl; [exact H4|]; intros; by apply call_ok_mono|].
    split; simpl; [left | done | by apply body_ok_start | done | by rewrite Hh | done].
  - rewrite msum_mset_new by done. unfold open at 2. simpl. lia.
  - lia.
  - eapply log_ok_mono; [|exact H7]. intros. by right.
  - intros j. rewrite mget_mset. destruct (decide (j = id)) as [->|]; [left|]. right. by apply H8.
  - intros j [->|Hj]%elem_of_cons; [right; rewrite mget_mset_eq; by eexists|].
    eapply cover_more; [exact H9 | done | intros; by apply mget_mset_some | done].
Qed.

(** Which requests the specification describes. *)
Lemma operation_cases r : (method r = js "GET" /\ url r = Some (js "/health")) \/ to_offer r \/ is_undefined (operation r) = true.
Proof.
  unfold to_offer, operation, lower_method.
  assert (Hu : forall s, default [] (url r) = js s -> js s <> [] -> url r = Some (js s)) by (intros s; destruct (url r) as [u|]; simpl; [by intros -> | by intros <-]).
  destruct (decide (default [] (url r) = js "/health")) as [E|E1].
  - rewrite E. destruct (decide (method r = js "GET")) as [->|]; [left; split; [done | by apply Hu]|].
    right. right. destruct (decide (method r = js "POST")); reflexivity.
  - destruct (decide (default [] (url r) = js "/offer")) as [E|E2].
    + rewrite E. destruct (decide (method r = js "GET")); [by right; right|].
      destruct (decide (method r = js "POST")) as [->|]; [right; left; split; [done | by apply Hu] | by right; right].
    + right. right. change (prop "paths" signalingOpenApi) with (members [("/health", members [("get", health_operation)]);
        ("/offer", members [("post", offer_operation)])]%string).
      unfold members, member, obj. cbn [map fst snd prop_lookup]. destruct (decide (default [] (url r) = js "/health")); [done|].
      destruct (decide (default [] (url r) = js "/offer")); [done|]. reflexivity.
Qed.

Lemma described_response r st v t : stringify v = Ok (Some t) ->
  (if is_undefined (operation r) then st = 404 /\ v = error_body "not_found" else valid (response_schema (operation r) st) v = true) ->
  response_ok r st (js "application/json") (Text t).
Proof. intros Ht Hv. right. split; [done|]. by exists v, t. Qed.
Definition is_ok_text (r : result (option jsstr)) : bool := match r with Ok (Some _) => true | _ => false end.
Definition health_text : jsstr := quoted "{'status':'ready'}".
Definition not_found_text : jsstr := quoted "{'error':'not_found'}".

Lemma handler_inv_handle l reqs s id r : inv l reqs s -> id ∉ map fst reqs -> inv l ((id, r) :: reqs) (handle sha256 yaml_stringify id r s).2.
Proof.
  intros Hs Hid. destruct (fresh_seen l reqs s id Hs Hid) as (Hh & Ha & Hn).
  assert (Hreply : forall st v t, stringify v = Ok (Some t) -> response_ok r st (js "application/json") (Text t) ->
    inv l ((id, r) :: reqs) (reply id st v s).2).
  { intros st v t Ht Hr. rewrite (reply_eq id st v t) by done. by apply inv_respond. }
  assert (Hrefuse : forall st m, to_offer r -> valid (response_schema offer_operation st) (error_body m) = true ->
    is_ok_text (stringify (error_body m)) = true -> inv l ((id, r) :: reqs) (reply id st (error_body m) s).2).
  { intros st m Ho Hv Hst. destruct (stringify (error_body m)) as [[t|]|] eqn:Ht; try done.
    apply (Hreply st _ t Ht). by eapply offer_response. }
  unfold handle. rewrite get_bind. unfold serveSignalingDocs. rewrite ST_bind_eq.
  assert (Hrest : inv l ((id, r) :: reqs) ((if bool_decide (method r = js "GET") && bool_decide (url r = Some (js "/health")) then
      reply id 200 (members [("status"%string, text "ready")])
    else if negb (bool_decide (method r = js "POST")) || negb (bool_decide (url r = Some (js "/offer"))) then
      reply id 404 (error_body "not_found")
    else if negb (authenticate sha256 (l_credential (settings s)) (authorization r)) then reply id 401 (error_body "unauthorized")
    else if negb (bool_decide (content_type r = Some (js "application/json"))) then reply id 415 (error_body "content_type")
    else if l_pending (settings s) <=? pending s then reply id 503 (error_body "busy")
    else
      modify (set_pending (pending s + 1));;
      modify (set_calls (mset id {| req := r; read := readBody; at_phase := Reading |} (calls s)))) s).2).
  { destruct (bool_decide (method r = js "GET") && bool_decide (url r = Some (js "/health"))) eqn:Hhealth.
    - bools. apply (Hreply 200 _ health_text); [reflexivity|]. apply (described_response r 200 (members [("status"%string, text "ready")])); [reflexivity|].
      unfold operation. rewrite H, H0. vm_compute. reflexivity.
    - destruct (negb (bool_decide (method r = js "POST")) || negb (bool_decide (url r = Some (js "/offer")))) eqn:Hnf.
      + apply (Hreply 404 _ not_found_text); [reflexivity|]. apply (described_response r 404 (error_body "not_found")); [reflexivity|].
        destruct (operation_cases r) as [[Hm Hu]|[[Hm Hu]|Hu]].
        * rewrite !bool_decide_true in Hhealth by done. done.
        * rewrite !bool_decide_true in Hnf by done. done.
        * by rewrite Hu.
      + bools. assert (Ho : to_offer r) by done.
        destruct (authenticate sha256 (l_credential (settings s)) (authorization r)) eqn:Hauth; simpl;
          [|apply (Hrefuse 401 "unauthorized" Ho); reflexivity].
        destruct (bool_decide (content_type r = Some (js "application/json"))) eqn:Hct; simpl;
          [|apply (Hrefuse 415 "content_type" Ho); reflexivity].
        destruct (Z.leb_spec (l_pending (settings s)) (pending s)) as [|Hlt];
          [apply (Hrefuse 503 "busy" Ho); reflexivity|].
        pose proof (i_settings _ _ _ Hs) as Hset. rewrite Hset in *. bools.
        refine (inv_admit l reqs s id r Hs Hid _ Hlt). by split. }
  destruct (bool_decide (method r = js "GET")) eqn:Hget; cbn [negb]; [|exact Hrest].
  destruct (mget (default [] (url r)) (resources yaml_stringify)) as [[ty c]|] eqn:Hres; [|exact Hrest].
  rewrite !ST_bind_eq. unfold writeHead. rewrite get_bind. unfold has_head in Hh. rewrite Hh. unfold note. unfold_st. simpl.
  bools. exact (inv_respond l reqs s id r 200 ty c Hs Hid (or_introl (conj Hget (conj eq_refl Hres)))).
Qed.

(** ** Every life of a handler *)

(** The requests that arrived, newest first. *)
Definition requests (events : list event) : list (nat * request) :=
  rev (omap (fun e => match e with Request id r => Some (id, r) | _ => None end) events).
(** The transport answers an offer with an SDP answer, or throws. *)
Definition transport_answers (e : event) : Prop :=
  match e with Answered _ (Ok v) => exists sdp, v = answer_value sdp | _ => True end.
Notation step := (step sha256 yaml_stringify).
Notation run := (run sha256 yaml_stringify).

Lemma handler_inv_step l reqs s e : inv l reqs s -> transport_answers e ->
  (forall id r, e = Request id r -> id ∉ map fst reqs) ->
  inv l (match e with Request id r => (id, r) :: reqs | _ => reqs end) (step e s).2.
Proof.
  intros Hs Ht Hf. unfold Signaling.step. rewrite get_bind. destruct e as [id r|id e|id o].
  - apply handler_inv_handle; [done | by eapply Hf].
  - destruct (mget id (calls s)) as [c|] eqn:Hid; [|done].
    pose proof (mall_get _ _ _ _ (i_calls _ _ _ Hs) Hid) as Hc. pose proof (i_settings _ _ _ Hs) as ->.
    pose proof (body_ok_step _ e _ (c_body _ _ _ _ _ Hc)) as Hb. pose proof (c_reading _ _ _ _ _ Hc) as Hr.
    set (b := body_step (l_body l) e (read c)) in *. rewrite ST_bind_eq. unfold modify at 1. cbn beta iota.
    destruct (decide (at_phase c = Reading)) as [Hph|Hph].
    + rewrite Hph. destruct (outcome b) as [o|] eqn:Ho; [by eapply inv_body_read|].
      rewrite <- Hph. apply (inv_body l reqs s id c b); [done..|]. by rewrite Ho.
    + assert (Hsome : is_Some (outcome (read c))) by (destruct (outcome (read c)); [by eexists | by destruct Hph; apply Hr]).
      destruct Hsome as [o Ho]. apply (body_step_settled (l_body l) e) in Ho. fold b in Ho.
      assert (Hi : inv l reqs (set_calls (mset id {| req := req c; read := b; at_phase := at_phase c |} (calls s)) s)).
      { apply inv_body; [done..|]. rewrite Ho. split; [intros; congruence | done]. }
      by destruct (at_phase c).
  - destruct (mget id (calls s)) as [c|] eqn:Hid; [|done]. destruct c as [r b ph]. destruct ph; try done.
    destruct (handler_inv_negotiated l reqs s id _ o Hs Hid eq_refl) as (st & t & -> & Hi); [|exact Hi].
    intros v ->. exact Ht.
Qed.

Lemma handler_inv_run l events : forall reqs s, inv l reqs s -> Forall transport_answers events ->
  NoDup (map fst (requests events ++ reqs)) -> inv l (requests events ++ reqs) (run events s).
Proof.
  induction events as [|e events IH]; intros reqs s Hs Ht Hn; [done|]. apply Forall_cons in Ht as [He Ht].
  assert (Hsplit : requests (e :: events) ++ reqs = requests events ++ match e with Request id r => (id, r) :: reqs | _ => reqs end).
  { unfold requests. cbn. destruct e; cbn; [|done..]. by rewrite <- app_assoc. }
  rewrite Hsplit in *. change (run (e :: events) s) with (run events (step e s).2). apply IH; [|done..].
  apply handler_inv_step; [done..|]. intros id r ->. rewrite map_app in Hn. apply NoDup_app in Hn as (_ & _ & Hn).
  by apply NoDup_cons in Hn as [Hni _].
Qed.

Lemma created_inv o s : createSignalingHandler o = Ok s -> inv (settings s) [] s /\ log s = [] /\
  0 < l_pending (settings s) /\ 0 < l_body (settings s).
Proof.
  unfold createSignalingHandler. destruct (credential o); try done. intros H. inv_res. subst s.
  apply positiveLimit_Ok in Hx0 as (? & _ & _ & ?), Hx1 as (? & _ & _ & ?), Hx2 as (? & _ & _ & ?).
  split; [|by split_and!; [| simpl; lia..]]. split; simpl; [done | lia | constructor | constructor | done | lia | constructor | by intros id [|[|[? ?]]] | by intros id ?%elem_of_nil].
Qed.

(** Where a response stands in a log. *)
Lemma log_ok_send l reqs log0 id c : log_ok l reqs log0 -> Send id c ∈ log0 -> exists r st type new old,
  (id, r) ∈ reqs /\ log0 = new ++ Send id c :: WriteHead id st type :: old /\ response_ok r st type c /\
  has_head id new = false /\ has_head id old = false.
Proof.
  induction 1 as [|i r st ty c' log0 Hl IH Hh Hr Hresp | i r sdp log0 Hl IH Ha Hh Hr Ho]; intros Hin; [by apply elem_of_nil in Hin| |].
  - apply elem_of_cons in Hin as [[= <- <-]|[Heq|Hin]%elem_of_cons]; [|done|].
    + by exists r, st, ty, [], log0.
    + destruct (IH Hin) as (r' & st' & ty' & new & old & H1 & -> & H3 & H4 & H5). exists r', st', ty', (Send i c' :: WriteHead i st ty :: new), old.
      split_and!; [done..| |done]. destruct (decide (id = i)) as [->|Hne]; [|by rewrite (proj1 (head_answer id i st ty c' new Hne))].
      exfalso. unfold has_head in Hh. rewrite existsb_app in Hh. simpl in Hh. rewrite bool_decide_true, orb_true_r in Hh by done. done.
  - apply elem_of_cons in Hin as [Heq|Hin]; [done|].
    destruct (IH Hin) as (r' & st' & ty' & new & old & H1 & -> & H3 & H4 & H5). by exists r', st', ty', (Accept i sdp :: new), old.
Qed.
Lemma log_ok_accept l reqs log0 id sdp : log_ok l reqs log0 -> Accept id sdp ∈ log0 -> exists r new old,
  (id, r) ∈ reqs /\ offer_request l r /\ log0 = new ++ Accept id sdp :: old /\ has_accept id new = false /\ has_accept id old = false.
Proof.
  induction 1 as [|i r st ty c' log0 Hl IH Hh Hr Hresp | i r sdp' log0 Hl IH Ha Hh Hr Ho]; intros Hin; [by apply elem_of_nil in Hin| |].
  - apply elem_of_cons in Hin as [Heq|[Heq|Hin]%elem_of_cons]; [done..|].
    destruct (IH Hin) as (r' & new & old & H1 & H2 & -> & H4 & H5). by exists r', (Send i c' :: WriteHead i st ty :: new), old.
  - apply elem_of_cons in Hin as [[= <- <-]|Hin]; [by exists r, [], log0|].
    destruct (IH Hin) as (r' & new & old & H1 & H2 & -> & H4 & H5). exists r', (Accept i sdp' :: new), old. split_and!; try done.
    destruct (decide (id = i)) as [->|Hne].
    + exfalso. unfold has_accept in Ha. rewrite existsb_app in Ha. simpl in Ha. rewrite bool_decide_true, orb_true_r in Ha by done. done.
    + unfold has_accept in *. simpl. by rewrite bool_decide_false by congruence.
Qed.
Lemma log_ok_rejected l reqs log0 id e : log_ok l reqs log0 -> Rejected id e ∉ log0.
Proof. induction 1; rewrite ?not_elem_of_cons; split_and?; try done; apply not_elem_of_nil. Qed.

(** The two readings of an offer: the code's and the schema's. *)
Lemma own_keys_obj kvs : own_keys (map (fun kv : jsstr * jsval => (StringKey kv.1, DataProp, kv.2)) kvs) = map fst kvs.
Proof. induction kvs as [|kv kvs IH]; [done|]. cbn. by f_equal. Qed.
Lemma prop_lookup_obj k kvs : prop_lookup k (map (fun kv : jsstr * jsval => (StringKey kv.1, DataProp, kv.2)) kvs) = mget k kvs.
Proof. induction kvs as [|[k' v] kvs IH]; [done|]. cbn. by destruct (decide (k = k')). Qed.

Lemma has_key k (kvs : list (jsstr * jsval)) : k ∈ map fst kvs <-> is_Some (mget k kvs).
Proof.
  split; [|intros [v Hv]; apply mget_elem in Hv; by apply (list_elem_of_fmap_2 fst) in Hv].
  intros Hk. destruct (mget k kvs) eqn:Hn; [by eexists|]. by apply mget_None in Hn.
Qed.
Lemma is_str_spec s v : is_str s v = true <-> v = VStr (js s).
Proof. destruct v; simpl; try done. rewrite bool_decide_eq_true. naive_solver. Qed.

Lemma valid_offer kvs : valid (request_schema offer_operation) (obj kvs) = true <->
  Forall (fun k => k = js "type" \/ k = js "sdp") (map fst kvs) /\ mget (js "type") kvs = Some (VStr (js "offer")) /\
  exists sdp, mget (js "sdp") kvs = Some (VStr sdp).
Proof.
  unfold valid, obj. change (prop "properties" (request_schema offer_operation)) with
    (members [("type", enum "offer"); ("sdp", members [("type", text "string")])]%string).
  change (is_str "object" (prop "type" (request_schema offer_operation))) with true.
  change (elements (prop "required" (request_schema offer_operation))) with [text "type"; text "sdp"].
  rewrite own_keys_obj. unfold members at 1, obj. cbn [forallb text andb].
  set (declared := map (fun kv : jsstr * jsval => (StringKey kv.1, DataProp, kv.2)) (map _ _)).
  rewrite !andb_true_iff, !bool_decide_eq_true, !has_key.
  assert (Hone : forall k, match prop_lookup k declared, prop_lookup k (map (fun kv => (StringKey kv.1, DataProp, kv.2)) kvs) with
      | Some s, Some x => valid_string s x | _, _ => false end = true <->
    (k = js "type" /\ mget k kvs = Some (VStr (js "offer"))) \/ (k = js "sdp" /\ exists sdp, mget k kvs = Some (VStr sdp))).
  { intros k. rewrite prop_lookup_obj. unfold declared. cbn [map fst snd prop_lookup].
    destruct (decide (k = js "type")) as [->|Ht].
    - transitivity (exists x, mget (js "type") kvs = Some x /\ valid_string (enum "offer") x = true); [destruct (mget _ _); naive_solver|].
      split.
      + intros (x & Hx & Hv). left. split; [done|]. rewrite Hx. unfold valid_string in Hv. bools. destruct x; try done.
        change (bool_decide (s = js "offer") || false = true) in H0. rewrite orb_false_r in H0. bools. by subst.
      + intros [[_ Hx]|[He _]]; [|done]. exists (VStr (js "offer")). by split.
    - destruct (decide (k = js "sdp")) as [->|Hs].
      + destruct (mget (js "sdp") kvs) as [x|] eqn:Hx; [|naive_solver]. unfold valid_string. destruct x; cbn; naive_solver.
      + naive_solver. }
  rewrite forallb_forall. setoid_rewrite Hone. rewrite Forall_forall. split.
  - intros [[Ht [Hs _]] Hall]. assert (Hin : forall k, is_Some (mget k kvs) -> In k (map fst kvs)).
    { intros k Hk. by apply list_elem_of_In, has_key. }
    split_and!.
    + intros k Hk. apply list_elem_of_In, Hall in Hk. naive_solver.
    + destruct (Hall _ (Hin _ Ht)) as [[_ H]|[H _]]; done.
    + destruct (Hall _ (Hin _ Hs)) as [[H _]|[_ H]]; done.
  - intros (Hk & Ht & sdp & Hs). split_and!; [by eexists.. | done |]. intros k Hin.
    apply list_elem_of_In in Hin. destruct (Hk k Hin) as [->| ->]; eauto.
Qed.

Lemma offer_sdp_spec kvs sdp : offer_sdp (obj kvs) = Ok sdp <->
  valid (request_schema offer_operation) (obj kvs) = true /\ prop "sdp" (obj kvs) = VStr sdp.
Proof.
  rewrite valid_offer. unfold offer_sdp, obj. rewrite own_keys_obj. unfold prop. rewrite !prop_lookup_obj.
  assert (Hex : existsb (fun k => negb (bool_decide (k = js "type") || bool_decide (k = js "sdp"))) (map fst kvs) = false <->
    Forall (fun k => k = js "type" \/ k = js "sdp") (map fst kvs)).
  { rewrite <- not_true_iff_false, existsb_exists, Forall_forall. split.
    - intros H k Hk. apply list_elem_of_In in Hk. destruct (decide (k = js "type")); [by left|].
      destruct (decide (k = js "sdp")); [by right|]. destruct H. exists k. split; [done|]. by rewrite !bool_decide_false.
    - intros H (k & Hk & Hb). apply list_elem_of_In, H in Hk as [->| ->]; by rewrite bool_decide_true in Hb. }
  destruct (existsb _ _).
  - simpl. split; [done|]. intros [[H _] _]. by apply Hex in H.
  - assert (Hk : Forall (fun k => k = js "type" \/ k = js "sdp") (map fst kvs)) by (by apply Hex). clear Hex.
    destruct (mget (js "type") kvs) as [ty|] eqn:Ht; simpl; [|naive_solver].
    destruct (is_str "offer" ty) eqn:Hty; simpl.
    + apply is_str_spec in Hty as ->. destruct (mget (js "sdp") kvs) as [[]|]; simpl; naive_solver.
    + split; [done|]. intros [(_ & [= ->] & _) _]. done.
Qed.
End props.

(** ** Properties *)

Section theorems.
Context (sha256 : jsstr -> list Z) (yaml_stringify : jsval -> jsstr).
Notation step := (step sha256 yaml_stringify).
Notation run := (run sha256 yaml_stringify).

Lemma inv_reached o s0 events : createSignalingHandler o = Ok s0 -> Forall transport_answers events ->
  NoDup (map fst (requests events)) -> inv sha256 yaml_stringify (settings s0) (requests events) (run events s0).
Proof.
  intros Hc%(created_inv sha256 yaml_stringify) Ht Hn. destruct Hc as (Hi & _). rewrite <- (app_nil_r (requests events)) in *.
  by apply handler_inv_run.
Qed.

(** C19: over every sequence of requests, body events and negotiations: only a
    POST to the offer path with the issued credential and the JSON content
    type is ever buffered, never more than the byte limit of it; at most
    [maxPending] of them are being read or negotiated at any time; and only
    such a request reaches the transport, once. *)
Theorem offers_admitted o s0 events : createSignalingHandler o = Ok s0 -> Forall transport_answers events ->
  NoDup (map fst (requests events)) ->
  let s := run events s0 in
  0 <= pending s <= l_pending (settings s0) /\ pending s = msum open (calls s) /\
  (forall id c, mget id (calls s) = Some c ->
    offer_request sha256 (settings s0) (req c) /\ zlength (concat (chunks (read c))) <= l_body (settings s0)) /\
  (forall id sdp, Accept id sdp ∈ log s -> exists r new old, (id, r) ∈ requests events /\ offer_request sha256 (settings s0) r /\
    log s = new ++ Accept id sdp :: old /\ has_accept id new = false /\ has_accept id old = false).
Proof.
  intros Hc Ht Hn s. pose proof (inv_reached o s0 events Hc Ht Hn) as Hi. fold s in Hi. split_and!.
  - rewrite (i_pending _ _ _ _ _ Hi). apply msum_nonneg. intros v. apply open_range.
  - apply Hi.
  - apply Hi.
  - intros id c Hid. destruct (mall_get _ _ _ _ (i_calls _ _ _ _ _ Hi) Hid) as [_ Hr Hb _ _ _]. split; [done | apply Hb].
  - intros id sdp. eapply log_ok_accept, Hi.
Qed.

(** C18: the handler keeps the contract it publishes.  Every response follows
    its head at once and is the only one of its request; on a path and method
    of [signalingOpenApi] its status is one the specification lists and its
    body has the schema listed for that status, elsewhere it is 404 or a
    document; no handler's promise rejects.  And an object is accepted as an
    offer exactly when it has the request schema of the specification. *)
Theorem openapi_contract o s0 events : createSignalingHandler o = Ok s0 -> Forall transport_answers events ->
  NoDup (map fst (requests events)) ->
  let s := run events s0 in
  (forall id c, Send id c ∈ log s -> exists r st type new old, (id, r) ∈ requests events /\
    log s = new ++ Send id c :: WriteHead id st type :: old /\ response_ok yaml_stringify r st type c /\
    has_head id new = false /\ has_head id old = false) /\
  (forall id e, Rejected id e ∉ log s) /\
  (forall kvs sdp, offer_sdp (obj kvs) = Ok sdp <->
    valid (request_schema (prop "post" (member (js "/offer") (prop "paths" signalingOpenApi)))) (obj kvs) = true /\
    prop "sdp" (obj kvs) = VStr sdp).
Proof.
  intros Hc Ht Hn s. pose proof (inv_reached o s0 events Hc Ht Hn) as Hi. fold s in Hi. split_and!.
  - intros id c. apply (log_ok_send _ _ _ _ _ _ _ (i_log _ _ _ _ _ Hi)).
  - intros id e. apply (log_ok_rejected _ _ _ _ _ _ _ (i_log _ _ _ _ _ Hi)).
  - intros kvs sdp. apply (offer_sdp_spec sha256 yaml_stringify).
Qed.

(** C20: no request is left without an answer.  At any time every request that
    arrived has been answered, or is reading its body with the deadline armed,
    whose expiry answers it with 408, or is being negotiated, and then the
    outcome answers it; either way its place is freed. *)
Theorem every_request_answered o s0 events id r : createSignalingHandler o = Ok s0 -> Forall transport_answers events ->
  NoDup (map fst (requests events)) -> (id, r) ∈ requests events ->
  let s := run events s0 in
  has_head id (log s) = true \/
  exists c, mget id (calls s) = Some c /\
    ((at_phase c = Reading /\ timer (read c) = true /\ let s' := (step (Body id Expired) s).2 in
       WriteHead id 408 (js "application/json") ∈ log s' /\ pending s' = pending s - 1) \/
     (at_phase c = Negotiating /\ forall out, transport_answers (Answered id out) ->
       let s' := (step (Answered id out) s).2 in has_head id (log s') = true /\ pending s' = pending s - 1)).
Proof.
  intros Hc Ht Hn Hin s. pose proof (inv_reached o s0 events Hc Ht Hn) as Hi. fold s in Hi.
  destruct (i_cover _ _ _ _ _ Hi id) as [Hh|[c Hid]]; [by apply (list_elem_of_fmap_2 fst) in Hin | by left|].
  pose proof (mall_get _ _ _ _ (i_calls _ _ _ _ _ Hi) Hid) as Hok. pose proof (c_head _ _ _ _ _ _ Hok) as Hh.
  pose proof (c_body _ _ _ _ _ _ Hok) as Hb. pose proof (i_settings _ _ _ _ _ Hi) as Hset.
  destruct (at_phase c) eqn:Hph.
  - right. exists c. split; [done|]. left. pose proof (proj1 (c_reading _ _ _ _ _ _ Hok) Hph) as Hout.
    destruct (b_open _ _ Hb Hout) as [_ Htimer]. cbv zeta. split_and!; [done..| |].
    all: unfold Signaling.step; rewrite get_bind, Hid, Hph; cbn [body_step]; rewrite Htimer; rewrite ST_bind_eq; unfold modify at 1;
      cbn beta iota; cbn [finish outcome]; rewrite Hout; cbn [body_read].
    all: unfold body_read; cbn [mbind result_bind].
    all: destruct (inv_refuse sha256 yaml_stringify _ _ s id c (finish (Throw (Error "request_timeout")) (read c)) (Error "request_timeout") Hi Hid
      ltac:(by rewrite Hph) (body_ok_finish _ _ _ (b_size _ _ Hb)) ltac:(simpl; by destruct (outcome (read c)))) as (t & Hr & _).
    all: rewrite Hph in Hr; rewrite Hr; cbn [answered log pending snd].
    + right. left.
    + done.
  - right. exists c. split; [done|]. right. split; [done|]. intros out Hout. cbv zeta.
    destruct (handler_inv_negotiated sha256 yaml_stringify _ _ s id c out Hi Hid Hph) as (st & t & Hr & _); [by intros v ->|].
    unfold Signaling.step. rewrite get_bind, Hid. destruct c as [cr cb cp]. simpl in Hph. subst cp. rewrite Hr.
    split; [|done]. unfold has_head. simpl. by rewrite bool_decide_true.
  - left. by rewrite Hh, bool_decide_true.
Qed.
End theorems.

(** ** Concrete requests: an offer, one beyond the capacity, one without the
    credential and a slow one *)

Definition demo_sha256 (s : jsstr) : list Z := s.
Definition demo_yaml (v : jsval) : jsstr := [].
Definition demo_credential : jsstr := repeat 97 32.
Definition demo_options : SignalingOptions := {| credential := VStr demo_credential; maxBodyBytes := VNum (of_Z 100);
  requestTimeoutMs := VNum (of_Z 1000); maxPending := VNum (of_Z 1) |}.
Definition demo_request (bearer : jsstr) : request := {| method := js "POST"; url := Some (js "/offer");
  authorization := Some (js "Bearer " ++ bearer); content_type := Some (js "application/json") |}.
Definition demo_body : list Z := quoted "{'type':'offer','sdp':'v=0'}".
Definition demo_handler : handler := match createSignalingHandler demo_options with Ok s => s
  | Throw _ => {| settings := {| l_credential := []; l_body := 0; l_timeout := 0; l_pending := 0 |}; pending := 0; calls := []; log := [] |} end.
Definition demo_events : list event := [
  Request 0 (demo_request demo_credential); Request 1 (demo_request demo_credential); Request 2 (demo_request []);
  Body 0 (Data (take 10 demo_body)); Body 0 (Data (drop 10 demo_body)); Body 0 End; Answered 0 (Ok (answer_value (js "v=0")));
  Request 3 (demo_request demo_credential)].
Definition demo_state : handler := run demo_sha256 demo_yaml demo_events demo_handler.

Lemma demo_created : createSignalingHandler demo_options = Ok demo_handler.
Proof. vm_compute. reflexivity. Qed.
Lemma demo_answers : Forall transport_answers demo_events.
Proof. repeat constructor. by exists (js "v=0"). Qed.
Lemma demo_distinct : NoDup (map fst (requests demo_events)).
Proof. apply (bool_decide_eq_true_1 _). vm_compute. reflexivity. Qed.

Lemma offers_admitted_witness :
  Accept 0 (js "v=0") ∈ log demo_state /\ pending demo_state <= 1 /\
  exists r, (0%nat, r) ∈ requests demo_events /\ offer_request demo_sha256 (settings demo_handler) r.
Proof.
  destruct (offers_admitted demo_sha256 demo_yaml demo_options demo_handler demo_events demo_created demo_answers demo_distinct)
    as ((_ & Hp) & _ & _ & Ha).
  assert (Hin : Accept 0 (js "v=0") ∈ log demo_state).
  { vm_compute. repeat first [apply list_elem_of_here | apply list_elem_of_further]. }
  split; [exact Hin|]. split; [exact Hp|]. destruct (Ha 0%nat (js "v=0") Hin) as (r & _ & _ & H1 & H2 & _). by exists r.
Defined.

Lemma openapi_contract_witness :
  exists c1 c2, Send 1 c1 ∈ log demo_state /\ Send 0 c2 ∈ log demo_state /\ Rejected 0 (Error "bad_request") ∉ log demo_state.
Proof.
  destruct (openapi_contract demo_sha256 demo_yaml demo_options demo_handler demo_events demo_created demo_answers demo_distinct)
    as (_ & Hr & _).
  exists (Text (quoted "{'error':'busy'}")), (Text (quoted "{'type':'answer','sdp':'v=0'}")).
  split; [vm_compute; repeat first [apply list_elem_of_here | apply list_elem_of_further]|].
  split; [vm_compute; repeat first [apply list_elem_of_here | apply list_elem_of_further]|]. apply Hr.
Defined.

Lemma every_request_answered_witness :
  has_head 3 (log demo_state) = false /\
  exists c, mget 3%nat (calls demo_state) = Some c /\ timer (read c) = true /\
    WriteHead 3 408 (js "application/json") ∈ log (step demo_sha256 demo_yaml (Body 3 Expired) demo_state).2.
Proof.
  assert (Hh : has_head 3 (log demo_state) = false) by (vm_compute; reflexivity). split; [exact Hh|].
  assert (Hin : (3%nat, demo_request demo_credential) ∈ requests demo_events).
  { vm_compute. repeat first [apply list_elem_of_here | apply list_elem_of_further]. }
  destruct (every_request_answered demo_sha256 demo_yaml demo_options demo_handler demo_events 3 _ demo_created demo_answers demo_distinct Hin)
    as [H|(c & Hc & [(_ & Ht & Hw & _)|(Hph & _)])].
  - change (has_head 3 (log demo_state) = true) in H. congruence.
  - exists c. split; [exact Hc|]. split; [exact Ht | exact Hw].
  - exfalso. assert (Hr : option_map at_phase (mget 3%nat (calls demo_state)) = Some Reading) by (vm_compute; reflexivity).
    pose proof (f_equal (option_map at_phase) Hc) as H2.
    change (option_map at_phase (mget 3%nat (calls demo_state)) = Some (at_phase c)) in H2. rewrite Hr in H2. congruence.
Defined.
End SignalingProps.
