(* ===== verification/Options.v ===== *)
(** * Startup options

    The part of [app/cli.ts] that reads the environment: numbers, the ICE
    settings with their STUN URL, required values and lists.  [Number(text)]
    and [net.isIP] are written out as the language and Node define them. *)

From S2P Require Import Prelude JsNumber JsString JsMap Regex Values ConfigValidation CodecTypes CodecSchema Json.

Module Options.

(** ** [Number(text)] *)

Definition white_space (c : Z) : bool :=
  between 9 13 c || between 0x2000 0x200A c ||
  bool_decide (c ∈ [32; 160; 0x1680; 0x2028; 0x2029; 0x202F; 0x205F; 0x3000; 0xFEFF]).
Fixpoint trim_start (s : jsstr) : jsstr :=
  match s with [] => [] | c :: s' => if white_space c then trim_start s' else s end.
Definition trim (s : jsstr) : jsstr := rev (trim_start (rev (trim_start s))).

(** Digits of a radix, at least one. *)
Definition radix_literal (radix : Z) (s : jsstr) : number :=
  match s with
  | [] => NaN
  | _ => default NaN (of_Z <$> foldl (fun n c =>
      n ← n; d ← hex_value c; if d <? radix then Some (radix * n + d) else None) (Some 0) s)
  end.
Definition decimal_literal (neg : bool) (s : jsstr) : number :=
  if decide (s = js "Infinity") then S754_infinity neg else
  let '(int, s) := digit_run s in
  let '(frac, s) := match eat 46 s with Some s => digit_run s | None => ([], s) end in
  if bool_decide (int = []) && bool_decide (frac = []) then NaN else
  match number_exp s with
  | Some (e, []) => decimal neg (digits_value (int ++ frac)) (e - zlength frac)
  | _ => NaN
  end.
Definition Number (text : jsstr) : number :=
  match trim text with
  | [] => of_Z 0
  | c :: s =>
      let signed := if c =? 45 then decimal_literal true s else if c =? 43 then decimal_literal false s else decimal_literal false (c :: s) in
      match s with
      | d :: r =>
          if negb (c =? 48) then signed
          else if bool_decide (d ∈ js "xX") then radix_literal 16 r
          else if bool_decide (d ∈ js "oO") then radix_literal 8 r
          else if bool_decide (d ∈ js "bB") then radix_literal 2 r
          else signed
      | [] => signed
      end
  end.

Definition numberOption (value : option jsstr) (fallback : Z) : result Z :=
  let number := match value with None => of_Z fallback | Some value => Number value end in
  throw_when (negb (is_safe_integer number) || nleb number (of_Z 0)) (Error "invalid_numeric_option");;
  Ok (default 0 (to_Z number)).

(** ** [net.isIP] *)

Definition octet_re : re := ralts [
  RCat (rlit "25") (RCls (between 48 53)); RCat (rlit "2") (RCat (RCls (between 48 52)) (RCls digit));
  RCat (rlit "1") (RCat (RCls digit) (RCls digit)); RCat (RCls (between 49 57)) (RCls digit); RCls digit].
Definition ipv4_re : re := RCat octet_re (rrep 3 (RCat (rlit ".") octet_re)).
Definition hex_digit (c : Z) : bool := digit c || between 97 102 c || between 65 70 c.
Definition segment_re : re := rrange 1 3 (RCls hex_digit).
(** [(?:seg:){n}] and [(?::seg){i,j}]. *)
Definition heads (n : nat) : re := rrep n (RCat segment_re (rlit ":")).
Definition tails (i j : nat) : re := rrange i (j - i) (RCat (rlit ":") segment_re).
(** [(?:seg:){n}(?:(?::seg){0,5-n}:v4|(?::seg){1,7-n}|:)] *)
Definition compressed (n : nat) : re :=
  RCat (heads n) (ralts [RCat (tails 0 (5 - n)) (RCat (rlit ":") ipv4_re); tails 1 (7 - n); rlit ":"]).
Definition zone_re : re := ropt (RCat (rlit "%") (rplus (RCls (fun c => alnum c || chr "-.:" c)))).
Definition ipv6_re : re := RCat (ralts [
  RCat (heads 7) (RAlt segment_re (rlit ":"));
  RCat (heads 6) (ralts [ipv4_re; RCat (rlit ":") segment_re; rlit ":"]);
  compressed 5; compressed 4; compressed 3; compressed 2; compressed 1;
  RCat (rlit ":") (ralts [RCat (tails 0 5) (RCat (rlit ":") ipv4_re); tails 1 7; rlit ":"])]) zone_re.
Definition isIP (s : jsstr) : Z := if matches ipv4_re s then 4 else if matches ipv6_re s then 6 else 0.

(** ** STUN URLs *)

(** The text before the first [c], and the rest with it. *)
Fixpoint break (c : Z) (s : jsstr) : jsstr * jsstr :=
  match s with
  | [] => ([], [])
  | d :: s' => if d =? c then ([], s) else let '(a, b) := break c s' in (d :: a, b)
  end.
(** [s.split(c)] *)
Fixpoint split_on (c : Z) (s : jsstr) : list jsstr :=
  match s with
  | [] => [[]]
  | d :: s =>
      if d =? c then [] :: split_on c s
      else match split_on c s with [] => [[d]] | t :: ts => (d :: t) :: ts end
  end.

(** [(?::([^:]+))?$] *)
Definition port_group (s : jsstr) : option (option jsstr) :=
  match s with
  | [] => Some None
  | c :: p => if (c =? 58) && negb (bool_decide (p = [])) && negb (bool_decide (58 ∈ p)) then Some (Some p) else None
  end.
(** [/^\[([^\]]+)\](?::([^:]+))?$/] and [/^([^:]+)(?::([^:]+))?$/] *)
Definition bracketed (authority : jsstr) : option (jsstr * option jsstr) :=
  s ← eat 91 authority;
  let '(host, rest) := break 93 s in
  if bool_decide (host = []) then None else
  rest ← eat 93 rest;
  pair host <$> port_group rest.
Definition unbracketed (authority : jsstr) : option (jsstr * option jsstr) :=
  let '(host, rest) := break 58 authority in
  if bool_decide (host = []) then None else pair host <$> port_group rest.

Definition digits_re : re := rplus (RCls digit).
Definition numeric_re : re := rplus (RCls (fun c => digit c || (c =? 46))).
Definition label_re : re :=
  RCat (RCls alnum) (ropt (RCat (rupto 61 (RCls (fun c => alnum c || (c =? 45)))) (RCls alnum))).

Definition bad_port (port : option jsstr) : bool :=
  match port with
  | None => false
  | Some port => negb (matches digits_re port) || nltb (Number port) (of_Z 1) || nltb (of_Z 65535) (Number port)
  end.
Definition ends_with_dot (s : jsstr) : bool := match rev s with c :: _ => c =? 46 | [] => false end.
Definition validStunUrl (value : jsstr) : bool :=
  if (2048 <? zlength value) || negb (bool_decide (take 5 value = js "stun:")) then false else
  let authority := drop 5 value in
  let ipv6 := bracketed authority in
  match (match ipv6 with Some m => Some m | None => unbracketed authority end) with
  | None => false
  | Some (host, port) =>
      if bad_port port then false
      else if bool_decide (is_Some ipv6) then negb (bool_decide (37 ∈ host)) && (isIP host =? 6)
      else if isIP host =? 4 then true
      else
        let dnsHost := if ends_with_dot host then removelast host else host in
        if (zlength dnsHost =? 0) || (253 <? zlength dnsHost) || matches numeric_re dnsHost then false
        else forallb (matches label_re) (split_on 46 dnsHost)
  end.

(** ** The environment *)

Definition environment := string -> option jsstr.
Record IceOptions := { iceServers : list jsstr; icePortRange : option (Z * Z) }.

Definition iceOptions (env : environment) : result IceOptions :=
  let stunUrl := env "BRIDGE_ICE_STUN_URL"%string in
  throw_when (match stunUrl with Some url => negb (validStunUrl url) | None => false end) (Error "invalid_ice_stun_url");;
  let servers := match stunUrl with None => [] | Some url => [url] end in
  match env "BRIDGE_ICE_PORT_MIN"%string, env "BRIDGE_ICE_PORT_MAX"%string with
  | None, None => Ok {| iceServers := servers; icePortRange := None |}
  | Some minimum, Some maximum =>
      min ← numberOption (Some minimum) 1;
      max ← numberOption (Some maximum) 1;
      throw_when ((65535 <? max) || (max <=? min)) (Error "invalid_ice_port_range");;
      Ok {| iceServers := servers; icePortRange := Some (min, max) |}
  | _, _ => Throw (Error "invalid_ice_port_range")
  end.

Definition required (env : environment) (name : string) : result jsstr :=
  match env name with
  | Some (c :: value) => Ok (c :: value)
  | _ => Throw (ErrorText (js "missing_environment:" ++ js name))
  end.
(** [(env.NAME ?? '').split(',').filter(Boolean)] *)
Definition list_option (value : option jsstr) : list jsstr := filter (.≠ []) (split_on 44 (default [] value)).

Example stun_urls :
  map (fun s => validStunUrl (js s)) ["stun:[2001:db8::1]:3478"; "stun:stun.example.org"; "stun:10.0.0.1:3478"; "stun:a.b."; "stun:[::ffff:1.2.3.4]"]%string
    = [true; true; true; true; true] /\
  map (fun s => validStunUrl (js s)) ["stun:"; "turn:a.b"; "stun:10.0.0.256"; "stun:a:0"; "stun:a:65536"; "stun:[fe80::1%eth0]"; "stun:a..b"; "stun:2001:db8::1"; "stun:-a"]%string
    = [false; false; false; false; false; false; false; false; false].
Proof. split; vm_compute; reflexivity. Qed.
Example numbers :
  map (fun s => numberOption (Some (js s)) 7) ["7443"; " 10 "; "0x10"; "1e3"; ""; "0"; "-1"; "1.5"; "1_000"; "9007199254740993"]%string =
    [Ok 7443; Ok 10; Ok 16; Ok 1000; Throw (Error "invalid_numeric_option"); Throw (Error "invalid_numeric_option");
     Throw (Error "invalid_numeric_option"); Throw (Error "invalid_numeric_option"); Throw (Error "invalid_numeric_option"); Throw (Error "invalid_numeric_option")].
Proof. vm_compute. reflexivity. Qed.

(** ** Numbers *)

Lemma numberOption_Ok value fallback n : numberOption value fallback = Ok n -> 0 < n <= MAX_SAFE_INTEGER /\
  (forall text, value = Some text -> to_Z (Number text) = Some n) /\ (value = None -> to_Z (of_Z fallback) = Some n).
Proof.
  unfold numberOption. set (x := match value with None => of_Z fallback | Some v => Number v end). intros H. inv_res. bools.
  unfold is_safe_integer in H0. destruct (to_Z x) as [z|] eqn:Hz; [|done]. simpl in *. subst n. bools.
  assert (Hf : is_finite x = true) by (destruct x; done).
  assert (0 < z) by (eapply (pos_to_Z x); [exact H1 | done | done]).
  split; [lia|]. split; [by intros text -> | by intros ->].
Qed.

(** Decimal text of a positive safe integer is read as that integer. *)
Lemma digit_run_all s : Forall (fun c => digit c = true) s -> digit_run s = (s, []).
Proof. induction 1 as [|c s Hc _ IH]; [done|]. simpl. by rewrite Hc, IH. Qed.
Lemma digit_not_white c : digit c = true -> white_space c = false.
Proof.
  unfold digit, white_space, between. intros H. bools. apply orb_false_iff. split; [lia|].
  apply bool_decide_eq_false. rewrite !not_elem_of_cons. split_and!; try lia. apply not_elem_of_nil.
Qed.
Lemma trim_digits s : Forall (fun c => digit c = true) s -> trim s = s.
Proof.
  intros Hs. assert (Ht : forall s, Forall (fun c => digit c = true) s -> trim_start s = s).
  { intros t Ht. destruct Ht as [|c t Hc _]; [done|]. simpl. by rewrite digit_not_white. }
  unfold trim. rewrite (Ht s) by done. rewrite Ht by (by apply Forall_rev). apply rev_involutive.
Qed.
Lemma decimal_integer n : 0 < n -> decimal false n 0 = of_Z n.
Proof.
  intros Hn. destruct n as [|p|p]; try lia. unfold decimal. change (400 <? 0) with false. cbn iota.
  destruct (Z.ltb_spec (zlength (Z_digits (Zpos p)) + 0) (-400)) as [Hz|_]; [pose proof (zlength_nonneg (Z_digits (Zpos p))); lia|].
  change (0 <=? 0) with true. cbn iota. unfold of_Z. by rewrite Z.mul_1_r.
Qed.
Lemma decimal_digits s n : s <> [] -> Forall (fun c => digit c = true) s -> digits_value s = n -> 0 < n -> decimal_literal false s = of_Z n.
Proof.
  intros Hne Hs Hv Hn. unfold decimal_literal. rewrite decide_False.
  2: { intros ->. by apply Forall_cons in Hs as [H _]. }
  rewrite digit_run_all by done. simpl. rewrite bool_decide_false by done. simpl.
  rewrite app_nil_r, Hv. by apply decimal_integer.
Qed.
Lemma Number_Z_to_js n : 0 < n -> Number (Z_to_js n) = of_Z n.
Proof.
  intros Hn. unfold Z_to_js. destruct (Z.ltb_spec n 0); [lia|]. destruct (Z_digits_spec n) as (Hv & Ha & Hcase); [lia|].
  unfold Number. rewrite trim_digits by done.
  destruct (Z_digits n) as [|c s] eqn:Hd; [destruct Hcase as [[_ ?]|(_ & ? & ? & ? & _)]; done|].
  assert (Hdec : decimal_literal false (c :: s) = of_Z n) by (by apply decimal_digits).
  assert (Hc : 49 <= c <= 57).
  { destruct Hcase as [[? [= -> ->]]|(_ & d & s' & [= -> ->] & ? & _)]; lia. }
  replace (c =? 45) with false by lia. replace (c =? 43) with false by lia. replace (c =? 48) with false by lia.
  by destruct s.
Qed.
Lemma numberOption_text n fallback : 0 < n <= MAX_SAFE_INTEGER -> numberOption (Some (Z_to_js n)) fallback = Ok n.
Proof.
  intros Hn. unfold numberOption. rewrite Number_Z_to_js by lia.
  rewrite is_safe_integer_of_Z by lia.
  assert (Hl : nleb (of_Z n) (of_Z 0) = false).
  { rewrite nleb_false by (apply is_finite_nan_free, of_Z_finite; lia). rewrite nltb_of_Z by lia. lia. }
  rewrite Hl. simpl. by rewrite to_Z_of_Z by lia.
Qed.

(** ** URLs *)

(** Every string of a language is made of the characters of its classes. *)
Fixpoint re_within (P : Z -> Prop) (r : re) : Prop :=
  match r with
  | RNone | REps => True
  | RCls f => forall c, f c = true -> P c
  | RCat r1 r2 | RAlt r1 r2 => re_within P r1 /\ re_within P r2
  | RStar r => re_within P r
  end.
Lemma re_within_spec P r s : re_within P r -> in_re r s -> Forall P s.
Proof.
  intros Hr. induction 1; simpl in *; destruct_and?; try apply Forall_app_2; eauto; by repeat constructor; auto.
Qed.

Definition printable (c : Z) : Prop := 0x21 <= c <= 0x7e.
Lemma within_rep P n r : re_within P r -> re_within P (rrep n r).
Proof. intros H. by induction n. Qed.
Lemma within_upto P n r : re_within P r -> re_within P (rupto n r).
Proof. intros H. by induction n. Qed.
Lemma within_range P n m r : re_within P r -> re_within P (rrange n m r).
Proof. intros H. split; [by apply within_rep | by apply within_upto]. Qed.
Lemma within_cats P rs : Forall (re_within P) rs -> re_within P (rcats rs).
Proof. induction 1 as [|r rs Hr Hrs IH]; [done|]. destruct rs; [done | by split]. Qed.
Lemma within_lit P s : Forall P (js s) -> re_within P (rlit s).
Proof.
  intros H. apply within_cats, Forall_map. eapply Forall_impl; [exact H|]. intros c Hc. simpl. by intros d ->%Z.eqb_eq.
Qed.
Lemma printable_lit s : forallb (between 0x21 0x7e) (js s) = true -> re_within printable (rlit s).
Proof.
  intros H. apply within_lit, Forall_forall. intros c Hc. rewrite forallb_forall in H. apply list_elem_of_In, H in Hc.
  unfold between, printable in *. lia.
Qed.
Lemma chr_printable s c : bool_decide (c ∈ js s) = true -> forallb (between 0x21 0x7e) (js s) = true -> 0x21 <= c <= 0x7e.
Proof.
  intros Hc%bool_decide_eq_true H. rewrite forallb_forall in H. apply list_elem_of_In, H in Hc. unfold between in Hc. lia.
Qed.
(** The classes of the patterns are ranges and letters. *)
Ltac classes :=
  cbn [re_within]; unfold printable, hex_digit, alnum, alpha, upper, lower, digit, between, chr; intros;
  repeat match goal with
  | H : _ || _ = true |- _ => apply orb_true_iff in H as [H|H]
  | H : bool_decide (_ ∈ js _) = true |- _ => apply (chr_printable _ _ H); reflexivity
  end; try lia.

Lemma within_cat P r1 r2 : re_within P r1 -> re_within P r2 -> re_within P (RCat r1 r2).
Proof. done. Qed.
Lemma within_alt P r1 r2 : re_within P r1 -> re_within P r2 -> re_within P (RAlt r1 r2).
Proof. done. Qed.
Lemma within_star P r : re_within P r -> re_within P (RStar r).
Proof. done. Qed.
Lemma within_eps P : re_within P REps.
Proof. done. Qed.
Lemma within_alts P rs : Forall (re_within P) rs -> re_within P (ralts rs).
Proof. induction 1 as [|r rs Hr Hrs IH]; [done|]. destruct rs; [done | by split]. Qed.
Create HintDb urls.
#[local] Hint Resolve within_rep within_upto within_range within_cat within_alt within_star within_eps : urls.
#[local] Hint Extern 0 (re_within printable (rlit _)) => apply printable_lit; reflexivity : urls.
#[local] Hint Extern 1 (re_within printable (RCls _)) => solve [classes] : urls.
#[local] Hint Extern 0 (re_within printable (ralts _)) => apply within_alts; repeat apply Forall_cons_2; try apply Forall_nil_2 : urls.

Lemma within_octet : re_within printable octet_re.
Proof. unfold octet_re. auto with urls.
Qed.
#[local] Hint Resolve within_octet : urls.
Lemma within_ipv4 : re_within printable ipv4_re.
Proof. unfold ipv4_re. auto with urls. Qed.
Lemma within_segment : re_within printable segment_re.
Proof. unfold segment_re. auto with urls. Qed.
#[local] Hint Resolve within_ipv4 within_segment : urls.
Lemma within_heads n : re_within printable (heads n).
Proof. unfold heads. auto with urls. Qed.
Lemma within_tails i j : re_within printable (tails i j).
Proof. unfold tails. auto with urls. Qed.
#[local] Hint Resolve within_heads within_tails : urls.
Lemma within_compressed n : re_within printable (compressed n).
Proof. unfold compressed. auto 8 with urls. Qed.
#[local] Hint Resolve within_compressed : urls.
Lemma within_ipv6 : re_within printable ipv6_re.
Proof. unfold ipv6_re, zone_re, ropt, rplus. auto 12 with urls. Qed.

Lemma isIP_printable s : isIP s <> 0 -> Forall printable s.
Proof.
  unfold isIP. destruct (matches ipv4_re s) eqn:H4; [intros _; apply (re_within_spec _ ipv4_re); [apply within_ipv4 | by apply matches_spec]|].
  destruct (matches ipv6_re s) eqn:H6; [|done]. intros _. apply (re_within_spec _ ipv6_re); [apply within_ipv6 | by apply matches_spec].
Qed.

Lemma break_app c s : forall a b, break c s = (a, b) -> s = a ++ b.
Proof.
  induction s as [|d s IH]; intros a b; simpl; [by intros [= <- <-]|]. destruct (d =? c); [by intros [= <- <-]|].
  destruct (break c s) as [a' b'] eqn:Hb. intros [= <- <-]. simpl. f_equal. by apply IH.
Qed.
Lemma eat_Some c s r : eat c s = Some r -> s = c :: r.
Proof. destruct s as [|d s]; simpl; [done|]. destruct (Z.eqb_spec d c) as [->|]; [|done]. by intros [= ->]. Qed.
Lemma port_group_Some s port : port_group s = Some port -> s = match port with Some p => 58 :: p | None => [] end.
Proof.
  destruct s as [|c p]; simpl; [by intros [= <-]|]. destruct (Z.eqb_spec c 58) as [->|]; [|done].
  destruct (bool_decide _); [done|]. destruct (bool_decide _); [done|]. by intros [= <-].
Qed.
Lemma split_on_Forall (P : Z -> Prop) c s : P c -> Forall (Forall P) (split_on c s) -> Forall P s.
Proof.
  intros Hc. induction s as [|d s IH]; [done|]. simpl. destruct (Z.eqb_spec d c) as [->|].
  - intros [_ H]%Forall_cons. by constructor; [|apply IH].
  - destruct (split_on c s) as [|t ts] eqn:Hs; [intros H; apply Forall_cons in H as [H _]; apply Forall_cons in H as [H _]; constructor; [done | by apply IH]|].
    intros [[Hd Ht]%Forall_cons Hts]%Forall_cons. constructor; [done|]. apply IH. by constructor.
Qed.

Lemma bad_port_printable p : bad_port (Some p) = false -> Forall printable p.
Proof.
  simpl. intros H. bools. apply (re_within_spec _ digits_re); [unfold digits_re, rplus; auto with urls | by apply matches_spec].
Qed.
Lemma labels_printable s : forallb (matches label_re) (split_on 46 s) = true -> Forall printable s.
Proof.
  intros H. apply (split_on_Forall _ 46); [unfold printable; lia|]. apply Forall_forall. intros t Ht.
  rewrite forallb_forall in H. apply list_elem_of_In, H in Ht. apply (re_within_spec _ label_re); [|by apply matches_spec].
  unfold label_re, ropt. auto 8 with urls.
Qed.
Lemma removelast_dot s : ends_with_dot s = true -> s = removelast s ++ [46].
Proof.
  unfold ends_with_dot. destruct (rev s) as [|c t] eqn:Hr; [done|]. intros Hc%Z.eqb_eq. subst c.
  apply (f_equal (@rev Z)) in Hr. rewrite rev_involutive in Hr. subst s. simpl. by rewrite removelast_last.
Qed.

(** What passes for a STUN URL. *)
Lemma valid_url url : validStunUrl url = true -> Forall printable url /\ zlength url <= 2048 /\ take 5 url = js "stun:".
Proof.
  unfold validStunUrl. destruct (_ || _) eqn:Hpre; [done|]. apply orb_false_iff in Hpre as [Hlen Htake%negb_false_iff]. intros H.
  assert (Hauth : Forall printable (drop 5 url)).
  { destruct (bracketed (drop 5 url)) as [[host port]|] eqn:Hbr.
    - destruct (bad_port port) eqn:Hport; [done|]. rewrite bool_decide_true in H by eauto. bools.
      unfold bracketed in Hbr. destruct (eat 91 (drop 5 url)) as [s|] eqn:He; [|done]. apply eat_Some in He as ->. simpl in Hbr.
      destruct (break 93 s) as [h rest] eqn:Hbk. apply break_app in Hbk as ->. destruct (bool_decide (h = [])); [done|].
      destruct (eat 93 rest) as [rest'|] eqn:He; [|done]. apply eat_Some in He as ->. simpl in Hbr.
      destruct (port_group rest') as [p'|] eqn:Hp; [|done]. injection Hbr as -> ->. apply port_group_Some in Hp as ->.
      constructor; [unfold printable; lia|]. apply Forall_app. split; [apply isIP_printable; lia|].
      constructor; [unfold printable; lia|]. destruct port as [p|]; [|constructor].
      constructor; [unfold printable; lia|]. by apply bad_port_printable.
    - destruct (unbracketed (drop 5 url)) as [[host port]|] eqn:Hub; [|done].
      destruct (bad_port port) eqn:Hport; [done|]. rewrite bool_decide_false in H by (by intros [? ?]).
      unfold unbracketed in Hub. destruct (break 58 (drop 5 url)) as [h rest] eqn:Hbk. apply break_app in Hbk as ->.
      destruct (bool_decide (h = [])); [done|]. destruct (port_group rest) as [p'|] eqn:Hp; [|done]. injection Hub as -> ->.
      apply port_group_Some in Hp as ->. apply Forall_app. split.
      + destruct (Z.eqb_spec (isIP host) 4) as [E|_]; [apply isIP_printable; lia|].
        destruct (_ || _ || _); [done|]. destruct (ends_with_dot host) eqn:Hdot; [|by apply labels_printable].
        rewrite (removelast_dot host) by done. apply Forall_app. split; [by apply labels_printable | repeat constructor; done].
      + destruct port as [p|]; [|constructor]. constructor; [unfold printable; lia|]. by apply bad_port_printable. }
  apply bool_decide_eq_true in Htake. split_and!; [|lia|done]. rewrite <- (take_drop 5 url), Htake. apply Forall_app. split; [|done].
  apply Forall_forall. intros c Hc. apply (chr_printable "stun:"); [by apply bool_decide_eq_true | reflexivity].
Qed.

(** The STUN servers of an environment: the one it names, if it names one. *)
Definition configured_servers (env : environment) : list jsstr :=
  match env "BRIDGE_ICE_STUN_URL"%string with None => [] | Some url => [url] end.

(** C25: the ICE settings of a deployment.  Accepted settings hold exactly the
    STUN URL of the environment, if there is one, a [stun:] URL of at most 2048
    printable characters, so no blank or control character reaches the peer
    connection, and the port range the environment gives by both of its bounds,
    read as numbers, in order and within the ports; with no STUN URL or a valid
    one, every such pair of decimal bounds is accepted as it is, and so is the
    absence of both; an invalid STUN URL is refused, and so is half a range
    rather than falling back to random ports. *)
Theorem ice_options (env : environment) :
  (forall o, iceOptions env = Ok o ->
    iceServers o = configured_servers env /\
    (forall url, url ∈ iceServers o -> validStunUrl url = true /\ Forall printable url /\ zlength url <= 2048 /\ take 5 url = js "stun:") /\
    match icePortRange o with
    | None => env "BRIDGE_ICE_PORT_MIN"%string = None /\ env "BRIDGE_ICE_PORT_MAX"%string = None
    | Some (a, b) => 1 <= a < b /\ b <= 65535 /\
        exists low high, env "BRIDGE_ICE_PORT_MIN"%string = Some low /\ env "BRIDGE_ICE_PORT_MAX"%string = Some high /\
          to_Z (Number low) = Some a /\ to_Z (Number high) = Some b
    end) /\
  ((forall url, env "BRIDGE_ICE_STUN_URL"%string = Some url -> validStunUrl url = true) ->
    (forall a b, 1 <= a < b -> b <= 65535 ->
      env "BRIDGE_ICE_PORT_MIN"%string = Some (Z_to_js a) -> env "BRIDGE_ICE_PORT_MAX"%string = Some (Z_to_js b) ->
      iceOptions env = Ok {| iceServers := configured_servers env; icePortRange := Some (a, b) |}) /\
    (env "BRIDGE_ICE_PORT_MIN"%string = None -> env "BRIDGE_ICE_PORT_MAX"%string = None ->
      iceOptions env = Ok {| iceServers := configured_servers env; icePortRange := None |})) /\
  (forall url, env "BRIDGE_ICE_STUN_URL"%string = Some url -> validStunUrl url = false ->
    iceOptions env = Throw (Error "invalid_ice_stun_url")) /\
  (is_Some (env "BRIDGE_ICE_PORT_MIN"%string) <-> ~ is_Some (env "BRIDGE_ICE_PORT_MAX"%string) ->
    exists e, iceOptions env = Throw e).
Proof.
  unfold iceOptions, configured_servers. set (stun := env "BRIDGE_ICE_STUN_URL"%string). split_and!.
  - intros o H. apply result_bind_Ok in H as (u & Hurl & H).
    assert (Hs : forall url, url ∈ match stun with None => [] | Some u => [u] end -> validStunUrl url = true /\
      Forall printable url /\ zlength url <= 2048 /\ take 5 url = js "stun:").
    { intros url Hin. destruct stun as [u'|]; [|by apply elem_of_nil in Hin]. apply list_elem_of_singleton in Hin as ->.
      destruct u. apply throw_when_Ok in Hurl. bools. split; [done|]. by apply valid_url. }
    destruct (env "BRIDGE_ICE_PORT_MIN"%string) as [mi|], (env "BRIDGE_ICE_PORT_MAX"%string) as [ma|]; try done.
    + inv_res. subst o. simpl. split; [done|]. split; [exact Hs|].
      apply numberOption_Ok in Hx as (? & Hlow & _), Hx0 as (? & Hhigh & _). bools.
      split_and!; [lia.. |]. exists mi, ma. auto.
    + injection H as <-. by split_and!.
  - intros Hvalid. assert (Hok : match stun with Some url => negb (validStunUrl url) | None => false end = false)
      by (destruct stun as [url|]; [by rewrite (Hvalid url)|done]).
    rewrite Hok. cbn [throw_when mbind result_bind mret result_ret]. split.
    + intros a b Ha Hb Hmi Hma. rewrite Hmi, Hma.
      rewrite !numberOption_text by (unfold MAX_SAFE_INTEGER; lia). simpl.
      replace (65535 <? b) with false by lia. by replace (b <=? a) with false by lia.
    + by intros -> ->.
  - intros url -> Hv. by rewrite Hv.
  - intros Hxor. destruct (match stun with Some url => negb (validStunUrl url) | None => false end); [by eexists|].
    simpl. destruct (env "BRIDGE_ICE_PORT_MIN"%string) as [mi|], (env "BRIDGE_ICE_PORT_MAX"%string) as [ma|]; eauto.
    + exfalso. apply Hxor; eauto.
    + exfalso. assert (is_Some (@None jsstr)) as [? ?]; [|done]. apply Hxor. by intros [? ?].
Qed.

Definition demo_env (name : string) : option jsstr :=
  if (name =? "BRIDGE_ICE_STUN_URL")%string then Some (js "stun:stun.example.org:3478")
  else if (name =? "BRIDGE_ICE_PORT_MIN")%string then Some (js "50000")
  else if (name =? "BRIDGE_ICE_PORT_MAX")%string then Some (js "50019") else None.
Lemma ice_options_witness :
  iceOptions demo_env = Ok {| iceServers := [js "stun:stun.example.org:3478"]; icePortRange := Some (50000, 50019) |} /\
  Forall printable (js "stun:stun.example.org:3478").
Proof.
  assert (H : iceOptions demo_env = Ok {| iceServers := [js "stun:stun.example.org:3478"]; icePortRange := Some (50000, 50019) |})
    by (vm_compute; reflexivity).
  split; [exact H|]. destruct (proj1 (ice_options demo_env) _ H) as (_ & Hs & _).
  exact (proj1 (proj2 (Hs (js "stun:stun.example.org:3478") ltac:(left)))).
Defined.
End Options.
