(* ===== verification/Launch.v ===== *)
(** * Launching the process

    [app/cli.ts], [launch], and [AppSettings] ([app/types.d.ts]): the
    settings are read from the environment and the files it names and are
    validated before any native code is loaded.  Reading a file, the check of
    the TLS material and the loading of a module are parameters. *)

From S2P Require Import Prelude JsNumber JsString JsMap Regex Values SessionValidation ConfigTypes ConfigValidation ConfigBinding CodecTypes CodecSchema Json Registry Signaling Options.

Module Launch.
Import Options.

Record RouterLimits := { maxHandles : Z; maxRequests : Z; requestTtlMs : Z; maxControlRateHz : Z }.
Record AppSettings := {
  credential : jsstr; configSource : jsstr; maxConfigBytes : Z;
  subscribeTopics : list jsstr; publishScopes : list jsstr; videoScopes : list jsstr;
  timeoutMs : Z; maxSdpBytes : Z; requestTimeoutMs : Z; routerLimits : RouterLimits }.

(** The settings, and what the factories of [startApp] are built from. *)
Record launched := {
  settings : AppSettings; port : Z; host : jsstr; args : list jsstr; spinTimeoutMs : Z; nodeName : jsstr;
  peerOptions : IceOptions; tls : list Z * list Z;
  fixture : option (list Z); worker : option (jsstr * list jsstr) }.
(** The names under which [videoBackends] holds a factory. *)
Definition videoBackends (l : launched) : list jsstr :=
  (if fixture l then [js "fixture"] else []) ++ (if worker l then [js "l4t_v4l2"; js "openh264"] else []).

Inductive effect := Read (path : jsstr) | SecureContext | Loaded (name : string).

Section launch.
Context {D : Type} (parse : jsstr -> option D) (toJS : D -> result jsval).
Context (readFile : jsstr -> result (list Z)) (createSecureContext : list Z -> list Z -> result unit) (loader : string -> result unit).

Definition note (e : effect) : ST (list effect) unit := modify (cons e).
Definition read_file (path : jsstr) : ST (list effect) (list Z) := note (Read path);; lift (readFile path).
Definition load (name : string) : ST (list effect) unit := note (Loaded name);; lift (loader name).

(** [JSON.parse(env.BRIDGE_ROS_ARGS ?? '[]')], an array of strings. *)
Definition ros_args (value : option jsstr) : result (list jsstr) :=
  args ← json_parse (default (js "[]") value);
  match args with
  | VArr slots _ =>
      of_option (Error "invalid_ros_args") (mapM (fun s : slot_kind * jsval => match s with (DataSlot, VStr t) => Some t | _ => None end) slots)
  | _ => Throw (Error "invalid_ros_args")
  end.

Definition option_or (env : environment) (name : string) (fallback : Z) : ST (list effect) Z := lift (numberOption (env name) fallback).

(** Everything before the first native module is loaded. *)
Definition options (env : environment) : ST (list effect) launched :=
  credential ← lift (required env "BRIDGE_CREDENTIAL");
  throw_when (zlength credential <? 32) (Error "invalid_credential");;
  configPath ← lift (required env "BRIDGE_CONFIG");
  keyPath ← lift (required env "BRIDGE_TLS_KEY");
  certPath ← lift (required env "BRIDGE_TLS_CERT");
  config ← read_file configPath;
  key ← read_file keyPath;
  cert ← read_file certPath;
  let configSource := Signaling.utf8_lossy config in
  note SecureContext;;
  lift (createSecureContext key cert);;
  maxConfigBytes ← option_or env "BRIDGE_MAX_CONFIG_BYTES" 1048576;
  lift (Registry.inspectConfig parse toJS configSource maxConfigBytes);;
  port ← option_or env "BRIDGE_PORT" 7443;
  throw_when (65535 <? port) (Error "invalid_port");;
  let host := default (js "127.0.0.1") (env "BRIDGE_HOST"%string) in
  throw_when (bool_decide (host = [])) (Error "invalid_host");;
  let subscribeTopics := list_option (env "BRIDGE_SUBSCRIBE_TOPICS"%string) in
  let publishScopes := list_option (env "BRIDGE_PUBLISH_SCOPES"%string) in
  let videoScopes := list_option (env "BRIDGE_VIDEO_SCOPES"%string) in
  fixture ← (match env "BRIDGE_VIDEO_FIXTURE"%string with
    | Some path => bytes ← read_file path; mret (Some bytes)
    | None => mret None
    end);
  args ← lift (ros_args (env "BRIDGE_ROS_ARGS"%string));
  let worker := (fun script => (default (js "python3") (env "BRIDGE_VIDEO_WORKER_COMMAND"%string), [script])) <$> env "BRIDGE_VIDEO_WORKER"%string in
  peerOptions ← lift (iceOptions env);
  timeoutMs ← option_or env "BRIDGE_NEGOTIATION_TIMEOUT_MS" 30000;
  maxSdpBytes ← option_or env "BRIDGE_MAX_SDP_BYTES" 262144;
  requestTimeoutMs ← option_or env "BRIDGE_REQUEST_TIMEOUT_MS" 10000;
  maxHandles ← option_or env "BRIDGE_MAX_HANDLES" 64;
  maxRequests ← option_or env "BRIDGE_MAX_REQUESTS" 64;
  requestTtlMs ← option_or env "BRIDGE_REQUEST_TTL_MS" 30000;
  maxControlRateHz ← option_or env "BRIDGE_MAX_CONTROL_RATE_HZ" 100;
  spinTimeoutMs ← option_or env "BRIDGE_SPIN_TIMEOUT_MS" 10;
  mret {| settings := {| credential := credential; configSource := configSource; maxConfigBytes := maxConfigBytes;
      subscribeTopics := subscribeTopics; publishScopes := publishScopes; videoScopes := videoScopes;
      timeoutMs := timeoutMs; maxSdpBytes := maxSdpBytes; requestTimeoutMs := requestTimeoutMs;
      routerLimits := {| maxHandles := maxHandles; maxRequests := maxRequests; requestTtlMs := requestTtlMs; maxControlRateHz := maxControlRateHz |} |};
    port := port; host := host; args := args; spinTimeoutMs := spinTimeoutMs;
    nodeName := default (js "ros_webrtc_gateway") (env "BRIDGE_NODE_NAME"%string);
    peerOptions := peerOptions; tls := (key, cert); fixture := fixture; worker := worker |}.

(** Up to the call of [startApp]. *)
Definition launch (env : environment) : ST (list effect) launched :=
  l ← options env;
  load "rclnodejs";;
  load "@ros-webrtc/werift-datachannel";;
  mret l.

(** The checks [startApp] begins with. *)
Definition check_settings (s : AppSettings) : result BridgeConfig :=
  preliminary ← Registry.inspectConfig parse toJS (configSource s) (maxConfigBytes s);
  mapR (fun value => positiveLimit (VNum (of_Z value))) [timeoutMs s; maxSdpBytes s; requestTimeoutMs s;
    maxHandles (routerLimits s); maxRequests (routerLimits s); requestTtlMs (routerLimits s); maxControlRateHz (routerLimits s)];;
  throw_when (zlength (credential s) <? 32) (Error "invalid_credential");;
  Ok preliminary.

(** ** What a launch guarantees *)

Definition native (e : effect) : bool := match e with Loaded _ => true | _ => false end.
Definition keeps_log (l : list effect) (log : list effect) : Prop := exists new, log = new ++ l /\ existsb native new = false.

Record settings_ok (l : launched) : Prop := {
  so_config : exists c, Registry.inspectConfig parse toJS (configSource (settings l)) (maxConfigBytes (settings l)) = Ok c;
  so_credential : 32 <= zlength (credential (settings l));
  so_limits : Forall (fun n => 0 < n <= MAX_SAFE_INTEGER) [timeoutMs (settings l); maxSdpBytes (settings l); requestTimeoutMs (settings l);
    maxHandles (routerLimits (settings l)); maxRequests (routerLimits (settings l)); requestTtlMs (routerLimits (settings l));
    maxControlRateHz (routerLimits (settings l)); spinTimeoutMs l; maxConfigBytes (settings l)];
  so_port : 1 <= port l <= 65535;
  so_host : host l <> [];
  so_lists : Forall (.≠ []) (subscribeTopics (settings l) ++ publishScopes (settings l) ++ videoScopes (settings l));
  so_tls : createSecureContext (tls l).1 (tls l).2 = Ok tt }.

Lemma option_or_Ok env name fallback s n s' : option_or env name fallback s = (Ok n, s') -> s' = s /\ 0 < n <= MAX_SAFE_INTEGER.
Proof. unfold option_or. intros [H ->]%lift_Ok. split; [done | by apply numberOption_Ok in H as [? _]]. Qed.

Lemma list_option_nonempty v : Forall (.≠ []) (list_option v).
Proof. unfold list_option. apply Forall_forall. intros s Hs. by apply list_elem_of_filter in Hs as [? _]. Qed.

(** [options] adds no native effect to the log, whatever it returns. *)
Definition quiet {A} (m : ST (list effect) A) : Prop := forall s, keeps_log s (m s).2.
Lemma quiet_ret {A} (a : A) : quiet (mret a).
Proof. intros s. by exists []. Qed.
Lemma quiet_lift {A} (r : result A) : quiet (lift r).
Proof. intros s. by exists []. Qed.
Lemma quiet_throw_when b e : quiet (throw_when b e).
Proof. intros s. exists []. by destruct b. Qed.
Lemma quiet_note e : native e = false -> quiet (note e).
Proof. intros He s. exists [e]. simpl. by rewrite He. Qed.
Lemma quiet_bind {A B} (m : ST (list effect) A) (f : A -> ST (list effect) B) : quiet m -> (forall a, quiet (f a)) -> quiet (m ≫= f).
Proof.
  intros Hm Hf s. rewrite ST_bind_eq. destruct (Hm s) as (n1 & H1 & H2). destruct (m s) as [[a|e] s1]; [|by exists n1].
  destruct (Hf a s1) as (n2 & H3 & H4). simpl in *. subst s1. exists (n2 ++ n1). rewrite H3, <- app_assoc. split; [done|].
  by rewrite existsb_app, H4, H2.
Qed.
Lemma quiet_read path : quiet (read_file path).
Proof. apply quiet_bind; [by apply quiet_note | intros; apply quiet_lift]. Qed.
Lemma quiet_options env : quiet (options env).
Proof.
  unfold options. repeat (apply quiet_bind; [first [apply quiet_lift | apply quiet_throw_when | apply quiet_read | by apply quiet_note |
    destruct (env "BRIDGE_VIDEO_FIXTURE"%string); [apply quiet_bind; [apply quiet_read | intros; apply quiet_ret] | apply quiet_ret]] | intros]).
  apply quiet_ret.
Qed.

Lemma throw_when_same {S} b e (s : S) u s' : throw_when (M := ST S) b e s = (Ok u, s') -> b = false /\ s' = s.
Proof. destruct b; [done|]. by intros [= _ <-]. Qed.

Lemma options_Ok env log l log' : options env log = (Ok l, log') -> settings_ok l.
Proof.
  unfold options. intros H. inv_st.
  repeat match goal with
  | H : option_or _ _ _ _ = (Ok _, _) |- _ => apply option_or_Ok in H as [? ?]; subst
  | H : throw_when _ _ _ = (Ok _, _) |- _ => apply throw_when_same in H as [? ?]; subst
  end.
  bools. split; simpl; eauto; try lia.
  - repeat constructor; lia.
  - rewrite !Forall_app. split_and!; apply list_option_nonempty.
  - by match goal with H : createSecureContext _ _ = Ok ?u |- _ => destruct u end.
Qed.

(** C21: nothing native is touched before the settings are valid.  In a launch,
    whatever it ends with, the native modules are only loaded once the options
    have been read without an error: a credential of at least 32 characters,
    TLS material that passed, a configuration that was accepted, limits that
    are positive safe integers, a port in range, a host, and lists without
    empty entries.  So the checks [startApp] repeats on the settings cannot
    fail, and a launch that returns has done all of this. *)
Theorem validated_before_native env :
  let '(o, log) := launch env [] in
  (existsb native log = true -> exists l log0, options env [] = (Ok l, log0) /\ settings_ok l) /\
  (forall l, o = Ok l -> settings_ok l /\ exists config, check_settings (settings l) = Ok config).
Proof.
  unfold launch. rewrite ST_bind_eq. destruct (quiet_options env []) as (new & Hlog & Hnew).
  destruct (options env []) as [[l|e] log0] eqn:Ho; simpl in Hlog; subst log0.
  2: { split; [|done]. rewrite app_nil_r. congruence. }
  pose proof (options_Ok _ _ _ _ Ho) as Hl. rewrite ST_bind_eq.
  assert (Hall : forall o log, (existsb native log = true -> exists l0 log0, (Ok l, new ++ []) = (Ok l0, log0) /\ settings_ok l0) /\
    (forall l0, o = Ok l0 -> l0 = l) -> (existsb native log = true -> exists l0 log0, (Ok l, new ++ []) = (Ok l0, log0) /\ settings_ok l0) /\
    (forall l0, o = Ok l0 -> settings_ok l0 /\ exists config, check_settings (settings l0) = Ok config)).
  { intros o log [H1 H2]. split; [done|]. intros l0 ->%H2. split; [done|]. destruct Hl as [[c Hc] Hcred Hlim _ _ _ _].
    exists c. unfold check_settings. rewrite Hc. cbn [mbind result_bind]. apply result_bind_Ok.
    repeat (apply Forall_cons in Hlim as [?%positiveLimit_of_Z Hlim]). eexists. split.
    - cbn [mapR mbind result_bind]. rewrite H, H0, H3, H4, H5, H6, H7. reflexivity.
    - replace (zlength (credential (settings l)) <? 32) with false by lia. done. }
  assert (Hyes : forall log : list effect, existsb native log = true -> exists l0 log0, (Ok l, new ++ []) = (Ok l0, log0) /\ settings_ok l0)
    by (intros; by exists l, (new ++ [])).
  destruct (load "rclnodejs" (new ++ [])) as [[[]|e1] log1]; [|apply Hall; split; [by apply Hyes | done]].
  rewrite ST_bind_eq. destruct (load _ log1) as [[[]|e2] log2]; [|apply Hall; split; [by apply Hyes | done]]. apply Hall. split; [by apply Hyes | by intros l0 [= <-]].
Qed.
End launch.

(** ** A concrete environment *)

Definition demo_env (name : string) : option jsstr :=
  if (name =? "BRIDGE_CREDENTIAL")%string then Some (repeat 97 32)
  else if (name =? "BRIDGE_CONFIG")%string then Some (js "bridge.yaml")
  else if (name =? "BRIDGE_TLS_KEY")%string then Some (js "key.pem")
  else if (name =? "BRIDGE_TLS_CERT")%string then Some (js "cert.pem")
  else if (name =? "BRIDGE_SUBSCRIBE_TOPICS")%string then Some (js "/odom,,/lamp") else None.
Definition demo_launch : result launched * list effect :=
  launch (fun _ => Some tt) Registry.demo_toJS (fun _ => Ok []) (fun _ _ => Ok tt) (fun _ => Ok tt) demo_env [].

Lemma validated_before_native_witness :
  existsb native demo_launch.2 = true /\
  exists l, demo_launch.1 = Ok l /\ subscribeTopics (settings l) = [js "/odom"; js "/lamp"] /\ port l = 7443 /\
    exists config, check_settings (fun _ => Some tt) Registry.demo_toJS (settings l) = Ok config.
Proof.
  pose proof (validated_before_native (fun _ => Some tt) Registry.demo_toJS (fun _ => Ok []) (fun _ _ => Ok tt) (fun _ => Ok tt) demo_env) as H.
  split; [vm_compute; reflexivity|].
  destruct demo_launch as [[l|e] log] eqn:Hl; [|vm_compute in Hl; discriminate]. unfold demo_launch in Hl. rewrite Hl in H.
  exists l. split; [reflexivity|]. destruct (proj2 H l eq_refl) as [_ Hc]. split; [|split; [|exact Hc]].
  - vm_compute in Hl. injection Hl as <- _. reflexivity.
  - vm_compute in Hl. injection Hl as <- _. reflexivity.
Defined.
End Launch.
