(* ===== verification/WorkerPort.v ===== *)
(** * Worker processes

    [app/cli.ts], [workerPort]: one child process as the media plane sees it.
    The operating system is the source of the events: the process fails to
    start or exits, its input breaks, the kill timer fires. *)

From S2P Require Import Prelude JsString JsMap.

Module WorkerPort.

(** What waits for the departure: a callback of the media plane, or the
    promise of a [stop]. *)
Inductive listener := Callback (id : nat) | Ended (stop : nat).
Inductive signal := SIGTERM | SIGKILL.
Inductive effect :=
| Written (line : jsstr)
| InputEnded (line : jsstr)
| Killed (s : signal)
| Called (id : nat) (** an exit callback runs *)
| Resolved (stop : nat) (** the promise of a [stop] settles *).

Record process := {
  gone : bool;
  listeners : list listener;
  timers : list nat (** the stops whose kill timer is armed *);
  log : list effect (** newest first *) }.
Definition set_gone v (s : process) := {| gone := v; listeners := listeners s; timers := timers s; log := log s |}.
Definition set_listeners v (s : process) := {| gone := gone s; listeners := v; timers := timers s; log := log s |}.
Definition set_timers v (s : process) := {| gone := gone s; listeners := listeners s; timers := v; log := log s |}.
Definition set_log v (s : process) := {| gone := gone s; listeners := listeners s; timers := timers s; log := v |}.
Definition note (e : effect) (s : process) : process := set_log (e :: log s) s.

(** [spawn(binding, streaming)]: the arguments and the fourth descriptor. *)
Definition spawn_args (args : list jsstr) (track : jsstr) : list jsstr := args ++ [js "--track"; track].
Definition spawned : process := {| gone := false; listeners := []; timers := []; log := [] |}.

(** A listener that is called; a [stop] then leaves its [finally]. *)
Definition call (s : process) (l : listener) : process :=
  match l with
  | Callback id => note (Called id) s
  | Ended stop => note (Resolved stop) (set_timers (filter (.≠ stop) (timers s)) s)
  end.
Definition depart (s : process) : process :=
  let s' := set_listeners [] (set_gone true s) in
  fold_left call (listeners s) s'.

Definition send (line : jsstr) (s : process) : process := note (Written line) s.
Definition onExit (id : nat) (s : process) : process :=
  if gone s then note (Called id) s else set_listeners (listeners s ++ [Callback id]) s.
Definition stop (id : nat) (shutdown : jsstr) (s : process) : process :=
  if gone s then note (Resolved id) s else
  set_timers (timers s ++ [id]) (note (InputEnded shutdown) (set_listeners (listeners s ++ [Ended id]) s)).
(** The kill timer of a stop: [forced] resolves, and the stop goes on waiting. *)
Definition expire (id : nat) (s : process) : process :=
  if bool_decide (id ∈ timers s) then note (Killed SIGKILL) (set_timers (filter (.≠ id) (timers s)) s) else s.
Definition input_error (s : process) : process := note (Killed SIGTERM) s.

Inductive event :=
| Error | Exit (** both are [depart] *)
| InputError
| Send (line : jsstr) | OnExit (id : nat) | Stop (id : nat) (shutdown : jsstr)
| Expire (id : nat).
Definition step (e : event) (s : process) : process :=
  match e with
  | Error | Exit => depart s
  | InputError => input_error s
  | Send line => send line s
  | OnExit id => onExit id s
  | Stop id line => stop id line s
  | Expire id => expire id s
  end.
Definition run (events : list event) (s : process) : process := fold_left (fun s e => step e s) events s.

(** ** What the media plane can rely on *)

Definition answers (e : effect) : option listener :=
  match e with Called id => Some (Callback id) | Resolved id => Some (Ended id) | _ => None end.
(** The registrations, in order, and what has been called back. *)
Definition registered (events : list event) : list listener :=
  omap (fun e => match e with OnExit id => Some (Callback id) | Stop id _ => Some (Ended id) | _ => None end) events.
Definition answered (s : process) : list listener := rev (omap answers (log s)).

Record inv (regs : list listener) (s : process) : Prop := {
  i_all : answered s ++ listeners s = regs;
  i_gone : gone s = true -> listeners s = [] /\ timers s = [];
  i_live : gone s = false -> answered s = [];
  i_timers : forall id, id ∈ timers s -> Ended id ∈ listeners s;
  i_kill : forall id, Ended id ∈ listeners s -> id ∈ timers s \/ Killed SIGKILL ∈ log s }.

Lemma answered_note e s : answered (note e s) = answered s ++ match answers e with Some l => [l] | None => [] end.
Proof. unfold answered, note. simpl. destruct (answers e); simpl; [done | by rewrite app_nil_r]. Qed.

Lemma call_all ls : forall s, let s' := fold_left call ls s in
  answered s' = answered s ++ ls /\ listeners s' = listeners s /\ gone s' = gone s /\
  (forall id, id ∈ timers s' <-> id ∈ timers s /\ Ended id ∉ ls).
Proof.
  induction ls as [|l ls IH]; intros s; simpl.
  - rewrite app_nil_r. split_and!; [done..|]. intros id. split; [intros; split; [done | apply not_elem_of_nil] | tauto].
  - destruct (IH (call s l)) as (H1 & H2 & H3 & H4). rewrite H1, H2, H3. destruct l as [id|id]; simpl.
    + rewrite answered_note. simpl. rewrite <- app_assoc. split_and!; [done..|]. intros i. rewrite H4. simpl.
      rewrite not_elem_of_cons. naive_solver.
    + rewrite answered_note. simpl. rewrite <- app_assoc. split_and!; [done..|]. intros i. rewrite H4. simpl.
      rewrite list_elem_of_filter, not_elem_of_cons. naive_solver.
Qed.

Lemma process_inv_step regs e s : inv regs s ->
  inv (regs ++ match e with OnExit id => [Callback id] | Stop id _ => [Ended id] | _ => [] end) (step e s).
Proof.
  intros [Ha Hg Hl Ht Hk].
  assert (Hkill : forall x log, Killed SIGKILL ∈ log -> Killed SIGKILL ∈ x :: log) by (intros; by right).
  assert (Hdep : inv (regs ++ []) (depart s)).
  { unfold depart. destruct (call_all (listeners s) (set_listeners [] (set_gone true s))) as (H1 & H2 & H3 & H4). simpl in *.
    assert (Hnt : timers (fold_left call (listeners s) (set_listeners [] (set_gone true s))) = []).
    { apply elem_of_nil_inv. intros i [Hi Hn]%H4. by apply Ht in Hi. }
    split; rewrite ?H1, ?H2, ?H3, ?Hnt; try done.
    - rewrite !app_nil_r. exact Ha.
    - by intros id ?%elem_of_nil.
    - by intros id ?%elem_of_nil. }
  destruct e as [| | |line|id|id line|id]; simpl; try exact Hdep.
  - rewrite app_nil_r. split; rewrite ?answered_note, ?app_nil_r; simpl; try done. intros id Hid. destruct (Hk id Hid); eauto.
  - rewrite app_nil_r. split; rewrite ?answered_note, ?app_nil_r; simpl; try done. intros id Hid. destruct (Hk id Hid); eauto.
  - unfold onExit. destruct (gone s) eqn:Hgone.
    + destruct (Hg eq_refl) as [Hn Hn']. split; rewrite ?answered_note; simpl; rewrite ?Hn, ?Hn', ?Hgone; try done.
      * rewrite Hn, app_nil_r in Ha. by rewrite app_nil_r, Ha.
      * by intros id' ?%elem_of_nil.
      * by intros id' ?%elem_of_nil.
    + split; simpl; rewrite ?Hgone; try done.
      * change (answered s ++ listeners s ++ [Callback id] = regs ++ [Callback id]). by rewrite app_assoc, Ha.
      * intros i Hi. apply elem_of_app. left. by apply Ht.
      * intros i [Hi|Hi%list_elem_of_singleton]%elem_of_app; [by apply Hk | done].
  - unfold stop. destruct (gone s) eqn:Hgone.
    + destruct (Hg eq_refl) as [Hn Hn']. split; rewrite ?answered_note; simpl; rewrite ?Hn, ?Hn', ?Hgone; try done.
      * rewrite Hn, app_nil_r in Ha. by rewrite app_nil_r, Ha.
      * by intros id' ?%elem_of_nil.
      * by intros id' ?%elem_of_nil.
    + split; simpl; rewrite ?Hgone; try done.
      * change (answered s ++ listeners s ++ [Ended id] = regs ++ [Ended id]). by rewrite app_assoc, Ha.
      * intros i [Hi|Hi%list_elem_of_singleton]%elem_of_app; apply elem_of_app; [left; by apply Ht | right; subst; left].
      * intros i [Hi|Hi%list_elem_of_singleton]%elem_of_app; [|injection Hi as ->; left; apply elem_of_app; right; left].
        destruct (Hk i Hi); [left; apply elem_of_app; by left | right; by right].
  - rewrite app_nil_r. unfold expire. destruct (bool_decide (id ∈ timers s)) eqn:Hid; [|by split].
    split; rewrite ?answered_note, ?app_nil_r; simpl; try done.
    + intros H. destruct (Hg H) as [-> ->]. by split.
    + intros i [_ Hi]%list_elem_of_filter. by apply Ht.
    + intros i _. right. left.
Qed.

Lemma process_inv_run events : forall regs s, inv regs s -> inv (regs ++ registered events) (run events s).
Proof.
  induction events as [|e events IH]; intros regs s Hs; [by rewrite app_nil_r|].
  change (run (e :: events) s) with (run events (step e s)). apply (process_inv_step _ e), IH in Hs.
  unfold registered in *. by destruct e; cbn in *; rewrite <- ?app_assoc in Hs.
Qed.

(** C26: a worker that is gone is reported exactly once to everyone who waits
    for it, whichever of its two events comes first and however often they
    come.  While the process lives no exit callback runs and no stop settles,
    and a stop that waits has its kill timer armed or has killed the process
    already; from the departure on every callback and every stop, also those
    that come later, has been answered once, in the order they came, and no
    timer is left. *)
Theorem departure_reported_once events :
  let s := run events spawned in
  (gone s = true <-> Exists (fun e => e = Error \/ e = Exit) events) /\
  (gone s = false -> answered s = [] /\ listeners s = registered events /\
    forall id, Ended id ∈ registered events -> id ∈ timers s \/ Killed SIGKILL ∈ log s) /\
  (gone s = true -> answered s = registered events /\ listeners s = [] /\ timers s = []).
Proof.
  intros s. assert (Hi : inv (registered events) s).
  { apply (process_inv_run events []). split; try done; by intros id ?%elem_of_nil. }
  destruct Hi as [Ha Hg Hl Ht Hk]. split_and!.
  - unfold s. assert (Hrun : forall es s0, gone (run es s0) = true <-> gone s0 = true \/ Exists (fun e => e = Error \/ e = Exit) es).
    { clear. induction es as [|e es IH]; intros s0; [rewrite Exists_nil; simpl; tauto|].
      change (run (e :: es) s0) with (run es (step e s0)). rewrite IH, Exists_cons.
      assert (Hd : gone (depart s0) = true) by (unfold depart; by destruct (call_all (listeners s0) (set_listeners [] (set_gone true s0))) as (_ & _ & -> & _)).
      destruct e; simpl; unfold onExit, stop, expire; repeat case_match; simpl; naive_solver. }
    rewrite Hrun. simpl. naive_solver.
  - intros H. rewrite (Hl H) in Ha |- *. simpl in Ha. split_and!; [done..|]. intros id Hid. apply Hk. by rewrite Ha.
  - intros H. destruct (Hg H) as [Hn Hn']. rewrite Hn, app_nil_r in Ha. done.
Qed.

Lemma departure_reported_once_witness :
  let s := run [OnExit 1; Stop 2 (js "{}"); Expire 2; Error; Exit; OnExit 3] spawned in
  answered s = [Callback 1; Ended 2; Callback 3] /\ timers s = [] /\ Killed SIGKILL ∈ log s.
Proof.
  set (events := [OnExit 1; Stop 2 (js "{}"); Expire 2; Error; Exit; OnExit 3]).
  destruct (departure_reported_once events) as (_ & _ & H).
  destruct H as (H1 & _ & H2); [vm_compute; reflexivity|]. split; [exact H1|]. split; [exact H2|].
  vm_compute. repeat first [apply list_elem_of_here | apply list_elem_of_further].
Defined.
End WorkerPort.
