(* ===== verification/Cli.v ===== *)
(** * The process

    [app/cli.ts], [main], [listenHttps] and [videoSlot]: the heartbeat and the
    signal handlers around a launched application, the HTTPS server's life, and
    the slot a peer's video section is given.  The launcher's outcome, signals,
    and what the server and the peer connection report are events. *)

From S2P Require Import Prelude Sdp.

Module Cli.

(** ** [main] *)

Inductive signal := SIGINT | SIGTERM.
#[export] Instance signal_eq : EqDecision signal.
Proof. solve_decision. Defined.
Record process := {
  heartbeat : bool (** the interval is set *);
  handlers : list signal (** the signals [stop] is attached to, each once *);
  closes : nat (** calls of [app.close] *);
  log : list string;
  launched : option (result unit) (** how [main] ended *) }.

(** Until the launcher settles. *)
Definition main : process :=
  {| heartbeat := true; handlers := []; closes := 0; log := ["Starting ROS WebRTC bridge"%string]; launched := None |}.
Definition launcher_settled (r : result unit) (p : process) : process :=
  match r with
  | Ok _ => {| heartbeat := heartbeat p; handlers := [SIGINT; SIGTERM]; closes := closes p;
      log := log p ++ ["ROS WebRTC bridge HTTPS ready"%string]; launched := Some r |}
  | Throw _ => {| heartbeat := false; handlers := handlers p; closes := closes p; log := log p; launched := Some r |}
  end.
(** [stop], which [main] also returns. *)
Definition stop (p : process) : process :=
  {| heartbeat := false; handlers := []; closes := S (closes p); log := log p; launched := launched p |}.
Definition tick (p : process) : process :=
  {| heartbeat := heartbeat p; handlers := handlers p; closes := closes p;
     log := log p ++ ["ROS WebRTC bridge process active"%string]; launched := launched p |}.

Inductive event := Settled (r : result unit) | Signalled (s : signal) | Stopped | Ticked.
Inductive step : process -> event -> process -> Prop :=
| settled p r : launched p = None -> step p (Settled r) (launcher_settled r p)
| signalled p s : s ∈ handlers p -> step p (Signalled s) (stop p)
(** Without a handler of its own the signal ends the process, which is not a step. *)
| stopped p : launched p = Some (Ok tt) -> step p Stopped (stop p)
| ticked p : heartbeat p = true -> step p Ticked (tick p).
Inductive run : process -> list event -> process -> Prop :=
| run_nil p : run p [] p
| run_snoc p es q e r : run p es q -> step q e r -> run p (es ++ [e]) r.

(** ** [listenHttps] *)

Record https := {
  rejecting : bool (** [error] is attached to the promise of the start *);
  ready : option (result unit) (** that promise *);
  connections : nat; accepting : bool;
  finished : option (result unit) (** the promise of [close] *) }.
Definition listenHttps : https :=
  {| rejecting := true; ready := None; connections := 0; accepting := false; finished := None |}.
Definition settle (r : result unit) (o : option (result unit)) : option (result unit) :=
  match o with None => Some r | Some _ => o end.
(** [error] before the server listens; [None] where nothing handles it. *)
Definition errored (e : js_error) (h : https) : option https :=
  if rejecting h
  then Some {| rejecting := false; ready := settle (Throw e) (ready h); connections := connections h; accepting := accepting h; finished := finished h |}
  else None.
Definition listening (h : https) : https :=
  {| rejecting := false; ready := settle (Ok tt) (ready h); connections := connections h; accepting := true; finished := finished h |}.
Definition connected (h : https) : https :=
  {| rejecting := rejecting h; ready := ready h; connections := (if accepting h then S (connections h) else connections h); accepting := accepting h; finished := finished h |}.
(** [server.close(..)] stops accepting, and [closeAllConnections()] ends every
    connection. *)
Definition close (h : https) : https :=
  {| rejecting := rejecting h; ready := ready h; connections := 0; accepting := false; finished := finished h |}.
Definition closed (error : option js_error) (h : https) : https :=
  {| rejecting := rejecting h; ready := ready h; connections := connections h; accepting := accepting h;
     finished := settle (match error with Some e => Throw e | None => Ok tt end) (finished h) |}.

(** ** [videoSlot] *)

(** What the slot asks of the track and its transceiver. *)
Inductive slot_call := AddTransceiver (direction : string) | WriteRtp (packet : list Z) | SubscribePictureLoss | StopTrack.
Record video_slot := {
  transceiver_mid : option jsstr (** [transceiver.mid], [null] until negotiated *);
  profileLevelId_ : jsstr; callbacks : nat (** subscribed to picture loss *); calls : list slot_call }.
Definition call (c : slot_call) (s : video_slot) : video_slot :=
  {| transceiver_mid := transceiver_mid s; profileLevelId_ := profileLevelId_ s; callbacks := callbacks s; calls := calls s ++ [c] |}.
Definition videoSlot (offered : OfferedVideo) : video_slot :=
  {| transceiver_mid := None; profileLevelId_ := profileLevelId offered; callbacks := 0;
     calls := [AddTransceiver "sendonly"] |}.
(** [get mid()]: read when answering. *)
Definition mid (s : video_slot) : jsstr := default [] (transceiver_mid s).
Definition write (packet : list Z) (s : video_slot) : video_slot := call (WriteRtp packet) s.
Definition onKeyframeRequest (s : video_slot) : video_slot :=
  call SubscribePictureLoss {| transceiver_mid := transceiver_mid s; profileLevelId_ := profileLevelId_ s; callbacks := S (callbacks s); calls := calls s |}.
Definition stop_track (s : video_slot) : video_slot := call StopTrack s.
(** The peer connection assigns the section. *)
Definition negotiated (m : jsstr) (s : video_slot) : video_slot :=
  {| transceiver_mid := Some m; profileLevelId_ := profileLevelId_ s; callbacks := callbacks s; calls := calls s |}.

(** ** Properties *)

(** What is left running, whatever happened: before the launch the heartbeat
    only; then the handlers with the heartbeat; after a failure or [stop]
    neither. *)
Definition tidy (p : process) : Prop :=
  match launched p with
  | None => heartbeat p = true /\ handlers p = [] /\ closes p = 0%nat
  | Some (Ok _) => (heartbeat p = true /\ handlers p = [SIGINT; SIGTERM] /\ closes p = 0%nat) \/
      (heartbeat p = false /\ handlers p = [] /\ (1 <= closes p)%nat)
  | Some (Throw _) => heartbeat p = false /\ handlers p = [] /\ closes p = 0%nat
  end.
Lemma tidy_step p e q : tidy p -> step p e q -> tidy q.
Proof.
  unfold tidy. intros Hp Hs. destruct Hs as [p r Hl|p s Hin|p Hl|p Hb]; simpl in *.
  - rewrite Hl in Hp. destruct Hp as (?&?&?). destruct r; simpl; [left|]; split_and!; done.
  - destruct (launched p) as [[]|]; [right; split_and!; [done..|lia]| |];
      destruct Hp as (_ & Hh & _); rewrite Hh in Hin; by apply elem_of_nil in Hin.
  - rewrite Hl in *. right. split_and!; [done..|lia].
  - destruct (launched p) as [[]|]; naive_solver.
Qed.
Lemma tidy_run es p : run main es p -> tidy p.
Proof. intros Hr. remember main as m. induction Hr; subst; [done|]. eapply tidy_step; eauto. Qed.

(** A process whose launch failed, or that was stopped, keeps neither the
    interval nor the handlers, and the signals alone close the application at
    most once. *)
Theorem process_releases es p :
  run main es p ->
  (forall e, launched p = Some (Throw e) -> heartbeat p = false /\ handlers p = [] /\ closes p = 0%nat) /\
  ((0 < closes p)%nat -> heartbeat p = false /\ handlers p = []) /\
  (Forall (fun e => e <> Stopped) es -> (closes p <= 1)%nat).
Proof.
  intros Hr. split_and!.
  - intros e He. pose proof (tidy_run _ _ Hr) as Ht. unfold tidy in Ht. by rewrite He in Ht.
  - intros Hc. pose proof (tidy_run _ _ Hr) as Ht. unfold tidy in Ht. destruct (launched p) as [[]|]; naive_solver lia.
  - remember main as m. induction Hr as [p|m es p e q Hr IH Hs]; subst; [simpl; lia|].
    intros [Hes He]%Forall_app. specialize (IH eq_refl Hes). pose proof (tidy_run _ _ Hr) as Ht.
    apply Forall_cons in He as [He _]. destruct Hs as [p [] Hl|p s Hin|p Hl|p Hb]; simpl; try done.
    unfold tidy in Ht. destruct (launched p) as [[]|]; [destruct Ht as [(_ & _ & ->)|(_ & Hh & _)]; [done|]| |];
      try (destruct Ht as (_ & Hh & _)); rewrite Hh in Hin; by apply elem_of_nil in Hin.
Qed.

(** The start of a server settles once: what the server reports later changes
    neither promise, and after [close] no connection is left. *)
Theorem listen_settles h r e :
  ready h = Some r -> ready (listening h) = Some r /\ ready (connected h) = Some r /\ ready (close h) = Some r /\
  (forall h', errored e h = Some h' -> ready h' = Some r) /\ connections (connected (close h)) = 0%nat.
Proof.
  intros Hr. unfold errored, listening. split_and!; simpl; rewrite ?Hr; try done.
  intros h' Hh. destruct (rejecting h); [|done]. by injection Hh as <-.
Qed.
End Cli.
