(* ===== verification/Runtime.v ===== *)
(** * The application

    [app/runtime.ts], [startApp]: the components of one process, assembled from
    the settings, served, and taken down.  ROS, the encoders, the listening
    socket and the peers are outside; what they answer arrives as events, in
    any order.  The adapter, the command guard and the signaling handler are
    the ones of their own files. *)

From S2P Require Import Prelude JsNumber JsString JsMap Values SessionValidation Sdp CommandGuard CommandGuardProps CommandGuardRuns ConfigTypes ConfigValidation ConfigBinding ConfigVideo Codec Descriptor Endpoint MediaService Router Adapter AdapterProps Registry Signaling Launch.

Module Runtime.
Import Launch.

(** Where [startApp] is suspended, or how it ended. *)
Inductive stage :=
| Initializing (** [await factories.initialize()] *)
| Probing (** [await media.probe()] *)
| Listening (** [await factories.listen(handler)] *)
| Serving (** it has returned *)
| Aborting (e : js_error) (** [await close()] in the [catch] *)
| Rejected (e : js_error).

(** Where [closing] is suspended: on the peers' promises, with whether one of
    them was rejected, on [media?.close()], or on [server?.close()]. *)
Inductive closing_state :=
| NotClosing
| Revoking (pending : list nat) (rejected : bool)
| ClosingMedia (rejected : bool)
| ClosingServer (rejected : bool)
| Closed
| CloseFailed (e : js_error).

Inductive effect :=
| ProbeCalled
| ListenCalled
| PeerMade (id request : nat) (** [factories.makePeer()], for a request *)
| PeerClosing (id : nat)
| GuardClosed
| MediaClosing
| AdapterClosing (** [adapter.close()] *)
| BackendClosing (** [backend.close()] *)
| ServerClosing
| Reported (** [factories.onError()] *)
| Commanded (handle : jsstr) (seq : Z) (** a ticket of the guard was redeemed *).

Section app.
(** The YAML library, SHA-256, and the native types and names. *)
Context {D : Type} (parse : jsstr -> option D) (toJS : D -> result jsval).
Context (sha256 : jsstr -> jsstr) (digest : jsstr -> list Z) (yaml_stringify : jsval -> jsstr).
Context (describe : jsstr -> result (list Descriptor.RosField)) (resolveTopic : jsstr -> result jsval).
(** [factories.makeVideoSlot] for a peer, and the slots' [stop]. *)
Context (makeVideoSlot : nat -> OfferedVideo -> result Endpoint.VideoSlot) (stopSlot : Endpoint.VideoSlot -> result unit).
(** The backend, and the sessions' callbacks. *)
Context {B : Type} {backend_ops : Adapter.RosBackend B} {L : Type} `{EqDecision L}.
Context (callback : L -> jsval -> ST (Adapter.adapter B L) unit).
Context (uuid : jsstr) (settings : AppSettings).

Record app := {
  at_stage : stage;
  preliminary : BridgeConfig;
  plan : option (BridgeConfig * list Router.RouterBinding) (** [config] and [registry] *);
  backend : option B;
  guard : option Guard.guard;
  media : option VideoConfig;
  adapter : option (Adapter.adapter B L);
  http : option Signaling.handler;
  server : bool;
  peers : list nat;
  made : nat (** the peers created so far *);
  stopped : bool;
  closing : closing_state;
  log : list effect (** newest first *) }.

Definition set_at_stage v (s : app) : app := {| at_stage := v; preliminary := preliminary s; plan := plan s; backend := backend s;
  guard := guard s; media := media s; adapter := adapter s; http := http s; server := server s; peers := peers s; made := made s;
  stopped := stopped s; closing := closing s; log := log s |}.
Definition set_plan v (s : app) : app := {| at_stage := at_stage s; preliminary := preliminary s; plan := v; backend := backend s;
  guard := guard s; media := media s; adapter := adapter s; http := http s; server := server s; peers := peers s; made := made s;
  stopped := stopped s; closing := closing s; log := log s |}.
Definition set_backend v (s : app) : app := {| at_stage := at_stage s; preliminary := preliminary s; plan := plan s; backend := v;
  guard := guard s; media := media s; adapter := adapter s; http := http s; server := server s; peers := peers s; made := made s;
  stopped := stopped s; closing := closing s; log := log s |}.
Definition set_guard v (s : app) : app := {| at_stage := at_stage s; preliminary := preliminary s; plan := plan s; backend :=
  backend s; guard := v; media := media s; adapter := adapter s; http := http s; server := server s; peers := peers s; made :=
  made s; stopped := stopped s; closing := closing s; log := log s |}.
Definition set_media v (s : app) : app := {| at_stage := at_stage s; preliminary := preliminary s; plan := plan s; backend :=
  backend s; guard := guard s; media := v; adapter := adapter s; http := http s; server := server s; peers := peers s; made :=
  made s; stopped := stopped s; closing := closing s; log := log s |}.
Definition set_adapter v (s : app) : app := {| at_stage := at_stage s; preliminary := preliminary s; plan := plan s; backend :=
  backend s; guard := guard s; media := media s; adapter := v; http := http s; server := server s; peers := peers s; made := made
  s; stopped := stopped s; closing := closing s; log := log s |}.
Definition set_http v (s : app) : app := {| at_stage := at_stage s; preliminary := preliminary s; plan := plan s; backend :=
  backend s; guard := guard s; media := media s; adapter := adapter s; http := v; server := server s; peers := peers s; made :=
  made s; stopped := stopped s; closing := closing s; log := log s |}.
Definition set_server v (s : app) : app := {| at_stage := at_stage s; preliminary := preliminary s; plan := plan s; backend :=
  backend s; guard := guard s; media := media s; adapter := adapter s; http := http s; server := v; peers := peers s; made := made
  s; stopped := stopped s; closing := closing s; log := log s |}.
Definition set_peers v (s : app) : app := {| at_stage := at_stage s; preliminary := preliminary s; plan := plan s; backend :=
  backend s; guard := guard s; media := media s; adapter := adapter s; http := http s; server := server s; peers := v; made :=
  made s; stopped := stopped s; closing := closing s; log := log s |}.
Definition set_made v (s : app) : app := {| at_stage := at_stage s; preliminary := preliminary s; plan := plan s; backend :=
  backend s; guard := guard s; media := media s; adapter := adapter s; http := http s; server := server s; peers := peers s; made
  := v; stopped := stopped s; closing := closing s; log := log s |}.
Definition set_stopped v (s : app) : app := {| at_stage := at_stage s; preliminary := preliminary s; plan := plan s; backend :=
  backend s; guard := guard s; media := media s; adapter := adapter s; http := http s; server := server s; peers := peers s; made
  := made s; stopped := v; closing := closing s; log := log s |}.
Definition set_closing v (s : app) : app := {| at_stage := at_stage s; preliminary := preliminary s; plan := plan s; backend :=
  backend s; guard := guard s; media := media s; adapter := adapter s; http := http s; server := server s; peers := peers s; made
  := made s; stopped := stopped s; closing := v; log := log s |}.
Definition set_log v (s : app) : app := {| at_stage := at_stage s; preliminary := preliminary s; plan := plan s; backend :=
  backend s; guard := guard s; media := media s; adapter := adapter s; http := http s; server := server s; peers := peers s; made
  := made s; stopped := stopped s; closing := closing s; log := v |}.

Definition note (e : effect) : ST app unit := modify (fun s => set_log (e :: log s) s).
Definition in_adapter {A} (m : ST (Adapter.adapter B L) A) : ST app unit :=
  s ← get;
  match adapter s with
  | Some a => let '(o, a') := m a in modify (set_adapter (Some a'));; lift (o ≫= fun _ => Ok tt)
  | None => mret tt
  end.
Definition in_backend (m : ST B unit) : ST app unit :=
  s ← get;
  match backend s with
  | Some b => let '(o, b') := m b in modify (set_backend (Some b'));; lift o
  | None => mret tt
  end.

(** ** Permissions *)

Definition allowed (b : TopicBinding) (operation : Router.access_kind) : bool :=
  match operation with
  | Router.Subscribe => bool_decide (publicName b ∈ subscribeTopics settings)
  | Router.Publish => match access b with Some a => bool_decide (publishScope a ∈ publishScopes settings) | None => false end
  end.
Definition watchable (b : VideoBinding) : bool := bool_decide (subscribeScope b ∈ videoScopes settings).
(** The hook of the guard. *)
Definition authorize (s : app) (i : Guard.CommandIdentity) : bool :=
  negb (stopped s) && match plan s with
    | Some (config, _) => existsb (fun t => bool_decide (rosTopic t = Guard.topic i) && allowed t Router.Publish) (topics config)
    | None => false
    end.

(** ** Shutting down *)

(** [close], up to its first suspension. *)
Definition close : ST app unit :=
  s ← get;
  match closing s with
  | NotClosing =>
      modify (set_stopped true);;
      mapS (fun id => note (PeerClosing id)) (peers s);;
      modify (set_closing (Revoking (peers s) false))
  | _ => mret tt
  end.
(** [catch (error) { await close(); throw error; }] *)
Definition fail (e : js_error) : ST app unit := modify (set_at_stage (Aborting e));; close.
Definition thrown (e : js_error) : ST app unit :=
  modify (fun s => match at_stage s with Aborting _ => set_at_stage (Rejected e) s | _ => s end).

(** A peer's closing promise settles: its [onClosed], and [Promise.allSettled]. *)
Definition peer_closed (id : nat) (ok : bool) : ST app unit :=
  modify (fun s => set_peers (filter (.≠ id) (peers s)) s);;
  s ← get;
  match closing s with
  | Revoking pending rejected =>
      modify (set_closing (Revoking (filter (.≠ id) pending) (rejected || negb ok && bool_decide (id ∈ pending))))
  | _ => mret tt
  end.
(** All of them have settled. *)
Definition revoked : ST app unit :=
  s ← get;
  match closing s with
  | Revoking [] rejected =>
      (match guard s with Some g => note GuardClosed;; modify (set_guard (Some (Guard.close g).2)) | None => mret tt end);;
      (match media s with Some _ => note MediaClosing | None => mret tt end);;
      modify (set_closing (ClosingMedia rejected))
  | _ => mret tt
  end.
(** The native side: through the adapter once there is one. *)
Definition close_native : ST app unit :=
  s ← get;
  catch (
    match adapter s with
    | Some _ => note AdapterClosing;; in_adapter Adapter.close
    | None => note BackendClosing;; in_backend Adapter.close_backend
    end)
  (fun _ => note Reported).
Definition media_closed (o : result unit) : ST app unit :=
  s ← get;
  match closing s with
  | ClosingMedia rejected =>
      match o with
      | Throw e => modify (set_closing (CloseFailed e));; thrown e
      | Ok _ =>
          close_native;;
          (if server s then note ServerClosing else mret tt);;
          modify (set_closing (ClosingServer rejected))
      end
  | _ => mret tt
  end.
Definition server_closed (o : result unit) : ST app unit :=
  s ← get;
  match closing s with
  | ClosingServer rejected =>
      (match o with Throw _ => note Reported | Ok _ => mret tt end);;
      (if rejected : bool then note Reported else mret tt);;
      modify (set_closing Closed);;
      match at_stage s with Aborting e => thrown e | _ => mret tt end
  | _ => mret tt
  end.

(** ** Starting *)

Definition startApp : result app :=
  preliminary ← check_settings parse toJS settings;
  Ok {| at_stage := Initializing; preliminary := preliminary; plan := None; backend := None; guard := None; media := None;
        adapter := None; http := None; server := false; peers := []; made := 0; stopped := false; closing := NotClosing; log := [] |}.

Definition guard_options (config : BridgeConfig) : Guard.GuardOptions := {|
  Guard.opt_maxSessions := VNum (of_Z (maxPeers (limits config)));
  Guard.opt_maxHandles := VNum (nmul (of_Z (maxHandles (routerLimits settings))) (of_Z (maxPeers (limits config))));
  Guard.opt_leaseMs := VNum (of_Z 250); Guard.opt_callbacks := true |}.
Definition signaling_options (config : BridgeConfig) : Signaling.SignalingOptions := {|
  Signaling.credential := VStr (credential settings); Signaling.maxBodyBytes := VNum (of_Z (maxSdpBytes settings));
  Signaling.requestTimeoutMs := VNum (of_Z (requestTimeoutMs settings)); Signaling.maxPending := VNum (of_Z (maxPeers (limits config))) |}.

(** From [new CommandGuard] to [await factories.listen(handler)]. *)
Definition assemble (reading : number) : ST app unit :=
  s ← get;
  match plan s, backend s with
  | Some (config, registry), Some b =>
      g ← lift (Guard.constructor uuid (guard_options config) reading);
      modify (set_guard (Some g));;
      a ← lift (Adapter.constructor registry b);
      modify (set_adapter (Some a));;
      in_adapter Adapter.start;;
      h ← lift (Signaling.createSignalingHandler (signaling_options config));
      modify (set_http (Some h));;
      note ListenCalled;;
      modify (set_at_stage Listening)
  | _, _ => mret tt
  end.
(** The [try] block up to its first suspension. *)
Definition configure (reading : number) : ST app unit :=
  s ← get;
  let yaml := Registry.yaml parse toJS in
  config ← lift (parseBridgeConfig yaml (configSource settings) {| availableTypes := map rosType (topics (preliminary s));
    ConfigTypes.maxConfigBytes := Some (VNum (of_Z (maxConfigBytes settings))); maxTopics := None; ConfigTypes.resolveTopic := Some resolveTopic |});
  registry ← lift (Registry.createRegistry sha256 describe config);
  video ← lift (parseVideoConfig yaml (configSource settings) (topics config) (maxConfigBytes settings));
  modify (set_plan (Some (config, registry)));;
  match video with
  | Some _ => modify (set_media video);; note ProbeCalled;; modify (set_at_stage Probing)
  | None => assemble reading
  end.

Definition initialized (o : result B) (reading : number) : ST app unit :=
  s ← get;
  match at_stage s, o with
  | Initializing, Throw e => modify (set_at_stage (Rejected e))
  | Initializing, Ok b => modify (set_backend (Some b));; catch (configure reading) fail
  | _, _ => mret tt
  end.
Definition probed (o : result unit) (reading : number) : ST app unit :=
  s ← get;
  match at_stage s with Probing => catch (lift o;; assemble reading) fail | _ => mret tt end.
Definition listened (o : result unit) : ST app unit :=
  s ← get;
  match at_stage s, o with
  | Listening, Ok _ => modify (set_server true);; modify (set_at_stage Serving)
  | Listening, Throw e => fail e
  | _, _ => mret tt
  end.

(** ** Offers *)

Definition endpoint_options (config : BridgeConfig) (video : option VideoConfig) (peer : nat) : Endpoint.EndpointOptions := {|
  Endpoint.opt_maxMessageBytes := VNum (of_Z (maxMessageBytes (limits config)));
  Endpoint.opt_maxBufferedBytes := VNum (of_Z (maxChannelBufferedBytes (limits config)));
  Endpoint.opt_maxSdpBytes := VNum (of_Z (maxSdpBytes settings)); Endpoint.opt_timeoutMs := VNum (of_Z (timeoutMs settings));
  Endpoint.opt_video := (fun service => {| Endpoint.maxSlots := Media.maxSlots service;
    Endpoint.addSlot := makeVideoSlot peer; Endpoint.stopSlot := stopSlot |}) <$> video |}.
(** What [makeRouter] builds the router of a peer from. *)
Definition router_options (config : BridgeConfig) (registry : list Router.RouterBinding) (epoch : jsstr) (maxMessage : Z)
  (slots : option (list Endpoint.VideoSlot)) : Router.RouterOptions := {|
  Router.opt_config := {| robotId := robotId config; topics := topics config; limits := {| maxPeers := maxPeers (limits config);
    maxMessageBytes := maxMessage; maxPeerQueueBytes := maxPeerQueueBytes (limits config);
    maxChannelBufferedBytes := maxChannelBufferedBytes (limits config) |} |};
  Router.opt_bindings := registry; Router.opt_epoch := VStr epoch;
  Router.opt_maxHandles := VNum (of_Z (maxHandles (routerLimits settings)));
  Router.opt_maxRequests := VNum (of_Z (maxRequests (routerLimits settings)));
  Router.opt_requestTtlMs := VNum (of_Z (requestTtlMs (routerLimits settings)));
  Router.opt_maxControlRateHz := VNum (of_Z (maxControlRateHz (routerLimits settings)));
  Router.opt_callbacks := true; Router.opt_video := slots |}.
(** The hooks it gives the router. *)
Definition surroundings (video : option VideoConfig) (o : Router.outside) : Router.outside := {|
  Router.clock := Router.clock o; Router.authorize := Some allowed;
  Router.ros_subscribe := Router.ros_subscribe o; Router.ros_unsubscribe := Router.ros_unsubscribe o; Router.ros_publish := Router.ros_publish o;
  Router.media_catalog := match video with Some v => Media.catalog v watchable | None => [] end;
  Router.media_authorize := fun track => match video with
    | Some v => existsb (fun b => bool_decide (v_name b = track) && watchable b) (tracks v) | None => false end;
  Router.media_profile := fun track => match video ≫= fun v => find (fun b => bool_decide (v_name b = track)) (tracks v) with
    | Some b => Ok (PROFILE_IDC (profile (encoder b))) | None => Throw (TypeError "encoder") end;
  Router.media_attach := Router.media_attach o; Router.media_detach := Router.media_detach o; Router.media_keyframe := Router.media_keyframe o |}.

(** [accept], up to [endpoint.answer(offer)]; [o] is what [makePeer] does. *)
Definition accept (request : nat) (o : result unit) : ST app nat :=
  s ← get;
  match plan s with
  | None => mthrow (TypeError "config")
  | Some (config, _) =>
      throw_when (stopped s || (maxPeers (limits config) <=? zlength (peers s))) (Error "peer_limit");;
      lift o;;
      note (PeerMade (made s) request);;
      lift (Endpoint.constructor (R := unit) (endpoint_options config (media s) (made s)));;
      modify (fun s => set_made (S (made s)) (set_peers (peers s ++ [made s]) s));;
      mret (made s)
  end.

(** An event of the HTTP side.  An offer that reaches [accept] and is refused
    there is answered in the next microtask. *)
Definition accepting (old new : Signaling.handler) : option nat :=
  match Signaling.log new with
  | Signaling.Accept id _ :: rest => if decide (length rest = length (Signaling.log old)) then Some id else None
  | _ => None
  end.
Definition on_http (e : Signaling.event) (o : result unit) : ST app unit :=
  s ← get;
  match http s with
  | None => mret tt
  | Some h =>
      let h' := (Signaling.step digest yaml_stringify e h).2 in
      modify (set_http (Some h'));;
      match accepting h h' with
      | None => mret tt
      | Some id =>
          r ← attempt (accept id o);
          match r with
          | Ok _ => mret tt
          | Throw e => modify (set_http (Some (Signaling.step digest yaml_stringify (Signaling.Answered id (Throw e)) h').2))
          end
      end
  end.

(** ** Events *)

Inductive event :=
| Initialized (o : result B) (reading : number)
| Probed (o : result unit) (reading : number)
| Listened (o : result unit)
| Http (e : Signaling.event) (made : result unit)
| PeerClosed (id : nat) (ok : bool)
| Revoked
| MediaClosed (o : result unit)
| ServerClosed (o : result unit)
| Close (** the owner calls [close] of the app it got *)
| Ros (a : AdapterProps.action (B := B) (L := L)) (** sessions use the adapter, samples arrive *)
| Command (o : op) (** sessions use the guard *).

(** What the sessions and the backend may do with the shared parts: neither
    start nor close them. *)
Definition ros_step (a : AdapterProps.action (B := B) (L := L)) : ST app unit :=
  match a with
  | AdapterProps.Start | AdapterProps.Use AdapterProps.Shut => mret tt
  | _ => modify (fun s => match adapter s with Some x => set_adapter (Some (AdapterProps.perform callback a x)) s | None => s end)
  end.
Definition command (o : op) : ST app unit :=
  s ← get;
  match o, guard s with
  | CommandGuardRuns.Close, _ | _, None => mret tt
  | _, Some g =>
      let '(commands, g') := exec (pure (fun i _ => authorize s i)) o g in
      modify (set_guard (Some g'));;
      mapS (fun '(handle, seq) => note (Commanded handle seq)) commands;;
      mret tt
  end.

Definition handle (e : event) : ST app unit :=
  match e with
  | Initialized o reading => initialized o reading
  | Probed o reading => probed o reading
  | Listened o => listened o
  | Http e o => on_http e o
  | PeerClosed id ok => peer_closed id ok
  | Revoked => revoked
  | MediaClosed o => media_closed o
  | ServerClosed o => server_closed o
  | Close => s ← get; match at_stage s with Serving => close | _ => mret tt end
  | Ros a => ros_step a
  | Command o => command o
  end.
Definition step (e : event) (s : app) : app := (handle e s).2.
Definition run (events : list event) (s : app) : app := fold_left (fun s e => step e s) events s.
End app.
End Runtime.
