(* ===== verification/RuntimeProps.v ===== *)
(** * What the application guarantees

    Peers only for authenticated offers and within the limit, commands only
    with a granted scope, and a shutdown in order, once, and complete; over
    every order of events. *)

From S2P Require Import Prelude JsNumber JsString JsMap Values SessionValidation Sdp CommandGuard CommandGuardProps CommandGuardRuns ConfigTypes ConfigValidation ConfigBinding ConfigProps ConfigVideo Codec Descriptor Endpoint MediaService Router RouterDemo Adapter AdapterProps Registry Signaling SignalingProps Launch Runtime.

Module RuntimeProps.
Import Launch Runtime.

(** ** A closed guard *)

Lemma owned_closed sid h g : Guard.closed g = true -> Guard.owned sid h g = (Throw (Error "guard_closed"), g).
Proof. intros Hg. rewrite owned_eq. by rewrite Hg. Qed.

(** It publishes nothing and stays closed. *)
Lemma exec_closed allow o g : Guard.closed g = true -> let '(commands, g') := exec (pure allow) o g in commands = [] /\ Guard.closed g' = true.
Proof.
  intros Hg. assert (Hopen : Guard.assertOpen g = (Throw (Error "guard_closed"), g)).
  { unfold Guard.assertOpen. rewrite get_bind. by rewrite Hg. }
  destruct o; simpl; try done.
  - unfold Guard.openSession. by rewrite ST_bind_eq, Hopen.
  - unfold Guard.openHandle. by rewrite ST_bind_eq, Hopen.
  - unfold Guard.arm. by rewrite ST_bind_eq, owned_closed.
  - unfold Guard.prepare. rewrite ST_bind_eq. unfold lift. destruct (sequence _); [|done].
    unfold Guard.validate. by rewrite !ST_bind_eq, owned_closed.
  - unfold Guard.reserve. rewrite get_bind. destruct (Guard.tickets g !! ticket) as [t|]; [|done].
    rewrite ST_bind_eq. destruct (Guard.consumed t); [done|]. simpl. unfold modify. rewrite ST_bind_eq. unfold Guard.redeem.
    destruct callable; [|done]. simpl. unfold Guard.validate. rewrite !ST_bind_eq. simpl. by rewrite !ST_bind_eq, owned_closed.
  - unfold Guard.closeHandle. by rewrite ST_bind_eq, owned_closed.
Qed.

(** A command needs the hook's consent at its publication. *)
Lemma exec_command allow o g handle seq : (handle, seq) ∈ (exec (pure allow) o g).1 ->
  exists s, mget handle (Guard.handles g) = Some s /\ allow (Guard.identity s) Guard.PPublish = true.
Proof.
  destruct o; simpl; try by intros ?%elem_of_nil.
  destruct (Guard.reserve _ _ _ _) as [[[rq sq]|x] g'] eqn:Hr; [|by intros ?%elem_of_nil].
  intros [= -> ->]%list_elem_of_singleton. unfold Guard.reserve, Guard.redeem, Guard.validate in Hr. rewrite get_bind in Hr.
  destruct (Guard.tickets g !! ticket) as [t|]; [|done]. inv_st.
  repeat match goal with H : throw_when _ _ _ = (Ok _, _) |- _ => apply throw_when_same in H as [_ ->] end.
  injection Hy0 as _ <-. rewrite owned_eq in Hy5. destruct (Guard.closed _); [done|]. simpl in Hy5.
  destruct (mget _ (Guard.handles g)) as [x|] eqn:Hx; [|done]. destruct (decide _); [|done]. injection Hy5 as <- <-.
  exists x. split; [done|]. rewrite authorize_pure in Hy6. by destruct (allow _ _).
Qed.

Section props.
Context {D : Type} (parse : jsstr -> option D) (toJS : D -> result jsval).
Context (sha256 : jsstr -> jsstr) (digest : jsstr -> list Z) (yaml_stringify : jsval -> jsstr).
Context (describe : jsstr -> result (list Descriptor.RosField)) (resolveTopic : jsstr -> result jsval).
Context (makeVideoSlot : nat -> OfferedVideo -> result Endpoint.VideoSlot) (stopSlot : Endpoint.VideoSlot -> result unit).
Context {B : Type} {backend_ops : Adapter.RosBackend B} {L : Type} `{EqDecision L}.
Context (callback : L -> jsval -> ST (Adapter.adapter B L) unit) `{!AdapterProps.Borrower callback}.
Context (uuid : jsstr) (settings : AppSettings).

Abbreviation app := (Runtime.app (B := B) (L := L)).
Abbreviation event := (Runtime.event (B := B) (L := L)).
Implicit Types s : app.
Notation step := (Runtime.step parse toJS sha256 digest yaml_stringify describe resolveTopic makeVideoSlot stopSlot callback uuid settings).
Notation run := (Runtime.run parse toJS sha256 digest yaml_stringify describe resolveTopic makeVideoSlot stopSlot callback uuid settings).
Notation assemble := (Runtime.assemble uuid settings).
Notation configure := (Runtime.configure parse toJS sha256 describe resolveTopic uuid settings).
Notation startApp := (Runtime.startApp (B := B) (L := L) parse toJS settings).

(** ** A closed adapter *)

(** It stays closed, whatever the sessions and the backend do. *)
Lemma perform_closed a (x : Adapter.adapter B L) : Adapter.state x = Adapter.Closed ->
  Adapter.state (AdapterProps.perform callback a x) = Adapter.Closed.
Proof.
  intros Hx. assert (Hreg : forall name d, Adapter.registration name d x = (Throw (Error "ros_adapter_not_running"), x)).
  { intros name d. unfold Adapter.registration. by rewrite get_bind, Hx. }
  destruct a as [|[name l|name l|name native|]|key native|f]; simpl.
  - unfold Adapter.start. by rewrite get_bind, Hx.
  - unfold Adapter.subscribe. by rewrite ST_bind_eq, Hreg.
  - unfold Adapter.unsubscribe. unfold_st. by destruct (mget name _).
  - unfold Adapter.publish. by rewrite ST_bind_eq, Hreg.
  - apply AdapterProps.close_closed.
  - enough (Hall : forall l, (mapS (fun alias => Adapter.receive callback alias native) l x).2 = x).
    { unfold Adapter.on_native. rewrite get_bind, ST_bind_eq. specialize (Hall (default [] (mget key (Adapter.aliases x)))).
      destruct (mapS _ _ x) as [[]]; simpl in *; by subst. }
    induction l as [|alias l IH]; [done|]. simpl. rewrite ST_bind_eq. unfold Adapter.receive at 1. rewrite get_bind, Hx. simpl.
    rewrite ST_bind_eq. destruct (mapS _ _ x) as [[]]; simpl in *; by subst.
  - done.
Qed.

(** ** The order of the shutdown *)

Definition is_shut (e : effect) : bool := match e with GuardClosed | MediaClosing | AdapterClosing | BackendClosing | ServerClosing => true | _ => false end.
(** What has been taken down, in order. *)
Definition shutdown s : list effect := rev (List.filter is_shut (log s)).
Definition some {A} (o : option A) (e : effect) : list effect := match o with Some _ => [e] | None => [] end.
(** What the native side is closed through. *)
Definition native s : effect := match adapter s with Some _ => AdapterClosing | None => BackendClosing end.
Definition expected s : list effect :=
  match closing s with
  | NotClosing | Revoking _ _ => []
  | ClosingMedia _ | CloseFailed _ => some (guard s) GuardClosed ++ some (media s) MediaClosing
  | ClosingServer _ | Closed => some (guard s) GuardClosed ++ some (media s) MediaClosing ++ [native s] ++
      (if server s then [ServerClosing] else [])
  end.

Lemma shutdown_note e s : shutdown (set_log (e :: log s) s) = shutdown s ++ if is_shut e then [e] else [].
Proof. unfold shutdown. simpl. destruct (is_shut e); simpl; [done | by rewrite app_nil_r]. Qed.
(** ** The invariant *)

(** The configuration and the registry come from the settings. *)
Definition plan_ok (config : BridgeConfig) (reg : list Router.RouterBinding) : Prop :=
  (exists options, parseBridgeConfig (Registry.yaml parse toJS) (configSource settings) options = Ok config) /\
  Registry.createRegistry sha256 describe config = Ok reg.

Definition past_peers (c : closing_state) : Prop := match c with NotClosing | Revoking _ _ => False | _ => True end.
Definition past_native (c : closing_state) : Prop := match c with ClosingServer _ | Closed => True | _ => False end.

Record core s : Prop := {
  c_shut : shutdown s = expected s;
  c_stopped : stopped s = false <-> closing s = NotClosing;
  c_peers : NoDup (peers s) /\ Forall (fun id => (id < made s)%nat) (peers s);
  c_plan : forall config reg, plan s = Some (config, reg) -> plan_ok config reg /\ zlength (peers s) <= maxPeers (limits config);
  c_none : plan s = None -> peers s = [];
  c_pending : match closing s with Revoking pending _ => forall id, id ∈ peers s -> id ∈ pending | _ => True end;
  c_revoked : past_peers (closing s) -> peers s = [] /\ forall g, guard s = Some g -> Guard.closed g = true;
  c_adapter : forall a, adapter s = Some a -> AdapterProps.inv a /\ (past_native (closing s) -> Adapter.state a = Adapter.Closed);
  c_backend : past_native (closing s) -> adapter s = None -> exists b, backend s = Some (Adapter.close_backend b).2 }.

Record stages s : Prop := {
  s_closing : match at_stage s with
    | Initializing => closing s = NotClosing /\ backend s = None
    | Probing => closing s = NotClosing /\ peers s = [] /\ http s = None /\ is_Some (plan s) /\ is_Some (backend s)
    | Listening => closing s = NotClosing /\ is_Some (http s)
    | Serving => server s = true /\ is_Some (http s)
    | Aborting _ => closing s <> NotClosing /\ closing s <> Closed /\ forall e, closing s <> CloseFailed e
    | Rejected _ => (closing s = NotClosing /\ backend s = None /\ log s = [] /\ http s = None /\ guard s = None) \/ closing s = Closed \/ exists e, closing s = CloseFailed e
    end;
  s_backend : match at_stage s with
    | Initializing => True
    | Rejected _ => closing s = NotClosing \/ is_Some (backend s)
    | _ => is_Some (backend s)
    end;
  s_server : at_stage s <> Serving -> server s = false;
  s_fresh : at_stage s = Initializing -> log s = [] /\ plan s = None /\ adapter s = None /\ guard s = None /\ media s = None /\ http s = None }.
Definition inv s : Prop := core s /\ stages s.

Definition made_of (e : effect) : option (nat * nat) := match e with PeerMade id request => Some (id, request) | _ => None end.
(** The peers made so far, each with its request. *)
Definition created s : list (nat * nat) := omap made_of (log s).

(** While it starts. *)
Record starting s : Prop := {
  st_closing : closing s = NotClosing;
  st_stopped : stopped s = false;
  st_server : server s = false;
  st_backend : is_Some (backend s);
  st_peers : peers s = [];
  st_shut : shutdown s = [];
  st_plan : forall config reg, plan s = Some (config, reg) -> plan_ok config reg;
  st_adapter : forall a, adapter s = Some a -> AdapterProps.inv a;
  st_created : created s = [];
  st_http : forall h, http s = Some h -> exists config reg, plan s = Some (config, reg) /\
    Signaling.createSignalingHandler (signaling_options settings config) = Ok h }.
Lemma starting_core s : starting s -> core s.
Proof.
  intros [H1 H2 H3 H4 H5 H6 H7 H8 _ _]. split; rewrite ?H1, ?H5; try done.
  - unfold expected. by rewrite H1.
  - by split; [constructor|].
  - intros config reg Hp. split; [by apply H7|]. destruct (H7 _ _ Hp) as [[options Ho] _]. apply config_limits in Ho as [[? _] _]. change (0 <= maxPeers (limits config)). lia.
  - intros a Ha. by split; [apply H8|].
Qed.

Lemma app_core_note e s : core s -> is_shut e = false -> core (set_log (e :: log s) s).
Proof.
  intros [Hs] He. split; try done. rewrite shutdown_note, He, app_nil_r. exact Hs.
Qed.
Lemma core_notes l : forall s, core s -> Forall (fun e => is_shut e = false) l -> core (set_log (l ++ log s) s).
Proof.
  induction l as [|e l IH]; intros s Hs Hl; [by destruct s|]. apply Forall_cons in Hl as [He Hl].
  exact (app_core_note e _ (IH _ Hs Hl) He).
Qed.
Lemma core_quiet s s' : core s -> log s' = log s -> guard s' = guard s -> media s' = media s -> server s' = server s ->
  closing s' = closing s -> stopped s' = stopped s -> peers s' = peers s -> made s' = made s -> plan s' = plan s ->
  backend s' = backend s -> (adapter s' = None <-> adapter s = None) ->
  (forall a, adapter s' = Some a -> AdapterProps.inv a /\ (past_native (closing s) -> Adapter.state a = Adapter.Closed)) -> core s'.
Proof.
  intros [] Hlog Hg Hm Hsv Hc Hst Hp Hmade Hplan Hb Hn Ha. split; rewrite ?Hc, ?Hst, ?Hp, ?Hmade, ?Hplan, ?Hg; try done.
  - transitivity (expected s); [unfold shutdown; by rewrite Hlog|]. unfold expected. rewrite Hc, Hg, Hm, Hsv.
    replace (native s') with (native s) by (unfold native; destruct (adapter s), (adapter s'); naive_solver). done.
  - rewrite Hn, Hb. done.
Qed.

(** ** Closing *)

Lemma notes_eq {X} (f : X -> effect) l : forall s, exists us, mapS (fun x => note (f x)) l s = (Ok us, set_log (rev (map f l) ++ log s) s).
Proof.
  induction l as [|x l IH]; intros s; [exists []; by destruct s|]. 
  change (mapS (fun x => note (f x)) (x :: l) s) with ((us ← mapS (fun x => note (f x)) l; mret (tt :: us)) (set_log (f x :: log s) s)).
  rewrite ST_bind_eq. destruct (IH (set_log (f x :: log s) s)) as (us & ->). exists (tt :: us). simpl. by rewrite <- app_assoc.
Qed.
Lemma close_eq s : closing s = NotClosing ->
  close s = (Ok tt, set_closing (Revoking (peers s) false) (set_log (rev (map PeerClosing (peers s)) ++ log s) (set_stopped true s))).
Proof.
  intros Hc. unfold close. rewrite get_bind, Hc.
  change ((mapS (fun id => note (PeerClosing id)) (peers s);; modify (set_closing (Revoking (peers s) false))) (set_stopped true s) =
    (Ok tt, set_closing (Revoking (peers s) false) (set_log (rev (map PeerClosing (peers s)) ++ log s) (set_stopped true s)))).
  rewrite ST_bind_eq. by destruct (notes_eq PeerClosing (peers s) (set_stopped true s)) as (us & ->).
Qed.
Lemma core_close s : core s -> closing s = NotClosing -> core (close s).2.
Proof.
  intros Hs Hc. rewrite close_eq by done. simpl.
  apply (core_notes (rev (map PeerClosing (peers s)))) in Hs as [H1 H2 H3 H4 H5 H6 H7 H8 H9]; [|by apply Forall_rev, Forall_map, Forall_true].
  split; simpl in *; try done.
  - rewrite Hc in *. unfold shutdown, expected in *. simpl in *. by rewrite Hc in H1.
  - intros a Ha. by destruct (H8 a Ha).
Qed.
Lemma peer_closed_eq id ok s : (peer_closed id ok s).2 = set_closing (match closing s with
    | Revoking pending rejected => Revoking (filter (.≠ id) pending) (rejected || negb ok && bool_decide (id ∈ pending))
    | c => c end) (set_peers (filter (.≠ id) (peers s)) s).
Proof. destruct s as [? ? ? ? ? ? ? ? ? ? ? ? [] ?]; reflexivity. Qed.
Lemma inv_peer_closed id ok s : inv s -> inv (peer_closed id ok s).2.
Proof.
  intros [[H1 H2 H3 H4 H5 H6 H7 H8 H9] [G1 Gb G2 G3]]. rewrite peer_closed_eq.
  assert (Hp : past_peers (closing s) -> filter (.≠ id) (peers s) = []) by (intros Hpast; by destruct (H7 Hpast) as [-> _]).
  assert (Hlen : zlength (filter (.≠ id) (peers s)) <= zlength (peers s)) by (unfold zlength; pose proof (length_filter (.≠ id) (peers s)); lia).
  split; split; simpl; try done.
  - transitivity (expected s); [exact H1|]. unfold expected. simpl. by destruct (closing s).
  - rewrite H2. by destruct (closing s).
  - destruct H3 as [Hn Hl]. split; [by apply NoDup_filter|]. apply Forall_forall. intros i [_ Hi]%list_elem_of_filter. rewrite Forall_forall in Hl. by apply Hl.
  - intros config reg Hc. destruct (H4 _ _ Hc). split; [done | lia].
  - intros Hn. by rewrite (H5 Hn).
  - destruct (closing s); try done. intros i [Hi Hin]%list_elem_of_filter. apply list_elem_of_filter. auto.
  - destruct (closing s); try done; by (intros Hpast; split; [by apply Hp | apply H7]).
  - intros a Ha. destruct (H8 _ Ha) as [Hi Hc]. split; [done|]. by destruct (closing s).
  - intros Hpast. apply H9. by destruct (closing s).
  - assert (Hnil : peers s = [] -> filter (.≠ id) (peers s) = []) by (by intros ->).
    clear -G1 Hnil. destruct (closing s), (at_stage s); try exact G1; firstorder congruence.
  - clear -Gb. destruct (at_stage s); try done. destruct Gb as [->|]; auto.
Qed.

Lemma revoked_eq s rejected : closing s = Revoking [] rejected ->
  (revoked s).2 = set_closing (ClosingMedia rejected) (set_log (some (media s) MediaClosing ++ some (guard s) GuardClosed ++ log s)
    (set_guard ((fun g => (Guard.close g).2) <$> guard s) s)).
Proof.
  destruct s as [? ? ? ? g m ? ? ? ? ? ? c ?]. simpl. intros ->. by destruct g, m.
Qed.
Lemma inv_revoked s : inv s -> inv (revoked s).2.
Proof.
  intros Hs. destruct (closing s) as [|[|x pending] rejected| | | |] eqn:Hc; try (unfold revoked; rewrite get_bind, Hc; exact Hs).
  destruct Hs as [[H1 H2 H3 H4 H5 H6 H7 H8 H9] [G1 Gb G2 G3]]. rewrite (revoked_eq _ rejected) by done. rewrite Hc in *.
  assert (Hp : peers s = []) by (apply elem_of_nil_inv; intros i Hi; by apply H6, elem_of_nil in Hi).
  split; split; simpl; try done.
  - unfold shutdown, expected in *. rewrite Hc in H1. simpl in *. rewrite !List.filter_app, !rev_app_distr, H1.
    by destruct (guard s), (media s).
  - rewrite H2. done.
  - intros _. split; [done|]. by intros g (g0 & _ & ->)%fmap_Some.
  - clear -G1. destruct (at_stage s); naive_solver.
  - clear -Gb. destruct (at_stage s); naive_solver.
  - intros Hi. rewrite Hi in G1. by destruct G1.
Qed.

(** Closing the native side, through the adapter once there is one. *)
Lemma close_native_eq s : (forall a, adapter s = Some a -> AdapterProps.inv a) ->
  exists a b new, close_native s = (Ok tt, set_log (new ++ log s) (set_backend b (set_adapter a s))) /\
    List.filter is_shut new = [native s] /\ (is_Some (backend s) -> is_Some b) /\ (backend s = None -> b = None) /\
    (adapter s = None <-> a = None) /\ (adapter s = None -> b = (fun x => (Adapter.close_backend x).2) <$> backend s) /\
    forall x, a = Some x -> AdapterProps.inv x /\ Adapter.state x = Adapter.Closed.
Proof.
  intros Hi. unfold close_native, native, catch, in_adapter, in_backend. rewrite get_bind.
  destruct (adapter s) as [x|] eqn:Ha; unfold note at 1; rewrite ST_bind_eq; unfold modify at 1; rewrite get_bind.
  - change (adapter (set_log (AdapterClosing :: log s) s)) with (adapter s). rewrite Ha.
    pose proof (AdapterProps.adapter_inv_close x (Hi x eq_refl)) as Hinv. pose proof (AdapterProps.close_closed x) as Hcl.
    destruct (Adapter.close x) as [o x']. exists (Some x'), (backend s), (match o with Ok _ => [] | Throw _ => [Reported] end ++ [AdapterClosing]).
    split; [by destruct s, o |]. split_and!; [by destruct o | done..|]. by intros ? [= <-].
  - change (backend (set_log (BackendClosing :: log s) s)) with (backend s). destruct (backend s) as [b|] eqn:Hb.
    + simpl. destruct (Adapter.close_backend b) as [o b']. exists None, (Some b'), (match o with Ok _ => [] | Throw _ => [Reported] end ++ [BackendClosing]).
      split; [destruct s; simpl in *; subst; by destruct o as [[]|] | split_and!; [by destruct o | done..]].
    + exists None, None, [BackendClosing]. split; [destruct s; simpl in *; by subst | done].
Qed.

Lemma media_closed_eq rejected s : (forall a, adapter s = Some a -> AdapterProps.inv a) -> closing s = ClosingMedia rejected ->
  exists a b new, (media_closed (Ok tt) s).2 = set_closing (ClosingServer rejected)
      (set_log (some (if server s then Some tt else None) ServerClosing ++ new ++ log s) (set_backend b (set_adapter a s))) /\
    List.filter is_shut new = [native s] /\ (is_Some (backend s) -> is_Some b) /\ (backend s = None -> b = None) /\
    (adapter s = None <-> a = None) /\ (adapter s = None -> b = (fun x => (Adapter.close_backend x).2) <$> backend s) /\
    forall x, a = Some x -> AdapterProps.inv x /\ Adapter.state x = Adapter.Closed.
Proof.
  intros Hi Hc. destruct (close_native_eq s Hi) as (a & b & new & He & Hrest).
  exists a, b, new. split; [|exact Hrest]. unfold media_closed. rewrite get_bind, Hc, ST_bind_eq, He. by destruct (server s).
Qed.

Lemma inv_media_closed o s : inv s -> inv (media_closed o s).2.
Proof.
  intros Hs. destruct (closing s) as [| |rejected| | |] eqn:Hc; try (unfold media_closed; rewrite get_bind, Hc; exact Hs).
  destruct Hs as [[H1 H2 H3 H4 H5 H6 H7 H8 H9] [G1 Gb G2 G3]]. rewrite Hc in *. destruct o as [[]|e].
  - destruct (media_closed_eq rejected s) as (a & b & new & -> & Hnew & Hsb & Hb & Hna & Hclosed & Ha); [by intros a Ha; apply H8 | done |].
    split; split; simpl; try done.
    + unfold shutdown, expected in *. rewrite Hc in H1. simpl in *. rewrite !List.filter_app, Hnew. simpl. rewrite rev_app_distr. simpl.
      rewrite H1. replace (native (set_closing _ _)) with (native s) by (unfold native; simpl; destruct (adapter s), a; naive_solver).
      destruct (server s); simpl; by rewrite ?app_nil_r, <- ?app_assoc.
    + by rewrite H2.
    + intros x Hx. by destruct (Ha x Hx).
    + intros _ Hx. assert (Hs : adapter s = None) by (by apply Hna). rewrite (Hclosed Hs).
      assert (Hhas : is_Some (backend s)) by (clear -G1 Gb; destruct (at_stage s); naive_solver).
      destruct Hhas as [x ->]. by exists x.
    + clear -G1. destruct (at_stage s); naive_solver.
    + clear -Gb Hsb. destruct (at_stage s); naive_solver.
    + intros Hi. rewrite Hi in G1. by destruct G1.
  - unfold media_closed. rewrite get_bind, Hc. unfold thrown. unfold_st.
    assert (Hcore : core (set_closing (CloseFailed e) s)).
    { split; simpl; try done.
      - unfold shutdown, expected in *. simpl. by rewrite Hc in H1.
      - by rewrite H2.
      }
    replace (match at_stage _ with Aborting _ => _ | _ => _ end) with
      (set_at_stage (match at_stage s with Aborting _ => Rejected e | st => st end) (set_closing (CloseFailed e) s)) by (by destruct s as [[]]).
    split; [by destruct Hcore|]. split; simpl.
    + clear -G1. destruct (at_stage s); naive_solver.
    + clear -Gb. destruct (at_stage s); naive_solver.
    + intros Hst. apply G2. by intros Hn; rewrite Hn in Hst.
    + intros Hi. destruct (at_stage s); try done. by destruct G1.
Qed.
Lemma inv_server_closed o s : inv s -> inv (server_closed o s).2.
Proof.
  intros Hs. destruct (closing s) as [| | |rejected| |] eqn:Hc; try (unfold server_closed; rewrite get_bind, Hc; exact Hs).
  destruct Hs as [[H1 H2 H3 H4 H5 H6 H7 H8 H9] [G1 Gb G2 G3]]. rewrite Hc in *.
  assert (He : exists new, (server_closed o s).2 = set_at_stage (match at_stage s with Aborting e => Rejected e | st => st end)
      (set_closing Closed (set_log (new ++ log s) s)) /\ List.filter is_shut new = []).
  { exists ((if rejected then [Reported] else []) ++ match o with Throw _ => [Reported] | Ok _ => [] end).
    split; [|by destruct rejected, o]. unfold server_closed. rewrite get_bind, Hc.
    destruct s as [[] ? ? ? ? ? ? ? ? ? ? ? ? ?]; by destruct o, rejected. }
  destruct He as (new & -> & Hnew). split; split; simpl; try done.
  - unfold shutdown, expected in *. rewrite Hc in H1. simpl in *. by rewrite List.filter_app, Hnew.
  - by rewrite H2.
  - clear -G1. destruct (at_stage s); naive_solver.
  - clear -Gb. destruct (at_stage s); naive_solver.
  - intros Hst. apply G2. by intros Hn; rewrite Hn in Hst.
  - intros Hi. destruct (at_stage s); try done. by destruct G1.
Qed.
(** ** Starting *)

Lemma in_adapter_starting {A} (m : ST (Adapter.adapter B L) A) : preserves AdapterProps.inv m -> preserves starting (in_adapter m).
Proof.
  intros Hm s Hs. unfold in_adapter. rewrite get_bind. destruct (adapter s) as [a|] eqn:Ha; [|done].
  pose proof (Hm a (st_adapter _ Hs _ Ha)) as Hi. destruct (m a) as [o a']. destruct Hs. split; try done. by intros x [= <-].
Qed.

Lemma in_adapter_plan {A} (m : ST (Adapter.adapter B L) A) s : plan (in_adapter m s).2 = plan s.
Proof. unfold in_adapter. rewrite get_bind. destruct (adapter s) as [a|]; [|done]. by destruct (m a). Qed.

Definition listening s : Prop := starting s /\ at_stage s = Listening /\ is_Some (http s).
Lemma assemble_starting reading s : starting s -> is_Some (plan s) ->
  match assemble reading s with (Ok _, s') => listening s' | (Throw _, s') => starting s' end.
Proof.
  intros Hs [[config reg] Hp]. unfold Runtime.assemble. rewrite get_bind, Hp. destruct (st_backend _ Hs) as [b Hb]. rewrite Hb.
  rewrite ST_bind_eq. unfold lift at 1. destruct (Guard.constructor _ _ _) as [g|e]; [|done].
  rewrite ST_bind_eq. unfold modify at 1. assert (H1 : starting (set_guard (Some g) s)) by (by destruct Hs).
  rewrite ST_bind_eq. unfold lift at 1. destruct (Adapter.constructor reg b) as [a|e] eqn:Ha; [|done].
  rewrite ST_bind_eq. unfold modify at 1. apply AdapterProps.adapter_constructor_inv in Ha as [Ha _].
  assert (H2 : starting (set_adapter (Some a) (set_guard (Some g) s))) by (destruct H1; split; try done; by intros x [= <-]).
  rewrite ST_bind_eq. apply (in_adapter_starting _ AdapterProps.inv_start) in H2.
  pose proof (in_adapter_plan Adapter.start (set_adapter (Some a) (set_guard (Some g) s))) as Hplan. destruct (in_adapter Adapter.start _) as [[[]|e] s2]; [|done].
  rewrite ST_bind_eq. unfold lift at 1. destruct (Signaling.createSignalingHandler _) as [h|e] eqn:Hh; [|done].
  unfold_st. unfold note, modify. split; [|by split; [|eexists]]. destruct H2. split; try done. intros ? [= <-]. exists config, reg. split; [|done].
  exact (eq_trans Hplan Hp).
Qed.

Definition probing s : Prop := starting s /\ at_stage s = Probing /\ is_Some (plan s) /\ http s = None.
Lemma configure_starting reading s : starting s -> http s = None ->
  match configure reading s with (Ok _, s') => listening s' \/ probing s' | (Throw _, s') => starting s' end.
Proof.
  intros Hs Hhttp. unfold Runtime.configure. rewrite get_bind. cbv zeta.
  rewrite ST_bind_eq. unfold lift at 1. destruct (parseBridgeConfig _ _ _) as [config|e] eqn:Hconfig; [|done].
  rewrite ST_bind_eq. unfold lift at 1. destruct (Registry.createRegistry _ _ _) as [reg|e] eqn:Hreg; [|done].
  rewrite ST_bind_eq. unfold lift at 1. destruct (parseVideoConfig _ _ _ _) as [video|e]; [|done].
  rewrite ST_bind_eq. unfold modify at 1.
  assert (H1 : starting (set_plan (Some (config, reg)) s)).
  { destruct Hs. split; try done; [intros ? ? [= <- <-]; split; [by eexists | done] | by simpl; rewrite Hhttp]. }
  destruct video as [v|].
  - unfold note, modify. unfold_st. right. split; [|by split_and!]. destruct H1. by split.
  - pose proof (assemble_starting reading _ H1 ltac:(by eexists)) as H2. destruct (Runtime.assemble _ _ _ _) as [[]]; auto.
Qed.

Lemma inv_fail e s : starting s -> inv (fail e s).2.
Proof.
  intros Hs. change ((fail e s).2) with (close (set_at_stage (Aborting e) s)).2.
  assert (H1 : starting (set_at_stage (Aborting e) s)) by (by destruct Hs).
  split; [apply core_close; [by apply starting_core | apply Hs]|]. rewrite close_eq by apply H1. split; simpl; [done | apply Hs | intros _; apply Hs | done].
Qed.
Lemma inv_listening s : listening s -> inv s.
Proof. intros (Hs & Hst & Hh). split; [by apply starting_core|]. split; rewrite Hst; try done. - by split; [apply Hs|]. - apply Hs. - intros _. apply Hs. Qed.
Lemma inv_probing s : probing s -> inv s.
Proof.
  intros (Hs & Hst & Hp & Hh). split; [by apply starting_core|]. split; rewrite Hst; try done; [|apply Hs|intros _; apply Hs].
  split_and!; [apply Hs | apply Hs | done | done | apply Hs].
Qed.

Lemma starting_fresh b s : inv s -> at_stage s = Initializing -> starting (set_backend (Some b) s) /\ http s = None.
Proof.
  intros [Hc [G1 Gb G2 G3]] Hst. destruct (G3 Hst) as (Hlog & Hp & Ha & Hg & Hm & Hh). rewrite Hst in *. destruct G1 as [Hcl Hb]. split; [|done].
  split; simpl; try done; [by apply Hc | by apply G2 | by apply (c_none _ Hc) | unfold shutdown; simpl; by rewrite Hlog | congruence | congruence |
    unfold created; simpl; by rewrite Hlog | congruence].
Qed.
Lemma inv_initialized o reading s : inv s -> inv (initialized parse toJS sha256 describe resolveTopic uuid settings o reading s).2.
Proof.
  intros Hi. unfold initialized. rewrite get_bind. destruct (at_stage s) eqn:Hst; try exact Hi.
  destruct o as [b|e].
  - rewrite ST_bind_eq. unfold modify at 1. unfold catch. destruct (starting_fresh b s Hi Hst) as [Hs Hh].
    pose proof (configure_starting reading _ Hs Hh) as H1. destruct (Runtime.configure _ _ _ _ _ _ _ _ _) as [[u|e] s'].
    + destruct H1; [by apply inv_listening | by apply inv_probing].
    + by apply inv_fail.
  - destruct Hi as [Hc [G1 Gb G2 G3]]. rewrite Hst in *. destruct (G3 eq_refl) as (? & ? & ? & ? & ? & ?), G1.
    split; [by destruct Hc|]. split; simpl; try done; [left; by split_and! | by left | intros _; by apply G2].
Qed.
Lemma starting_probing s : inv s -> at_stage s = Probing -> created s = [] -> starting s /\ is_Some (plan s).
Proof.
  intros [Hc [G1 Gb G2 G3]] Hst Hcr. rewrite Hst in *. destruct G1 as (Hcl & Hpeers & Hh & Hp & Hb). split; [|done].
  destruct Hc as [H1 H2 H3 H4 H5 H6 H7 H8 H9]. split; try done; [by apply H2 | by apply G2 | | | | by rewrite Hh].
  - rewrite H1. unfold expected. by rewrite Hcl.
  - intros config reg Hplan. by apply H4.
  - intros a Ha. by apply H8.
Qed.
Lemma inv_probed o reading s : inv s -> created s = [] -> inv (probed uuid settings o reading s).2.
Proof.
  intros Hi Hcr. unfold probed. rewrite get_bind. destruct (at_stage s) eqn:Hst; try exact Hi.
  destruct (starting_probing s Hi Hst Hcr) as [Hs Hp]. unfold catch. rewrite ST_bind_eq.
  unfold lift. destruct o as [u|e]; [|by apply inv_fail].
  pose proof (assemble_starting reading s Hs Hp) as H1. destruct (Runtime.assemble _ _ _ _) as [[v|e] s']; [by apply inv_listening | by apply inv_fail].
Qed.
Lemma inv_listened o s : inv s -> inv (listened o s).2.
Proof.
  intros Hi. unfold listened. rewrite get_bind. destruct (at_stage s) eqn:Hst; try exact Hi.
  destruct Hi as [Hc [G1 Gb G2 G3]]. rewrite Hst in *. destruct G1 as (Hcl & Hh). destruct o as [u|e].
  - unfold modify. unfold_st. split; [|by split]. destruct Hc as [H1 H2 H3 H4 H5 H6 H7 H8 H9]. split; try done.
    transitivity (shutdown s); [done|]. rewrite H1. unfold expected. simpl. by rewrite Hcl.
  - change ((fail e s).2) with (close (set_at_stage (Aborting e) s)).2.
    assert (H1 : core (set_at_stage (Aborting e) s)) by (by destruct Hc).
    split; [by apply core_close|]. rewrite close_eq by done. split; simpl; [done | done | intros _; by apply G2 | done].
Qed.
(** ** Offers *)

Context (Hsettings : exists p, check_settings parse toJS settings = Ok p).
Lemma settings_limits : exists t b r h q l c,
  positiveLimit (VNum (of_Z (timeoutMs settings))) = Ok t /\ positiveLimit (VNum (of_Z (maxSdpBytes settings))) = Ok b /\
  positiveLimit (VNum (of_Z (requestTimeoutMs settings))) = Ok r /\ positiveLimit (VNum (of_Z (maxHandles (routerLimits settings)))) = Ok h /\
  positiveLimit (VNum (of_Z (maxRequests (routerLimits settings)))) = Ok q /\ positiveLimit (VNum (of_Z (requestTtlMs (routerLimits settings)))) = Ok l /\
  positiveLimit (VNum (of_Z (maxControlRateHz (routerLimits settings)))) = Ok c.
Proof.
  destruct Hsettings as [p Hp]. unfold check_settings in Hp. inv_res. unfold mapR in Hx0. inv_res. do 7 eexists. split_and!; eassumption.
Qed.
(** The endpoint's own checks cannot fail, so no peer connection is lost between [makePeer] and [peers.add]. *)
Lemma endpoint_accepts config reg video peer : plan_ok config reg ->
  exists ep, Endpoint.constructor (R := unit) (endpoint_options makeVideoSlot stopSlot settings config video peer) = Ok ep.
Proof.
  intros [[options Ho] _]. apply config_limits in Ho as (_ & Hm & _ & Hb). destruct settings_limits as (t & b & _ & _ & _ & _ & _ & Ht & Hsdp & _).
  unfold Endpoint.constructor, endpoint_options. simpl Endpoint.opt_maxMessageBytes. simpl Endpoint.opt_maxBufferedBytes.
  simpl Endpoint.opt_maxSdpBytes. simpl Endpoint.opt_timeoutMs.
  rewrite Hsdp, Ht, !positiveLimit_of_Z by (unfold MAX_SAFE_INTEGER in *; lia). simpl. unfold throw_when.
  replace (maxChannelBufferedBytes (limits config) <? Z.min 16384 (maxMessageBytes (limits config))) with false by lia. by eexists.
Qed.
Lemma accept_Ok request o s config reg : plan s = Some (config, reg) -> plan_ok config reg ->
  (exists r, accept makeVideoSlot stopSlot settings request o s = (Throw r, s)) \/
  stopped s = false /\ zlength (peers s) < maxPeers (limits config) /\
  accept makeVideoSlot stopSlot settings request o s =
    (Ok (made s), set_made (S (made s)) (set_peers (peers s ++ [made s]) (set_log (PeerMade (made s) request :: log s) s))).
Proof.
  intros Hp Hok. unfold accept. rewrite get_bind, Hp. destruct (stopped s) eqn:Hst; [left; by eexists|].
  destruct (maxPeers (limits config) <=? zlength (peers s)) eqn:Hl; [left; by eexists|].
  destruct o as [u|e]; [|left; by eexists]. right. split_and!; [done | lia |].
  destruct (endpoint_accepts config reg (media s) (made s) Hok) as [ep Hep].
  unfold note. unfold_st. simpl. by rewrite Hep.
Qed.
Notation http_step e h := (Signaling.step digest yaml_stringify e h).2.
Notation http_run evs h := (Signaling.run digest yaml_stringify evs h).
Lemma on_http_cases e o s h config reg : http s = Some h -> plan s = Some (config, reg) -> plan_ok config reg ->
  let s' := (on_http digest yaml_stringify makeVideoSlot stopSlot settings e o s).2 in
  accepting h (http_step e h) = None /\ s' = set_http (Some (http_step e h)) s \/
  exists id, accepting h (http_step e h) = Some id /\
    ((exists x, s' = set_http (Some (http_step (Signaling.Answered id (Throw x)) (http_step e h))) s) \/
     stopped s = false /\ zlength (peers s) < maxPeers (limits config) /\
     s' = set_made (S (made s)) (set_peers (peers s ++ [made s]) (set_log (PeerMade (made s) id :: log s) (set_http (Some (http_step e h)) s)))).
Proof.
  intros Hh Hp Hok s'. unfold s', on_http. rewrite get_bind, Hh. cbv beta iota zeta.
  change ((modify (set_http (Some (http_step e h))) ≫= ?m) s) with (m tt (set_http (Some (http_step e h)) s)). cbv beta.
  destruct (accepting h (http_step e h)) as [id|]; [|by left]. right. exists id. split; [done|].
  rewrite ST_bind_eq. unfold attempt.
  destruct (accept_Ok id o (set_http (Some (http_step e h)) s) config reg Hp Hok) as [[x ->]|(Hs & Hl & ->)]; [left; by exists x | by right].
Qed.

Lemma core_made id s config reg : core s -> stopped s = false -> plan s = Some (config, reg) -> zlength (peers s) < maxPeers (limits config) ->
  core (set_made (S (made s)) (set_peers (peers s ++ [made s]) (set_log (PeerMade (made s) id :: log s) s))).
Proof.
  intros Hs Hst Hp Hl. apply (app_core_note (PeerMade (made s) id)) in Hs; [|done]. destruct Hs as [H1 H2 [H3 H3'] H4 H5 H6 H7 H8].
  simpl in *. pose proof (proj1 H2 Hst) as Hc. rewrite Hc in *. split; simpl in *; rewrite ?Hc; try done.
  - rewrite Forall_forall in H3'. split.
    + apply NoDup_app. split_and!; [done | | by apply NoDup_singleton]. intros i Hi%H3' ->%list_elem_of_singleton. lia.
    + apply Forall_app. split; [|by repeat constructor; lia]. apply Forall_forall. intros i Hi%H3'. lia.
  - intros config' reg' Hp'. destruct (H4 _ _ Hp') as [? _]. split; [done|]. rewrite Hp in Hp'. injection Hp' as <- <-.
    unfold zlength in *. rewrite length_app. simpl. lia.
  - congruence.
Qed.
Lemma inv_set_http h s : inv s -> is_Some (http s) -> inv (set_http (Some h) s).
Proof.
  intros [Hc [G1 Gb G2 G3]] [h0 Hh]. split; [by destruct Hc|]. split; simpl; try done.
  - destruct (at_stage s); try done; rewrite Hh in G1; [by destruct G1 as (_ & _ & ? & _) | by destruct G1 | by destruct G1|].
    destruct G1 as [(_ & _ & _ & ? & _)|G1]; [done | by right].
  - intros Hi. destruct (G3 Hi) as (_ & _ & _ & _ & _ & ?). congruence.
Qed.
Lemma inv_on_http e o s h config reg : inv s -> http s = Some h -> plan s = Some (config, reg) -> plan_ok config reg ->
  inv (on_http digest yaml_stringify makeVideoSlot stopSlot settings e o s).2.
Proof.
  intros Hs Hh Hp Hok. destruct (on_http_cases e o s h config reg Hh Hp Hok) as [[_ ->]|(id & _ & [[x ->]|(Hst & Hl & ->)])];
    [by apply inv_set_http..|].
  apply (inv_set_http (http_step e h)) in Hs as [Hc [G1 Gb G2 G3]]; [|done].
  split; [by apply (core_made id _ config reg) in Hc|]. split; simpl in *; try done.
  - destruct (at_stage s); try exact G1; [by destruct G1 as (_ & _ & ? & _)|].
    destruct G1 as [(_ & _ & _ & ? & _)|G1]; [done | by right].
  - intros Hi. destruct (G3 Hi) as (_ & _ & _ & _ & _ & ?). congruence.
Qed.

Lemma inv_ros_step a s : inv s -> inv (ros_step callback a s).2.
Proof.
  intros [Hc [G1 Gb G2 G3]].
  assert (Hsame : (ros_step callback a s).2 = s \/ exists x, adapter s = Some x /\
    (ros_step callback a s).2 = set_adapter (Some (AdapterProps.perform callback a x)) s).
  { destruct a as [|[]| |]; try (by left); (destruct (adapter s) as [x|] eqn:Hx; [right; exists x; split; [done|] | left]);
      unfold ros_step, modify; simpl; by rewrite Hx. }
  destruct Hsame as [->|(x & Hx & ->)]; [by split|]. destruct (c_adapter _ Hc _ Hx) as [Hi Hcl].
  split; [|split; simpl; try done; intros Hfresh; destruct (G3 Hfresh) as (_ & _ & ? & _); congruence].
  apply (core_quiet s); try done; [by rewrite Hx|]. intros x' [= <-].
  split; [by apply (AdapterProps.adapter_inv_run callback [a]) | intros Hpast; by apply perform_closed, Hcl].
Qed.

Lemma commands_eq l : forall s, exists us, mapS (fun '(handle, seq) => note (Commanded handle seq)) l s =
  (Ok us, set_log (rev (map (fun c => Commanded c.1 c.2) l) ++ log s) s).
Proof.
  intros s. destruct (notes_eq (fun c => Commanded c.1 c.2) l s) as (us & Hus). exists us. rewrite <- Hus.
  clear Hus us. revert s. induction l as [|[h q] l IH]; intros s; [done|]. simpl. rewrite !ST_bind_eq. unfold note, modify. simpl.
  rewrite !ST_bind_eq. by rewrite IH.
Qed.
Lemma command_cases o s : (command settings o s).2 = s \/ exists g, guard s = Some g /\
  let r := exec (pure (fun i _ => authorize settings s i)) o g in
  (command settings o s).2 = set_log (rev (map (fun c => Commanded c.1 c.2) r.1) ++ log s) (set_guard (Some r.2) s).
Proof.
  unfold command. rewrite get_bind. destruct (guard s) as [g|] eqn:Hg; [|left; by destruct o].
  destruct o; try (by left); right; exists g; (split; [done|]); cbv zeta; destruct (exec _ _ g) as [cs g'];
    (rewrite ST_bind_eq; unfold modify; rewrite ST_bind_eq; by destruct (commands_eq cs (set_guard (Some g') s)) as (us & ->)).
Qed.
Lemma app_inv_command o s : inv s -> inv (command settings o s).2.
Proof.
  intros [Hc [G1 Gb G2 G3]]. destruct (command_cases o s) as [->|(g & Hg & ->)]; [by split|].
  set (r := exec _ o g).
  assert (Hq : Forall (fun e => is_shut e = false) (rev (map (fun c => Commanded c.1 c.2) r.1))) by (by apply Forall_rev, Forall_map, Forall_true).
  assert (Hc' : core (set_guard (Some r.2) s)).
  { destruct Hc as [H1 H2 H3 H4 H5 H6 H7 H8 H9]. split; simpl; try done.
    - transitivity (shutdown s); [done|]. rewrite H1. unfold expected. simpl. by rewrite Hg.
    - intros Hp. destruct (H7 Hp) as [Hn Hcl]. split; [done|]. intros g' [= <-]. specialize (Hcl _ Hg).
      pose proof (exec_closed (fun i _ => authorize settings s i) o g Hcl) as Hex. fold r in Hex. by destruct r, Hex. }
  split; [exact (core_notes _ _ Hc' Hq)|]. split; simpl; try done.
  - destruct (at_stage s); try exact G1. destruct G1 as [(_ & _ & _ & _ & ?)|G1]; [congruence | by right].
  - intros Hi. destruct (G3 Hi) as (_ & _ & _ & ? & _). congruence.
Qed.
Lemma app_inv_close s : inv s -> at_stage s = Serving -> inv (close s).2.
Proof.
  intros Hi Hst. destruct (closing s) eqn:Hcl; try (unfold close; rewrite get_bind, Hcl; exact Hi).
  destruct Hi as [Hc [G1 Gb G2 G3]]. split; [by apply core_close|]. rewrite close_eq by done. rewrite Hst in *.
  split; simpl; rewrite ?Hst; done.
Qed.

(** The events of the HTTP side. *)
Definition https (evs : list event) : list Signaling.event := omap (fun e => match e with Http e _ => Some e | _ => None end) evs.
(** What leaves the offers alone. *)
Definition kept s s' : Prop := http s' = http s /\ plan s' = plan s /\ created s' = created s /\ peers s' = peers s.
#[local] Instance kept_preorder : PreOrder kept.
Proof. split; [by intros s | intros a b c (?&?&?&?) (?&?&?&?)]. split_and!; congruence. Qed.
Lemma kept_modify f : (forall s, kept s (f s)) -> moves kept (modify f).
Proof. intros Hf s. apply Hf. Qed.
Lemma app_kept_note e : made_of e = None -> moves kept (note e).
Proof. intros He s. split_and!; try done. unfold created. simpl. by rewrite He. Qed.
#[local] Hint Extern 1 (moves kept (modify _)) => apply kept_modify; intros ?; repeat case_match; by split_and! : bridge.
#[local] Hint Extern 1 (moves kept (note _)) => apply app_kept_note; reflexivity : bridge.
Lemma kept_close : moves kept close.
Proof. unfold close. moving. Qed.
#[local] Hint Resolve kept_close : bridge.
Lemma kept_fail e : moves kept (fail e).
Proof. unfold fail. moving. Qed.
Lemma kept_in_adapter {A} (m : ST (Adapter.adapter B L) A) : moves kept (in_adapter m).
Proof. unfold in_adapter. moving. Qed.
Lemma kept_in_backend (m : ST B unit) : moves kept (in_backend m).
Proof. unfold in_backend. moving. Qed.
#[local] Hint Resolve kept_fail kept_in_adapter kept_in_backend : bridge.
Lemma kept_revoked : moves kept revoked.
Proof. unfold revoked. moving. Qed.
Lemma kept_media_closed o : moves kept (media_closed o).
Proof. unfold media_closed, close_native, thrown. moving. Qed.
Lemma kept_server_closed o : moves kept (server_closed o).
Proof. unfold server_closed, thrown. moving. Qed.
Lemma kept_listened o : moves kept (listened o).
Proof. unfold listened. moving. Qed.
Lemma kept_ros_step a : moves kept (ros_step callback a).
Proof. unfold ros_step. moving. Qed.
Lemma kept_command o : moves kept (command settings o).
Proof. unfold command. moving. Qed.
(** The handler's log only grows. *)
Definition grows (h h' : Signaling.handler) : Prop := exists new, Signaling.log h' = new ++ Signaling.log h.
#[local] Instance grows_preorder : PreOrder grows.
Proof. split; [by intros h; exists [] | intros a b c [n1 H1] [n2 H2]; exists (n2 ++ n1); by rewrite H2, H1, app_assoc]. Qed.
Lemma grows_modify f : (forall h, grows h (f h)) -> moves grows (modify f).
Proof. intros Hf h. apply Hf. Qed.
Lemma grows_note e : moves grows (Signaling.note e).
Proof. intros h. by exists [e]. Qed.
#[local] Hint Extern 1 (moves grows (modify _)) => apply grows_modify; intros ?; by exists [] : bridge.
#[local] Hint Resolve grows_note : bridge.
Lemma grows_step e h : grows h (http_step e h).
Proof.
  revert h. change (moves grows (Signaling.step digest yaml_stringify e)).
  assert (Hrefuse : forall id x, moves grows (Signaling.refuse id x)).
  { intros id x. unfold Signaling.refuse, Signaling.settle, Signaling.reply, Signaling.writeHead. moving. }
  unfold Signaling.step, Signaling.handle, Signaling.serveSignalingDocs, Signaling.body_read, Signaling.negotiated, Signaling.settle,
    Signaling.reply, Signaling.writeHead. moving.
Qed.

Record offers (evs : list event) s : Prop := {
  o_http : forall h, http s = Some h -> exists config reg h0 hs, plan s = Some (config, reg) /\
    Signaling.createSignalingHandler (signaling_options settings config) = Ok h0 /\ h = http_run hs h0 /\
    Forall SignalingProps.transport_answers hs /\ sublist (SignalingProps.requests hs) (SignalingProps.requests (https evs));
  o_made : forall id request, (id, request) ∈ created s -> exists h sdp, http s = Some h /\ Signaling.Accept request sdp ∈ Signaling.log h;
  o_once : NoDup (map snd (created s));
  o_tracked : forall id request, (id, request) ∈ created s -> id ∈ peers s \/ exists ok, PeerClosed id ok ∈ evs }.

Lemma requests_snoc evs e : SignalingProps.requests (evs ++ [e]) =
  match e with Signaling.Request id r => [(id, r)] | _ => [] end ++ SignalingProps.requests evs.
Proof. unfold SignalingProps.requests. rewrite omap_app, rev_app_distr. by destruct e. Qed.
Lemma https_snoc evs e : https (evs ++ [e]) = https evs ++ match e with Http e _ => [e] | _ => [] end.
Proof. unfold https. rewrite omap_app. by destruct e. Qed.
Lemma requests_grow evs e : sublist (SignalingProps.requests (https evs)) (SignalingProps.requests (https (evs ++ [e]))).
Proof.
  rewrite https_snoc. destruct e; rewrite ?app_nil_r; try done. rewrite requests_snoc. by apply sublist_inserts_l.
Qed.

Lemma offers_kept evs e s s' : kept s s' -> offers evs s -> offers (evs ++ [e]) s'.
Proof.
  intros (H1 & H2 & H3 & H4) [Hh Hm Ho Ht]. split; rewrite ?H1, ?H2, ?H3, ?H4; try done.
  - intros h (config & reg & h0 & hs & ? & ? & ? & ? & Hs)%Hh. exists config, reg, h0, hs. split_and!; try done.
    etransitivity; [exact Hs | apply requests_grow].
  - intros id request [?|[ok ?]]%Ht; [by left | right; exists ok; apply elem_of_app; by left].
Qed.
Lemma offers_peer_closed evs id ok s : offers evs s -> offers (evs ++ [PeerClosed id ok]) (peer_closed id ok s).2.
Proof.
  intros [Hh Hm Ho Ht]. rewrite peer_closed_eq. split; simpl; try done.
  - rewrite https_snoc, app_nil_r. exact Hh.
  - intros i request [Hi|[ok' ?]]%Ht; [|right; exists ok'; apply elem_of_app; by left].
    destruct (decide (i = id)) as [->|]; [right; exists ok; apply elem_of_app; right; left | left; by apply list_elem_of_filter].
Qed.

Lemma sublist_ids {X} (l k : list (nat * X)) : sublist l k -> NoDup (map fst k) -> NoDup (map fst l).
Proof. intros Hs Hn. eapply sublist_NoDup; [exact Hn|]. change (sublist (fst <$> l) (fst <$> k)). by apply fmap_sublist. Qed.

Lemma offers_http evs e o s config reg : plan_ok config reg -> plan s = Some (config, reg) -> is_Some (http s) ->
  SignalingProps.transport_answers e -> NoDup (map fst (SignalingProps.requests (https (evs ++ [Http e o])))) ->
  offers evs s -> offers (evs ++ [Http e o]) (on_http digest yaml_stringify makeVideoSlot stopSlot settings e o s).2.
Proof.
  intros Hok Hp [h Hh] He Hn [Hhttp Hm Ho Ht]. destruct (Hhttp _ Hh) as (config' & reg' & h0 & hs & Hp' & Hcr & -> & Hts & Hs).
  rewrite Hp in Hp'. injection Hp' as <- <-. set (h := http_run hs h0) in *.
  assert (Hh' : http_step e h = http_run (hs ++ [e]) h0) by (unfold Signaling.run; by rewrite fold_left_app).
  assert (Hreq : sublist (SignalingProps.requests (hs ++ [e])) (SignalingProps.requests (https (evs ++ [Http e o])))).
  { rewrite https_snoc, !requests_snoc. by apply sublist_app. }
  assert (Hts' : Forall SignalingProps.transport_answers (hs ++ [e])) by (apply Forall_app; split; [done | by repeat constructor]).
  assert (Hold : forall id ok, PeerClosed id ok ∈ evs -> PeerClosed id ok ∈ evs ++ [Http e o]) by (intros; apply elem_of_app; by left).
  destruct (grows_step e h) as [new Hnew].
  destruct (on_http_cases e o s h config reg Hh Hp Hok) as [[_ ->]|(id & Hacc & [[x ->]|(Hst & Hl & ->)])].
  - split; simpl; [| | done | naive_solver].
    + intros ? [= <-]. exists config, reg, h0, (hs ++ [e]). by split_and!.
    + intros id request (h1 & sdp & Hh1 & Hin)%Hm. rewrite Hh in Hh1. injection Hh1 as <-. exists (http_step e h), sdp. split; [done|].
      rewrite Hnew. apply elem_of_app. by right.
  - destruct (grows_step (Signaling.Answered id (Throw x)) (http_step e h)) as [new' Hnew'].
    split; simpl; [| | done | naive_solver].
    + intros ? [= <-]. exists config, reg, h0, ((hs ++ [e]) ++ [Signaling.Answered id (Throw x)]). split_and!; [done | done | | |].
      * unfold Signaling.run at 1. rewrite fold_left_app. simpl. by rewrite Hh'.
      * apply Forall_app. split; [done | by repeat constructor].
      * by rewrite requests_snoc.
    + intros i request (h1 & sdp & Hh1 & Hin)%Hm. rewrite Hh in Hh1. injection Hh1 as <-. eexists _, sdp. split; [done|].
      rewrite Hnew', Hnew. apply elem_of_app. right. apply elem_of_app. by right.
  - assert (Hi : SignalingProps.inv digest yaml_stringify (Signaling.settings h0) (SignalingProps.requests (hs ++ [e])) (http_step e h)).
    { rewrite Hh'. apply (SignalingProps.inv_reached digest yaml_stringify (signaling_options settings config)); [done..|]. by eapply sublist_ids. }
    apply SignalingProps.i_log in Hi. unfold accepting in Hacc. destruct (Signaling.log (http_step e h)) as [|[| |i sdp|] rest] eqn:Hlog; try done.
    destruct (decide _) as [Hlen|]; [|done]. injection Hacc as ->.
    assert (Hrest : rest = Signaling.log h).
    { destruct new as [|n [|n' new]]; simpl in Hnew.
      - rewrite <- Hnew in Hlen. simpl in Hlen. lia.
      - by injection Hnew.
      - injection Hnew as _ Hnew. rewrite Hnew in Hlen. simpl in Hlen. rewrite length_app in Hlen. lia. }
    subst rest. inversion Hi as [| |? r ? ? Hl' Hna _ _ _]; subst. unfold created. simpl. split; simpl.
    + intros ? [= <-]. exists config, reg, h0, (hs ++ [e]). by split_and!.
    + intros i request [[= -> ->]|Hin]%elem_of_cons; [exists (http_step e h), sdp; split; [done|]; rewrite Hlog; left|].
      apply Hm in Hin as (h1 & sdp' & Hh1 & Hin). rewrite Hh in Hh1. injection Hh1 as <-. exists (http_step e h), sdp'. split; [done|].
      rewrite Hlog. by right.
    + apply NoDup_cons. split; [|exact Ho]. intros ([i q] & Hq & Hin)%list_elem_of_fmap. simpl in Hq. subst q.
      apply Hm in Hin as (h1 & sdp' & Hh1 & Hin). rewrite Hh in Hh1. injection Hh1 as <-.
      apply not_true_iff_false in Hna. apply Hna. unfold SignalingProps.has_accept. apply existsb_exists.
      eexists. split; [by apply list_elem_of_In|]. simpl. by apply bool_decide_eq_true.
    + intros i request [[= -> ->]|Hin]%elem_of_cons; [left; apply elem_of_app; right; left|].
      destruct (Ht _ _ Hin) as [?|[ok ?]]; [left; apply elem_of_app; by left | right; eauto].
Qed.
Lemma offers_starting evs s : starting s -> offers evs s.
Proof.
  intros [_ _ _ _ _ _ _ _ Hc Hh]. split; rewrite ?Hc; try by (intros ? ? ?%elem_of_nil) || constructor.
  intros h (config & reg & Hp & Hcr)%Hh. exists config, reg, h, []. split_and!; try done. apply sublist_nil_l.
Qed.
Lemma offers_catch evs e (m : ST app unit) s : starting (m s).2 -> offers (evs ++ [e]) (catch m fail s).2.
Proof.
  unfold catch. destruct (m s) as [[u|x] s']; intros Hs; [by apply offers_starting|].
  eapply offers_kept; [apply kept_fail | by apply offers_starting].
Qed.
Lemma configure_stays reading s : starting s -> http s = None -> starting (configure reading s).2.
Proof.
  intros Hs Hh. pose proof (configure_starting reading s Hs Hh) as Hc. destruct (Runtime.configure _ _ _ _ _ _ _ _ _) as [[u|e] s']; [|done].
  destruct Hc as [Hc|Hc]; apply Hc.
Qed.
Lemma offers_initialized evs e o reading s : inv s -> offers evs s ->
  offers (evs ++ [e]) (initialized parse toJS sha256 describe resolveTopic uuid settings o reading s).2.
Proof.
  intros Hi Ho. unfold initialized. rewrite get_bind. destruct (at_stage s) eqn:Hst; try (by apply (offers_kept _ _ s)).
  destruct o as [b|x]; [|by apply (offers_kept _ _ s)]. destruct (starting_fresh b s Hi Hst) as [Hs Hh].
  rewrite ST_bind_eq. unfold modify at 1. by apply offers_catch, configure_stays.
Qed.
Lemma offers_probed evs e o reading s : inv s -> created s = [] -> offers evs s -> offers (evs ++ [e]) (probed uuid settings o reading s).2.
Proof.
  intros Hi Hcr Ho. unfold probed. rewrite get_bind. destruct (at_stage s) eqn:Hst; try (by apply (offers_kept _ _ s)).
  destruct (starting_probing s Hi Hst Hcr) as [Hs Hp]. apply offers_catch. rewrite ST_bind_eq. unfold lift. destruct o as [u|x]; [|done].
  pose proof (assemble_starting reading s Hs Hp) as Ha. destruct (Runtime.assemble _ _ _ _) as [[v|x] s']; [apply Ha | done].
Qed.

(** What the surroundings keep to: requests have distinct ids, and a peer that
    answers an offer answers it with a description. *)
Definition faithful (evs : list event) : Prop :=
  Forall SignalingProps.transport_answers (https evs) /\ NoDup (map fst (SignalingProps.requests (https evs))).
Lemma faithful_snoc evs e : faithful (evs ++ [e]) -> faithful evs /\ match e with Http e _ => SignalingProps.transport_answers e | _ => True end.
Proof.
  intros [H1 H2]. pose proof (requests_grow evs e) as Hs. rewrite https_snoc in H1. apply Forall_app in H1 as [H1 H3].
  split; [split; [done | by eapply sublist_ids]|]. destruct e; try done. by apply Forall_cons in H3 as [? _].
Qed.

Lemma app_inv_step evs e s : inv s -> offers evs s -> faithful (evs ++ [e]) -> inv (step e s) /\ offers (evs ++ [e]) (step e s).
Proof.
  intros Hi Ho Hf. unfold Runtime.step. destruct e as [o t|o t|o|e o|id ok| |o|o| |a|o]; simpl.
  - split; [by apply inv_initialized | by apply offers_initialized].
  - destruct (at_stage s) eqn:Hst; try (unfold probed; rewrite get_bind, Hst; split; [done | by apply (offers_kept _ _ s)]).
    assert (Hcr : created s = []).
    { destruct Hi as [_ [G1 _ _]]. rewrite Hst in G1. destruct G1 as (_ & _ & Hh & _). apply elem_of_nil_inv. intros [i q] Hin.
      apply (o_made _ _ Ho) in Hin as (h & sdp & Hh' & _). congruence. }
    split; [by apply inv_probed | by apply offers_probed].
  - split; [by apply inv_listened | eapply offers_kept; [apply kept_listened | done]].
  - destruct (http s) as [h|] eqn:Hh; [|unfold on_http; rewrite get_bind, Hh; split; [done | by apply (offers_kept _ _ s)]].
    destruct (o_http _ _ Ho h Hh) as (config & reg & _ & _ & Hp & _). destruct (c_plan _ (proj1 Hi) _ _ Hp) as [Hok _].
    split; [by eapply inv_on_http|]. destruct (faithful_snoc _ _ Hf) as [_ He]. destruct Hf as [_ Hn]. by eapply offers_http.
  - split; [by apply inv_peer_closed | by apply offers_peer_closed].
  - split; [by apply inv_revoked | eapply offers_kept; [apply kept_revoked | done]].
  - split; [by apply inv_media_closed | eapply offers_kept; [apply kept_media_closed | done]].
  - split; [by apply inv_server_closed | eapply offers_kept; [apply kept_server_closed | done]].
  - rewrite get_bind. destruct (at_stage s) eqn:Hst; try (split; [done | by apply (offers_kept _ _ s)]).
    split; [by apply app_inv_close | eapply offers_kept; [apply kept_close | done]].
  - split; [by apply inv_ros_step | eapply offers_kept; [apply kept_ros_step | done]].
  - split; [by apply app_inv_command | eapply offers_kept; [apply kept_command | done]].
Qed.
Lemma app_inv_run evs s0 : startApp = Ok s0 -> faithful evs -> inv (run evs s0) /\ offers evs (run evs s0).
Proof.
  intros H0. assert (Hs0 : inv s0 /\ offers [] s0).
  { unfold Runtime.startApp in H0. inv_res. subst s0. split; [split; split; simpl; try done; by split; [constructor|]|].
    split; unfold created; simpl; [done | by intros ? ? ?%elem_of_nil | constructor | by intros ? ? ?%elem_of_nil]. }
  induction evs as [|e evs IH] using rev_ind; intros Hf; [done|]. destruct (faithful_snoc _ _ Hf) as [Hf' _].
  destruct (IH Hf') as [Hi Ho]. unfold Runtime.run. rewrite fold_left_app. simpl. by apply app_inv_step.
Qed.
End props.
End RuntimeProps.
