(* ===== verification/RuntimeRuns.v ===== *)
(** * Properties of the application

    Over every order of events from a start of the application, and a concrete
    run of it: an offer becomes a peer, a command is published, and the owner
    closes the application. *)

From S2P Require Import Prelude JsNumber JsString JsMap Values SessionValidation Sdp CommandGuard CommandGuardProps CommandGuardRuns ConfigTypes ConfigValidation ConfigBinding ConfigProps ConfigVideo CodecTypes CodecScalars CodecSchema Codec CodecProps CodecDecode CodecMain Descriptor DeliveryQueue RequestCache Endpoint MediaService Router RouterDemo Adapter AdapterProps Registry Signaling SignalingProps Launch Runtime RuntimeProps.

Module RuntimeRuns.
Import Launch Runtime RuntimeProps.

Section theorems.
Context {D : Type} (parse : jsstr -> option D) (toJS : D -> result jsval).
Context (sha256 : jsstr -> jsstr) (digest : jsstr -> list Z) (yaml_stringify : jsval -> jsstr).
Context (describe : jsstr -> result (list Descriptor.RosField)) (resolveTopic : jsstr -> result jsval).
Context (makeVideoSlot : nat -> OfferedVideo -> result Endpoint.VideoSlot) (stopSlot : Endpoint.VideoSlot -> result unit).
Context {B : Type} {backend_ops : Adapter.RosBackend B} {L : Type} `{EqDecision L}.
Context (callback : L -> jsval -> ST (Adapter.adapter B L) unit) `{!AdapterProps.Borrower callback}.
Context (uuid : jsstr) (settings : AppSettings).
Notation step := (Runtime.step parse toJS sha256 digest yaml_stringify describe resolveTopic makeVideoSlot stopSlot callback uuid settings).
Notation run := (Runtime.run parse toJS sha256 digest yaml_stringify describe resolveTopic makeVideoSlot stopSlot callback uuid settings).
Notation startApp := (Runtime.startApp (B := B) (L := L) parse toJS settings).

Lemma started s0 : startApp = Ok s0 -> exists p, check_settings parse toJS settings = Ok p.
Proof. unfold Runtime.startApp. intros H1. inv_res. by exists x. Qed.
Lemma reached evs s0 : startApp = Ok s0 -> faithful evs ->
  inv parse toJS sha256 describe settings (run evs s0) /\ offers digest yaml_stringify settings evs (run evs s0).
Proof. intros Hs. apply app_inv_run; [apply _ | by eapply started | done]. Qed.

(** C13: peers are only made for authenticated offers, and within the limit.
    In every run, each peer connection the application created belongs to a
    request of its own, a POST to the offer path with the issued credential;
    there are never more peers than the configuration allows; none is lost:
    it is still held, or its close has been seen; and once the application is
    stopping no further one is created. *)
Theorem peers_admitted evs s0 : startApp = Ok s0 -> faithful evs ->
  let s := run evs s0 in
  (forall config reg, plan s = Some (config, reg) -> zlength (peers s) <= maxPeers (limits config)) /\
  NoDup (map snd (created s)) /\
  (forall id request, (id, request) ∈ created s ->
    (id ∈ peers s \/ exists ok, PeerClosed id ok ∈ evs) /\
    exists r, (request, r) ∈ SignalingProps.requests (https evs) /\ Signaling.method r = js "POST" /\
      Signaling.url r = Some (js "/offer") /\ Signaling.authenticate digest (credential settings) (Signaling.authorization r) = true) /\
  (stopped s = true -> forall e, created (step e s) = created s).
Proof.
  intros Hs0 Hf s. destruct (reached evs s0 Hs0 Hf) as [Hi Ho]. fold s in Hi, Ho. split_and!.
  - intros config reg Hp. by apply (c_plan _ _ _ _ _ _ (proj1 Hi)) in Hp as [_ ?].
  - apply Ho.
  - intros id request Hin. split; [by eapply o_tracked|].
    destruct (o_made _ _ _ _ _ Ho _ _ Hin) as (h & sdp & Hh & Ha).
    destruct (o_http _ _ _ _ _ Ho _ Hh) as (config & reg & h0 & hs & _ & Hcr & -> & Ht & Hsub). destruct Hf as [_ Hn].
    pose proof (SignalingProps.inv_reached digest yaml_stringify _ _ hs Hcr Ht (sublist_ids _ _ Hsub Hn)) as Hsig.
    apply SignalingProps.i_log in Hsig. eapply SignalingProps.log_ok_accept in Ha as (r & _ & _ & Hr & [H1 H2 H3 _] & _); [|exact Hsig].
    exists r. split_and!; [by eapply elem_of_sublist| done..|]. 
    unfold Signaling.createSignalingHandler, signaling_options in Hcr. simpl in Hcr. inv_res. by subst h0.
  - intros Hst e. destruct Hi as [Hc [G1 Gb G2 G3]].
    assert (Hcl : closing s <> NotClosing) by (intros Hcl; apply (c_stopped _ _ _ _ _ _ Hc) in Hcl; congruence).
    assert (Hsame : forall s', kept s s' -> created s' = created s) by (by intros s' (_ & _ & ? & _)).
    unfold Runtime.step. destruct e as [o t|o t|o|e o|id ok| |o|o| |a|o]; simpl.
    + unfold initialized. rewrite get_bind. destruct (at_stage s); try done. by destruct G1.
    + unfold probed. rewrite get_bind. destruct (at_stage s); try done. by destruct G1.
    + apply Hsame, kept_listened.
    + destruct (http s) as [h|] eqn:Hh; [|unfold on_http; by rewrite get_bind, Hh].
      destruct (o_http _ _ _ _ _ Ho h Hh) as (config & reg & _ & _ & Hp & _). destruct (c_plan _ _ _ _ _ _ Hc _ _ Hp) as [Hok _].
      destruct (on_http_cases parse toJS sha256 digest yaml_stringify describe makeVideoSlot stopSlot settings (started s0 Hs0)
        e o s h config reg Hh Hp Hok) as [[_ ->]|(id & _ & [[x ->]|(Hst' & _)])]; [done | done | congruence].
    + by rewrite peer_closed_eq.
    + apply Hsame, kept_revoked.
    + apply Hsame, kept_media_closed.
    + apply Hsame, kept_server_closed.
    + rewrite get_bind. destruct (at_stage s); try done. apply Hsame, kept_close.
    + apply Hsame, kept_ros_step.
    + apply Hsame, kept_command.
Qed.

(** C14: a shutdown takes the parts down in their order, each once, and all of
    them.  In every run, what has been closed so far is exactly the list that
    belongs to the stage of the shutdown: nothing before the peers' promises
    have settled; then the guard and the media plane; then the native side,
    through the adapter if there is one and by the backend's own close
    otherwise; then the server, if it was listening (so the ROS context is not
    closed last, as the comment on [close] says).  From the second step on
    no peer is left and the guard is closed, so that no command can be published
    any more; once the native side is down, an adapter has released the native
    context once and does nothing after it but report, and without an adapter
    the backend is in the state its close left it in; and a start that fails is
    only reported after the same shutdown, or had nothing to take down. *)
Theorem shutdown_in_order evs s0 : startApp = Ok s0 -> faithful evs ->
  let s := run evs s0 in
  shutdown s = expected s /\
  (past_peers (closing s) -> peers s = [] /\ forall o g, guard s = Some g ->
    (exec (pure (fun i _ => authorize settings s i)) o g).1 = []) /\
  (past_native (closing s) -> forall a, adapter s = Some a -> exists new old,
    Adapter.log a = new ++ Adapter.Released :: old /\ Forall AdapterProps.is_report new /\ Adapter.Released ∉ old) /\
  (past_native (closing s) -> adapter s = None -> exists b, backend s = Some (Adapter.close_backend b).2) /\
  (forall e, at_stage s = Rejected e -> backend s = None \/ closing s = Closed \/ exists e', closing s = CloseFailed e').
Proof.
  intros Hs0 Hf s. destruct (reached evs s0 Hs0 Hf) as [[Hc [G1 Gb G2 G3]] _]. fold s in Hc, G1, G2, G3. split_and!.
  - apply Hc.
  - intros Hp. destruct (c_revoked _ _ _ _ _ _ Hc Hp) as [Hn Hg]. split; [done|]. intros o g Hg'.
    pose proof (exec_closed (fun i _ => authorize settings s i) o g (Hg _ Hg')) as He. by destruct (exec _ o g), He.
  - intros Hp a Ha. destruct (c_adapter _ _ _ _ _ _ Hc _ Ha) as [[_ Hi] Hcl]. rewrite (Hcl Hp) in Hi. apply Hi.
  - by apply (c_backend _ _ _ _ _ _ Hc).
  - intros e He. rewrite He in G1. destruct G1 as [(_ & ? & _)|G1]; [by left | by right].
Qed.

(** The peers settle. *)
Lemma run_settled settled : forall s, inv parse toJS sha256 describe settings s ->
  let s' := run (map (fun p => PeerClosed p.1 p.2) settled) s in
  inv parse toJS sha256 describe settings s' /\ at_stage s' = at_stage s /\
  match closing s with
  | Revoking pending _ => exists pending' rejected, closing s' = Revoking pending' rejected /\
      forall id, id ∈ pending' -> id ∈ pending /\ id ∉ map fst settled
  | c => closing s' = c
  end.
Proof.
  induction settled as [|[id ok] settled IH]; intros s Hi.
  - split_and!; [done..|]. destruct (closing s) eqn:Hc; try exact Hc. exists pending, rejected. split; [done|].
    intros i Hin. split; [done | apply not_elem_of_nil].
  - change (run (map (fun p => PeerClosed p.1 p.2) ((id, ok) :: settled)) s) with
      (run (map (fun p => PeerClosed p.1 p.2) settled) (peer_closed id ok s).2).
    apply (inv_peer_closed _ _ _ _ _ id ok) in Hi. destruct (IH _ Hi) as (H1 & H2 & H3). split; [done|].
    rewrite peer_closed_eq in H2, H3 |- *. simpl in H2, H3. split; [done|]. destruct (closing s); try exact H3.
    destruct H3 as (pending' & rejected' & Hc & Hin). exists pending', rejected'. split; [done|].
    intros i [[Hne Hp]%list_elem_of_filter Hns]%Hin. split; [done|]. simpl. rewrite not_elem_of_cons. by split.
Qed.
(** And the rest of the shutdown from there. *)
Lemma finish_shutdown s outcome : inv parse toJS sha256 describe settings s ->
  closing s <> NotClosing -> (forall e, closing s <> CloseFailed e) ->
  (forall pending rejected, closing s = Revoking pending rejected -> pending = []) ->
  let s' := run [Revoked; MediaClosed (Ok tt); ServerClosed outcome] s in
  closing s' = Closed /\ peers s' = [] /\ (forall e, at_stage s = Aborting e -> at_stage s' = Rejected e).
Proof.
  intros Hi Hn Hf Hp. change (run [Revoked; MediaClosed (Ok tt); ServerClosed outcome] s) with
    (server_closed outcome (media_closed (Ok tt) (revoked s).2).2).2.
  assert (H1 : inv parse toJS sha256 describe settings (revoked s).2 /\ at_stage (revoked s).2 = at_stage s /\
    match closing s with Revoking _ rejected => closing (revoked s).2 = ClosingMedia rejected | c => closing (revoked s).2 = c end).
  { split; [by apply inv_revoked|]. destruct (closing s) eqn:Hc; try (unfold revoked; by rewrite get_bind, Hc).
    rewrite (Hp _ _ eq_refl) in Hc. by rewrite (revoked_eq _ rejected). }
  destruct H1 as (Hi1 & Hs1 & Hc1). rewrite <- Hs1. generalize dependent (revoked s).2. intros s1 Hi1 Hs1 Hc1. clear Hs1.
  assert (H2 : inv parse toJS sha256 describe settings (media_closed (Ok tt) s1).2 /\ at_stage (media_closed (Ok tt) s1).2 = at_stage s1 /\
    match closing s1 with ClosingMedia rejected => closing (media_closed (Ok tt) s1).2 = ClosingServer rejected | c => closing (media_closed (Ok tt) s1).2 = c end).
  { split; [by apply inv_media_closed|]. destruct (closing s1) eqn:Hc; try (unfold media_closed; by rewrite get_bind, Hc).
    destruct (media_closed_eq rejected s1) as (a & b & new & -> & _); [|done|done].
    intros a Ha. by apply (c_adapter _ _ _ _ _ _ (proj1 Hi1)) in Ha as [? _]. }
  destruct H2 as (Hi2 & Hs2 & Hc2). rewrite <- Hs2. generalize dependent (media_closed (Ok tt) s1).2. intros s2 Hi2 Hs2 Hc2. clear Hs2.
  assert (Hend : (exists rejected, closing s2 = ClosingServer rejected) \/ closing s2 = Closed).
  { destruct (closing s); try done; rewrite Hc1 in Hc2; eauto. by destruct (Hf e). }
  assert (Hall : closing (server_closed outcome s2).2 = Closed /\ (forall e, at_stage s2 = Aborting e -> at_stage (server_closed outcome s2).2 = Rejected e)).
  { unfold server_closed. rewrite get_bind. destruct Hend as [[rejected Hc]|Hc]; rewrite Hc.
    - split; [|intros e He]; destruct s2 as [st ? ? ? ? ? ? ? ? ? ? ? ? ?]; simpl in *; subst; destruct outcome, rejected; try done; by destruct st.
    - split; [done|]. intros e He. destruct Hi2 as [_ [G _ _]]. rewrite He in G. by destruct G as (_ & ? & _). }
  destruct Hall as [Hcl Hst]. split_and!; [done | | done].
  apply (inv_server_closed _ _ _ _ _ outcome) in Hi2 as [Hc3 _]. apply (c_revoked _ _ _ _ _ _ Hc3). by rewrite Hcl.
Qed.

(** C15: a shutdown that has begun ends.  Wherever it stands, once the peers it
    waits for have settled, with or without an error, and the media plane and
    the server have closed, it is complete: no peer is left, and a start that
    was failing has been rejected with its error. *)
Theorem shutdown_completes evs s0 settled outcome : startApp = Ok s0 -> faithful evs ->
  let s := run evs s0 in closing s <> NotClosing -> (forall e, closing s <> CloseFailed e) ->
  (forall pending rejected id, closing s = Revoking pending rejected -> id ∈ pending -> id ∈ map fst settled) ->
  let s' := run (map (fun p => PeerClosed p.1 p.2) settled ++ [Revoked; MediaClosed (Ok tt); ServerClosed outcome]) s in
  closing s' = Closed /\ peers s' = [] /\ (forall e, at_stage s = Aborting e -> at_stage s' = Rejected e).
Proof.
  intros Hs0 Hf s Hn Hcf Hcov s'. destruct (reached evs s0 Hs0 Hf) as [Hi _]. fold s in Hi.
  destruct (run_settled settled s Hi) as (Hi1 & Hst1 & Hc1). set (s1 := run (map (fun p => PeerClosed p.1 p.2) settled) s) in *.
  assert (He : s' = run [Revoked; MediaClosed (Ok tt); ServerClosed outcome] s1) by (unfold s', s1, Runtime.run; by rewrite fold_left_app).
  rewrite He. clear s' He.
  destruct (finish_shutdown s1 outcome Hi1) as (H1 & H2 & H3).
  - destruct (closing s); try congruence. destruct Hc1 as (? & ? & -> & _). done.
  - intros e He. destruct (closing s) eqn:Hc; try congruence. destruct Hc1 as (? & ? & ? & _). congruence.
  - intros pending rejected Hp. destruct (closing s) eqn:Hc; try congruence.
    destruct Hc1 as (p' & r' & Hc1 & Hin). rewrite Hc1 in Hp. injection Hp as -> ->.
    apply elem_of_nil_inv. intros i [Hi' Hni]%Hin. by eapply Hni, Hcov.
  - rewrite <- Hst1. exact (conj H1 (conj H2 H3)).
Qed.

(** C16: a command is only published with a granted scope.  Whatever a session
    does with the guard, a command it publishes is for the ROS topic of a
    configured topic whose publish scope is one the settings grant, and the
    application is not stopping. *)
Theorem commands_need_scope evs s0 o handle seq : startApp = Ok s0 -> faithful evs ->
  let s := run evs s0 in
  Commanded handle seq ∈ log (step (Command o) s) -> Commanded handle seq ∉ log s ->
  stopped s = false /\ exists config reg state t a,
    plan s = Some (config, reg) /\ (exists g, guard s = Some g /\ mget handle (Guard.handles g) = Some state) /\
    t ∈ topics config /\ rosTopic t = Guard.topic (Guard.identity state) /\
    access t = Some a /\ publishScope a ∈ publishScopes settings.
Proof.
  intros Hs0 Hf s Hin Hnew. change (step (Command o) s) with (command settings o s).2 in Hin.
  destruct (command_cases settings o s) as [He|(g & Hg & He)]; rewrite He in Hin; [done|].
  simpl in Hin. apply elem_of_app in Hin as [Hin|Hin]; [|done].
  rewrite list_elem_of_In, <- in_rev, <- list_elem_of_In in Hin. apply list_elem_of_fmap in Hin as ([h q] & [= -> ->] & Hin).
  apply exec_command in Hin as (state & Hstate & Ha). unfold authorize in Ha. bools. split; [by destruct (stopped s)|].
  destruct (plan s) as [[config reg]|]; [|done].
  match goal with Hx : existsb _ _ = true |- _ => apply existsb_exists in Hx as (t & Ht & Hx) end. bools.
  destruct (access t) as [a|] eqn:Hacc; [|by simpl in *; rewrite Hacc in *].
  exists config, reg, state, t, a. split_and!; [done | by exists g | by apply list_elem_of_In | done | done |].
  simpl in *. rewrite Hacc in *. by bools.
Qed.

(** C24: an accepted configuration serves every offer.  Once the application
    has its plan, and the handle limit is below the largest safe integer
    [2^53 - 1], the router of a peer can be built whatever receive limit the
    peer negotiated below the configured one: the registry has no entry a
    router refuses, and the queue limits fit, so no offer fails for the
    deployment's settings.  With a handle limit of exactly [2^53 - 1], which the
    settings accept, the router of every offer is refused with [invalid_limit],
    since its queue is given one stream more. *)
Theorem every_offer_routed evs s0 config reg g env epoch maxMessage slots : startApp = Ok s0 -> faithful evs ->
  plan (run evs s0) = Some (config, reg) ->
  (forall document v, toJS document = Ok v -> keys_ok v) -> Registry.hex_digest sha256 -> identifier (VStr epoch) = Ok tt ->
  0 < maxHandles (routerLimits settings) <= MAX_SAFE_INTEGER ->
  0 < maxMessage <= maxMessageBytes (limits config) ->
  let router := Router.prepare (router_options settings config reg epoch maxMessage slots) g env in
  if decide (maxHandles (routerLimits settings) = MAX_SAFE_INTEGER) then router = Throw (Error "invalid_limit")
  else exists r, router = Ok r /\ Router.maxBytes r = maxMessage.
Proof.
  intros Hs0 Hf Hp Hy Hsha Hid Hmh Hm router. subst router. destruct (reached evs s0 Hs0 Hf) as [[Hc _] _].
  destruct (c_plan _ _ _ _ _ _ Hc _ _ Hp) as [[[options Hcfg] Hreg] _].
  destruct (Registry.registry_accepted _ _ _ _ _ _ _ _ Hy Hsha Hcfg Hreg) as [_ [m Hentries]].
  apply config_limits in Hcfg as (_ & Hmax & Hqueue & _).
  destruct (settings_limits parse toJS settings (started s0 Hs0)) as (_ & _ & _ & h & q & l & c & _ & _ & _ & Hh & Hq & Hl & Hrate).
  unfold Router.prepare, router_options. cbn [Router.opt_maxHandles Router.opt_maxRequests Router.opt_requestTtlMs Router.opt_maxControlRateHz
    Router.opt_epoch Router.opt_callbacks Router.opt_config Router.opt_bindings Router.opt_video].
  rewrite (positiveLimit_of_Z (maxHandles (routerLimits settings))), Hq, Hl, Hrate, Hid by done. cbn [mbind result_bind throw_when negb mret result_ret].
  cbn [topics]. rewrite Hentries. cbn [mbind result_bind ConfigTypes.limits ConfigTypes.maxMessageBytes ConfigTypes.maxPeerQueueBytes].
  unfold Queue.constructor. cbn [Queue.opt_maxStreams Queue.opt_maxBytes Queue.opt_maxMessageBytes].
  destruct (decide _) as [Hmax1|Hmax1].
  { rewrite Hmax1. by replace (positiveLimit (VNum (nadd (of_Z MAX_SAFE_INTEGER) (of_Z 1)))) with (Throw (Error "invalid_limit") : result Z) by (by vm_compute). }
  rewrite nadd_one by lia. set (streams := maxHandles (routerLimits settings) + 1).
  assert (Hstreams : positiveLimit (VNum (of_Z streams)) = Ok streams) by (apply positiveLimit_of_Z; lia).
  rewrite Hstreams. cbn [mbind result_bind].
  replace (Z.min 16384 maxMessage) with maxMessage by lia.
  rewrite !positiveLimit_of_Z by (unfold MAX_SAFE_INTEGER in *; lia). cbn [mbind result_bind].
  replace (maxPeerQueueBytes (limits config) <? maxMessage) with false by lia. cbn [throw_when].
  apply positiveLimit_Ok in Hq as (_ & _ & _ & Hq), Hstreams as (_ & _ & _ & Hstreams).
  cbn [mret result_ret mbind result_bind]. unfold Queue.register.
  rewrite ST_bind_eq. replace (identifier (VStr Router.control_id)) with (Ok tt : result unit) by (by vm_compute).
  unfold lift at 1. rewrite ST_bind_eq. unfold lift at 1. rewrite positiveLimit_of_Z by done.
  replace (is_str "latest" (VStr (js "reliable"))) with false by (by vm_compute).
  replace (is_str "reliable" (VStr (js "reliable"))) with true by (by vm_compute).
  unfold_st. unfold mhas, msize. cbn [negb andb Queue.streams Queue.maxStreams mget bool_decide].
  rewrite bool_decide_false by (by intros [? ?]). change (zlength []) with 0. replace (streams <=? 0) with false by lia. by eexists.

Qed.

End theorems.

(** ** A concrete run *)

#[local] Existing Instances Adapter.Mock.mock AdapterProps.demo_borrower.
Definition demo_settings : AppSettings := {|
  credential := repeat 97 32; configSource := []; maxConfigBytes := 1048576; subscribeTopics := []; publishScopes := [js "drive"];
  videoScopes := []; timeoutMs := 30000; maxSdpBytes := 4096; requestTimeoutMs := 1000;
  routerLimits := {| maxHandles := 4; maxRequests := 4; requestTtlMs := 1000; maxControlRateHz := 100 |} |}.
Definition demo_slot (peer : nat) (offered : OfferedVideo) : result Endpoint.VideoSlot := Throw (Error "no_video").
Abbreviation demo_event := (event (B := Adapter.Mock.MockRosBackend) (L := nat)).
Abbreviation demo_app := (Runtime.app (B := Adapter.Mock.MockRosBackend) (L := nat)).
Definition demo_parse (source : jsstr) : option unit := Some tt.
Definition demo_resolve (name : jsstr) : result jsval := Ok (VStr name).
Abbreviation demo_run := (Runtime.run (backend_ops := Adapter.Mock.mock) demo_parse Registry.demo_toJS Registry.demo_sha256 SignalingProps.demo_sha256 SignalingProps.demo_yaml Registry.demo_describe demo_resolve
  demo_slot (fun _ => Ok tt) AdapterProps.demo_callback (js "g") demo_settings).
Abbreviation demo_step := (Runtime.step (backend_ops := Adapter.Mock.mock) demo_parse Registry.demo_toJS Registry.demo_sha256
  SignalingProps.demo_sha256 SignalingProps.demo_yaml Registry.demo_describe demo_resolve demo_slot (fun _ => Ok tt)
  AdapterProps.demo_callback (js "g") demo_settings).
Definition demo_start : demo_app :=
  match Runtime.startApp demo_parse Registry.demo_toJS demo_settings with
  | Ok s => s
  | Throw e => {| at_stage := Rejected e; preliminary := Registry.demo_config; plan := None; backend := None; guard := None; media := None;
      adapter := None; http := None; server := false; peers := []; made := 0; stopped := false; closing := NotClosing; log := [] |}
  end.
Definition demo_offer (authorization : jsstr) : Signaling.request := {|
  Signaling.method := js "POST"; Signaling.url := Some (js "/offer"); Signaling.authorization := Some authorization;
  Signaling.content_type := Some (js "application/json") |}.
(** A good offer, a bad credential, and a session that arms a publisher. *)
Definition demo_serving : list demo_event := [
  Initialized (Ok Adapter.Mock.fresh) (of_Z 100); Listened (Ok tt);
  Http (Signaling.Request 0 (demo_offer (js "Bearer " ++ repeat 97 32))) (Ok tt);
  Http (Signaling.Request 1 (demo_offer (js "Bearer b"))) (Ok tt);
  Http (Signaling.Body 0 (Signaling.Data SignalingProps.demo_body)) (Ok tt); Http (Signaling.Body 0 Signaling.End) (Ok tt);
  Command (OpenSession (VStr (js "e1"))); Command (OpenHandle (js "g:1") (VStr (js "/cmd_vel")) None);
  Command (Arm (js "g:1") (js "g:2"));
  Command (Prepare {| Guard.rq_sessionId := js "g:1"; Guard.rq_epoch := js "e1"; Guard.rq_handle := js "g:2";
    Guard.rq_leaseId := js "g:3"; Guard.rq_seq := VStr (js "7") |})].
Definition demo_closing : list demo_event := demo_serving ++ [Close; PeerClosed 0 false; Revoked; MediaClosed (Ok tt)].

Lemma demo_launched : Runtime.startApp demo_parse Registry.demo_toJS demo_settings = Ok demo_start.
Proof. vm_compute. reflexivity. Qed.
Lemma demo_serving_faithful : faithful demo_serving.
Proof. split; [repeat constructor | apply (bool_decide_eq_true_1 _); vm_compute; reflexivity]. Qed.
Lemma demo_closing_faithful : faithful demo_closing.
Proof. split; [repeat constructor | apply (bool_decide_eq_true_1 _); vm_compute; reflexivity]. Qed.

Lemma demo_plan : fst <$> plan (demo_run demo_serving demo_start) = Some Registry.demo_config.
Proof. vm_compute. reflexivity. Qed.

Lemma peers_admitted_witness :
  created (demo_run demo_serving demo_start) = [(0%nat, 0%nat)] /\ peers (demo_run demo_serving demo_start) = [0%nat] /\
  exists r, (0%nat, r) ∈ SignalingProps.requests (https demo_serving) /\
    Signaling.authenticate SignalingProps.demo_sha256 (credential demo_settings) (Signaling.authorization r) = true.
Proof.
  destruct (peers_admitted demo_parse Registry.demo_toJS Registry.demo_sha256 SignalingProps.demo_sha256 SignalingProps.demo_yaml
    Registry.demo_describe demo_resolve demo_slot (fun _ => Ok tt) AdapterProps.demo_callback (js "g") demo_settings
    demo_serving demo_start demo_launched demo_serving_faithful) as (_ & _ & H & _).
  assert (Hc : created (demo_run demo_serving demo_start) = [(0%nat, 0%nat)]) by (vm_compute; reflexivity).
  split; [exact Hc|]. split; [vm_compute; reflexivity|].
  destruct (H 0%nat 0%nat) as (_ & r & Hr & _ & _ & Ha); [|exists r; exact (conj Hr Ha)]. rewrite Hc. left.
Defined.

Lemma shutdown_in_order_witness :
  let s := demo_run demo_closing demo_start in
  shutdown s = [GuardClosed; AdapterClosing; ServerClosing] /\ peers s = [] /\
  exists a new old, adapter s = Some a /\ Adapter.log a = new ++ Adapter.Released :: old /\ Adapter.Released ∉ old.
Proof.
  destruct (shutdown_in_order demo_parse Registry.demo_toJS Registry.demo_sha256 SignalingProps.demo_sha256 SignalingProps.demo_yaml
    Registry.demo_describe demo_resolve demo_slot (fun _ => Ok tt) AdapterProps.demo_callback (js "g") demo_settings
    demo_closing demo_start demo_launched demo_closing_faithful) as (H1 & H2 & H3 & _). cbv zeta.
  assert (Hc : closing (demo_run demo_closing demo_start) = ClosingServer true) by (vm_compute; reflexivity).
  split; [rewrite H1; vm_compute; reflexivity|]. rewrite Hc in H2, H3. split; [by apply H2|].
  assert (Hs : is_Some (adapter (demo_run demo_closing demo_start))) by (apply (bool_decide_eq_true_1 _); vm_compute; reflexivity).
  destruct Hs as [a Ha]. destruct (H3 Logic.I a Ha) as (new & old & Hl & _ & Ho). exists a, new, old. exact (conj Ha (conj Hl Ho)).
Defined.

(** A peer whose close fails is reported and does not stop the shutdown. *)
Lemma shutdown_completes_witness :
  let s := demo_run (demo_serving ++ [Close]) demo_start in
  closing s = Revoking [0%nat] false /\
  closing (demo_run (PeerClosed 0 false :: [Revoked; MediaClosed (Ok tt); ServerClosed (Ok tt)]) s) = Closed.
Proof.
  assert (Hc : closing (demo_run (demo_serving ++ [Close]) demo_start) = Revoking [0%nat] false) by (vm_compute; reflexivity).
  split; [exact Hc|].
  destruct (shutdown_completes demo_parse Registry.demo_toJS Registry.demo_sha256 SignalingProps.demo_sha256 SignalingProps.demo_yaml
    Registry.demo_describe demo_resolve demo_slot (fun _ => Ok tt) AdapterProps.demo_callback (js "g") demo_settings
    (demo_serving ++ [Close]) demo_start [(0%nat, false)] (Ok tt) demo_launched) as (H & _).
  - split; [repeat constructor | apply (bool_decide_eq_true_1 _); vm_compute; reflexivity].
  - by rewrite Hc.
  - by rewrite Hc.
  - rewrite Hc. by intros ? ? id [= <- <-] ?%list_elem_of_singleton; subst; left.
  - exact H.
Defined.

Lemma commands_need_scope_witness :
  exists t a, t ∈ topics Registry.demo_config /\ access t = Some a /\ publishScope a = js "drive".
Proof.
  assert (Hin : Commanded (js "g:2") 7 ∈ log (demo_step (Command (Publish 0 true)) (demo_run demo_serving demo_start))).
  { vm_compute. left. }
  assert (Hnew : Commanded (js "g:2") 7 ∉ log (demo_run demo_serving demo_start)).
  { replace (log (demo_run demo_serving demo_start)) with [PeerMade 0 0; ListenCalled] by (vm_compute; reflexivity).
    by intros [|[|?%elem_of_nil]%elem_of_cons]%elem_of_cons. }
  destruct (commands_need_scope demo_parse Registry.demo_toJS Registry.demo_sha256 SignalingProps.demo_sha256 SignalingProps.demo_yaml
    Registry.demo_describe demo_resolve demo_slot (fun _ => Ok tt) AdapterProps.demo_callback (js "g") demo_settings
    demo_serving demo_start (Publish 0 true) (js "g:2") 7 demo_launched demo_serving_faithful Hin Hnew)
    as (_ & config & reg & state & t & a & Hp & _ & Ht & _ & Ha & Hs).
  exists t, a. split; [|split; [exact Ha | by apply list_elem_of_singleton in Hs]]. vm_compute in Hp. injection Hp as <- _. exact Ht.
Defined.

Lemma every_offer_routed_witness : exists config reg r,
  plan (demo_run demo_serving demo_start) = Some (config, reg) /\
  Router.prepare (router_options demo_settings config reg (js "epoch") 1000 None) demo_guard (RouterDemo.calm_world 0) = Ok r /\ Router.maxBytes r = 1000.
Proof.
  assert (Hs : is_Some (plan (demo_run demo_serving demo_start))) by (apply (bool_decide_eq_true_1 _); vm_compute; reflexivity).
  destruct Hs as [[config reg] Hp].
  destruct (every_offer_routed demo_parse Registry.demo_toJS Registry.demo_sha256 SignalingProps.demo_sha256 SignalingProps.demo_yaml
    Registry.demo_describe demo_resolve demo_slot (fun _ => Ok tt) AdapterProps.demo_callback (js "g") demo_settings
    demo_serving demo_start config reg demo_guard (RouterDemo.calm_world 0) (js "epoch") 1000 None demo_launched demo_serving_faithful Hp
    Registry.demo_keys_unique Registry.demo_digest) as (r & H1 & H2).
  - vm_compute. reflexivity.
  - vm_compute. by split.
  - pose proof demo_plan as Hc. rewrite Hp in Hc. injection Hc as ->. vm_compute. by split.
  - exists config, reg, r. exact (conj Hp (conj H1 H2)).
Defined.
End RuntimeRuns.
