(* ===== verification/Credential.v ===== *)
(** * The credential store

    [scripts/credential-store.mjs]: a bearer credential in a private file,
    created once however many processes try.  The functions are asynchronous,
    so each is a program of system calls ([prog]) between which other processes
    run; the calls answer as POSIX and Node document them, over a file system
    of inodes, and any of them may fail. *)

From stdpp Require Import gmap.
From S2P Require Import Prelude JsNumber JsString Regex Values Options Signaling.

Module Credential.

(** ** Paths *)

(** An absolute path, innermost component first; the root is []. *)
Abbreviation path := (list jsstr).
Definition dirname (p : path) : path := tail p.
(** [path.resolve(value)] *)
Definition resolve (cwd : path) (value : jsstr) : path :=
  fold_left (fun p part =>
      if bool_decide (part = []) || bool_decide (part = js ".") then p
      else if bool_decide (part = js "..") then tail p else part :: p)
    (split_on 47 value) (match value with 47 :: _ => [] | _ => cwd end).

(** ** System calls *)

Inductive errno := ENOENT | EEXIST | ELOOP | ENOTDIR | EBADF | EOTHER (n : Z).
#[export] Instance errno_eq : EqDecision errno.
Proof. solve_decision. Defined.
Inductive kind := Regular | Directory | Symlink | Special.
#[export] Instance kind_eq : EqDecision kind.
Proof. solve_decision. Defined.
Record stat := { st_kind : kind; st_uid : Z; st_mode : Z (** the permission bits *); st_size : Z }.

Inductive flags :=
| Reading (** [O_RDONLY | O_NOFOLLOW | O_NONBLOCK] *)
| ReadingDirectory (** [O_RDONLY | O_DIRECTORY | O_NOFOLLOW] *)
| Creating (mode : Z) (** ['wx'] *).
Inductive call : Set -> Type :=
| Lstat (p : path) : call stat
| Open (p : path) (f : flags) : call nat
| Fstat (fd : nat) : call stat
| ReadFile (fd : nat) : call (list Z)
| WriteFile (fd : nat) (bytes : list Z) : call unit
| Sync (fd : nat) : call unit
| Close (fd : nat) : call unit
| Mkdir (p : path) (mode : Z) : call unit (** recursive *)
| Mkdtemp (parent : path) (prefix : jsstr) : call path
| Link (existing new : path) : call unit
| Rm (p : path) : call unit (** recursive, force *)
| RandomBytes (n : nat) : call (list Z).

(** What is thrown: an error with a code, [new Error()], or
    [new Error('credential_store_unavailable')]. *)
Inductive fault := Code (e : errno) | Plain | Unavailable.

Inductive prog (A : Type) : Type :=
| Return (a : A)
| Raise (e : fault)
| Call {X : Set} (c : call X) (k : errno + X -> prog A).
Arguments Return {A} a.
Arguments Raise {A} e.
Arguments Call {A X} c k.

#[export] Instance prog_ret : MRet prog := fun A a => Return a.
#[export] Instance prog_bind : MBind prog := fun A B f =>
  fix bind m := match m with Return a => f a | Raise e => Raise e | Call c k => Call c (fun r => bind (k r)) end.
(** [await] of a call. *)
Definition await {X : Set} (c : call X) : prog X :=
  Call c (fun r => match r with inl e => Raise (Code e) | inr x => Return x end).
(** [try { m } catch (error) { h error }] and [try { m } finally { f }]. *)
Fixpoint try_catch {A} (m : prog A) (h : fault -> prog A) : prog A :=
  match m with Return a => Return a | Raise e => h e | Call c k => Call c (fun r => try_catch (k r) h) end.
Fixpoint try_finally {A} (m : prog A) (f : prog unit) : prog A :=
  match m with
  | Return a => f ≫= fun _ => Return a
  | Raise e => f ≫= fun _ => Raise e
  | Call c k => Call c (fun r => try_finally (k r) f)
  end.
Definition raise_when (b : bool) : prog unit := if b then Raise Plain else Return tt.

(** ** Runs

    A run of a program is the sequence of its calls with what each answered,
    and its outcome: any answer, since other processes use the same files. *)
Inductive event :=
| Did {X : Set} (c : call X) (answer : errno + X).
Inductive execution {A} : prog A -> list event -> A + fault -> Prop :=
| ex_return a : execution (Return a) [] (inl a)
| ex_raise e : execution (Raise e) [] (inr e)
| ex_call {X : Set} (c : call X) k r tr o :
    execution (k r) tr o -> execution (Call c k) (Did c r :: tr) o.

(** What a run holds: its open handles, its staging directories, and the
    directories it synced since it last read the file. *)
Record resources := { handles : gmap nat path; stagings : gset path; durable : gset path }.
Definition nothing : resources := {| handles := ∅; stagings := ∅; durable := ∅ |}.
Definition account (s : resources) {X : Set} (c : call X) : errno + X -> resources :=
  match c with
  | Open p _ => fun r => match r with
      | inr fd => {| handles := <[fd := p]> (handles s); stagings := stagings s; durable := durable s |}
      | inl _ => s end
  | Close fd => fun _ => {| handles := delete fd (handles s); stagings := stagings s; durable := durable s |}
  | ReadFile _ => fun _ => {| handles := handles s; stagings := stagings s; durable := ∅ |}
  | Sync fd => fun r => match r, handles s !! fd with
      | inr _, Some p => {| handles := handles s; stagings := stagings s; durable := {[p]} ∪ durable s |}
      | _, _ => s end
  | Mkdtemp _ _ => fun r => match r with
      | inr p => {| handles := handles s; stagings := {[p]} ∪ stagings s; durable := durable s |}
      | inl _ => s end
  | Rm p => fun _ => {| handles := handles s; stagings := stagings s ∖ {[p]}; durable := durable s |}
  | _ => fun _ => s
  end.
Definition account_all (s : resources) (tr : list event) : resources :=
  fold_left (fun s e => match e with Did c r => account s c r end) tr s.

(** ** The program *)

Section program.
(** [process.getuid()] and the working directory. *)
Variables (uid : Z) (cwd : path).

Definition credentialPath (value : jsval) : prog path :=
  match value with
  | VStr s => if bool_decide (s = []) || bool_decide (0 ∈ s) then Raise Plain else Return (resolve cwd s)
  | _ => Raise Plain
  end.

Definition is_directory (e : stat) : bool := bool_decide (st_kind e = Directory).
Fixpoint checkAncestors (directory : path) : prog unit :=
  (match directory with [] => Return tt | _ :: parent => checkAncestors parent end) ≫= fun _ =>
  try_catch (entry ← await (Lstat directory); raise_when (negb (is_directory entry)))
    (fun error => match error with Code ENOENT => Return tt | _ => Raise error end).

Definition checkDirectory (directory : path) : prog unit :=
  entry ← await (Lstat directory);
  raise_when (negb (is_directory entry) || negb (st_uid entry =? uid) || negb (Z.land (st_mode entry) 18 (* 0o022 *) =? 0)).

(** [content.replace(/\r?\n$/, '')] *)
Definition strip_newline (s : jsstr) : jsstr :=
  match rev s with
  | 10 :: 13 :: r => rev r
  | 10 :: r => rev r
  | _ => s
  end.
(** [/^[A-Za-z0-9._~+/-]+=*(?![\s\S])/] *)
Definition token_re : re := RCat (rplus (RCls (fun c => alnum c || chr "._~+/-" c))) (RStar (RCls (fun c => c =? 61))).
Definition token (content : jsstr) : option jsstr :=
  let value := strip_newline content in
  if (zlength value <? 32) || (4096 <? zlength value) || negb (matches token_re value) then None else Some value.

Definition readStored (filename : path) : prog jsstr :=
  file ← await (Open filename Reading);
  try_finally (
    entry ← await (Fstat file);
    raise_when (negb (bool_decide (st_kind entry = Regular)) || negb (st_uid entry =? uid) || negb (st_mode entry =? 384 (* 0o600 *))
      || (st_size entry <? 32) || (4096 <? st_size entry)) ≫= fun _ =>
    content ← await (ReadFile file);
    match token (Signaling.utf8_lossy content) with Some value => Return value | None => Raise Plain end)
  (await (Close file)).

Fixpoint syncDirectoryTree (current : path) : prog unit :=
  handle ← await (Open current ReadingDirectory);
  try_finally (await (Sync handle)) (await (Close handle)) ≫= fun _ =>
  match current with [] => Return tt | _ :: parent => syncDirectoryTree parent end.

Definition readDurable (filename : path) : prog jsstr :=
  credential ← readStored filename;
  syncDirectoryTree (dirname filename) ≫= fun _ =>
  Return credential.

(** The outermost [catch] of both functions: whatever the error was. *)
Definition unavailable {A} (m : prog A) : prog A := try_catch m (fun _ => Raise Unavailable).
Definition readCredential (value : jsval) : prog jsstr :=
  unavailable (
    filename ← credentialPath value;
    checkAncestors (dirname filename) ≫= fun _ =>
    checkDirectory (dirname filename) ≫= fun _ =>
    readStored filename).

(** [randomBytes(32).toString('hex') + '\n'] *)
Definition hex_char (d : Z) : Z := if d <? 10 then 48 + d else 87 + d.
Definition toHex (bytes : list Z) : jsstr := concat (map (fun b => [hex_char (Z.shiftr b 4); hex_char (Z.land b 15)]) bytes).
Definition staging_prefix : jsstr := js ".credential-".

Definition install (directory filename : path) : prog jsstr :=
  staging ← await (Mkdtemp directory staging_prefix);
  try_finally (
    let candidate := js "value" :: staging in
    file ← await (Open candidate (Creating 384 (* 0o600 *)));
    try_finally (
      bytes ← await (RandomBytes 32);
      await (WriteFile file (toHex bytes ++ [10])) ≫= fun _ =>
      await (Sync file))
    (await (Close file)) ≫= fun _ =>
    try_catch (await (Link candidate filename))
      (fun error => match error with Code EEXIST => Return tt | _ => Raise error end) ≫= fun _ =>
    readDurable filename)
  (await (Rm staging)).

Definition ensureCredential (value : jsval) : prog jsstr :=
  unavailable (
    filename ← credentialPath value;
    let directory := dirname filename in
    checkAncestors directory ≫= fun _ =>
    await (Mkdir directory 448 (* 0o700 *)) ≫= fun _ =>
    checkDirectory directory ≫= fun _ =>
    found ← try_catch (credential ← readDurable filename; Return (Some credential))
      (fun error => match error with Code ENOENT => Return None | _ => Raise error end);
    match found with Some credential => Return credential | None => install directory filename end).

(** The command line: the stream and the line it writes, and its exit code. *)
Inductive stream := Output | Errors.
Definition credentialStoreCli (args : list jsstr) : prog (stream * jsstr * Z) :=
  try_catch (
    match args with
    | [name; value] =>
        operation ← (if decide (name = js "ensure") then Return ensureCredential
                     else if decide (name = js "read") then Return readCredential
                     else Raise Plain);
        operation (VStr value) ≫= fun _ =>
        Return (Output, js "Credential store ready." ++ [10], 0)
    | _ => Raise Plain
    end)
  (fun _ => Return (Errors, js "Credential store unavailable." ++ [10], 1)).
End program.
End Credential.
