(* ===== verification/CredentialProps.v ===== *)
(** * The credential store: what its programs hold and return

    Weakest preconditions of the programs of [Credential] over a state that a
    caller's own calls advance, and the handles and directories a run releases. *)

From stdpp Require Import gmap.
From S2P Require Import Prelude JsNumber JsString Regex Values Signaling Credential.

Module CredentialProps.
Import Credential.

(** ** Weakest preconditions

    [wp m s Q]: from [s], every call of [m] is allowed, and whatever possible
    answers the calls get, [m] ends in [Q]. *)
Section wp.
Context {St : Type} (allowed : St -> forall X : Set, call X -> Prop).
Context (possible : forall X : Set, call X -> errno + X -> Prop).
Context (next : St -> forall X : Set, call X -> errno + X -> St).

Fixpoint wp {A} (m : prog A) (s : St) (Q : A + fault -> St -> Prop) : Prop :=
  match m with
  | Return a => Q (inl a) s
  | Raise e => Q (inr e) s
  | Call c k => allowed s _ c /\ forall r, possible _ c r -> wp (k r) (next s _ c r) Q
  end.

Lemma wp_mono {A} (m : prog A) s (Q Q' : A + fault -> St -> Prop) :
  wp m s Q -> (forall o s', Q o s' -> Q' o s') -> wp m s Q'.
Proof. revert s. induction m as [| |X c k IH]; simpl; intros s; [naive_solver..|]. intros [Hc Hk] HQ. split; [done|eauto]. Qed.
Lemma wp_bind {A B} (m : prog A) (f : A -> prog B) s Q :
  wp m s (fun o s' => match o with inl a => wp (f a) s' Q | inr e => Q (inr e) s' end) -> wp (m ≫= f) s Q.
Proof. revert s. induction m as [| |X c k IH]; simpl; intros s; [done..|]. intros [Hc Hk]. split; [done|]. intros r Hr. apply IH; auto. Qed.
Lemma wp_try_catch {A} (m : prog A) h s Q :
  wp m s (fun o s' => match o with inl a => Q (inl a) s' | inr e => wp (h e) s' Q end) -> wp (try_catch m h) s Q.
Proof. revert s. induction m as [| |X c k IH]; simpl; intros s; [done..|]. intros [Hc Hk]. split; [done|auto]. Qed.
Lemma wp_try_finally {A} (m : prog A) f s Q :
  wp m s (fun o s' => wp f s' (fun o' s'' => match o' with inl _ => Q o s'' | inr e => Q (inr e) s'' end)) ->
  wp (try_finally m f) s Q.
Proof.
  revert s. induction m as [a|e|X c k IH]; simpl; intros s.
  - intros H. apply wp_bind. eapply wp_mono; [exact H|]. by intros [|].
  - intros H. apply wp_bind. eapply wp_mono; [exact H|]. by intros [|].
  - intros [Hc Hk]. split; [done|auto].
Qed.
Lemma wp_await {X : Set} (c : call X) s (Q : X + fault -> St -> Prop) :
  allowed s _ c -> (forall r, possible _ c r -> Q (match r with inl e => inr (Code e) | inr x => inl x end) (next s _ c r)) ->
  wp (await c) s Q.
Proof. intros Hc HQ. split; [done|]. intros [e|x] Hr; exact (HQ _ Hr). Qed.
Lemma wp_raise_when (b : bool) s (Q : unit + fault -> St -> Prop) : (if b then Q (inr Plain) s else Q (inl tt) s) -> wp (raise_when b) s Q.
Proof. by destruct b. Qed.
End wp.

(** ** Handles, staging directories and durability *)

Definition ends {A} (s : resources) (m : prog A) (Q : A + fault -> resources -> Prop) : Prop :=
  wp (fun _ _ _ => True) (fun _ _ _ => True) (@account) m s Q.
Notation "'{{' s '}}' m '{{' Q '}}'" := (ends s m Q) (at level 70, m at next level).

Lemma execution_wp {A} (m : prog A) tr o s Q : execution m tr o -> {{ s }} m {{ Q }} -> Q o (account_all s tr).
Proof. intros H. revert s. induction H; simpl; [done..|]. intros s [_ Hk]. by apply IHexecution, Hk. Qed.

(** [leaves s s']: nothing is held afterwards that was not before. *)
Definition leaves (s s' : resources) : Prop := handles s' ⊆ handles s /\ stagings s' ⊆ stagings s.
Definition synced (directory : path) (s : resources) : Prop := forall p, p `suffix_of` directory -> p ∈ durable s.

#[local] Instance leaves_preorder : PreOrder leaves.
Proof. split; [by intros ?; split|]. intros ??? [] []. split; etrans; eauto. Qed.
(** A program that holds nothing more when it ends, and that returns into [P]
    of the result and the synced directories. *)
Definition frugal {A} (s : resources) (m : prog A) (P : A -> gset path -> Prop) : Prop :=
  {{ s }} m {{ fun o s' => leaves s s' /\ forall a, o = inl a -> P a (durable s') }}.

Implicit Types s : resources.
Lemma frugal_return {A} s (a : A) (P : A -> gset path -> Prop) : P a (durable s) -> frugal s (Return a) P.
Proof. intros HP. split; [done|]. by intros ? [= <-]. Qed.
Lemma frugal_raise {A} s (e : fault) (P : A -> gset path -> Prop) : frugal s (Raise e) P.
Proof. by split. Qed.
Lemma frugal_bind {A B} s (m : prog A) (f : A -> prog B) P P' :
  frugal s m P -> (forall a s', P a (durable s') -> frugal s' (f a) P') -> frugal s (m ≫= f) P'.
Proof.
  intros Hm Hf. apply wp_bind. eapply wp_mono; [exact Hm|].
  intros [a|e] s' [Hl HP]; [|by split].
  eapply wp_mono; [exact (Hf a s' (HP a eq_refl))|]. intros o s'' [Hl' HP']. split; [by etrans|done].
Qed.
Lemma frugal_catch {A} s (m : prog A) h P :
  frugal s m P -> (forall e s', frugal s' (h e) P) -> frugal s (try_catch m h) P.
Proof.
  intros Hm Hh. apply wp_try_catch. eapply wp_mono; [exact Hm|].
  intros [a|e] s' [Hl HP]; [by split|].
  eapply wp_mono; [exact (Hh e s')|]. intros o s'' [Hl' HP']. split; [by etrans|done].
Qed.
Lemma frugal_mono {A} s (m : prog A) (P P' : A -> gset path -> Prop) :
  frugal s m P -> (forall a d, P a d -> P' a d) -> frugal s m P'.
Proof. intros Hm HP. eapply wp_mono; [exact Hm|]. naive_solver. Qed.

(** A call that neither opens, syncs, creates nor removes anything. *)
Lemma frugal_await {X : Set} s (c : call X) :
  (forall r, account s c r = s) -> frugal s (await c) (fun _ d => d = durable s).
Proof. intros Hc. apply wp_await; [done|]. intros r _. by rewrite Hc. Qed.
Lemma frugal_raise_when s (b : bool) : frugal s (raise_when b) (fun _ d => d = durable s).
Proof. destruct b; [apply frugal_raise|by apply frugal_return]. Qed.

(** The handle of an [open] is released by its [finally]. *)
Definition with_handle fd p s : resources :=
  {| handles := <[fd := p]> (handles s); stagings := stagings s; durable := durable s |}.
Lemma released {A} s fd p (m : prog A) P :
  frugal (with_handle fd p s) m P ->
  {{ with_handle fd p s }} try_finally m (await (Close fd)) {{ fun o s' => leaves s s' /\ forall a, o = inl a -> P a (durable s') }}.
Proof.
  intros Hm. apply wp_try_finally. eapply wp_mono; [exact Hm|]. intros o s' [[Hh Hs] HP].
  apply wp_await; [done|]. intros r _. cbn in *.
  assert (delete fd (handles s') ⊆ handles s).
  { etrans; [apply delete_mono, Hh|]. rewrite delete_insert_eq. apply delete_subseteq. }
  destruct r; by split.
Qed.
Lemma frugal_open {A} s p f (body : nat -> prog A) P :
  (forall fd, frugal (with_handle fd p s) (body fd) P) ->
  frugal s (fd ← await (Open p f); try_finally (body fd) (await (Close fd))) P.
Proof.
  intros Hbody. apply wp_bind, wp_await; [done|]. intros [e|fd] _; [by split|].
  exact (released s fd p _ P (Hbody fd)).
Qed.
Lemma frugal_open_then {A B} s p f (body : nat -> prog A) (g : nat -> A -> prog B) P P' :
  (forall fd, frugal (with_handle fd p s) (body fd) P) ->
  (forall fd a s', P a (durable s') -> frugal s' (g fd a) P') ->
  frugal s (fd ← await (Open p f); try_finally (body fd) (await (Close fd)) ≫= g fd) P'.
Proof.
  intros Hbody Hg. apply wp_bind, wp_await; [done|]. intros [e|fd] _; [by split|].
  apply wp_bind. eapply wp_mono; [exact (released s fd p _ P (Hbody fd))|].
  intros [a|e] s' [Hl HP]; [|by split].
  eapply wp_mono; [exact (Hg fd a s' (HP a eq_refl))|]. intros o s'' [Hl' HP']. split; [by etrans|done].
Qed.

(** ** The programs *)

Section programs.
Variables (uid : Z) (cwd : path).

Lemma frugal_lstat_directory s directory :
  frugal s (entry ← await (Lstat directory); raise_when (negb (is_directory entry))) (fun _ _ => True).
Proof. eapply frugal_bind; [by apply frugal_await; intros []|]. intros. eapply frugal_mono; [apply frugal_raise_when|done]. Qed.
Lemma frugal_checkAncestors s (directory : path) : frugal s (checkAncestors directory) (fun _ _ => True).
Proof.
  revert s. induction directory as [|x parent IH]; intros s.
  all: eapply (frugal_bind _ _ _ (fun _ _ => True)); [first [by apply IH|by apply frugal_return]|].
  all: intros _ s' _; apply frugal_catch; [apply frugal_lstat_directory|].
  all: intros [[]| |] s''; first [by apply frugal_raise|by apply frugal_return].
Qed.
Lemma frugal_checkDirectory s (directory : path) : frugal s (checkDirectory uid directory) (fun _ _ => True).
Proof. eapply frugal_bind; [by apply frugal_await; intros []|]. intros. eapply frugal_mono; [apply frugal_raise_when|done]. Qed.

Lemma frugal_readStored s (filename : path) : frugal s (readStored uid filename) (fun _ _ => True).
Proof.
  apply frugal_open. intros fd.
  eapply frugal_bind; [by apply frugal_await; intros []|]. intros entry s1 _.
  eapply frugal_bind; [apply frugal_raise_when|]. intros _ s2 _.
  eapply (frugal_bind _ _ _ (fun _ _ => True)); [by apply wp_await|]. intros content s3 _.
  destruct (token _); first [by apply frugal_raise|by apply frugal_return].
Qed.

Lemma frugal_sync_one s (fd : nat) (p : path) (D : gset path) :
  D ⊆ durable s -> frugal (with_handle fd p s) (await (Sync fd)) (fun _ d => {[ p ]} ∪ D ⊆ d).
Proof.
  intros HD. apply wp_await; [done|]. intros [e|[]] _; [by split|]. cbn. rewrite lookup_insert_eq. split; [done|].
  intros _ _. cbn. set_solver.
Qed.
Lemma frugal_sync s (directory : path) (D : gset path) :
  D ⊆ durable s -> frugal s (syncDirectoryTree directory) (fun _ d => D ⊆ d /\ forall p, p `suffix_of` directory -> p ∈ d).
Proof.
  revert s D. induction directory as [|x parent IH]; intros s D HD; cbn [syncDirectoryTree].
  - apply (frugal_open_then _ _ _ _ _ (fun _ d => {[ [] ]} ∪ D ⊆ d)); [intros; by apply frugal_sync_one|].
    intros _ _ s' Hd. apply frugal_return. split; [set_solver|].
    intros p [k Hk]. symmetry in Hk. apply app_nil in Hk as [_ ->]. set_solver.
  - apply (frugal_open_then _ _ _ _ _ (fun _ d => {[ x :: parent ]} ∪ D ⊆ d)); [intros; by apply frugal_sync_one|].
    intros _ _ s' Hd. eapply frugal_mono; [exact (IH s' _ Hd)|]. intros _ d [Hd' Hp]. split; [set_solver|].
    intros p [[|y k] Hk]; simplify_eq/=; [set_solver|]. apply Hp. by exists k.
Qed.

Lemma frugal_readDurable s (filename : path) :
  frugal s (readDurable uid filename) (fun _ d => forall p, p `suffix_of` dirname filename -> p ∈ d).
Proof.
  eapply frugal_bind; [apply frugal_readStored|]. intros credential s1 _.
  eapply frugal_bind; [by apply (frugal_sync _ _ ∅)|]. intros _ s2 [_ Hp]. by apply frugal_return.
Qed.

Lemma frugal_install s (directory filename : path) :
  frugal s (install uid directory filename) (fun _ d => forall p, p `suffix_of` dirname filename -> p ∈ d).
Proof.
  apply wp_bind, wp_await; [done|]. intros [e|staging] _; [by split|].
  apply wp_try_finally.
  eapply wp_mono with (Q := fun o s' => leaves {| handles := handles s; stagings := {[staging]} ∪ stagings s; durable := durable s |} s'
    /\ forall a : jsstr, o = inl a -> forall p, p `suffix_of` dirname filename -> p ∈ durable s').
  - refine (frugal_open_then _ _ _
      (fun file => bytes ← await (RandomBytes 32); await (WriteFile file (toHex bytes ++ [10])) ≫= fun _ => await (Sync file))
      (fun _ _ => try_catch (await (Link (js "value" :: staging) filename)) _ ≫= fun _ => readDurable uid filename)
      (fun _ _ => True) (fun _ d => forall p : path, p `suffix_of` dirname filename -> p ∈ d) _ _);
      [intros fd|intros fd _ s1 _].
    + eapply (frugal_bind _ _ _ (fun _ _ => True)); [by apply wp_await|]. intros bytes s2 _.
      eapply (frugal_bind _ _ _ (fun _ _ => True)); [by apply wp_await|]. intros _ s3 _.
      apply wp_await; [done|]. intros [e|[]] _; cbn; [done|]. by destruct (handles s3 !! fd).
    + eapply (frugal_bind _ _ _ (fun _ _ => True)).
      * apply frugal_catch; [by apply wp_await|]. intros [[]| |] s2; first [by apply frugal_raise|by apply frugal_return].
      * intros _ s2 _. apply frugal_readDurable.
  - intros o s' [[Hh Hs] HP]. apply wp_await; [done|]. intros r _. cbn in *.
    assert (stagings s' ∖ {[staging]} ⊆ stagings s) by set_solver. destruct r; by split.
Qed.

Lemma frugal_credentialPath s (value : jsval) :
  frugal s (credentialPath cwd value) (fun filename _ => credentialPath cwd value = Return filename).
Proof.
  unfold credentialPath. destruct value; try apply frugal_raise. case_match; [apply frugal_raise|by apply frugal_return].
Qed.
Lemma frugal_ensureCredential s (value : jsval) :
  frugal s (ensureCredential uid cwd value) (fun _ d => exists filename, credentialPath cwd value = Return filename /\
    forall p, p `suffix_of` dirname filename -> p ∈ d).
Proof.
  apply frugal_catch; [|intros; apply frugal_raise].
  eapply frugal_bind; [apply frugal_credentialPath|]. intros filename s1 ->.
  eapply frugal_bind; [apply frugal_checkAncestors|]. intros _ s2 _.
  eapply (frugal_bind _ _ _ (fun _ _ => True)); [by apply wp_await|]. intros _ s3 _.
  eapply frugal_bind; [apply frugal_checkDirectory|]. intros _ s4 _.
  eapply (frugal_bind _ _ _ (fun found d => found <> None -> forall p, p `suffix_of` dirname filename -> p ∈ d)).
  - apply frugal_catch; [|intros [[]| |] s5; first [by apply frugal_raise|by apply frugal_return]].
    eapply frugal_bind; [apply frugal_readDurable|]. intros c s5 Hp. by apply frugal_return.
  - intros [c|] s5 Hp; [apply frugal_return; eauto|].
    eapply frugal_mono; [apply frugal_install|]. eauto.
Qed.
Lemma frugal_readCredential s (value : jsval) : frugal s (readCredential uid cwd value) (fun _ _ => True).
Proof.
  apply frugal_catch; [|intros; apply frugal_raise].
  eapply frugal_bind; [apply frugal_credentialPath|]. intros filename s1 _.
  eapply frugal_bind; [apply frugal_checkAncestors|]. intros _ s2 _.
  eapply frugal_bind; [apply frugal_checkDirectory|]. intros _ s3 _. apply frugal_readStored.
Qed.
End programs.
End CredentialProps.
