(* ===== verification/FileSystem.v ===== *)
(** * The file system under the credential store

    The documented behaviour of the calls of [Credential] over entries, inodes
    and open files: [answers] relates a call to every answer it may get, faults
    and partial effects included, [serve] computes one of them, and [step] lets
    any number of programs share the files. *)

From stdpp Require Import gmap.
From S2P Require Import Prelude JsNumber JsString Values Credential.

Module FileSystem.
Import Credential.

Inductive entry := File (inode : nat) | Other (k : kind).
#[export] Instance entry_eq : EqDecision entry.
Proof. solve_decision. Defined.
Definition kind_of (e : entry) : kind := match e with File _ => Regular | Other k => k end.

(** [opened] maps the [FileHandle]s made so far to what they are open on, or to
    [None] once closed; their identity is never used again. *)
Record fs := { entries : gmap path entry; inodes : gmap nat (list Z); opened : gmap nat (option entry) }.
Definition set_entries g f := {| entries := g; inodes := inodes f; opened := opened f |}.
Definition set_inodes g f := {| entries := entries f; inodes := g; opened := opened f |}.
Definition set_opened g f := {| entries := entries f; inodes := inodes f; opened := g |}.

(** What [open] of an existing entry refuses: a link is not followed, and only
    a directory is opened as one. *)
Definition opens (e : entry) (f : flags) : bool :=
  match f with
  | Reading => negb (bool_decide (kind_of e = Symlink))
  | ReadingDirectory => bool_decide (kind_of e = Directory)
  | Creating _ => false
  end.
Definition within (directory p : path) : bool := bool_decide (directory `suffix_of` p).
Definition is_byte (b : Z) : bool := (0 <=? b) && (b <? 256).

Inductive answers : fs -> forall X : Set, call X -> errno + X -> fs -> Prop :=
| fails f (X : Set) (c : call X) e : answers f X c (inl e) f
| lstat f p e st : entries f !! p = Some e -> st_kind st = kind_of e -> answers f _ (Lstat p) (inr st) f
| open f p fl e h : entries f !! p = Some e -> opens e fl -> opened f !! h = None ->
    answers f _ (Open p fl) (inr h) (set_opened (<[h := Some e]> (opened f)) f)
| create f p mode i h : entries f !! p = None -> inodes f !! i = None -> opened f !! h = None ->
    answers f _ (Open p (Creating mode)) (inr h)
      {| entries := <[p := File i]> (entries f); inodes := <[i := []]> (inodes f); opened := <[h := Some (File i)]> (opened f) |}
| fstat f h e st : opened f !! h = Some (Some e) -> st_kind st = kind_of e ->
    (forall i, e = File i -> st_size st = zlength (default [] (inodes f !! i))) -> answers f _ (Fstat h) (inr st) f
| read_file f h i bytes : opened f !! h = Some (Some (File i)) -> inodes f !! i = Some bytes ->
    answers f _ (ReadFile h) (inr bytes) f
(** A write that fails may have written a part. *)
| write_file f h i bytes part old r : opened f !! h = Some (Some (File i)) -> inodes f !! i = Some old ->
    part `prefix_of` bytes -> (r = inr tt -> part = bytes) ->
    answers f _ (WriteFile h bytes) r (set_inodes (<[i := old ++ part]> (inodes f)) f)
| sync f h e : opened f !! h = Some (Some e) -> answers f _ (Sync h) (inr tt) f
| close f h r : is_Some (opened f !! h) -> answers f _ (Close h) r (set_opened (<[h := None]> (opened f)) f)
(** Ancestors that are missing are made, all of them or, on a fault, some. *)
| mkdir f p mode r g : (forall q, g !! q = entries f !! q \/
      (q `suffix_of` p /\ entries f !! q = None /\ g !! q = Some (Other Directory))) ->
    (r = inr tt -> forall q, q `suffix_of` p -> is_Some (g !! q)) ->
    answers f _ (Mkdir p mode) r (set_entries g f)
| mkdtemp f parent prefix x : entries f !! ((prefix ++ x) :: parent) = None ->
    answers f _ (Mkdtemp parent prefix) (inr ((prefix ++ x) :: parent))
      (set_entries (<[(prefix ++ x) :: parent := Other Directory]> (entries f)) f)
(** [link] does not replace an entry. *)
| link f old new i : entries f !! old = Some (File i) -> entries f !! new = None ->
    answers f _ (Link old new) (inr tt) (set_entries (<[new := File i]> (entries f)) f)
(** [rm] removes what is within the directory, all of it or, on a fault, some. *)
| rm f p r g : (forall q, g !! q = entries f !! q \/ (within p q /\ g !! q = None)) ->
    (r = inr tt -> forall q, within p q -> g !! q = None) ->
    answers f _ (Rm p) r (set_entries g f)
| random f n bytes : length bytes = n -> Forall is_byte bytes -> answers f _ (RandomBytes n) (inr bytes) f.

(** Programs that share the files, one call at a time in any order. *)
Inductive step : fs * list (prog jsstr) -> fs * list (prog jsstr) -> Prop :=
| step_call f f' ms i (X : Set) (c : call X) k r :
    ms !! i = Some (Call c k) -> answers f X c r f' -> step (f, ms) (f', <[i := k r]> ms).

(** ** One answer, computed *)

Definition fresh_in {A} (g : gmap nat A) : nat := S (foldr max O (map fst (map_to_list g))).
Definition stat_of (e : entry) (f : fs) : stat :=
  {| st_kind := kind_of e; st_uid := 0; st_mode := match e with File _ => 384 | Other _ => 448 end;
     st_size := match e with File i => zlength (default [] (inodes f !! i)) | Other _ => 0 end |}.
Fixpoint ancestors (p : path) : list path := p :: match p with [] => [] | _ :: q => ancestors q end.
Definition made (p : path) (g : gmap path entry) : gmap path entry :=
  foldr (fun q g => match g !! q with Some _ => g | None => <[q := Other Directory]> g end) g (ancestors p).
Definition serve (f : fs) {X : Set} (c : call X) : (errno + X) * fs :=
  match c in call X return (errno + X) * fs with
  | Lstat p => (match entries f !! p with Some e => inr (stat_of e f) | None => inl ENOENT end, f)
  | Open p fl =>
      let h := fresh_in (opened f) in
      match fl, entries f !! p with
      | Creating _, None =>
          let i := fresh_in (inodes f) in
          (inr h, {| entries := <[p := File i]> (entries f); inodes := <[i := []]> (inodes f); opened := <[h := Some (File i)]> (opened f) |})
      | Creating _, Some _ => (inl EEXIST, f)
      | _, Some e => if opens e fl then (inr h, set_opened (<[h := Some e]> (opened f)) f) else (inl ELOOP, f)
      | _, None => (inl ENOENT, f)
      end
  | Fstat h => (match opened f !! h with Some (Some e) => inr (stat_of e f) | _ => inl EBADF end, f)
  | ReadFile h => (match opened f !! h with
      | Some (Some (File i)) => match inodes f !! i with Some bytes => inr bytes | None => inl EBADF end
      | _ => inl EBADF end, f)
  | WriteFile h bytes => match opened f !! h with
      | Some (Some (File i)) => match inodes f !! i with
          | Some old => (inr tt, set_inodes (<[i := old ++ bytes]> (inodes f)) f)
          | None => (inl EBADF, f) end
      | _ => (inl EBADF, f) end
  | Sync h => (match opened f !! h with Some (Some _) => inr tt | _ => inl EBADF end, f)
  | Close h => match opened f !! h with Some _ => (inr tt, set_opened (<[h := None]> (opened f)) f) | None => (inl EBADF, f) end
  | Mkdir p _ => (inr tt, set_entries (made p (entries f)) f)
  | Mkdtemp parent prefix =>
      let p := (prefix ++ js "a1B2c" ++ [97 + Z.of_nat (size (entries f))]) :: parent in
      match entries f !! p with
      | None => (inr p, set_entries (<[p := Other Directory]> (entries f)) f)
      | Some _ => (inl EEXIST, f) end
  | Link old new => match entries f !! old, entries f !! new with
      | Some (File i), None => (inr tt, set_entries (<[new := File i]> (entries f)) f)
      | Some (File _), Some _ => (inl EEXIST, f)
      | _, _ => (inl ENOENT, f) end
  | Rm p => (inr tt, set_entries (filter (fun '(q, _) => negb (within p q)) (entries f)) f)
  | RandomBytes n => (inr (repeat (Z.of_nat (size (inodes f)) mod 256) n), f)
  end.

(** A program run alone, at most [fuel] calls. *)
Fixpoint play {A} (fuel : nat) (f : fs) (m : prog A) : option (list event * (A + fault) * fs) :=
  match m, fuel with
  | Return a, _ => Some ([], inl a, f)
  | Raise e, _ => Some ([], inr e, f)
  | Call c k, S fuel =>
      let '(r, f') := serve f c in
      '(tr, o, f'') ← play fuel f' (k r);
      Some (Did c r :: tr, o, f'')
  | Call _ _, O => None
  end.
(** Programs run together: the schedule names who calls next. *)
Definition serve_next (i : nat) (s : fs * list (prog jsstr)) : option (fs * list (prog jsstr)) :=
  match snd s !! i with
  | Some (Call c k) => let '(r, f') := serve (fst s) c in Some (f', <[i := k r]> (snd s))
  | _ => None
  end.
Definition schedule (turns : list nat) (s : fs * list (prog jsstr)) : option (fs * list (prog jsstr)) :=
  foldl (fun s i => s ≫= serve_next i) (Some s) turns.

(** ** What is computed is an answer *)

Lemma fresh_in_fresh {A} (g : gmap nat A) : g !! fresh_in g = None.
Proof.
  assert (forall l n, n ∈ l -> (n <= foldr max O l)%nat) as Hle.
  { induction l as [|m l IH]; intros n; [set_solver|]. intros [->|Hn]%elem_of_cons; simpl; [lia|]. specialize (IH _ Hn). lia. }
  destruct (g !! fresh_in g) as [a|] eqn:E; [|done]. exfalso.
  apply elem_of_map_to_list, (list_elem_of_fmap_2 fst) in E.
  assert (fresh_in g <= foldr max O (map fst (map_to_list g)))%nat by (apply Hle, E). unfold fresh_in in H. lia.
Qed.

Lemma made_lookup p g q :
  made p g !! q = g !! q \/ (q `suffix_of` p /\ g !! q = None /\ made p g !! q = Some (Other Directory)).
Proof.
  unfold made. assert (forall r, r ∈ ancestors p -> r `suffix_of` p) as Hp.
  { induction p as [|x p IH]; simpl; intros r; rewrite elem_of_cons; [set_solver|]. intros [->|Hr]; [done|]. by apply suffix_cons_r, IH. }
  induction (ancestors p) as [|r l IH]; simpl; [by left|].
  destruct (foldr _ _ _ !! r) eqn:E; [apply IH; set_solver|].
  destruct (decide (q = r)) as [->|Hq]; [|rewrite lookup_insert_ne by done; apply IH; set_solver].
  right. rewrite lookup_insert_eq. repeat split; [set_solver|].
  destruct IH as [IH|(_ & IH & IH')]; [set_solver|congruence|congruence].
Qed.
Lemma made_is_Some p g q : q `suffix_of` p -> is_Some (made p g !! q).
Proof.
  unfold made. assert (q `suffix_of` p -> q ∈ ancestors p) as Hp.
  { induction p as [|x p IH]; simpl; intros Hq; [apply suffix_nil_inv in Hq; set_solver|].
    destruct Hq as [[|y k] Hk]; simplify_eq/=; [set_solver|]. apply elem_of_cons. right. apply IH. by exists k. }
  intros Hq%Hp. clear Hp. induction (ancestors p) as [|r l IH]; simpl; [set_solver|].
  destruct (foldr _ _ _ !! r) eqn:E; apply elem_of_cons in Hq as [->|Hq]; [by rewrite E|by apply IH|by rewrite lookup_insert_eq|].
  destruct (decide (r = q)) as [->|]; [by rewrite lookup_insert_eq|]. rewrite lookup_insert_ne by done. by apply IH.
Qed.

Lemma serve_answers f (X : Set) (c : call X) r f' : serve f c = (r, f') -> answers f X c r f'.
Proof.
  destruct c; cbn; intros H; repeat (case_match; simplify_eq/=).
  all: try (simplify_eq/=; by constructor).
  all: try (econstructor; eauto using fresh_in_fresh; done).
  - apply (fstat _ _ e); [done..|]. by intros i ->.
  - simplify_eq. apply mkdir; [intros; apply made_lookup|intros; by apply made_is_Some].
  - simplify_eq. apply rm; [|intros _]; intros q.
    + cbn. rewrite map_lookup_filter. destruct (entries f !! q) eqn:E; [|by left]. cbn.
      case_guard; [by left|right]. destruct (within p q); naive_solver.
    + intros Hq. apply map_lookup_filter_None. right. intros e He. simpl. destruct (within p q); naive_solver.
  - simplify_eq. apply random; [apply repeat_length|]. apply Forall_forall. intros b ->%list_elem_of_In%repeat_spec.
    unfold is_byte. pose proof (Z.mod_pos_bound (Z.of_nat (size (inodes f'))) 256 eq_refl). apply Is_true_true. lia.
Qed.

Lemma play_execution {A} fuel f (m : prog A) tr o f' : play fuel f m = Some (tr, o, f') -> execution m tr o.
Proof.
  revert f m tr o f'. induction fuel as [|fuel IH]; intros f [a|e|X c k] tr o f'; cbn; intros H; simplify_eq/=; try constructor.
  destruct (serve f c) as [r f1]. destruct (play fuel f1 (k r)) as [[[tr' o'] f2]|] eqn:E; simplify_eq/=.
  constructor. by eapply IH.
Qed.
Lemma schedule_steps turns s s' : schedule turns s = Some s' -> rtc step s s'.
Proof.
  unfold schedule. revert s. induction turns as [|i turns IH]; simpl; intros s H; [by simplify_eq|].
  destruct (serve_next i s) as [s1|] eqn:E.
  - eapply rtc_l; [|by apply IH]. destruct s as [f ms]. unfold serve_next in E. simpl in E.
    destruct (ms !! i) as [[| |X c k]|] eqn:Hi; simplify_eq. destruct (serve f c) as [r f'] eqn:Hs. simplify_eq.
    eapply step_call; [done|]. by apply serve_answers.
  - exfalso. clear IH. induction turns; simpl in H; [done|auto].
Qed.
End FileSystem.
