(* ===== verification/CredentialRace.v ===== *)
(** * The credential store: concurrent callers

    Any number of callers initialise or read one store, their calls interleaved
    in any order and failing at any point: what each of them knows of the files,
    that no call of another caller invalidates it, and that those that return
    return the same credential. *)

From stdpp Require Import gmap.
From S2P Require Import Prelude JsNumber JsString Regex Values Signaling Credential CredentialProps FileSystem.

Module CredentialRace.
Import Credential CredentialProps FileSystem.

(** A whole credential file. *)
Definition complete (bytes : list Z) : Prop :=
  exists key, length key = 32%nat /\ Forall is_byte key /\ bytes = toHex key ++ [10].

(** ** What a caller knows *)

Inductive writer :=
| Idle
| Staged (staging : path)
| Filling (staging : path) (h : nat) (** the candidate is open and empty *)
| Torn (staging : path) (** its write failed *)
| Filled (staging : path) (bytes : list Z).
Inductive reader := Shut | Reads (h : nat) | Content (bytes : list Z).
Record caller := { writes : writer; reads : reader }.
Definition staging_of (w : writer) : option path :=
  match w with Idle => None | Staged s | Filling s _ | Torn s | Filled s _ => Some s end.
Definition candidate_of (s : path) : path := js "value" :: s.

Section store.
Variable dest : path.

Definition permitted (l : caller) (X : Set) (c : call X) : Prop :=
  match c with
  | Open p Reading => p = dest
  | Open p (Creating _) => exists s, writes l = Staged s /\ p = candidate_of s
  | ReadFile h => reads l = Reads h
  | WriteFile h bytes => (exists s, writes l = Filling s h) /\ complete bytes
  | Mkdtemp parent _ => writes l = Idle /\ parent = dirname dest
  | Link old new => exists s bytes, writes l = Filled s bytes /\ old = candidate_of s /\ new = dest
  | Rm p => staging_of (writes l) = Some p
  | _ => True
  end.
Definition possible (X : Set) (c : call X) : errno + X -> Prop :=
  match c with
  | RandomBytes n => fun r => forall bytes, r = inr bytes -> length bytes = n /\ Forall is_byte bytes
  | _ => fun _ => True
  end.
Definition advance (l : caller) (X : Set) (c : call X) : errno + X -> caller :=
  match c with
  | Open _ Reading => fun r => match r with inr h => {| writes := writes l; reads := Reads h |} | inl _ => l end
  | Open _ (Creating _) => fun r => match r, writes l with
      | inr h, Staged s => {| writes := Filling s h; reads := reads l |}
      | _, _ => l end
  | ReadFile _ => fun r => match r with inr bytes => {| writes := writes l; reads := Content bytes |} | inl _ => l end
  | WriteFile _ bytes => fun r => match r, writes l with
      | inr _, Filling s _ => {| writes := Filled s bytes; reads := reads l |}
      | inl _, Filling s _ => {| writes := Torn s; reads := reads l |}
      | _, _ => l end
  | Mkdtemp _ _ => fun r => match r with inr s => {| writes := Staged s; reads := reads l |} | inl _ => l end
  | Rm _ => fun _ => {| writes := Idle; reads := reads l |}
  | _ => fun _ => l
  end.
Definition carries {A} (l : caller) (m : prog A) (Q : A + fault -> caller -> Prop) : Prop :=
  wp permitted possible advance m l Q.

(** What a caller returns is the credential in the content it read. *)
Definition honest (o : jsstr + fault) (l : caller) : Prop :=
  forall v, o = inl v -> exists bytes, reads l = Content bytes /\ token (Signaling.utf8_lossy bytes) = Some v.

(** ** The programs follow the protocol *)

(** A program that leaves what its caller knows as it was. *)
Definition idle {A} (m : prog A) : Prop := forall l, carries l m (fun _ l' => l' = l).

Lemma idle_return {A} (a : A) : idle (Return a).
Proof. done. Qed.
Lemma idle_raise {A} e : idle (Raise e : prog A).
Proof. done. Qed.
Lemma idle_await {X : Set} (c : call X) :
  (forall l, permitted l X c) -> (forall l r, advance l X c r = l) -> idle (await c).
Proof. intros Hp Ha l. apply wp_await; [apply Hp|]. intros. apply Ha. Qed.
Lemma idle_bind {A B} (m : prog A) (f : A -> prog B) : idle m -> (forall a, idle (f a)) -> idle (m ≫= f).
Proof. intros Hm Hf l. apply wp_bind. eapply wp_mono; [apply Hm|]. intros [a|e] l' ->; [apply Hf|done]. Qed.
Lemma idle_catch {A} (m : prog A) h : idle m -> (forall e, idle (h e)) -> idle (try_catch m h).
Proof. intros Hm Hh l. apply wp_try_catch. eapply wp_mono; [apply Hm|]. intros [a|e] l' ->; [done|apply Hh]. Qed.
Lemma idle_finally {A} (m : prog A) f : idle m -> idle f -> idle (try_finally m f).
Proof.
  intros Hm Hf l. apply wp_try_finally. eapply wp_mono; [apply Hm|]. intros o l' ->.
  eapply wp_mono; [apply Hf|]. by intros [] l' ->.
Qed.
Lemma idle_raise_when (b : bool) : idle (raise_when b).
Proof. by destruct b. Qed.
Create HintDb idle.
#[local] Hint Resolve idle_return idle_raise idle_bind idle_catch idle_finally idle_raise_when : idle.
#[local] Hint Extern 1 (idle (await _)) => (apply idle_await; done) : idle.
#[local] Hint Extern 2 (idle (match ?x with _ => _ end)) => (destruct x) : idle.

Lemma idle_checkAncestors (directory : path) : idle (checkAncestors directory).
Proof. induction directory; cbn [checkAncestors]; eauto 10 with idle. Qed.
Lemma idle_checkDirectory uid (directory : path) : idle (checkDirectory uid directory).
Proof. unfold checkDirectory. eauto with idle. Qed.
Lemma idle_syncDirectoryTree (directory : path) : idle (syncDirectoryTree directory).
Proof. induction directory; cbn [syncDirectoryTree]; eauto 10 with idle. Qed.
Lemma idle_credentialPath cwd value : idle (credentialPath cwd value).
Proof. unfold credentialPath. destruct value; eauto with idle. Qed.
#[local] Hint Resolve idle_checkAncestors idle_checkDirectory idle_syncDirectoryTree idle_credentialPath : idle.

(** The end of a program that leaves the writer at [w]. *)
Definition until (w : writer) (o : jsstr + fault) (l : caller) : Prop := writes l = w /\ honest o l.
Lemma until_raise w e l : writes l = w -> until w (inr e) l.
Proof. by split. Qed.
#[local] Hint Resolve until_raise : idle.
Lemma after_idle {A B} l (m : prog A) (f : A -> prog B) Q :
  idle m -> (forall e, Q (inr e) l) -> (forall a, carries l (f a) Q) -> carries l (m ≫= f) Q.
Proof. intros Hm He Hf. apply wp_bind. eapply wp_mono; [apply Hm|]. intros [a|e] l' ->; [apply Hf|apply He]. Qed.
Lemma before_idle (l : caller) w (m : prog jsstr) f :
  carries l m (until w) -> idle f -> carries l (try_finally m f) (until w).
Proof.
  intros Hm Hf. apply wp_try_finally. eapply wp_mono; [exact Hm|]. intros o l' [Hw Ho].
  eapply wp_mono; [apply Hf|]. intros [] l'' ->; by split.
Qed.

Lemma carries_readStored uid l : carries l (readStored uid dest) (until (writes l)).
Proof.
  apply wp_bind, wp_await; [done|]. intros [e|h] _; [by split|]. cbn [advance].
  apply before_idle; [|eauto with idle].
  apply after_idle; [eauto with idle|by split|]. intros entry.
  apply after_idle; [eauto with idle|by split|]. intros _.
  apply wp_bind, wp_await; [done|]. intros [e|bytes] _; [by split|].
  destruct (token _) as [v|] eqn:Hv; [|by split]. split; [done|]. intros ? [= <-]. by exists bytes.
Qed.
Lemma carries_readDurable uid l : carries l (readDurable uid dest) (until (writes l)).
Proof.
  apply wp_bind. eapply wp_mono; [apply carries_readStored|]. intros [v|e] l' [Hw Hv]; [|by split].
  apply after_idle; [eauto with idle|by split|]. intros _. by split.
Qed.

Lemma carries_install uid l : writes l = Idle -> carries l (install uid (dirname dest) dest) (until Idle).
Proof.
  intros Hw. apply wp_bind, wp_await; [done|]. intros [e|staging] _; [by split|]. cbn [advance].
  apply wp_try_finally. eapply wp_mono with (Q := fun o l' => staging_of (writes l') = Some staging /\ honest o l').
  - apply wp_bind, wp_await; [by exists staging|]. intros [e|h] _; [by split|]. cbn [advance].
    apply wp_bind, wp_try_finally. apply wp_bind, wp_await; [done|].
    intros [e|key] Hk; [apply wp_await; [done|]; by intros [] _; split|].
    apply wp_bind, wp_await.
    { split; [by exists staging|]. exists key. destruct (Hk key eq_refl) as [Hlen Hbytes]. auto. }
    intros [e|[]] _; [apply wp_await; [done|]; by intros [] _; split|].
    apply wp_await; [done|]. intros [e|[]] _; (apply wp_await; [done|]); intros [e'|[]] _; try by split.
    cbn [advance writes reads]. set (l2 := {| writes := _; reads := _ |}).
    assert (carries l2 (readDurable uid dest) (fun o l' => staging_of (writes l') = Some staging /\ honest o l')).
    { eapply wp_mono; [apply carries_readDurable|]. by intros o l' [-> ?]. }
    apply wp_bind, wp_try_catch, wp_await; [by do 2 eexists|]. by intros [[]|[]] _.
  - intros o l' [Hs Ho]. apply wp_await; [done|]. by intros [] _; split.
Qed.

Lemma carries_ensureCredential uid cwd s l : resolve cwd s = dest -> writes l = Idle ->
  carries l (ensureCredential uid cwd (VStr s)) honest.
Proof.
  intros Hd Hw. apply wp_try_catch. eapply wp_mono with (Q := until Idle); [|by intros [] l' [??]].
  cbn [credentialPath]. case_match; [by split|]. rewrite Hd.
  change (Return dest ≫= ?f) with (f dest). cbn beta zeta.
  apply after_idle; [eauto with idle|by split|]. intros _.
  apply after_idle; [eauto with idle|by split|]. intros _.
  apply after_idle; [eauto with idle|by split|]. intros _.
  apply wp_bind, wp_try_catch, wp_bind. eapply wp_mono; [apply carries_readDurable|].
  intros [v|e] l' [Hw' Hv]; rewrite Hw in Hw'.
  - by split; [|].
  - destruct e as [[]| |]; try (by split). by apply carries_install.
Qed.
Lemma carries_readCredential uid cwd s l : resolve cwd s = dest -> carries l (readCredential uid cwd (VStr s)) honest.
Proof.
  intros Hd. apply wp_try_catch. eapply wp_mono with (Q := until (writes l)); [|by intros [] l' [??]].
  cbn [credentialPath]. case_match; [by split|]. rewrite Hd.
  change (Return dest ≫= ?f) with (f dest). cbn beta zeta.
  apply after_idle; [eauto with idle|by split|]. intros _.
  apply after_idle; [eauto with idle|by split|]. intros _. apply carries_readStored.
Qed.

(** ** What a caller knows is true of the files *)

(** Every entry of a file has its inode. *)
Definition wf (f : fs) : Prop := forall p i, entries f !! p = Some (File i) -> is_Some (inodes f !! i).
Definition staged (f : fs) (s : path) : Prop := (exists x, s = x :: dirname dest) /\ entries f !! s = Some (Other Directory).
Definition only (f : fs) (i : nat) (p : path) : Prop := forall q, entries f !! q = Some (File i) <-> q = p.
Definition knows_writes (f : fs) (w : writer) : Prop :=
  (forall s, staging_of w = Some s -> staged f s) /\
  match w with
  | Filling s h => exists i e, opened f !! h = Some e /\ (e = None \/ e = Some (File i)) /\
      inodes f !! i = Some [] /\ only f i (candidate_of s)
  | Filled s bytes => complete bytes /\ exists i, entries f !! candidate_of s = Some (File i) /\ inodes f !! i = Some bytes
  | _ => True
  end.
Definition knows_reads (f : fs) (r : reader) : Prop :=
  match r with
  | Shut => True
  | Reads h => exists e, opened f !! h = Some e /\ forall i, e = Some (File i) -> entries f !! dest = Some (File i)
  | Content bytes => exists i, entries f !! dest = Some (File i) /\ inodes f !! i = Some bytes
  end.
Definition knows (f : fs) (l : caller) : Prop := knows_writes f (writes l) /\ knows_reads f (reads l).

(** A change that leaves alone the published file, and the staging directory
    [o] with its candidate. *)
Record keeps (o : option path) (f f' : fs) : Prop := {
  keeps_dest : forall i, entries f !! dest = Some (File i) -> entries f' !! dest = Some (File i);
  keeps_staging : forall s q e, o = Some s -> q = s \/ q = candidate_of s -> entries f !! q = Some e -> entries f' !! q = Some e;
  keeps_inodes : forall i bytes, inodes f !! i = Some bytes ->
    entries f !! dest = Some (File i) \/ (exists s, o = Some s /\ entries f !! candidate_of s = Some (File i)) ->
    inodes f' !! i = Some bytes;
  keeps_opened : forall h e, opened f !! h = Some e -> opened f' !! h = Some e \/ opened f' !! h = Some None;
  keeps_links : forall p i, entries f' !! p = Some (File i) -> entries f !! p = Some (File i) \/ inodes f !! i = None \/
    exists q, entries f !! q = Some (File i) /\ o <> Some (tail q) }.

Lemma keeps_refl o f : keeps o f f.
Proof. split; eauto. Qed.

Lemma keeps_writes w f f' : keeps (staging_of w) f f' -> knows_writes f w -> knows_writes f' w.
Proof.
  intros [Hd Hs Hi Ho Hl] [Hst Hw]. split.
  { intros s Hws. destruct (Hst s Hws) as [Hx He]. split; [done|]. eapply Hs; eauto. }
  destruct w as [|s|s h|s|s bytes]; try done; simpl in *.
  - destruct Hw as (i & e & Hh & He & Hin & Honly).
    assert (entries f !! candidate_of s = Some (File i)) as Hc by (by apply Honly).
    assert (exists e', opened f' !! h = Some e' /\ (e' = None \/ e' = Some (File i))) as (e' & Hh' & He').
    { destruct (Ho _ _ Hh) as [Hh'|Hh']; eauto. }
    exists i, e'. split_and!; [done|done|by apply Hi; eauto|].
    intros q. split; [|intros ->; eapply Hs; eauto].
    intros [Hq|[Hq|(q' & Hq & Hne)]]%Hl; [by apply Honly|congruence|].
    apply Honly in Hq as ->. done.
  - destruct Hw as (Hc & i & He & Hin). split; [done|]. exists i. split; [eapply Hs; eauto|]. apply Hi; eauto.
Qed.
Lemma keeps_reads o r f f' : keeps o f f' -> knows_reads f r -> knows_reads f' r.
Proof.
  intros [Hd Hs Hi Ho Hl]. destruct r as [|h|bytes]; simpl; [done|..].
  - intros (e & Hh & He). destruct (Ho _ _ Hh) as [Hh'|Hh']; [exists e|exists None]; split; [done|by auto|done|done].
  - intros (i & He & Hin). exists i. auto.
Qed.

Lemma suffix_eq {A} (l k : list A) : l `suffix_of` k -> (length k <= length l)%nat -> l = k.
Proof. intros [[|x m] ->]; [done|]. simpl. rewrite length_app. lia. Qed.

Lemma keeps_knows f f' l : knows f l -> (forall o, keeps o f f') -> knows f' l.
Proof. intros [Hw Hr] Hk. split; [by apply (keeps_writes _ f)|by apply (keeps_reads None _ f)]. Qed.

(** Entries and inodes are only added. *)
Lemma keeps_more o f f' :
  (forall q e, entries f !! q = Some e -> entries f' !! q = Some e) ->
  (forall i bytes, inodes f !! i = Some bytes -> inodes f' !! i = Some bytes) ->
  (forall h e, opened f !! h = Some e -> opened f' !! h = Some e \/ opened f' !! h = Some None) ->
  (forall p i, entries f' !! p = Some (File i) -> entries f !! p = Some (File i) \/ inodes f !! i = None \/
    exists q, entries f !! q = Some (File i) /\ o <> Some (tail q)) ->
  keeps o f f'.
Proof. intros He Hi Ho Hl. split; eauto. Qed.
Lemma insert_more {K A} `{Countable K} (m : gmap K A) k a : m !! k = None -> forall q e, m !! q = Some e -> <[k := a]> m !! q = Some e.
Proof. intros Hk q e Hq. rewrite lookup_insert_ne; congruence. Qed.

Lemma keeps_open o f h e : opened f !! h = None -> keeps o f (set_opened (<[h := e]> (opened f)) f).
Proof. intros Hh. apply keeps_more; cbn; auto. intros; left. by apply insert_more. Qed.
Lemma keeps_close o f h : keeps o f (set_opened (<[h := None]> (opened f)) f).
Proof.
  apply keeps_more; cbn; auto. intros h' e He.
  destruct (decide (h' = h)) as [->|]; [right; apply lookup_insert_eq|left; by rewrite lookup_insert_ne].
Qed.
Lemma keeps_mkdir o f g p :
  (forall q, g !! q = entries f !! q \/ (q `suffix_of` p /\ entries f !! q = None /\ g !! q = Some (Other Directory))) ->
  keeps o f (set_entries g f).
Proof.
  intros H. apply keeps_more; cbn; auto.
  - intros q e Hq. destruct (H q) as [->|(_ & Hn & _)]; congruence.
  - intros q i Hq. destruct (H q) as [<-|(_ & Hn & Hm)]; [auto|congruence].
Qed.

(** The candidate of a caller is neither the published file nor the candidate
    of another. *)
Lemma candidate_not_dest s : (exists x, s = x :: dirname dest) -> candidate_of s <> dest.
Proof. intros [x ->] H. apply (f_equal length) in H. destruct dest; simpl in H; lia. Qed.
Lemma dest_not_within f s i : staged f s -> entries f !! dest = Some (File i) -> ~ within s dest.
Proof.
  intros [[x Hx] Hs] He Hin. apply bool_decide_unpack in Hin.
  apply suffix_eq in Hin as ->; [congruence|]. rewrite Hx. destruct dest; simpl; lia.
Qed.
Lemma staged_not_within f s s' q : staged f s -> staged f s' -> s <> s' -> q = s' \/ q = candidate_of s' -> ~ within s q.
Proof.
  intros [[x Hx] Hs] [[x' Hx'] Hs'] Hne Hq Hin. apply bool_decide_unpack in Hin.
  destruct Hq as [->| ->].
  - apply suffix_eq in Hin; [congruence|]. by rewrite Hx, Hx'.
  - destruct Hin as [[|y k] Hk].
    + apply (f_equal length) in Hk. rewrite Hx, Hx' in Hk. simpl in Hk. lia.
    + injection Hk as _ Hk. apply Hne, suffix_eq; [by exists k|]. by rewrite Hx, Hx'.
Qed.

Section calls.
Context (f : fs) (l : caller) (Hwf : wf f) (Hl : knows f l).

(** A call that a caller is permitted keeps what is not its own. *)
Lemma call_keeps f' X (c : call X) r o :
  answers f X c r f' -> permitted l X c ->
  (forall s, o = Some s -> staged f s /\ staging_of (writes l) <> Some s) -> keeps o f f'.
Proof.
  intros Ha Hp Ho. destruct Hl as [[Hst Hw] Hr]. destruct Ha; try apply keeps_refl.
  - by apply keeps_open.
  - apply keeps_more; cbn; eauto using insert_more. intros q i'.
    destruct (decide (q = p)) as [->|]; [rewrite lookup_insert_eq; naive_solver|rewrite lookup_insert_ne by done; auto].
  - destruct Hp as [[s Hs] _]. rewrite Hs in *. destruct Hw as (j & e & Hh & He & Hj & Honly).
    assert (j = i) as -> by (destruct He; congruence). specialize (Hst s eq_refl).
    split; cbn; eauto. intros i' bytes' Hi' Hd. rewrite lookup_insert_ne; [done|]. intros <-.
    destruct Hd as [Hd%Honly|(s' & -> & Hd%Honly)].
    + symmetry in Hd. by apply (candidate_not_dest s) in Hd; [|apply Hst].
    + simplify_eq. by destruct (Ho _ eq_refl).
  - apply keeps_close.
  - by eapply keeps_mkdir.
  - apply keeps_more; cbn; eauto using insert_more. intros q i.
    destruct (decide (q = (prefix0 ++ x) :: parent)) as [->|]; [rewrite lookup_insert_eq; naive_solver|rewrite lookup_insert_ne by done; auto].
  - destruct Hp as (s & bytes & Hs & -> & ->). apply keeps_more; cbn; eauto using insert_more. intros q i'.
    destruct (decide (q = dest)) as [->|]; [rewrite lookup_insert_eq|rewrite lookup_insert_ne by done; auto].
    intros [= <-]. right. right. exists (candidate_of s). split; [done|]. intros ->. cbn in Ho.
    destruct (Ho s eq_refl) as [_ Hne]. by rewrite Hs in Hne.
  - pose proof (Hst p Hp) as Hsp.
    split; cbn; eauto.
    + intros i Hi. destruct (H dest) as [->|[Hin _]]; [done|]. by apply (dest_not_within f p i) in Hin.
    + intros s q e -> Hq He. destruct (H q) as [->|[Hin _]]; [done|]. destruct (Ho s eq_refl) as [Hss Hne].
      apply (staged_not_within f p s) in Hin; [done..|congruence|done].
    + intros q i Hq. destruct (H q) as [<-|[_ Hn]]; [auto|congruence].
Qed.

(** What the caller knows after its own call. *)
Lemma call_knows f' X (c : call X) r :
  answers f X c r f' -> permitted l X c -> knows f' (advance l X c r).
Proof.
  intros Ha Hp. assert (knows_reads f' (reads l)) as Hr'.
  { destruct Hl as [_ Hr]. eapply keeps_reads; [|exact Hr]. by eapply (call_keeps _ _ _ _ None). }
  pose proof Hl as [[Hst Hw] Hr]. destruct Ha; cbn [advance].
  - destruct c; cbn [advance]; try done; try (by split).
    + by destruct f0.
    + destruct (writes l); try done; by split.
  - done.
  - assert (knows (set_opened (<[h := Some e]> (opened f)) f) l) by (apply (keeps_knows f); [done|intros; by apply keeps_open]).
    destruct fl; try done. simpl in Hp. subst p. split; [by apply H2|]. exists (Some e). cbn. rewrite lookup_insert_eq.
    split; [done|]. by intros i [= ->].
  - destruct Hp as (s & Hs & ->). rewrite Hs in *. specialize (Hst s eq_refl) as [Hx Hd]. split; [|done]. split; cbn.
    { intros ? [= <-]. split; [done|]. cbn. by apply insert_more. }
    exists i, (Some (File i)). rewrite !lookup_insert_eq. split_and!; [done|by right|done|].
    intros q. cbn. destruct (decide (q = candidate_of s)) as [->|Hq]; [by rewrite lookup_insert_eq|].
    rewrite lookup_insert_ne by done. split; [|done]. intros Hf. apply Hwf in Hf as [??]. congruence.
  - done.
  - split; [done|]. rewrite Hp in Hr. destruct Hr as (e & He & Hd). exists i. split; [|done]. apply Hd. congruence.
  - destruct Hp as [[s Hs] Hc]. rewrite Hs in *. specialize (Hst s eq_refl) as Hsp.
    destruct Hw as (j & e & Hh & He & Hj & Honly).
    assert (j = i) as -> by (destruct He; congruence). assert (old = []) as -> by congruence.
    destruct r as [e'|[]]; (split; [|done]); (split; [by intros ? [= <-]|]); cbn; [done|].
    rewrite (H2 eq_refl). split; [done|]. exists i. rewrite lookup_insert_eq. split; [by apply Honly|done].
  - done.
  - apply (keeps_knows f); [done|intros; apply keeps_close].
  - apply (keeps_knows f); [done|intros; by eapply keeps_mkdir].
  - destruct Hp as [Hi ->]. split; [|done]. split; [|done]. cbn. intros ? [= <-]. split; [by eexists|].
    apply lookup_insert_eq.
  - destruct Hp as (s & bytes & Hs & -> & ->). split; [|done]. rewrite Hs in *. destruct (Hst s eq_refl) as [Hx Hd]. split; cbn.
    + intros ? [= <-]. split; [done|]. cbn. by apply insert_more.
    + destruct Hw as (Hc & j & Hj & Hb). split; [done|]. exists j. split; [by apply insert_more|done].
  - by split.
  - done.
Qed.

(** What a call changes of the published file: nothing once there is one, and
    what appears is complete. *)
Lemma call_publishes f' X (c : call X) r i :
  answers f X c r f' -> permitted l X c -> entries f' !! dest = Some (File i) ->
  entries f !! dest = Some (File i) \/ exists bytes, inodes f' !! i = Some bytes /\ complete bytes.
Proof.
  intros Ha Hp. destruct Hl as [[Hst Hw] Hr]. destruct Ha; cbn; auto.
  - destruct Hp as (s & Hs & ->). rewrite Hs in *. rewrite lookup_insert_ne; [auto|].
    apply candidate_not_dest, Hst. done.
  - destruct (H dest) as [->|(_ & _ & ->)]; [auto|done].
  - destruct Hp as [_ ->]. destruct (decide ((prefix0 ++ x) :: dirname dest = dest)) as [->|];
      [by rewrite lookup_insert_eq|rewrite lookup_insert_ne by done; auto].
  - destruct Hp as (s & bytes & Hs & -> & ->). rewrite lookup_insert_eq. intros [= <-]. right. rewrite Hs in Hw.
    destruct Hw as (Hc & j & Hj & Hb). exists bytes. split; [congruence|done].
  - destruct (H dest) as [->|(_ & ->)]; [auto|done].
Qed.
Lemma call_wf f' X (c : call X) r : answers f X c r f' -> wf f'.
Proof.
  intros Ha. destruct Ha; try done; intros q j; cbn.
  - destruct (decide (q = p)) as [->|]; [rewrite lookup_insert_eq; intros [= <-]; by rewrite lookup_insert_eq|].
    rewrite lookup_insert_ne by done. intros Hq%Hwf. rewrite lookup_insert_is_Some. destruct (decide (i = j)); auto.
  - intros Hq%Hwf. rewrite lookup_insert_is_Some. destruct (decide (i = j)); auto.
  - destruct (H q) as [->|(_ & _ & ->)]; [apply Hwf|done].
  - destruct (decide (q = (prefix0 ++ x) :: parent)) as [->|]; [by rewrite lookup_insert_eq|]. rewrite lookup_insert_ne by done. apply Hwf.
  - destruct (decide (q = new)) as [->|]; [rewrite lookup_insert_eq; intros [= <-]; by apply Hwf in H|].
    rewrite lookup_insert_ne by done. apply Hwf.
  - destruct (H q) as [->|(_ & ->)]; [apply Hwf|done].
Qed.
Lemma call_possible f' X (c : call X) r : answers f X c r f' -> possible X c r.
Proof. intros Ha. destruct Ha; try done; [by destruct c|]. by intros ? [= <-]. Qed.
Lemma call_stages f' X (c : call X) r s :
  answers f X c r f' -> staging_of (writes (advance l X c r)) = Some s ->
  staging_of (writes l) = Some s \/ entries f !! s = None.
Proof.
  intros Ha. destruct Ha; cbn [advance]; auto.
  - destruct c; cbn [advance]; auto; [by destruct f0; auto| |done]. by destruct (writes l) eqn:E; cbn; rewrite ?E; auto.
  - destruct fl; auto. by destruct (writes l) eqn:E; cbn; rewrite ?E; auto.
  - by destruct (writes l) eqn:E; cbn; rewrite ?E; auto.
  - by destruct r, (writes l) eqn:E; cbn; rewrite ?E; auto.
  - cbn. intros [= <-]. auto.
  - done.
Qed.
End calls.

(** ** Any number of callers *)

(** A process that initialises or reads the store. *)
Definition calls (m : prog jsstr) : Prop := exists uid cwd value, resolve cwd value = dest /\
  (m = ensureCredential uid cwd (VStr value) \/ m = readCredential uid cwd (VStr value)).

Definition coherent (s : fs * list (prog jsstr)) : Prop :=
  wf (fst s) /\ exists ls, Forall2 (fun m l => carries l m honest) (snd s) ls /\
    (forall i l, ls !! i = Some l -> knows (fst s) l) /\
    (forall i j l l' st, ls !! i = Some l -> ls !! j = Some l' ->
       staging_of (writes l) = Some st -> staging_of (writes l') = Some st -> i = j).

(** The published file stays as it is, and one that appears is complete. *)
Definition publishes (f f' : fs) : Prop :=
  (forall i bytes, entries f !! dest = Some (File i) -> inodes f !! i = Some bytes ->
     entries f' !! dest = Some (File i) /\ inodes f' !! i = Some bytes) /\
  (forall i, entries f' !! dest = Some (File i) ->
     entries f !! dest = Some (File i) \/ exists bytes, inodes f' !! i = Some bytes /\ complete bytes).

Lemma coherent_start f ms : wf f -> Forall calls ms -> coherent (f, ms).
Proof.
  intros Hf Hms. split; [done|]. exists (map (fun _ => {| writes := Idle; reads := Shut |}) ms). split_and!.
  - apply Forall2_fmap_r. eapply Forall_Forall2_diag, Forall_impl; [exact Hms|].
    intros m (uid & cwd & value & Hd & [->| ->]); [by apply carries_ensureCredential|by apply carries_readCredential].
  - intros i l (m & -> & _)%list_lookup_fmap_Some. by split.
  - by intros i j l l' st (m & -> & _)%list_lookup_fmap_Some.
Qed.

Lemma coherent_step s s' : coherent s -> step s s' -> coherent s' /\ publishes (fst s) (fst s').
Proof.
  intros (Hwf & ls & Hms & Hk & Hap) Hs. destruct Hs as [f f' ms i X c k r Hi Ha]. simpl in *.
  destruct (Forall2_lookup_l _ _ _ _ _ Hms Hi) as (l & Hl & [Hp Hnext]). pose proof (Hk i l Hl) as Hkl.
  assert (forall j l', ls !! j = Some l' -> j <> i -> keeps (staging_of (writes l')) f f') as Hothers.
  { intros j l' Hj Hne. eapply (call_keeps f l); eauto. intros st Hst. split; [by apply (Hk j l' Hj)|].
    intros Hst'. by apply Hne, (Hap j i l' l st). }
  split; [split|].
  - by eapply call_wf.
  - exists (<[i := advance l X c r]> ls). split_and!.
    + apply Forall2_insert; [done|]. apply Hnext. by eapply call_possible.
    + intros j l' [(-> & <- & _)|[Hne Hj]]%list_lookup_insert_Some; [by eapply call_knows|].
      destruct (Hk j l' Hj) as [Hw Hr]. specialize (Hothers j l' Hj (not_eq_sym Hne)).
      split; [by eapply keeps_writes|by eapply keeps_reads].
    + assert (forall j l' st, ls !! j = Some l' -> staging_of (writes (advance l X c r)) = Some st ->
        staging_of (writes l') = Some st -> j = i) as Hnew.
      { intros j l' st Hj Hst Hst'. destruct (call_stages _ _ Hwf Hkl _ _ _ _ _ Ha Hst) as [Hold|Hnone]; [by eapply Hap|].
        destruct (Hk j l' Hj) as [[Hs _] _]. destruct (Hs st Hst') as [_ He]. congruence. }
      intros j j' l1 l2 st [(-> & <- & _)|[Hne Hj]]%list_lookup_insert_Some [(-> & <- & _)|[Hne' Hj']]%list_lookup_insert_Some H1 H2;
        [done|symmetry; eauto|eauto|eauto].
  - pose proof (call_keeps f l Hwf Hkl f' X c r None Ha Hp ltac:(done)) as Hkeep. split.
    + intros j bytes Hd Hb. split; [by apply Hkeep|]. apply Hkeep; auto.
    + intros j. by eapply call_publishes.
Qed.
Lemma coherent_steps s s' : coherent s -> rtc step s s' -> coherent s' /\ publishes (fst s) (fst s').
Proof.
  intros Hs Hr. induction Hr as [s|s1 s2 s3 H12 H23 IH]; [split; [done|split; auto]|].
  destruct (coherent_step _ _ Hs H12) as [H2 [Hk1 Hn1]]. destruct (IH H2) as [H3 [Hk2 Hn2]].
  split; [done|]. split.
  - intros i bytes Hd Hb. destruct (Hk1 i bytes Hd Hb). by apply Hk2.
  - intros i [Hd|Hc]%Hn2; [|by right]. destruct (Hn1 i Hd) as [?|(bytes & Hb & Hc)]; [by left|right].
    exists bytes. split; [|done]. by apply (Hk2 i bytes Hd Hb).
Qed.
Lemma coherent_returns f ms v : coherent (f, ms) -> Return v ∈ ms ->
  exists i bytes, entries f !! dest = Some (File i) /\ inodes f !! i = Some bytes /\ token (Signaling.utf8_lossy bytes) = Some v.
Proof.
  intros (_ & ls & Hms & Hk & _) [i Hi]%list_elem_of_lookup.
  destruct (Forall2_lookup_l _ _ _ _ _ Hms Hi) as (l & Hl & Hh).
  destruct (Hh v eq_refl) as (bytes & Hr & Hv). destruct (Hk i l Hl) as [_ Hkr]. rewrite Hr in Hkr.
  destruct Hkr as (j & Hd & Hb). by exists j, bytes.
Qed.
End store.
End CredentialRace.
