(* ===== verification/CredentialRuns.v ===== *)
(** * The credential store: what the programs guarantee

    The theorems of the credential store, with two callers that race for one
    file and a caller run alone as their instances. *)

From stdpp Require Import gmap.
From S2P Require Import Prelude JsNumber JsString Regex Values Signaling Credential CredentialProps FileSystem CredentialRace.

Module CredentialRuns.
Import Credential CredentialProps FileSystem CredentialRace.

(** ** A new credential is accepted *)

Definition hex_digit (c : Z) : Prop := 48 <= c <= 57 \/ 97 <= c <= 102.
Lemma toHex_digits key : Forall is_byte key -> Forall hex_digit (toHex key) /\ length (toHex key) = (2 * length key)%nat.
Proof.
  unfold toHex. induction 1 as [|b key Hb _ [IH IHl]]; simpl; [done|]. split; [|lia].
  apply Is_true_true, andb_true_iff in Hb as [Hb1%Z.leb_le Hb2%Z.ltb_lt].
  assert (0 <= Z.shiftr b 4 < 16) by (rewrite Z.shiftr_div_pow2 by lia; change (2 ^ 4) with 16;

split; [apply Z.div_pos|apply Z.div_lt_upper_bound]; lia).
  assert (0 <= Z.land b 15 < 16) by (change 15 with (Z.ones 4); rewrite Z.land_ones by lia; apply Z.mod_pos_bound; lia).
  rewrite !Forall_cons. split_and!; [..|done]; unfold hex_digit, hex_char; case_match; lia.
Qed.
Lemma utf8_lossy_ascii bs : Forall (fun c => 0 <= c < 128) bs -> Signaling.utf8_lossy bs = bs.
Proof. induction 1 as [|c bs Hc _ IH]; [done|]. cbn [Signaling.utf8_lossy]. rewrite IH. by replace (c <? 0x80) with true by lia. Qed.
Lemma strip_newline_snoc s c : c <> 13 -> strip_newline (s ++ [c; 10]) = s ++ [c].
Proof.
  intros Hc. unfold strip_newline. rewrite rev_app_distr. cbn [rev app].
  destruct c as [|p|p]; [by rewrite rev_involutive| |by rewrite rev_involutive].
  do 4 (destruct p as [p|p|]; try (by rewrite rev_involutive)).
Qed.

Lemma token_complete key : length key = 32%nat -> Forall is_byte key ->
  token (Signaling.utf8_lossy (toHex key ++ [10])) = Some (toHex key).
Proof.
  intros Hlen Hkey. destruct (toHex_digits key Hkey) as [Hd Hl]. rewrite Hlen in Hl.
  rewrite utf8_lossy_ascii.
  2: { apply Forall_app. split; [|by repeat constructor]. eapply Forall_impl; [exact Hd|]. unfold hex_digit. simpl. lia. }
  assert (strip_newline (toHex key ++ [10]) = toHex key) as Hs.
  { destruct (exists_last (l := toHex key)) as (s & c & E); [by intros E; rewrite E in Hl|]. rewrite E in *.
    rewrite <- app_assoc. apply strip_newline_snoc. apply Forall_app in Hd as [_ [Hc _]%Forall_cons]. unfold hex_digit in Hc. lia. }
  unfold token. rewrite Hs. unfold zlength. rewrite Hl. cbn [Nat.mul Nat.add]. 
  assert (matches token_re (toHex key) = true) as ->; [|done].
  apply matches_spec. unfold token_re. apply in_cat_inv. exists (toHex key), []. split_and!; [by rewrite app_nil_r| |constructor].
  apply in_plus_cls. split; [by intros E; rewrite E in Hl|].
  eapply Forall_impl; [exact Hd|]. intros c Hc. unfold hex_digit in Hc. unfold alnum, alpha, digit.
  unfold upper, lower, between. lia.
Qed.

(** ** The programs run to an end in a value or one error *)

Lemma wp_true {St A} allowed possible next (m : prog A) (s : St) :
  (forall s X c, allowed s X c) -> wp allowed possible next m s (fun _ _ => True).
Proof. intros Ha. revert s. induction m as [| |X c k IH]; simpl; auto. Qed.
Lemma ends_unavailable {A} s (m : prog A) : {{ s }} unavailable m {{ fun o _ => forall e, o = inr e -> e = Unavailable }}.
Proof.
  apply wp_try_catch. eapply wp_mono; [by apply wp_true|]. intros [a|e] s' _; [done|]. by intros ? [= <-].
Qed.

(** ** One store *)

Definition home : path := [js "home"].
Definition store : path := js "credential" :: home.
Definition files : fs := {| entries := <[home := Other Directory]> {[ [] := Other Directory ]}; inodes := ∅; opened := ∅ |}.
Definition ensure_store : prog jsstr := ensureCredential 0 home (VStr (js "credential")).

(** C28: A caller that initialises the store ends in a credential or in the one
    error that says nothing about it.  Whatever its calls answer, and wherever
    it fails, it has closed every handle it opened and has asked for the removal
    of every staging directory it made; and when it returns a credential, the
    file's directory and every ancestor of it were synced after the file was
    last read. *)
Theorem nothing_left_behind uid cwd value tr o :
  execution (ensureCredential uid cwd value) tr o ->
  let s := account_all nothing tr in
  handles s = ∅ /\ stagings s = ∅ /\
  match o with
  | inl _ => exists filename, credentialPath cwd value = Return filename /\ forall p, p `suffix_of` dirname filename -> p ∈ durable s
  | inr e => e = Unavailable
  end.
Proof.
  intros H s. destruct (execution_wp _ _ _ _ _ H (frugal_ensureCredential uid cwd nothing value)) as [[Hh Hs] HP].
  pose proof (execution_wp _ _ _ _ _ H (ends_unavailable nothing _)) as He.
  split_and!; [|set_solver|destruct o as [v|e]; [by apply (HP v)|by apply He]].
  apply map_empty. intros h. destruct (handles s !! h) eqn:E; [|done].
  eapply lookup_weaken in E; [|exact Hh]. done.
Qed.

(** The calls of a caller that makes the store. *)
Definition run_alone : list event * (jsstr + fault) * fs := default ([], inr Plain, files) (play 30 files ensure_store).
Definition key01 : jsstr := concat (repeat (js "01") 32).
Example ensure_alone : snd (fst run_alone) = inl key01.
Proof. vm_compute. reflexivity. Qed.
Lemma run_alone_execution : execution ensure_store (fst (fst run_alone)) (snd (fst run_alone)).
Proof.
  unfold run_alone. destruct (play 30 files ensure_store) as [[[tr o] f]|] eqn:E; [by eapply play_execution|].
  apply (f_equal (fun x => match x with Some _ => true | None => false end)) in E. vm_compute in E. discriminate.
Qed.

Lemma nothing_left_behind_witness :
  length (fst (fst run_alone)) = 23%nat /\
  let s := account_all nothing (fst (fst run_alone)) in
  handles s = ∅ /\ stagings s = ∅ /\
  match snd (fst run_alone) with
  | inl _ => exists filename, credentialPath home (VStr (js "credential")) = Return filename /\
      forall p, p `suffix_of` dirname filename -> p ∈ durable s
  | inr e => e = Unavailable
  end.
Proof.
  split; [vm_compute; reflexivity|]. exact (nothing_left_behind 0 home _ _ _ run_alone_execution).
Defined.

(** C27: However many processes initialise or read one store, in any
    interleaving of their calls and with any of them failing or stopping at any
    point: a published file is never replaced nor changed; one that appears is a
    whole new credential, in the form that is accepted; every credential
    returned is the published one, and so all of them are the same. *)
Theorem published_once dest f ms f' ms' :
  wf f -> Forall (calls dest) ms -> rtc step (f, ms) (f', ms') ->
  (forall i bytes, entries f !! dest = Some (File i) -> inodes f !! i = Some bytes ->
     entries f' !! dest = Some (File i) /\ inodes f' !! i = Some bytes) /\
  (forall i, entries f' !! dest = Some (File i) -> entries f !! dest = Some (File i) \/
     exists key, length key = 32%nat /\ inodes f' !! i = Some (toHex key ++ [10]) /\
       token (Signaling.utf8_lossy (toHex key ++ [10])) = Some (toHex key)) /\
  (forall v, Return v ∈ ms' -> exists i bytes, entries f' !! dest = Some (File i) /\ inodes f' !! i = Some bytes /\
     token (Signaling.utf8_lossy bytes) = Some v) /\
  (forall v v', Return v ∈ ms' -> Return v' ∈ ms' -> v = v').
Proof.
  intros Hf Hms Hr. destruct (coherent_steps dest _ _ (coherent_start dest f ms Hf Hms) Hr) as [Hc [Hk Hn]].
  pose proof (fun v => coherent_returns dest f' ms' v Hc) as Hret.
  split_and!; [exact Hk| |exact Hret|].
  - intros i [?|(bytes & Hb & key & Hlen & Hkey & ->)]%Hn; [by left|right].
    exists key. split_and!; [done..|]. by apply token_complete.
  - intros v v' (i & bytes & Hi & Hb & Hv)%Hret (i' & bytes' & Hi' & Hb' & Hv')%Hret. congruence.
Qed.

(** Two callers make the store at once: both find no file and write a
    candidate; the second links its own first, and the first, whose key is
    another, returns that of the second. *)
Definition turns : list nat := repeat 0%nat 9 ++ repeat 1%nat 12 ++ repeat 0%nat 14 ++ repeat 1%nat 11.
Definition raced : fs * list (prog jsstr) := default (files, []) (schedule turns (files, [ensure_store; ensure_store])).
Definition returned (m : prog jsstr) : option jsstr := match m with Return v => Some v | _ => None end.
Example race_outcome : map returned (snd raced) = let key02 := concat (repeat (js "02") 32) in [Some key02; Some key02].
Proof. vm_compute. reflexivity. Qed.
Lemma raced_steps : rtc step (files, [ensure_store; ensure_store]) raced.
Proof.
  unfold raced. destruct (schedule turns _) as [s|] eqn:E; [by apply (schedule_steps turns)|].
  apply (f_equal (fun x => match x with Some _ => true | None => false end)) in E. vm_compute in E. discriminate.
Qed.
Lemma files_wf : wf files.
Proof. intros p i. unfold files. cbn. intros [[_ H]|[_ [_ H]%lookup_singleton_Some]]%lookup_insert_Some; done. Qed.
Lemma ensure_store_calls : calls store ensure_store.
Proof. exists 0, home, (js "credential"). split; [vm_compute; reflexivity|by left]. Qed.

Lemma published_once_witness :
  map returned (snd raced) = (let key02 := concat (repeat (js "02") 32) in [Some key02; Some key02]) /\
  (forall v v', Return v ∈ snd raced -> Return v' ∈ snd raced -> v = v').
Proof.
  split; [vm_compute; reflexivity|].
  pose proof raced_steps as Hr. destruct raced as [f' ms'] in *.
  apply (published_once store files [ensure_store; ensure_store] f' ms' files_wf); [|exact Hr].
  repeat constructor; apply ensure_store_calls.
Defined.
End CredentialRuns.
